(* ===== verification/_CoqProject ===== *)
-Q . S2P
Prelude.v
Api.v
Machine.v
Admission.v
Capacity.v
Placement.v
InstanceStore.v
Engine.v
Lifecycle.v
Wake.v
WakeCoord.v
Migration.v
Windows.v
Reaper.v
ReaperLoop.v
Triggers.v
Float64.v
RateLimit.v
Guards.v
Rebalance.v
Usage.v
Billing.v
Accounts.v
Gate.v
Picker.v
EdgeLimiter.v
GoStd.v
GoWire.v
EdgeRules.v
EdgeGates.v
Orgs.v
OrgRun.v
