(* ===== verification/Prelude.v ===== *)
(** * Gregale FaaS control plane: a shallow embedding and its proofs

    The repository is the control plane of a multi-tenant function platform: apps
    run in Firecracker microVMs that are parked as snapshots when idle and woken
    by a request.  The scheduler (schedd, src/pkg/sched) decides where an instance
    runs, accounts for its RAM, vCPU and concurrency, and drives its row in the
    instances table (src/pkg/state) through a state machine; vmmd creates and
    destroys the microVMs; src/pkg/api holds the plan table every limit is read
    from.  meterd (src/pkg/meter) samples every running instance once a minute into
    the usage tables, reports usage to the billing provider and enforces quotas;
    apid's billing webhook, the dunning timer and the grace timer move an account
    from active to erased.  gatewayd (src/pkg/gateway, src/cmd/gatewayd-internal)
    receives the requests: it finds the app of a host, passes the request through
    the edge rules of its account and the rate limits, picks a running instance or
    asks schedd for one, and proxies.  This development models the scheduler's
    decision and lifecycle code, from the plan table up to the wake path, the
    metering, billing and account code that works on what the scheduler ran, the
    gateway from the arrival of a request to the instance it is sent to, and the
    organizations of apid, through which accounts share what they own.

    ** Files and what they model

    - Prelude (this file): Go integers with their wrap-around, time.Time and
      time.Duration, string order, sort.Slice and running-best loops as functions
      of a comparator, sums and counts over maps, and the tactics and hint
      databases the other files share.
    - Api (src/pkg/api/limits.go): the plan rows (module [Limits] and the four
      [limits*] records), [LimitsFor], the accessor methods of Plan (module
      [Plan]), billable RAM and request budgets.
    - Machine (src/pkg/state/machine.go and the two effective-minimum files): the
      states, [transitions], [CanTransition], the accounting predicates, and the
      step relation [edge] with its closure [reachable].
    - Admission (src/pkg/sched/admission.go), module [Ledger]: the node ledger with
      its redundant counters, an abstract ledger [spec_admit] over the reservations
      alone, and the class [AdmissionLedger], the interface the engine's theorems
      are proved against; [NodeLedger_impl] discharges it.
    - Capacity (src/pkg/sched/capacity.go, capacity_sign.go and the receive loop of
      src/pkg/scheddgrpc/server.go), modules [Bytes] and [Capacity]: the canonical
      payload, signing and verifying, the report table and the report stream.
      SHA-256 and ECDSA are section variables with their documented laws.
    - Placement (src/pkg/sched/placement.go and the placement helpers of engine.go),
      module [Placement]: the node chooser, its comparator, the live-capacity
      overlay, the owner check and the peer searches.
    - InstanceStore (src/pkg/state/memstore.go), module [Store]: the instance-row
      reads and writes, each one atomic step because the store holds its mutex.
    - Engine (src/pkg/sched/engine.go and watchdog.go), module [Engine]: the world
      (rows, ledger, held app mutexes, existing microVMs, audit rows, and every write
      of a row so far), the monad
      [M] of computations on it, and KillStuck, the watchdog sweep, Park, Evict,
      the liveness destroy, ParkDeployment and SeedLedger.
    - Lifecycle, module [Lifecycle]: the theorems about the operations of Engine.
    - Wake (engine.go), module [Wake]: the wake gate, secret loading, the four
      phases of admitAndDispatch, the floor path, Wake, AdmitInstance and Prime.
    - WakeCoord (src/pkg/sched/wake_coord.go and Engine.EnsureWake), module [Coord]:
      the single-flight coordinator as a transition system: [exec] runs one
      action of one goroutine, [reach] is the states any interleaving can reach.
    - Migration (src/pkg/sched/migration_handoff.go, src/pkg/vmmdgrpc/
      migration_handlers.go and the migration part of engine.go), module
      [Migration]: the lease trackers of the vmmds, the handoff of an instance to
      another node, the drain of a node, and the two reconcilers that repair rows.
    - Windows (src/pkg/sched/scaleup/ringbuf.go, recentload/recentload.go and
      targets/ringbuf.go), modules [Ring], [RecentLoad] and [Inflight]: the sliding
      windows the reaper and the triggers read; [WindowSpec] compares them with the
      complete log of samples.
    - Reaper (src/pkg/sched/reaper.go), module [Reaper]: the three selectors
      [ReapIdle], [ReapAggressive] and [SelectEvictions].
    - ReaperLoop (src/pkg/sched/loop.go), module [ReaperLoop]: the reaper tick, which
      builds the snapshot, runs the selectors and parks and evicts through Engine.
    - Triggers (src/pkg/sched/scaleup, targets and floor), module [Triggers]: the
      decision functions, the admission backoff and the ticks, composed with Wake.
    - Float64: Go float64 arithmetic as rationals rounded to 53 bits, with error
      bounds.
    - RateLimit (src/pkg/sched/rate_limit.go), module [RateLimit]: the wake-rate
      token buckets and the engine's check of them.
    - Guards (src/pkg/sched/overage.go, warmaffinity.go, upstream_affinity.go and
      liveness_window.go), modules [Overage], [WarmAffinity], [UpstreamAffinity] and
      [LivenessWindow]: the caches the wake and liveness paths consult.
    - Rebalance (src/pkg/sched/pressure_aggregator.go, rebalancer.go,
      pressure_rebalancer.go and the rebalancing part of engine.go and memstore.go),
      modules [Pressure] and [Rebalance]: the refusal window and the moves of apps
      between schedulers, with the other schedulers' writes interleaved.
    - Usage (src/pkg/meter/sampler.go, pusher.go and math.go, and the usage tables of
      memstore.go), modules [Calendar], [Usage], [Sampler] and [Pusher]: UTC months,
      the minute rows with their month view, the sampling tick and the hourly push.
    - Billing (src/pkg/meter/aggregator.go, src/pkg/billing/plans.go and
      credit_consume.go, and the credit reducer of memstore.go), modules [Quota],
      [Spend] and [Credits].
    - Accounts (the account rows of memstore.go, handleBillingEvent and the deletion
      handlers of src/cmd/apid, src/pkg/meter/dunning.go, quota.go and loop.go, and
      src/pkg/grace/grace.go), modules [Accounts], [Webhook], [Dunning], [QuotaLoop]
      and [Grace]; [AccountRun] interleaves their turns, each of which may act on a
      row it read any number of turns ago.
    - Gate (src/pkg/gateway/gate.go), module [Gate]: the wake gate as interleaved
      steps of requests and detached leaders.
    - Picker (src/pkg/gateway/pgbackend.go, scheduler.go and the wake path of
      handler.go), modules [TargetSet] and [Picker]: the instances of an app, the
      weighted choice of a deployment, Admit, the evictions and [route].
    - EdgeLimiter (src/pkg/gateway/ratelimit.go and ratelimit_central.go), module
      [EdgeLimiter]: the token buckets of the edge with their LRU, the consumer
      buckets and the central counter.
    - GoStd: what the gateway and apid use of the Go library: strings, path.Match with
      UTF-8 (module [Glob]), addresses and prefixes ([Net]), base64, hex and headers.
    - GoWire: the wire formats behind the page cursors: padded base64url (module
      [URL64]), the RFC 3339 form of a time ([Rfc3339]) and JSON objects ([Json]).
    - EdgeRules (the edge-rule table of memstore.go and types.go, src/cmd/
      gatewayd-internal/edge_rules.go and src/pkg/gateway/edge_rules.go), module
      [EdgeRules]: rows, quotas, compilation into host entries, the cache and the
      matchers; the class [Compiled] says which slice of an entry holds which kind.
      [gstep] interleaves the lookups, reads and fills of requests with changes of
      the rules and the resets that follow them.
    - EdgeGates (src/pkg/gateway/handler.go, portnorm.go, authenticated.go,
      public_auth_cache.go and the budget file), module [EdgeGates]: the gates of
      ServeHTTP in their order, as a state monad with early answers.
    - Orgs (the organization part of memstore.go, src/pkg/authz/authorize.go and
      loadorg.go, src/pkg/cursor, and handlers_org.go, handlers_org_members.go,
      handlers_org_invitations.go, org_handler_helpers.go and org_dto.go of
      src/cmd/apid), modules [OrgStore] and [OrgApi]: organizations, memberships and
      invitations, the role table and the handlers.
    - OrgRun, module [OrgRun]: their requests interleaved, each served with a
      membership LoadOrg read any number of steps ago, and the specification
      [effect] of the rows each kind of request writes and the role it needs.

    ** How effects are modelled

    A method of the engine is a function from worlds to an optional result and
    world.  Each store or vmmd call consumes one bit of [faults] (true: the call
    fails), so a theorem about every world is a theorem about every failure
    pattern; once the list is used up calls succeed.  Locking a held app mutex has
    no result: the goroutine is blocked, so "the run has a result" means "it does
    not deadlock".  While a wake has dropped its lock, other goroutines are a list
    of lifecycle operations that run in that window.  Loops of the code that end by
    a deadline take the list of what their turns observe; there is no fuel, every
    recursion is structural, except in the JSON decoder of GoWire, whose fuel of twice
    the input is enough because every two calls consume a byte.

    ** What the theorems show

    - Ledger: for every history the counters are the sums over the live
      reservations and stay within the node ceilings and app caps
      ([ledger_safety]), the ledger refines the abstract one ([ledger_refinement]),
      and the readers are exact.
    - Placement: the choice is safe, complete, optimal and independent of listing
      order, and agrees with the admission that follows unless other reservations were
      made on the node in between ([placement_implies_admission]).
    - Capacity: a report table lookup is exactly the latest accepted fresh report;
      signatures round-trip and bind every signed field.
    - Machine and store: no stranded states, sound accounting classes,
      compare-and-set migration writes that are legal edges.
    - Lifecycle: under every failure pattern no operation deadlocks, leaks a lock,
      adds a reservation or writes a row against the transition table, each write
      taken on its own ([lifecycle_safe]); without
      failures park, evict and the watchdog pass achieve what they promise.
    - Wake: under every failure pattern and interference a wake returns and leaves
      no reservation behind on an error other than that of the sealed environment
      ([wake_never_leaks]); without failures it
      succeeds ([wake_succeeds]); the gate agrees with the ledger.
    - Wake coordinator: over every interleaving the waiter counts are exact and
      bounded, every open call has exactly one running leader, no follower is
      stranded and each gets its leader's outcome or a documented error; one open
      call per app as long as no release removes another call's entry.
    - Migration: under every failure pattern and interleaving a handoff returns,
      touches no other instance and leaves no reservation behind on an error
      ([handoff_safe]); a drain is bounded; the reconcilers clear what they list.
      A handoff between two nodes never commits.
    - Windows: a window reads exactly the samples of its last [windowSize] bucket
      widths, and its storage is bounded.
    - Reaper: each selector returns exactly the rows its contract names, in order,
      respecting floors, cooldowns and the keep counts; a tick is safe under every
      failure pattern ([reaper_tick_safe]) and, without failures, parks and evicts
      exactly what was selected ([reaper_tick_effective]).
    - Triggers: the ticks are safe to run, but the reactive ones never add an
      instance to a running app ([triggers_never_scale_out]); the backoff follows
      its schedule ([floor_backoff_schedule]).
    - Guards of the wake path: the rate limiter admits at most a burst plus the rate
      times the elapsed time, and always after a quiet minute, in float64 arithmetic;
      the spend cap answers from reads younger than its TTL; the affinity and
      liveness caches answer exactly what their history says.
    - Rebalancing: racing schedulers claim an orphaned app once; a drain respects
      cooldown, batch size and ceiling; a pressure sweep moves only apps that were
      refused often enough, to a node with room.
    - Usage: the month view is the sum of the first writes of every minute
      ([month_bill_exact]); repeated and failing ticks bill each instance-minute once
      by what its first successful tick read ([minute_billed_once]); hourly pushes report every hour that the provider
      accepts exactly once ([hourly_push_exact]).
    - Billing: the float64 quota verdict is exact to one MB-second
      ([quota_exact]); however often an invoice is replayed its credits are drained
      once, in order, and never below zero, provided the first call took something
      ([credits_consumed_once]).
    - Accounts: over every interleaving an account is erased only while it is
      marked for deletion and after a request at least thirty days old that no restore
      had withdrawn when the grace timer read it ([hard_delete_justified]), a
      warning is sent at most once a day, the timers act exactly when due
      ([account_timers_exact]), and a Free account over quota is stopped
      unless its spend cap is reached, which ends the turn of an account of any plan
      ([free_quota_enforced]).
    - Wake gate: over every interleaving at most one wake of an app runs
      ([gate_single_flight]), every request ends with the outcome of its wake or a
      documented error ([gate_outcome]), and the gate makes progress.
    - Picker: the backend stays well formed, a request of an app with room is routed
      unless its wait is cut short ([route_wakes]), and a full round of the cursor splits the traffic exactly by
      the weights ([traffic_split_exact]).
    - Edge limiter: evicting a bucket cannot be observed by any caller
      ([eviction_unobservable]), and the consumers of a rule are bounded.
    - Edge rules: a matcher returns the covering rule with the least priority number
      ([edge_match_exact]) and the cache answers as the table does
      ([edge_cache_transparent]), for the current table once the changes are notified
      and no late fill of the host is left, and for an earlier one otherwise; a rule is
      added only below the caps of the plan ([edge_rule_quota]), and compiled
      values are in range.
    - Gates: whatever is forwarded has passed every gate that a rule of its account
      armed ([forwarded_request_checked]) with a body within the cap of its limit rule
      ([forwarded_body_bounded]); a request refused before the throttle changes no
      limiter ([early_answer_spends_nothing]); an open app is served while its
      limiters have tokens ([open_app_served]).
    - Organizations: over every interleaving an organization has exactly one active
      owner once it is seeded ([org_owner_unique]), nobody is on its rolls uninvited
      ([membership_origin]), a request writes only the rows of its kind and only under
      a role that permits it ([org_requests_refine]), an invitation is used at most once
      ([invitation_single_use]), its token enrolls the invited address
      ([invitation_roundtrip]), and the pages list every invitation once,
      cursors passing through their text form ([invitation_pages_exact]).
    - Several theorems pin down behaviour that differs from the comments or is a
      defect: two paths that keep the app mutex forever, a watchdog race that drops
      the reservation of a running instance, a park that strands its row, the
      ledger rebuild that loses deployments, a coordinator release that admits a
      second leader, replayed capacity reports, rows that a failed or repaired
      migration leaves RUNNING without a microVM, five ways a reaper tick harms a
      healthy app, floor instances that never boot, a daily push that misses 23
      hours, an overage 102,400 times the price, accounts that are stuck, lose
      their deletion request or are judged by a stale dunning clock, a wake whose
      outcome is replayed to later requests, a traffic split that is lost when an app
      scales to zero, and at the edge a route rule that captures the host of another
      account, a foreign rule or an empty host selector or a failing store that
      switches the gates off, a budget that cancels the request it is stamped on,
      and a throttle by API key that never sees a key; and a removed admin who keeps
      inviting members, in organizations whose free plan has no cap.

    ** What is not modelled

    Metrics, logs, events and traces have no effect on the modelled state.  The
    token buckets, affinity caches and the spend-cap cache enter the wake path as
    parameters (their answers); they are modelled on their own in RateLimit and
    Guards.  In the metering code the provider, the telemetry sources and the UUID
    hash are parameters.  In the gateway the token verifier, the country database,
    the schema validator, the key store and the unsealer are parameters, and case
    mapping is that of ASCII; what happens between the gateway and the instance
    (proxying, streaming, upgrades, certificates) is not modelled, nor are the route
    cache, the builder, the provider clients and the SQL roll-ups.  Of the organization
    requests the session, MFA and scope middleware come before the model, a request
    body is what the JSON decoder returned, and a handler behind LoadOrg is one step
    (createSharedOrg is two); SHA-256 is a parameter.  The PostgreSQL
    store, vmmd, image builds, the rest of the HTTP API and the command-line tools
    are I/O around this core. *)

From stdpp Require Export base gmap strings list sorting.
From Stdlib Require Export ZArith Lia.
#[global] Open Scope Z_scope.

(** ** Scope and notations *)

Declare Scope go_scope.
Delimit Scope go_scope with go.

(** ** Go integers

    [int] and [int64] are 64-bit two's complement; [+], [-] and [*] wrap
    around.  [i64] is that wrap-around, [i32] and the unsigned variants are
    the corresponding conversions. *)

Definition i64 (z : Z) : Z := (z + 2 ^ 63) mod 2 ^ 64 - 2 ^ 63.
Definition i32 (z : Z) : Z := (z + 2 ^ 31) mod 2 ^ 32 - 2 ^ 31.
Definition u64 (z : Z) : Z := z mod 2 ^ 64.
Definition u32 (z : Z) : Z := z mod 2 ^ 32.

Definition in_i64 (z : Z) : Prop := - 2 ^ 63 ≤ z < 2 ^ 63.
Definition in_i32 (z : Z) : Prop := - 2 ^ 31 ≤ z < 2 ^ 31.

Notation "a +! b" := (i64 (a + b)) (at level 50, left associativity) : go_scope.
Notation "a -! b" := (i64 (a - b)) (at level 50, left associativity) : go_scope.
Notation "a *! b" := (i64 (a * b)) (at level 40, left associativity) : go_scope.
#[global] Open Scope go_scope.

Lemma i64_id z : in_i64 z → i64 z = z.
Proof. unfold in_i64, i64. intros H. rewrite Z.mod_small; lia. Qed.

Lemma i32_id z : in_i32 z → i32 z = z.
Proof. unfold in_i32, i32. intros H. rewrite Z.mod_small; lia. Qed.

Lemma i64_range z : in_i64 (i64 z).
Proof. unfold in_i64, i64. pose proof (Z.mod_pos_bound (z + 2 ^ 63) (2 ^ 64)). lia. Qed.

Lemma i64_add_l a b : i64 (i64 a + b) = i64 (a + b).
Proof.
  unfold i64. f_equal.
  replace ((a + 2 ^ 63) mod 2 ^ 64 - 2 ^ 63 + b + 2 ^ 63) with ((a + 2 ^ 63) mod 2 ^ 64 + b) by lia.
  rewrite Zplus_mod_idemp_l. f_equal. lia.
Qed.

Lemma u32_id z : 0 ≤ z < 2 ^ 32 → u32 z = z.
Proof. unfold u32. intros. by rewrite Z.mod_small. Qed.

Lemma u64_id z : 0 ≤ z < 2 ^ 64 → u64 z = z.
Proof. unfold u64. intros. by rewrite Z.mod_small. Qed.

(** Go's integer division truncates toward zero. *)
Definition go_div (a b : Z) : Z := i64 (Z.quot a b).

(** ** time.Time and time.Duration

    An instant is a count of nanoseconds since the Unix epoch; its range in
    Go (about 292 billion years) is not a limit the code can meet, so it is a
    [Z].  A duration is an [int64] of nanoseconds: [Time.Sub] saturates at
    the ends of that range. *)

Definition Time := Z.
Definition Duration := Z.

Definition min_duration : Z := - 2 ^ 63.
Definition max_duration : Z := 2 ^ 63 - 1.

Definition time_sub (t u : Z) : Z := Z.max min_duration (Z.min max_duration (t - u)).
Definition time_add (t d : Z) : Z := t + d.

Definition Nanosecond : Z := 1.
Definition Millisecond : Z := 1000000.
Definition Second : Z := 1000000000.
Definition Minute : Z := 60 * Second.
Definition Hour : Z := 60 * Minute.

(** [time.Time{}]: January 1, year 1, 00:00:00 UTC. *)
Definition zero_time : Z := -62135596800 * Second.

(** A comparison of a saturated difference against a duration below the
    saturation bound is the comparison of the exact difference. *)
Lemma time_sub_gt t u d : 0 ≤ d < max_duration → (d < time_sub t u ↔ d < t - u).
Proof. unfold time_sub, max_duration, min_duration. lia. Qed.

Lemma time_sub_lt t u d : 0 ≤ d < max_duration → (time_sub t u < d ↔ t - u < d).
Proof. unfold time_sub, max_duration, min_duration. lia. Qed.

(** ** The order on Go strings: bytewise lexicographic *)

Definition str_ltb (a b : string) : bool := String.ltb a b.

Lemma ascii_compare_lt a b :
  Ascii.compare a b = Lt ↔ (Ascii.N_of_ascii a < Ascii.N_of_ascii b)%N.
Proof. unfold Ascii.compare. apply N.compare_lt_iff. Qed.

Lemma ascii_compare_eq a b : Ascii.compare a b = Eq ↔ a = b.
Proof.
  unfold Ascii.compare. rewrite N.compare_eq_iff. split; [|by intros ->].
  intros H. by rewrite <- (Ascii.ascii_N_embedding a), H, Ascii.ascii_N_embedding.
Qed.

Lemma str_compare_refl a : String.compare a a = Eq.
Proof.
  induction a as [|c a IH]; [done|]. simpl.
  by rewrite (proj2 (ascii_compare_eq c c) eq_refl).
Qed.

Lemma str_compare_trans a b c :
  String.compare a b = Lt → String.compare b c = Lt → String.compare a c = Lt.
Proof.
  revert b c. induction a as [|x a IH]; intros [|y b] [|z c]; try done. simpl.
  destruct (Ascii.compare x y) eqn:Exy, (Ascii.compare y z) eqn:Eyz; try done.
  - apply ascii_compare_eq in Exy as ->. rewrite Eyz. apply IH.
  - apply ascii_compare_eq in Exy as ->. by rewrite Eyz.
  - apply ascii_compare_eq in Eyz as ->. by rewrite Exy.
  - apply ascii_compare_lt in Exy, Eyz.
    by rewrite (proj2 (ascii_compare_lt x z) (N.lt_trans _ _ _ Exy Eyz)).
Qed.

Lemma str_ltb_lt a b : str_ltb a b = true ↔ String.compare a b = Lt.
Proof. unfold str_ltb, String.ltb. destruct (String.compare a b); naive_solver. Qed.

(** ** Strict weak orders

    What [sort.Slice] asks of its [less] argument: asymmetric, and
    incomparability is transitive (stated as negative transitivity). *)

Class WeakOrder {A : Type} (less : A → A → bool) : Prop := {
  less_asym a b : less a b = true → less b a = false;
  less_negtrans a b c : less a b = false → less b c = false → less a c = false;
}.

Lemma less_irrefl {A} (less : A → A → bool) `{!WeakOrder less} a : less a a = false.
Proof. destruct (less a a) eqn:E; [|done]. by rewrite (less_asym _ _ E) in E. Qed.

(** [TotalLess less] additionally says that incomparable elements are equal. *)
Class TotalLess {A : Type} (less : A → A → bool) : Prop :=
  less_total a b : less a b = false → less b a = false → a = b.

#[export] Instance Zltb_weak : WeakOrder Z.ltb.
Proof. split; intros *; rewrite ?Z.ltb_lt, ?Z.ltb_ge; lia. Qed.

#[export] Instance str_ltb_total : TotalLess str_ltb.
Proof.
  intros a b. unfold str_ltb, String.ltb. rewrite (String.compare_antisym b a).
  destruct (String.compare a b) eqn:E; try done. intros _ _. by apply String.compare_eq_iff.
Qed.

#[export] Instance str_ltb_weak : WeakOrder str_ltb.
Proof.
  split.
  - intros a b H%str_ltb_lt. unfold str_ltb, String.ltb.
    by rewrite String.compare_antisym, H.
  - intros a b c H1 H2. destruct (str_ltb a c) eqn:H3; [|done].
    apply str_ltb_lt in H3.
    destruct (str_ltb b a) eqn:E1.
    { apply str_ltb_lt in E1.
      assert (str_ltb b c = true) by (apply str_ltb_lt; eauto using str_compare_trans).
      congruence. }
    assert (a = b) as -> by by apply str_ltb_total.
    apply str_ltb_lt in H3. congruence.
Qed.

(** A boolean key: [false] sorts first. *)
Definition false_first (a b : bool) : bool := negb a && b.

#[export] Instance false_first_weak : WeakOrder false_first.
Proof. split; [by intros [] []|by intros [] [] []]. Qed.

(** The reverse of an order and an order on a key are orders. *)
Lemma flip_weak {A} (less : A → A → bool) : WeakOrder less → WeakOrder (λ a b, less b a).
Proof. intros [Ha Hn]. split; eauto. Qed.

Lemma key_weak {A K} (key : A → K) (less : K → K → bool) :
  WeakOrder less → WeakOrder (λ a b, less (key a) (key b)).
Proof. intros [Ha Hn]. split; eauto. Qed.

(** Lexicographic composition, written the way the comparators write it:
    decide on the key when the keys differ, otherwise fall through. *)
Section lex.
Context {A K : Type} (key : A → K) (keq : K → K → bool) (klt : K → K → bool).
Context (rest : A → A → bool).

Definition lex_less (a b : A) : bool :=
  if negb (keq (key a) (key b)) then klt (key a) (key b) else rest a b.

Context `{!WeakOrder klt, !WeakOrder rest}.
Hypothesis keq_spec : ∀ x y, keq x y = negb (klt x y) && negb (klt y x).

Lemma lex_less_cases a b :
  lex_less a b = klt (key a) (key b) || (negb (klt (key b) (key a)) && rest a b).
Proof.
  unfold lex_less. rewrite keq_spec.
  destruct (klt (key a) (key b)) eqn:E1, (klt (key b) (key a)) eqn:E2; try done.
Qed.

(** Incomparable elements have the same key and are incomparable further down the chain. *)
Lemma lex_less_sep a b :
  lex_less a b = false → lex_less b a = false →
  keq (key a) (key b) = true ∧ rest a b = false ∧ rest b a = false.
Proof.
  rewrite !lex_less_cases, keq_spec.
  destruct (klt (key a) (key b)), (klt (key b) (key a)); naive_solver.
Qed.

Lemma lex_less_weak : WeakOrder lex_less.
Proof using All.
  split.
  - intros a b. rewrite !lex_less_cases, orb_true_iff, andb_true_iff, negb_true_iff.
    intros [H|[H1 H2]]; [by rewrite (less_asym _ _ H), H|].
    rewrite H1. simpl. by rewrite (less_asym _ _ H2), andb_false_r.
  - intros a b c. rewrite !lex_less_cases, !orb_false_iff, !andb_false_iff, !negb_false_iff.
    intros [H1 H2] [H3 H4]. split; [by eapply less_negtrans|].
    destruct (klt (key c) (key a)) eqn:Eca; [by left|right].
    assert (klt (key b) (key a) = false) by by eapply less_negtrans; eauto.
    assert (klt (key c) (key b) = false) by by eapply less_negtrans; eauto.
    destruct H2 as [H2|H2]; [congruence|]. destruct H4 as [H4|H4]; [congruence|].
    by eapply less_negtrans.
Qed.
End lex.

Lemma Zeqb_lt_spec x y : Z.eqb x y = negb (x <? y) && negb (y <? x).
Proof. lia. Qed.

Lemma bool_eqb_spec x y : Bool.eqb x y = negb (false_first x y) && negb (false_first y x).
Proof. by destruct x, y. Qed.

Lemma str_eqb_spec x y : String.eqb x y = negb (str_ltb x y) && negb (str_ltb y x).
Proof.
  destruct (String.eqb_spec x y) as [->|Hne].
  - destruct (str_ltb y y) eqn:E; [|done]. by rewrite (less_asym _ _ E) in E.
  - destruct (str_ltb x y) eqn:E1; [done|]. destruct (str_ltb y x) eqn:E2; [done|].
    by destruct Hne; apply str_ltb_total.
Qed.

(** ** sort.Slice

    The relation a sorted slice satisfies, and the sort itself.  [sort.Slice]
    is not stable: the model is one of its possible results, and the only one
    whenever the comparator is total on the slice ([go_sort_unique]). *)

Definition not_after {A} (less : A → A → bool) (a b : A) : Prop := less b a = false.

#[export] Instance not_after_dec {A} (less : A → A → bool) a b :
  Decision (not_after less a b).
Proof. unfold not_after. apply _. Defined.

Definition go_sort {A} (less : A → A → bool) (l : list A) : list A :=
  merge_sort (not_after less) l.

Section go_sort.
Context {A : Type} (less : A → A → bool) `{!WeakOrder less}.

Lemma not_after_trans : Transitive (not_after less).
Proof using All. intros a b c H1 H2. by eapply less_negtrans. Qed.

Lemma not_after_total : Total (not_after less).
Proof using All.
  intros a b. unfold not_after. destruct (less b a) eqn:E; [|by left].
  right. by apply less_asym.
Qed.

Lemma go_sort_perm l : go_sort less l ≡ₚ l.
Proof. apply merge_sort_Permutation. Qed.

Lemma go_sort_sorted l : StronglySorted (not_after less) (go_sort less l).
Proof using All.
  apply StronglySorted_merge_sort; [apply not_after_trans|apply not_after_total].
Qed.

Lemma elem_of_go_sort l x : x ∈ go_sort less l ↔ x ∈ l.
Proof. by rewrite (go_sort_perm l). Qed.

Lemma length_go_sort l : length (go_sort less l) = length l.
Proof. by rewrite (go_sort_perm l). Qed.

(** A comparator that separates the elements determines the sorted slice. *)
Lemma go_sort_unique l l' :
  (∀ a b, a ∈ l → b ∈ l → less a b = false → less b a = false → a = b) →
  l ≡ₚ l' → StronglySorted (not_after less) l' → go_sort less l = l'.
Proof using All.
  intros Hsep Hp Hs. apply (StronglySorted_unique_strong (not_after less)).
  - intros a b Ha Hb H1 H2. rewrite elem_of_go_sort in Ha.
    apply Hsep; [done|by rewrite Hp|exact H2|exact H1].
  - apply go_sort_sorted.
  - done.
  - by rewrite go_sort_perm.
Qed.
End go_sort.

(** A prefix of a sorted list holds its least elements. *)
Lemma sorted_app_order {A} (R : A → A → Prop) l1 l2 a b :
  StronglySorted R (l1 ++ l2) → a ∈ l1 → b ∈ l2 → R a b.
Proof.
  induction l1 as [|x l1 IH]; simpl; [by intros _ ?%elem_of_nil|].
  intros [Hs Hf]%StronglySorted_inv [->|Ha]%elem_of_cons Hb; [|by apply IH].
  rewrite Forall_forall in Hf. apply Hf. rewrite list_elem_of_In, in_app_iff, <- !list_elem_of_In.
  by right.
Qed.

(** ** Filters by a boolean test *)

Lemma filter_cons_bool {A} (P : A → bool) x l : filter P (x :: l) = if P x then x :: filter P l else filter P l.
Proof.
  destruct (P x) eqn:E; [by rewrite filter_cons_True by by rewrite E|].
  by rewrite filter_cons_False by (rewrite E; by intros []).
Qed.

Lemma filter_all {A} (P : A → bool) (l : list A) : (∀ x, x ∈ l → P x = true) → filter P l = l.
Proof.
  induction l as [|x l IH]; intros H; [done|]. rewrite filter_cons_True by (by rewrite H; [|left]).
  f_equal. apply IH. intros y Hy. apply H. by right.
Qed.

Lemma filter_none {A} (P : A → bool) (l : list A) : (∀ x, x ∈ l → P x = false) → filter P l = [].
Proof.
  induction l as [|x l IH]; intros H; [done|]. rewrite filter_cons_False by (rewrite H by (by left); by intros []).
  apply IH. intros y Hy. apply H. by right.
Qed.

Lemma elem_of_filter_bool {A} (P : A → bool) (l : list A) x : x ∈ filter P l ↔ P x = true ∧ x ∈ l.
Proof. by rewrite list_elem_of_filter, Is_true_true. Qed.

(** The position of an element in a sorted slice is the number of elements the comparator puts before
    it, so being in a prefix of the sorted slice is a bound on that rank. *)
Lemma sorted_split_rank {A} (less : A → A → bool) `{!WeakOrder less} (l1 : list A) x l2 :
  StronglySorted (not_after less) (l1 ++ x :: l2) → x ∉ l1 →
  (∀ a, a ∈ l1 → less a x = false → less x a = false → a = x) →
  filter (λ y, less y x) (l1 ++ x :: l2) = l1.
Proof.
  intros Hs Hx Hsep. rewrite filter_app. pose proof (less_asym x x) as Hxx.
  rewrite (filter_none _ (x :: l2)), app_nil_r.
  - apply (filter_all (λ y, less y x)). intros y Hy.
    pose proof (sorted_app_order _ l1 (x :: l2) y x Hs Hy ltac:(by left)) as Hyx.
    destruct (less y x) eqn:E; [done|]. by rewrite (Hsep y Hy E Hyx) in Hy.
  - apply StronglySorted_app in Hs as (_ & _ & [_ Hf]%StronglySorted_inv).
    rewrite Forall_forall in Hf. intros y [->|Hy]%elem_of_cons; [|by apply Hf].
    destruct (less x x); auto.
Qed.

Lemma elem_of_take_rank {A} (less : A → A → bool) `{!WeakOrder less} (l : list A) n x :
  NoDup l → (∀ a b, a ∈ l → b ∈ l → less a b = false → less b a = false → a = b) →
  x ∈ take n (go_sort less l) ↔ x ∈ l ∧ (length (filter (λ y, less y x) l) < n)%nat.
Proof.
  intros Hnd Hsep. pose proof (go_sort_sorted less l) as Hs. pose proof (go_sort_perm less l) as Hp.
  assert (NoDup (go_sort less l)) as Hnd' by by rewrite Hp.
  assert (∀ l1 l2, go_sort less l = l1 ++ x :: l2 → length (filter (λ y, less y x) l) = length l1) as Hr.
  { intros l1 l2 E. rewrite <- Hp, E. rewrite E in Hs, Hnd'. apply NoDup_app in Hnd' as (_ & Hd & _).
    f_equal. apply sorted_split_rank; [done|done|..].
    - intros Hx. apply (Hd x Hx). by left.
    - intros a Ha. apply Hsep; rewrite <- Hp, E; set_solver. }
  split.
  - intros (i & Hi & Hlt)%elem_of_take. split; [rewrite <- Hp; by eapply list_elem_of_lookup_2|].
    apply list_elem_of_split_length in Hi as (l1 & l2 & E & ->). by rewrite (Hr l1 l2 E).
  - intros [Hx Hlt]. rewrite <- Hp in Hx. apply list_elem_of_split in Hx as (l1 & l2 & E).
    rewrite (Hr l1 l2 E) in Hlt. rewrite E, take_app_ge by lia.
    apply elem_of_app. right. destruct (n - length l1)%nat eqn:En; [lia|]. by left.
Qed.

(** The running-best loop: [best := first; for x { if less x best { best = x } }]. *)
Definition go_best {A} (less : A → A → bool) (c : A) (cs : list A) : A :=
  foldl (λ best n, if less n best then n else best) c cs.

Lemma go_best_spec {A} (less : A → A → bool) `{!WeakOrder less} c cs :
  go_best less c cs ∈ c :: cs ∧ (∀ x, x ∈ c :: cs → less x (go_best less c cs) = false).
Proof.
  unfold go_best. revert c. induction cs as [|n cs IH]; intros c; simpl.
  - split; [by left|]. intros x [->|?%elem_of_nil]%elem_of_cons; [|done].
    destruct (less c c) eqn:E; [|done]. by rewrite (less_asym _ _ E) in E.
  - destruct (IH (if less n c then n else c)) as [Hin Hmin].
    set (b := foldl _ _ cs) in *. split.
    { apply elem_of_cons in Hin as [->|Hin]; [|by do 2 right].
      destruct (less n c); [by right; left|by left]. }
    pose proof (Hmin (if less n c then n else c) ltac:(by left)) as Hc.
    intros x [->|[->|Hx]%elem_of_cons]%elem_of_cons; [| |apply Hmin; by right].
    + destruct (less n c) eqn:E; [|done]. apply less_asym in E. by eapply less_negtrans.
    + destruct (less n c) eqn:E; [done|]. by eapply less_negtrans.
Qed.

(** When the comparator separates the elements the winner does not depend on the order. *)
Lemma go_best_perm {A} (less : A → A → bool) `{!WeakOrder less} c cs c' cs' :
  (∀ a b, a ∈ c :: cs → b ∈ c :: cs → less a b = false → less b a = false → a = b) →
  c :: cs ≡ₚ c' :: cs' → go_best less c cs = go_best less c' cs'.
Proof.
  intros Hsep Hp. destruct (go_best_spec less c cs) as [Hi Hm].
  destruct (go_best_spec less c' cs') as [Hi' Hm']. apply Hsep; [done|by rewrite Hp| |].
  - apply Hm'. by rewrite <- Hp.
  - apply Hm. by rewrite Hp.
Qed.

(** ** Sums over a finite map *)

Section map_sum.
Context {K V : Type} `{Countable K}.
Implicit Types (m : gmap K V) (f g : V → Z).

Definition map_sum f m : Z := map_fold (λ _ v acc, f v + acc) 0 m.

Lemma map_sum_empty f : map_sum f ∅ = 0.
Proof. apply map_fold_empty. Qed.

Lemma map_sum_insert f m k v : m !! k = None → map_sum f (<[k:=v]> m) = f v + map_sum f m.
Proof. intros Hk. unfold map_sum. rewrite map_fold_insert_L; [done|lia|done]. Qed.

Lemma map_sum_delete f m k v : m !! k = Some v → map_sum f m = f v + map_sum f (delete k m).
Proof. intros Hk. unfold map_sum. rewrite (map_fold_delete_L _ _ k v m); [done|lia|done]. Qed.

Lemma map_sum_update f m k v v' :
  m !! k = Some v → map_sum f (<[k:=v']> m) = map_sum f m - f v + f v'.
Proof.
  intros Hk. rewrite <- insert_delete_eq, map_sum_insert by apply lookup_delete_eq.
  rewrite (map_sum_delete f m k v Hk). lia.
Qed.

Lemma map_sum_le f g m :
  (∀ k v, m !! k = Some v → f v ≤ g v) → map_sum f m ≤ map_sum g m.
Proof.
  induction m as [|k v m Hk IH] using map_ind; intros Hle; [by rewrite !map_sum_empty|].
  rewrite !map_sum_insert by done.
  pose proof (Hle k v (lookup_insert_eq m k v)).
  assert (map_sum f m ≤ map_sum g m); [|lia].
  apply IH. intros k' v' Hv'. apply (Hle k'). rewrite lookup_insert_ne; congruence.
Qed.

Lemma map_sum_ext f g m : (∀ k v, m !! k = Some v → f v = g v) → map_sum f m = map_sum g m.
Proof.
  intros Hfg. apply Z.le_antisymm; apply map_sum_le; intros k v Hv; by rewrite (Hfg k v Hv).
Qed.

Lemma map_sum_zero m : map_sum (λ _, 0) m = 0.
Proof.
  induction m as [|k v m Hk IH] using map_ind; [apply map_sum_empty|].
  rewrite map_sum_insert by done. lia.
Qed.

Lemma map_sum_nonneg f m : (∀ k v, m !! k = Some v → 0 ≤ f v) → 0 ≤ map_sum f m.
Proof. intros Hf. rewrite <- (map_sum_zero m). by apply map_sum_le. Qed.

Lemma map_sum_elem f m k v :
  (∀ k v, m !! k = Some v → 0 ≤ f v) → m !! k = Some v → f v ≤ map_sum f m.
Proof.
  intros Hf Hk. rewrite (map_sum_delete f m k v Hk).
  assert (0 ≤ map_sum f (delete k m)); [|lia].
  apply map_sum_nonneg. intros k' v' [_ ?]%lookup_delete_Some. eauto.
Qed.

(** A Go loop that accumulates an int over a map: whatever the iteration order
    it computes the wrapped sum. *)
Lemma map_fold_i64 f m : map_fold (λ _ v n, n +! f v) 0 m = i64 (map_sum f m).
Proof.
  induction m as [|k v m Hk IH] using map_ind; [done|].
  rewrite map_fold_insert_L, map_sum_insert, IH by done || (intros; rewrite !i64_add_l; f_equal; lia).
  rewrite i64_add_l. f_equal. lia.
Qed.
End map_sum.

Lemma map_sum_fmap {K V W} `{Countable K} (g : V → W) (f : W → Z) (m : gmap K V) :
  map_sum f (g <$> m) = map_sum (λ v, f (g v)) m.
Proof.
  induction m as [|k v m Hk IH] using map_ind; [by rewrite fmap_empty|].
  rewrite fmap_insert, !map_sum_insert, IH; [done|done|]. by rewrite lookup_fmap, Hk.
Qed.

(** The number of entries that satisfy a test. *)
Definition map_count {K V} `{Countable K} (P : V → bool) (m : gmap K V) : Z :=
  map_sum (λ v, if P v then 1 else 0) m.

Lemma map_count_nonneg {K V} `{Countable K} (P : V → bool) (m : gmap K V) :
  0 ≤ map_count P m.
Proof. apply map_sum_nonneg. intros _ v _. by destruct (P v). Qed.

Lemma map_count_le {K V} `{Countable K} (P Q : V → bool) (m : gmap K V) :
  (∀ v, P v = true → Q v = true) → map_count P m ≤ map_count Q m.
Proof.
  intros HPQ. apply map_sum_le. intros _ v _.
  destruct (P v) eqn:E; [by rewrite HPQ|]. by destruct (Q v).
Qed.

Lemma map_count_zero {K V} `{Countable K} (P : V → bool) (m : gmap K V) :
  (∀ k v, m !! k = Some v → P v = false) → map_count P m = 0.
Proof.
  induction m as [|k v m Hk IH] using map_ind; intros HP; [done|]. unfold map_count in *.
  rewrite map_sum_insert, IH by done || (intros k' v' ?; apply (HP k'); rewrite lookup_insert_ne; congruence).
  by rewrite (HP k v) by apply lookup_insert_eq.
Qed.

Lemma map_count_elem {K V} `{Countable K} (P : V → bool) (m : gmap K V) k v :
  m !! k = Some v → P v = true → 1 ≤ map_count P m.
Proof.
  intros Hk HP. assert (1 = (λ v, if P v then 1 else 0) v) as -> by (simpl; by rewrite HP).
  unfold map_count. apply (map_sum_elem (λ v, if P v then 1 else 0) m k v); [|done].
  intros _ v' _. by destruct (P v').
Qed.

(** [n] consecutive values of a counter, taken modulo [n], are the residues in some order. *)
Lemma window_mod_perm (c : Z) (n : nat) :
  0 ≤ c → map (λ k : nat, (c + Z.of_nat k) mod Z.of_nat n) (seq 0 n) ≡ₚ seqZ 0 (Z.of_nat n).
Proof.
  intros Hc. destruct (decide (n = 0)%nat) as [->|Hn]; [done|].
  assert (map (λ k : nat, (c + Z.of_nat k) mod Z.of_nat n) (seq 0 n) = rotate (Z.to_nat c) (seqZ 0 (Z.of_nat n))) as ->.
  { apply list_eq. intros i. destruct (decide (i < n)%nat) as [Hi|Hi].
    - rewrite lookup_rotate_r by (rewrite length_seqZ; lia). rewrite length_seqZ, Nat2Z.id.
      unfold rotate_nat_add. 
      change (map ?f ?l !! i) with ((f <$> l) !! i). rewrite list_lookup_fmap, lookup_seq_lt by lia. simpl.
      symmetry. apply lookup_seqZ. rewrite ?Nat2Z.id. pose proof (Z.mod_pos_bound (c + Z.of_nat i) (Z.of_nat n)).
      rewrite (Z2Nat.id c) by lia. rewrite Z2Nat.id by lia. lia.
    - rewrite !lookup_ge_None_2; [done| |]; rewrite ?length_rotate, ?length_seqZ, ?length_map, ?length_seq; lia. }
  unfold rotate. by rewrite Permutation_app_comm, take_drop.
Qed.

(** A Go [map[K]int] read: a missing key reads as zero. *)
Definition zget {K} `{Countable K} (m : gmap K Z) (k : K) : Z := default 0 (m !! k).

Lemma zget_insert_eq {K} `{Countable K} (m : gmap K Z) k v : zget (<[k:=v]> m) k = v.
Proof. unfold zget. by rewrite lookup_insert_eq. Qed.

Lemma zget_Some {K} `{Countable K} (m : gmap K Z) k v : m !! k = Some v → zget m k = v.
Proof. unfold zget. by intros ->. Qed.

Lemma zget_insert_ne {K} `{Countable K} (m : gmap K Z) k k' v :
  k ≠ k' → zget (<[k:=v]> m) k' = zget m k'.
Proof. intros. unfold zget. by rewrite lookup_insert_ne. Qed.

Lemma zget_delete_eq {K} `{Countable K} (m : gmap K Z) k : zget (delete k m) k = 0.
Proof. unfold zget. by rewrite lookup_delete_eq. Qed.

Lemma zget_delete_ne {K} `{Countable K} (m : gmap K Z) k k' :
  k ≠ k' → zget (delete k m) k' = zget m k'.
Proof. intros. unfold zget. by rewrite lookup_delete_ne. Qed.

(** ** Automation *)

Create HintDb faas.
#[export] Hint Resolve map_count_nonneg : faas.
Create Rewrite HintDb faas_map.
#[export] Hint Rewrite @zget_insert_eq @zget_delete_eq @map_sum_empty : faas_map.
#[export] Hint Rewrite @zget_insert_ne @zget_delete_ne using congruence : faas_map.

(** Turn boolean tests of the code into the propositions they decide. *)
Ltac breflect :=
  repeat match goal with
  | H : _ && _ = true |- _ => apply andb_true_iff in H as [? ?]
  | H : _ && _ = false |- _ => apply andb_false_iff in H as [?|?]
  | H : _ || _ = true |- _ => apply orb_true_iff in H as [?|?]
  | H : _ || _ = false |- _ => apply orb_false_iff in H as [? ?]
  | H : negb _ = true |- _ => apply negb_true_iff in H
  | H : negb _ = false |- _ => apply negb_false_iff in H
  | H : bool_decide _ = true |- _ => apply bool_decide_eq_true in H
  | H : bool_decide _ = false |- _ => apply bool_decide_eq_false in H
  | H : (_ <? _) = true |- _ => apply Z.ltb_lt in H
  | H : (_ <? _) = false |- _ => apply Z.ltb_ge in H
  | H : (_ <=? _) = true |- _ => apply Z.leb_le in H
  | H : (_ <=? _) = false |- _ => apply Z.leb_gt in H
  | H : (_ =? _) = true |- _ => apply Z.eqb_eq in H
  | H : (_ =? _) = false |- _ => apply Z.eqb_neq in H
  | H : (_ =? _)%string = true |- _ => apply String.eqb_eq in H
  | H : (_ =? _)%string = false |- _ => apply String.eqb_neq in H
  end.

(** Split on every [if] and [match] scrutinee of the goal or a hypothesis,
    remembering the equation. *)
Ltac split_ifs :=
  repeat match goal with
  | |- context [if ?b then _ else _] => destruct b eqn:?
  | H : context [if ?b then _ else _] |- _ => destruct b eqn:?
  end; simplify_eq/=; try congruence.

(** Decide a closed proposition by evaluation. *)
Ltac vm_decide := apply (bool_decide_unpack _); vm_compute; exact I.
