(* ===== verification/Api.v ===== *)
(** * pkg/api: the plan table and the admission arithmetic

    Models src/pkg/api/limits.go: the [Plan] strings, the [Limits] struct with
    every field of the source, the four rows of [planLimits], the accessor
    methods on [Plan], and the RAM arithmetic ([BillableRAMMB] and its sidecar
    variant) that the admission ledger, the placement chooser and the reaper
    share.  Module [Limits] holds the struct, module [Plan] the accessors. *)

From S2P Require Import Prelude.

(** ** Platform constants *)

Definition PlanFree : string := "free".
Definition PlanHobby : string := "hobby".
Definition PlanPro : string := "pro".
Definition PlanScale : string := "scale".

(** Low to high: the order upgrade and downgrade logic relies on. *)
Definition Plans : list string := [PlanFree; PlanHobby; PlanPro; PlanScale].

Definition TenantRAMBudgetMB : Z := 56000.
Definition RAMAdmissionCeilingMB : Z := 47600.
Definition PerVMOverheadMB : Z := 8.
Definition VCPUSlots : Z := 160.
Definition OverageMillicentsPerGBHour : Z := 1000.

Definition MaxResponseBodyBytesDefault : Z := 25 * 1024 * 1024.
Definition ResponseWriteTimeoutDefault : Z := 300.
Definition TailCapMax : Z := 16.
Definition TailTimeoutFloorSeconds : Z := 5.
Definition IdleTimeoutFloorSeconds : Z := 10.
Definition IdleTimeoutMaxMultiple : Z := 2.
Definition DefaultLivenessPeriodSeconds : Z := 5.
Definition DefaultLivenessConsecutiveFailures : Z := 3.
Definition DefaultLivenessCooldownSeconds : Z := 60.
Definition DefaultLivenessMaxRestarts : Z := 3.
Definition DefaultLivenessWindowSeconds : Z := 300.
Definition RequestBudgetDefault : Z := 3 * Second.
Definition RequestBudgetMax : Z := 30 * Second.
Definition WarmAffinityTTL : Z := 30 * Minute.
Definition UpstreamAffinityTTL : Z := 30 * Second.
Definition AppPublicAuthModeOpen : string := "open".
Definition EvictionPriorityReserved : string := "reserved".

(** ** The limits struct and the plan table *)

Module Limits.

Record t : Type := mk {
  Plan : string;
  DeployedApps : Z;
  MaxConcurrency : Z;
  RAMMB : Z;
  AppLayerMaxMB : Z;
  SourceTarballMaxMB : Z;
  ConcurrencyPerVMBound : Z;
  VCPU : Z;
  IdleTimeoutS : Z;
  CertExpiryWarningDays : Z;
  RequestBudgetMs : Z;
  RequestBudgetMaxMs : Z;
  CPUWeight : Z;
  CPUQuotaUS : Z;
  CPUPeriodUS : Z;
  IncludedGBHours : Z;
  PriceMillicents : Z;
  RateLimitRPS : Z;
  RateLimitBurst : Z;
  RateLimitPerAccountRPM : Z;
  ThrottleMaxKeysPerRule : Z;
  WakeBurstPerApp : Z;
  WakeBurstPerAccount : Z;
  EgressMbit : Z;
  SecretCountMax : Z;
  SecretValueMaxBytes : Z;
  EnvVarsMax : Z;
  EnvValueMaxBytes : Z;
  TrustedSignerCountMax : Z;
  RegistryCredentialMax : Z;
  MinInstancesAllowed : bool;
  MaxInstancesAllowed : bool;
  MaxMinInstances : Z;
  ScaleUpTargetRPSAllowed : bool;
  ScaleUpTargetCPUAllowed : bool;
  MaxQueueDepth : Z;
  MaxDelayedTasksPerApp : Z;
  MaxSourceBytesPerInvocation : Z;
  AsyncInvokeAllowed : bool;
  MaxQueueAttempts : Z;
  LogDeploymentFilterMax : Z;
  CronLimitPerApp : Z;
  CronLimitPerAccount : Z;
  EvictionPriorityReservedAllowed : bool;
  ReservedConcurrencyPerAccount : Z;
  PublicAuthBearerAllowed : bool;
  PublicAuthBasicAllowed : bool;
  RequireAuthnDefault : bool;
  PublicAuthModeDefault : string;
  KeysMax : Z;
  OrgMembersMax : Z;
  OrgPendingInvitationsMax : Z;
  AlertRuleLimitPerApp : Z;
  AlertRuleLimitPerAccount : Z;
  EdgeRulesPerApp : Z;
  EdgeRulesJWTAllowed : bool;
  EdgeRulesIPAllowed : bool;
  EdgeRulesGeoPerApp : Z;
  EdgeRulesThrottlePerApp : Z;
  TenantSurfacesPerAccount : Z;
  TenantHostnamesPerSurface : Z;
  TenantSurfacesAllowed : bool;
  DataPlacementHintsPerApp : Z;
  WebhookPerApp : Z;
  WebhookPerAccount : Z;
  TriggersAllowed : bool;
  TriggerLimitPerApp : Z;
  TriggerLimitPerAccount : Z;
  TriggerBatchSizeMax : Z;
  TriggerBatchWindowMaxSec : Z;
  TriggerMaxAttemptsMax : Z;
  TriggerRecordsPerSecondPerApp : Z;
  TriggerPayloadMaxBytes : Z;
  EgressAllowlistAllowed : bool;
  EgressAllowlistMaxSize : Z;
  WarmSnapshotEnabled : bool;
  WarmSnapshotMinRequestsDefault : Z;
  RequireAuthn : bool;
  TrafficSplit : bool;
  WarmSnapshotMinMsDefault : Z;
  StreamingEnabled : bool;
  WebSocketEnabled : bool;
  RouteMetricsEnabled : bool;
  MaxResponseBodyBytes : Z;
  ResponseWriteTimeoutSeconds : Z;
  TailEnabled : bool;
  TailTimeoutS : Z;
  TailCapMax : Z;
  ConcurrentTailsPerInstance : Z;
  LivenessPeriodSeconds : Z;
  LivenessConsecutiveFailures : Z;
  LivenessCooldownSeconds : Z;
  LivenessMaxRestarts : Z;
  LivenessWindowSeconds : Z;
  LogArchiveEnabled : bool;
  LogArchiveRetentionDaysMax : Z;
  AppErrorsRetentionDays : Z;
  AppErrorsMaxFingerprintsPerApp : Z;
  AppErrorsMaxRequestRowsPerFingerprint : Z;
}.

End Limits.

Definition limitsFree : Limits.t := {|
  Limits.Plan := PlanFree;
  Limits.DeployedApps := 1;
  Limits.MaxConcurrency := 1;
  Limits.RAMMB := 128;
  Limits.AppLayerMaxMB := 256;
  Limits.SourceTarballMaxMB := 100;
  Limits.ConcurrencyPerVMBound := 1;
  Limits.VCPU := 2;
  Limits.IdleTimeoutS := 30;
  Limits.CertExpiryWarningDays := 30;
  Limits.RequestBudgetMs := 0;
  Limits.RequestBudgetMaxMs := 0;
  Limits.CPUWeight := 2;
  Limits.CPUQuotaUS := 100000;
  Limits.CPUPeriodUS := 100000;
  Limits.IncludedGBHours := 5;
  Limits.PriceMillicents := 0;
  Limits.RateLimitRPS := 5;
  Limits.RateLimitBurst := 20;
  Limits.RateLimitPerAccountRPM := 50;
  Limits.ThrottleMaxKeysPerRule := 100;
  Limits.WakeBurstPerApp := 1;
  Limits.WakeBurstPerAccount := 1;
  Limits.EgressMbit := 10;
  Limits.SecretCountMax := 3;
  Limits.SecretValueMaxBytes := 4 * 1024;
  Limits.EnvVarsMax := 8;
  Limits.EnvValueMaxBytes := 4 * 1024;
  Limits.TrustedSignerCountMax := 0;
  Limits.RegistryCredentialMax := 0;
  Limits.MinInstancesAllowed := false;
  Limits.MaxInstancesAllowed := false;
  Limits.MaxMinInstances := 0;
  Limits.ScaleUpTargetRPSAllowed := false;
  Limits.ScaleUpTargetCPUAllowed := false;
  Limits.MaxQueueDepth := 0;
  Limits.MaxDelayedTasksPerApp := 0;
  Limits.MaxSourceBytesPerInvocation := 0;
  Limits.AsyncInvokeAllowed := false;
  Limits.MaxQueueAttempts := 0;
  Limits.LogDeploymentFilterMax := 0;
  Limits.CronLimitPerApp := 0;
  Limits.CronLimitPerAccount := 0;
  Limits.EvictionPriorityReservedAllowed := false;
  Limits.ReservedConcurrencyPerAccount := 0;
  Limits.PublicAuthBearerAllowed := false;
  Limits.PublicAuthBasicAllowed := false;
  Limits.RequireAuthnDefault := false;
  Limits.PublicAuthModeDefault := "open";
  Limits.KeysMax := 3;
  Limits.OrgMembersMax := 0;
  Limits.OrgPendingInvitationsMax := 0;
  Limits.AlertRuleLimitPerApp := 0;
  Limits.AlertRuleLimitPerAccount := 0;
  Limits.EdgeRulesPerApp := 5;
  Limits.EdgeRulesJWTAllowed := false;
  Limits.EdgeRulesIPAllowed := false;
  Limits.EdgeRulesGeoPerApp := 1;
  Limits.EdgeRulesThrottlePerApp := 1;
  Limits.TenantSurfacesPerAccount := 0;
  Limits.TenantHostnamesPerSurface := 0;
  Limits.TenantSurfacesAllowed := false;
  Limits.DataPlacementHintsPerApp := 0;
  Limits.WebhookPerApp := 0;
  Limits.WebhookPerAccount := 0;
  Limits.TriggersAllowed := false;
  Limits.TriggerLimitPerApp := 0;
  Limits.TriggerLimitPerAccount := 0;
  Limits.TriggerBatchSizeMax := 0;
  Limits.TriggerBatchWindowMaxSec := 0;
  Limits.TriggerMaxAttemptsMax := 0;
  Limits.TriggerRecordsPerSecondPerApp := 0;
  Limits.TriggerPayloadMaxBytes := 0;
  Limits.EgressAllowlistAllowed := false;
  Limits.EgressAllowlistMaxSize := 0;
  Limits.WarmSnapshotEnabled := false;
  Limits.WarmSnapshotMinRequestsDefault := 0;
  Limits.RequireAuthn := false;
  Limits.TrafficSplit := false;
  Limits.WarmSnapshotMinMsDefault := 0;
  Limits.StreamingEnabled := false;
  Limits.WebSocketEnabled := false;
  Limits.RouteMetricsEnabled := false;
  Limits.MaxResponseBodyBytes := MaxResponseBodyBytesDefault;
  Limits.ResponseWriteTimeoutSeconds := ResponseWriteTimeoutDefault;
  Limits.TailEnabled := true;
  Limits.TailTimeoutS := TailTimeoutFloorSeconds;
  Limits.TailCapMax := TailCapMax;
  Limits.ConcurrentTailsPerInstance := 4;
  Limits.LivenessPeriodSeconds := 0;
  Limits.LivenessConsecutiveFailures := 0;
  Limits.LivenessCooldownSeconds := 0;
  Limits.LivenessMaxRestarts := 0;
  Limits.LivenessWindowSeconds := 0;
  Limits.LogArchiveEnabled := false;
  Limits.LogArchiveRetentionDaysMax := 0;
  Limits.AppErrorsRetentionDays := 1;
  Limits.AppErrorsMaxFingerprintsPerApp := 50;
  Limits.AppErrorsMaxRequestRowsPerFingerprint := 25
|}.

Definition limitsHobby : Limits.t := {|
  Limits.Plan := PlanHobby;
  Limits.DeployedApps := 5;
  Limits.MaxConcurrency := 2;
  Limits.RAMMB := 256;
  Limits.AppLayerMaxMB := 512;
  Limits.SourceTarballMaxMB := 100;
  Limits.ConcurrencyPerVMBound := 5;
  Limits.VCPU := 2;
  Limits.IdleTimeoutS := 60;
  Limits.CertExpiryWarningDays := 30;
  Limits.RequestBudgetMs := 0;
  Limits.RequestBudgetMaxMs := 0;
  Limits.CPUWeight := 4;
  Limits.CPUQuotaUS := 200000;
  Limits.CPUPeriodUS := 200000;
  Limits.IncludedGBHours := 50;
  Limits.PriceMillicents := 900000;
  Limits.RateLimitRPS := 20;
  Limits.RateLimitBurst := 100;
  Limits.RateLimitPerAccountRPM := 200;
  Limits.ThrottleMaxKeysPerRule := 1000;
  Limits.WakeBurstPerApp := 5;
  Limits.WakeBurstPerAccount := 10;
  Limits.EgressMbit := 25;
  Limits.SecretCountMax := 25;
  Limits.SecretValueMaxBytes := 8 * 1024;
  Limits.EnvVarsMax := 32;
  Limits.EnvValueMaxBytes := 8 * 1024;
  Limits.TrustedSignerCountMax := 4;
  Limits.RegistryCredentialMax := 2;
  Limits.MinInstancesAllowed := true;
  Limits.MaxInstancesAllowed := true;
  Limits.MaxMinInstances := 1;
  Limits.ScaleUpTargetRPSAllowed := false;
  Limits.ScaleUpTargetCPUAllowed := false;
  Limits.MaxQueueDepth := 5;
  Limits.MaxDelayedTasksPerApp := 5;
  Limits.MaxSourceBytesPerInvocation := 64 * 1024;
  Limits.AsyncInvokeAllowed := true;
  Limits.MaxQueueAttempts := 3;
  Limits.LogDeploymentFilterMax := 1;
  Limits.CronLimitPerApp := 5;
  Limits.CronLimitPerAccount := 10;
  Limits.EvictionPriorityReservedAllowed := true;
  Limits.ReservedConcurrencyPerAccount := 1;
  Limits.PublicAuthBearerAllowed := true;
  Limits.PublicAuthBasicAllowed := false;
  Limits.RequireAuthnDefault := true;
  Limits.PublicAuthModeDefault := "open";
  Limits.KeysMax := 10;
  Limits.OrgMembersMax := 10;
  Limits.OrgPendingInvitationsMax := 5;
  Limits.AlertRuleLimitPerApp := 3;
  Limits.AlertRuleLimitPerAccount := 10;
  Limits.EdgeRulesPerApp := 25;
  Limits.EdgeRulesJWTAllowed := true;
  Limits.EdgeRulesIPAllowed := true;
  Limits.EdgeRulesGeoPerApp := 5;
  Limits.EdgeRulesThrottlePerApp := 5;
  Limits.TenantSurfacesPerAccount := 1;
  Limits.TenantHostnamesPerSurface := 10;
  Limits.TenantSurfacesAllowed := true;
  Limits.DataPlacementHintsPerApp := 3;
  Limits.WebhookPerApp := 3;
  Limits.WebhookPerAccount := 10;
  Limits.TriggersAllowed := true;
  Limits.TriggerLimitPerApp := 2;
  Limits.TriggerLimitPerAccount := 10;
  Limits.TriggerBatchSizeMax := 50;
  Limits.TriggerBatchWindowMaxSec := 30;
  Limits.TriggerMaxAttemptsMax := 3;
  Limits.TriggerRecordsPerSecondPerApp := 100;
  Limits.TriggerPayloadMaxBytes := 1048576;
  Limits.EgressAllowlistAllowed := false;
  Limits.EgressAllowlistMaxSize := 0;
  Limits.WarmSnapshotEnabled := false;
  Limits.WarmSnapshotMinRequestsDefault := 0;
  Limits.RequireAuthn := false;
  Limits.TrafficSplit := false;
  Limits.WarmSnapshotMinMsDefault := 0;
  Limits.StreamingEnabled := true;
  Limits.WebSocketEnabled := true;
  Limits.RouteMetricsEnabled := true;
  Limits.MaxResponseBodyBytes := 100 * 1024 * 1024;
  Limits.ResponseWriteTimeoutSeconds := 900;
  Limits.TailEnabled := true;
  Limits.TailTimeoutS := 15;
  Limits.TailCapMax := TailCapMax;
  Limits.ConcurrentTailsPerInstance := 16;
  Limits.LivenessPeriodSeconds := DefaultLivenessPeriodSeconds;
  Limits.LivenessConsecutiveFailures := DefaultLivenessConsecutiveFailures;
  Limits.LivenessCooldownSeconds := DefaultLivenessCooldownSeconds;
  Limits.LivenessMaxRestarts := DefaultLivenessMaxRestarts;
  Limits.LivenessWindowSeconds := DefaultLivenessWindowSeconds;
  Limits.LogArchiveEnabled := true;
  Limits.LogArchiveRetentionDaysMax := 7;
  Limits.AppErrorsRetentionDays := 7;
  Limits.AppErrorsMaxFingerprintsPerApp := 200;
  Limits.AppErrorsMaxRequestRowsPerFingerprint := 100
|}.

Definition limitsPro : Limits.t := {|
  Limits.Plan := PlanPro;
  Limits.DeployedApps := 25;
  Limits.MaxConcurrency := 5;
  Limits.RAMMB := 512;
  Limits.AppLayerMaxMB := 1024;
  Limits.SourceTarballMaxMB := 250;
  Limits.ConcurrencyPerVMBound := 25;
  Limits.VCPU := 2;
  Limits.IdleTimeoutS := 300;
  Limits.CertExpiryWarningDays := 30;
  Limits.RequestBudgetMs := 0;
  Limits.RequestBudgetMaxMs := 0;
  Limits.CPUWeight := 8;
  Limits.CPUQuotaUS := 500000;
  Limits.CPUPeriodUS := 500000;
  Limits.IncludedGBHours := 250;
  Limits.PriceMillicents := 2900000;
  Limits.RateLimitRPS := 100;
  Limits.RateLimitBurst := 500;
  Limits.RateLimitPerAccountRPM := 1000;
  Limits.ThrottleMaxKeysPerRule := 5000;
  Limits.WakeBurstPerApp := 20;
  Limits.WakeBurstPerAccount := 30;
  Limits.EgressMbit := 100;
  Limits.SecretCountMax := 50;
  Limits.SecretValueMaxBytes := 16 * 1024;
  Limits.EnvVarsMax := 64;
  Limits.EnvValueMaxBytes := 16 * 1024;
  Limits.TrustedSignerCountMax := 8;
  Limits.RegistryCredentialMax := 5;
  Limits.MinInstancesAllowed := true;
  Limits.MaxInstancesAllowed := true;
  Limits.MaxMinInstances := 3;
  Limits.ScaleUpTargetRPSAllowed := true;
  Limits.ScaleUpTargetCPUAllowed := true;
  Limits.MaxQueueDepth := 25;
  Limits.MaxDelayedTasksPerApp := 50;
  Limits.MaxSourceBytesPerInvocation := 256 * 1024;
  Limits.AsyncInvokeAllowed := true;
  Limits.MaxQueueAttempts := 10;
  Limits.LogDeploymentFilterMax := 10;
  Limits.CronLimitPerApp := 20;
  Limits.CronLimitPerAccount := 50;
  Limits.EvictionPriorityReservedAllowed := true;
  Limits.ReservedConcurrencyPerAccount := 2;
  Limits.PublicAuthBearerAllowed := true;
  Limits.PublicAuthBasicAllowed := true;
  Limits.RequireAuthnDefault := true;
  Limits.PublicAuthModeDefault := "bearer";
  Limits.KeysMax := 50;
  Limits.OrgMembersMax := 50;
  Limits.OrgPendingInvitationsMax := 25;
  Limits.AlertRuleLimitPerApp := 10;
  Limits.AlertRuleLimitPerAccount := 30;
  Limits.EdgeRulesPerApp := 100;
  Limits.EdgeRulesJWTAllowed := true;
  Limits.EdgeRulesIPAllowed := true;
  Limits.EdgeRulesGeoPerApp := 25;
  Limits.EdgeRulesThrottlePerApp := 25;
  Limits.TenantSurfacesPerAccount := 5;
  Limits.TenantHostnamesPerSurface := 50;
  Limits.TenantSurfacesAllowed := true;
  Limits.DataPlacementHintsPerApp := 10;
  Limits.WebhookPerApp := 10;
  Limits.WebhookPerAccount := 30;
  Limits.TriggersAllowed := true;
  Limits.TriggerLimitPerApp := 10;
  Limits.TriggerLimitPerAccount := 50;
  Limits.TriggerBatchSizeMax := 500;
  Limits.TriggerBatchWindowMaxSec := 300;
  Limits.TriggerMaxAttemptsMax := 10;
  Limits.TriggerRecordsPerSecondPerApp := 1000;
  Limits.TriggerPayloadMaxBytes := 6291456;
  Limits.EgressAllowlistAllowed := true;
  Limits.EgressAllowlistMaxSize := 16;
  Limits.WarmSnapshotEnabled := true;
  Limits.WarmSnapshotMinRequestsDefault := 5;
  Limits.RequireAuthn := true;
  Limits.TrafficSplit := true;
  Limits.WarmSnapshotMinMsDefault := 2000;
  Limits.StreamingEnabled := true;
  Limits.WebSocketEnabled := true;
  Limits.RouteMetricsEnabled := true;
  Limits.MaxResponseBodyBytes := 100 * 1024 * 1024;
  Limits.ResponseWriteTimeoutSeconds := 900;
  Limits.TailEnabled := true;
  Limits.TailTimeoutS := 30;
  Limits.TailCapMax := TailCapMax;
  Limits.ConcurrentTailsPerInstance := 64;
  Limits.LivenessPeriodSeconds := DefaultLivenessPeriodSeconds;
  Limits.LivenessConsecutiveFailures := DefaultLivenessConsecutiveFailures;
  Limits.LivenessCooldownSeconds := DefaultLivenessCooldownSeconds;
  Limits.LivenessMaxRestarts := DefaultLivenessMaxRestarts;
  Limits.LivenessWindowSeconds := DefaultLivenessWindowSeconds;
  Limits.LogArchiveEnabled := true;
  Limits.LogArchiveRetentionDaysMax := 30;
  Limits.AppErrorsRetentionDays := 30;
  Limits.AppErrorsMaxFingerprintsPerApp := 1000;
  Limits.AppErrorsMaxRequestRowsPerFingerprint := 500
|}.

Definition limitsScale : Limits.t := {|
  Limits.Plan := PlanScale;
  Limits.DeployedApps := 100;
  Limits.MaxConcurrency := 20;
  Limits.RAMMB := 1024;
  Limits.AppLayerMaxMB := 2048;
  Limits.SourceTarballMaxMB := 250;
  Limits.ConcurrencyPerVMBound := 80;
  Limits.VCPU := 4;
  Limits.IdleTimeoutS := 600;
  Limits.CertExpiryWarningDays := 30;
  Limits.RequestBudgetMs := 0;
  Limits.RequestBudgetMaxMs := 0;
  Limits.CPUWeight := 16;
  Limits.CPUQuotaUS := 1000000;
  Limits.CPUPeriodUS := 1000000;
  Limits.IncludedGBHours := 1500;
  Limits.PriceMillicents := 9900000;
  Limits.RateLimitRPS := 500;
  Limits.RateLimitBurst := 2000;
  Limits.RateLimitPerAccountRPM := 5000;
  Limits.ThrottleMaxKeysPerRule := 10000;
  Limits.WakeBurstPerApp := 100;
  Limits.WakeBurstPerAccount := 150;
  Limits.EgressMbit := 250;
  Limits.SecretCountMax := 100;
  Limits.SecretValueMaxBytes := 32 * 1024;
  Limits.EnvVarsMax := 256;
  Limits.EnvValueMaxBytes := 32 * 1024;
  Limits.TrustedSignerCountMax := 16;
  Limits.RegistryCredentialMax := 20;
  Limits.MinInstancesAllowed := true;
  Limits.MaxInstancesAllowed := true;
  Limits.MaxMinInstances := 10;
  Limits.ScaleUpTargetRPSAllowed := true;
  Limits.ScaleUpTargetCPUAllowed := true;
  Limits.MaxQueueDepth := 100;
  Limits.MaxDelayedTasksPerApp := 1000000;
  Limits.MaxSourceBytesPerInvocation := 1024 * 1024;
  Limits.AsyncInvokeAllowed := true;
  Limits.MaxQueueAttempts := 25;
  Limits.LogDeploymentFilterMax := 50;
  Limits.CronLimitPerApp := 100;
  Limits.CronLimitPerAccount := 500;
  Limits.EvictionPriorityReservedAllowed := true;
  Limits.ReservedConcurrencyPerAccount := 4;
  Limits.PublicAuthBearerAllowed := true;
  Limits.PublicAuthBasicAllowed := true;
  Limits.RequireAuthnDefault := true;
  Limits.PublicAuthModeDefault := "bearer";
  Limits.KeysMax := 200;
  Limits.OrgMembersMax := 200;
  Limits.OrgPendingInvitationsMax := 100;
  Limits.AlertRuleLimitPerApp := 25;
  Limits.AlertRuleLimitPerAccount := 100;
  Limits.EdgeRulesPerApp := 500;
  Limits.EdgeRulesJWTAllowed := true;
  Limits.EdgeRulesIPAllowed := true;
  Limits.EdgeRulesGeoPerApp := 100;
  Limits.EdgeRulesThrottlePerApp := 100;
  Limits.TenantSurfacesPerAccount := 25;
  Limits.TenantHostnamesPerSurface := 250;
  Limits.TenantSurfacesAllowed := true;
  Limits.DataPlacementHintsPerApp := 50;
  Limits.WebhookPerApp := 25;
  Limits.WebhookPerAccount := 100;
  Limits.TriggersAllowed := true;
  Limits.TriggerLimitPerApp := 50;
  Limits.TriggerLimitPerAccount := 200;
  Limits.TriggerBatchSizeMax := 5000;
  Limits.TriggerBatchWindowMaxSec := 300;
  Limits.TriggerMaxAttemptsMax := 25;
  Limits.TriggerRecordsPerSecondPerApp := 10000;
  Limits.TriggerPayloadMaxBytes := 16777216;
  Limits.EgressAllowlistAllowed := true;
  Limits.EgressAllowlistMaxSize := 64;
  Limits.WarmSnapshotEnabled := true;
  Limits.WarmSnapshotMinRequestsDefault := 5;
  Limits.RequireAuthn := true;
  Limits.TrafficSplit := true;
  Limits.WarmSnapshotMinMsDefault := 2000;
  Limits.StreamingEnabled := true;
  Limits.WebSocketEnabled := true;
  Limits.RouteMetricsEnabled := true;
  Limits.MaxResponseBodyBytes := 100 * 1024 * 1024;
  Limits.ResponseWriteTimeoutSeconds := 900;
  Limits.TailEnabled := true;
  Limits.TailTimeoutS := 60;
  Limits.TailCapMax := TailCapMax;
  Limits.ConcurrentTailsPerInstance := 256;
  Limits.LivenessPeriodSeconds := DefaultLivenessPeriodSeconds;
  Limits.LivenessConsecutiveFailures := DefaultLivenessConsecutiveFailures;
  Limits.LivenessCooldownSeconds := DefaultLivenessCooldownSeconds;
  Limits.LivenessMaxRestarts := DefaultLivenessMaxRestarts;
  Limits.LivenessWindowSeconds := DefaultLivenessWindowSeconds;
  Limits.LogArchiveEnabled := true;
  Limits.LogArchiveRetentionDaysMax := 90;
  Limits.AppErrorsRetentionDays := 90;
  Limits.AppErrorsMaxFingerprintsPerApp := 5000;
  Limits.AppErrorsMaxRequestRowsPerFingerprint := 1000
|}.

(** The table itself: a Go map with four keys. *)
Definition planLimits (p : string) : option Limits.t :=
  if String.eqb p PlanFree then Some limitsFree
  else if String.eqb p PlanHobby then Some limitsHobby
  else if String.eqb p PlanPro then Some limitsPro
  else if String.eqb p PlanScale then Some limitsScale
  else None.

Definition LimitsFor (p : string) : option Limits.t := planLimits p.

(** [MustLimitsFor] panics on an unknown plan: [None] is the panic. *)
Definition MustLimitsFor (p : string) : option Limits.t := planLimits p.

(** ** Accessors on Plan *)

Module Plan.

Definition Valid (p : string) : bool :=
  match planLimits p with Some _ => true | None => false end.

Definition IsPaid (p : string) : bool :=
  String.eqb p PlanHobby || String.eqb p PlanPro || String.eqb p PlanScale.

Definition RequiresStripeUpgradeTo (p next : string) : bool :=
  if negb (Valid next) then false
  else if String.eqb p PlanFree then String.eqb next PlanPro || String.eqb next PlanScale
  else if String.eqb p PlanHobby then String.eqb next PlanPro || String.eqb next PlanScale
  else if String.eqb p PlanPro then String.eqb next PlanScale
  else if String.eqb p PlanScale then false
  else true.

Definition SidecarAllowed (p : string) : bool := true.

Definition GRPCLivenessAllowed (p : string) : bool := false.

Definition MaxResponseBodyBytes (p : string) : Z :=
  match LimitsFor p with
  | None => MaxResponseBodyBytesDefault
  | Some l => if Limits.MaxResponseBodyBytes l <=? 0 then MaxResponseBodyBytesDefault
              else Limits.MaxResponseBodyBytes l
  end.

Definition ResponseWriteTimeout (p : string) : Z :=
  match LimitsFor p with
  | None => ResponseWriteTimeoutDefault *! Second
  | Some l => if Limits.ResponseWriteTimeoutSeconds l <=? 0
              then ResponseWriteTimeoutDefault *! Second
              else Limits.ResponseWriteTimeoutSeconds l *! Second
  end.

Definition TailTimeoutSeconds (p : string) : Z :=
  match LimitsFor p with
  | None => TailTimeoutFloorSeconds
  | Some l => if Limits.TailTimeoutS l <? TailTimeoutFloorSeconds then TailTimeoutFloorSeconds
              else Limits.TailTimeoutS l
  end.

Definition TailCapMaxFor (p : string) : Z := TailCapMax.

Definition SliceName (p : string) : string :=
  if String.eqb p PlanFree then "tenant-free"
  else if String.eqb p PlanHobby then "tenant-hobby"
  else if String.eqb p PlanPro then "tenant-pro"
  else if String.eqb p PlanScale then "tenant-scale"
  else EmptyString.

(** What every accessor does: look the row up and read a field, or answer a default. *)
Definition accessor {A} (unknown : A) (field : Limits.t → A) (p : string) : A :=
  match LimitsFor p with Some l => field l | None => unknown end.

Definition PlanIncludedGBHours (p : string) : Z :=
  match LimitsFor p with Some l => Limits.IncludedGBHours l | None => 0 end.

Definition MinInstancesAllowed (p : string) : bool :=
  match LimitsFor p with Some l => Limits.MinInstancesAllowed l | None => false end.

Abbreviation MaxInstancesAllowed := (accessor false Limits.MaxInstancesAllowed).
Abbreviation EgressAllowlistAllowed := (accessor false Limits.EgressAllowlistAllowed).
Abbreviation EgressAllowlistMaxSize := (accessor 0 Limits.EgressAllowlistMaxSize).
Definition LivenessAllowed (p : string) : bool :=
  match LimitsFor p with Some l => 0 <? Limits.LivenessPeriodSeconds l | None => false end.

Abbreviation LogArchiveEnabled := (accessor false Limits.LogArchiveEnabled).
Abbreviation LogArchiveRetentionDaysMax := (accessor 0 Limits.LogArchiveRetentionDaysMax).
Abbreviation AppErrorsRetentionDays := (accessor 1 Limits.AppErrorsRetentionDays).
Abbreviation AppErrorsMaxFingerprintsPerApp := (accessor 50 Limits.AppErrorsMaxFingerprintsPerApp).
Abbreviation AppErrorsMaxRequestRowsPerFingerprint := (accessor 25 Limits.AppErrorsMaxRequestRowsPerFingerprint).
Abbreviation LivenessPeriodSeconds := (accessor 0 Limits.LivenessPeriodSeconds).
Abbreviation LivenessConsecutiveFailures := (accessor 0 Limits.LivenessConsecutiveFailures).
Abbreviation LivenessCooldownSeconds := (accessor 0 Limits.LivenessCooldownSeconds).
Abbreviation LivenessMaxRestarts := (accessor 0 Limits.LivenessMaxRestarts).
Abbreviation LivenessWindowSeconds := (accessor 0 Limits.LivenessWindowSeconds).
Abbreviation StreamingEnabled := (accessor false Limits.StreamingEnabled).
Abbreviation StreamingResponseAllowed := (accessor false Limits.StreamingEnabled).
Abbreviation WebSocketEnabled := (accessor false Limits.WebSocketEnabled).
Abbreviation WebSocketResponseAllowed := (accessor false Limits.WebSocketEnabled).
Abbreviation RouteMetricsEnabled := (accessor false Limits.RouteMetricsEnabled).
Abbreviation RouteMetricsResponseAllowed := (accessor false Limits.RouteMetricsEnabled).
Abbreviation WarmSnapshotEnabled := (accessor false Limits.WarmSnapshotEnabled).
Definition WarmSnapshotAllowed (p : string) : bool :=
  match LimitsFor p with Some l => Limits.WarmSnapshotEnabled l | None => false end.

Abbreviation RequireAuthnAllowed := (accessor false Limits.RequireAuthn).
Abbreviation TrafficSplitAllowed := (accessor false Limits.TrafficSplit).
Abbreviation RequireAuthnDefault := (accessor false Limits.RequireAuthnDefault).
Definition PublicAuthModeDefault (p : string) : string :=
  match LimitsFor p with Some l => Limits.PublicAuthModeDefault l | None => AppPublicAuthModeOpen end.

Abbreviation WarmSnapshotMinRequestsDefault := (accessor 0 Limits.WarmSnapshotMinRequestsDefault).
Abbreviation WarmSnapshotMinMsDefault := (accessor 0 Limits.WarmSnapshotMinMsDefault).
Abbreviation TailEnabled := (accessor false Limits.TailEnabled).
Abbreviation TailAllowed := (accessor false Limits.TailEnabled).
Abbreviation ConcurrentTailsPerInstance := (accessor 0 Limits.ConcurrentTailsPerInstance).
Abbreviation CronLimitPerApp := (accessor 0 Limits.CronLimitPerApp).
Abbreviation CronLimitPerAccount := (accessor 0 Limits.CronLimitPerAccount).
Abbreviation EvictionPriorityReservedAllowed := (accessor false Limits.EvictionPriorityReservedAllowed).
Abbreviation PublicAuthBearerAllowed := (accessor false Limits.PublicAuthBearerAllowed).
Abbreviation PublicAuthBasicAllowed := (accessor false Limits.PublicAuthBasicAllowed).
Abbreviation ReservedConcurrencyPerAccount := (accessor 0 Limits.ReservedConcurrencyPerAccount).
Abbreviation KeysMax := (accessor 0 Limits.KeysMax).
Abbreviation AlertRuleLimitPerApp := (accessor 0 Limits.AlertRuleLimitPerApp).
Abbreviation AlertRuleLimitPerAccount := (accessor 0 Limits.AlertRuleLimitPerAccount).
Abbreviation WebhookPerApp := (accessor 0 Limits.WebhookPerApp).
Abbreviation WebhookPerAccount := (accessor 0 Limits.WebhookPerAccount).
Abbreviation TriggersAllowed := (accessor false Limits.TriggersAllowed).
Abbreviation TriggerLimitPerApp := (accessor 0 Limits.TriggerLimitPerApp).
Abbreviation TriggerLimitPerAccount := (accessor 0 Limits.TriggerLimitPerAccount).
Abbreviation TriggerBatchSizeMax := (accessor 0 Limits.TriggerBatchSizeMax).
Abbreviation TriggerBatchWindowMaxSec := (accessor 0 Limits.TriggerBatchWindowMaxSec).
Abbreviation TriggerMaxAttemptsMax := (accessor 0 Limits.TriggerMaxAttemptsMax).
Abbreviation TriggerRecordsPerSecondPerApp := (accessor 0 Limits.TriggerRecordsPerSecondPerApp).
Abbreviation TrustedSignerCountMax := (accessor 0 Limits.TrustedSignerCountMax).
Abbreviation MaxMinInstances := (accessor 0 Limits.MaxMinInstances).
Abbreviation ConcurrencyPerVMBound := (accessor 0 Limits.ConcurrencyPerVMBound).
Abbreviation LogDeploymentFilterMax := (accessor 0 Limits.LogDeploymentFilterMax).
Abbreviation OrgMembersMax := (accessor 0 Limits.OrgMembersMax).
Abbreviation OrgPendingInvitationsMax := (accessor 0 Limits.OrgPendingInvitationsMax).
Definition RateLimitPerAccountRPM (p : string) : Z :=
  match LimitsFor p with Some l => Limits.RateLimitPerAccountRPM l | None => 0 end.

Abbreviation ScaleUpTargetRPSAllowed := (accessor false Limits.ScaleUpTargetRPSAllowed).
Abbreviation ScaleUpTargetCPUAllowed := (accessor false Limits.ScaleUpTargetCPUAllowed).
Abbreviation CPUWeight := (accessor 100 Limits.CPUWeight).
Abbreviation CPUQuotaUS := (accessor 0 Limits.CPUQuotaUS).
Abbreviation CPUPeriodUS := (accessor 100000 Limits.CPUPeriodUS).

(** The methods that read one field, in the order of the source.  [Gate] is closed and [Count] is 0 for
    an unknown plan; a [Setting] has a default of its own. *)
Inductive method := Gate (g : string → bool) | Count (n : string → Z) | Setting (n : string → Z).

Definition instance_methods : list (string * method) := [
  ("MaxInstancesAllowed", Gate MaxInstancesAllowed);
  ("EgressAllowlistAllowed", Gate EgressAllowlistAllowed);
  ("EgressAllowlistMaxSize", Count EgressAllowlistMaxSize)].

Definition log_methods : list (string * method) := [
  ("LogArchiveEnabled", Gate LogArchiveEnabled);
  ("LogArchiveRetentionDaysMax", Count LogArchiveRetentionDaysMax);
  ("AppErrorsRetentionDays", Setting AppErrorsRetentionDays);
  ("AppErrorsMaxFingerprintsPerApp", Setting AppErrorsMaxFingerprintsPerApp);
  ("AppErrorsMaxRequestRowsPerFingerprint", Setting AppErrorsMaxRequestRowsPerFingerprint);
  ("LivenessPeriodSeconds", Count LivenessPeriodSeconds);
  ("LivenessConsecutiveFailures", Count LivenessConsecutiveFailures);
  ("LivenessCooldownSeconds", Count LivenessCooldownSeconds);
  ("LivenessMaxRestarts", Count LivenessMaxRestarts);
  ("LivenessWindowSeconds", Count LivenessWindowSeconds)].

Definition feature_methods : list (string * method) := [
  ("StreamingEnabled", Gate StreamingEnabled);
  ("StreamingResponseAllowed", Gate StreamingResponseAllowed);
  ("WebSocketEnabled", Gate WebSocketEnabled);
  ("WebSocketResponseAllowed", Gate WebSocketResponseAllowed);
  ("RouteMetricsEnabled", Gate RouteMetricsEnabled);
  ("RouteMetricsResponseAllowed", Gate RouteMetricsResponseAllowed);
  ("WarmSnapshotEnabled", Gate WarmSnapshotEnabled)].

Definition auth_methods : list (string * method) := [
  ("RequireAuthnAllowed", Gate RequireAuthnAllowed);
  ("TrafficSplitAllowed", Gate TrafficSplitAllowed);
  ("RequireAuthnDefault", Gate RequireAuthnDefault)].

Definition warm_methods : list (string * method) := [
  ("WarmSnapshotMinRequestsDefault", Count WarmSnapshotMinRequestsDefault);
  ("WarmSnapshotMinMsDefault", Count WarmSnapshotMinMsDefault)].

Definition tail_methods : list (string * method) := [
  ("TailEnabled", Gate TailEnabled);
  ("TailAllowed", Gate TailAllowed)].

Definition account_methods : list (string * method) := [
  ("ConcurrentTailsPerInstance", Count ConcurrentTailsPerInstance);
  ("CronLimitPerApp", Count CronLimitPerApp);
  ("CronLimitPerAccount", Count CronLimitPerAccount);
  ("EvictionPriorityReservedAllowed", Gate EvictionPriorityReservedAllowed);
  ("PublicAuthBearerAllowed", Gate PublicAuthBearerAllowed);
  ("PublicAuthBasicAllowed", Gate PublicAuthBasicAllowed);
  ("ReservedConcurrencyPerAccount", Count ReservedConcurrencyPerAccount);
  ("KeysMax", Count KeysMax);
  ("AlertRuleLimitPerApp", Count AlertRuleLimitPerApp);
  ("AlertRuleLimitPerAccount", Count AlertRuleLimitPerAccount);
  ("WebhookPerApp", Count WebhookPerApp);
  ("WebhookPerAccount", Count WebhookPerAccount)].

Definition trigger_methods : list (string * method) := [
  ("TriggersAllowed", Gate TriggersAllowed);
  ("TriggerLimitPerApp", Count TriggerLimitPerApp);
  ("TriggerLimitPerAccount", Count TriggerLimitPerAccount);
  ("TriggerBatchSizeMax", Count TriggerBatchSizeMax);
  ("TriggerBatchWindowMaxSec", Count TriggerBatchWindowMaxSec);
  ("TriggerMaxAttemptsMax", Count TriggerMaxAttemptsMax);
  ("TriggerRecordsPerSecondPerApp", Count TriggerRecordsPerSecondPerApp);
  ("TrustedSignerCountMax", Count TrustedSignerCountMax);
  ("MaxMinInstances", Count MaxMinInstances);
  ("ConcurrencyPerVMBound", Count ConcurrencyPerVMBound);
  ("LogDeploymentFilterMax", Count LogDeploymentFilterMax);
  ("OrgMembersMax", Count OrgMembersMax);
  ("OrgPendingInvitationsMax", Count OrgPendingInvitationsMax)].

Definition resource_methods : list (string * method) := [
  ("ScaleUpTargetRPSAllowed", Gate ScaleUpTargetRPSAllowed);
  ("ScaleUpTargetCPUAllowed", Gate ScaleUpTargetCPUAllowed);
  ("CPUWeight", Setting CPUWeight);
  ("CPUQuotaUS", Count CPUQuotaUS);
  ("CPUPeriodUS", Setting CPUPeriodUS)].

End Plan.

(** ** RAM arithmetic and idle-timeout bounds *)

Definition BillableRAMMB (ramMB : Z) : Z := ramMB +! PerVMOverheadMB.

Definition AdmissionMB (l : Limits.t) : Z := BillableRAMMB (Limits.RAMMB l).

(** The loop over the sidecar slice: only positive entries add. *)
Definition BillableRAMMBWithSidecars (ramMB : Z) (sidecarMBs : list Z) : Z :=
  foldl (λ total m, if 0 <? m then total +! m else total) (ramMB +! PerVMOverheadMB) sidecarMBs.

Definition IdleTimeoutBounds (l : Limits.t) : Z * Z :=
  (IdleTimeoutFloorSeconds, Limits.IdleTimeoutS l *! IdleTimeoutMaxMultiple).

Definition RequestBudget (l : Limits.t) : Z :=
  let d := Limits.RequestBudgetMs l *! Millisecond in
  let d := if d <=? 0 then RequestBudgetDefault else d in
  if RequestBudgetMax <? d then RequestBudgetMax else d.

Definition RequestBudgetMaxDuration (l : Limits.t) : Z :=
  let d := Limits.RequestBudgetMaxMs l *! Millisecond in
  let d := if d <=? 0 then RequestBudgetMax else d in
  if d <? RequestBudget l then RequestBudget l else d.

(** ** Exactness of the billable arithmetic *)

(** The mathematical value of the sidecar sum. *)
Definition sum_pos (l : list Z) : Z := foldr (λ m acc, Z.max 0 m + acc) 0 l.

Lemma sum_pos_nonneg l : 0 ≤ sum_pos l.
Proof. induction l as [|m l IH]; simpl; lia. Qed.

Lemma billable_fold_exact l t :
  0 ≤ t → t + sum_pos l < 2 ^ 63 →
  foldl (λ total m, if 0 <? m then total +! m else total) t l = t + sum_pos l.
Proof.
  revert t. induction l as [|m l IH]; simpl; intros t Ht Hb; [lia|].
  pose proof (sum_pos_nonneg l).
  destruct (0 <? m) eqn:E; breflect.
  - rewrite i64_id by (unfold in_i64; lia). rewrite IH by lia. lia.
  - rewrite IH by lia. lia.
Qed.

Lemma BillableRAMMBWithSidecars_exact ram scs :
  0 ≤ ram → ram + PerVMOverheadMB + sum_pos scs < 2 ^ 63 →
  BillableRAMMBWithSidecars ram scs = ram + PerVMOverheadMB + sum_pos scs.
Proof.
  unfold BillableRAMMBWithSidecars, PerVMOverheadMB. intros Hr Hb.
  pose proof (sum_pos_nonneg scs).
  rewrite i64_id by (unfold in_i64; lia). by rewrite billable_fold_exact by lia.
Qed.

(** the sidecar form of the billable RAM agrees with the single-argument form on an empty
    slice, and as long as the true sum fits an int64 it is exactly ram + overhead + the sum of the
    positive sidecar entries. *)
Theorem billable_with_sidecars_correct ram scs :
  0 ≤ ram → ram + PerVMOverheadMB + sum_pos scs < 2 ^ 63 →
  BillableRAMMBWithSidecars ram scs = BillableRAMMB ram + sum_pos scs ∧
  BillableRAMMBWithSidecars ram [] = BillableRAMMB ram.
Proof.
  intros Hr Hb. rewrite BillableRAMMBWithSidecars_exact by done.
  unfold BillableRAMMB. pose proof (sum_pos_nonneg scs). unfold PerVMOverheadMB in *.
  rewrite i64_id by (unfold in_i64; lia). split; [lia|].
  rewrite BillableRAMMBWithSidecars_exact; unfold PerVMOverheadMB; simpl; lia.
Qed.

Lemma billable_with_sidecars_correct_witness :
  BillableRAMMBWithSidecars 512 [64; -3; 128] = 712.
Proof.
  destruct (billable_with_sidecars_correct 512 [64; -3; 128]) as [-> _]; [lia|by vm_compute|].
  by vm_compute.
Defined.

(** ** Properties of the plan table *)

(** Every numeric quota a plan grants (ceilings, budgets, counts).  The two request-budget fields
    are zero in every row and the two platform-wide defaults (TailCapMax, CertExpiryWarningDays)
    are constant; they are included as they are. *)
Definition quotas : list (Limits.t → Z) := [
  Limits.DeployedApps; Limits.MaxConcurrency; Limits.RAMMB; Limits.AppLayerMaxMB;
  Limits.SourceTarballMaxMB; Limits.ConcurrencyPerVMBound; Limits.VCPU; Limits.IdleTimeoutS;
  Limits.CPUWeight; Limits.CPUQuotaUS; Limits.IncludedGBHours; Limits.PriceMillicents;
  Limits.RateLimitRPS; Limits.RateLimitBurst; Limits.RateLimitPerAccountRPM;
  Limits.ThrottleMaxKeysPerRule; Limits.WakeBurstPerApp; Limits.WakeBurstPerAccount;
  Limits.EgressMbit; Limits.SecretCountMax; Limits.SecretValueMaxBytes; Limits.EnvVarsMax;
  Limits.EnvValueMaxBytes; Limits.TrustedSignerCountMax; Limits.RegistryCredentialMax;
  Limits.MaxMinInstances; Limits.MaxQueueDepth; Limits.MaxDelayedTasksPerApp;
  Limits.MaxSourceBytesPerInvocation; Limits.MaxQueueAttempts; Limits.LogDeploymentFilterMax;
  Limits.CronLimitPerApp; Limits.CronLimitPerAccount; Limits.ReservedConcurrencyPerAccount;
  Limits.KeysMax; Limits.OrgMembersMax; Limits.OrgPendingInvitationsMax;
  Limits.AlertRuleLimitPerApp; Limits.AlertRuleLimitPerAccount; Limits.EdgeRulesPerApp;
  Limits.EdgeRulesGeoPerApp; Limits.EdgeRulesThrottlePerApp; Limits.TenantSurfacesPerAccount;
  Limits.TenantHostnamesPerSurface; Limits.DataPlacementHintsPerApp; Limits.WebhookPerApp;
  Limits.WebhookPerAccount; Limits.TriggerLimitPerApp; Limits.TriggerLimitPerAccount;
  Limits.TriggerBatchSizeMax; Limits.TriggerBatchWindowMaxSec; Limits.TriggerMaxAttemptsMax;
  Limits.TriggerRecordsPerSecondPerApp; Limits.TriggerPayloadMaxBytes;
  Limits.EgressAllowlistMaxSize; Limits.MaxResponseBodyBytes; Limits.ResponseWriteTimeoutSeconds;
  Limits.TailTimeoutS; Limits.TailCapMax; Limits.ConcurrentTailsPerInstance;
  Limits.LogArchiveRetentionDaysMax; Limits.AppErrorsRetentionDays;
  Limits.AppErrorsMaxFingerprintsPerApp; Limits.AppErrorsMaxRequestRowsPerFingerprint].

(** Every feature gate. *)
Definition gates : list (Limits.t → bool) := [
  Limits.MinInstancesAllowed; Limits.MaxInstancesAllowed; Limits.ScaleUpTargetRPSAllowed;
  Limits.ScaleUpTargetCPUAllowed; Limits.AsyncInvokeAllowed;
  Limits.EvictionPriorityReservedAllowed; Limits.PublicAuthBearerAllowed;
  Limits.PublicAuthBasicAllowed; Limits.RequireAuthnDefault; Limits.EdgeRulesJWTAllowed;
  Limits.EdgeRulesIPAllowed; Limits.TenantSurfacesAllowed; Limits.TriggersAllowed;
  Limits.EgressAllowlistAllowed; Limits.WarmSnapshotEnabled; Limits.RequireAuthn;
  Limits.TrafficSplit; Limits.StreamingEnabled; Limits.WebSocketEnabled;
  Limits.RouteMetricsEnabled; Limits.TailEnabled; Limits.LogArchiveEnabled].

Definition tiers : list Limits.t := [limitsFree; limitsHobby; limitsPro; limitsScale].

(** Adjacent tiers never lose a quota or a gate. *)
Definition tier_leb (a b : Limits.t) : bool :=
  forallb (λ q, q a <=? q b) quotas && forallb (λ g, implb (g a) (g b)) gates.

(** upgrading is monotone: from each plan to the next one every numeric quota stays or grows and
    every feature gate that was open stays open, for all 64 quotas and 22 gates of the table. *)
Theorem plan_tiers_monotone (i j : nat) (a b : Limits.t) (q : Limits.t → Z) (g : Limits.t → bool) :
  tiers !! i = Some a → tiers !! j = Some b → (i ≤ j)%nat →
  q ∈ quotas → g ∈ gates →
  q a ≤ q b ∧ (g a = true → g b = true).
Proof.
  intros Ha Hb Hij Hq Hg.
  assert (tier_leb a b = true) as H.
  { destruct i as [|[|[|[|i]]]], j as [|[|[|[|j]]]]; try (exfalso; lia); simplify_eq/=;
      by vm_compute. }
  unfold tier_leb in H. apply andb_true_iff in H as [H1 H2].
  rewrite forallb_forall in H1, H2.
  apply list_elem_of_In in Hq. apply list_elem_of_In in Hg. specialize (H1 _ Hq). specialize (H2 _ Hg).
  split; [lia|]. intros E. by rewrite E in H2.
Qed.

Lemma plan_tiers_monotone_witness :
  Limits.MaxConcurrency limitsHobby ≤ Limits.MaxConcurrency limitsScale ∧
  (Limits.StreamingEnabled limitsHobby = true → Limits.StreamingEnabled limitsScale = true).
Proof.
  apply (plan_tiers_monotone 1 3 limitsHobby limitsScale
           Limits.MaxConcurrency Limits.StreamingEnabled);
    [done|done|lia|by repeat constructor|by repeat constructor].
Defined.

(** ** Fail-closed accessors *)

(** The accessors that grant a capability. *)
Definition methods : list (string * Plan.method) :=
  Plan.instance_methods ++ Plan.log_methods ++ Plan.feature_methods ++ Plan.auth_methods ++
  Plan.warm_methods ++ Plan.tail_methods ++ Plan.account_methods ++ Plan.trigger_methods ++
  Plan.resource_methods.

Definition gate_accessors : list (string → bool) :=
  [Plan.MinInstancesAllowed; Plan.LivenessAllowed; Plan.GRPCLivenessAllowed; Plan.WarmSnapshotAllowed] ++
  omap (λ m, match m.2 with Plan.Gate g => Some g | _ => None end) methods.

(** The accessors that report a count the caller may use up. *)
Definition count_accessors : list (string → Z) :=
  [Plan.PlanIncludedGBHours; Plan.RateLimitPerAccountRPM] ++
  omap (λ m, match m.2 with Plan.Count n => Some n | _ => None end) methods.

Lemma Valid_in_Plans p : Plan.Valid p = true ↔ p ∈ Plans.
Proof.
  unfold Plan.Valid, planLimits, Plans. rewrite !elem_of_cons, elem_of_nil.
  destruct (String.eqb_spec p PlanFree), (String.eqb_spec p PlanHobby),
    (String.eqb_spec p PlanPro), (String.eqb_spec p PlanScale); simpl;
    split; intros; destruct_or?; done || tauto.
Qed.

Lemma invalid_LimitsFor p : Plan.Valid p = false → LimitsFor p = None.
Proof. unfold Plan.Valid, LimitsFor. by destruct (planLimits p). Qed.

(** One accessor at an unknown plan: unfold it and use the missing row. *)
Ltac solve_accessor Hl :=
  repeat (apply Forall_cons; split;
    [lazymatch goal with |- Plan.accessor _ _ _ = _ => unfold Plan.accessor | |- ?f _ = _ => unfold f end;
     by rewrite ?Hl|]); by apply Forall_nil.

(** for a string that is not one of the four plans every capability gate is closed, every count
    is zero, and a plan change from it is refused without a Stripe item. *)
Theorem unknown_plan_fails_closed p :
  p ∉ Plans →
  Forall (λ g, g p = false) gate_accessors ∧
  Forall (λ n, n p = 0) count_accessors ∧
  (∀ next, next ∈ Plans → Plan.RequiresStripeUpgradeTo p next = true).
Proof.
  intros Hp.
  assert (Plan.Valid p = false) as Hv.
  { destruct (Plan.Valid p) eqn:E; [|done]. by apply Valid_in_Plans in E. }
  pose proof (invalid_LimitsFor p Hv) as Hl. split_and!; [cbn; solve_accessor Hl|cbn; solve_accessor Hl|].
  intros next Hn%Valid_in_Plans. unfold Plan.RequiresStripeUpgradeTo. rewrite Hn. simpl.
  unfold Plan.Valid, planLimits in Hv. split_ifs.
Qed.

Lemma unknown_plan_fails_closed_witness :
  Plan.KeysMax "enterprise" = 0 ∧ Plan.TriggersAllowed "enterprise" = false ∧
  Plan.RequiresStripeUpgradeTo "enterprise" PlanHobby = true.
Proof.
  destruct (unknown_plan_fails_closed "enterprise") as (Hg & Hn & Hs).
  { vm_decide. }
  rewrite Forall_forall in Hg. rewrite Forall_forall in Hn. split_and!.
  - apply Hn. cbn. by repeat constructor.
  - apply Hg. cbn. by repeat constructor.
  - apply Hs. by repeat constructor.
Defined.

(** the auth-mode default is the one accessor that does not follow the fail-closed convention
    its comment claims: an unknown plan gets the open mode. *)
Theorem unknown_plan_auth_mode_open p :
  p ∉ Plans → Plan.PublicAuthModeDefault p = AppPublicAuthModeOpen.
Proof.
  intros Hp. unfold Plan.PublicAuthModeDefault. rewrite invalid_LimitsFor; [done|].
  destruct (Plan.Valid p) eqn:E; [|done]. by apply Valid_in_Plans in E.
Qed.

Lemma unknown_plan_auth_mode_open_witness :
  Plan.PublicAuthModeDefault "enterprise" = AppPublicAuthModeOpen.
Proof. apply (unknown_plan_auth_mode_open "enterprise"). vm_decide. Defined.

(** the request budget of a row is always in (0, RequestBudgetMax], and the per-request maximum is
    never below it, whatever the two fields hold (including values whose millisecond conversion wraps
    around). *)
Theorem request_budget_bounds l :
  0 < RequestBudget l ≤ RequestBudgetMax ∧ RequestBudget l ≤ RequestBudgetMaxDuration l.
Proof.
  unfold RequestBudgetMaxDuration.
  assert (0 < RequestBudget l ≤ RequestBudgetMax) as H.
  { unfold RequestBudget, RequestBudgetMax, RequestBudgetDefault, Second.
    split_ifs; breflect; lia. }
  split; [done|]. split_ifs; breflect; lia.
Qed.

(** Replace the two request-budget fields of a row. *)
Definition with_budget (l : Limits.t) (ms maxms : Z) : Limits.t :=
  match l with
  | Limits.mk a1 a2 a3 a4 a5 a6 a7 a8 a9 a10 _ _ a13 a14 a15 a16 a17 a18 a19 a20 a21 a22 a23 a24 a25
      a26 a27 a28 a29 a30 a31 a32 a33 a34 a35 a36 a37 a38 a39 a40 a41 a42 a43 a44 a45 a46 a47 a48
      a49 a50 a51 a52 a53 a54 a55 a56 a57 a58 a59 a60 a61 a62 a63 a64 a65 a66 a67 a68 a69 a70 a71
      a72 a73 a74 a75 a76 a77 a78 a79 a80 a81 a82 a83 a84 a85 a86 a87 a88 a89 a90 a91 a92 a93 a94
      a95 a96 a97 a98 a99 =>
    Limits.mk a1 a2 a3 a4 a5 a6 a7 a8 a9 a10 ms maxms a13 a14 a15 a16 a17 a18 a19 a20 a21 a22 a23 a24
      a25 a26 a27 a28 a29 a30 a31 a32 a33 a34 a35 a36 a37 a38 a39 a40 a41 a42 a43 a44 a45 a46 a47
      a48 a49 a50 a51 a52 a53 a54 a55 a56 a57 a58 a59 a60 a61 a62 a63 a64 a65 a66 a67 a68 a69 a70
      a71 a72 a73 a74 a75 a76 a77 a78 a79 a80 a81 a82 a83 a84 a85 a86 a87 a88 a89 a90 a91 a92 a93
      a94 a95 a96 a97 a98 a99
  end.

(** the documented upper clamp of the per-request maximum (five times RequestBudgetMax) is not in
    the code: a row with a 200 s maximum keeps it. *)
Theorem request_budget_max_not_clamped :
  5 * RequestBudgetMax < RequestBudgetMaxDuration (with_budget limitsScale 5000 200000).
Proof. by vm_compute. Qed.
