(* ===== verification/Machine.v ===== *)
(** * pkg/state: the instance state machine

    Models src/pkg/state/machine.go: the nine lifecycle states, the legal edge
    set, the two accounting predicates (concurrency and resident RAM) and the
    string forms stored in the instances table; and the effective minimum
    instance counts of src/pkg/state/app_min_instances_effective.go and
    deployment_min_instances_effective.go. *)

From S2P Require Import Prelude.

(** [State] is a Go string; the constants are the known values and
    [StateOther] is any other string. *)
Inductive State : Type :=
| StateParked
| StateWaking
| StateColdBooting
| StateRunning
| StateSnapshotting
| StateStopped
| StateFailed
| StateEvictingAccountDeleting
| StateMigrating
| StateOther (s : string).

#[export] Instance State_eq_dec : EqDecision State.
Proof. solve_decision. Defined.

Definition State_eqb (a b : State) : bool := bool_decide (a = b).

Definition States : list State :=
  [StateParked; StateWaking; StateColdBooting; StateRunning; StateSnapshotting; StateStopped;
   StateFailed; StateEvictingAccountDeleting; StateMigrating].

(** The column values. *)
Definition State_string (s : State) : string :=
  match s with
  | StateParked => "parked"
  | StateWaking => "waking"
  | StateColdBooting => "cold_booting"
  | StateRunning => "running"
  | StateSnapshotting => "snapshotting"
  | StateStopped => "stopped"
  | StateFailed => "failed"
  | StateEvictingAccountDeleting => "evicting_account_deleting"
  | StateMigrating => "migrating"
  | StateOther s => s
  end.

(** The conversion [State(s)] of a column value. *)
Definition State_of_string (s : string) : State :=
  match List.find (λ st, String.eqb (State_string st) s) States with
  | Some st => st
  | None => StateOther s
  end.

(** The legal edge set; [None] is a missing map key. *)
Definition transitions (s : State) : option (list State) :=
  match s with
  | StateParked => Some [StateWaking; StateColdBooting]
  | StateWaking => Some [StateRunning; StateColdBooting; StateFailed; StateStopped;
                         StateEvictingAccountDeleting]
  | StateColdBooting => Some [StateRunning; StateFailed; StateStopped;
                              StateEvictingAccountDeleting]
  | StateRunning => Some [StateSnapshotting; StateStopped; StateFailed;
                          StateEvictingAccountDeleting; StateMigrating]
  | StateSnapshotting => Some [StateParked; StateStopped; StateEvictingAccountDeleting]
  | StateStopped => Some [StateColdBooting]
  | StateFailed => Some [StateParked; StateColdBooting; StateStopped]
  | StateEvictingAccountDeleting => Some []
  | StateMigrating => Some [StateRunning; StateParked; StateFailed]
  | StateOther _ => None
  end.

Definition Valid (s : State) : bool :=
  match transitions s with Some _ => true | None => false end.

Definition CanTransition (from to : State) : bool :=
  existsb (λ allowed, State_eqb allowed to) (default [] (transitions from)).

Definition CountsForConcurrency (s : State) : bool :=
  match s with
  | StateWaking | StateColdBooting | StateRunning => true
  | _ => false
  end.

Definition CountsForRAM (s : State) : bool :=
  CountsForConcurrency s || State_eqb s StateSnapshotting || State_eqb s StateMigrating.

Definition IsLive (s : string) : bool := CountsForRAM (State_of_string s).

(** ** Effective minimum instances *)

(** The fields of App and Deployment these helpers read: the legacy column
    and, for an app, the optional scaling policy's floor ([ScalingPolicyOrDefault]
    reads a missing policy as all zeros). *)
Definition effectiveMinInstances (a : option (Z * option Z)) : Z :=
  match a with
  | None => 0
  | Some (col, policy) =>
      let pol := default 0 policy in
      if col <? pol then pol else col
  end.

Definition effectiveDeploymentMinInstances (d : option Z) : Z :=
  match d with
  | None => 0
  | Some n => if n <? 0 then 0 else n
  end.

(** ** The machine as a step relation *)

Inductive edge : State → State → Prop :=
| edge_legal from to : CanTransition from to = true → edge from to.

(** Sequences of legal writes: reflexive transitive closure. *)
Definition reachable : State → State → Prop := rtc edge.

Lemma CanTransition_elem from to :
  CanTransition from to = true ↔ ∃ l, transitions from = Some l ∧ to ∈ l.
Proof.
  unfold CanTransition. rewrite existsb_exists. unfold State_eqb. split.
  - intros (x & Hx & ->%bool_decide_eq_true).
    destruct (transitions from) as [l|]; [|done]. exists l. by rewrite list_elem_of_In.
  - intros (l & -> & Hl). exists to. rewrite <- list_elem_of_In. simpl.
    by rewrite bool_decide_eq_true.
Qed.

(** An edge only connects known states. *)
Lemma edge_valid from to : edge from to → Valid from = true ∧ Valid to = true.
Proof.
  intros [f t (l & Hl & Ht)%CanTransition_elem]. unfold Valid. rewrite Hl. split; [done|].
  destruct f; simplify_eq/=; repeat (apply elem_of_cons in Ht as [->|Ht]; [done|]);
    by apply elem_of_nil in Ht.
Qed.

(** Invert an edge hypothesis into its finitely many cases. *)
Ltac edge_cases H :=
  let l := fresh "l" in let Hl := fresh "Hl" in let Ht := fresh "Ht" in
  destruct H as [? ? (l & Hl & Ht)%CanTransition_elem];
  match type of Hl with transitions ?s = _ => destruct s end; simplify_eq/=;
  repeat (apply elem_of_cons in Ht as [->|Ht]; [try done|]);
  try (by apply elem_of_nil in Ht).

(** the string form of a known state parses back to it, and the live predicate the other
    components apply to raw columns is the RAM predicate on states. *)
Theorem state_string_roundtrip s :
  s ∈ States → State_of_string (State_string s) = s ∧ IsLive (State_string s) = CountsForRAM s.
Proof.
  intros Hs. assert (State_of_string (State_string s) = s) as H.
  { unfold States in Hs. repeat (apply elem_of_cons in Hs as [->|Hs]; [by vm_compute|]).
    by apply elem_of_nil in Hs. }
  split; [done|]. unfold IsLive. by rewrite H.
Qed.

Lemma state_string_roundtrip_witness :
  IsLive "migrating" = true ∧ State_of_string "cold_booting" = StateColdBooting.
Proof.
  split; [|reflexivity]. apply (state_string_roundtrip StateMigrating). by repeat constructor.
Defined.

(** Resident RAM is acquired only by entering WAKING or COLD_BOOTING. *)
Lemma ram_acquired from to :
  edge from to → CountsForRAM from = false → CountsForRAM to = true →
  to = StateWaking ∨ to = StateColdBooting.
Proof. intros H. edge_cases H; naive_solver. Qed.

(** accounting is sound with respect to the machine: concurrency implies resident RAM; a legal
    edge makes an instance resident only by entering WAKING or COLD_BOOTING (the two admission
    points); and concurrency is gained only there or by a migration committing back to RUNNING. *)
Theorem accounting_sound from to :
  edge from to →
  (CountsForConcurrency to = true → CountsForRAM to = true) ∧
  (CountsForRAM from = false → CountsForRAM to = true → to = StateWaking ∨ to = StateColdBooting) ∧
  (CountsForConcurrency from = false → CountsForConcurrency to = true →
     to = StateWaking ∨ to = StateColdBooting ∨ (from = StateMigrating ∧ to = StateRunning)).
Proof.
  intros H. split_and!.
  - unfold CountsForRAM. by intros ->.
  - by apply ram_acquired.
  - edge_cases H; naive_solver.
Qed.

Lemma accounting_sound_witness :
  CountsForConcurrency StateMigrating = false ∧ CountsForConcurrency StateRunning = true ∧
  (StateRunning = StateWaking ∨ StateRunning = StateColdBooting ∨
   (StateMigrating = StateMigrating ∧ StateRunning = StateRunning)).
Proof.
  split_and!; [done|done|].
  apply (accounting_sound StateMigrating StateRunning); [by constructor|done|done].
Defined.

(** EVICTING_ACCOUNT_DELETING is absorbing and only entered from a resident state other than
    MIGRATING; every other known state can be driven back to PARKED by legal edges, so no instance is
    stranded. *)
Theorem machine_liveness s :
  Valid s = true →
  (∀ t, reachable StateEvictingAccountDeleting t → t = StateEvictingAccountDeleting) ∧
  (CanTransition s StateEvictingAccountDeleting = true →
     CountsForRAM s = true ∧ s ≠ StateMigrating) ∧
  (s = StateEvictingAccountDeleting ∨ reachable s StateParked).
Proof.
  intros Hv. split_and!.
  - intros t Ht. inversion Ht as [|? y ? Hy]; subst; [done|].
    inversion Hy; discriminate.
  - intros H. destruct s; try discriminate; split; done.
  - assert (reachable StateRunning StateParked) as HR.
    { eapply rtc_l with StateSnapshotting; [by constructor|].
      eapply rtc_l with StateParked; [by constructor|constructor]. }
    assert (reachable StateColdBooting StateParked) as HC.
    { eapply rtc_l with StateRunning; [by constructor|done]. }
    destruct s; try discriminate; try (by left); right; try done.
    all: (constructor; fail) || (eapply rtc_l; [|exact HC]; by constructor)
         || (eapply rtc_l; [|exact HR]; by constructor)
         || (eapply rtc_l; [|constructor]; by constructor).
Qed.

Lemma machine_liveness_witness :
  StateStopped = StateEvictingAccountDeleting ∨ reachable StateStopped StateParked.
Proof. apply (machine_liveness StateStopped). reflexivity. Defined.
