(* ===== verification/Admission.v ===== *)
(** * pkg/sched: the per-node admission ledger

    Models src/pkg/sched/admission.go whole: the four maps of [NodeLedger], every
    method that changes them ([Admit], [BeginSnapshot], [Release]) and every
    reader.  Counters are int64 with Go's wrap-around.  The abstract
    specification is the map of reservations alone: [spec_admit] recomputes every
    sum from it, and the class [AdmissionLedger] states that an implementation
    refines it; [NodeLedger] is an instance.  The mutex makes each method one
    atomic step, so a concurrent history is a sequence of operations. *)

From S2P Require Import Prelude Api.

(** ** Data *)

Module Ledger.

Record nodeReservation := mkNode {
  residentRAM : Z;  (* sum of ram_mb + overhead on this node *)
  usedVCPU : Z;
}.

Record reservation := mkRes {
  appID : string;
  deploymentID : string;
  nodeID : string;
  admissionMB : Z;
  vcpu : Z;
  countsConc : bool;
}.

Record NodeLedger := mkLedger {
  resident : gmap string nodeReservation;
  perApp : gmap string Z;
  perAppDeployment : gmap string Z;
  entries : gmap string reservation;
}.

Definition NewNodeLedger : NodeLedger := mkLedger ∅ ∅ ∅ ∅.

Inductive Kind := KindWake | KindMigration.

#[export] Instance Kind_eq_dec : EqDecision Kind.
Proof. solve_decision. Defined.

(** [PreferredNodeID] and [PreferredRegion] are the placement hints; the ledger
    itself does not read them. *)
Record Request := mkReq {
  Instance_ : string;
  AppID : string;
  DeploymentID : string;
  ReqPlan : string;
  RAMMB : Z;
  SidecarMBs : list Z;
  VCPU : Z;
  MaxConcurrency : Z;
  ReqKind : Kind;
  NodeID : string;
  PreferredNodeID : string;
  PreferredRegion : string;
  NodeCeilingMB : Z;
  VCPUBudget : Z;
}.

(** The errors of [Admit], with the values their messages carry. *)
Inductive admit_error :=
| ErrUnknownPlan (plan : string)
| ErrAlreadyAdmitted (instance : string)
| ErrPlanLimitConcurrency (maxc have : Z)
| ErrCapacityRAM (node : string) (have want ceiling : Z)
| ErrCapacityVCPU (node : string) (have want ceiling : Z).

Definition req_admissionMB (r : Request) : Z :=
  BillableRAMMBWithSidecars (RAMMB r) (SidecarMBs r).

Definition is_wake (r : Request) : bool :=
  match ReqKind r with KindMigration => false | KindWake => true end.

(** The map key of the per-deployment counter: app, NUL, deployment. *)
Definition NUL : string := String Ascii.zero EmptyString.
Definition dkey (app dep : string) : string := (app +:+ NUL +:+ dep)%string.

(** ** Operations *)

Definition ceilingForNode_locked (nodeID : string) : Z := RAMAdmissionCeilingMB.

(** The prologue of [Admit]: a wake needs a known plan, a migration carries the
    zero [api.Limits]; only [MaxConcurrency] of it is read. *)
Definition admit_limits (r : Request) : option Z :=
  if is_wake r then Limits.MaxConcurrency <$> LimitsFor (ReqPlan r) else Some 0.

Definition admit_maxConc (r : Request) (limit : Z) : Z :=
  if (MaxConcurrency r <=? 0) || (limit <? MaxConcurrency r) then limit else MaxConcurrency r.

Definition admit_ceiling (r : Request) : Z :=
  if NodeCeilingMB r <=? 0 then ceilingForNode_locked (NodeID r) else NodeCeilingMB r.

Definition admit_vcpuCeiling (r : Request) : Z :=
  if VCPUBudget r <=? 0 then VCPUSlots else VCPUBudget r.

Definition new_reservation (r : Request) : reservation :=
  mkRes (AppID r) (DeploymentID r) (NodeID r) (req_admissionMB r) (VCPU r) (is_wake r).

Definition incr (k : string) (m : gmap string Z) : gmap string Z := <[k := zget m k +! 1]> m.

Definition Admit (l : NodeLedger) (r : Request) : NodeLedger * option admit_error :=
  match admit_limits r with
  | None => (l, Some (ErrUnknownPlan (ReqPlan r)))
  | Some limit =>
      if bool_decide (is_Some (entries l !! Instance_ r))
      then (l, Some (ErrAlreadyAdmitted (Instance_ r)))
      else
      let maxConc := admit_maxConc r limit in
      let have := zget (perApp l) (AppID r) in
      if is_wake r && (maxConc <=? have)
      then (l, Some (ErrPlanLimitConcurrency limit have))
      else
      let ceiling := admit_ceiling r in
      let node := default (mkNode 0 0) (resident l !! NodeID r) in
      let l := mkLedger (<[NodeID r := node]> (resident l)) (perApp l) (perAppDeployment l)
                        (entries l) in
      if ceiling <? residentRAM node +! req_admissionMB r
      then (l, Some (ErrCapacityRAM (NodeID r) (residentRAM node) (req_admissionMB r) ceiling))
      else
      let vcpuCeiling := admit_vcpuCeiling r in
      if vcpuCeiling <? usedVCPU node +! VCPU r
      then (l, Some (ErrCapacityVCPU (NodeID r) (usedVCPU node) (VCPU r) vcpuCeiling))
      else
      let node' := mkNode (residentRAM node +! req_admissionMB r) (usedVCPU node +! VCPU r) in
      (mkLedger
         (<[NodeID r := node']> (resident l))
         (if is_wake r then incr (AppID r) (perApp l) else perApp l)
         (if is_wake r && negb (String.eqb (DeploymentID r) EmptyString)
          then incr (dkey (AppID r) (DeploymentID r)) (perAppDeployment l)
          else perAppDeployment l)
         (<[Instance_ r := new_reservation r]> (entries l)), None)
  end.

(** Decrement a counter and drop the key once it is not positive ([cleanupApp],
    and the same two lines inlined for the per-deployment counter). *)
Definition cleanupApp (app : string) (m : gmap string Z) : gmap string Z :=
  if zget m app <=? 0 then delete app m else m.

Definition decr (k : string) (m : gmap string Z) : gmap string Z :=
  cleanupApp k (<[k := zget m k -! 1]> m).

(** The concurrency half shared by [BeginSnapshot] and [Release]. *)
Definition drop_conc (e : reservation) (l : NodeLedger) : NodeLedger :=
  mkLedger (resident l) (decr (appID e) (perApp l))
    (if String.eqb (deploymentID e) EmptyString then perAppDeployment l
     else decr (dkey (appID e) (deploymentID e)) (perAppDeployment l))
    (entries l).

Definition BeginSnapshot (l : NodeLedger) (instance : string) : NodeLedger :=
  match entries l !! instance with
  | Some e =>
      if countsConc e then
        let e' := mkRes (appID e) (deploymentID e) (nodeID e) (admissionMB e) (vcpu e) false in
        drop_conc e (mkLedger (resident l) (perApp l) (perAppDeployment l)
                              (<[instance := e']> (entries l)))
      else l
  | None => l
  end.

(** The node half of [Release]: subtract, clamp at zero, drop an empty node. *)
Definition release_node (e : reservation) (m : gmap string nodeReservation)
  : gmap string nodeReservation :=
  match m !! nodeID e with
  | Some node =>
      let ram := residentRAM node -! admissionMB e in
      let ram := if ram <? 0 then 0 else ram in
      let cpu := usedVCPU node -! vcpu e in
      let cpu := if cpu <? 0 then 0 else cpu in
      if (ram =? 0) && (cpu =? 0) then delete (nodeID e) m
      else <[nodeID e := mkNode ram cpu]> m
  | None => m
  end.

Definition Release (l : NodeLedger) (instance : string) : NodeLedger :=
  match entries l !! instance with
  | None => l
  | Some e =>
      let l := mkLedger (release_node e (resident l)) (perApp l) (perAppDeployment l)
                        (delete instance (entries l)) in
      if countsConc e then drop_conc e l else l
  end.

(** Readers. *)
Definition ResidentRAM (l : NodeLedger) : Z :=
  map_fold (λ _ r n, n +! residentRAM r) 0 (resident l).

Definition ResidentRAMForNode (l : NodeLedger) (nodeID : string) : Z :=
  match resident l !! nodeID with Some r => residentRAM r | None => 0 end.

Definition UsedVCPUForNode (l : NodeLedger) (nodeID : string) : Z :=
  match resident l !! nodeID with Some r => usedVCPU r | None => 0 end.

Definition HeadroomMB (l : NodeLedger) : Z :=
  if bool_decide (resident l = ∅) then RAMAdmissionCeilingMB
  else
    let head := map_fold (λ n r head, head +! (ceilingForNode_locked n -! residentRAM r)) 0
                         (resident l) in
    if head <? 0 then 0 else head.

Definition Concurrency (l : NodeLedger) (appID : string) : Z := zget (perApp l) appID.

Definition ConcurrencyForDeployment (l : NodeLedger) (appID deploymentID : string) : Z :=
  if String.eqb appID EmptyString || String.eqb deploymentID EmptyString then 0
  else zget (perAppDeployment l) (dkey appID deploymentID).

Definition UsedVCPU (l : NodeLedger) : Z :=
  map_fold (λ _ r n, n +! usedVCPU r) 0 (resident l).

Definition NodeCount (l : NodeLedger) : Z := Z.of_nat (size (resident l)).

(** ** Specification

    The abstract ledger is the map of reservations; every counter is a sum over
    it, in unbounded arithmetic. *)

Definition ram_on (n : string) (e : reservation) : Z :=
  if String.eqb (nodeID e) n then admissionMB e else 0.
Definition vcpu_on (n : string) (e : reservation) : Z :=
  if String.eqb (nodeID e) n then vcpu e else 0.
Definition counts_app (a : string) (e : reservation) : bool :=
  countsConc e && String.eqb (appID e) a.
Definition counts_key (k : string) (e : reservation) : bool :=
  countsConc e && negb (String.eqb (deploymentID e) EmptyString)
  && String.eqb (dkey (appID e) (deploymentID e)) k.
Definition counts_dep (a d : string) (e : reservation) : bool :=
  countsConc e && String.eqb (appID e) a && String.eqb (deploymentID e) d.

Definition spec_admit (m : gmap string reservation) (r : Request)
  : gmap string reservation * option admit_error :=
  match admit_limits r with
  | None => (m, Some (ErrUnknownPlan (ReqPlan r)))
  | Some limit =>
      if bool_decide (is_Some (m !! Instance_ r)) then (m, Some (ErrAlreadyAdmitted (Instance_ r)))
      else
      let have := map_count (counts_app (AppID r)) m in
      let ram := map_sum (ram_on (NodeID r)) m in
      let cpu := map_sum (vcpu_on (NodeID r)) m in
      if is_wake r && (admit_maxConc r limit <=? have)
      then (m, Some (ErrPlanLimitConcurrency limit have))
      else if admit_ceiling r <? ram + req_admissionMB r
      then (m, Some (ErrCapacityRAM (NodeID r) ram (req_admissionMB r) (admit_ceiling r)))
      else if admit_vcpuCeiling r <? cpu + VCPU r
      then (m, Some (ErrCapacityVCPU (NodeID r) cpu (VCPU r) (admit_vcpuCeiling r)))
      else (<[Instance_ r := new_reservation r]> m, None)
  end.

Definition stop_counting (e : reservation) : reservation :=
  mkRes (appID e) (deploymentID e) (nodeID e) (admissionMB e) (vcpu e) false.

(** ** Well-formed requests

    Identifiers contain no NUL byte, sizes are non-negative and far from the
    int64 range; the row ceilings are below 2^61. *)

Fixpoint no_nul (s : string) : bool :=
  match s with
  | EmptyString => true
  | String c s => negb (Ascii.eqb c Ascii.zero) && no_nul s
  end.

Definition ram_max : Z := 2 ^ 61.

Record wf_request (r : Request) : Prop := {
  wf_app : no_nul (AppID r) = true;
  wf_ram : 0 ≤ RAMMB r;
  wf_total : RAMMB r + PerVMOverheadMB + sum_pos (SidecarMBs r) < ram_max;
  wf_vcpu : 0 ≤ VCPU r < ram_max;
  wf_ceiling : admit_ceiling r ≤ ram_max;
  wf_vcpuCeiling : admit_vcpuCeiling r ≤ ram_max;
}.

Record wf_entry (e : reservation) : Prop := {
  wfe_app : no_nul (appID e) = true;
  wfe_ram : PerVMOverheadMB ≤ admissionMB e;
  wfe_vcpu : 0 ≤ vcpu e;
}.

(** The representation invariant: every counter is the sum it stands for. *)
Record ledger_ok (l : NodeLedger) : Prop := {
  ok_ram n : ResidentRAMForNode l n = map_sum (ram_on n) (entries l);
  ok_vcpu n : UsedVCPUForNode l n = map_sum (vcpu_on n) (entries l);
  ok_app a : zget (perApp l) a = map_count (counts_app a) (entries l);
  ok_key k : zget (perAppDeployment l) k = map_count (counts_key k) (entries l);
  ok_entry i e : entries l !! i = Some e → wf_entry e;
  ok_ram_max n : ResidentRAMForNode l n ≤ ram_max;
  ok_vcpu_max n : UsedVCPUForNode l n ≤ ram_max;
  ok_app_max a : zget (perApp l) a ≤ ram_max;
}.

(** ** Lemmas *)

Lemma dkey_inj a1 a2 d1 d2 :
  no_nul a1 = true → no_nul a2 = true → dkey a1 d1 = dkey a2 d2 → a1 = a2 ∧ d1 = d2.
Proof.
  unfold dkey, NUL. revert a2.
  induction a1 as [|c a1 IH]; intros [|c' a2]; simpl; intros H1 H2 H; simplify_eq/=; try done.
  apply andb_true_iff in H1 as [_ H1], H2 as [_ H2]. destruct (IH a2) as [-> ->]; done.
Qed.

Lemma LimitsFor_MaxConcurrency p L :
  LimitsFor p = Some L → 1 ≤ Limits.MaxConcurrency L ≤ 20.
Proof.
  unfold LimitsFor, planLimits. intros H. split_ifs; vm_compute; split; discriminate.
Qed.

Lemma admit_limits_bound r limit : admit_limits r = Some limit → limit ≤ 20.
Proof.
  unfold admit_limits. destruct (is_wake r); [|naive_solver lia].
  destruct (LimitsFor (ReqPlan r)) as [L|] eqn:HL; simpl; [|done].
  intros [= <-]. apply LimitsFor_MaxConcurrency in HL. lia.
Qed.

Lemma admit_maxConc_le r limit : admit_maxConc r limit ≤ limit.
Proof. unfold admit_maxConc. split_ifs; breflect; lia. Qed.

Lemma admit_ceiling_pos r : 0 < admit_ceiling r.
Proof.
  unfold admit_ceiling, ceilingForNode_locked, RAMAdmissionCeilingMB. split_ifs; breflect; lia.
Qed.

Lemma admit_vcpuCeiling_pos r : 0 < admit_vcpuCeiling r.
Proof. unfold admit_vcpuCeiling, VCPUSlots. split_ifs; breflect; lia. Qed.

Lemma wf_admissionMB r :
  wf_request r → PerVMOverheadMB ≤ req_admissionMB r < ram_max.
Proof.
  intros [_ Hr Ht _ _ _]. unfold req_admissionMB. pose proof (sum_pos_nonneg (SidecarMBs r)).
  rewrite BillableRAMMBWithSidecars_exact; unfold ram_max in *; lia.
Qed.

Lemma wf_new_entry r : wf_request r → wf_entry (new_reservation r).
Proof.
  intros H. pose proof (wf_admissionMB r H). destruct H. constructor; simpl; auto; lia.
Qed.

Lemma entries_nonneg l :
  ledger_ok l →
  (∀ n, 0 ≤ map_sum (ram_on n) (entries l)) ∧ (∀ n, 0 ≤ map_sum (vcpu_on n) (entries l)).
Proof.
  intros Hok. split; intros n; apply map_sum_nonneg; intros i e He;
    destruct (ok_entry l Hok i e He) as [_ Hr Hv]; unfold ram_on, vcpu_on, PerVMOverheadMB in *;
    split_ifs; lia.
Qed.

(** The counter reads, split by whether the key is the one written. *)
Lemma ResidentRAMForNode_insert l l' n k v :
  resident l' = <[k:=v]> (resident l) →
  ResidentRAMForNode l' n = if String.eqb k n then residentRAM v else ResidentRAMForNode l n.
Proof.
  intros Hl. unfold ResidentRAMForNode. rewrite Hl.
  by destruct (String.eqb_spec k n) as [->|]; simplify_map_eq.
Qed.

Lemma UsedVCPUForNode_insert l l' n k v :
  resident l' = <[k:=v]> (resident l) →
  UsedVCPUForNode l' n = if String.eqb k n then usedVCPU v else UsedVCPUForNode l n.
Proof.
  intros Hl. unfold UsedVCPUForNode. rewrite Hl.
  by destruct (String.eqb_spec k n) as [->|]; simplify_map_eq.
Qed.

Lemma node_default l n :
  let node := default (mkNode 0 0) (resident l !! n) in
  residentRAM node = ResidentRAMForNode l n ∧ usedVCPU node = UsedVCPUForNode l n.
Proof. unfold ResidentRAMForNode, UsedVCPUForNode. by destruct (resident l !! n). Qed.

Lemma zget_incr m k k' :
  in_i64 (zget m k + 1) → zget (incr k m) k' = zget m k' + (if String.eqb k k' then 1 else 0).
Proof.
  intros Hi. unfold incr. destruct (String.eqb_spec k k') as [->|]; autorewrite with faas_map;
    [by rewrite i64_id|lia].
Qed.

Lemma zget_decr m k k' :
  0 < zget m k ≤ ram_max → zget (decr k m) k' = zget m k' - (if String.eqb k k' then 1 else 0).
Proof.
  unfold ram_max. intros Hp. unfold decr, cleanupApp. autorewrite with faas_map.
  rewrite i64_id by (unfold in_i64; lia).
  destruct (zget m k - 1 <=? 0) eqn:E; breflect;
    destruct (String.eqb_spec k k') as [->|]; autorewrite with faas_map; lia.
Qed.

(** Materialising an absent node as a zero node changes no reader. *)
Lemma materialise_ok l n :
  ledger_ok l →
  ledger_ok (mkLedger (<[n := default (mkNode 0 0) (resident l !! n)]> (resident l))
                      (perApp l) (perAppDeployment l) (entries l)).
Proof.
  intros Hok. destruct (node_default l n) as [Hr Hv].
  set (l' := mkLedger _ _ _ _).
  assert (∀ n', ResidentRAMForNode l' n' = ResidentRAMForNode l n') as HR.
  { intros n'. erewrite (ResidentRAMForNode_insert l l') by done.
    by destruct (String.eqb_spec n n') as [<-|]. }
  assert (∀ n', UsedVCPUForNode l' n' = UsedVCPUForNode l n') as HV.
  { intros n'. erewrite (UsedVCPUForNode_insert l l') by done.
    by destruct (String.eqb_spec n n') as [<-|]. }
  destruct Hok. constructor; intros *; rewrite ?HR, ?HV; simpl; eauto.
Qed.

(** The counts of one per-deployment key are bounded by those of its app. *)
Lemma counts_key_le_app l a d :
  ledger_ok l → no_nul a = true →
  zget (perAppDeployment l) (dkey a d) ≤ zget (perApp l) a.
Proof.
  intros Hok Ha. rewrite (ok_key l Hok), (ok_app l Hok). apply map_sum_le.
  intros i e He. destruct (ok_entry l Hok i e He) as [Hn _ _]. unfold counts_key, counts_app.
  destruct (countsConc e); simpl; [|lia].
  destruct (String.eqb_spec (appID e) a) as [|Hne]; [by destruct (_ && _)|].
  destruct (String.eqb_spec (dkey (appID e) (deploymentID e)) (dkey a d)) as [Heq|];
    [|by rewrite andb_false_r].
  apply dkey_inj in Heq as [? _]; done.
Qed.


(** The pieces of [commit_ok]: one per counter. *)
Lemma commit_app l r a :
  ledger_ok l → entries l !! Instance_ r = None →
  (is_wake r = true → zget (perApp l) (AppID r) < 20) →
  zget (if is_wake r then incr (AppID r) (perApp l) else perApp l) a =
  map_count (counts_app a) (<[Instance_ r := new_reservation r]> (entries l)).
Proof.
  intros Hok Hnew Hc. unfold map_count. rewrite map_sum_insert by done.
  change (map_sum _ (entries l)) with (map_count (counts_app a) (entries l)).
  rewrite <- (ok_app l Hok). unfold counts_app at 1; simpl.
  destruct (is_wake r); simpl; [|lia]. specialize (Hc eq_refl).
  assert (0 ≤ zget (perApp l) (AppID r)) by (rewrite (ok_app l Hok); apply map_count_nonneg).
  rewrite zget_incr by (unfold in_i64; lia). split_ifs; lia.
Qed.

Lemma commit_key l r k :
  ledger_ok l → wf_request r → entries l !! Instance_ r = None →
  (is_wake r = true → zget (perApp l) (AppID r) < 20) →
  zget (if is_wake r && negb (String.eqb (DeploymentID r) EmptyString)
        then incr (dkey (AppID r) (DeploymentID r)) (perAppDeployment l)
        else perAppDeployment l) k =
  map_count (counts_key k) (<[Instance_ r := new_reservation r]> (entries l)).
Proof.
  intros Hok Hwf Hnew Hc. unfold map_count. rewrite map_sum_insert by done.
  change (map_sum _ (entries l)) with (map_count (counts_key k) (entries l)).
  rewrite <- (ok_key l Hok). unfold counts_key at 1; simpl.
  pose proof (counts_key_le_app l (AppID r) (DeploymentID r) Hok (wf_app r Hwf)) as Hk.
  destruct (is_wake r); simpl; [|lia]. specialize (Hc eq_refl).
  destruct (String.eqb (DeploymentID r) EmptyString); simpl; [lia|].
  assert (0 ≤ zget (perAppDeployment l) (dkey (AppID r) (DeploymentID r)))
    by (rewrite (ok_key l Hok); apply map_count_nonneg).
  rewrite zget_incr by (unfold in_i64; lia). split_ifs; lia.
Qed.

Lemma ledger_reads_nonneg l n :
  ledger_ok l → 0 ≤ ResidentRAMForNode l n ∧ 0 ≤ UsedVCPUForNode l n.
Proof.
  intros Hok. destruct (entries_nonneg l Hok). rewrite (ok_ram l Hok), (ok_vcpu l Hok). auto.
Qed.

(** Recording an admissible reservation keeps every counter a sum. *)
Lemma commit_ok l r (node := default (mkNode 0 0) (resident l !! NodeID r)) :
  ledger_ok l → wf_request r → entries l !! Instance_ r = None →
  (is_wake r = true → zget (perApp l) (AppID r) < 20) →
  ResidentRAMForNode l (NodeID r) + req_admissionMB r ≤ admit_ceiling r →
  UsedVCPUForNode l (NodeID r) + VCPU r ≤ admit_vcpuCeiling r →
  ledger_ok (mkLedger
    (<[NodeID r := mkNode (residentRAM node +! req_admissionMB r) (usedVCPU node +! VCPU r)]>
       (resident l))
    (if is_wake r then incr (AppID r) (perApp l) else perApp l)
    (if is_wake r && negb (String.eqb (DeploymentID r) EmptyString)
     then incr (dkey (AppID r) (DeploymentID r)) (perAppDeployment l) else perAppDeployment l)
    (<[Instance_ r := new_reservation r]> (entries l))).
Proof.
  intros Hok Hwf Hnew Hc Hram Hcpu.
  destruct (node_default l (NodeID r)) as [Hr Hv]; fold node in Hr, Hv.
  pose proof (wf_admissionMB r Hwf) as Hadm. destruct (ledger_reads_nonneg l (NodeID r) Hok).
  pose proof (wf_new_entry r Hwf) as Hent.
  pose proof (wf_vcpu r Hwf). pose proof (wf_ceiling r Hwf). pose proof (wf_vcpuCeiling r Hwf).
  set (l' := mkLedger _ _ _ _). unfold PerVMOverheadMB, ram_max in *.
  assert (∀ n, ResidentRAMForNode l' n = ResidentRAMForNode l n + ram_on n (new_reservation r)) as HR.
  { intros n. erewrite (ResidentRAMForNode_insert l l') by done. unfold ram_on; simpl.
    rewrite Hr, i64_id by (unfold in_i64; lia). destruct (String.eqb_spec (NodeID r) n); subst; lia. }
  assert (∀ n, UsedVCPUForNode l' n = UsedVCPUForNode l n + vcpu_on n (new_reservation r)) as HV.
  { intros n. erewrite (UsedVCPUForNode_insert l l') by done. unfold vcpu_on; simpl.
    rewrite Hv, i64_id by (unfold in_i64; lia). destruct (String.eqb_spec (NodeID r) n); subst; lia. }
  constructor.
  - intros n. simpl. rewrite HR, map_sum_insert, (ok_ram l Hok) by done. lia.
  - intros n. simpl. rewrite HV, map_sum_insert, (ok_vcpu l Hok) by done. lia.
  - intros a. by apply commit_app.
  - intros k. by apply commit_key.
  - intros i e. simpl. intros [[_ <-]|[_ He]]%lookup_insert_Some; [done|eapply ok_entry; eauto].
  - intros n. rewrite HR. pose proof (ok_ram_max l Hok n). unfold ram_on, ram_max in *; simpl.
    destruct (String.eqb_spec (NodeID r) n); subst; lia.
  - intros n. rewrite HV. pose proof (ok_vcpu_max l Hok n). unfold vcpu_on, ram_max in *; simpl.
    destruct (String.eqb_spec (NodeID r) n); subst; lia.
  - intros a. simpl. pose proof (ok_app_max l Hok a). destruct (is_wake r); [|done].
    assert (0 ≤ zget (perApp l) (AppID r)) by (rewrite (ok_app l Hok); apply map_count_nonneg).
    specialize (Hc eq_refl). rewrite zget_incr by (unfold in_i64; lia). unfold ram_max in *.
    destruct (String.eqb_spec (AppID r) a); subst; lia.
Qed.

(** [Admit] keeps the invariant and computes what the specification does. *)
Lemma Admit_refines l r :
  ledger_ok l → wf_request r →
  ledger_ok (Admit l r).1 ∧ (entries (Admit l r).1, (Admit l r).2) = spec_admit (entries l) r.
Proof.
  intros Hok Hwf. pose proof (wf_admissionMB r Hwf) as Hadm.
  destruct (ledger_reads_nonneg l (NodeID r) Hok). destruct (node_default l (NodeID r)) as [Hr Hv].
  pose proof (ok_ram_max l Hok (NodeID r)). pose proof (ok_vcpu_max l Hok (NodeID r)).
  pose proof (wf_vcpu r Hwf). unfold Admit, spec_admit.
  destruct (admit_limits r) as [limit|] eqn:Hlim; [|done]. apply admit_limits_bound in Hlim.
  case_bool_decide as Hdup; [done|].
  rewrite (ok_app l Hok). destruct (is_wake r && _) eqn:Hconc; [done|].
  rewrite <- (ok_ram l Hok), <- (ok_vcpu l Hok), Hr, Hv.
  unfold PerVMOverheadMB, ram_max in *. rewrite !i64_id by (unfold in_i64; lia).
  destruct (admit_ceiling r <? _) eqn:Hram; [split; [by apply materialise_ok|done]|].
  destruct (admit_vcpuCeiling r <? _) eqn:Hcpu; [split; [by apply materialise_ok|done]|].
  breflect; simpl; (split; [|done]); rewrite insert_insert_eq.
  all: rewrite <- (i64_id (ResidentRAMForNode _ _ + _)) by (unfold in_i64; lia).
  all: rewrite <- (i64_id (UsedVCPUForNode _ _ + _)) by (unfold in_i64; lia).
  all: rewrite <- Hr, <- Hv; apply commit_ok; rewrite ?eq_None_not_Some; auto; try lia.
  all: intros Hw; rewrite ?Hw in *; try done.
  rewrite (ok_app l Hok). pose proof (admit_maxConc_le r limit). lia.
Qed.

(** What one reservation contributes is at most what is counted. *)
Lemma entry_reads l i e :
  ledger_ok l → entries l !! i = Some e →
  admissionMB e ≤ ResidentRAMForNode l (nodeID e) ∧ vcpu e ≤ UsedVCPUForNode l (nodeID e).
Proof.
  intros Hok He. rewrite (ok_ram l Hok), (ok_vcpu l Hok).
  assert (ram_on (nodeID e) e = admissionMB e) as <- by (unfold ram_on; by rewrite String.eqb_refl).
  assert (vcpu_on (nodeID e) e = vcpu e) as <- by (unfold vcpu_on; by rewrite String.eqb_refl).
  split; eapply map_sum_elem; eauto; intros i' e' He';
    destruct (ok_entry l Hok i' e' He') as [_ ? ?]; unfold ram_on, vcpu_on, PerVMOverheadMB in *;
    split_ifs; lia.
Qed.

Lemma release_node_reads l l' i e n :
  ledger_ok l → entries l !! i = Some e → resident l' = release_node e (resident l) →
  ResidentRAMForNode l' n = ResidentRAMForNode l n - ram_on n e ∧
  UsedVCPUForNode l' n = UsedVCPUForNode l n - vcpu_on n e.
Proof.
  intros Hok He Hl'. destruct (entry_reads l i e Hok He) as [Hr Hv].
  destruct (ok_entry l Hok i e He) as [_ Hp Hq]. unfold PerVMOverheadMB in *.
  pose proof (ok_ram_max l Hok (nodeID e)). pose proof (ok_vcpu_max l Hok (nodeID e)).
  unfold ResidentRAMForNode, UsedVCPUForNode, ram_on, vcpu_on, ram_max in *.
  rewrite Hl'; clear Hl'. unfold release_node.
  destruct (resident l !! nodeID e) as [node|] eqn:Hn; [|lia].
  rewrite !i64_id by (unfold in_i64; lia).
  assert ((residentRAM node - admissionMB e <? 0) = false) as -> by (apply Z.ltb_ge; lia).
  assert ((usedVCPU node - vcpu e <? 0) = false) as -> by (apply Z.ltb_ge; lia).
  destruct (String.eqb_spec (nodeID e) n) as [<-|Hne];
    destruct (_ && _) eqn:Hz; breflect; simplify_map_eq; lia.
Qed.

(** Dropping the concurrency of a counted entry. *)
Lemma drop_conc_reads l l' i e a k :
  ledger_ok l → entries l !! i = Some e → countsConc e = true →
  perApp l' = perApp l → perAppDeployment l' = perAppDeployment l →
  zget (perApp (drop_conc e l')) a = zget (perApp l) a - (if counts_app a e then 1 else 0) ∧
  zget (perAppDeployment (drop_conc e l')) k =
    zget (perAppDeployment l) k - (if counts_key k e then 1 else 0).
Proof.
  intros Hok He Hc H1 H2. unfold drop_conc, counts_app, counts_key; simpl. rewrite Hc, H1, H2.
  destruct (ok_entry l Hok i e He) as [Hn _ _].
  assert (1 ≤ zget (perApp l) (appID e)).
  { rewrite (ok_app l Hok). apply (map_count_elem _ _ i e); [done|].
    unfold counts_app. by rewrite Hc, String.eqb_refl. }
  pose proof (ok_app_max l Hok (appID e)).
  split; [by rewrite zget_decr by lia|].
  destruct (String.eqb (deploymentID e) EmptyString) eqn:Hd; simpl; [lia|].
  pose proof (counts_key_le_app l (appID e) (deploymentID e) Hok Hn).
  rewrite zget_decr; [done|]. split; [|lia]. apply Z.lt_le_trans with 1; [lia|].
  rewrite (ok_key l Hok). apply (map_count_elem _ _ i e); [done|].
  unfold counts_key. by rewrite Hc, Hd, String.eqb_refl.
Qed.

Lemma Release_refines l i :
  ledger_ok l → ledger_ok (Release l i) ∧ entries (Release l i) = delete i (entries l).
Proof.
  intros Hok. unfold Release. destruct (entries l !! i) as [e|] eqn:He;
    [|by rewrite delete_id]. 
  set (l1 := mkLedger (release_node e (resident l)) _ _ _).
  assert (∀ f, map_sum f (delete i (entries l)) = map_sum f (entries l) - f e) as Hd.
  { intros f. rewrite (map_sum_delete f (entries l) i e He). lia. }
  set (l2 := if countsConc e then drop_conc e l1 else l1).
  assert (resident l2 = release_node e (resident l) ∧ entries l2 = delete i (entries l)) as [HR HE]
    by (unfold l2; by destruct (countsConc e)).
  assert (∀ a, zget (perApp l2) a = zget (perApp l) a - (if counts_app a e then 1 else 0)) as HA.
  { intros a. unfold l2. destruct (countsConc e) eqn:Hc.
    - by apply (drop_conc_reads l l1 i e a EmptyString).
    - unfold counts_app. rewrite Hc. simpl. lia. }
  assert (∀ k, zget (perAppDeployment l2) k =
               zget (perAppDeployment l) k - (if counts_key k e then 1 else 0)) as HK.
  { intros k. unfold l2. destruct (countsConc e) eqn:Hc.
    - by apply (drop_conc_reads l l1 i e EmptyString k).
    - unfold counts_key. rewrite Hc. simpl. lia. }
  split; [|done]. pose proof (release_node_reads l l2 i e) as HN.
  destruct (ok_entry l Hok i e He) as [_ Hp Hq].
  constructor; intros n; try destruct (HN n Hok He HR) as [HN1 HN2].
  - rewrite HN1, HE, Hd. by rewrite (ok_ram l Hok).
  - rewrite HN2, HE, Hd. by rewrite (ok_vcpu l Hok).
  - rewrite HA, HE. unfold map_count. rewrite Hd. by rewrite (ok_app l Hok).
  - rewrite HK, HE. unfold map_count. rewrite Hd. by rewrite (ok_key l Hok).
  - intros e'. rewrite HE. intros [_ ?]%lookup_delete_Some. by eapply ok_entry.
  - rewrite HN1. pose proof (ok_ram_max l Hok n). unfold ram_on, PerVMOverheadMB in *. split_ifs; lia.
  - rewrite HN2. pose proof (ok_vcpu_max l Hok n). unfold vcpu_on. split_ifs; lia.
  - rewrite HA. pose proof (ok_app_max l Hok n). split_ifs; lia.
Qed.

Lemma BeginSnapshot_refines l i :
  ledger_ok l →
  ledger_ok (BeginSnapshot l i) ∧ entries (BeginSnapshot l i) = alter stop_counting i (entries l).
Proof.
  intros Hok. unfold BeginSnapshot. destruct (entries l !! i) as [e|] eqn:He.
  2: { by rewrite alter_id by (intros ?; by rewrite He). }
  destruct (countsConc e) eqn:Hc.
  2: { split; [done|]. rewrite alter_id; [done|]. intros x Hx. simplify_eq.
       destruct e; simplify_eq/=. done. }
  set (l1 := mkLedger _ _ _ _).
  assert (entries (drop_conc e l1) = <[i:=stop_counting e]> (entries l)) as HE by done.
  split.
  2: { apply map_eq. intros j. rewrite HE. destruct (decide (i = j)) as [<-|];
         [by rewrite lookup_alter_eq, lookup_insert_eq, He|by rewrite lookup_alter_ne, lookup_insert_ne]. }
  assert (∀ f, map_sum f (<[i:=stop_counting e]> (entries l)) =
               map_sum f (entries l) - f e + f (stop_counting e)) as Hu.
  { intros f. by apply map_sum_update. }
  constructor; intros n.
  - rewrite HE, Hu. unfold ram_on at 2 3. simpl. rewrite <- (ok_ram l Hok).
    change (ResidentRAMForNode (drop_conc e l1) n) with (ResidentRAMForNode l n). ring.
  - rewrite HE, Hu. unfold vcpu_on at 2 3. simpl. rewrite <- (ok_vcpu l Hok).
    change (UsedVCPUForNode (drop_conc e l1) n) with (UsedVCPUForNode l n). ring.
  - destruct (drop_conc_reads l l1 i e n EmptyString) as [-> _]; try done. rewrite HE.
    unfold map_count. rewrite Hu, (ok_app l Hok). cbv beta.
    assert (counts_app n (stop_counting e) = false) as -> by done. unfold map_count. lia.
  - destruct (drop_conc_reads l l1 i e EmptyString n) as [_ ->]; try done. rewrite HE.
    unfold map_count. rewrite Hu, (ok_key l Hok). cbv beta.
    assert (counts_key n (stop_counting e) = false) as -> by done. unfold map_count. lia.
  - intros e'. rewrite HE. intros [[_ <-]|[_ He']]%lookup_insert_Some; [|by eapply ok_entry].
    destruct (ok_entry l Hok i e He). by constructor.
  - apply (ok_ram_max l Hok).
  - apply (ok_vcpu_max l Hok).
  - destruct (drop_conc_reads l l1 i e n EmptyString) as [-> _]; try done.
    pose proof (ok_app_max l Hok n). split_ifs; lia.
Qed.

Lemma NewNodeLedger_ok : ledger_ok NewNodeLedger.
Proof. constructor; intros; try done; simpl in *; simplify_map_eq. Qed.

(** ** The interface the engine relies on *)

Class AdmissionLedger (L : Type) := {
  view : L → gmap string reservation;
  inv : L → Prop;
  empty_ledger : L;
  try_admit : L → Request → L * option admit_error;
  begin_snapshot : L → string → L;
  release : L → string → L;
  law_empty : inv empty_ledger ∧ view empty_ledger = ∅;
  law_admit l r :
    inv l → wf_request r →
    inv (try_admit l r).1 ∧ (view (try_admit l r).1, (try_admit l r).2) = spec_admit (view l) r;
  law_begin_snapshot l i :
    inv l → inv (begin_snapshot l i) ∧ view (begin_snapshot l i) = alter stop_counting i (view l);
  law_release l i : inv l → inv (release l i) ∧ view (release l i) = delete i (view l);
}.

#[global] Instance NodeLedger_impl : AdmissionLedger NodeLedger := {
  view := entries;
  inv := ledger_ok;
  empty_ledger := NewNodeLedger;
  try_admit := Admit;
  begin_snapshot := BeginSnapshot;
  release := Release;
  law_empty := conj NewNodeLedger_ok eq_refl;
  law_admit := Admit_refines;
  law_begin_snapshot := BeginSnapshot_refines;
  law_release := Release_refines;
}.

(** ** Histories *)

Inductive op := OpAdmit (r : Request) | OpBeginSnapshot (i : string) | OpRelease (i : string).

Definition run_op (l : NodeLedger) (o : op) : NodeLedger :=
  match o with
  | OpAdmit r => (Admit l r).1
  | OpBeginSnapshot i => BeginSnapshot l i
  | OpRelease i => Release l i
  end.

Definition run_ops (l : NodeLedger) (os : list op) : NodeLedger := foldl run_op l os.

Section history.
(** Per-node ceilings and per-app caps that the requests of a history carry. *)
Context (ceil vceil : string → Z) (cap : string → Z).
Hypothesis ceil_nonneg : ∀ n, 0 ≤ ceil n.
Hypothesis vceil_nonneg : ∀ n, 0 ≤ vceil n.
Hypothesis cap_nonneg : ∀ a, 0 ≤ cap a.

Definition wf_op (o : op) : Prop :=
  match o with
  | OpAdmit r =>
      wf_request r ∧ admit_ceiling r ≤ ceil (NodeID r) ∧ admit_vcpuCeiling r ≤ vceil (NodeID r) ∧
      (∀ limit, is_wake r = true → admit_limits r = Some limit →
                admit_maxConc r limit ≤ cap (AppID r))
  | _ => True
  end.

(** The safety part, stated on the abstract map. *)
Definition within (m : gmap string reservation) : Prop :=
  (∀ n, map_sum (ram_on n) m ≤ ceil n) ∧ (∀ n, map_sum (vcpu_on n) m ≤ vceil n) ∧
  (∀ a, map_count (counts_app a) m ≤ cap a).

Lemma within_admit m r :
  within m → wf_op (OpAdmit r) → within (spec_admit m r).1.
Proof.
  intros (Hr & Hv & Hc) (Hwf & Hcl & Hvl & Hcap). unfold spec_admit.
  destruct (admit_limits r) as [limit|] eqn:Hlim; [|done].
  case_bool_decide as Hdup; [done|]. apply eq_None_not_Some in Hdup.
  destruct (is_wake r && _) eqn:Hconc; [done|].
  destruct (admit_ceiling r <? _) eqn:E1; [done|].
  destruct (admit_vcpuCeiling r <? _) eqn:E2; [done|]. apply Z.ltb_ge in E1, E2.
  split_and!; intros x; simpl; unfold map_count; rewrite map_sum_insert by done.
  - unfold ram_on at 1; simpl. specialize (Hr x). destruct (String.eqb_spec (NodeID r) x); subst; lia.
  - unfold vcpu_on at 1; simpl. specialize (Hv x). destruct (String.eqb_spec (NodeID r) x); subst; lia.
  - specialize (Hc x). unfold map_count in *. unfold counts_app at 1; simpl.
    destruct (is_wake r) eqn:Hw; simpl in *; [|lia]. specialize (Hcap limit eq_refl eq_refl).
    destruct (String.eqb_spec (AppID r) x); subst; breflect; lia.
Qed.

Lemma within_release l i : ledger_ok l → within (entries l) → within (delete i (entries l)).
Proof.
  intros Hok (Hr & Hv & Hc). destruct (entries l !! i) as [e|] eqn:He; [|by rewrite delete_id].
  destruct (ok_entry l Hok i e He) as [_ H1 H2]. unfold PerVMOverheadMB in *.
  split_and!; intros x.
  - specialize (Hr x). rewrite (map_sum_delete _ _ i e He) in Hr. unfold ram_on at 1 in Hr.
    split_ifs; lia.
  - specialize (Hv x). rewrite (map_sum_delete _ _ i e He) in Hv. unfold vcpu_on at 1 in Hv.
    split_ifs; lia.
  - specialize (Hc x). unfold map_count in *. rewrite (map_sum_delete _ _ i e He) in Hc.
    destruct (counts_app x e); lia.
Qed.
Lemma within_snapshot m i : within m → within (alter stop_counting i m).
Proof.
  intros (Hr & Hv & Hc). destruct (m !! i) as [e|] eqn:He;
    [|by rewrite alter_id by (intros ?; by rewrite He)].
  assert (alter stop_counting i m = <[i:=stop_counting e]> m) as ->.
  { apply map_eq. intros j. destruct (decide (i = j)) as [<-|]; by simplify_map_eq. }
  split_and!; intros x; unfold map_count; rewrite (map_sum_update _ m i e) by done.
  - specialize (Hr x). unfold ram_on at 2 3; simpl. lia.
  - specialize (Hv x). unfold vcpu_on at 2 3; simpl. lia.
  - specialize (Hc x). unfold map_count in *.
    assert (counts_app x (stop_counting e) = false) as -> by done. destruct (counts_app x e); lia.
Qed.

Lemma within_run l os :
  ledger_ok l → within (entries l) → Forall wf_op os →
  ledger_ok (run_ops l os) ∧ within (entries (run_ops l os)).
Proof.
  revert l. induction os as [|o os IH]; intros l Hok Hw; [done|].
  intros [Ho Hos]%Forall_cons. apply IH; [| |done]; destruct o as [r|i|i]; simpl.
  - by apply Admit_refines, Ho.
  - by apply BeginSnapshot_refines.
  - by apply Release_refines.
  - destruct (Admit_refines l r Hok (proj1 Ho)) as [_ Hs].
    assert (entries (Admit l r).1 = (spec_admit (entries l) r).1) as -> by (by rewrite <- Hs).
    by apply within_admit.
  - destruct (BeginSnapshot_refines l i Hok) as [_ ->]. by apply within_snapshot.
  - destruct (Release_refines l i Hok) as [_ ->]. by apply within_release.
Qed.

(** C1: the two admission invariants of the scheduler, for every history of ledger operations: per
    node the resident RAM and vCPU never exceed the ceilings the requests carry, per app the
    concurrency never exceeds the effective cap, and every counter stays the sum over the live
    reservations it stands for. *)
Theorem ledger_safety os :
  Forall wf_op os →
  let l := run_ops NewNodeLedger os in
  ledger_ok l ∧
  (∀ n, ResidentRAMForNode l n ≤ ceil n ∧ UsedVCPUForNode l n ≤ vceil n) ∧
  (∀ a, Concurrency l a ≤ cap a).
Proof.
  intros Hos l. destruct (within_run NewNodeLedger os NewNodeLedger_ok) as [Hok (Hr & Hv & Hc)].
  - split_and!; intros x; unfold map_count; simpl; rewrite map_sum_empty; auto.
  - done.
  - split; [done|]. split.
    + intros n. rewrite (ok_ram l Hok), (ok_vcpu l Hok). auto.
    + intros a. unfold Concurrency. rewrite (ok_app l Hok). auto.
Qed.
End history.

(** Two nodes, one app: the second wake of a free-plan app is refused. *)
Definition sample_request (i node : string) : Request :=
  mkReq i "app" "dep" PlanFree 128 [] 1 1 KindWake node EmptyString EmptyString 4096 8.

Lemma sample_request_wf i node : wf_request (sample_request i node).
Proof. by constructor; vm_compute. Qed.

Lemma ledger_safety_witness :
  let l := run_ops NewNodeLedger
             [OpAdmit (sample_request "i1" "n1"); OpAdmit (sample_request "i2" "n2");
              OpBeginSnapshot "i1"; OpAdmit (sample_request "i3" "n1"); OpRelease "i1"] in
  ResidentRAMForNode l "n1" = 136 ∧ ResidentRAMForNode l "n1" ≤ 4096 ∧
  Concurrency l "app" = 1 ∧ Concurrency l "app" ≤ 1.
Proof.
  intros l. split; [by vm_compute|].
  destruct (ledger_safety (λ _, 4096) (λ _, 8) (λ _, 1)) with
    (os := [OpAdmit (sample_request "i1" "n1"); OpAdmit (sample_request "i2" "n2");
            OpBeginSnapshot "i1"; OpAdmit (sample_request "i3" "n1"); OpRelease "i1"])
    as (_ & Hn & Ha); try (intros; lia).
  - repeat constructor; try apply sample_request_wf; try (by vm_compute);
      intros limit _ [= <-]; by vm_compute.
  - split; [apply (Hn "n1")|]. split; [by vm_compute|apply Ha].
Defined.

(** ** Functional behaviour *)

Definition spec_op (m : gmap string reservation) (o : op) : gmap string reservation :=
  match o with
  | OpAdmit r => (spec_admit m r).1
  | OpBeginSnapshot i => alter stop_counting i m
  | OpRelease i => delete i m
  end.

(** The per-deployment counter counts exactly the (app, deployment) pair: its key is injective. *)
Lemma ConcurrencyForDeployment_exact l a d :
  ledger_ok l → a ≠ EmptyString → d ≠ EmptyString → no_nul a = true →
  ConcurrencyForDeployment l a d = map_count (counts_dep a d) (entries l).
Proof.
  intros Hok Ha Hd Hn. unfold ConcurrencyForDeployment.
  apply String.eqb_neq in Ha as ->. pose proof Hd as ->%String.eqb_neq. simpl.
  rewrite (ok_key l Hok). unfold map_count. apply Z.le_antisymm; apply map_sum_le;
    intros i e He; destruct (ok_entry l Hok i e He) as [Hne _ _];
    unfold counts_key, counts_dep; destruct (countsConc e); simpl; try lia.
  - destruct (String.eqb_spec (dkey (appID e) (deploymentID e)) (dkey a d)) as [E|];
      [|by rewrite andb_false_r; split_ifs].
    apply dkey_inj in E as [-> ->]; [|done..]. rewrite !String.eqb_refl. by split_ifs.
  - destruct (String.eqb_spec (appID e) a) as [->|]; simpl; [|by split_ifs].
    destruct (String.eqb_spec (deploymentID e) d) as [->|]; [|by split_ifs].
    apply String.eqb_neq in Hd as ->. by rewrite String.eqb_refl.
Qed.

(** Every operation, and every history, acts on the reservations as the specification says. *)
Lemma run_op_refines l o :
  ledger_ok l → (∀ r, o = OpAdmit r → wf_request r) →
  ledger_ok (run_op l o) ∧ entries (run_op l o) = spec_op (entries l) o.
Proof.
  intros Hok Hwf. destruct o as [r|i|i]; simpl.
  - destruct (Admit_refines l r Hok (Hwf r eq_refl)) as [? <-]. done.
  - by apply BeginSnapshot_refines.
  - by apply Release_refines.
Qed.

Lemma run_ops_refines l os :
  ledger_ok l → (∀ r, OpAdmit r ∈ os → wf_request r) →
  ledger_ok (run_ops l os) ∧ entries (run_ops l os) = foldl spec_op (entries l) os.
Proof.
  revert l. induction os as [|o os IH]; intros l Hok Hwf; [done|]. simpl.
  destruct (run_op_refines l o Hok) as [Ho <-]; [intros r ->; apply Hwf; by left|].
  apply IH; [done|]. intros r ?. apply Hwf. by right.
Qed.

(** C4: the ledger refines the abstract ledger: over any history its reservations are those of the
    specification that recomputes every sum from the reservation map, the next [Admit] returns
    exactly the specification's verdict (including the numbers its error carries), and every
    per-node, per-app and per-deployment reader returns the specified sum. *)
Theorem ledger_refinement os r :
  (∀ r, OpAdmit r ∈ os → wf_request r) → wf_request r →
  let l := run_ops NewNodeLedger os in
  let m := foldl spec_op ∅ os in
  entries l = m ∧ (Admit l r).2 = (spec_admit m r).2 ∧
  (∀ n, ResidentRAMForNode l n = map_sum (ram_on n) m ∧
        UsedVCPUForNode l n = map_sum (vcpu_on n) m) ∧
  (∀ a, Concurrency l a = map_count (counts_app a) m) ∧
  (∀ a d, a ≠ EmptyString → d ≠ EmptyString → no_nul a = true →
          ConcurrencyForDeployment l a d = map_count (counts_dep a d) m).
Proof.
  intros Hwf Hr l m.
  destruct (run_ops_refines NewNodeLedger os NewNodeLedger_ok Hwf) as [Hok HE]. fold l in Hok, HE.
  change (entries l = m) in HE. rewrite <- HE. clear HE.
  split_and!; [done| | | |].
  - destruct (Admit_refines l r Hok Hr) as [_ <-]. done.
  - intros n. by rewrite (ok_ram l Hok), (ok_vcpu l Hok).
  - apply (ok_app l Hok).
  - intros a d. by apply ConcurrencyForDeployment_exact.
Qed.

Lemma ledger_refinement_witness :
  let os := [OpAdmit (sample_request "i1" "n1"); OpBeginSnapshot "i1"] in
  (Admit (run_ops NewNodeLedger os) (sample_request "i2" "n1")).2
    = (spec_admit (foldl spec_op ∅ os) (sample_request "i2" "n1")).2.
Proof.
  apply (ledger_refinement [OpAdmit (sample_request "i1" "n1"); OpBeginSnapshot "i1"]
           (sample_request "i2" "n1")).
  - intros r. rewrite !elem_of_cons, elem_of_nil. intros [[= ->]|[?|?]]; done.
  - apply sample_request_wf.
Defined.

(** The two outcomes of the specification. *)
Lemma spec_admit_cases m r :
  (∃ e, spec_admit m r = (m, Some e)) ∨
  (m !! Instance_ r = None ∧ spec_admit m r = (<[Instance_ r := new_reservation r]> m, None) ∧
   map_sum (ram_on (NodeID r)) m + req_admissionMB r ≤ admit_ceiling r ∧
   map_sum (vcpu_on (NodeID r)) m + VCPU r ≤ admit_vcpuCeiling r).
Proof.
  unfold spec_admit. destruct (admit_limits r) as [limit|]; [|eauto].
  case_bool_decide as Hd; [eauto|]. destruct (is_wake r && _); [eauto|].
  destruct (admit_ceiling r <? _) eqn:E1; [eauto|].
  destruct (admit_vcpuCeiling r <? _) eqn:E2; [eauto|].
  right. breflect. by rewrite eq_None_not_Some.
Qed.

(** Two ledgers that agree on the reservations agree on every keyed reader. *)
Lemma readers_determined l l' :
  ledger_ok l → ledger_ok l' → entries l = entries l' →
  (∀ n, ResidentRAMForNode l n = ResidentRAMForNode l' n ∧
        UsedVCPUForNode l n = UsedVCPUForNode l' n) ∧
  (∀ a, Concurrency l a = Concurrency l' a) ∧
  (∀ a d, ConcurrencyForDeployment l a d = ConcurrencyForDeployment l' a d).
Proof.
  intros Hok Hok' HE. split_and!.
  - intros n. by rewrite (ok_ram l Hok), (ok_ram l' Hok'), (ok_vcpu l Hok), (ok_vcpu l' Hok'), HE.
  - intros a. unfold Concurrency. by rewrite (ok_app l Hok), (ok_app l' Hok'), HE.
  - intros a d. unfold ConcurrencyForDeployment.
    by rewrite (ok_key l Hok), (ok_key l' Hok'), HE.
Qed.

(** [Release] undoes [Admit], and a failed [Admit] reserves nothing: in both cases the
    reservations and every per-node, per-app and per-deployment reader are those of the ledger
    before the call. *)
Theorem admit_release_roundtrip l r :
  ledger_ok l → wf_request r →
  let l' := match (Admit l r).2 with
            | None => Release (Admit l r).1 (Instance_ r)
            | Some _ => (Admit l r).1
            end in
  entries l' = entries l ∧
  (∀ n, ResidentRAMForNode l' n = ResidentRAMForNode l n ∧
        UsedVCPUForNode l' n = UsedVCPUForNode l n) ∧
  (∀ a, Concurrency l' a = Concurrency l a) ∧
  (∀ a d, ConcurrencyForDeployment l' a d = ConcurrencyForDeployment l a d).
Proof.
  intros Hok Hwf l'. destruct (Admit_refines l r Hok Hwf) as [Hok1 Hs].
  assert (ledger_ok l' ∧ entries l' = entries l) as [Hok' HE].
  { unfold l'. destruct (Admit l r) as [l1 err]; simpl in *.
    destruct (spec_admit_cases (entries l) r) as [[e He]|(Hnew & He & _)];
      rewrite He in Hs; simplify_eq/=; [done|].
    destruct (Release_refines l1 (Instance_ r) Hok1) as [Hok2 ->]. split; [done|].
    rewrite H. by apply delete_insert_id. }
  split; [done|]. by apply readers_determined.
Qed.

Lemma admit_release_roundtrip_witness :
  let l := run_ops NewNodeLedger [OpAdmit (sample_request "i1" "n1"); OpBeginSnapshot "i1"] in
  entries (Release (Admit l (sample_request "i2" "n1")).1 "i2") = entries l.
Proof.
  apply (admit_release_roundtrip
           (run_ops NewNodeLedger [OpAdmit (sample_request "i1" "n1"); OpBeginSnapshot "i1"])
           (sample_request "i2" "n1")).
  - apply BeginSnapshot_refines, Admit_refines; [apply NewNodeLedger_ok|apply sample_request_wf].
  - apply sample_request_wf.
Defined.

(** Double counting: summing the per-node counters over the node map visits every reservation
    once. *)
Lemma per_node_total (f : reservation → Z) (R : gmap string Z) (E : gmap string reservation) :
  (∀ i e, E !! i = Some e → 0 ≤ f e) →
  (∀ n, zget R n = map_sum (λ e, if String.eqb (nodeID e) n then f e else 0) E) →
  map_sum id R = map_sum f E.
Proof.
  revert R. induction E as [|i e E Hi IH] using map_ind; intros R Hpos HR.
  - rewrite map_sum_empty. assert (map_sum id R ≤ map_sum (λ _, 0) R ∧ 0 ≤ map_sum id R);
      [|rewrite map_sum_zero in *; lia].
    split; [apply map_sum_le|apply map_sum_nonneg]; intros n v Hv; specialize (HR n);
      unfold zget in HR; rewrite Hv, map_sum_empty in HR; simpl in *; unfold id; lia.
  - rewrite map_sum_insert by done.
    assert (∀ i' e', E !! i' = Some e' → 0 ≤ f e') as HposE.
    { intros i' e' He'. apply (Hpos i'). by rewrite lookup_insert_ne by congruence. }
    assert (0 ≤ f e) by (apply (Hpos i); by rewrite lookup_insert_eq).
    pose proof (HR (nodeID e)) as Hn. rewrite map_sum_insert, String.eqb_refl in Hn by done.
    rewrite <- (IH (<[nodeID e := zget R (nodeID e) - f e]> R)); [|done|].
    + destruct (R !! nodeID e) as [v|] eqn:Hv.
      * rewrite (map_sum_update id R _ v) by done. unfold zget. rewrite Hv; simpl. unfold id. lia.
      * rewrite map_sum_insert by done. unfold zget in *. rewrite Hv in *; simpl in *.
        assert (0 ≤ map_sum (λ e', if (nodeID e' =? nodeID e)%string then f e' else 0) E);
          [|unfold id; lia].
        apply map_sum_nonneg. intros i' e' He'. specialize (HposE i' e' He'). split_ifs; lia.
    + intros n. destruct (decide (nodeID e = n)) as [<-|Hne]; autorewrite with faas_map; [lia|].
      rewrite HR, map_sum_insert by done. apply String.eqb_neq in Hne as ->. lia.
Qed.

(** The fleet-wide readers, exact while the true totals fit an int64. *)
Lemma fleet_totals l :
  ledger_ok l →
  map_sum residentRAM (resident l) = map_sum admissionMB (entries l) ∧
  map_sum usedVCPU (resident l) = map_sum vcpu (entries l).
Proof.
  intros Hok.
  assert (∀ g, map_sum g (resident l) = map_sum id (g <$> resident l)) as Hmap.
  { intros g. induction (resident l) as [|k v m Hk IH] using map_ind; [done|].
    rewrite fmap_insert, !map_sum_insert, IH by (rewrite ?lookup_fmap, ?Hk; done). done. }
  rewrite !Hmap. split; apply per_node_total.
  1, 3: intros i e He; destruct (ok_entry l Hok i e He); unfold PerVMOverheadMB in *; lia.
  - intros n. change (map_sum _ _) with (map_sum (ram_on n) (entries l)).
    rewrite <- (ok_ram l Hok). unfold zget, ResidentRAMForNode. rewrite lookup_fmap.
    by destruct (resident l !! n).
  - intros n. change (map_sum _ _) with (map_sum (vcpu_on n) (entries l)).
    rewrite <- (ok_vcpu l Hok). unfold zget, UsedVCPUForNode. rewrite lookup_fmap.
    by destruct (resident l !! n).
Qed.

(** the fleet-wide readers are exact: while the true totals fit an int64, ResidentRAM and
    UsedVCPU return the totals over all live reservations, whatever order the node map is iterated
    in; and admitting a request raises them by exactly its size. *)
Theorem fleet_readers_exact l r :
  ledger_ok l → wf_request r → (Admit l r).2 = None →
  map_sum admissionMB (entries l) + req_admissionMB r < 2 ^ 63 →
  map_sum vcpu (entries l) + VCPU r < 2 ^ 63 →
  ResidentRAM l = map_sum admissionMB (entries l) ∧ UsedVCPU l = map_sum vcpu (entries l) ∧
  ResidentRAM (Admit l r).1 = ResidentRAM l + req_admissionMB r ∧
  UsedVCPU (Admit l r).1 = UsedVCPU l + VCPU r.
Proof.
  intros Hok Hwf HA Hr Hv. unfold ResidentRAM, UsedVCPU. rewrite !map_fold_i64.
  destruct (fleet_totals l Hok) as [-> ->].
  destruct (Admit_refines l r Hok Hwf) as [Hok' Hs]. destruct (fleet_totals _ Hok') as [-> ->].
  destruct (spec_admit_cases (entries l) r) as [[e He]|(Hnew & He & _)];
    rewrite He, HA in Hs; [done|]. simplify_eq/=. rewrite H.
  rewrite !map_sum_insert by done; simpl. pose proof (wf_admissionMB r Hwf).
  pose proof (wf_vcpu r Hwf). unfold PerVMOverheadMB in *.
  assert (0 ≤ map_sum admissionMB (entries l) ∧ 0 ≤ map_sum vcpu (entries l)) as [? ?].
  { split; apply map_sum_nonneg; intros i e' He'; destruct (ok_entry l Hok i e' He');
      unfold PerVMOverheadMB in *; lia. }
  rewrite !i64_id by (unfold in_i64; lia). split_and!; lia.
Qed.

Lemma fleet_readers_exact_witness :
  let r := sample_request "i1" "n1" in
  ResidentRAM (Admit NewNodeLedger r).1 = ResidentRAM NewNodeLedger + 136.
Proof.
  apply (fleet_readers_exact NewNodeLedger (sample_request "i1" "n1"));
    [apply NewNodeLedger_ok|apply sample_request_wf|by vm_compute..].
Defined.

(** a refused [Admit] is not invisible: it leaves an empty accounting row for the node it tried,
    so the fleet-wide headroom the reaper reads grows by a whole node ceiling and the node count by
    one, although nothing was reserved. *)
Theorem refused_admit_raises_headroom :
  let l := (Admit NewNodeLedger (sample_request "i1" "n1")).1 in
  let big := mkReq "i2" "other" "dep" PlanScale 8000 [] 1 1 KindWake "n2" EmptyString EmptyString
                   4096 8 in
  wf_request big ∧
  (Admit l big).2 = Some (ErrCapacityRAM "n2" 0 8008 4096) ∧
  entries (Admit l big).1 = entries l ∧
  HeadroomMB (Admit l big).1 = HeadroomMB l + RAMAdmissionCeilingMB ∧
  NodeCount (Admit l big).1 = NodeCount l + 1.
Proof. split_and!; [by constructor; vm_compute|by vm_compute..]. Qed.

End Ledger.
