(* ===== verification/Capacity.v ===== *)
(** * pkg/sched: signed capacity reports

    Models src/pkg/sched/capacity.go and capacity_sign.go (the canonical payload,
    signing, verification, the per-node report table) and the receive loop of
    ReportCapacity in src/pkg/scheddgrpc/server.go.  SHA-256 and ECDSA are
    parameters of the section; what is used of them is stated as hypotheses. *)

From S2P Require Import Prelude.

(** ** Big-endian bytes *)

Module Bytes.

(** [n] bytes, most significant first (binary.BigEndian.PutUint32/64). *)
Fixpoint be (n : nat) (z : Z) : list Z :=
  match n with
  | O => []
  | S n => be n (z / 256) ++ [z mod 256]
  end.

(** big.Int.SetBytes. *)
Definition SetBytes (bs : list Z) : Z := foldl (λ acc b, acc * 256 + b) 0 bs.

(** big.Int.Bytes: the minimal big-endian form, empty for zero. *)
Definition nbytes (z : Z) : nat := if z =? 0 then 0 else Z.to_nat (Z.log2 z / 8 + 1).
Definition big_Bytes (z : Z) : list Z := be (nbytes z) z.

Definition of_string (s : string) : list Z :=
  (λ c, Z.of_N (Ascii.N_of_ascii c)) <$> String.list_ascii_of_string s.

(** copy(out[w-len(b):w], b) into zeroed bytes. *)
Definition pad (w : nat) (bs : list Z) : list Z := replicate (w - length bs) 0 ++ bs.

Lemma length_be n z : length (be n z) = n.
Proof. revert z. induction n as [|n IH]; intros z; [done|]. simpl. rewrite length_app, IH. simpl. lia. Qed.

Lemma SetBytes_app a b : SetBytes (a ++ b) = foldl (λ acc b, acc * 256 + b) (SetBytes a) b.
Proof. apply foldl_app. Qed.

Lemma SetBytes_be n z : 0 ≤ z < 256 ^ Z.of_nat n → SetBytes (be n z) = z.
Proof.
  revert z. induction n as [|n IH]; intros z Hz; [simpl in *; unfold SetBytes; simpl; lia|].
  simpl. rewrite SetBytes_app. simpl. rewrite Nat2Z.inj_succ, Z.pow_succ_r in Hz by lia.
  rewrite IH; [pose proof (Z.div_mod z 256); lia|].
  split; [apply Z.div_pos; lia|]. apply Z.div_lt_upper_bound; lia.
Qed.

Lemma SetBytes_zeros k bs : SetBytes (replicate k 0 ++ bs) = SetBytes bs.
Proof.
  rewrite SetBytes_app. assert (SetBytes (replicate k 0) = 0) as ->; [|done].
  induction k as [|k IH]; [done|]. unfold SetBytes in *. simpl. done.
Qed.

Lemma be_inj n z w :
  0 ≤ z < 256 ^ Z.of_nat n → 0 ≤ w < 256 ^ Z.of_nat n → be n z = be n w → z = w.
Proof. intros Hz Hw E. rewrite <- (SetBytes_be n z Hz), <- (SetBytes_be n w Hw). by rewrite E. Qed.

Lemma nbytes_bound z : 0 ≤ z → z < 256 ^ Z.of_nat (nbytes z).
Proof.
  intros Hz. unfold nbytes. destruct (z =? 0) eqn:E; breflect; [by subst|].
  pose proof (Z.log2_nonneg z). pose proof (Z.log2_spec z ltac:(lia)) as [_ Hl].
  rewrite Z2Nat.id by (pose proof (Z.div_pos (Z.log2 z) 8); lia).
  change 256 with (2 ^ 8). rewrite <- Z.pow_mul_r by (pose proof (Z.div_pos (Z.log2 z) 8); lia).
  eapply Z.lt_le_trans; [exact Hl|]. apply Z.pow_le_mono_r; [lia|].
  pose proof (Z.mul_div_le (Z.log2 z) 8). pose proof (Z.mul_succ_div_gt (Z.log2 z) 8). lia.
Qed.

Lemma nbytes_le z (w : nat) : 0 ≤ z < 256 ^ Z.of_nat w → (nbytes z ≤ w)%nat.
Proof.
  intros Hz. unfold nbytes. destruct (z =? 0) eqn:E; breflect; [lia|].
  assert (Z.log2 z < 8 * Z.of_nat w) as Hl.
  { apply Z.log2_lt_pow2; [lia|]. rewrite Z.pow_mul_r by lia. apply Hz. }
  pose proof (Z.div_lt_upper_bound (Z.log2 z) 8 (Z.of_nat w)). lia.
Qed.

(** Left-padding the minimal form and reading it back is the identity. *)
Lemma SetBytes_pad w z : 0 ≤ z → SetBytes (pad w (big_Bytes z)) = z.
Proof.
  intros Hz. unfold pad, big_Bytes. rewrite SetBytes_zeros. apply SetBytes_be.
  pose proof (nbytes_bound z Hz). lia.
Qed.

Lemma length_pad w z : 0 ≤ z < 256 ^ Z.of_nat w → length (pad w (big_Bytes z)) = w.
Proof.
  intros Hz. unfold pad, big_Bytes. rewrite length_app, length_replicate, length_be.
  pose proof (nbytes_le z w Hz). lia.
Qed.

Lemma of_string_inj s t : of_string s = of_string t → s = t.
Proof.
  unfold of_string. revert t. induction s as [|c s IH]; intros [|d t]; simpl; try done.
  intros [= Hc Hs]. f_equal; [|by apply IH].
  rewrite <- (Ascii.ascii_N_embedding c), <- (Ascii.ascii_N_embedding d). f_equal. lia.
Qed.
End Bytes.

(** ** Reports and their canonical payload *)

Module Capacity.

Record CapacityReport := mkReport {
  NodeID : string;
  SampledAt : Time;
  LiveCount : Z;      (* int32 *)
  LeasedCount : Z;
  UsedMB : Z;
  RAMHeadroomMB : Z;
  VCPUBusy : Z;
  NodeSignature : list Z;
  NodeKeyID : string;
}.

(** The Go type ranges of the fields. *)
Record report_typed (r : CapacityReport) : Prop := {
  typed_live : in_i32 (LiveCount r);
  typed_leased : in_i32 (LeasedCount r);
  typed_used : in_i32 (UsedMB r);
  typed_head : in_i32 (RAMHeadroomMB r);
  typed_vcpu : in_i32 (VCPUBusy r);
  typed_at : in_i64 (SampledAt r / Millisecond);
}.

Definition capacityPayloadDomain : string := "faas.capacity.v1".

(** time.Time.UnixMilli rounds towards minus infinity. *)
Definition UnixMilli (t : Time) : Z := t / Millisecond.

Definition CanonicalPayload (r : CapacityReport) : list Z :=
  Bytes.of_string capacityPayloadDomain ++ Bytes.of_string (NodeID r)
  ++ Bytes.be 8 (u64 (UnixMilli (SampledAt r)))
  ++ Bytes.be 4 (u32 (LiveCount r)) ++ Bytes.be 4 (u32 (LeasedCount r))
  ++ Bytes.be 4 (u32 (UsedMB r)) ++ Bytes.be 4 (u32 (RAMHeadroomMB r))
  ++ Bytes.be 4 (u32 (VCPUBusy r)).

(** [Some field] is the error naming the first negative field. *)
Definition validateReportNonNegative (r : CapacityReport) : option string :=
  if UnixMilli (SampledAt r) <? 0 then Some "SampledAt"%string
  else fst <$> List.find (λ c, c.2 <? 0)
    [("LiveCount"%string, LiveCount r); ("LeasedCount"%string, LeasedCount r);
     ("UsedMB"%string, UsedMB r); ("RAMHeadroomMB"%string, RAMHeadroomMB r);
     ("VCPUBusy"%string, VCPUBusy r)].

Definition CapacityFreshness : Duration := 5 * Second.

Record capacityEntry := mkEntry { report : CapacityReport; lastSeen : Time }.

(** [None] is the nil table. *)
Definition nodeCapacityTable := option (gmap string capacityEntry).

Definition newNodeCapacityTable : nodeCapacityTable := Some ∅.

(** [now] is the time.Now of the call. *)
Definition Replace (t : nodeCapacityTable) (now : Time) (r : CapacityReport) : nodeCapacityTable :=
  match t with
  | None => None
  | Some m =>
      if String.eqb (NodeID r) EmptyString then Some m
      else Some (<[NodeID r := mkEntry r now]> m)
  end.

Definition Lookup (t : nodeCapacityTable) (nodeID : string) (now : Time) : option CapacityReport :=
  match t with
  | None => None
  | Some m =>
      match m !! nodeID with
      | None => None
      | Some e => if CapacityFreshness <? time_sub now (lastSeen e) then None else Some (report e)
      end
  end.

(** ** Signatures *)

Inductive sig_error := ErrSignatureMismatch | ErrUnknownNodeKey | ErrEmptySignature.
Inductive sign_error :=
| SignNilKey | SignWrongCurve | SignInvalid (field : string) | SignFailed | SignOversized.

Section crypto.
(** The crypto packages: keys, the curve test, SHA-256, ECDSA over a digest. [Rand] is the
    randomness a signature consumes. *)
Context {PubKey PrivKey Rand : Type}.
Context (isP256 : PubKey → bool) (Public : PrivKey → PubKey).
Context (sha256 : list Z → list Z).
Context (ecdsa_sign : Rand → PrivKey → list Z → option (Z * Z)).
Context (ecdsa_verify : PubKey → list Z → Z → Z → bool).

Definition HashCanonicalPayload (r : CapacityReport) : list Z := sha256 (CanonicalPayload r).

Definition verifyDigestRaw (pub : PubKey) (digest sig : list Z) : bool :=
  if negb (Nat.eqb (length sig) 64) || negb (Nat.eqb (length digest) 32) then false
  else ecdsa_verify pub digest (Bytes.SetBytes (take 32 sig)) (Bytes.SetBytes (drop 32 sig)).

Definition ecdsaSignDeterministic (rnd : Rand) (priv : PrivKey) (digest : list Z)
  : option (Z * Z) :=
  if negb (Nat.eqb (length digest) 32) then None else ecdsa_sign rnd priv digest.

Definition SignNodeReport (rnd : Rand) (priv : option PrivKey) (r : CapacityReport)
  : sign_error + list Z :=
  match priv with
  | None => inl SignNilKey
  | Some priv =>
      if negb (isP256 (Public priv)) then inl SignWrongCurve
      else
      match validateReportNonNegative r with
      | Some field => inl (SignInvalid field)
      | None =>
          match ecdsaSignDeterministic rnd priv (HashCanonicalPayload r) with
          | None => inl SignFailed
          | Some (rInt, sInt) =>
              let rb := Bytes.big_Bytes rInt in
              let sb := Bytes.big_Bytes sInt in
              if (32 <? Z.of_nat (length rb)) || (32 <? Z.of_nat (length sb)) then inl SignOversized
              else inr (Bytes.pad 32 rb ++ Bytes.pad 32 sb)
          end
      end
  end.

(** [keys = None] is the nil registry. *)
Definition VerifyNodeSignature (r : CapacityReport) (sig : list Z)
    (keys : option (string → option PubKey)) : option sig_error :=
  if Nat.eqb (length sig) 0 then Some ErrEmptySignature
  else
  match keys with
  | None => Some ErrUnknownNodeKey
  | Some PublicKey =>
      match PublicKey (NodeKeyID r) with
      | None => Some ErrUnknownNodeKey
      | Some pub =>
          if negb (isP256 pub) then Some ErrSignatureMismatch
          else if negb (verifyDigestRaw pub (HashCanonicalPayload r) sig)
          then Some ErrSignatureMismatch
          else None
      end
  end.

(** ** The receive loop of ReportCapacity

    One element per [stream.Recv] with the time it is handled at: a message, end
    of file or an error. The result is how the stream closed; [None] means the
    loop is still waiting for the next message. *)

Inductive recv := RecvMsg (msg : CapacityReport) | RecvEOF | RecvErr.
Inductive stream_end := AckOK | InvalidArgument | Unauthenticated (e : sig_error) | StreamErr.

Fixpoint ReportCapacity (keys : option (string → option PubKey)) (t : nodeCapacityTable)
    (events : list (Time * recv)) : nodeCapacityTable * option stream_end :=
  match events with
  | [] => (t, None)
  | (_, RecvEOF) :: _ => (t, Some AckOK)
  | (_, RecvErr) :: _ => (t, Some StreamErr)
  | (now, RecvMsg msg) :: rest =>
      if String.eqb (NodeID msg) EmptyString then (t, Some InvalidArgument)
      else
      match (match keys with
             | Some _ => VerifyNodeSignature msg (NodeSignature msg) keys
             | None => None
             end) with
      | Some verr => (t, Some (Unauthenticated verr))
      | None => ReportCapacity keys (Replace t now msg) rest
      end
  end.

(** What the code relies on: a digest is 32 bytes, a fresh signature verifies, and its two
    integers are scalars of the 256-bit curve. *)
Hypothesis sha256_len : ∀ bs, length (sha256 bs) = 32%nat.
Hypothesis ecdsa_scalars : ∀ rnd priv d r s,
  ecdsa_sign rnd priv d = Some (r, s) → 0 ≤ r < 256 ^ 32 ∧ 0 ≤ s < 256 ^ 32.
Hypothesis ecdsa_correct : ∀ rnd priv d r s,
  ecdsa_sign rnd priv d = Some (r, s) → ecdsa_verify (Public priv) d r s = true.

(** a report signed by a node verifies at the scheduler when the node's key is registered under
    the report's key id: the minimal big-endian scalars survive the padding to 64 bytes and the
    split back, for every report the signer accepts; the signature is always 64 bytes. *)
Theorem sign_verify_roundtrip rnd priv r sig PublicKey :
  SignNodeReport rnd (Some priv) r = inr sig →
  PublicKey (NodeKeyID r) = Some (Public priv) →
  length sig = 64%nat ∧ VerifyNodeSignature r sig (Some PublicKey) = None.
Proof.
  unfold SignNodeReport. intros Hs Hk.
  destruct (isP256 (Public priv)) eqn:Hc; simpl in Hs; [|done].
  destruct (validateReportNonNegative r); [done|].
  unfold ecdsaSignDeterministic in Hs. unfold HashCanonicalPayload in Hs.
  rewrite sha256_len in Hs; simpl in Hs.
  destruct (ecdsa_sign rnd priv _) as [[x y]|] eqn:Hxy; [|done].
  destruct (_ || _); [done|]. injection Hs as <-.
  destruct (ecdsa_scalars _ _ _ _ _ Hxy) as [Hx Hy].
  assert (length (Bytes.pad 32 (Bytes.big_Bytes x)) = 32%nat) as Lx by (by apply Bytes.length_pad).
  assert (length (Bytes.pad 32 (Bytes.big_Bytes y)) = 32%nat) as Ly by (by apply Bytes.length_pad).
  rewrite length_app, Lx, Ly. split; [done|].
  unfold VerifyNodeSignature. rewrite length_app, Lx, Ly, Hk, Hc; simpl.
  unfold verifyDigestRaw, HashCanonicalPayload. rewrite length_app, Lx, Ly, sha256_len; simpl.
  rewrite take_app_length', drop_app_length' by done.
  by rewrite !Bytes.SetBytes_pad, (ecdsa_correct _ _ _ _ _ Hxy) by lia.
Qed.
End crypto.

(** ** Payload injectivity *)

Lemma u32_be_inj x y : in_i32 x → in_i32 y → 0 ≤ x → 0 ≤ y →
  Bytes.be 4 (u32 x) = Bytes.be 4 (u32 y) → x = y.
Proof.
  unfold in_i32. intros Hx Hy ? ?. rewrite !u32_id by lia. apply Bytes.be_inj; simpl; lia.
Qed.

Lemma validate_fields r :
  validateReportNonNegative r = None →
  0 ≤ UnixMilli (SampledAt r) ∧ 0 ≤ LiveCount r ∧ 0 ≤ LeasedCount r ∧ 0 ≤ UsedMB r ∧
  0 ≤ RAMHeadroomMB r ∧ 0 ≤ VCPUBusy r.
Proof.
  unfold validateReportNonNegative; simpl. intros H.
  repeat match type of H with context [if ?b then _ else _] => destruct b eqn:?; [done|] end.
  breflect. lia.
Qed.

(** two reports the signer accepts have the same canonical payload only if they agree on the
    node, the sampling millisecond and all five counters, so a signature over the payload binds every
    signed field even though the node id is not length-prefixed. *)
Theorem canonical_payload_injective r1 r2 :
  report_typed r1 → report_typed r2 →
  validateReportNonNegative r1 = None → validateReportNonNegative r2 = None →
  CanonicalPayload r1 = CanonicalPayload r2 →
  NodeID r1 = NodeID r2 ∧ UnixMilli (SampledAt r1) = UnixMilli (SampledAt r2) ∧
  LiveCount r1 = LiveCount r2 ∧ LeasedCount r1 = LeasedCount r2 ∧ UsedMB r1 = UsedMB r2 ∧
  RAMHeadroomMB r1 = RAMHeadroomMB r2 ∧ VCPUBusy r1 = VCPUBusy r2.
Proof.
  intros [] [] V1%validate_fields V2%validate_fields. unfold CanonicalPayload.
  intros [_ H]%app_inj_1; [|done].
  apply app_inj_2 in H as [Hid H]; [|by rewrite !length_app, !Bytes.length_be].
  apply Bytes.of_string_inj in Hid.
  apply app_inj_1 in H as [H0 H]; [|by rewrite !Bytes.length_be].
  apply app_inj_1 in H as [H1 H]; [|by rewrite !Bytes.length_be].
  apply app_inj_1 in H as [H2 H]; [|by rewrite !Bytes.length_be].
  apply app_inj_1 in H as [H3 H]; [|by rewrite !Bytes.length_be].
  apply app_inj_1 in H as [H4 H5]; [|by rewrite !Bytes.length_be].
  unfold UnixMilli, in_i64 in *.
  split_and!; try (by apply u32_be_inj; tauto); [done|].
  rewrite !u64_id in H0 by lia. apply Bytes.be_inj in H0; [done|simpl; lia..].
Qed.

Definition sample_report (node : string) (used : Z) : CapacityReport :=
  mkReport node (7 * Second) 3 1 used 900 2 [] "k1".

Lemma canonical_payload_injective_witness :
  CanonicalPayload (sample_report "a" 10) = CanonicalPayload (sample_report "a" 10) ∧
  UsedMB (sample_report "a" 10) = 10 ∧ NodeID (sample_report "a" 10) = "a"%string.
Proof.
  split; [done|]. split; [done|].
  apply (canonical_payload_injective (sample_report "a" 10) (sample_report "a" 10));
    try done; by constructor; vm_compute.
Defined.

(** ** The report table *)

Section stream.
Context {PubKey : Type} (isP256 : PubKey → bool) (sha256 : list Z → list Z).
Context (ecdsa_verify : PubKey → list Z → Z → Z → bool).
Context (keys : option (string → option PubKey)).

Abbreviation verify := (VerifyNodeSignature isP256 sha256 ecdsa_verify).
Abbreviation run := (ReportCapacity isP256 sha256 ecdsa_verify keys).

(** A message the loop applies: it names a node and, once a registry is wired, verifies. *)
Definition accepts (msg : CapacityReport) : bool :=
  negb (String.eqb (NodeID msg) EmptyString) &&
  match keys with
  | Some _ => match verify msg (NodeSignature msg) keys with None => true | Some _ => false end
  | None => true
  end.

(** The messages applied before the stream closes. *)
Fixpoint accepted (events : list (Time * recv)) : list (Time * CapacityReport) :=
  match events with
  | (now, RecvMsg msg) :: rest => if accepts msg then (now, msg) :: accepted rest else []
  | _ => []
  end.

(** The last message for a node. *)
Definition latest (n : string) (l : list (Time * CapacityReport)) : option (Time * CapacityReport) :=
  foldl (λ acc x, if String.eqb (NodeID x.2) n then Some x else acc) None l.

Lemma run_accepted t events :
  (run t events).1 = foldl (λ t x, Replace t x.1 x.2) t (accepted events).
Proof.
  revert t. induction events as [|[now [msg| |]] rest IH]; intros t; simpl; [done| |done|done].
  unfold accepts. destruct (String.eqb (NodeID msg) EmptyString); simpl; [done|].
  destruct keys as [pk|] eqn:Hk; [|apply IH]. destruct (verify msg _ _); simpl; [done|apply IH].
Qed.

Lemma accepted_spec events x :
  x ∈ accepted events → (x.1, RecvMsg x.2) ∈ events ∧ accepts x.2 = true.
Proof.
  induction events as [|[now [msg| |]] rest IH]; simpl; try (by intros ?%elem_of_nil).
  destruct (accepts msg) eqn:Ha; [|by intros ?%elem_of_nil].
  intros [->|Hx]%elem_of_cons; [by split; [left|]|]. destruct (IH Hx). by split; [right|].
Qed.

(** The table holds the last accepted message of every node. *)
Lemma replace_latest l n m acc :
  Forall (λ x, NodeID x.2 ≠ EmptyString) l →
  m !! n = (λ x : Time * CapacityReport, mkEntry x.2 x.1) <$> acc →
  ∃ m', foldl (λ t x, Replace t x.1 x.2) (Some m) l = Some m' ∧
        m' !! n = (λ x, mkEntry x.2 x.1) <$>
                  foldl (λ acc x, if String.eqb (NodeID x.2) n then Some x else acc) acc l.
Proof.
  revert m acc. induction l as [|[now r] l IH]; intros m acc Hl Hm; [by exists m|].
  apply Forall_cons in Hl as [Hr Hl]. simpl in *.
  pose proof Hr as ->%String.eqb_neq. apply IH; [done|].
  destruct (String.eqb_spec (NodeID r) n) as [->|]; by simplify_map_eq.
Qed.

(** C9: the report table is sound and complete for a stream: only messages that name a node and,
    when a key registry is wired, carry a verifying signature are ever applied; the loop stops at
    the first rejected frame; and a lookup returns exactly the node's latest applied report while at
    most five seconds have passed since this daemon received it, nothing otherwise. *)
Theorem report_stream_correct events n now :
  (∀ x, x ∈ accepted events →
     (x.1, RecvMsg x.2) ∈ events ∧ NodeID x.2 ≠ EmptyString ∧
     (keys ≠ None → verify x.2 (NodeSignature x.2) keys = None)) ∧
  Lookup (run newNodeCapacityTable events).1 n now =
    match latest n (accepted events) with
    | Some (at_, r) => if CapacityFreshness <? now - at_ then None else Some r
    | None => None
    end.
Proof.
  split.
  - intros x [Hx Ha]%accepted_spec. split; [done|]. unfold accepts in Ha. breflect. split; [done|].
    intros Hk. destruct keys; [|done]. by destruct (verify _ _ _).
  - rewrite run_accepted. unfold newNodeCapacityTable.
    destruct (replace_latest (accepted events) n ∅ None) as (m & -> & Hm).
    + apply Forall_forall. intros x [_ Ha]%accepted_spec. unfold accepts in Ha. by breflect.
    + done.
    + unfold Lookup. rewrite Hm. fold (latest n (accepted events)).
      destruct (latest n (accepted events)) as [[at_ r]|]; simpl; [|done].
      pose proof (time_sub_gt now at_ CapacityFreshness) as Hts.
      unfold CapacityFreshness, Second, max_duration in *. specialize (Hts ltac:(lia)).
      destruct (_ <? time_sub _ _) eqn:E1, (_ <? now - at_) eqn:E2; breflect; try done; lia.
Qed.

(** a replayed report is accepted: a frame that verified once verifies again at any later time
    and is then fresh, so an arbitrarily old signed report can be re-presented as the node's live
    capacity. *)
Theorem replayed_report_accepted msg t0 t1 :
  accepts msg = true →
  Lookup (run (run newNodeCapacityTable [(t0, RecvMsg msg)]).1 [(t1, RecvMsg msg)]).1
         (NodeID msg) t1 = Some msg.
Proof.
  intros Ha. rewrite !run_accepted. unfold accepted. rewrite Ha. unfold accepts in Ha. breflect.
  assert (String.eqb (NodeID msg) EmptyString = false) as Hn by (by apply String.eqb_neq).
  unfold newNodeCapacityTable. simpl. rewrite !Hn. simpl. rewrite !Hn. simpl. rewrite lookup_insert_eq. unfold time_sub. rewrite Z.sub_diag. done.
Qed.
End stream.

(** A toy signature scheme in which every hypothesis above holds. *)
Definition toy_sha (bs : list Z) : list Z := replicate 31 0 ++ [foldl Z.add 0 bs mod 256].
Definition toy_sign (rnd priv : Z) (d : list Z) : option (Z * Z) := Some (300, Bytes.SetBytes d mod 256).
Definition toy_verify (pub : Z) (d : list Z) (r s : Z) : bool :=
  (r =? 300) && (s =? Bytes.SetBytes d mod 256).

Lemma sign_verify_roundtrip_witness :
  ∃ sig,
    SignNodeReport (λ _, true) id toy_sha toy_sign 0 (Some 9) (sample_report "a" 10) = inr sig ∧
    VerifyNodeSignature (λ _, true) toy_sha toy_verify (sample_report "a" 10) sig
      (Some (λ _, Some 9)) = None.
Proof.
  eexists. split; [vm_compute; reflexivity|].
  eapply (sign_verify_roundtrip (λ _, true) id toy_sha toy_sign toy_verify) with (rnd := 0) (priv := 9).
  - intros bs. unfold toy_sha. by rewrite length_app, length_replicate.
  - intros ????? [= <- <-]. pose proof (Z.mod_pos_bound (Bytes.SetBytes d) 256). lia.
  - intros ????? [= <- <-]. unfold toy_verify. by rewrite !Z.eqb_refl.
  - vm_compute; reflexivity.
  - done.
Defined.

(** A report signed once under key 9. *)
Definition sample_signed : CapacityReport :=
  match SignNodeReport (λ _, true) id toy_sha toy_sign 0 (Some 9) (sample_report "a" 10) with
  | inr sig => mkReport "a" (7 * Second) 3 1 10 900 2 sig "k1"
  | inl _ => sample_report "a" 10
  end.

Lemma replayed_report_accepted_witness :
  let run := ReportCapacity (λ _, true) toy_sha toy_verify (Some (λ _, Some 9)) in
  Lookup (run (run newNodeCapacityTable [(0, RecvMsg sample_signed)]).1
              [(24 * Hour, RecvMsg sample_signed)]).1 "a" (24 * Hour) = Some sample_signed.
Proof.
  apply (replayed_report_accepted (λ _, true) toy_sha toy_verify (Some (λ _, Some 9))
           sample_signed 0 (24 * Hour)); by vm_compute.
Defined.
End Capacity.
