(* ===== verification/Placement.v ===== *)
(** * pkg/sched: the placement chooser

    Models src/pkg/sched/placement.go ([ChoosePlacement], [betterCandidate]) and the
    engine code that feeds it in src/pkg/sched/engine.go: the live capacity read
    with its ledger floor, the fleet scan of choosePlacementLocked and the two
    peer searches of the pressure rebalancer.  Store reads are functions of the
    engine view ([None] is a store error). *)

From S2P Require Import Prelude Api Admission Capacity.

Module Placement.

Record ComputeNode := mkNode {
  ID : string;
  Name : string;
  TargetURL : string;
  AdmissionCeilingMB : Z;
  VCPUBudget : Z;
  Active : bool;
  Region : option string;
  Zone : option string;
}.

Record t := mkPlacement {
  pNodeID : string;
  pName : string;
  pTargetURL : string;
  pCeilingMB : Z;
  pVCPUBudget : Z;
  pUsedMB : Z;
}.

Inductive place_error :=
| ErrNonPositiveRAM (ram : Z)
| ErrNoFit (billable vcpu : Z) (candidates : nat)
| ErrWrongOwner (app owner self : string)
| ErrListNodes.

Definition derefRegion (s : option string) : string :=
  match s with None => EmptyString | Some s => s end.

Definition betterCandidate (n : ComputeNode) (nUsed nVCPUUsed : Z)
    (best : ComputeNode) (bestUsed bestVCPUUsed : Z) (preferred : string) : bool :=
  let nHead := AdmissionCeilingMB n -! nUsed in
  let bestHead := AdmissionCeilingMB best -! bestUsed in
  if negb (nHead =? bestHead) then bestHead <? nHead
  else
  let nVHead := VCPUBudget n -! nVCPUUsed in
  let bestVHead := VCPUBudget best -! bestVCPUUsed in
  if negb (nVHead =? bestVHead) then bestVHead <? nVHead
  else
  let nRegion := derefRegion (Region n) in
  let bestRegion := derefRegion (Region best) in
  let nMatch := String.eqb nRegion preferred in
  let bestMatch := String.eqb bestRegion preferred in
  if negb (String.eqb preferred EmptyString) && negb (Bool.eqb nMatch bestMatch) then nMatch
  else if negb (String.eqb nRegion bestRegion) then str_ltb nRegion bestRegion
  else
  let nZone := derefRegion (Zone n) in
  let bestZone := derefRegion (Zone best) in
  if negb (String.eqb nZone bestZone) then str_ltb nZone bestZone
  else str_ltb (Name n) (Name best).

Section choose.
Context (usedMB usedVCPU : gmap string Z).

(** The guards of the candidate loop. *)
Definition fits (r : Ledger.Request) (billable : Z) (n : ComputeNode) : bool :=
  if negb (Active n) then false
  else if AdmissionCeilingMB n <=? 0 then false
  else if VCPUBudget n <=? 0 then false
  else if (0 <? Ledger.VCPU r) && (VCPUBudget n <? zget usedVCPU (ID n) +! Ledger.VCPU r) then false
  else if AdmissionCeilingMB n <? zget usedMB (ID n) +! billable then false
  else true.

Definition placement_of (n : ComputeNode) : t :=
  mkPlacement (ID n) (Name n) (TargetURL n) (AdmissionCeilingMB n) (VCPUBudget n)
              (zget usedMB (ID n)).

Definition better (preferred : string) (n best : ComputeNode) : bool :=
  betterCandidate n (zget usedMB (ID n)) (zget usedVCPU (ID n))
                  best (zget usedMB (ID best)) (zget usedVCPU (ID best)) preferred.

(** The candidate loop: the accepted nodes in order, and the last of them that is the warm hint. *)
Definition scan (r : Ledger.Request) (billable : Z) (nodes : list ComputeNode)
  : list ComputeNode * option ComputeNode :=
  foldl (λ '(candidates, warmFit) n,
           if fits r billable n then
             (candidates ++ [n],
              if negb (String.eqb (Ledger.PreferredNodeID r) EmptyString)
                 && String.eqb (ID n) (Ledger.PreferredNodeID r)
              then Some n else warmFit)
           else (candidates, warmFit))
        ([], None) nodes.

Definition ChoosePlacement (nodes : list ComputeNode) (r : Ledger.Request) : place_error + t :=
  if Ledger.RAMMB r <=? 0 then inl (ErrNonPositiveRAM (Ledger.RAMMB r))
  else
  let billable := BillableRAMMBWithSidecars (Ledger.RAMMB r) (Ledger.SidecarMBs r) in
  let '(candidates, warmFit) := scan r billable nodes in
  match warmFit with
  | Some n => inr (placement_of n)
  | None =>
      match candidates with
      | [] => inl (ErrNoFit billable (Ledger.VCPU r) (length nodes))
      | [n] => inr (placement_of n)
      | c :: cs =>
          inr (placement_of (go_best (better (Ledger.PreferredRegion r)) c cs))
      end
  end.
End choose.

(** ** The engine around the chooser *)

Record EngineView := mkView {
  ownerNodeID : string;
  capacityTable : Capacity.nodeCapacityTable;
  now : Time;
  ledger : Ledger.NodeLedger;
  AppNodeID : string → option string;
  ActiveComputeNodes : option (list ComputeNode);
  ComputeNodeUsedMB : string → option Z;
  ComputeNodeByID : string → option ComputeNode;
}.

Definition applyLiveCapacityMB (e : EngineView) (nodeID : string) : Z :=
  match Capacity.Lookup (capacityTable e) nodeID (now e) with
  | None => 0
  | Some live =>
      let used := Capacity.UsedMB live in
      let l := Ledger.ResidentRAMForNode (ledger e) nodeID in
      let used := if used <? l then l else used in
      if used <? 0 then 0 else used
  end.

Definition used_of (e : EngineView) (nodeID : string) : Z :=
  let used := applyLiveCapacityMB e nodeID in
  if 0 <? used then used else default 0 (ComputeNodeUsedMB e nodeID).

Definition with_preferred (r : Ledger.Request) (n : string) : Ledger.Request :=
  Ledger.mkReq (Ledger.Instance_ r) (Ledger.AppID r) (Ledger.DeploymentID r) (Ledger.ReqPlan r)
    (Ledger.RAMMB r) (Ledger.SidecarMBs r) (Ledger.VCPU r) (Ledger.MaxConcurrency r)
    (Ledger.ReqKind r) (Ledger.NodeID r) n (Ledger.PreferredRegion r) (Ledger.NodeCeilingMB r)
    (Ledger.VCPUBudget r).

(** The fleet scan that fills the two maps. *)
Definition read_fleet (e : EngineView) (nodes : list ComputeNode) : gmap string Z * gmap string Z :=
  foldl (λ '(usedMB, usedVCPU) n,
           (<[ID n := used_of e (ID n)]> usedMB,
            <[ID n := Ledger.UsedVCPUForNode (ledger e) (ID n)]> usedVCPU))
        (∅, ∅) nodes.

Definition choosePlacementLocked (e : EngineView) (r : Ledger.Request) : place_error + t :=
  let owned := negb (String.eqb (ownerNodeID e) EmptyString) in
  let foreign :=
    match AppNodeID e (Ledger.AppID r) with
    | Some node => if negb (String.eqb node EmptyString) && negb (String.eqb node (ownerNodeID e))
                   then Some node else None
    | None => None
    end in
  match (if owned then foreign else None) with
  | Some node => inl (ErrWrongOwner (Ledger.AppID r) node (ownerNodeID e))
  | None =>
      let r := if owned then with_preferred r (ownerNodeID e) else r in
      match ActiveComputeNodes e with
      | None => inl ErrListNodes
      | Some nodes =>
          let '(usedMB, usedVCPU) := read_fleet e nodes in
          ChoosePlacement usedMB usedVCPU nodes r
      end
  end.

Definition name_less (a b : ComputeNode) : bool := str_ltb (Name a) (Name b).

(** [inl tt] is the wrapped store error; the empty string means no peer qualifies. *)
Definition findPeerWithHeadroom (e : EngineView) (appRAMMB : Z) : unit + string :=
  match ActiveComputeNodes e with
  | None => inl tt
  | Some nodes =>
      let neededMB := appRAMMB +! PerVMOverheadMB in
      let qualifies n :=
        negb (String.eqb (ID n) (ownerNodeID e)) &&
        match ComputeNodeUsedMB e (ID n) with
        | None => false
        | Some used =>
            let ceiling := if AdmissionCeilingMB n <=? 0 then RAMAdmissionCeilingMB
                           else AdmissionCeilingMB n in
            neededMB <=? ceiling -! used
        end in
      inr match List.find qualifies (go_sort name_less nodes) with
          | Some n => ID n
          | None => EmptyString
          end
  end.

Definition findOverflowPeerWithHeadroom (e : EngineView) (appRAMMB : Z) (targetUUID : string)
  : unit + string :=
  if String.eqb targetUUID (ownerNodeID e) then inr EmptyString
  else
  match ComputeNodeByID e targetUUID with
  | None => inr EmptyString
  | Some n =>
      if negb (Active n) then inr EmptyString
      else
      match ComputeNodeUsedMB e (ID n) with
      | None => inl tt
      | Some used =>
          let ceiling := if AdmissionCeilingMB n <=? 0 then RAMAdmissionCeilingMB
                         else AdmissionCeilingMB n in
          let neededMB := appRAMMB +! PerVMOverheadMB in
          if ceiling -! used <? neededMB then inr EmptyString else inr (ID n)
      end
  end.

(** (ceilingMB, vcpuBudget); [inl tt] is the store error. *)
Definition resolveNodeCeiling (e : EngineView) (nodeID : string) : unit + (Z * Z) :=
  if String.eqb nodeID EmptyString then inr (0, 0)
  else match ComputeNodeByID e nodeID with
       | None => inl tt
       | Some n => inr (AdmissionCeilingMB n, VCPUBudget n)
       end.

(** ** The candidate order is a strict weak order *)

Section order.
Context (usedMB usedVCPU : gmap string Z) (preferred : string).

Definition head (n : ComputeNode) : Z := AdmissionCeilingMB n -! zget usedMB (ID n).
Definition vhead (n : ComputeNode) : Z := VCPUBudget n -! zget usedVCPU (ID n).
Definition region (n : ComputeNode) : string := derefRegion (Region n).
Definition zone (n : ComputeNode) : string := derefRegion (Zone n).
Definition matches (n : ComputeNode) : bool :=
  negb (String.eqb preferred EmptyString) && String.eqb (region n) preferred.

(** The comparator as a lexicographic chain: headroom and vCPU headroom descending, upstream
    match first, then region, zone and name ascending. *)
Definition candidate_order : ComputeNode → ComputeNode → bool :=
  lex_less head Z.eqb (λ x y, y <? x)
    (lex_less vhead Z.eqb (λ x y, y <? x)
       (lex_less matches Bool.eqb (λ x y, false_first y x)
          (lex_less region String.eqb str_ltb
             (lex_less zone String.eqb str_ltb name_less)))).

Lemma better_candidate_order n best :
  better usedMB usedVCPU preferred n best = candidate_order n best.
Proof.
  unfold better, betterCandidate, candidate_order, lex_less, head, vhead, matches, zone.
  destruct (negb (_ =? _)) eqn:E1; [done|]. destruct (negb (_ =? _)) eqn:E2; [done|].
  fold (region n) (region best). destruct (String.eqb preferred EmptyString); simpl; [done|].
  by destruct (String.eqb (region n) preferred), (String.eqb (region best) preferred).
Qed.

#[local] Instance name_less_weak : WeakOrder name_less.
Proof. apply (key_weak Name), _. Qed.
#[local] Instance Zgt_weak : WeakOrder (λ x y, y <? x).
Proof. apply flip_weak, _. Qed.
#[local] Instance true_first_weak : WeakOrder (λ x y, false_first y x).
Proof. apply flip_weak, _. Qed.

Lemma true_first_spec x y :
  Bool.eqb x y = negb (false_first y x) && negb (false_first x y).
Proof. by destruct x, y. Qed.

Lemma Zeqb_gt_spec x y : (x =? y) = negb (y <? x) && negb (x <? y).
Proof. lia. Qed.

#[export] Instance better_weak : WeakOrder (better usedMB usedVCPU preferred).
Proof.
  assert (WeakOrder candidate_order) as Hw.
  { repeat apply lex_less_weak; try apply _; auto using Zeqb_gt_spec, true_first_spec, str_eqb_spec. }
  split; intros *; rewrite !better_candidate_order; [apply less_asym|apply less_negtrans].
Qed.

(** Two incomparable candidates have the same name. *)
Lemma better_sep a b :
  better usedMB usedVCPU preferred a b = false → better usedMB usedVCPU preferred b a = false →
  Name a = Name b.
Proof.
  rewrite !better_candidate_order. intros H1 H2.
  apply lex_less_sep in H2 as (_ & H2 & H3); auto using Zeqb_gt_spec.
  apply lex_less_sep in H3 as (_ & H3 & H4); auto using Zeqb_gt_spec.
  apply lex_less_sep in H4 as (_ & H4 & H5); auto using true_first_spec.
  apply lex_less_sep in H5 as (_ & H5 & H6); auto using str_eqb_spec.
  apply lex_less_sep in H6 as (_ & H6 & H7); auto using str_eqb_spec.
  by apply str_ltb_total.
Qed.
End order.

(** ** The scan *)

Lemma scan_spec usedMB usedVCPU r b nodes :
  (scan usedMB usedVCPU r b nodes).1 = filter (λ n, fits usedMB usedVCPU r b n = true) nodes ∧
  match (scan usedMB usedVCPU r b nodes).2 with
  | Some n => n ∈ nodes ∧ fits usedMB usedVCPU r b n = true ∧
              ID n = Ledger.PreferredNodeID r ∧ ID n ≠ EmptyString
  | None => ∀ n, n ∈ nodes → fits usedMB usedVCPU r b n = true →
                 Ledger.PreferredNodeID r = EmptyString ∨ ID n ≠ Ledger.PreferredNodeID r
  end.
Proof.
  unfold scan. induction nodes as [|x l IH] using rev_ind.
  { simpl. split; [done|]. by intros n ?%elem_of_nil. }
  rewrite foldl_app, filter_app. simpl.
  destruct (foldl _ ([], None) l) as [cs w]; simpl in *. destruct IH as [-> IH].
  rewrite filter_cons, filter_nil. destruct (fits usedMB usedVCPU r b x) eqn:Ef.
  - rewrite decide_True by done. simpl. split; [done|].
    destruct (negb _ && _) eqn:Ew; breflect.
    + split_and!; [apply elem_of_app; right; by left|done|done|congruence].
    + destruct w as [n|]; [rewrite elem_of_app; tauto|].
      intros n [Hn| ->%list_elem_of_singleton]%elem_of_app Hf; [eauto|by left].
    + destruct w as [n|]; [rewrite elem_of_app; tauto|].
      intros n [Hn| ->%list_elem_of_singleton]%elem_of_app Hf; [eauto|by right].
  - rewrite decide_False by congruence. rewrite app_nil_r. simpl. split; [done|].
    destruct w as [n|]; [rewrite elem_of_app; tauto|].
    intros n [Hn| ->%list_elem_of_singleton]%elem_of_app Hf; [eauto|congruence].
Qed.

(** ** Correctness of the choice *)

(** What "the node fits the request" means, in unbounded arithmetic. *)
Definition roomy (usedMB usedVCPU : gmap string Z) (r : Ledger.Request) (n : ComputeNode) : Prop :=
  Active n = true ∧ 0 < AdmissionCeilingMB n ∧ 0 < VCPUBudget n ∧
  (0 < Ledger.VCPU r → zget usedVCPU (ID n) + Ledger.VCPU r ≤ VCPUBudget n) ∧
  zget usedMB (ID n) + Ledger.req_admissionMB r ≤ AdmissionCeilingMB n.

(** Usage reads are non-negative and far from the int64 range. *)
Definition wf_used (m : gmap string Z) : Prop := ∀ k, 0 ≤ zget m k < Ledger.ram_max.

Lemma fits_roomy usedMB usedVCPU r n :
  wf_used usedMB → wf_used usedVCPU → Ledger.wf_request r →
  fits usedMB usedVCPU r (BillableRAMMBWithSidecars (Ledger.RAMMB r) (Ledger.SidecarMBs r)) n = true
  ↔ roomy usedMB usedVCPU r n.
Proof.
  intros Hm Hv Hr. pose proof (Ledger.wf_admissionMB r Hr). pose proof (Ledger.wf_vcpu r Hr).
  specialize (Hm (ID n)). specialize (Hv (ID n)). unfold fits, roomy.
  fold (Ledger.req_admissionMB r). unfold Ledger.ram_max, PerVMOverheadMB in *.
  rewrite !i64_id by (unfold in_i64; lia).
  destruct (Active n); simpl; [|naive_solver].
  destruct (AdmissionCeilingMB n <=? 0) eqn:E1; [breflect; naive_solver lia|].
  destruct (VCPUBudget n <=? 0) eqn:E2; [breflect; naive_solver lia|].
  destruct (_ && _) eqn:E3; [breflect; naive_solver lia|].
  destruct (AdmissionCeilingMB n <? _) eqn:E4; breflect; naive_solver lia.
Qed.

(** The shape of the result. *)
Lemma ChoosePlacement_cases usedMB usedVCPU nodes r
    (b := BillableRAMMBWithSidecars (Ledger.RAMMB r) (Ledger.SidecarMBs r)) :
  0 < Ledger.RAMMB r →
  (∃ n, ChoosePlacement usedMB usedVCPU nodes r = inr (placement_of usedMB n) ∧
        n ∈ nodes ∧ fits usedMB usedVCPU r b n = true ∧
        ((ID n = Ledger.PreferredNodeID r ∧ ID n ≠ EmptyString) ∨
         ((∀ m, m ∈ nodes → fits usedMB usedVCPU r b m = true →
                Ledger.PreferredNodeID r = EmptyString ∨ ID m ≠ Ledger.PreferredNodeID r) ∧
          (∀ m, m ∈ nodes → fits usedMB usedVCPU r b m = true →
                better usedMB usedVCPU (Ledger.PreferredRegion r) m n = false)))) ∨
  (∃ e, ChoosePlacement usedMB usedVCPU nodes r = inl e ∧
        ∀ m, m ∈ nodes → fits usedMB usedVCPU r b m = false).
Proof.
  intros Hram. unfold ChoosePlacement. fold b. apply Z.leb_gt in Hram as ->.
  destruct (scan_spec usedMB usedVCPU r b nodes) as [Hc Hw].
  destruct (scan usedMB usedVCPU r b nodes) as [cs [n|]]; simpl in *.
  { left. exists n. naive_solver. }
  assert (∀ m, m ∈ cs ↔ fits usedMB usedVCPU r b m = true ∧ m ∈ nodes) as Hcs.
  { intros m. by rewrite Hc, list_elem_of_filter. }
  destruct cs as [|c cs].
  { right. eexists. split; [done|]. intros m Hm. destruct (fits _ _ _ _ m) eqn:E; [|done].
    by destruct (not_elem_of_nil m (proj2 (Hcs m) (conj E Hm))). }
  left. destruct (go_best_spec (better usedMB usedVCPU (Ledger.PreferredRegion r)) c cs) as [Hin Hmin].
  exists (go_best (better usedMB usedVCPU (Ledger.PreferredRegion r)) c cs).
  split; [by destruct cs|]. apply Hcs in Hin as [Hf Hn]. split_and!; [done|done|].
  right. split; [done|]. intros m Hm Hfm. apply Hmin, Hcs. done.
Qed.

Lemma better_headroom usedMB usedVCPU preferred m n :
  better usedMB usedVCPU preferred m n = false → head usedMB m ≤ head usedMB n.
Proof.
  rewrite better_candidate_order. unfold candidate_order, lex_less.
  destruct (_ =? _) eqn:E; simpl; intros H; breflect; lia.
Qed.

(** C5: placement is safe, complete and optimal. A returned node is in the fleet, active, and has the
    RAM and vCPU the request needs; the warm hint is followed exactly when the hinted node itself
    fits; otherwise the node has the most RAM headroom among all fitting nodes and no fitting node
    beats it in the tie-break order; and an error is returned only when no node fits. *)
Theorem placement_correct usedMB usedVCPU nodes r :
  wf_used usedMB → wf_used usedVCPU → Ledger.wf_request r → 0 < Ledger.RAMMB r →
  (∀ n, n ∈ nodes → AdmissionCeilingMB n ≤ Ledger.ram_max) →
  match ChoosePlacement usedMB usedVCPU nodes r with
  | inr p =>
      ∃ n, n ∈ nodes ∧ p = placement_of usedMB n ∧ roomy usedMB usedVCPU r n ∧
        let warm m := m ∈ nodes ∧ roomy usedMB usedVCPU r m ∧
                      ID m = Ledger.PreferredNodeID r ∧ ID m ≠ EmptyString in
        (warm n ∨
         (∀ m, ¬ warm m) ∧
         ∀ m, m ∈ nodes → roomy usedMB usedVCPU r m →
              better usedMB usedVCPU (Ledger.PreferredRegion r) m n = false ∧
              AdmissionCeilingMB m - zget usedMB (ID m) ≤
              AdmissionCeilingMB n - zget usedMB (ID n))
  | inl _ => ∀ m, m ∈ nodes → ¬ roomy usedMB usedVCPU r m
  end.
Proof.
  intros Hm Hv Hr Hram Hceil. pose proof (fits_roomy usedMB usedVCPU r) as Hfit.
  destruct (ChoosePlacement_cases usedMB usedVCPU nodes r Hram)
    as [(n & -> & Hn & Hf & Hbest)|(e & -> & Hnone)].
  - exists n. rewrite <- Hfit by done. split_and!; [done..|].
    destruct Hbest as [[Hw Hne]|[Hnw Hb]]; [left; by rewrite <- Hfit|right]. split.
    { intros m (Hin & Hfm%Hfit & Hid & Hne); [|done..]. destruct (Hnw m Hin Hfm); congruence. }
    intros m Hin Hfm. specialize (Hb m Hin). rewrite Hfit in Hb by done. specialize (Hb Hfm).
    split; [done|]. apply better_headroom in Hb. unfold head in Hb.
    apply Hfit in Hf; [|done..]. destruct Hf as (_ & ? & _), Hfm as (_ & ? & _).
    pose proof (Hm (ID m)). pose proof (Hm (ID n)). pose proof (Hceil m Hin).
    pose proof (Hceil n Hn). unfold Ledger.ram_max in *. rewrite !i64_id in Hb by (unfold in_i64; lia).
    done.
  - intros m Hin Hroom. apply Hfit in Hroom; [|done..]. by rewrite (Hnone m Hin) in Hroom.
Qed.

Definition sample_node (id : string) (ceil : Z) : ComputeNode :=
  mkNode id id "unix:///run/vmmd.sock" ceil 8 true (Some "eu"%string) None.

Definition sample_fleet : list ComputeNode :=
  [sample_node "n1" 4096; sample_node "n2" 8192; sample_node "n3" 100].

Lemma wf_used_sample : wf_used (<["n2" := 1000]> ∅).
Proof.
  intros k. unfold zget. destruct (decide (k = "n2"%string)) as [->|];
    [by rewrite lookup_insert_eq|by rewrite lookup_insert_ne, lookup_empty].
Qed.

Lemma wf_used_empty : wf_used ∅.
Proof. intros k. unfold zget. by rewrite lookup_empty. Qed.

Lemma placement_correct_witness :
  let p := placement_of (<["n2" := 1000]> ∅) (sample_node "n2" 8192) in
  ChoosePlacement (<["n2" := 1000]> ∅) ∅ sample_fleet (Ledger.sample_request "i1" EmptyString)
    = inr p ∧
  ∃ n, n ∈ sample_fleet ∧ p = placement_of (<["n2" := 1000]> ∅) n ∧ 0 < AdmissionCeilingMB n.
Proof.
  intros p.
  assert (ChoosePlacement (<["n2" := 1000]> ∅) ∅ sample_fleet
            (Ledger.sample_request "i1" EmptyString) = inr p) as E by (vm_compute; reflexivity).
  split; [exact E|].
  pose proof (placement_correct (<["n2" := 1000]> ∅) ∅ sample_fleet
                (Ledger.sample_request "i1" EmptyString) wf_used_sample wf_used_empty
                (Ledger.sample_request_wf _ _) ltac:(simpl; lia)) as H.
  rewrite E in H. destruct H as (n & Hn & Hp & (_ & Hc & _) & _); [|by exists n].
  unfold sample_fleet, Ledger.ram_max. intros n. rewrite !elem_of_cons, elem_of_nil.
  intros [->|[->|[->|[]]]]; simpl; lia.
Defined.

(** the choice does not depend on the order in which the store lists the fleet, as long as node
    names and ids are unique. *)
Theorem placement_order_independent usedMB usedVCPU nodes nodes' r :
  (∀ a b, a ∈ nodes → b ∈ nodes → Name a = Name b ∨ ID a = ID b → a = b) →
  nodes ≡ₚ nodes' →
  ChoosePlacement usedMB usedVCPU nodes r = ChoosePlacement usedMB usedVCPU nodes' r.
Proof.
  intros Huniq Hp. unfold ChoosePlacement. destruct (Ledger.RAMMB r <=? 0); [done|].
  set (b := BillableRAMMBWithSidecars _ _).
  destruct (scan_spec usedMB usedVCPU r b nodes) as [Hc Hw].
  destruct (scan_spec usedMB usedVCPU r b nodes') as [Hc' Hw'].
  destruct (scan usedMB usedVCPU r b nodes) as [cs w], (scan usedMB usedVCPU r b nodes') as [cs' w'].
  simpl in *. assert (cs ≡ₚ cs') as Hcs by (rewrite Hc, Hc'; by apply filter_Permutation).
  assert (w = w') as <-.
  { destruct w as [n|], w' as [n'|]; [| | |done].
    - destruct Hw as (Hn & _ & Hid & _), Hw' as (Hn' & _ & Hid' & _). f_equal.
      apply Huniq; [done|by rewrite Hp|right; congruence].
    - destruct Hw as (Hn & Hf & Hid & Hne). rewrite Hp in Hn. destruct (Hw' n Hn Hf); congruence.
    - destruct Hw' as (Hn & Hf & Hid & Hne). rewrite <- Hp in Hn. destruct (Hw n' Hn Hf); congruence. }
  destruct w; [done|]. destruct cs as [|c cs], cs' as [|c' cs'].
  - by rewrite Hp.
  - by apply Permutation_nil_l in Hcs.
  - by apply Permutation_nil_r in Hcs.
  - assert (go_best (better usedMB usedVCPU (Ledger.PreferredRegion r)) c cs
            = go_best (better usedMB usedVCPU (Ledger.PreferredRegion r)) c' cs') as Hb.
    { apply go_best_perm; [apply _| |done]. rewrite Hc. intros x y Hx Hy H1 H2.
      apply list_elem_of_filter in Hx as [_ Hx]. apply list_elem_of_filter in Hy as [_ Hy].
      apply Huniq; [done..|left]. by eapply better_sep. }
    destruct cs, cs'; simpl in *; by rewrite <- Hb || rewrite Hb.
Qed.

Lemma placement_order_independent_witness :
  ChoosePlacement ∅ ∅ sample_fleet (Ledger.sample_request "i1" EmptyString)
  = ChoosePlacement ∅ ∅ (reverse sample_fleet) (Ledger.sample_request "i1" EmptyString).
Proof.
  apply placement_order_independent; [|by rewrite reverse_Permutation].
  intros a b. unfold sample_fleet. rewrite !elem_of_cons, !elem_of_nil.
  intros [->|[->|[->|[]]]] [->|[->|[->|[]]]] [H|H]; done.
Defined.

(** ** The engine's view *)

Lemma read_fleet_spec e nodes n :
  n ∈ nodes →
  zget (read_fleet e nodes).1 (ID n) = used_of e (ID n) ∧
  zget (read_fleet e nodes).2 (ID n) = Ledger.UsedVCPUForNode (ledger e) (ID n).
Proof.
  unfold read_fleet. induction nodes as [|x l IH] using rev_ind; [by intros ?%elem_of_nil|].
  rewrite foldl_app. simpl. destruct (foldl _ (∅, ∅) l) as [m v]; simpl in *.
  intros Hn. destruct (decide (ID x = ID n)) as [->|Hne]; autorewrite with faas_map; [done|].
  apply IH. apply elem_of_app in Hn as [?| ->%list_elem_of_singleton]; done.
Qed.

(** The accounting the chooser sees never falls below the ledger for a node with a fresh report. *)
Lemma live_floor e nodeID rep :
  Ledger.ledger_ok (ledger e) →
  Capacity.Lookup (capacityTable e) nodeID (now e) = Some rep →
  (∀ z, ComputeNodeUsedMB e nodeID = Some z → 0 ≤ z) →
  Ledger.ResidentRAMForNode (ledger e) nodeID ≤ used_of e nodeID.
Proof.
  intros Hok Hl Hs. unfold used_of, applyLiveCapacityMB. rewrite Hl.
  pose proof (proj1 (Ledger.ledger_reads_nonneg _ nodeID Hok)).
  set (l := Ledger.ResidentRAMForNode _ _) in *. set (u := if Capacity.UsedMB rep <? l then _ else _).
  assert (l ≤ u) by (unfold u; split_ifs; breflect; lia).
  assert ((u <? 0) = false) as -> by (apply Z.ltb_ge; lia).
  destruct (0 <? u) eqn:E; breflect; [done|].
  destruct (ComputeNodeUsedMB e nodeID) as [z|]; simpl; [specialize (Hs z eq_refl)|]; lia.
Qed.

(** The ledger request the engine builds from a placement. *)
Definition placed_request (r : Ledger.Request) (p : t) : Ledger.Request :=
  Ledger.mkReq (Ledger.Instance_ r) (Ledger.AppID r) (Ledger.DeploymentID r) (Ledger.ReqPlan r)
    (Ledger.RAMMB r) (Ledger.SidecarMBs r) (Ledger.VCPU r) (Ledger.MaxConcurrency r)
    (Ledger.ReqKind r) (pNodeID p) EmptyString EmptyString (pCeilingMB p) (pVCPUBudget p).

Definition is_capacity_error (e : option Ledger.admit_error) : bool :=
  match e with
  | Some (Ledger.ErrCapacityRAM _ _ _ _) | Some (Ledger.ErrCapacityVCPU _ _ _ _) => true
  | _ => false
  end.

Lemma spec_admit_no_capacity m r :
  map_sum (Ledger.ram_on (Ledger.NodeID r)) m + Ledger.req_admissionMB r ≤ Ledger.admit_ceiling r →
  map_sum (Ledger.vcpu_on (Ledger.NodeID r)) m + Ledger.VCPU r ≤ Ledger.admit_vcpuCeiling r →
  is_capacity_error (Ledger.spec_admit m r).2 = false.
Proof.
  intros Hr Hv. unfold Ledger.spec_admit. destruct (Ledger.admit_limits r); [|done].
  case_bool_decide; [done|]. destruct (_ && _); [done|].
  destruct (Ledger.admit_ceiling r <? _) eqn:E1; [breflect; lia|].
  destruct (Ledger.admit_vcpuCeiling r <? _) eqn:E2; [breflect; lia|done].
Qed.

(** What other goroutines do to the ledger while a wake is between its choice and its admission:
    an operation other than an admission on node [n] does not raise that node's sums. *)
Lemma spec_op_quiet (f : Ledger.reservation → Z) m o :
  (∀ i e, m !! i = Some e → 0 ≤ f e) → (∀ e, f (Ledger.stop_counting e) = f e) →
  (∀ r, o = Ledger.OpAdmit r → f (Ledger.new_reservation r) = 0) →
  map_sum f (Ledger.spec_op m o) ≤ map_sum f m.
Proof.
  intros Hnn Hst Hadm. destruct o as [r|i|i]; simpl.
  - destruct (Ledger.spec_admit_cases m r) as [(e & ->)|(Hn & -> & _)]; simpl; [lia|].
    rewrite map_sum_insert by done. rewrite (Hadm r eq_refl). lia.
  - destruct (m !! i) as [e|] eqn:Hi; [|by rewrite alter_id by congruence].
    assert (alter Ledger.stop_counting i m = <[i := Ledger.stop_counting e]> m) as ->.
    { apply map_eq. intros k. destruct (decide (i = k)) as [<-|];
        [by rewrite lookup_alter_eq, lookup_insert_eq, Hi|by rewrite lookup_alter_ne, lookup_insert_ne]. }
    rewrite (map_sum_update f m i e) by done. rewrite Hst. lia.
  - destruct (m !! i) as [e|] eqn:Hi; [|rewrite delete_id; [done|done]].
    rewrite (map_sum_delete f m i e Hi). specialize (Hnn i e Hi). lia.
Qed.

Lemma window_quiet n l os :
  Ledger.ledger_ok l → (∀ r, Ledger.OpAdmit r ∈ os → Ledger.wf_request r ∧ Ledger.NodeID r ≠ n) →
  Ledger.ledger_ok (Ledger.run_ops l os) ∧
  Ledger.ResidentRAMForNode (Ledger.run_ops l os) n ≤ Ledger.ResidentRAMForNode l n ∧
  Ledger.UsedVCPUForNode (Ledger.run_ops l os) n ≤ Ledger.UsedVCPUForNode l n.
Proof.
  revert l. induction os as [|o os IH]; intros l Hok Hos; [done|]. simpl.
  destruct (Ledger.run_op_refines l o Hok) as [Ho HE].
  { intros r ->. apply Hos. by left. }
  destruct (IH (Ledger.run_op l o) Ho) as (Hok' & Hr & Hv); [intros r ?; apply Hos; by right|].
  assert (∀ r, o = Ledger.OpAdmit r → String.eqb (Ledger.NodeID r) n = false) as Hn.
  { intros r ->. apply String.eqb_neq, Hos. by left. }
  split; [done|]. rewrite (Ledger.ok_ram _ Hok), (Ledger.ok_vcpu _ Hok).
  rewrite (Ledger.ok_ram _ Ho), HE in Hr. rewrite (Ledger.ok_vcpu _ Ho), HE in Hv. split.
  - etrans; [exact Hr|]. apply spec_op_quiet; [|done|].
    + intros i e He. pose proof (Ledger.wfe_ram _ (Ledger.ok_entry _ Hok i e He)).
      unfold Ledger.ram_on, PerVMOverheadMB in *. case_match; lia.
    + intros r Hr'. unfold Ledger.ram_on. simpl. by rewrite (Hn r Hr').
  - etrans; [exact Hv|]. apply spec_op_quiet; [|done|].
    + intros i e He. pose proof (Ledger.wfe_vcpu _ (Ledger.ok_entry _ Hok i e He)).
      unfold Ledger.vcpu_on. case_match; lia.
    + intros r Hr'. unfold Ledger.vcpu_on. simpl. by rewrite (Hn r Hr').
Qed.

(** A competing admission on node [n]. *)
Definition admits_on (n : string) (o : Ledger.op) : bool :=
  match o with Ledger.OpAdmit r => String.eqb (Ledger.NodeID r) n | _ => false end.

Lemma quiet_window_room e r p rep nodes os :
  (∀ r', Ledger.OpAdmit r' ∈ os → Ledger.wf_request r') →
  Ledger.ledger_ok (ledger e) → Ledger.wf_request r → 0 < Ledger.RAMMB r → 0 < Ledger.VCPU r →
  ActiveComputeNodes e = Some nodes →
  wf_used (read_fleet e nodes).1 → wf_used (read_fleet e nodes).2 →
  (∀ n, n ∈ nodes → AdmissionCeilingMB n ≤ Ledger.ram_max ∧ VCPUBudget n ≤ Ledger.ram_max) →
  (∀ z, ComputeNodeUsedMB e (pNodeID p) = Some z → 0 ≤ z) →
  choosePlacementLocked e r = inr p →
  Capacity.Lookup (capacityTable e) (pNodeID p) (now e) = Some rep →
  (∀ o, o ∈ os → admits_on (pNodeID p) o = false) →
  is_capacity_error (Ledger.Admit (Ledger.run_ops (ledger e) os) (placed_request r p)).2 = false.
Proof.
  intros Hos Hok Hwf Hram Hcpu Hnodes Hm Hv Hceil Hstore Hp Hrep Hq.
  destruct (window_quiet (pNodeID p) (ledger e) os Hok) as (Hok' & Hlr & Hlv).
  { intros r' Hin. split; [by apply Hos|]. apply String.eqb_neq, (Hq _ Hin). }
  set (r' := if negb (String.eqb (ownerNodeID e) EmptyString)
             then with_preferred r (ownerNodeID e) else r).
  assert (ChoosePlacement (read_fleet e nodes).1 (read_fleet e nodes).2 nodes r' = inr p) as Hc.
  { unfold choosePlacementLocked in Hp. rewrite Hnodes in Hp. fold r' in Hp.
    destruct (read_fleet e nodes). repeat case_match; simplify_eq/=; done. }
  assert (Ledger.wf_request r' ∧ 0 < Ledger.RAMMB r' ∧ Ledger.VCPU r' = Ledger.VCPU r ∧
          Ledger.req_admissionMB r' = Ledger.req_admissionMB r) as (Hwf' & Hram' & HV & HA).
  { unfold r'. destruct (negb _); [|done]. destruct Hwf. split_and!; done. }
  destruct (ChoosePlacement_cases (read_fleet e nodes).1 (read_fleet e nodes).2 nodes r' Hram')
    as [(n & Hn & Hin & Hf & _)|(err & Herr & _)]; [|congruence].
  rewrite Hc in Hn. injection Hn as ->. apply fits_roomy in Hf as (_ & Hc0 & Hb0 & Hfv & Hfm); try done.
  destruct (read_fleet_spec e nodes n Hin) as [Hu Hvu]. destruct (Hceil n Hin).
  rewrite HV in *. rewrite HA in *. rewrite Hu in Hfm. rewrite Hvu in Hfv. specialize (Hfv Hcpu).
  pose proof (live_floor e (ID n) rep Hok Hrep Hstore) as Hfl.
  assert (Ledger.wf_request (placed_request r (placement_of (read_fleet e nodes).1 n))) as Hwfp.
  { destruct Hwf. constructor; try done; simpl; unfold Ledger.admit_ceiling, Ledger.admit_vcpuCeiling;
      simpl; split_ifs; breflect; lia. }
  destruct (Ledger.Admit_refines _ _ Hok' Hwfp) as [_ Hs%(f_equal snd)].
  simpl in Hs. rewrite Hs.
  apply spec_admit_no_capacity; simpl; unfold Ledger.admit_ceiling, Ledger.admit_vcpuCeiling; simpl.
  - rewrite <- (Ledger.ok_ram _ Hok'). apply Z.leb_gt in Hc0 as ->.
    unfold Ledger.req_admissionMB in *; simpl in *. lia.
  - rewrite <- (Ledger.ok_vcpu _ Hok'). apply Z.leb_gt in Hb0 as ->. simpl in *. lia.
Qed.

(** C8: placement and admission agree. Between the choice of a node and the [Admit] that follows,
    other goroutines may run any ledger operations [os]. When the chosen node has a fresh capacity
    report, however low, the [Admit] is refused for RAM or vCPU only if one of those operations was
    a competing admission on the chosen node; with none, the node the engine picked has room. *)
Theorem placement_implies_admission e r p rep nodes os :
  (∀ r', Ledger.OpAdmit r' ∈ os → Ledger.wf_request r') →
  Ledger.ledger_ok (ledger e) → Ledger.wf_request r → 0 < Ledger.RAMMB r → 0 < Ledger.VCPU r →
  ActiveComputeNodes e = Some nodes →
  wf_used (read_fleet e nodes).1 → wf_used (read_fleet e nodes).2 →
  (∀ n, n ∈ nodes → AdmissionCeilingMB n ≤ Ledger.ram_max ∧ VCPUBudget n ≤ Ledger.ram_max) →
  (∀ z, ComputeNodeUsedMB e (pNodeID p) = Some z → 0 ≤ z) →
  choosePlacementLocked e r = inr p →
  Capacity.Lookup (capacityTable e) (pNodeID p) (now e) = Some rep →
  is_capacity_error (Ledger.Admit (Ledger.run_ops (ledger e) os) (placed_request r p)).2 = true →
  ∃ r', Ledger.OpAdmit r' ∈ os ∧ Ledger.NodeID r' = pNodeID p.
Proof.
  intros Hos Hok Hwf Hram Hcpu Hnodes Hm Hv Hceil Hstore Hp Hrep Hcap.
  destruct (existsb (admits_on (pNodeID p)) os) eqn:Hx.
  - apply existsb_exists in Hx as ([r'| |] & Hin%list_elem_of_In & Hn); [|done|done].
    exists r'. by split; [|apply String.eqb_eq].
  - rewrite (quiet_window_room e r p rep nodes os) in Hcap; try done.
    intros o Ho. destruct (admits_on (pNodeID p) o) eqn:E; [|done].
    rewrite <- Hx. symmetry. apply existsb_exists. exists o. by rewrite <- list_elem_of_In.
Qed.

(** A fleet of two nodes where n1 under-reports its usage. *)
Definition sample_view (owner : string) (used1 : Z) : EngineView :=
  mkView owner
    (Capacity.Replace Capacity.newNodeCapacityTable 0 (Capacity.sample_report "n1" used1))
    Second (Ledger.Admit Ledger.NewNodeLedger (Ledger.sample_request "i0" "n1")).1
    (λ _, Some owner)
    (Some [sample_node "n1" 4096; sample_node "n2" 2048])
    (λ _, Some 0) (λ _, None).

Definition other_request : Ledger.Request :=
  Ledger.mkReq "i1" "app2" "dep" PlanFree 128 [] 1 1 Ledger.KindWake EmptyString EmptyString
    EmptyString 0 0.

Lemma wf_used_pair a b x y :
  0 ≤ x < Ledger.ram_max → 0 ≤ y < Ledger.ram_max → wf_used (<[a := x]> (<[b := y]> ∅)).
Proof.
  intros Hx Hy k. unfold zget. destruct (decide (a = k)) as [->|]; [by rewrite lookup_insert_eq|].
  rewrite lookup_insert_ne by done. destruct (decide (b = k)) as [->|];
    [by rewrite lookup_insert_eq|by rewrite lookup_insert_ne, lookup_empty].
Qed.

(** Another app's instance is admitted on n1 in the window, which is then too small. *)
Lemma placement_implies_admission_witness :
  let p := mkPlacement "n1" "n1" "unix:///run/vmmd.sock" 4096 8 136 in
  let big := Ledger.mkReq "i7" "app7" "dep" PlanFree 3900 [] 1 1 Ledger.KindWake "n1" EmptyString
               EmptyString 4096 8 in
  choosePlacementLocked (sample_view "n1" 1) other_request = inr p ∧
  ∃ r', Ledger.OpAdmit r' ∈ [Ledger.OpRelease "i5"; Ledger.OpAdmit big] ∧ Ledger.NodeID r' = "n1"%string.
Proof.
  intros p big. split; [by vm_compute|].
  eapply (placement_implies_admission (sample_view "n1" 1) other_request p
            (Capacity.sample_report "n1" 1) [sample_node "n1" 4096; sample_node "n2" 2048]).
  - intros r'. rewrite !elem_of_cons, elem_of_nil. intros [?|[[= ->]|[]]]; [done|].
    by constructor; vm_compute.
  - apply Ledger.Admit_refines; [apply Ledger.NewNodeLedger_ok|apply Ledger.sample_request_wf].
  - by constructor; vm_compute.
  - done.
  - done.
  - done.
  - apply (wf_used_pair "n2" "n1" 0 136); unfold Ledger.ram_max; lia.
  - apply (wf_used_pair "n2" "n1" 0 1); unfold Ledger.ram_max; lia.
  - intros n. unfold Ledger.ram_max. rewrite !elem_of_cons, elem_of_nil.
    intros [->|[->|[]]]; simpl; lia.
  - intros z [= <-]. lia.
  - by vm_compute.
  - by vm_compute.
  - by vm_compute.
Defined.

(** the owner pin is only a hint. When the scheduler's own node has no headroom left for the
    request, the choice moves to a node of another scheduler instead of failing, although the
    owner check passed. *)
Theorem owner_pin_escapes :
  let big := Ledger.mkReq "i1" "app2" "dep" PlanPro 1024 [] 1 1 Ledger.KindWake EmptyString
               EmptyString EmptyString 0 0 in
  let e := sample_view "n1" 4000 in
  Ledger.wf_request big ∧
  match choosePlacementLocked e big with
  | inr p => pNodeID p = "n2"%string ∧ pNodeID p ≠ ownerNodeID e
  | inl _ => False
  end.
Proof. split; [by constructor; vm_compute|by vm_compute]. Qed.

(** The first match of a search on a sorted slice is its least element. *)
Lemma find_sorted {A} (less : A → A → bool) `{!WeakOrder less} P l x :
  List.find P (go_sort less l) = Some x →
  x ∈ l ∧ P x = true ∧ ∀ y, y ∈ l → P y = true → less y x = false.
Proof.
  intros Hf. pose proof (go_sort_sorted less l) as Hs. pose proof (elem_of_go_sort less l) as He.
  setoid_rewrite <- He. revert Hf Hs. generalize (go_sort less l). clear He l.
  intros l. induction l as [|a l IH]; [done|]. simpl. intros Hf [Hs Hall]%StronglySorted_inv.
  destruct (P a) eqn:Ea.
  - injection Hf as ->. split; [by left|]. split; [done|].
    intros y [->|Hy]%elem_of_cons _.
    + destruct (less x x) eqn:E; [|done]. by rewrite (less_asym _ _ E) in E.
    + rewrite Forall_forall in Hall. apply Hall; rewrite <- ?list_elem_of_In; done.
  - destruct (IH Hf Hs) as (Hx & HP & Hmin). split; [by right|]. split; [done|].
    intros y [->|Hy]%elem_of_cons HPy; [congruence|eauto].
Qed.

Lemma find_sorted_none {A} (less : A → A → bool) `{!WeakOrder less} P l :
  List.find P (go_sort less l) = None → ∀ y, y ∈ l → P y = false.
Proof.
  intros Hf y Hy%(elem_of_go_sort less). rewrite list_elem_of_In in Hy.
  by apply (find_none _ _ Hf).
Qed.

#[export] Instance name_less_order : WeakOrder name_less.
Proof. apply (key_weak Name), _. Qed.

(** the rebalancer's peer search never returns the scheduler's own node; a returned peer is
    active, its usage was readable, its headroom covers the app's RAM plus the per-VM overhead, and
    no qualifying peer has a smaller name; the empty answer means no peer qualifies. *)
Theorem peer_search_correct e ram nodes res :
  ActiveComputeNodes e = Some nodes → findPeerWithHeadroom e ram = inr res →
  (∀ n, n ∈ nodes → ID n ≠ EmptyString) →
  let ceiling n := if AdmissionCeilingMB n <=? 0 then RAMAdmissionCeilingMB
                   else AdmissionCeilingMB n in
  let ok n := ID n ≠ ownerNodeID e ∧
              ∃ used, ComputeNodeUsedMB e (ID n) = Some used ∧
                      ram +! PerVMOverheadMB ≤ ceiling n -! used in
  if String.eqb res EmptyString then ∀ n, n ∈ nodes → ¬ ok n
  else ∃ n, n ∈ nodes ∧ ID n = res ∧ ok n ∧
            ∀ m, m ∈ nodes → ok m → str_ltb (Name m) (Name n) = false.
Proof.
  intros Hn Hf Hid ceiling ok. unfold findPeerWithHeadroom in Hf. rewrite Hn in Hf.
  set (q := λ n, negb (String.eqb (ID n) (ownerNodeID e)) && _) in Hf.
  assert (∀ n, q n = true ↔ ok n) as Hq.
  { intros n. unfold q, ok, ceiling. rewrite andb_true_iff, negb_true_iff, String.eqb_neq.
    destruct (ComputeNodeUsedMB e (ID n)) as [u|]; [rewrite Z.leb_le|]; naive_solver. }
  injection Hf as <-. destruct (List.find q _) as [n|] eqn:E.
  - apply find_sorted in E as (Hin & Hqn & Hmin); [|apply _].
    pose proof (Hid n Hin) as ->%String.eqb_neq. exists n.
    split_and!; [done|done|by apply Hq|]. intros m Hm Hokm. by apply Hmin, Hq.
  - simpl. intros n Hin Hokn. apply Hq in Hokn. by rewrite (find_sorted_none _ _ _ E n Hin) in Hokn.
Qed.

Lemma peer_search_correct_witness :
  findPeerWithHeadroom (sample_view "n1" 0) 1000 = inr "n2"%string ∧
  ∃ n, ID n = "n2"%string ∧ ID n ≠ "n1"%string.
Proof.
  split; [by vm_compute|].
  destruct (peer_search_correct (sample_view "n1" 0) 1000
              [sample_node "n1" 4096; sample_node "n2" 2048] "n2") as (n & _ & Hid & [Hne _] & _).
  - done.
  - by vm_compute.
  - intros n. rewrite !elem_of_cons, elem_of_nil. by intros [->|[->|[]]].
  - by exists n.
Defined.
End Placement.
