(* ===== verification/InstanceStore.v ===== *)
(** * pkg/state: the instances table

    Models the instance-row operations of src/pkg/state/memstore.go that the
    scheduler writes through, as functions on the table ([None] or an error value
    is the Go error).  The state column is the [State] of Machine.v.  A MemStore
    method holds the store mutex for its whole body, so each is one step. *)

From S2P Require Import Prelude Machine.

Module Store.

Record Instance := mkIns {
  ID : string;
  AppID : string;
  DeploymentID : string;
  IState : State;
  Runtime : string * string * Z;     (* Netns, HostIP, GuestUID *)
  RAMMB : Z;
  StartedAt : Time;
  LastRequestAt : Time;
  ParkedAt : Time;
  TerminalAt : option Time;
  NodeID : string;
  WakeID : string;
  MigratedFromNodeID : option string;
  MigratedAt : option Time;
  LeaseToken : string;
  FrameworkReadyAt : option Time;
  TailCount : Z;
  RequestCount : Z;
}.

#[global] Instance Instance_eq_dec : EqDecision Instance.
Proof. solve_decision. Defined.

Abbreviation table := (gmap string Instance).

Inductive store_error := ErrNotFound | ErrConflict | ErrInvalid (what : string).

(** Field updates. *)
Definition set_state (s : State) (i : Instance) : Instance :=
  mkIns (ID i) (AppID i) (DeploymentID i) s (Runtime i) (RAMMB i) (StartedAt i) (LastRequestAt i)
    (ParkedAt i) (TerminalAt i) (NodeID i) (WakeID i) (MigratedFromNodeID i) (MigratedAt i)
    (LeaseToken i) (FrameworkReadyAt i) (TailCount i) (RequestCount i).
Definition set_parked (t : Time) (i : Instance) : Instance :=
  mkIns (ID i) (AppID i) (DeploymentID i) (IState i) (Runtime i) (RAMMB i) (StartedAt i)
    (LastRequestAt i) t (TerminalAt i) (NodeID i) (WakeID i) (MigratedFromNodeID i) (MigratedAt i)
    (LeaseToken i) (FrameworkReadyAt i) (TailCount i) (RequestCount i).
Definition set_terminal (t : Time) (i : Instance) : Instance :=
  mkIns (ID i) (AppID i) (DeploymentID i) (IState i) (Runtime i) (RAMMB i) (StartedAt i)
    (LastRequestAt i) (ParkedAt i) (Some t) (NodeID i) (WakeID i) (MigratedFromNodeID i)
    (MigratedAt i) (LeaseToken i) (FrameworkReadyAt i) (TailCount i) (RequestCount i).
Definition set_runtime (r : string * string * Z) (t : Time) (i : Instance) : Instance :=
  mkIns (ID i) (AppID i) (DeploymentID i) (IState i) r (RAMMB i) t
    (LastRequestAt i) (ParkedAt i) (TerminalAt i) (NodeID i) (WakeID i) (MigratedFromNodeID i)
    (MigratedAt i) (LeaseToken i) (FrameworkReadyAt i) (TailCount i) (RequestCount i).
Definition set_tail (n : Z) (i : Instance) : Instance :=
  mkIns (ID i) (AppID i) (DeploymentID i) (IState i) (Runtime i) (RAMMB i) (StartedAt i)
    (LastRequestAt i) (ParkedAt i) (TerminalAt i) (NodeID i) (WakeID i) (MigratedFromNodeID i)
    (MigratedAt i) (LeaseToken i) (FrameworkReadyAt i) n (RequestCount i).
Definition set_touch (t : Time) (delta : Z) (i : Instance) : Instance :=
  mkIns (ID i) (AppID i) (DeploymentID i) (IState i) (Runtime i) (RAMMB i) (StartedAt i)
    t (ParkedAt i) (TerminalAt i) (NodeID i) (WakeID i) (MigratedFromNodeID i)
    (MigratedAt i) (LeaseToken i) (FrameworkReadyAt i) (TailCount i) (RequestCount i +! delta).
Definition set_lease (tok : string) (i : Instance) : Instance :=
  mkIns (ID i) (AppID i) (DeploymentID i) (IState i) (Runtime i) (RAMMB i) (StartedAt i)
    (LastRequestAt i) (ParkedAt i) (TerminalAt i) (NodeID i) (WakeID i) (MigratedFromNodeID i)
    (MigratedAt i) tok (FrameworkReadyAt i) (TailCount i) (RequestCount i).
Definition set_migrated (t : Time) (i : Instance) : Instance :=
  mkIns (ID i) (AppID i) (DeploymentID i) (IState i) (Runtime i) (RAMMB i) (StartedAt i)
    (LastRequestAt i) (ParkedAt i) (TerminalAt i) (NodeID i) (WakeID i) (MigratedFromNodeID i)
    (Some t) (LeaseToken i) (FrameworkReadyAt i) (TailCount i) (RequestCount i).
Definition set_owner (to from : string) (t : Time) (i : Instance) : Instance :=
  mkIns (ID i) (AppID i) (DeploymentID i) (IState i) (Runtime i) (RAMMB i) (StartedAt i)
    (LastRequestAt i) (ParkedAt i) (TerminalAt i) to (WakeID i) (Some from) (Some t)
    (LeaseToken i) (FrameworkReadyAt i) (TailCount i) (RequestCount i).

(** ** Reads *)

Definition InstanceByID (m : table) (id : string) : option Instance := m !! id.

(** Map iteration order is unspecified in Go; the model uses the order of
    [map_to_list], which matters only for equal StartedAt values. *)
Definition RunningInstanceForApp (m : table) (appID : string) : option Instance :=
  foldl (λ newest ins,
           if negb (String.eqb (AppID ins) appID) || negb (State_eqb (IState ins) StateRunning)
           then newest
           else match newest with
                | None => Some ins
                | Some n => if StartedAt n <? StartedAt ins then Some ins else newest
                end)
        None (map_to_list m).*2.

Definition ListInstancesForApp (m : table) (appID : string) : list Instance :=
  go_sort (λ a b, StartedAt b <? StartedAt a)
    (filter (λ ins, AppID ins = appID) (map_to_list m).*2).

(** The watchdog's age anchor: parked_at while snapshotting, started_at otherwise. *)
Definition age_anchor (ins : Instance) : Time :=
  if State_eqb (IState ins) StateSnapshotting then ParkedAt ins else StartedAt ins.

Definition ListInstancesByStatesOlderThan (m : table) (states : list State) (threshold : Time)
  : list Instance :=
  filter (λ ins,
            IState ins ∈ states ∧ age_anchor ins ≠ zero_time ∧ age_anchor ins < threshold)
         (map_to_list m).*2.

Definition GetInstanceTailCount (m : table) (id : string) : option Z :=
  (λ i, i32 (TailCount i)) <$> m !! id.

(** ** Writes *)

(** [newID] and [now] are the fresh id and the clock the method reads; the wake id
    is non-empty on every scheduler path. *)
Definition CreateInstance (m : table) (newID : string) (now : Time)
    (appID deploymentID : string) (st : State) (ramMB : Z) (nodeID wakeID : string)
  : Instance * table :=
  let ins := mkIns newID appID deploymentID st (EmptyString, EmptyString, 0) ramMB now zero_time
               zero_time None nodeID wakeID None None EmptyString None 0 0 in
  (ins, <[newID := ins]> m).

Definition UpdateInstanceState (m : table) (id : string) (s : State) : option table :=
  match m !! id with
  | None => None
  | Some ins => Some (<[id := set_state s ins]> m)
  end.

Definition UpdateInstanceStateWithTimestamp (m : table) (id : string) (s : State) (parkedAt : Time)
  : option table :=
  match m !! id with
  | None => None
  | Some ins => Some (<[id := set_parked parkedAt (set_state s ins)]> m)
  end.

Definition UpdateInstanceStateToTerminal (m : table) (id : string) (s : State) (terminalAt : Time)
  : option table :=
  match m !! id with
  | None => None
  | Some ins => Some (<[id := set_terminal terminalAt (set_state s ins)]> m)
  end.

Definition SetInstanceRuntime (m : table) (id : string) (r : string * string * Z) (now : Time)
  : option table :=
  match m !! id with
  | None => None
  | Some ins => Some (<[id := set_runtime r now ins]> m)
  end.

Definition DeleteInstance (m : table) (id : string) : option table :=
  match m !! id with None => None | Some _ => Some (delete id m) end.

Definition DecrementInstanceTailCount (m : table) (id : string) (n : Z) : option table :=
  match m !! id with
  | None => None
  | Some ins =>
      if n <=? 0 then Some m
      else if TailCount ins <=? n then Some (<[id := set_tail 0 ins]> m)
      else Some (<[id := set_tail (TailCount ins -! n) ins]> m)
  end.

Definition BumpInstanceTailCount (m : table) (id : string) (delta : Z) : option (Z * table) :=
  match m !! id with
  | None => None
  | Some ins =>
      let post := TailCount ins +! delta in
      let post := if post <? 0 then 0 else post in
      Some (i32 post, <[id := set_tail post ins]> m)
  end.

(** The touch batches: (instance, last request, delta). *)
Definition touch_with (f : Time → Z → Instance → Instance) (m : table)
    (touches : list (string * Time * Z)) : Z * table :=
  foldl (λ '(applied, m) '(id, t, d),
           match m !! id with
           | None => (applied, m)
           | Some ins => (applied +! 1, <[id := f t d ins]> m)
           end) (0, m) touches.

Definition TouchInstancesLastSeen (m : table) (touches : list (string * Time * Z)) : Z * table :=
  touch_with (λ t _, set_touch t 0) m touches.

Definition TouchInstancesWithRequestDelta (m : table) (touches : list (string * Time * Z))
  : Z * table :=
  touch_with (λ t d, set_touch t d) m touches.

(** ** Migration writes: compare-and-set on the row *)

Definition MarkInstanceMigrating (m : table) (instanceID currentNodeID leaseToken : string)
  : store_error + table :=
  if String.eqb instanceID EmptyString then inl (ErrInvalid "instanceID")
  else if String.eqb currentNodeID EmptyString then inl (ErrInvalid "currentNodeID")
  else if String.eqb leaseToken EmptyString then inl (ErrInvalid "leaseToken")
  else
  match m !! instanceID with
  | None => inl ErrNotFound
  | Some ins =>
      if negb (String.eqb (NodeID ins) currentNodeID) || negb (State_eqb (IState ins) StateRunning)
      then inl ErrConflict
      else inr (<[instanceID := set_lease leaseToken (set_state StateMigrating ins)]> m)
  end.

Definition MigrateInstanceOwner (m : table) (now : Time)
    (instanceID fromNodeID toNodeID leaseToken : string) : store_error + table :=
  if String.eqb instanceID EmptyString then inl (ErrInvalid "instanceID")
  else if String.eqb fromNodeID EmptyString || String.eqb toNodeID EmptyString
  then inl (ErrInvalid "from/to nodeID")
  else
  match m !! instanceID with
  | None => inl ErrNotFound
  | Some ins =>
      if negb (State_eqb (IState ins) StateMigrating) || negb (String.eqb (NodeID ins) fromNodeID)
      then inl ErrConflict
      else inr (<[instanceID := set_state StateRunning
                    (set_lease leaseToken (set_owner toNodeID fromNodeID now ins))]> m)
  end.

Definition CancelInstanceMigration (m : table) (instanceID originalNodeID leaseToken : string)
  : store_error + table :=
  if String.eqb instanceID EmptyString then inl (ErrInvalid "instanceID")
  else if String.eqb originalNodeID EmptyString then inl (ErrInvalid "originalNodeID")
  else
  match m !! instanceID with
  | None => inl ErrNotFound
  | Some ins =>
      if negb (State_eqb (IState ins) StateMigrating)
         || negb (String.eqb (NodeID ins) originalNodeID)
         || negb (String.eqb (LeaseToken ins) leaseToken)
      then inl ErrConflict
      else inr (<[instanceID := set_lease EmptyString (set_state StateParked ins)]> m)
  end.

(** ** The migration and dead-node reconcilers' reads and writes *)

(** Go ranges over the map in no fixed order; the model uses the map's list. *)
Definition ListLiveInstancesOnNode (m : table) (nodeID : string) (maxPerTick : Z) : list Instance :=
  if maxPerTick <? 1 then []
  else take (Z.to_nat maxPerTick)
         (filter (λ ins, IState ins = StateRunning ∧ (nodeID = EmptyString ∨ NodeID ins = nodeID))
            (map_to_list m).*2).

Definition ListExpiredMigrations (m : table) (maxPerTick : Z) : list Instance :=
  if maxPerTick <? 1 then []
  else take (Z.to_nat maxPerTick)
         (go_sort (λ a b, str_ltb (ID a) (ID b))
            (filter (λ ins, IState ins = StateMigrating ∧ LeaseToken ins ≠ EmptyString)
               (map_to_list m).*2)).

Definition ReinviteMigratingInstance (m : table) (now : Time) (instanceID leaseToken : string)
  : store_error + table :=
  if String.eqb instanceID EmptyString then inl (ErrInvalid "instanceID")
  else if String.eqb leaseToken EmptyString then inl (ErrInvalid "leaseToken")
  else
  match m !! instanceID with
  | None => inl ErrNotFound
  | Some ins =>
      if negb (State_eqb (IState ins) StateMigrating) || negb (String.eqb (LeaseToken ins) leaseToken)
      then inl ErrConflict
      else inr (<[instanceID := set_lease EmptyString
                    (set_migrated now (set_state StateRunning ins))]> m)
  end.

Definition AbortMigratingInstance (m : table) (instanceID leaseToken : string)
  : store_error + table :=
  if String.eqb instanceID EmptyString then inl (ErrInvalid "instanceID")
  else if String.eqb leaseToken EmptyString then inl (ErrInvalid "leaseToken")
  else
  match m !! instanceID with
  | None => inl ErrNotFound
  | Some ins =>
      if negb (State_eqb (IState ins) StateMigrating) || negb (String.eqb (LeaseToken ins) leaseToken)
      then inl ErrConflict
      else inr (<[instanceID := set_lease EmptyString (set_state StateParked ins)]> m)
  end.

(** [nodes] is compute_nodes: whether a node is active, and its last heartbeat. *)
Definition node_dead (nodes : string → option (bool * Time)) (threshold : Time) (ins : Instance)
  : bool :=
  match nodes (NodeID ins) with
  | Some (active, hb) => negb (active && negb (hb <? threshold))
  | None => true
  end.

Definition heartbeat (nodes : string → option (bool * Time)) (ins : Instance) : Time :=
  match nodes (NodeID ins) with Some (_, hb) => hb | None => zero_time end.

(** Oldest heartbeat first, ties by id; [None] is the limit error. *)
Definition ListRunningInstancesOnDeadNodes (m : table) (nodes : string → option (bool * Time))
    (threshold : Time) (limit : Z) : option (list Instance) :=
  if limit <=? 0 then None
  else Some (take (Z.to_nat limit)
         (go_sort (λ a b, if heartbeat nodes a =? heartbeat nodes b then str_ltb (ID a) (ID b)
                          else heartbeat nodes a <? heartbeat nodes b)
            (filter (λ ins, IState ins = StateRunning ∧ node_dead nodes threshold ins = true)
               (map_to_list m).*2))).

Definition FailRunningInstanceOnDeadNode (m : table) (now : Time) (instanceID nodeID : string)
  : store_error + table :=
  if String.eqb instanceID EmptyString then inl (ErrInvalid "instanceID")
  else if String.eqb nodeID EmptyString then inl (ErrInvalid "nodeID")
  else
  match m !! instanceID with
  | None => inl ErrConflict
  | Some ins =>
      if negb (State_eqb (IState ins) StateRunning) || negb (String.eqb (NodeID ins) nodeID)
      then inl ErrConflict
      else inr (<[instanceID := set_terminal now (set_state StateFailed ins)]> m)
  end.

(** Engine.ReportActivity: the delta path only when some touch carries a delta. *)
Definition ReportActivity (m : table) (touches : list (string * Time * Z)) : Z * table :=
  if existsb (λ t, negb (t.2 =? 0)) touches then TouchInstancesWithRequestDelta m touches
  else TouchInstancesLastSeen m touches.

(** The table's keys are the rows' ids. *)
Definition keyed (m : table) : Prop := ∀ id ins, m !! id = Some ins → ID ins = id.

(** ** Theorems *)

(** Selecting rows of a keyed table: the selection has distinct ids and holds the table's rows. *)
Lemma rows_nodup (P : Instance → Prop) `{!∀ x, Decision (P x)} m :
  keyed m → NoDup (ID <$> filter P (map_to_list m).*2).
Proof.
  intros Hk. eapply sublist_NoDup; [|apply (fmap_sublist _), sublist_filter].
  rewrite <- list_fmap_compose. erewrite list_fmap_ext; [apply (NoDup_fst_map_to_list m)|].
  intros i [k v] Hi. apply list_elem_of_lookup_2, elem_of_map_to_list in Hi. simpl. by apply Hk.
Qed.

Lemma elem_of_rows (P : Instance → Prop) `{!∀ x, Decision (P x)} m x :
  keyed m → x ∈ filter P (map_to_list m).*2 ↔ P x ∧ m !! ID x = Some x.
Proof.
  intros Hk. rewrite list_elem_of_filter, list_elem_of_fmap. split.
  - intros [? ([k v] & -> & Hv)]. apply elem_of_map_to_list in Hv. simpl in *. by rewrite (Hk _ _ Hv).
  - intros [? ?]. split; [done|]. exists (ID x, x). by rewrite elem_of_map_to_list.
Qed.

Lemma elem_of_ListInstancesForApp m appID ins :
  keyed m → ins ∈ ListInstancesForApp m appID ↔ m !! ID ins = Some ins ∧ AppID ins = appID.
Proof.
  intros Hk. unfold ListInstancesForApp. rewrite elem_of_go_sort, elem_of_rows by done. tauto.
Qed.

(** A successful migration write, whichever of the three it is. *)
Definition migration_write (m : table) (now : Time) (id from to tok : string) (m' : table) : Prop :=
  MarkInstanceMigrating m id from tok = inr m' ∨
  MigrateInstanceOwner m now id from to tok = inr m' ∨
  CancelInstanceMigration m id from tok = inr m'.

(** the migration writes are compare-and-set steps of the state machine: a write succeeds only on
    a row that is on the expected node, it moves that row along a legal edge, the new owner is the
    requested destination exactly for the commit, and no other row changes. *)
Theorem migration_writes_legal m now id from to tok m' :
  migration_write m now id from to tok m' →
  ∃ ins ins',
    m !! id = Some ins ∧ NodeID ins = from ∧ m' = <[id := ins']> m ∧
    edge (IState ins) (IState ins') ∧
    (NodeID ins' = if State_eqb (IState ins') StateRunning then to else from) ∧
    RAMMB ins' = RAMMB ins ∧ AppID ins' = AppID ins.
Proof.
  intros [H|[H|H]]; unfold MarkInstanceMigrating, MigrateInstanceOwner, CancelInstanceMigration in H;
    repeat (case_match; simplify_eq/=); breflect; unfold State_eqb in *; breflect;
    eexists _, _; split_and!; try done; simpl; destruct_and?; subst; try (constructor; done);
    match goal with E : IState _ = _ |- _ => rewrite E end; by constructor.
Qed.

Definition sample_row (id : string) (s : State) (node : string) : Instance :=
  mkIns id "app" "dep" s (EmptyString, EmptyString, 0) 4000 Second zero_time zero_time None node "w1"
        None None "lease" None 0 0.

Lemma migration_writes_legal_witness :
  let row := sample_row "i1" StateMigrating "n1" in
  let m := <["i1"%string := row]> ∅ in
  ∃ m' ins', MigrateInstanceOwner m 0 "i1" "n1" "n2" "t" = inr m' ∧
             m' = <["i1"%string := ins']> m ∧ edge StateMigrating (IState ins').
Proof.
  intros row m. assert (∃ m', MigrateInstanceOwner m 0 "i1" "n1" "n2" "t" = inr m') as [m' Hm'].
  { eexists. vm_compute. reflexivity. }
  destruct (migration_writes_legal m 0 "i1" "n1" "n2" "t" m')
    as (ins & ins' & Hl & _ & Hm & He & _); [right; left; exact Hm'|].
  assert (m !! "i1"%string = Some row) as Hr by (vm_compute; reflexivity).
  rewrite Hr in Hl. injection Hl as <-.
  exists m', ins'. split; [exact Hm'|]. split; [exact Hm|exact He].
Defined.

(** touch batches are additive, so re-delivering one counts its requests twice; only batches
    without deltas are idempotent. *)
Theorem touch_redelivery_counts_twice :
  let m := <["i1" := sample_row "i1" StateRunning "n1"]> ∅ in
  let batch := [("i1"%string, 5 * Second, 3)] in
  RequestCount <$> (ReportActivity m batch).2 !! "i1"%string = Some 3 ∧
  RequestCount <$> (ReportActivity (ReportActivity m batch).2 batch).2 !! "i1"%string = Some 6.
Proof. by vm_compute. Qed.
End Store.
