(* ===== verification/Engine.v ===== *)
(** * pkg/sched: the engine's instance lifecycle

    Models the state-changing methods of src/pkg/sched/engine.go that act on one
    instance row: transitionWithKind, KillStuck, lockedRunning, Park, Evict,
    snapshotAndPark and its warm capture, DestroyForLivenessFailure, SeedLedger,
    and the watchdog sweep of watchdog.go.

    A method is a computation on [world]: the instances table, the admission
    ledger, the set of held per-app mutexes, the set of microVMs that exist, and
    the audit rows.  [history] is a ghost component that no operation reads: it
    lists the instances table after each committed write, so that theorems can
    speak about every single write and not only about the last table.  External
    calls (store and vmmd) may fail: each consumes one bit of [faults], so a
    theorem that quantifies over the world covers every failure pattern.  Acquiring a held mutex, or releasing a free one, has no
    result ([None]): the goroutine is blocked (or the process is dead). *)

From S2P Require Import Prelude Api Machine Admission InstanceStore.

Declare Scope engine_scope.

Module Engine.

(** ** Parameters read from other tables *)

Record App := mkApp {
  aID : string;
  aAccountID : string;
  aRAMMB : Z;
  aMaxConcurrency : Z;
  aWorker : bool;                      (* WorkloadClass == worker *)
  aEvictedCold : bool;                 (* Status == evicted_cold *)
  aMinInstances : Z;
  aPolicy : option (Z * Z);            (* ScalingPolicy: MinInstances, ScaleOutCooldownS *)
  aLastScaleOutAt : option Time;
  aWarmSnapshotEnabled : bool;
  aWarmSnapshotMinMs : Z;
  aWarmSnapshotMinRequests : Z;
}.

Record Snapshot := mkSnap {
  sID : string;
  sStale : bool;
  sFCVersion : string;
  sStorageKey : string;
}.

(** ** The watchdog's reasons *)

Inductive StuckReason := StuckWakingTimeout | StuckColdBootTimeout | StuckSnapshotTimeout
                       | StuckOther (s : string).

#[export] Instance StuckReason_eq_dec : EqDecision StuckReason.
Proof. solve_decision. Defined.

Definition expectedStateForReason (r : StuckReason) : State :=
  match r with
  | StuckWakingTimeout => StateWaking
  | StuckColdBootTimeout => StateColdBooting
  | StuckSnapshotTimeout => StateSnapshotting
  | StuckOther _ => StateOther EmptyString
  end.

Definition terminalStateForReason (r : StuckReason) : State :=
  match r with
  | StuckWakingTimeout => StateColdBooting
  | StuckColdBootTimeout => StateFailed
  | StuckSnapshotTimeout => StateStopped
  | StuckOther _ => StateOther EmptyString
  end.

Definition reason_string (r : StuckReason) : string :=
  match r with
  | StuckWakingTimeout => "waking_timeout"
  | StuckColdBootTimeout => "cold_boot_timeout"
  | StuckSnapshotTimeout => "snapshot_timeout"
  | StuckOther s => s
  end.

(** The sweep budgets of watchdog.go. *)
Definition WakingSweepBudget : Duration := 5 * Second.
Definition ColdBootSweepBudget : Duration := 30 * Second.
Definition SnapshotSweepBudget : Duration := 20 * Second.

(** ** Configuration

    The default node and the tables the engine only reads: whether a deployment has a live snapshot,
    apps, account plans, the snapshot of a tier, the app of a deployment, and a node's admission
    ceiling and vCPU budget. *)
Class Config := {
  defaultLocalNodeID : string;
  hasSnapshot : string → bool;
  AppByID : string → option App;
  PlanOf : string → option string;
  LatestSnapshotForTier : string → string → option Snapshot;
  AppOfDeployment : string → option string;
  ComputeNodeByID : string → option (Z * Z);
}.

(** A lease a vmmd minted for an instance it handed over, in its in-memory tracker. *)
Record activeMigration := mkMig {
  mInstanceID : string;
  leaseToken : string;
  createdAt : Time;
  leaseExpiresAt : Time;
  memKey : string;
  vmstateKey : string;
}.

(** ** The world and its monad *)

Section world.
Context {L : Type} `{HL : !Ledger.AdmissionLedger L} {cfg : Config}.

Record world := mkWorld {
  rows : Store.table;
  led : L;
  locked : gset string;
  vms : gset (string * string);        (* (node, instance) *)
  audit : list (string * string * State * State * string);
  depsFailed : list (string * string);    (* deployment, code *)
  parkedDeps : list (string * string);    (* deployment, reason *)
  evictedApps : gset string;              (* apps.status = evicted_cold *)
  staleSnaps : list string;
  scaleOuts : list (string * Time);       (* apps.last_scale_out_at stamps *)
  observedClasses : list (string * string);
  warmRecords : list (string * string * Time);   (* warm-affinity writes: app, node *)
  leases : gmap string (gmap string activeMigration);   (* node -> its vmmd's tracker *)
  history : list Store.table;             (* ghost: the instances table after every write *)
  faults : list bool;
  clock : Time;
}.

Definition set_rows (m : Store.table) (w : world) : world :=
  mkWorld (m) (led w) (locked w) (vms w) (audit w) (depsFailed w) (parkedDeps w) (evictedApps w)
    (staleSnaps w) (scaleOuts w) (observedClasses w) (warmRecords w) (leases w)
    (history w ++ [m]) (faults w) (clock w).
Definition set_led (l : L) (w : world) : world :=
  mkWorld (rows w) (l) (locked w) (vms w) (audit w) (depsFailed w) (parkedDeps w) (evictedApps w)
    (staleSnaps w) (scaleOuts w) (observedClasses w) (warmRecords w) (leases w)
    (history w) (faults w) (clock w).
Definition set_locked (s : gset string) (w : world) : world :=
  mkWorld (rows w) (led w) (s) (vms w) (audit w) (depsFailed w) (parkedDeps w) (evictedApps w)
    (staleSnaps w) (scaleOuts w) (observedClasses w) (warmRecords w) (leases w)
    (history w) (faults w) (clock w).
Definition set_vms (s : gset (string * string)) (w : world) : world :=
  mkWorld (rows w) (led w) (locked w) (s) (audit w) (depsFailed w) (parkedDeps w) (evictedApps w)
    (staleSnaps w) (scaleOuts w) (observedClasses w) (warmRecords w) (leases w)
    (history w) (faults w) (clock w).
Definition add_audit (r : string * string * State * State * string) (w : world) : world :=
  mkWorld (rows w) (led w) (locked w) (vms w) (audit w ++ [r]) (depsFailed w) (parkedDeps w)
    (evictedApps w) (staleSnaps w) (scaleOuts w) (observedClasses w) (warmRecords w) (leases w)
    (history w) (faults w) (clock w).
Definition add_depFailed (r : string * string) (w : world) : world :=
  mkWorld (rows w) (led w) (locked w) (vms w) (audit w) (depsFailed w ++ [r]) (parkedDeps w)
    (evictedApps w) (staleSnaps w) (scaleOuts w) (observedClasses w) (warmRecords w) (leases w)
    (history w) (faults w) (clock w).
Definition add_parked (r : string * string) (w : world) : world :=
  mkWorld (rows w) (led w) (locked w) (vms w) (audit w) (depsFailed w) (parkedDeps w ++ [r])
    (evictedApps w) (staleSnaps w) (scaleOuts w) (observedClasses w) (warmRecords w) (leases w)
    (history w) (faults w) (clock w).
Definition add_evicted (a : string) (w : world) : world :=
  mkWorld (rows w) (led w) (locked w) (vms w) (audit w) (depsFailed w) (parkedDeps w)
    ({[a]} ∪ evictedApps w) (staleSnaps w) (scaleOuts w) (observedClasses w) (warmRecords w)
    (leases w) (history w) (faults w) (clock w).
Definition add_stale (id : string) (w : world) : world :=
  mkWorld (rows w) (led w) (locked w) (vms w) (audit w) (depsFailed w) (parkedDeps w)
    (evictedApps w) (staleSnaps w ++ [id]) (scaleOuts w) (observedClasses w) (warmRecords w)
    (leases w) (history w) (faults w) (clock w).
Definition add_scaleOut (r : string * Time) (w : world) : world :=
  mkWorld (rows w) (led w) (locked w) (vms w) (audit w) (depsFailed w) (parkedDeps w)
    (evictedApps w) (staleSnaps w) (scaleOuts w ++ [r]) (observedClasses w) (warmRecords w)
    (leases w) (history w) (faults w) (clock w).
Definition add_class (r : string * string) (w : world) : world :=
  mkWorld (rows w) (led w) (locked w) (vms w) (audit w) (depsFailed w) (parkedDeps w)
    (evictedApps w) (staleSnaps w) (scaleOuts w) (observedClasses w ++ [r]) (warmRecords w)
    (leases w) (history w) (faults w) (clock w).
Definition add_warm (r : string * string * Time) (w : world) : world :=
  mkWorld (rows w) (led w) (locked w) (vms w) (audit w) (depsFailed w) (parkedDeps w)
    (evictedApps w) (staleSnaps w) (scaleOuts w) (observedClasses w) (warmRecords w ++ [r])
    (leases w) (history w) (faults w) (clock w).
Definition set_faults (l : list bool) (w : world) : world :=
  mkWorld (rows w) (led w) (locked w) (vms w) (audit w) (depsFailed w) (parkedDeps w)
    (evictedApps w) (staleSnaps w) (scaleOuts w) (observedClasses w) (warmRecords w)
    (leases w) (history w) (l) (clock w).
Definition set_leases (m : gmap string (gmap string activeMigration)) (w : world) : world :=
  mkWorld (rows w) (led w) (locked w) (vms w) (audit w) (depsFailed w) (parkedDeps w)
    (evictedApps w) (staleSnaps w) (scaleOuts w) (observedClasses w) (warmRecords w) m
    (history w) (faults w) (clock w).

Definition M (A : Type) : Type := world → option (A * world).

Definition ret {A} (a : A) : M A := λ w, Some (a, w).
Definition bind {A B} (m : M A) (f : A → M B) : M B := λ w,
  match m w with Some (a, w') => f a w' | None => None end.

Notation "x <- m ;; k" := (bind m (λ x, k))
  (at level 100, m at next level, right associativity) : engine_scope.
Notation "m ;; k" := (bind m (λ _, k)) (at level 100, right associativity) : engine_scope.
#[local] Open Scope engine_scope.

Definition reads {A} (f : world → A) : M A := λ w, Some (f w, w).
Definition modify (f : world → world) : M unit := λ w, Some (tt, f w).

(** The outcome of the next external call; once the list is used up calls succeed. *)
Definition fault : M bool := λ w,
  match faults w with
  | [] => Some (false, w)
  | b :: bs => Some (b, set_faults bs w)
  end.

(** ** Calls *)

Definition loadInstance (id : string) : M (option Store.Instance) :=
  f <- fault;; if f then ret None else reads (λ w, Store.InstanceByID (rows w) id).

(** A store write: [true] on success; an error leaves the table as it was. *)
Definition store_write (op : Store.table → option Store.table) : M bool :=
  f <- fault;;
  if f then ret false
  else λ w, match op (rows w) with
            | Some m => Some (true, set_rows m w)
            | None => Some (false, w)
            end.

Definition ledger_Release (id : string) : M unit :=
  modify (λ w, set_led (Ledger.release (led w) id) w).
Definition ledger_BeginSnapshot (id : string) : M unit :=
  modify (λ w, set_led (Ledger.begin_snapshot (led w) id) w).
Definition ledger_Admit (r : Ledger.Request) : M (option Ledger.admit_error) := λ w,
  Some ((Ledger.try_admit (led w) r).2, set_led (Ledger.try_admit (led w) r).1 w).

Definition lockApp (app : string) : M unit := λ w,
  if decide (app ∈ locked w) then None else Some (tt, set_locked ({[app]} ∪ locked w) w).
Definition unlockApp (app : string) : M unit := λ w,
  if decide (app ∈ locked w) then Some (tt, set_locked (locked w ∖ {[app]}) w) else None.

Definition readTable {A} (x : option A) : M (option A) :=
  f <- fault;; if f then ret None else ret x.

Definition nodeForRoute (nodeID : string) : string :=
  if String.eqb nodeID EmptyString then defaultLocalNodeID else nodeID.

(** vmm.Destroy bounded by a timeout: [true] on success, and then the VM is gone. *)
Definition timedDestroy (nodeID instanceID : string) : M bool :=
  f <- fault;;
  if f then ret false
  else modify (λ w, set_vms (vms w ∖ {[(nodeForRoute nodeID, instanceID)]}) w);; ret true.

Definition bestEffortDestroy (nodeID instanceID : string) : M unit :=
  timedDestroy nodeID instanceID;; ret tt.

(** ** Transitions *)

Definition is_terminal (s : State) : bool := State_eqb s StateStopped || State_eqb s StateFailed.

Definition transitionWithKind (instanceID appID : string) (to : State) (kind reason : string)
  : M unit :=
  ins <- loadInstance instanceID;;
  match ins with
  | None => ret tt
  | Some ins =>
      let from := Store.IState ins in
      if State_eqb from to then ret tt
      else if negb (CanTransition from to) then ret tt
      else
      now <- reads clock;;
      ok <- store_write (λ m, if is_terminal to
                             then Store.UpdateInstanceStateToTerminal m instanceID to now
                             else Store.UpdateInstanceState m instanceID to);;
      if negb ok then ret tt
      else
      f <- fault;;
      if f then ret tt else modify (add_audit (kind, instanceID, from, to, reason))
  end.

Definition transition (instanceID appID : string) (to : State) : M unit :=
  transitionWithKind instanceID appID to "state_transition" EmptyString.

(** ** The watchdog *)

(** The body of KillStuck under the app lock. *)
Definition kill_locked (instanceID appID : string) (reason : StuckReason) : M unit :=
  fresh <- loadInstance instanceID;;
  match fresh with
  | None => ledger_Release instanceID
  | Some fresh =>
      if negb (State_eqb (Store.IState fresh) (expectedStateForReason reason))
      then ledger_Release instanceID
      else
      ledger_Release instanceID;;
      timedDestroy (Store.NodeID fresh) instanceID;;
      transitionWithKind instanceID appID (terminalStateForReason reason)
        "watchdog_timeout" (reason_string reason);;
      if bool_decide (reason = StuckColdBootTimeout)
         && negb (String.eqb (Store.DeploymentID fresh) EmptyString)
      then f <- fault;;
           if f then ret tt
           else modify (add_depFailed (Store.DeploymentID fresh, "app_startup_timeout"%string))
      else ret tt
  end.

(** [false] is the unknown-reason error. *)
Definition KillStuck (instanceID appID : string) (reason : StuckReason) : M bool :=
  match reason with
  | StuckOther _ => ret false
  | _ =>
      lockApp appID;;
      kill_locked instanceID appID reason;;
      unlockApp appID;;
      ret true
  end.

(** One bucket of the sweep; [hasSnapshot] is store.LatestSnapshot succeeding for the row's
    deployment. A lookup error skips the bucket. *)
Definition sweep_one (st : State) (reason : StuckReason) (ins : Store.Instance) : M unit :=
  snap <- (if State_eqb st StateWaking && negb (String.eqb (Store.DeploymentID ins) EmptyString)
           then reads (λ w, hasSnapshot (Store.DeploymentID ins)) else ret false);;
  if (snap : bool) then ret tt
  else KillStuck (Store.ID ins) (Store.AppID ins) reason;; ret tt.

Fixpoint for_each {A} (l : list A) (f : A → M unit) : M unit :=
  match l with
  | [] => ret tt
  | x :: l => f x;; for_each l f
  end.

Definition runOne (now : Time) (st : State) (budget : Duration) (reason : StuckReason) : M unit :=
  f <- fault;;
  if f then ret tt
  else
  stuck <- reads (λ w, Store.ListInstancesByStatesOlderThan (rows w) [st] (time_add now (- budget)));;
  for_each stuck (sweep_one st reason).

Definition sweepRuns : M unit :=
  now <- reads clock;;
  runOne now StateWaking WakingSweepBudget StuckWakingTimeout;;
  runOne now StateColdBooting ColdBootSweepBudget StuckColdBootTimeout;;
  runOne now StateSnapshotting SnapshotSweepBudget StuckSnapshotTimeout.

(** ** Park and evict *)

(** [inl tt] is an error, [inr None] "not RUNNING, skip" (lock released), [inr (Some ins)] the row,
    with the app lock held. *)
Definition lockedRunning (instanceID : string) : M (unit + option Store.Instance) :=
  ins <- loadInstance instanceID;;
  match ins with
  | None => ret (inl tt)
  | Some ins =>
      lockApp (Store.AppID ins);;
      fresh <- loadInstance instanceID;;
      match fresh with
      | None => unlockApp (Store.AppID ins);; ret (inl tt)
      | Some fresh =>
          if negb (State_eqb (Store.IState fresh) StateRunning)
          then unlockApp (Store.AppID ins);; ret (inr None)
          else ret (inr (Some fresh))
      end
  end.

(** [true] is a nil error. *)
Definition Evict (instanceID : string) : M bool :=
  r <- lockedRunning instanceID;;
  match r with
  | inl _ => ret false
  | inr None => ret true
  | inr (Some ins) =>
      ok <- timedDestroy (Store.NodeID ins) instanceID;;
      if negb ok then unlockApp (Store.AppID ins);; ret false
      else
      ledger_Release instanceID;;
      transition instanceID (Store.AppID ins) StateStopped;;
      unlockApp (Store.AppID ins);;
      ret true
  end.

(** ** Snapshot and park *)

(** One turn of the tail-drain poll: the caller's context, the deadline, what the counter read
    returned, and the context during the 200 ms sleep. *)
Record tail_poll := mkPoll {
  cancelled : bool;
  expired : bool;
  tail_read : option Z;
  cancelled_asleep : bool;
}.

(** [false] when the caller's context was cancelled. The list is what the polls observe; once it is
    used up the deadline has passed. *)
Fixpoint tail_drain (polls : list tail_poll) (ins : Store.Instance) : M bool :=
  let force :=
    live <- readTable (Some tt);;
    n <- reads (λ w, match live, Store.GetInstanceTailCount (rows w) (Store.ID ins) with
                     | Some _, Some c => if 0 <? c then c else Store.TailCount ins
                     | _, _ => Store.TailCount ins
                     end);;
    store_write (λ m, Store.DecrementInstanceTailCount m (Store.ID ins) (i32 n));;
    ret true in
  match polls with
  | [] => force
  | p :: rest =>
      if cancelled p then ret false
      else if expired p then force
      else match tail_read p with
           | Some c => if c =? 0 then ret true
                       else if cancelled_asleep p then ret false else tail_drain rest ins
           | None => if cancelled_asleep p then ret false else tail_drain rest ins
           end
  end.

(** [true] is a nil error: captured, or a gate kept the capture from running. *)
Definition captureWarmSnapshotLocked (ins : Store.Instance) : M bool :=
  app <- readTable (AppByID (Store.AppID ins));;
  match app with
  | None => ret false
  | Some app =>
      if negb (aWarmSnapshotEnabled app) then ret true
      else
      plan <- readTable (PlanOf (aAccountID app));;
      match plan with
      | None => ret false
      | Some plan =>
          if negb (Plan.WarmSnapshotAllowed plan) then ret true
          else
          match Store.FrameworkReadyAt ins with
          | None => ret true
          | Some ready =>
              now <- reads clock;;
              if (0 <? aWarmSnapshotMinMs app)
                 && (time_sub now ready <? aWarmSnapshotMinMs app *! Millisecond)
              then ret true
              else if (0 <? aWarmSnapshotMinRequests app)
                      && (Store.RequestCount ins <? aWarmSnapshotMinRequests app)
              then ret true
              else
              f <- fault;;
              if f then
                d <- fault;;
                (if d then ret tt
                 else modify (λ w, set_vms (vms w ∖ {[(Store.NodeID ins, Store.ID ins)]}) w));;
                ledger_Release (Store.ID ins);;
                transitionWithKind (Store.ID ins) (Store.AppID ins) StateStopped
                  "warm_capture_error" "warm_snapshot_failed";;
                ret false
              else ret true
          end
      end
  end.

(** The body after the drain. vmm.PauseAndSnapshot ends the microVM when it succeeds. *)
Definition snapshot_core (ins : Store.Instance) : M bool :=
  let id := Store.ID ins in
  ledger_BeginSnapshot id;;
  now <- reads clock;;
  store_write (λ m, Store.UpdateInstanceStateWithTimestamp m id StateSnapshotting now);;
  warm <- captureWarmSnapshotLocked ins;;
  if negb warm then ret false
  else
  f <- fault;;
  if f then
    ledger_Release id;;
    transitionWithKind id (Store.AppID ins) StateStopped "park_snapshot_error" "snapshot_failed";;
    ret false
  else
  modify (λ w, set_vms (vms w ∖ {[(Store.NodeID ins, id)]}) w);;
  ledger_Release id;;
  transition id (Store.AppID ins) StateParked;;
  ret true.

Definition snapshotAndPark (polls : list tail_poll) (ins : Store.Instance) : M bool :=
  drained <- (if 0 <? Store.TailCount ins then tail_drain polls ins else ret true);;
  if negb drained then ret false else snapshot_core ins.

Definition Park (polls : list tail_poll) (instanceID : string) : M bool :=
  r <- lockedRunning instanceID;;
  match r with
  | inl _ => ret false
  | inr None => ret true
  | inr (Some ins) =>
      ok <- snapshotAndPark polls ins;;
      unlockApp (Store.AppID ins);;
      ret ok
  end.

(** ** Liveness *)

Definition MarkSnapshotStale (id : string) : M unit :=
  f <- fault;; if f then ret tt else modify (add_stale id).

(** [false] is an error. *)
Definition ParkDeployment (deploymentID reason : string) : M bool :=
  if String.eqb deploymentID EmptyString then ret false
  else if negb (existsb (String.eqb reason)
                  ["liveness_exhausted"; "lifecycle_park"; "admin_park"]%string)
  then ret false
  else
  dep <- readTable (AppOfDeployment deploymentID);;
  match dep with
  | None => ret false
  | Some appID =>
      f <- fault;;
      (if f then ret tt else modify (add_parked (deploymentID, reason)));;
      f <- fault;;
      if f then ret false
      else modify (add_evicted appID);; ret true
  end.

(** The body under the app lock once the row is known to be RUNNING. [shouldPark] is what the
    restart window answers for this restart. *)
Definition liveness_kill (shouldPark : bool) (ins : Store.Instance) (deploymentID reason : string)
  : M unit :=
  let id := Store.ID ins in
  for_each ["warm"; "init"]%string
    (λ tier, snap <- readTable (LatestSnapshotForTier deploymentID tier);;
             match snap with
             | Some s => if String.eqb (sID s) EmptyString then ret tt else MarkSnapshotStale (sID s)
             | None => ret tt
             end);;
  now <- reads clock;;
  store_write (λ m, Some (Store.TouchInstancesLastSeen m [(id, now, 0)]).2);;
  ledger_Release id;;
  timedDestroy (Store.NodeID ins) id;;
  transitionWithKind id (Store.AppID ins) StateStopped "liveness_failed" reason;;
  (if negb (String.eqb deploymentID EmptyString) && String.eqb reason "liveness_unauthorized"
   then f <- fault;;
        if f then ret tt else modify (add_depFailed (deploymentID, "app_healthz_unauthorized"%string))
   else ret tt);;
  if shouldPark then ParkDeployment deploymentID "liveness_exhausted";; ret tt else ret tt.

Definition DestroyForLivenessFailure (shouldPark : bool) (instanceID reason : string) : M unit :=
  fresh <- loadInstance instanceID;;
  match fresh with
  | None => ledger_Release instanceID
  | Some fresh =>
      lockApp (Store.AppID fresh);;
      freshLocked <- loadInstance instanceID;;
      (match freshLocked with
       | None => ledger_Release instanceID
       | Some ins =>
           if negb (State_eqb (Store.IState ins) StateRunning) then ledger_Release instanceID
           else liveness_kill shouldPark ins (Store.DeploymentID fresh) reason
       end);;
      unlockApp (Store.AppID fresh)
  end.

(** ** Which snapshot a wake restores *)

Definition usable (fcVer : string) (s : Snapshot) : bool :=
  negb (sStale s) && String.eqb (sFCVersion s) fcVer.

Definition usableSnapshotForWake (fcVer deploymentID plan : string)
  : M (option Snapshot * string) :=
  warm <- (if Plan.WarmSnapshotAllowed plan
           then readTable (LatestSnapshotForTier deploymentID "warm") else ret None);;
  match warm with
  | Some s =>
      if usable fcVer s then ret (Some s, "warm"%string)
      else
      init <- readTable (LatestSnapshotForTier deploymentID "init");;
      ret match init with
          | Some s => if usable fcVer s then (Some s, "init"%string)
                      else (None, "cold_boot_fallback"%string)
          | None => (None, "cold_boot_fallback"%string)
          end
  | None =>
      init <- readTable (LatestSnapshotForTier deploymentID "init");;
      ret match init with
          | Some s => if usable fcVer s then (Some s, "init"%string)
                      else (None, "cold_boot_fallback"%string)
          | None => (None, "cold_boot_fallback"%string)
          end
  end.

(** ** Rebuilding the ledger at startup *)

(** The two caches of the code only avoid repeated reads of a node row, so the model reads every
    time. *)

Definition seed_request (app : App) (plan : string) (vcpu : Z) (ins : Store.Instance)
  : Ledger.Request :=
  let node := if String.eqb (Store.NodeID ins) EmptyString then defaultLocalNodeID
              else Store.NodeID ins in
  let '(ceil, budget) := default (0, 0) (ComputeNodeByID node) in
  Ledger.mkReq (Store.ID ins) (aID app) EmptyString plan (Store.RAMMB ins) [] vcpu
    (aMaxConcurrency app) Ledger.KindWake node EmptyString EmptyString
    (if ceil <=? 0 then 0 else ceil) (if budget <=? 0 then 0 else budget).

Definition seed_instance (app : App) (plan : string) (vcpu : Z) (ins : Store.Instance) : M unit :=
  if negb (CountsForRAM (Store.IState ins)) then ret tt
  else
  err <- ledger_Admit (seed_request app plan vcpu ins);;
  match err with
  | Some _ => ret tt
  | None =>
      if State_eqb (Store.IState ins) StateSnapshotting then ledger_BeginSnapshot (Store.ID ins)
      else ret tt
  end.

Definition seed_app (app : App) : M unit :=
  plan <- readTable (PlanOf (aAccountID app));;
  match plan ≫= (λ p, (λ l, (p, l)) <$> LimitsFor p) with
  | None => ret tt
  | Some (plan, limits) =>
      f <- fault;;
      if f then ret tt
      else
      instances <- reads (λ w, Store.ListInstancesForApp (rows w) (aID app));;
      for_each instances (seed_instance app plan (Limits.VCPU limits))
  end.

Definition SeedLedger (apps : option (list App)) : M bool :=
  match apps with
  | None => ret false
  | Some apps => for_each apps seed_app;; ret true
  end.

(** ** Histories of lifecycle operations *)

Inductive lifecycle :=
| OpKillStuck (id app : string) (reason : StuckReason)
| OpEvict (id : string)
| OpPark (polls : list tail_poll) (id : string)
| OpLiveness (park : bool) (id reason : string).

Definition run_lifecycle (o : lifecycle) : M unit :=
  match o with
  | OpKillStuck id app reason => KillStuck id app reason;; ret tt
  | OpEvict id => Evict id;; ret tt
  | OpPark polls id => Park polls id;; ret tt
  | OpLiveness park id reason => DestroyForLivenessFailure park id reason
  end.

(** ** Weakest preconditions

    [wp m Q w]: run from [w], [m] does not block and its result satisfies [Q]. *)

Definition wp {A} (m : M A) (Q : A → world → Prop) (w : world) : Prop :=
  match m w with Some (a, w') => Q a w' | None => False end.

Lemma wp_ret {A} (a : A) (Q : A → world → Prop) w : Q a w → wp (ret a) Q w.
Proof. done. Qed.

Lemma wp_bind {A B} (m : M A) (f : A → M B) (Q : B → world → Prop) w :
  wp m (λ a w', wp (f a) Q w') w → wp (bind m f) Q w.
Proof. unfold wp, bind. by destruct (m w) as [[a w']|]. Qed.

Lemma wp_mono {A} (m : M A) (P Q : A → world → Prop) w :
  wp m P w → (∀ a w', P a w' → Q a w') → wp m Q w.
Proof. unfold wp. destruct (m w) as [[a w']|]; auto. Qed.

Lemma wp_run {A} (m : M A) (Q : A → world → Prop) w :
  wp m Q w → ∃ a w', m w = Some (a, w') ∧ Q a w'.
Proof. unfold wp. destruct (m w) as [[a w']|]; [eauto|done]. Qed.

Lemma wp_reads {A} (f : world → A) (Q : A → world → Prop) w : Q (f w) w → wp (reads f) Q w.
Proof. done. Qed.

Lemma wp_modify f (Q : unit → world → Prop) w : Q tt (f w) → wp (modify f) Q w.
Proof. done. Qed.

Lemma set_faults_id w : set_faults (faults w) w = w.
Proof. by destruct w. Qed.

Lemma wp_fault (Q : bool → world → Prop) w : (∀ b l, Q b (set_faults l w)) → wp fault Q w.
Proof.
  intros H. unfold wp, fault. destruct (faults w) as [|b l] eqn:E; [|done].
  rewrite <- (set_faults_id w), E. done.
Qed.

Lemma wp_fault_nil (Q : bool → world → Prop) w : faults w = [] → Q false w → wp fault Q w.
Proof. intros E H. unfold wp, fault. by rewrite E. Qed.

Lemma wp_readTable {A} (x : option A) (Q : option A → world → Prop) w :
  (∀ y l, y = None ∨ y = x → Q y (set_faults l w)) → wp (readTable x) Q w.
Proof. intros H. apply wp_bind, wp_fault. intros [] l; apply wp_ret, H; auto. Qed.

Lemma wp_loadInstance id (Q : option Store.Instance → world → Prop) w :
  (∀ l, Q None (set_faults l w)) → (∀ l, Q (rows w !! id) (set_faults l w)) →
  wp (loadInstance id) Q w.
Proof. intros H1 H2. apply wp_bind, wp_fault. intros [] l; [apply H1|apply H2]. Qed.

Lemma wp_store_write op (Q : bool → world → Prop) w :
  (∀ l, Q false (set_faults l w)) →
  (∀ l m, op (rows w) = Some m → Q true (set_rows m (set_faults l w))) →
  wp (store_write op) Q w.
Proof.
  intros H1 H2. apply wp_bind, wp_fault. intros [] l; [apply wp_ret, H1|].
  unfold wp. simpl. destruct (op (rows w)) as [m|] eqn:E; auto.
Qed.

Lemma wp_lockApp app (Q : unit → world → Prop) w :
  app ∉ locked w → Q tt (set_locked ({[app]} ∪ locked w) w) → wp (lockApp app) Q w.
Proof. intros H HQ. unfold wp, lockApp. by rewrite decide_False. Qed.

Lemma wp_unlockApp app (Q : unit → world → Prop) w :
  app ∈ locked w → Q tt (set_locked (locked w ∖ {[app]}) w) → wp (unlockApp app) Q w.
Proof. intros H HQ. unfold wp, unlockApp. by rewrite decide_True. Qed.

Lemma wp_timedDestroy node id (Q : bool → world → Prop) w :
  (∀ l, Q false (set_faults l w)) →
  (∀ l, Q true (set_vms (vms w ∖ {[(nodeForRoute node, id)]}) (set_faults l w))) →
  wp (timedDestroy node id) Q w.
Proof. intros H1 H2. apply wp_bind, wp_fault. intros [] l; [apply wp_ret, H1|apply wp_bind, H2]. Qed.

(** The effect of a transition on the world. *)
Record transitioned (id : string) (to : State) (w w' : world) : Prop := {
  tr_led : led w' = led w;
  tr_locked : locked w' = locked w;
  tr_vms : vms w' = vms w;
  tr_deps : depsFailed w' = depsFailed w;
  tr_clock : clock w' = clock w;
  tr_leases : leases w' = leases w;
  tr_rows : (rows w' = rows w ∧ history w' = history w) ∨
            (∃ ins, rows w !! id = Some ins ∧ edge (Store.IState ins) to ∧
                    rows w' = <[id := if is_terminal to
                                      then Store.set_terminal (clock w) (Store.set_state to ins)
                                      else Store.set_state to ins]> (rows w)) ∧
            history w' = history w ++ [rows w'];
}.

Lemma wp_transition id app to kind reason (Q : unit → world → Prop) w :
  (∀ w', transitioned id to w w' → Q tt w') → wp (transitionWithKind id app to kind reason) Q w.
Proof.
  intros HQ. apply wp_bind, wp_loadInstance; intros l; cbv beta.
  { apply wp_ret, HQ. constructor; auto. }
  destruct (rows w !! id) as [ins|] eqn:Hi; cbv beta iota zeta;
    [|apply wp_ret, HQ; constructor; auto].
  destruct (State_eqb (Store.IState ins) to); [apply wp_ret, HQ; constructor; auto|].
  destruct (CanTransition (Store.IState ins) to) eqn:Hc; [|apply wp_ret, HQ; constructor; auto].
  apply wp_bind, wp_reads, wp_bind, wp_store_write; [intros l'|intros l' m Hm]; simpl.
  { apply wp_ret, HQ. constructor; auto. }
  assert (m = <[id := if is_terminal to
                      then Store.set_terminal (clock w) (Store.set_state to ins)
                      else Store.set_state to ins]> (rows w)) as ->.
  { simpl in Hm. unfold Store.UpdateInstanceStateToTerminal, Store.UpdateInstanceState in Hm.
    rewrite Hi in Hm. by destruct (is_terminal to); simplify_eq. }
  apply wp_bind, wp_fault. intros [] l''; [apply wp_ret|apply wp_modify];
    apply HQ; constructor; simpl; auto; right; (split; [|done]); exists ins; split_and!; auto; by constructor.
Qed.
End world.

Notation "x <- m ;; k" := (bind m (λ x, k))
  (at level 100, m at next level, right associativity) : engine_scope.
Notation "m ;; k" := (bind m (λ _, k)) (at level 100, right associativity) : engine_scope.
End Engine.
