(* ===== verification/Lifecycle.v ===== *)
(** * pkg/sched: correctness of the instance lifecycle

    Theorems about the operations of Engine.v (src/pkg/sched/engine.go and
    watchdog.go): what every sequence of lifecycle operations keeps under any
    failure pattern, what park, evict, the watchdog sweep and the ledger rebuild
    achieve when no call fails, and two failure cases in which the engine's own
    bookkeeping goes wrong. *)

From S2P Require Import Prelude Api Machine Admission InstanceStore Engine.

Module Lifecycle.
Import Engine.
#[local] Open Scope engine_scope.

Section keeps.
Context {L : Type} `{HL : !Ledger.AdmissionLedger L} {cfg : Config}.
#[local] Abbreviation world := (@Engine.world L).
#[local] Abbreviation M := (@Engine.M L).
Implicit Types w : world.

(** ** What every lifecycle operation keeps *)

(** One write of a row: identity, app, size and node stay, and the state stays or moves along one
    edge of the state machine. *)
Definition row_step (i i' : Store.Instance) : Prop :=
  (Store.IState i' = Store.IState i ∨ edge (Store.IState i) (Store.IState i')) ∧
  Store.ID i' = Store.ID i ∧ Store.AppID i' = Store.AppID i ∧ Store.RAMMB i' = Store.RAMMB i ∧
  Store.NodeID i' = Store.NodeID i.

(** Other writes of a row an operation may make: its id, the row before and after. *)
Definition extra : Type := string → option Store.Instance → option Store.Instance → Prop.

Definition no_extra : extra := λ _ _ _, False.

(** One write of the table: no row is created or dropped and each makes at most a [row_step],
    unless the write of that row is one of [A]. *)
Definition write_ok (A : extra) (m m' : Store.table) : Prop :=
  ∀ id, option_Forall2 row_step (m !! id) (m' !! id) ∨ A id (m !! id) (m' !! id).

(** [l] are the versions of the table from [m] (excluded) to [m'] (included). *)
Fixpoint writes_ok (A : extra) (m : Store.table) (l : list Store.table) (m' : Store.table) : Prop :=
  match l with
  | [] => m' = m
  | x :: l => write_ok A m x ∧ writes_ok A x l m'
  end.

(** Every write to the instances table between [w0] and [w] was a [write_ok]. *)
Definition legal (A : extra) (w0 w : world) : Prop :=
  ∃ l, history w = history w0 ++ l ∧ writes_ok A (rows w0) l (rows w).

(** The net effect: identity, app, size and node are as they were. *)
Definition row_kept (i i' : Store.Instance) : Prop :=
  reachable (Store.IState i) (Store.IState i') ∧ Store.ID i' = Store.ID i ∧
  Store.AppID i' = Store.AppID i ∧ Store.RAMMB i' = Store.RAMMB i ∧
  Store.NodeID i' = Store.NodeID i.

Definition rows_kept (m m' : Store.table) : Prop :=
  ∀ id, option_Forall2 row_kept (m !! id) (m' !! id).

(** [keeps S w0 w]: relative to [w0], the held locks are [S], the ledger is consistent and holds
    only reservations [w0] had (possibly no longer counting), every write of the instances table
    moved each row along at most one edge, no VM appeared, and the migration leases are as they
    were. *)
Record keeps (S : gset string) (w0 w : world) : Prop := {
  k_locked : locked w = S;
  k_inv : Ledger.inv (led w);
  k_view i e : Ledger.view (led w) !! i = Some e →
    ∃ e0, Ledger.view (led w0) !! i = Some e0 ∧ (e = e0 ∨ e = Ledger.stop_counting e0);
  k_legal : legal no_extra w0 w;
  k_vms : vms w ⊆ vms w0;
  k_leases : leases w = leases w0;
}.

#[export] Instance row_step_refl : Reflexive row_step.
Proof. intros i; split_and!; auto. Qed.

#[export] Instance row_kept_refl : Reflexive row_kept.
Proof. by intros i; split_and!. Qed.

#[export] Instance row_kept_trans : Transitive row_kept.
Proof.
  intros x y z (R1 & ? & ? & ? & ?) (R2 & ? & ? & ? & ?).
  split_and!; try congruence. by etrans.
Qed.

Lemma row_step_kept i i' : row_step i i' → row_kept i i'.
Proof.
  intros ([E|He] & ? & ? & ? & ?); split_and!; try done; [by rewrite E|by apply rtc_once].
Qed.

Lemma writes_ok_app A m1 l1 m2 l2 m3 :
  writes_ok A m1 l1 m2 → writes_ok A m2 l2 m3 → writes_ok A m1 (l1 ++ l2) m3.
Proof.
  revert m1. induction l1 as [|x l1 IH]; intros m1 H1 H2; simpl in *; [by subst|].
  destruct H1. eauto.
Qed.

Lemma writes_ok_mono (A B : extra) m l m' :
  (∀ id o o', A id o o' → B id o o') → writes_ok A m l m' → writes_ok B m l m'.
Proof.
  intros HAB. revert m. induction l as [|x l IH]; intros m; [done|]. intros [H1 H2].
  split; [|by apply IH]. intros id. destruct (H1 id); auto.
Qed.

Lemma legal_refl A w : legal A w w.
Proof. exists []. by rewrite app_nil_r. Qed.

Lemma legal_trans A w0 w1 w2 : legal A w0 w1 → legal A w1 w2 → legal A w0 w2.
Proof.
  intros (l1 & E1 & H1) (l2 & E2 & H2). exists (l1 ++ l2). rewrite E2, E1, (assoc_L (++)).
  split; [done|]. by eapply writes_ok_app.
Qed.

Lemma legal_mono (A B : extra) w0 w :
  (∀ id o o', A id o o' → B id o o') → legal A w0 w → legal B w0 w.
Proof. intros HAB (l & ? & ?). exists l. split; [done|]. by eapply writes_ok_mono. Qed.

Lemma legal_plain A w0 w : legal no_extra w0 w → legal A w0 w.
Proof. by apply legal_mono. Qed.

Lemma legal_same A w0 w w' :
  legal A w0 w → rows w' = rows w → history w' = history w → legal A w0 w'.
Proof. intros (l & ? & ?) E1 E2. exists l. by rewrite E1, E2. Qed.

(** One more write. *)
Lemma legal_write A w0 w w' :
  legal A w0 w → write_ok A (rows w) (rows w') → history w' = history w ++ [rows w'] →
  legal A w0 w'.
Proof. intros Hl Hw Hh. eapply legal_trans; [exact Hl|]. by exists [rows w']. Qed.

Lemma write_ok_insert A m id i i' :
  m !! id = Some i → row_step i i' → write_ok A m (<[id := i']> m).
Proof.
  intros Hi Hs k. left. destruct (decide (id = k)) as [<-|Hne].
  - rewrite lookup_insert_eq, Hi. by constructor.
  - rewrite lookup_insert_ne by done. destruct (m !! k); by constructor.
Qed.

(** Rows outside the reach of [A] keep their identity and follow the machine. *)
Lemma legal_kept A w0 w id :
  (∀ o o', ¬ A id o o') → legal A w0 w → option_Forall2 row_kept (rows w0 !! id) (rows w !! id).
Proof.
  intros HA (l & _ & Hl). revert Hl. generalize (rows w0). induction l as [|x l IH]; intros m.
  - intros ->. destruct (m !! id); by constructor.
  - intros [Hx Hl]. specialize (IH x Hl). destruct (Hx id) as [Hs|Ha]; [|by edestruct HA].
    destruct Hs as [a b Hab|]; inversion IH; subst; constructor.
    etrans; [by apply row_step_kept|done].
Qed.

Lemma k_rows S w0 w : keeps S w0 w → rows_kept (rows w0) (rows w).
Proof. intros Hk id. apply (legal_kept no_extra); [by intros ? ? []|apply Hk]. Qed.

Lemma row_step_edge i to t :
  edge (Store.IState i) to →
  row_step i (if is_terminal to then Store.set_terminal t (Store.set_state to i)
              else Store.set_state to i).
Proof. intros He. destruct (is_terminal to); split_and!; try done; by right. Qed.

Lemma keeps_refl w : Ledger.inv (led w) → keeps (locked w) w w.
Proof. constructor; eauto using legal_refl. Qed.

(** The relation only looks at six components. *)
Lemma keeps_ext S w0 w w' :
  keeps S w0 w → locked w' = locked w → led w' = led w → rows w' = rows w → vms w' = vms w →
  leases w' = leases w → history w' = history w → keeps S w0 w'.
Proof.
  intros [] E1 E2 E3 E4 E5 E6.
  constructor; rewrite ?E1, ?E2, ?E4, ?E5; eauto using legal_same.
Qed.

Lemma keeps_release S w0 w id :
  keeps S w0 w → keeps S w0 (set_led (Ledger.release (led w) id) w).
Proof.
  intros [HS Hi Hv Hr Hm Hls]. destruct (Ledger.law_release (led w) id Hi) as [Hi' HE].
  constructor; simpl; eauto using legal_same. intros i e. rewrite HE. intros [_ ?]%lookup_delete_Some. eauto.
Qed.

Lemma keeps_begin_snapshot S w0 w id :
  keeps S w0 w → keeps S w0 (set_led (Ledger.begin_snapshot (led w) id) w).
Proof.
  intros [HS Hi Hv Hr Hm Hls]. destruct (Ledger.law_begin_snapshot (led w) id Hi) as [Hi' HE].
  constructor; simpl; eauto using legal_same. intros i e. rewrite HE.
  intros [(<- & x & Hx & ->)|[_ Hx]]%lookup_alter_Some; [|eauto].
  destruct (Hv id x Hx) as (e0 & ? & [->| ->]); eexists; split; eauto.
Qed.

Lemma keeps_vms S w0 w s : keeps S w0 w → s ⊆ vms w → keeps S w0 (set_vms s w).
Proof. intros [] Hs. constructor; simpl; eauto using legal_same. by etrans. Qed.

Lemma keeps_transitioned S w0 w w' id to :
  keeps S w0 w → transitioned id to w w' → keeps S w0 w'.
Proof.
  intros [HS Hi Hv Hr Hm Hls] [El Ek Ev _ _ Els Er]. constructor; rewrite ?El, ?Ek, ?Ev, ?Els; auto.
  destruct Er as [[? ?]|[(ins & Hins & He & E) Eh]]; [by eapply legal_same|].
  eapply legal_write; [exact Hr| |exact Eh]. rewrite E.
  eapply write_ok_insert; eauto using row_step_edge.
Qed.

Lemma keeps_row S w0 w id i i' :
  keeps S w0 w → rows w !! id = Some i → row_step i i' →
  keeps S w0 (set_rows (<[id := i']> (rows w)) w).
Proof.
  intros [HS Hi Hv Hr Hm Hls] Hid Hk. constructor; simpl; auto.
  eapply legal_write; [exact Hr|by eapply write_ok_insert|done].
Qed.

(** A write that leaves the table as it is. *)
Lemma keeps_same_rows S w0 w : keeps S w0 w → keeps S w0 (set_rows (rows w) w).
Proof.
  intros [HS Hi Hv Hr Hm Hls]. constructor; simpl; auto.
  eapply legal_write; [exact Hr| |done]. intros id. left. simpl. destruct (rows w !! id); by constructor.
Qed.

Lemma keeps_faults S w0 w l : keeps S w0 w → keeps S w0 (set_faults l w).
Proof. intros H. by eapply keeps_ext. Qed.

Lemma keeps_locked S S' w0 w : keeps S w0 w → keeps S' w0 (set_locked S' w).
Proof. intros []. constructor; eauto using legal_same. Qed.

End keeps.

(** Discharge [keeps] goals by the last change to the world. *)
Ltac keeps_solve :=
  repeat match goal with
  | H : keeps _ ?w0 ?w |- keeps _ ?w0 ?w => exact H
  | H : transitioned _ _ _ ?w |- keeps _ _ ?w => eapply keeps_transitioned; [|exact H]; clear H
  | |- keeps _ _ (set_faults _ _) => apply keeps_faults
  | |- keeps _ _ (set_led (Ledger.release _ _) _) => apply keeps_release
  | |- keeps _ _ (set_led (Ledger.begin_snapshot _ _) _) => apply keeps_begin_snapshot
  | |- keeps _ _ (set_vms _ _) => apply keeps_vms; [|simpl; set_solver]
  | |- keeps _ _ (set_locked _ _) => eapply keeps_locked
  | |- keeps _ _ (add_audit _ ?w) => apply (keeps_ext _ _ w); [|reflexivity..]
  | |- keeps _ _ (add_depFailed _ ?w) => apply (keeps_ext _ _ w); [|reflexivity..]
  | |- keeps _ _ (add_parked _ ?w) => apply (keeps_ext _ _ w); [|reflexivity..]
  | |- keeps _ _ (add_evicted _ ?w) => apply (keeps_ext _ _ w); [|reflexivity..]
  | |- keeps _ _ (add_stale _ ?w) => apply (keeps_ext _ _ w); [|reflexivity..]
  | |- keeps _ _ (add_scaleOut _ ?w) => apply (keeps_ext _ _ w); [|reflexivity..]
  | |- keeps _ _ (add_class _ ?w) => apply (keeps_ext _ _ w); [|reflexivity..]
  | |- keeps _ _ (add_warm _ ?w) => apply (keeps_ext _ _ w); [|reflexivity..]
  end.

(** Run one step of a computation and simplify. *)
Ltac wp_step :=
  match goal with
  | |- wp (bind _ _) _ _ => apply wp_bind; cbv beta iota delta [negb]
  | |- wp (ret _) _ _ => apply wp_ret; cbv beta iota delta [negb]
  | |- wp (reads _) _ _ => apply wp_reads; cbv beta iota delta [negb]
  | |- wp (modify _) _ _ => apply wp_modify; cbv beta iota delta [negb]
  | |- wp fault _ _ => apply wp_fault; intros ? ?; cbv beta iota delta [negb]
  | |- wp (readTable _) _ _ => apply wp_readTable; intros ? ? ?; cbv beta iota delta [negb]
  | |- wp (loadInstance _) _ _ => apply wp_loadInstance; intros ?; cbv beta iota delta [negb]
  | |- wp (timedDestroy _ _) _ _ => apply wp_timedDestroy; intros ?; cbv beta iota delta [negb]
  | |- wp (ledger_Release _) _ _ => apply wp_modify; cbv beta iota delta [negb]
  | |- wp (ledger_BeginSnapshot _) _ _ => apply wp_modify; cbv beta iota delta [negb]
  | |- wp (transitionWithKind _ _ _ _ _) _ _ => apply wp_transition; intros ? ?; cbv beta iota delta [negb]
  | |- wp (transition _ _ _) _ _ => apply wp_transition; intros ? ?; cbv beta iota delta [negb]
  | |- wp (if ?b then _ else _) _ _ => destruct b
  | |- wp (match ?x with Some _ => _ | None => _ end) _ _ => destruct x
  end.

Section lifecycle.
Context {L : Type} `{HL : !Ledger.AdmissionLedger L} {cfg : Config}.
#[local] Abbreviation world := (@Engine.world L).
#[local] Abbreviation M := (@Engine.M L).
Implicit Types w : world.

Lemma keeps_kill_locked S w0 w id app reason :
  keeps S w0 w → wp (kill_locked id app reason) (λ _ w', keeps S w0 w') w.
Proof.
  intros Hk. unfold kill_locked. repeat wp_step; keeps_solve.
Qed.

Lemma keeps_unlock app S w0 w :
  app ∉ S → keeps ({[app]} ∪ S) w0 w → wp (unlockApp app) (λ _ w', keeps S w0 w') w.
Proof.
  intros Hn Hk. pose proof (k_locked _ _ _ Hk) as HS. apply wp_unlockApp; [rewrite HS; set_solver|].
  assert (locked w ∖ {[app]} = S) as -> by (rewrite HS; set_solver). by eapply keeps_locked.
Qed.

Lemma keeps_KillStuck id app reason w :
  Ledger.inv (led w) → app ∉ locked w →
  wp (KillStuck id app reason) (λ _ w', keeps (locked w) w w') w.
Proof.
  intros Hi Hn. pose proof (keeps_refl w Hi) as Hk. unfold KillStuck.
  destruct reason; [| | |by apply wp_ret];
    (apply wp_bind, wp_lockApp; [done|]; apply wp_bind;
     eapply wp_mono; [apply keeps_kill_locked; eapply keeps_locked; exact Hk|];
     intros ? w' Hk'; apply wp_bind; eapply wp_mono; [apply keeps_unlock; [exact Hn|exact Hk']|];
     intros ? w'' Hk''; by apply wp_ret).
Qed.

(** [lockedRunning] hands out a RUNNING row with the lock, or leaves the world as it was. *)
Lemma wp_lockedRunning id (Q : unit + option Store.Instance → world → Prop) w :
  (∀ ins, rows w !! id = Some ins → Store.AppID ins ∉ locked w) →
  (∀ l, Q (inl tt) (set_faults l w)) → (∀ l, Q (inr None) (set_faults l w)) →
  (∀ ins l, rows w !! id = Some ins → Store.IState ins = StateRunning →
     Q (inr (Some ins)) (set_locked ({[Store.AppID ins]} ∪ locked w) (set_faults l w))) →
  wp (lockedRunning id) Q w.
Proof.
  intros Hfree H1 H2 H3. unfold lockedRunning. apply wp_bind, wp_loadInstance; intros l; [by apply wp_ret|].
  destruct (rows w !! id) as [ins|] eqn:Hi; [|by apply wp_ret]. specialize (Hfree ins eq_refl).
  assert (∀ l', set_locked (({[Store.AppID ins]} ∪ locked w) ∖ {[Store.AppID ins]})
            (set_faults l' (set_locked ({[Store.AppID ins]} ∪ locked w) (set_faults l w)))
          = set_faults l' w) as Hback.
  { intros l'. assert (({[Store.AppID ins]} ∪ locked w) ∖ {[Store.AppID ins]} = locked w) as ->
      by set_solver. by destruct w. }
  apply wp_bind, wp_lockApp; [done|]. apply wp_bind, wp_loadInstance; intros l'; simpl.
  - apply wp_bind, wp_unlockApp; [simpl; set_solver|]. apply wp_ret. simpl. by rewrite Hback.
  - rewrite Hi. destruct (State_eqb (Store.IState ins) StateRunning) eqn:Er; simpl.
    + apply wp_ret. apply bool_decide_eq_true in Er.
      assert (set_faults l' (set_locked ({[Store.AppID ins]} ∪ locked w) (set_faults l w))
              = set_locked ({[Store.AppID ins]} ∪ locked w) (set_faults l' w)) as -> by by destruct w.
      by apply H3.
    + apply wp_bind, wp_unlockApp; [simpl; set_solver|]. apply wp_ret. simpl. by rewrite Hback.
Qed.

Lemma keeps_Evict id w :
  Ledger.inv (led w) → (∀ ins, rows w !! id = Some ins → Store.AppID ins ∉ locked w) →
  wp (Evict id) (λ _ w', keeps (locked w) w w') w.
Proof.
  intros Hi Hfree. pose proof (keeps_refl w Hi) as Hk. apply wp_bind, wp_lockedRunning; [done|..].
  1,2: intros l; apply wp_ret; keeps_solve.
  intros ins l Hrow Hrun. specialize (Hfree ins Hrow).
  assert (keeps ({[Store.AppID ins]} ∪ locked w) w
            (set_locked ({[Store.AppID ins]} ∪ locked w) (set_faults l w))) as Hkl by keeps_solve.
  apply wp_bind, wp_timedDestroy; intros l'; cbv beta iota delta [negb].
  - apply wp_bind. eapply wp_mono; [apply (keeps_unlock _ (locked w) w); [exact Hfree|keeps_solve]|].
    intros. by apply wp_ret.
  - do 4 wp_step. apply wp_bind.
    eapply wp_mono; [apply (keeps_unlock _ (locked w) w); [exact Hfree|keeps_solve]|].
    intros. by apply wp_ret.
Qed.

Lemma keeps_capture S w0 w ins :
  keeps S w0 w → wp (captureWarmSnapshotLocked ins) (λ _ w', keeps S w0 w') w.
Proof. intros Hk. unfold captureWarmSnapshotLocked. repeat wp_step; keeps_solve. Qed.

(** A row that is RUNNING in [w]. *)
Definition running (id : string) (w : world) : Prop :=
  ∃ r, rows w !! id = Some r ∧ Store.IState r = StateRunning.

Lemma keeps_snapshot_core S w0 w ins :
  keeps S w0 w → running (Store.ID ins) w →
  wp (snapshot_core ins) (λ _ w', keeps S w0 w') w.
Proof.
  intros Hk (r & Hr & Hrun). unfold snapshot_core.
  apply wp_bind, wp_modify, wp_bind, wp_reads, wp_bind.
  assert (keeps S w0 (set_led (Ledger.begin_snapshot (led w) (Store.ID ins)) w)) as Hk1 by keeps_solve.
  apply wp_store_write; [intros l|intros l m Hm]; apply wp_bind.
  - apply (wp_mono _ (λ _ w', keeps S w0 w')); [apply keeps_capture; keeps_solve|].
    intros ? ? ?; repeat wp_step; keeps_solve.
  - unfold Store.UpdateInstanceStateWithTimestamp in Hm. simpl in Hm. rewrite Hr in Hm. simplify_eq.
    assert (row_step r (Store.set_parked (clock w) (Store.set_state StateSnapshotting r))) as Hrk.
    { split_and!; try done. simpl. right. rewrite Hrun. by constructor. }
    apply (wp_mono _ (λ _ w', keeps S w0 w'));
      [apply keeps_capture|intros ? ? ?; repeat wp_step; keeps_solve].
    apply (keeps_row S w0 (set_faults l (set_led (Ledger.begin_snapshot (led w) (Store.ID ins)) w))
             (Store.ID ins) r); [keeps_solve|exact Hr|exact Hrk].
Qed.

Lemma keeps_force S w0 w ins n :
  keeps S w0 w → running (Store.ID ins) w →
  wp (store_write (λ m, Store.DecrementInstanceTailCount m (Store.ID ins) n))
     (λ _ w', keeps S w0 w' ∧ running (Store.ID ins) w') w.
Proof.
  intros Hk (r & Hr & Hrun). apply wp_store_write; [intros l|intros l m Hm].
  { split; [keeps_solve|by exists r]. }
  unfold Store.DecrementInstanceTailCount in Hm. rewrite Hr in Hm.
  assert (m = rows w ∨ ∃ t, m = <[Store.ID ins := Store.set_tail t r]> (rows w)) as [->|[t ->]]
    by (repeat case_match; simplify_eq; eauto).
  - split; [apply (keeps_same_rows S w0 (set_faults l w)); keeps_solve|by exists r].
  - split; [|eexists; split; [simpl; by rewrite lookup_insert_eq|done]].
    apply (keeps_row S w0 (set_faults l w) _ r); [keeps_solve|done|by split_and!; auto].
Qed.

Lemma keeps_tail_drain S w0 polls ins w :
  keeps S w0 w → running (Store.ID ins) w →
  wp (tail_drain polls ins) (λ _ w', keeps S w0 w' ∧ running (Store.ID ins) w') w.
Proof.
  assert (∀ w, keeps S w0 w → running (Store.ID ins) w →
    wp (tail_drain [] ins) (λ _ w', keeps S w0 w' ∧ running (Store.ID ins) w') w) as Hforce.
  { clear w. intros w Hk Hr. simpl. apply wp_bind, wp_readTable. intros y l _.
    apply wp_bind, wp_reads, wp_bind.
    apply (wp_mono _ (λ _ w', keeps S w0 w' ∧ running (Store.ID ins) w'));
      [apply keeps_force; [keeps_solve|exact Hr]|]. intros. by apply wp_ret. }
  induction polls as [|p rest IH]; intros Hk Hr; [by apply Hforce|]. simpl tail_drain.
  destruct (cancelled p); [by apply wp_ret|]. destruct (expired p); [by apply Hforce|].
  destruct (tail_read p) as [c|]; [destruct (c =? 0)|]; try (by apply wp_ret);
    destruct (cancelled_asleep p); try (by apply wp_ret); by apply IH.
Qed.

Lemma keeps_Park polls id w :
  Ledger.inv (led w) →
  (∀ ins, rows w !! id = Some ins → (Store.AppID ins ∉ locked w) ∧ Store.ID ins = id) →
  wp (Park polls id) (λ _ w', keeps (locked w) w w') w.
Proof.
  intros Hi Hfree. pose proof (keeps_refl w Hi) as Hk.
  apply wp_bind, wp_lockedRunning; [intros; by apply Hfree|..].
  1,2: intros l; apply wp_ret; keeps_solve.
  intros ins l Hrow Hrun. destruct (Hfree ins Hrow) as [Hn Hid]. apply wp_bind. unfold snapshotAndPark.
  assert (wp (if 0 <? Store.TailCount ins then tail_drain polls ins else ret true)
            (λ _ w', keeps ({[Store.AppID ins]} ∪ locked w) w w' ∧ running (Store.ID ins) w')
            (set_locked ({[Store.AppID ins]} ∪ locked w) (set_faults l w))) as Hd.
  { assert (running (Store.ID ins) (set_locked ({[Store.AppID ins]} ∪ locked w) (set_faults l w)))
      by (rewrite Hid; by exists ins).
    destruct (0 <? _); [apply keeps_tail_drain; [keeps_solve|done]|apply wp_ret; split; [keeps_solve|done]]. }
  apply wp_bind. eapply wp_mono; [exact Hd|]. intros drained w' [Hk' Hr'].
  assert (wp (if negb drained then ret false else snapshot_core ins)
            (λ _ w'', keeps ({[Store.AppID ins]} ∪ locked w) w w'') w') as Hs.
  { destruct drained; simpl; [by apply keeps_snapshot_core|by apply wp_ret]. }
  eapply wp_mono; [exact Hs|]. intros ok w'' Hk''. apply wp_bind.
  eapply wp_mono; [apply (keeps_unlock _ (locked w) w); [done|exact Hk'']|]. intros. by apply wp_ret.
Qed.

Lemma wp_for_each {A} (I : world → Prop) (f : A → M unit) l w :
  I w → (∀ x w, x ∈ l → I w → wp (f x) (λ _ w', I w') w) → wp (for_each l f) (λ _ w', I w') w.
Proof.
  revert w. induction l as [|x l IH]; intros w Hw Hf; [by apply wp_ret|]. simpl. apply wp_bind.
  eapply wp_mono; [apply Hf; [by left|done]|]. intros ? w' Hw'. apply IH; [done|].
  intros y w'' Hy. apply Hf. by right.
Qed.

Lemma keeps_ParkDeployment S w0 w dep reason :
  keeps S w0 w → wp (ParkDeployment dep reason) (λ _ w', keeps S w0 w') w.
Proof. intros Hk. unfold ParkDeployment. repeat wp_step; keeps_solve. Qed.

Lemma keeps_liveness_kill S w0 w park ins dep reason :
  keeps S w0 w → running (Store.ID ins) w →
  wp (liveness_kill park ins dep reason) (λ _ w', keeps S w0 w') w.
Proof.
  intros Hk Hrun. unfold liveness_kill. apply wp_bind.
  eapply wp_mono.
  { apply (wp_for_each (λ w, keeps S w0 w ∧ running (Store.ID ins) w)); [done|].
    intros tier w' _ [Hk' Hr']. apply wp_bind, wp_readTable. intros y l _.
    destruct y as [s|]; [destruct (String.eqb _ _)|]; try (apply wp_ret; split; [keeps_solve|done]).
    apply wp_bind, wp_fault. intros [] l'; [apply wp_ret|apply wp_modify]; split; try done; keeps_solve. }
  intros ? w' [Hk' (r & Hr & Hrs)]. apply wp_bind, wp_reads, wp_bind.
  assert (∀ l m, Some (Store.TouchInstancesLastSeen (rows w') [(Store.ID ins, clock w', 0)]).2 = Some m →
    keeps S w0 (set_rows m (set_faults l w'))) as Htouch.
  { intros l m [= <-]. unfold Store.TouchInstancesLastSeen, Store.touch_with. simpl. rewrite Hr. simpl.
    apply (keeps_row S w0 (set_faults l w') _ r); [keeps_solve|done|by split_and!; auto]. }
  apply wp_store_write; [intros l|intros l m Hm; apply (Htouch l) in Hm]; cbv beta;
    (repeat wp_step); try (apply keeps_ParkDeployment); keeps_solve.
Qed.

Lemma keeps_DestroyForLivenessFailure park id reason w :
  Ledger.inv (led w) →
  (∀ ins, rows w !! id = Some ins → (Store.AppID ins ∉ locked w) ∧ Store.ID ins = id) →
  wp (DestroyForLivenessFailure park id reason) (λ _ w', keeps (locked w) w w') w.
Proof.
  intros Hi Hfree. pose proof (keeps_refl w Hi) as Hk.
  apply wp_bind, wp_loadInstance; intros l; [wp_step; keeps_solve|].
  destruct (rows w !! id) as [ins|] eqn:Hrow; [|wp_step; keeps_solve].
  destruct (Hfree ins eq_refl) as [Hn Hid]. apply wp_bind, wp_lockApp; [done|]. apply wp_bind.
  assert (keeps ({[Store.AppID ins]} ∪ locked w) w
            (set_locked ({[Store.AppID ins]} ∪ locked w) (set_faults l w))) as Hkl by keeps_solve.
  apply wp_loadInstance; intros l'; apply wp_bind.
  - wp_step. apply (keeps_unlock _ (locked w) w); [done|keeps_solve].
  - simpl. rewrite Hrow. destruct (State_eqb _ _) eqn:Er; simpl.
    + apply bool_decide_eq_true in Er. eapply wp_mono.
      * apply keeps_liveness_kill with (S := {[Store.AppID ins]} ∪ locked w) (w0 := w); [keeps_solve|].
        rewrite Hid. by exists ins.
      * intros ? w' Hk'. by apply (keeps_unlock _ (locked w) w).
    + wp_step. apply (keeps_unlock _ (locked w) w); [done|keeps_solve].
Qed.

(** ** Histories of lifecycle operations *)

Lemma keyed_kept m m' : Store.keyed m → rows_kept m m' → Store.keyed m'.
Proof.
  intros Hk Hr id ins Hi. specialize (Hr id). rewrite Hi in Hr.
  inversion Hr as [i0 ? (_ & HID & _) E|]; subst. rewrite HID. by apply Hk.
Qed.

Lemma keeps_trans S S' w0 w1 w2 : keeps S w0 w1 → keeps S' w1 w2 → keeps S' w0 w2.
Proof.
  intros [_ _ Hv1 Hr1 Hm1] [? ? Hv2 Hr2 Hm2].
  constructor; auto; [|by eapply legal_trans|by etrans..].
  intros i e He. destruct (Hv2 i e He) as (e1 & He1 & Hc1).
  destruct (Hv1 i e1 He1) as (e0 & He0 & Hc0). exists e0. split; [done|].
  destruct Hc1 as [->| ->], Hc0 as [->| ->]; auto.
Qed.

Lemma keeps_lifecycles ops w0 w :
  keeps ∅ w0 w → Store.keyed (rows w) →
  wp (for_each ops run_lifecycle) (λ _ w', keeps ∅ w0 w') w.
Proof.
  intros H0 Hkey0. apply (wp_mono _ (λ _ w', keeps ∅ w0 w' ∧ Store.keyed (rows w'))); [|tauto].
  apply (wp_for_each (λ w', keeps ∅ w0 w' ∧ Store.keyed (rows w'))); [done|]. intros o w' _ [Hk Hkey].
  pose proof (k_locked _ _ _ Hk) as Hl. pose proof (k_inv _ _ _ Hk) as Hi.
  assert (∀ w'', keeps (locked w') w' w'' → keeps ∅ w0 w'' ∧ Store.keyed (rows w'')) as Hstep.
  { intros w'' Hk'. rewrite Hl in Hk'. split; [by eapply keeps_trans|].
    eapply keyed_kept; [exact Hkey|by eapply k_rows]. }
  destruct o as [id app reason|id|polls id|park id reason]; simpl; [apply wp_bind..|].
  - eapply wp_mono; [apply keeps_KillStuck; [done|by rewrite Hl]|]. intros. by apply wp_ret, Hstep.
  - eapply wp_mono; [apply keeps_Evict; [done|intros; by rewrite Hl]|]. intros. by apply wp_ret, Hstep.
  - eapply wp_mono; [apply keeps_Park; [done|intros; rewrite Hl; by split; [|apply Hkey]]|].
    intros. by apply wp_ret, Hstep.
  - eapply wp_mono; [apply keeps_DestroyForLivenessFailure; [done|]|intros; by apply Hstep].
    intros; rewrite Hl. by split; [|apply Hkey].
Qed.

(** C3: lifecycle safety under every failure pattern. Any sequence of watchdog kills, evictions,
    parks and liveness destroys, with any store or VM call failing at any point, runs to completion
    without blocking, leaves every app lock free, keeps the ledger consistent and never adds a
    reservation, and never leaves a VM that was not there before. Every single write it commits to
    the instances table leaves each row's state or moves it along one edge of the state machine, and
    none creates, deletes or re-homes a row. *)
Theorem lifecycle_safe ops w :
  Ledger.inv (led w) → locked w = ∅ → Store.keyed (rows w) →
  ∃ w', for_each ops run_lifecycle w = Some (tt, w') ∧ keeps ∅ w w'.
Proof.
  intros Hi Hl Hkey. assert (keeps ∅ w w) as Hk by (rewrite <- Hl; by apply keeps_refl).
  destruct (wp_run _ _ _ (keeps_lifecycles ops w w Hk Hkey)) as ([] & w' & -> & Hk'). by exists w'.
Qed.

(** ** What each operation achieves when no call fails *)

Lemma run_fault w : faults w = [] → fault w = Some (false, w).
Proof. intros E. unfold fault. by rewrite E. Qed.

(** A legal transition without store errors. *)
Lemma run_transition id app to kind reason ins w :
  faults w = [] → rows w !! id = Some ins → edge (Store.IState ins) to → Store.IState ins ≠ to →
  ∃ w', transitionWithKind id app to kind reason w = Some (tt, w') ∧
        rows w' = <[id := if is_terminal to
                          then Store.set_terminal (clock w) (Store.set_state to ins)
                          else Store.set_state to ins]> (rows w) ∧
        led w' = led w ∧ locked w' = locked w ∧ vms w' = vms w ∧ faults w' = [] ∧
        clock w' = clock w.
Proof.
  intros Hf Hr He Hne. inversion He as [f t Hc]; subst. unfold transitionWithKind, loadInstance, store_write, bind, ret, reads.
  rewrite (run_fault w Hf). unfold Store.InstanceByID. rewrite Hr.
  unfold State_eqb. rewrite bool_decide_eq_false_2 by done. rewrite Hc. simpl.
  rewrite (run_fault w Hf).
  unfold Store.UpdateInstanceStateToTerminal, Store.UpdateInstanceState. rewrite Hr.
  destruct (is_terminal to); simpl; unfold fault; simpl; rewrite Hf; simpl;
    eexists; split_and!; try reflexivity; done.
Qed.

Lemma run_bind {A B} (m : M A) (f : A → M B) w a w' :
  m w = Some (a, w') → bind m f w = f a w'.
Proof. intros E. unfold bind. by rewrite E. Qed.

Lemma run_loadInstance id w :
  faults w = [] → loadInstance id w = Some (rows w !! id, w).
Proof. intros Hf. unfold loadInstance. by rewrite (run_bind _ _ _ _ _ (run_fault w Hf)). Qed.

Lemma run_timedDestroy node id w :
  faults w = [] →
  timedDestroy node id w = Some (true, set_vms (vms w ∖ {[(nodeForRoute node, id)]}) w).
Proof. intros Hf. unfold timedDestroy. by rewrite (run_bind _ _ _ _ _ (run_fault w Hf)). Qed.

(** The row after a watchdog kill at time [t]. *)
Definition killed (t : Time) (reason : StuckReason) (ins : Store.Instance) : Store.Instance :=
  let to := terminalStateForReason reason in
  if is_terminal to then Store.set_terminal t (Store.set_state to ins) else Store.set_state to ins.

Definition known (reason : StuckReason) : Prop := ∀ s, reason ≠ StuckOther s.

Lemma killed_edge reason ins :
  known reason → Store.IState ins = expectedStateForReason reason →
  edge (Store.IState ins) (terminalStateForReason reason) ∧
  Store.IState ins ≠ terminalStateForReason reason.
Proof.
  intros Hk ->. destruct reason as [| | |s]; [..|by destruct (Hk s)]; split; try done;
    by constructor; vm_compute.
Qed.

(** What a kill that finds the row as expected leaves behind. *)
Record kill_effect (id : string) (reason : StuckReason) (ins : Store.Instance) (w w' : world)
  : Prop := {
  ke_rows : rows w' = <[id := killed (clock w) reason ins]> (rows w);
  ke_view : Ledger.view (led w') = delete id (Ledger.view (led w));
  ke_inv : Ledger.inv (led w');
  ke_vms : vms w' = vms w ∖ {[(nodeForRoute (Store.NodeID ins), id)]};
  ke_locked : locked w' = locked w;
  ke_faults : faults w' = [];
  ke_clock : clock w' = clock w;
}.

Lemma run_kill_locked id app reason ins w :
  known reason → Ledger.inv (led w) → faults w = [] → rows w !! id = Some ins →
  Store.IState ins = expectedStateForReason reason →
  ∃ w', kill_locked id app reason w = Some (tt, w') ∧ kill_effect id reason ins w w'.
Proof.
  intros Hk Hi Hf Hr Hs. destruct (Ledger.law_release (led w) id Hi) as [Hi' HE].
  unfold kill_locked. rewrite (run_bind _ _ _ _ _ (run_loadInstance id w Hf)), Hr, Hs.
  unfold State_eqb at 1. rewrite bool_decide_eq_true_2 by done. cbv beta iota delta [negb].
  erewrite run_bind by reflexivity. erewrite run_bind by by apply run_timedDestroy.
  match goal with |- ∃ _, bind _ _ ?v = _ ∧ _ => set (w1 := v) end.
  destruct (killed_edge reason ins Hk Hs) as [He Hne].
  destruct (run_transition id app (terminalStateForReason reason) "watchdog_timeout"
              (reason_string reason) ins w1) as (w2 & E2 & R2 & L2 & K2 & V2 & F2 & C2); try done.
  erewrite run_bind by exact E2.
  assert (kill_effect id reason ins w w2) as HE2 by by constructor; rewrite ?R2, ?L2, ?K2, ?V2, ?F2, ?C2.
  destruct (_ && _); [erewrite run_bind by by apply run_fault|]; eexists; (split; [reflexivity|]); [|done].
  destruct HE2. by constructor.
Qed.

Lemma run_KillStuck id app reason ins w :
  known reason → Ledger.inv (led w) → faults w = [] → app ∉ locked w → rows w !! id = Some ins →
  Store.IState ins = expectedStateForReason reason →
  ∃ w', KillStuck id app reason w = Some (true, w') ∧ kill_effect id reason ins w w'.
Proof.
  intros Hk Hi Hf Hn Hr Hs.
  destruct (run_kill_locked id app reason ins (set_locked ({[app]} ∪ locked w) w))
    as (w' & E & [R V I' VM LK F C]); try done.
  exists (set_locked (locked w) w'). split; [|by constructor].
  assert ((lockApp app;; kill_locked id app reason;; unlockApp app;; ret true) w
          = Some (true, set_locked (locked w) w')) as Hrun.
  { unfold bind at 1, lockApp. rewrite decide_False by done. unfold bind. rewrite E.
    unfold unlockApp. rewrite LK. simpl. rewrite decide_True by set_solver.
    assert (({[app]} ∪ locked w) ∖ {[app]} = locked w) as -> by set_solver. done. }
  destruct reason as [| | |s]; [exact Hrun..|by destruct (Hk s)].
Qed.

(** ** The sweep *)

(** A WAKING row whose deployment has a snapshot is left alone. *)
Definition exempt (st : State) (ins : Store.Instance) : bool :=
  State_eqb st StateWaking && negb (String.eqb (Store.DeploymentID ins) EmptyString)
  && hasSnapshot (Store.DeploymentID ins).

(** The killed rows of a bucket, written into the table and out of the ledger. *)
Definition kill_all (st : State) (reason : StuckReason) (t : Time) (m : Store.table)
    (l : list Store.Instance) : Store.table :=
  foldl (λ m x, if exempt st x then m else <[Store.ID x := killed t reason x]> m) m l.

Lemma kill_all_lookup st reason t l m id i :
  kill_all st reason t m l !! id = Some i →
  (m !! id = Some i ∧ ∀ x, x ∈ l → Store.ID x = id → exempt st x = true) ∨
  ∃ x, x ∈ l ∧ Store.ID x = id ∧ exempt st x = false ∧ i = killed t reason x.
Proof.
  revert m. induction l as [|x l IH]; intros m Hi; [left; split; [done|set_solver]|]. simpl in Hi.
  destruct (IH _ Hi) as [[Hm Hall]|(y & Hy & ? & ? & ?)]; [|right; exists y; set_solver].
  destruct (exempt st x) eqn:Ex; [left; set_solver|].
  apply lookup_insert_Some in Hm as [[Hid <-]|[Hid Hm]]; [right; exists x; set_solver|left].
  split; [done|]. intros y [->|?]%elem_of_cons ?; auto.
Qed.

(** [swept]: one bucket's outcome. *)
Record swept (st : State) (thr : Time) (reason : StuckReason) (w w' : world) : Prop := {
  sw_rows : rows w' = kill_all st reason (clock w) (rows w)
                        (Store.ListInstancesByStatesOlderThan (rows w) [st] thr);
  sw_view id : rows w' !! id ≠ rows w !! id → Ledger.view (led w') !! id = None;
  sw_gone id : Ledger.view (led w) !! id = None → Ledger.view (led w') !! id = None;
  sw_inv : Ledger.inv (led w');
  sw_locked : locked w' = locked w;
  sw_faults : faults w' = [];
  sw_clock : clock w' = clock w;
}.

Lemma run_bucket st reason l w :
  known reason → st = expectedStateForReason reason →
  Ledger.inv (led w) → faults w = [] → locked w = ∅ → NoDup (Store.ID <$> l) →
  (∀ x, x ∈ l → rows w !! Store.ID x = Some x ∧ Store.IState x = st) →
  ∃ w', for_each l (sweep_one st reason) w = Some (tt, w') ∧
    rows w' = kill_all st reason (clock w) (rows w) l ∧
    (∀ id, rows w' !! id ≠ rows w !! id → Ledger.view (led w') !! id = None) ∧
    (∀ id, Ledger.view (led w) !! id = None → Ledger.view (led w') !! id = None) ∧
    Ledger.inv (led w') ∧ locked w' = ∅ ∧ faults w' = [] ∧ clock w' = clock w.
Proof.
  intros Hk Est. revert w. induction l as [|x l IH]; intros w Hi Hf Hl Hnd Hrow.
  { exists w. split_and!; done. }
  apply NoDup_cons in Hnd as [Hx Hnd]. destruct (Hrow x ltac:(by left)) as [Hxr Hxs].
  assert (sweep_one st reason x w =
          if exempt st x then Some (tt, w)
          else (KillStuck (Store.ID x) (Store.AppID x) reason;; ret tt) w) as Hone.
  { unfold sweep_one, exempt. by destruct (_ && negb _) eqn:Ec; [destruct (hasSnapshot _) eqn:Es|];
      erewrite run_bind by reflexivity; rewrite ?Es. }
  simpl. destruct (exempt st x) eqn:Ex.
  { rewrite (run_bind _ _ _ _ _ Hone). apply IH; auto. intros y Hy. apply Hrow. by right. }
  destruct (run_KillStuck (Store.ID x) (Store.AppID x) reason x w)
    as (w1 & E1 & [R1 V1 I1 _ K1 F1 C1]); try done; [by rewrite Hl|by rewrite Hxs|].
  rewrite (run_bind _ _ _ _ _ E1) in Hone. rewrite (run_bind _ _ _ _ _ Hone).
  destruct (IH w1) as (w2 & E2 & R2 & V2 & G2 & I2 & K2 & F2 & C2); try done; [by rewrite K1| |].
  { intros y Hy. rewrite R1, lookup_insert_ne; [apply Hrow; by right|].
    intros Heq. apply Hx. rewrite Heq. by apply list_elem_of_fmap_2. }
  exists w2. rewrite R1, C1 in R2. rewrite C1 in C2. split_and!; auto.
  - intros id Hne. destruct (decide (Store.ID x = id)) as [<-|].
    + apply G2. rewrite V1. apply lookup_delete_eq.
    + apply V2. by rewrite R1, lookup_insert_ne.
  - intros id Hid. apply G2. rewrite V1. destruct (decide (Store.ID x = id)) as [<-|];
      [apply lookup_delete_eq|by rewrite lookup_delete_ne].
Qed.

Lemma listed_rows m sts thr :
  Store.keyed m →
  NoDup (Store.ID <$> Store.ListInstancesByStatesOlderThan m sts thr) ∧
  ∀ x, x ∈ Store.ListInstancesByStatesOlderThan m sts thr ↔
       m !! Store.ID x = Some x ∧ Store.IState x ∈ sts ∧ Store.age_anchor x ≠ zero_time ∧
       Store.age_anchor x < thr.
Proof.
  intros Hk. unfold Store.ListInstancesByStatesOlderThan. split; [by apply Store.rows_nodup|].
  intros x. rewrite Store.elem_of_rows by done. tauto.
Qed.

Definition overdue (now : Time) (st : State) (budget : Duration) (i : Store.Instance) : Prop :=
  Store.IState i = st ∧ Store.age_anchor i ≠ zero_time ∧
  Store.age_anchor i < time_add now (- budget).

Lemma killed_ID t reason x : Store.ID (killed t reason x) = Store.ID x.
Proof. unfold killed. by destruct (is_terminal _). Qed.

Lemma killed_state t reason x : Store.IState (killed t reason x) = terminalStateForReason reason.
Proof. unfold killed. by destruct (is_terminal _). Qed.

Lemma exempt_other st i : st ≠ StateWaking → exempt st i = false.
Proof. intros Hne. unfold exempt, State_eqb. by rewrite bool_decide_eq_false_2. Qed.

Section bucket.
Context (st : State) (reason : StuckReason) (budget : Duration).
Context (Hknown : known reason) (Hst : st = expectedStateForReason reason).

Lemma run_runOne now w :
  Ledger.inv (led w) → faults w = [] → locked w = ∅ → Store.keyed (rows w) →
  ∃ w', runOne now st budget reason w = Some (tt, w') ∧
        swept st (time_add now (- budget)) reason w w'.
Proof.
  intros Hi Hf Hl Hk. unfold runOne. rewrite (run_bind _ _ _ _ _ (run_fault w Hf)).
  cbv iota. erewrite run_bind by reflexivity.
  destruct (listed_rows (rows w) [st] (time_add now (- budget)) Hk) as [Hnd Hlist].
  destruct (run_bucket st reason (Store.ListInstancesByStatesOlderThan (rows w) [st]
              (time_add now (- budget))) w) as (w' & E & R & V & G & I & K & F & C); try done.
  { intros x [? [?%list_elem_of_singleton ?]]%Hlist. done. }
  exists w'. split; [done|]. constructor; auto. congruence.
Qed.

Context (now : Time) (w w' : world) (Hk : Store.keyed (rows w)).
Context (Hs : swept st (time_add now (- budget)) reason w w').

Lemma swept_keyed : Store.keyed (rows w').
Proof.
  intros id i Hi. rewrite (sw_rows _ _ _ _ _ Hs) in Hi.
  destruct (kill_all_lookup _ _ _ _ _ _ _ Hi) as [[Hm _]|(x & _ & <- & _ & ->)]; [by apply Hk|].
  apply killed_ID.
Qed.

Lemma swept_clear id i :
  rows w' !! id = Some i → overdue now st budget i → exempt st i = true.
Proof.
  intros Hi (Ho & Ha & Ht). rewrite (sw_rows _ _ _ _ _ Hs) in Hi.
  destruct (kill_all_lookup _ _ _ _ _ _ _ Hi) as [[Hm Hall]|(x & _ & _ & _ & ->)].
  - apply Hall; [|by apply Hk]. apply (listed_rows (rows w) [st] _ Hk).
    rewrite (Hk _ _ Hm). split_and!; auto. rewrite Ho. by apply list_elem_of_singleton.
  - rewrite killed_state, Hst in Ho. by destruct reason as [| | |s]; [..|destruct (Hknown s)].
Qed.

Lemma swept_other id i :
  rows w' !! id = Some i → Store.IState i ≠ terminalStateForReason reason → rows w !! id = Some i.
Proof.
  intros Hi Hne. rewrite (sw_rows _ _ _ _ _ Hs) in Hi.
  destruct (kill_all_lookup _ _ _ _ _ _ _ Hi) as [[Hm _]|(x & _ & _ & _ & ->)]; [done|].
  by rewrite killed_state in Hne.
Qed.
End bucket.

(** C7: a fault-free watchdog pass clears every stuck instance. [sweepRuns] terminates with the same
    locks; afterwards no COLD_BOOTING row is older than 30 s and no SNAPSHOTTING row older than
    20 s, a WAKING row older than 5 s survives only if its deployment has a snapshot, and every
    instance whose row the pass changed has given its RAM reservation back. *)
Theorem watchdog_sweep_clears w :
  Ledger.inv (led w) → faults w = [] → locked w = ∅ → Store.keyed (rows w) →
  ∃ w', sweepRuns w = Some (tt, w') ∧ locked w' = ∅ ∧ Ledger.inv (led w') ∧
    (∀ id i, rows w' !! id = Some i →
       ¬ overdue (clock w) StateColdBooting ColdBootSweepBudget i ∧
       ¬ overdue (clock w) StateSnapshotting SnapshotSweepBudget i ∧
       (overdue (clock w) StateWaking WakingSweepBudget i →
        Store.DeploymentID i ≠ EmptyString ∧ hasSnapshot (Store.DeploymentID i) = true)) ∧
    (∀ id, rows w' !! id ≠ rows w !! id → Ledger.view (led w') !! id = None).
Proof.
  intros Hi Hf Hl Hk. unfold sweepRuns. erewrite run_bind by reflexivity.
  destruct (run_runOne StateWaking StuckWakingTimeout WakingSweepBudget ltac:(by intros ?) eq_refl
              (clock w) w) as (w1 & E1 & S1); auto.
  pose proof (swept_keyed _ _ _ _ _ _ Hk S1) as Hk1. pose proof S1 as [_ V1 G1 I1 K1 F1 C1].
  destruct (run_runOne StateColdBooting StuckColdBootTimeout ColdBootSweepBudget ltac:(by intros ?)
              eq_refl (clock w) w1) as (w2 & E2 & S2); auto; [congruence|].
  pose proof (swept_keyed _ _ _ _ _ _ Hk1 S2) as Hk2. pose proof S2 as [_ V2 G2 I2 K2 F2 C2].
  destruct (run_runOne StateSnapshotting StuckSnapshotTimeout SnapshotSweepBudget
              ltac:(by intros ?) eq_refl (clock w) w2) as (w3 & E3 & S3); auto; [congruence|].
  pose proof S3 as [_ V3 G3 I3 K3 F3 C3].
  rewrite (run_bind _ _ _ _ _ E1), (run_bind _ _ _ _ _ E2). exists w3.
  split_and!; [done|congruence|done| |].
  - intros id i Hrow. split_and!.
    + intros Ho. pose proof (swept_other _ _ _ _ _ _ S3 id i Hrow ltac:(by destruct Ho as [-> _])) as H2.
      pose proof (swept_clear _ StuckColdBootTimeout _ (ltac:(by intros ?)) eq_refl _ _ _ Hk1 S2 id i H2 Ho) as Hx.
      by rewrite exempt_other in Hx.
    + intros Ho.
      pose proof (swept_clear _ StuckSnapshotTimeout _ (ltac:(by intros ?)) eq_refl _ _ _ Hk2 S3 id i Hrow Ho) as Hx.
      by rewrite exempt_other in Hx.
    + intros Ho. pose proof (swept_other _ _ _ _ _ _ S3 id i Hrow ltac:(by destruct Ho as [-> _])) as H2.
      pose proof (swept_other _ _ _ _ _ _ S2 id i H2 ltac:(by destruct Ho as [-> _])) as H1.
      pose proof (swept_clear _ StuckWakingTimeout _ (ltac:(by intros ?)) eq_refl _ _ _ Hk S1 id i H1 Ho) as Hex.
      unfold exempt in Hex. rewrite !andb_true_iff, negb_true_iff, String.eqb_neq in Hex. tauto.
  - intros id Hne. destruct (decide (rows w3 !! id = rows w2 !! id)) as [R3|]; [|by apply V3].
    apply G3. destruct (decide (rows w2 !! id = rows w1 !! id)) as [R2|]; [|by apply V2].
    apply G2, V1. congruence.
Qed.

(** ** Park and evict without failures *)

(** [id] was taken off the node: lock and clock as before, reservation and VM gone, only its row
    changed, and that row is in [st]. *)
Record taken_down (id : string) (st : State) (ins : Store.Instance) (w w' : world) : Prop := {
  td_row : ∃ i', rows w' !! id = Some i' ∧ Store.IState i' = st ∧ Store.ID i' = Store.ID ins ∧
                 (st = StateStopped → Store.TerminalAt i' = Some (clock w)) ∧
                 (st = StateParked → Store.ParkedAt i' = clock w);
  td_rows k : k ≠ id → rows w' !! k = rows w !! k;
  td_view : Ledger.view (led w') = delete id (Ledger.view (led w));
  td_inv : Ledger.inv (led w');
  td_locked : locked w' = locked w;
  td_faults : faults w' = faults w;
  td_clock : clock w' = clock w;
}.

Lemma run_lockedRunning id ins w :
  faults w = [] → rows w !! id = Some ins → Store.IState ins = StateRunning →
  Store.AppID ins ∉ locked w →
  lockedRunning id w
  = Some (inr (Some ins), set_locked ({[Store.AppID ins]} ∪ locked w) w).
Proof.
  intros Hf Hr Hs Hn. unfold lockedRunning.
  rewrite (run_bind _ _ _ _ _ (run_loadInstance id w Hf)), Hr.
  erewrite run_bind by (unfold lockApp; by rewrite decide_False).
  erewrite run_bind by by apply run_loadInstance. simpl. by rewrite Hr, Hs.
Qed.

Lemma run_unlock app w0 w :
  app ∉ locked w0 → locked w = {[app]} ∪ locked w0 →
  unlockApp app w = Some (tt, set_locked (locked w0) w).
Proof.
  intros Hn Hl. unfold unlockApp. rewrite Hl, decide_True by set_solver.
  by assert (({[app]} ∪ locked w0) ∖ {[app]} = locked w0) as -> by set_solver.
Qed.

Lemma run_Evict id ins w :
  Ledger.inv (led w) → faults w = [] → rows w !! id = Some ins →
  Store.IState ins = StateRunning → Store.AppID ins ∉ locked w →
  ∃ w', Evict id w = Some (true, w') ∧ taken_down id StateStopped ins w w' ∧
        vms w' = vms w ∖ {[(nodeForRoute (Store.NodeID ins), id)]}.
Proof.
  intros Hi Hf Hr Hs Hn. destruct (Ledger.law_release (led w) id Hi) as [Hi' HE].
  unfold Evict. rewrite (run_bind _ _ _ _ _ (run_lockedRunning id ins w Hf Hr Hs Hn)).
  erewrite run_bind by by apply run_timedDestroy. cbv beta iota delta [negb].
  erewrite run_bind by reflexivity.
  match goal with |- ∃ _, bind _ _ ?v = _ ∧ _ => set (w1 := v) end.
  destruct (run_transition id (Store.AppID ins) StateStopped "state_transition" EmptyString ins w1)
    as (w2 & E2 & R2 & L2 & K2 & V2 & F2 & C2); try done; [rewrite Hs; by constructor|by rewrite Hs|].
  erewrite run_bind by exact E2. erewrite run_bind by (apply (run_unlock _ w); [done|by rewrite K2]).
  eexists. split; [reflexivity|]. split; [|by simpl; rewrite V2].
  constructor; simpl; rewrite ?L2, ?R2, ?F2, ?C2; simpl; auto.
  - eexists. split; [apply lookup_insert_eq|]. done.
  - intros k Hk. by rewrite lookup_insert_ne.
Qed.

Definition uncancelled (polls : list tail_poll) : Prop :=
  Forall (λ p, cancelled p = false ∧ cancelled_asleep p = false) polls.

Lemma run_force ins i w n :
  faults w = [] → rows w !! Store.ID ins = Some i →
  ∃ m, store_write (λ m, Store.DecrementInstanceTailCount m (Store.ID ins) n) w
       = Some (true, set_rows m w) ∧
       ∃ t, m = <[Store.ID ins := Store.set_tail t i]> (rows w).
Proof.
  intros Hf Hr. unfold store_write. rewrite (run_bind _ _ _ _ _ (run_fault w Hf)). cbv iota.
  unfold Store.DecrementInstanceTailCount. rewrite Hr.
  destruct (n <=? 0); [|destruct (_ <=? _)]; eexists; (split; [reflexivity|]); eauto.
  exists (Store.TailCount i). rewrite insert_id; [done|]. rewrite Hr. by destruct i.
Qed.

(** At most the row's tail counter changed. *)
Definition tail_changed (i : Store.Instance) (w w' : world) : Prop :=
  ∃ t, rows w' = <[Store.ID i := Store.set_tail t i]> (rows w) ∧ led w' = led w ∧
       locked w' = locked w ∧ vms w' = vms w ∧ faults w' = faults w ∧ clock w' = clock w.

Lemma tail_unchanged i w : rows w !! Store.ID i = Some i → tail_changed i w w.
Proof.
  intros Hr. exists (Store.TailCount i).
  assert (Store.set_tail (Store.TailCount i) i = i) as -> by by destruct i.
  by rewrite insert_id.
Qed.

Lemma run_tail_drain polls ins w :
  uncancelled polls → faults w = [] → rows w !! Store.ID ins = Some ins →
  ∃ w', tail_drain polls ins w = Some (true, w') ∧ tail_changed ins w w'.
Proof.
  intros Hp Hf Hr.
  assert (∃ w', Some (true, w) = Some (true, w') ∧ tail_changed ins w w') as Hsame
    by (eexists; eauto using tail_unchanged).
  assert (∃ w', tail_drain [] ins w = Some (true, w') ∧ tail_changed ins w w') as Hforce.
  { simpl. unfold readTable. erewrite run_bind by by erewrite run_bind by by apply run_fault.
    erewrite run_bind by reflexivity.
    match goal with |- ∃ _, bind (store_write (λ m, _ m _ ?n)) _ _ = _ ∧ _ =>
      destruct (run_force ins ins w n Hf Hr) as (m & E & t & ->) end.
    erewrite run_bind by exact E. eexists. split; [done|]. by exists t. }
  induction Hp as [|p rest [Hc Ha] _ IH]; [done|]. simpl. rewrite Hc.
  destruct (expired p); [done|]. destruct (tail_read p) as [c|]; [destruct (c =? 0)|];
    rewrite ?Ha; done.
Qed.

Lemma run_readTable {A} (x : option A) w : faults w = [] → readTable x w = Some (x, w).
Proof. intros Hf. unfold readTable. by rewrite (run_bind _ _ _ _ _ (run_fault w Hf)). Qed.

Lemma run_capture ins app plan w :
  faults w = [] → AppByID (Store.AppID ins) = Some app → PlanOf (aAccountID app) = Some plan →
  captureWarmSnapshotLocked ins w = Some (true, w).
Proof.
  intros Hf Ha Hp. unfold captureWarmSnapshotLocked.
  rewrite (run_bind _ _ _ _ _ (run_readTable _ w Hf)), Ha.
  destruct (aWarmSnapshotEnabled app); cbv beta iota delta [negb]; [|done].
  rewrite (run_bind _ _ _ _ _ (run_readTable _ w Hf)), Hp.
  destruct (Plan.WarmSnapshotAllowed plan); [|done].
  destruct (Store.FrameworkReadyAt ins); [|done]. erewrite run_bind by reflexivity.
  destruct (_ && _); [done|]. destruct (_ && _); [done|].
  by rewrite (run_bind _ _ _ _ _ (run_fault w Hf)).
Qed.

Lemma run_snapshot_core ins i app plan w :
  Ledger.inv (led w) → faults w = [] → rows w !! Store.ID ins = Some i →
  AppByID (Store.AppID ins) = Some app → PlanOf (aAccountID app) = Some plan →
  ∃ w', snapshot_core ins w = Some (true, w') ∧ taken_down (Store.ID ins) StateParked i w w' ∧
        vms w' = vms w ∖ {[(Store.NodeID ins, Store.ID ins)]}.
Proof.
  intros Hi Hf Hr Ha Hp. set (id := Store.ID ins) in *.
  destruct (Ledger.law_begin_snapshot (led w) id Hi) as [Hi1 HE1].
  destruct (Ledger.law_release _ id Hi1) as [Hi2 HE2].
  unfold snapshot_core. fold id. erewrite run_bind by reflexivity. erewrite run_bind by reflexivity.
  match goal with |- ∃ _, bind _ _ ?v = _ ∧ _ => set (w1 := v) end.
  assert (store_write (λ m, Store.UpdateInstanceStateWithTimestamp m id StateSnapshotting (clock w1)) w1
    = Some (true, set_rows (<[id := Store.set_parked (clock w) (Store.set_state StateSnapshotting i)]>
                              (rows w)) w1)) as Hw.
  { unfold store_write. erewrite run_bind by by apply run_fault. cbv iota.
    unfold Store.UpdateInstanceStateWithTimestamp. simpl. by rewrite Hr. }
  rewrite (run_bind _ _ _ _ _ Hw). erewrite run_bind by by eapply run_capture.
  cbv beta iota delta [negb]. erewrite run_bind by by apply run_fault. cbv beta iota.
  erewrite run_bind by reflexivity. erewrite run_bind by reflexivity.
  match goal with |- ∃ _, bind _ _ ?v = _ ∧ _ => set (w2 := v) end.
  destruct (run_transition id (Store.AppID ins) StateParked "state_transition" EmptyString
              (Store.set_parked (clock w) (Store.set_state StateSnapshotting i)) w2)
    as (w3 & E3 & R3 & L3 & K3 & V3 & F3 & C3); try done; [apply lookup_insert_eq|].
  unfold transition. erewrite run_bind by exact E3. exists w3. split_and!; [done| |by rewrite V3].
  constructor; rewrite ?R3, ?L3, ?K3, ?F3, ?C3; simpl; auto.
  - eexists. split; [apply lookup_insert_eq|]. done.
  - intros k Hk. by rewrite !lookup_insert_ne.
  - rewrite HE2, HE1. apply map_eq. intros k. destruct (decide (k = id)) as [->|];
      [by rewrite !lookup_delete_eq|]. by rewrite !lookup_delete_ne, lookup_alter_ne.
Qed.

Lemma run_Park polls id ins app plan w :
  Ledger.inv (led w) → faults w = [] → Store.keyed (rows w) → rows w !! id = Some ins →
  Store.IState ins = StateRunning → Store.AppID ins ∉ locked w → uncancelled polls →
  AppByID (Store.AppID ins) = Some app → PlanOf (aAccountID app) = Some plan →
  ∃ w', Park polls id w = Some (true, w') ∧ taken_down id StateParked ins w w' ∧
        vms w' = vms w ∖ {[(Store.NodeID ins, id)]}.
Proof.
  intros Hi Hf Hk Hr Hs Hn Hp Ha Hpl. pose proof (Hk _ _ Hr) as <-. unfold Park.
  rewrite (run_bind _ _ _ _ _ (run_lockedRunning _ ins w Hf Hr Hs Hn)). cbv beta iota.
  set (wl := set_locked _ w).
  assert (∃ w1, (if 0 <? Store.TailCount ins then tail_drain polls ins else ret true) wl
    = Some (true, w1) ∧ tail_changed ins wl w1) as (w1 & Hd & t & R1 & L1 & K1 & V1 & F1 & C1).
  { destruct (0 <? _); [by apply run_tail_drain|]. eexists. split; [done|]. by apply tail_unchanged. }
  destruct (run_snapshot_core ins (Store.set_tail t ins) app plan w1)
    as (w' & E & [R O V I K F C] & VM); try done;
    [by rewrite L1|by rewrite F1|by rewrite R1, lookup_insert_eq|].
  unfold snapshotAndPark.
  erewrite run_bind by (rewrite (run_bind _ _ _ _ _ Hd); exact E).
  erewrite run_bind by (apply (run_unlock _ w); [done|]; by rewrite K, K1).
  eexists. split; [reflexivity|]. split; [|simpl; by rewrite VM, V1].
  constructor; simpl; rewrite ?V, ?L1, ?F, ?F1, ?C, ?C1; auto.
  - by rewrite C1 in R.
  - intros k Hne. rewrite O, R1 by done. simpl. by rewrite lookup_insert_ne.
Qed.

(** park and evict do what they promise. When no call fails and the app's lock is free, [Park] of
    a RUNNING instance (with any uncancelled tail-drain history) terminates with the row PARKED and
    its park time stamped, and [Evict] with the row STOPPED and its end time stamped; both give back
    exactly this instance's reservation, remove its VM, touch no other row and release the lock. *)
Theorem park_evict_effective polls id ins app plan w :
  Ledger.inv (led w) → faults w = [] → Store.keyed (rows w) → rows w !! id = Some ins →
  Store.IState ins = StateRunning → Store.AppID ins ∉ locked w → uncancelled polls →
  AppByID (Store.AppID ins) = Some app → PlanOf (aAccountID app) = Some plan →
  (∃ w', Park polls id w = Some (true, w') ∧ taken_down id StateParked ins w w' ∧
         vms w' = vms w ∖ {[(Store.NodeID ins, id)]}) ∧
  (∃ w', Evict id w = Some (true, w') ∧ taken_down id StateStopped ins w w' ∧
         vms w' = vms w ∖ {[(nodeForRoute (Store.NodeID ins), id)]}).
Proof. intros. split; [by eapply run_Park|by apply run_Evict]. Qed.

(** ** Rebuilding the ledger *)

(** Iteration that establishes [P x] for every element, when later steps keep it. *)
Lemma wp_for_each_post {A} (I : world → Prop) (P : A → world → Prop) (R : world → world → Prop)
    (f : A → M unit) l w :
  (∀ w, R w w) → (∀ w1 w2 w3, R w1 w2 → R w2 w3 → R w1 w3) →
  (∀ x w w', R w w' → P x w → P x w') →
  (∀ x w, x ∈ l → I w → wp (f x) (λ _ w', I w' ∧ R w w' ∧ P x w') w) →
  I w → wp (for_each l f) (λ _ w', I w' ∧ R w w' ∧ ∀ x, x ∈ l → P x w') w.
Proof.
  intros Hr Ht HP. revert w. induction l as [|x l IH]; intros w Hf Hi.
  { apply wp_ret. split_and!; auto. set_solver. }
  apply wp_bind. eapply wp_mono; [apply Hf; [by left|done]|]. intros ? w1 (Hi1 & HR1 & HP1).
  eapply wp_mono; [apply IH; [|done]; intros y w' Hy; apply Hf; by right|].
  intros ? w2 (Hi2 & HR2 & HP2). split_and!; eauto. intros y [->|Hy]%elem_of_cons; eauto.
Qed.

(** What a reservation made while seeding says about its row. *)
Definition seeded (m : Store.table) (i : string) (e : Ledger.reservation) : Prop :=
  ∃ ins, m !! i = Some ins ∧ CountsForRAM (Store.IState ins) = true ∧
         Ledger.admissionMB e = BillableRAMMB (Store.RAMMB ins) ∧
         Ledger.countsConc e = negb (State_eqb (Store.IState ins) StateSnapshotting) ∧
         Ledger.deploymentID e = EmptyString.

Record seeding (w0 w : world) : Prop := {
  sd_inv : Ledger.inv (led w);
  sd_rows : rows w = rows w0;
  sd_locked : locked w = locked w0;
  sd_vms : vms w = vms w0;
  sd_faults : faults w0 = [] → faults w = [];
  sd_view i e : Ledger.view (led w) !! i = Some e → seeded (rows w0) i e;
}.

Definition grows (w w' : world) : Prop :=
  dom (Ledger.view (led w)) ⊆ dom (Ledger.view (led w')).

(** The row is reserved, or the ledger refused it at its turn. *)
Definition reserved_or_refused (app : App) (plan : string) (vcpu : Z) (ins : Store.Instance)
    (w : world) : Prop :=
  is_Some (Ledger.view (led w) !! Store.ID ins) ∨
  ∃ m err, dom m ⊆ dom (Ledger.view (led w)) ∧
           (Ledger.spec_admit m (seed_request app plan vcpu ins)).2 = Some err.

Lemma reserved_or_refused_grows app plan vcpu ins w w' :
  grows w w' → reserved_or_refused app plan vcpu ins w → reserved_or_refused app plan vcpu ins w'.
Proof.
  unfold grows. intros Hg [H|(m & err & Hm & He)].
  - left. apply elem_of_dom. apply elem_of_dom in H. set_solver.
  - right. exists m, err. set_solver.
Qed.

Lemma seed_request_ID app plan vcpu ins :
  Ledger.Instance_ (seed_request app plan vcpu ins) = Store.ID ins.
Proof. unfold seed_request. by destruct (default _ _). Qed.

Lemma seed_request_reservation app plan vcpu ins :
  let e := Ledger.new_reservation (seed_request app plan vcpu ins) in
  Ledger.countsConc e = true ∧ Ledger.deploymentID e = EmptyString ∧
  Ledger.admissionMB e = BillableRAMMB (Store.RAMMB ins).
Proof. unfold seed_request. by destruct (default _ _). Qed.

Lemma wp_seed_instance w0 app plan vcpu ins w :
  seeding w0 w → rows w0 !! Store.ID ins = Some ins →
  Ledger.wf_request (seed_request app plan vcpu ins) →
  wp (seed_instance app plan vcpu ins)
     (λ _ w', seeding w0 w' ∧ grows w w' ∧
              (CountsForRAM (Store.IState ins) = true → reserved_or_refused app plan vcpu ins w')) w.
Proof.
  intros [Hi Hr Hl Hv Hf He] Hrow Hwf. unfold seed_instance.
  destruct (CountsForRAM _) eqn:Hc; simpl; [|apply wp_ret; split_and!; [by constructor|unfold grows; done|done]].
  destruct (seed_request_reservation app plan vcpu ins) as (Hcc & Hdep & Hmb).
  pose proof (seed_request_ID app plan vcpu ins) as Hid.
  set (r := seed_request app plan vcpu ins) in *.
  destruct (Ledger.law_admit (led w) r Hi Hwf) as [Hi1 HE].
  apply wp_bind. unfold wp, ledger_Admit.
  destruct (Ledger.spec_admit_cases (Ledger.view (led w)) r) as [(err & Es)|(Hn & Es & _)];
    rewrite Es in HE; injection HE as Hview Herr; rewrite Herr.
  - split_and!; [constructor; simpl; rewrite ?Hview; auto|unfold grows; simpl; by rewrite Hview|].
    intros _. right. exists (Ledger.view (led w)), err. simpl. rewrite Hview. fold r. by rewrite Es.
  - rewrite Hid in Hview.
    destruct (State_eqb (Store.IState ins) StateSnapshotting) eqn:Hs.
    + destruct (Ledger.law_begin_snapshot _ (Store.ID ins) Hi1) as [Hi2 HE2].
      rewrite Hview, alter_insert_eq in HE2. unfold ledger_BeginSnapshot, modify.
      split_and!; [constructor; simpl; auto|unfold grows; simpl; rewrite HE2, dom_insert; set_solver|].
      * intros i e. rewrite HE2. intros [[<- <-]|[_ ?]]%lookup_insert_Some; [|auto].
        exists ins. rewrite Hs. by split_and!.
      * intros _. left. simpl. rewrite HE2, lookup_insert_eq. eauto.
    + simpl. split_and!; [constructor; simpl; auto|unfold grows; simpl; rewrite Hview, dom_insert; set_solver|].
      * intros i e. rewrite Hview. intros [[<- <-]|[_ ?]]%lookup_insert_Some; [|auto].
        exists ins. rewrite Hs. by split_and!.
      * intros _. left. simpl. rewrite Hview, lookup_insert_eq. eauto.
Qed.

Lemma wp_fault_ok (Q : bool → world → Prop) w :
  (∀ b l, (faults w = [] → b = false ∧ l = []) → Q b (set_faults l w)) → wp fault Q w.
Proof.
  intros H. unfold wp, fault. destruct (faults w) as [|b l] eqn:E; [|by apply H].
  rewrite <- (set_faults_id w), E. by apply H.
Qed.

Lemma wp_readTable_ok {A} (x : option A) (Q : option A → world → Prop) w :
  (∀ y l, y = None ∨ y = x → (faults w = [] → y = x ∧ l = []) → Q y (set_faults l w)) →
  wp (readTable x) Q w.
Proof.
  intros H. apply wp_bind, wp_fault_ok. intros [] l Hl; apply wp_ret, H; auto.
  - intros Hf. by destruct (Hl Hf).
  - intros Hf. by destruct (Hl Hf).
Qed.

Lemma wp_seed_app w0 app w :
  seeding w0 w → Store.keyed (rows w0) →
  (∀ plan l ins, PlanOf (aAccountID app) = Some plan → LimitsFor plan = Some l →
     rows w0 !! Store.ID ins = Some ins →
     Ledger.wf_request (seed_request app plan (Limits.VCPU l) ins)) →
  wp (seed_app app)
     (λ _ w', seeding w0 w' ∧ grows w w' ∧
        (faults w0 = [] → ∀ plan l ins, PlanOf (aAccountID app) = Some plan →
           LimitsFor plan = Some l → rows w0 !! Store.ID ins = Some ins →
           Store.AppID ins = aID app → CountsForRAM (Store.IState ins) = true →
           reserved_or_refused app plan (Limits.VCPU l) ins w')) w.
Proof.
  intros Hs Hk Hwf. pose proof (sd_faults _ _ Hs) as Hf0.
  assert (Hskip : ∀ l w, seeding w0 w → (faults w0 = [] → l = []) → seeding w0 (set_faults l w))
    by (intros l w' [] Hl; by constructor).
  assert (Hgl : ∀ l w, grows w (set_faults l w)) by (unfold grows; done).
  apply wp_bind, wp_readTable_ok. intros y l Hy Hl.
  destruct (y ≫= _) as [[plan lim]|] eqn:Ey; cbv beta iota.
  2: { apply wp_ret. split_and!; [apply Hskip; naive_solver|auto|].
       intros Hf plan lim ins Hp Hlim.
       destruct (Hl (Hf0 Hf)) as [-> _]. rewrite Hp in Ey. simpl in Ey. by rewrite Hlim in Ey. }
  assert (PlanOf (aAccountID app) = Some plan ∧ LimitsFor plan = Some lim) as [Hp Hlim].
  { destruct Hy as [->| ->]; [done|]. destruct (PlanOf _) as [p|]; [|done]. simpl in Ey.
    destruct (LimitsFor p) eqn:E; by simplify_eq/=. }
  apply wp_bind, wp_fault_ok. intros b l' Hb. destruct b; cbv beta iota.
  { apply wp_ret. split_and!; [apply Hskip; [apply Hskip|]; naive_solver|unfold grows; done|].
    intros Hf. destruct (Hl (Hf0 Hf)) as [_ ->]. by destruct (Hb eq_refl). }
  apply wp_bind, wp_reads. simpl rows. rewrite (sd_rows _ _ Hs).
  assert (seeding w0 (set_faults l' (set_faults l w))) as Hs'
    by (apply Hskip; [apply Hskip|]; naive_solver).
  eapply wp_mono; [apply (wp_for_each_post (seeding w0)
    (λ ins w', CountsForRAM (Store.IState ins) = true →
               reserved_or_refused app plan (Limits.VCPU lim) ins w') grows)|]; auto.
  - unfold grows. done.
  - unfold grows. intros; by etrans.
  - intros ins w1 w2 Hg HP Hc. by eapply reserved_or_refused_grows, HP.
  - intros ins w1 [Hrow _]%Store.elem_of_ListInstancesForApp Hs1; [|done].
    apply wp_seed_instance; eauto.
  - intros _ w' (Hs2 & Hg & HP). split_and!; auto. intros _ plan' lim' ins Hp' Hl' Hrow Ha Hc.
    simplify_eq. apply HP; [|done]. by apply Store.elem_of_ListInstancesForApp.
Qed.

(** the restart rebuild of the ledger. From an empty ledger [SeedLedger] terminates without
    touching rows, VMs or locks; every reservation it makes belongs to a row in a RAM-counting state
    and carries that row's billable RAM, counting toward concurrency unless the row is SNAPSHOTTING;
    without failures every such row of a listed app ends up reserved unless the ledger refused it.
    But no reservation carries its deployment: every per-deployment count is zero afterwards. *)
Theorem seed_ledger_rebuilds apps w :
  Ledger.inv (led w) → Ledger.view (led w) = ∅ → Store.keyed (rows w) →
  (∀ app plan l ins, app ∈ apps → PlanOf (aAccountID app) = Some plan → LimitsFor plan = Some l →
     rows w !! Store.ID ins = Some ins →
     Ledger.wf_request (seed_request app plan (Limits.VCPU l) ins)) →
  ∃ w', SeedLedger (Some apps) w = Some (true, w') ∧ seeding w w' ∧
    (faults w = [] → ∀ app plan l ins, app ∈ apps → PlanOf (aAccountID app) = Some plan →
       LimitsFor plan = Some l → rows w !! Store.ID ins = Some ins → Store.AppID ins = aID app →
       CountsForRAM (Store.IState ins) = true →
       reserved_or_refused app plan (Limits.VCPU l) ins w') ∧
    (∀ a d, d ≠ EmptyString → map_count (Ledger.counts_dep a d) (Ledger.view (led w')) = 0).
Proof.
  intros Hi Hv Hk Hwf.
  assert (seeding w w) as Hs by (constructor; auto; intros i e; by rewrite Hv, lookup_empty).
  assert (wp (for_each apps seed_app) (λ _ w', seeding w w' ∧ grows w w' ∧ ∀ app, app ∈ apps →
    faults w = [] → ∀ plan l ins, PlanOf (aAccountID app) = Some plan → LimitsFor plan = Some l →
      rows w !! Store.ID ins = Some ins → Store.AppID ins = aID app →
      CountsForRAM (Store.IState ins) = true →
      reserved_or_refused app plan (Limits.VCPU l) ins w') w) as Hrun.
  { apply wp_for_each_post; auto; [by unfold grows|unfold grows; intros; by etrans| |].
    - intros app w1 w2 Hg HP Hf plan l ins ? ? ? ? ?. eapply reserved_or_refused_grows; eauto.
    - intros app w1 Hin Hs1. apply wp_seed_app; eauto. }
  apply wp_run in Hrun as ([] & w' & E & Hs' & _ & HP). exists w'.
  split_and!; [by unfold SeedLedger; rewrite (run_bind _ _ _ _ _ E)|done|naive_solver|].
  intros a d Hd. apply map_count_zero. intros i e He.
  destruct (sd_view _ _ Hs' i e He) as (? & _ & _ & _ & _ & Hdep). unfold Ledger.counts_dep.
  rewrite Hdep. assert (String.eqb EmptyString d = false) as -> by (apply String.eqb_neq; congruence).
  apply andb_false_r.
Qed.

(** ** The watchdog's race with a boot that completes *)

(** KillStuck drops the reservation of a row it does not kill. When the row has already left the
    state the sweep saw (the boot won the race and the instance is RUNNING), [KillStuck] reports
    success, leaves the row and the VM as they are, yet deletes the instance's reservation: the RAM
    of a live microVM is no longer accounted for. *)
Theorem kill_stuck_race_drops_reservation id app reason ins w :
  known reason → Ledger.inv (led w) → faults w = [] → app ∉ locked w → rows w !! id = Some ins →
  Store.IState ins ≠ expectedStateForReason reason →
  ∃ w', KillStuck id app reason w = Some (true, w') ∧ rows w' = rows w ∧ vms w' = vms w ∧
        locked w' = locked w ∧ Ledger.view (led w') = delete id (Ledger.view (led w)).
Proof.
  intros Hk Hi Hf Hn Hr Hs. destruct (Ledger.law_release (led w) id Hi) as [_ HE].
  set (wl := set_locked ({[app]} ∪ locked w) w). assert (rows wl !! id = Some ins) as Hrl by done.
  exists (set_locked (locked w) (set_led (Ledger.release (led w) id) wl)). split; [|by split_and!].
  assert ((lockApp app;; kill_locked id app reason;; unlockApp app;; ret true) w
          = Some (true, set_locked (locked w) (set_led (Ledger.release (led w) id) wl))) as Hrun.
  { erewrite run_bind by (unfold lockApp; by rewrite decide_False). fold wl.
    erewrite run_bind.
    2: { unfold kill_locked. erewrite run_bind by by apply run_loadInstance. rewrite Hrl.
         unfold State_eqb. rewrite bool_decide_eq_false_2 by done. reflexivity. }
    by erewrite run_bind by (apply (run_unlock _ w); done). }
  destruct reason as [| | |s]; [exact Hrun..|by destruct (Hk s)].
Qed.
End lifecycle.

(** ** Witnesses: one RUNNING instance on a node it fills *)

Definition sample_ledger : Ledger.NodeLedger :=
  (Ledger.Admit Ledger.NewNodeLedger (Ledger.sample_request "i1" "n1")).1.

Definition sample_ins (s : State) : Store.Instance :=
  Store.mkIns "i1" "app" "dep" s (EmptyString, EmptyString, 0) 128 (10 * Second) 0 (10 * Second)
    None "n1" "w1" None None EmptyString None 0 0.

Definition sample_world (s : State) (fs : list bool) : world :=
  mkWorld {["i1" := sample_ins s]} sample_ledger ∅ {[("n1", "i1")]} [] [] [] ∅ [] [] [] [] ∅ [] fs
    (100 * Second).

Definition sample_app : App :=
  mkApp "app" "acct" 128 1 false false 0 None None false 0 0.

#[local] Instance sample_config : Config := {
  defaultLocalNodeID := "n1";
  hasSnapshot := λ _, false;
  AppByID := λ _, Some sample_app;
  PlanOf := λ _, Some "pro"%string;
  LatestSnapshotForTier := λ _ _, None;
  AppOfDeployment := λ _, Some "app"%string;
  ComputeNodeByID := λ _, None;
}.

Lemma sample_ledger_ok : Ledger.inv sample_ledger.
Proof. apply Ledger.Admit_refines; [apply Ledger.NewNodeLedger_ok|apply Ledger.sample_request_wf]. Qed.

Lemma sample_keyed s : Store.keyed {["i1"%string := sample_ins s]}.
Proof. by intros id ins [<- <-]%lookup_singleton_Some. Qed.

Lemma lifecycle_safe_witness :
  let w := sample_world StateRunning [false; true] in
  ∃ w', for_each [OpPark [] "i1"; OpLiveness true "i1" "liveness_failed"; OpEvict "i1";
                  OpKillStuck "i1" "app" StuckColdBootTimeout] run_lifecycle w
        = Some (tt, w') ∧ keeps ∅ w w'.
Proof.
  intros w. apply lifecycle_safe; [apply sample_ledger_ok|done|apply sample_keyed].
Defined.

Lemma watchdog_sweep_clears_witness :
  let w := sample_world StateColdBooting [] in
  ∃ w', sweepRuns w = Some (tt, w') ∧ locked w' = ∅ ∧
        rows w' !! "i1"%string ≠ rows w !! "i1"%string ∧
        Ledger.view (led w') !! "i1"%string = None.
Proof.
  intros w. destruct (watchdog_sweep_clears w)
    as (w' & E & Hl & _ & Hclear & Hv); [apply sample_ledger_ok|done|done|apply sample_keyed|].
  assert (rows w' !! "i1"%string ≠ rows w !! "i1"%string) as Hne.
  { intros Heq. destruct (Hclear "i1"%string (sample_ins StateColdBooting)) as [Hc _]; [by rewrite Heq|].
    apply Hc. split_and!; by vm_compute. }
  exists w'. split_and!; auto.
Defined.

Lemma park_evict_effective_witness :
  let w := sample_world StateRunning [] in
  ∃ w', Park [] "i1" w = Some (true, w') ∧
        taken_down "i1" StateParked (sample_ins StateRunning) w w'.
Proof.
  intros w. destruct (park_evict_effective [] "i1" (sample_ins StateRunning) sample_app "pro" w) as [(w' & E & Ht & _) _]; try done.
  - apply sample_ledger_ok.
  - apply sample_keyed.
  - constructor.
  - by exists w'.
Defined.

(** The node is full for a second instance before the kill and has room after it, although the first
    microVM is still running. *)
Lemma kill_stuck_race_drops_reservation_witness :
  let w := sample_world StateRunning [] in
  let big := Ledger.mkReq "i2" "app2" "dep2" PlanFree 128 [] 1 1 Ledger.KindWake "n1" EmptyString
               EmptyString 200 8 in
  ∃ w', KillStuck "i1" "app" StuckColdBootTimeout w = Some (true, w') ∧
        Store.IState <$> rows w' !! "i1"%string = Some StateRunning ∧
        ("n1"%string, "i1"%string) ∈ vms w' ∧
        (Ledger.spec_admit (Ledger.view (led w)) big).2
          = Some (Ledger.ErrCapacityRAM "n1" 136 136 200) ∧
        (Ledger.spec_admit (Ledger.view (led w')) big).2 = None.
Proof.
  intros w big. destruct (kill_stuck_race_drops_reservation "i1" "app" StuckColdBootTimeout
    (sample_ins StateRunning) w) as (w' & E & Hr & Hv & _ & HV); try done.
  - apply sample_ledger_ok.
  - exists w'. rewrite Hr, Hv, HV. by split_and!.
Defined.

Lemma seed_ledger_rebuilds_witness :
  let w := mkWorld {["i1"%string := sample_ins StateRunning]} Ledger.NewNodeLedger ∅ ∅ [] [] [] ∅
             [] [] [] [] ∅ [] [] 0 in
  ∃ w', SeedLedger (Some [sample_app]) w = Some (true, w') ∧ seeding w w' ∧
        reserved_or_refused sample_app "pro" 2 (sample_ins StateRunning) w' ∧
        map_count (Ledger.counts_dep "app" "dep") (Ledger.view (led w')) = 0.
Proof.
  intros w. destruct (seed_ledger_rebuilds [sample_app] w) as (w' & E & Hs & Hres & Hdep).
  - apply Ledger.NewNodeLedger_ok.
  - done.
  - apply sample_keyed.
  - intros app plan l ins Hin [= <-] [= <-] Hrow. rewrite list_elem_of_singleton in Hin. subst app.
    change (({["i1"%string := sample_ins StateRunning]} : Store.table) !! Store.ID ins = Some ins) in Hrow.
    apply lookup_singleton_Some in Hrow as [_ <-]. by constructor; vm_compute.
  - exists w'. split_and!; [done|done| |by apply Hdep].
    destruct (LimitsFor "pro") as [l|] eqn:El; [|done].
    assert (Limits.VCPU l = 2) as <- by (by vm_compute in El; simplify_eq/=).
    by apply (Hres eq_refl sample_app "pro"%string l); [left|..].
Defined.

(** a failed SNAPSHOTTING stamp strands the instance. When the write that stamps the row fails
    (the third external call of this park), [Park] still reports success after destroying the
    microVM and giving the reservation back, but the final RUNNING to PARKED move is not a legal
    edge, so the row stays RUNNING: the store routes traffic to an instance that no longer exists. *)
Theorem park_stamp_failure_strands :
  ∃ w', Park [] "i1" (sample_world StateRunning [false; false; true]) = Some (true, w') ∧
        Store.IState <$> rows w' !! "i1"%string = Some StateRunning ∧
        (("n1"%string, "i1"%string) ∉ vms w') ∧
        Ledger.view (led w') !! "i1"%string = None ∧ locked w' = ∅.
Proof.
  eexists. split; [by vm_compute|]. split_and!; [by vm_compute| |by vm_compute|by vm_compute].
  vm_compute. set_solver.
Qed.
End Lifecycle.
