(* ===== verification/Wake.v ===== *)
(** * pkg/sched: the wake path

    Models Engine.Wake, AdmitInstance, AdmitInstanceForDeployment, the shared
    admitAndDispatch with its four phases, admitAndDispatchForDeployment and
    Prime of src/pkg/sched/engine.go, over the node ledger of Admission.v and the
    chooser of Placement.v.

    Phase 3 of a wake runs without the app lock.  What other goroutines do in
    that window is a list of lifecycle operations of Engine.v (watchdog kills,
    evictions, parks, liveness destroys) that run before and after the vmmd call;
    the theorems hold for every such list and every failure pattern. *)

From S2P Require Import Prelude Api Machine Admission Capacity Placement InstanceStore.
From S2P Require Import Engine Lifecycle.

Module Wake.
Import Engine Lifecycle.
#[local] Open Scope engine_scope.

(** ** Data *)

Record Deployment := mkDep {
  dID : string;
  dLive : bool;                             (* Status == live *)
  dScope : string;
  dRootfsKey : string;
  dOverridePort : Z;
  dHealthcheckPath : string;
  dOverrideEnvSecrets : gmap string string; (* env key -> secret reference *)
}.

Record AppSpec := mkSpec {
  LayerKey : string;
  VCPUCount : Z;
  MemSizeMiB : Z;
  EgressMbit : Z;
  SealedEnv : list (string * string);
  APIEnv : list (string * string);
  Port : Z;
  HealthcheckPath : string;
}.

Record bootInput := mkBoot {
  insID : string;
  appID : string;
  depID : string;
  initState : State;
  haveSnap : bool;
  snapID : string;
  snapKey : string;
  nodeID : string;
  spec : AppSpec;
  wakeID : string;
}.

(** [ColdBoot] is Method == WAKE_COLD_BOOT. *)
Record WakeResult := mkResult {
  InstanceID : string;
  RNodeID : string;
  ColdBoot : bool;
  RWakeID : string;
  AtCapacity : bool;
  RPort : Z;
  RDeploymentID : string;
  RRequestCount : Z;
}.

Definition no_result : WakeResult :=
  mkResult EmptyString EmptyString false EmptyString false 0 EmptyString 0.
Definition at_capacity : WakeResult :=
  mkResult EmptyString EmptyString false EmptyString true 0 EmptyString 0.

Inductive wake_error :=
| ErrResolveApp
| ErrUnknownPlan (plan : string)
| ErrParkedApp                               (* joined with ErrPermanentWake *)
| ErrNoLiveDeployment
| ErrLiveDeployment
| ErrPlanLimitConcurrency (limits : Limits.t) (have : Z)
| ErrWaitForWarm (retryAfterS : Z) (limits : Limits.t) (have : Z)
| ErrAdmissionRefused (observedCents capCents : Z)
| ErrPlacement (e : Placement.place_error)
| ErrCreateInstance
| ErrLedger (e : Ledger.admit_error)
| ErrSealedEnv (missing : list string)
| ErrSigInvalid
| ErrVerifyIO
| ErrBoot
| ErrReread
| ErrStolen (was now : State)
| ErrRecordRuntime
| ErrRunningLookup
| ErrDeploymentLookup
| ErrSnapshotAndPark.

Inductive wakeOutcome :=
| wakeAdmit | wakeRejectAtCap | wakeCooldownHeld | wakeMinFloorAlready | wakeOverageCapReached.

(** ** The wake gate *)

Definition isOnScaleOutCooldown (now : Time) (app : App) (concurrency : Z) : bool :=
  if concurrency =? 0 then false
  else match aLastScaleOutAt app with
       | None => false
       | Some last =>
           match aPolicy app with
           | None => false
           | Some (_, cooldownS) =>
               if cooldownS <=? 0 then false
               else time_sub now last <? cooldownS *! Second
           end
       end.

Definition atMinFloorWithNoSignal (app : App) (concurrency : Z) : bool :=
  match aPolicy app with
  | None => false
  | Some (minInstances, _) => if minInstances <=? 0 then false else minInstances <=? concurrency
  end.

(** [int(remaining.Seconds())]: the float is exact to the nanosecond below 2^22 seconds. *)
Definition cooldownSRemaining (app : App) (now : Time) : Z :=
  match aLastScaleOutAt app with
  | None => 1
  | Some last =>
      match aPolicy app with
      | None => 1
      | Some (_, cooldownS) =>
          if cooldownS <=? 0 then 1
          else
          let remaining := cooldownS *! Second -! time_sub now last in
          if remaining <=? 0 then 1 else Z.quot remaining Second
      end
  end.

(** [overage] is the spend-cap checker ([None] when it is not wired): the observed and the cap cents
    when the cap is reached. *)
Definition admitGate (now : Time) (l : Ledger.NodeLedger)
    (overage : option (string → option (Z * Z))) (app : App) (limits : Limits.t)
  : wakeOutcome * Z * Z :=
  let concurrency := Ledger.Concurrency l (aID app) in
  let maxConc := aMaxConcurrency app in
  let maxConc := if (maxConc <=? 0) || (Limits.MaxConcurrency limits <? maxConc)
                 then Limits.MaxConcurrency limits else maxConc in
  if maxConc <=? concurrency then (wakeRejectAtCap, 0, 0)
  else if isOnScaleOutCooldown now app concurrency then (wakeCooldownHeld, 0, 0)
  else if atMinFloorWithNoSignal app concurrency then (wakeMinFloorAlready, 0, 0)
  else match overage with
       | None => (wakeAdmit, 0, 0)
       | Some check =>
           match check (aAccountID app) with
           | Some (observed, cap) => (wakeOverageCapReached, observed, cap)
           | None => (wakeAdmit, 0, 0)
           end
       end.

(** The refusal of each gate outcome, after the lock was released. *)
Definition gate_refusal (lift : bool) (now : Time) (l : Ledger.NodeLedger) (app : App)
    (limits : Limits.t) (o : wakeOutcome) (obs cap : Z) : wake_error + WakeResult :=
  let have := Ledger.Concurrency l (aID app) in
  match o with
  | wakeRejectAtCap => if lift then inr at_capacity else inl (ErrPlanLimitConcurrency limits have)
  | wakeCooldownHeld => inl (ErrWaitForWarm (cooldownSRemaining app now) limits have)
  | wakeMinFloorAlready => inl (ErrPlanLimitConcurrency limits have)
  | wakeOverageCapReached => if lift then inr at_capacity else inl (ErrAdmissionRefused obs cap)
  | wakeAdmit => inr no_result
  end.

(** ** The sealed environment *)

Definition DefaultEnvScope : string := "default".

(** The rows are (key, ciphertext); [None] is a store error. Go ranges over the override map in no
    fixed order; the model uses the map's list. The error lists the missing keys (their quoted,
    sorted rendering in the message is left out). *)
Definition loadSealedEnvFor (rows : option (list (string * string))) (override : gmap string string)
  : list string + list (string * string) :=
  match rows with
  | None => inl []
  | Some rows =>
      if bool_decide (override = ∅) then inr rows
      else
      let index : gmap string (string * string) :=
        foldl (λ m r, <[r.1 := r]> m) ∅ rows in
      let keys := (map_to_list override).*1 in
      let missing := filter (λ k, index !! k = None) keys in
      if bool_decide (missing = []) then inr (omap (λ k, index !! k) keys)
      else inl missing
  end.

Definition layerKey (rootfsKey deploymentID : string) : string :=
  if negb (String.eqb rootfsKey EmptyString) then rootfsKey
  else ("layers/" +:+ deploymentID +:+ ".ext4")%string.

(** A problem that reaches the client as is; the other two are plain errors. *)
Definition is_problem (e : Ledger.admit_error) : bool :=
  match e with
  | Ledger.ErrUnknownPlan _ | Ledger.ErrAlreadyAdmitted _ => false
  | _ => true
  end.
Definition is_concurrency (e : Ledger.admit_error) : bool :=
  match e with Ledger.ErrPlanLimitConcurrency _ _ => true | _ => false end.

(** ** What a wake reads and what happens around it *)

Class WakeEnv := {
  newID : Store.table → string;                 (* the id CreateInstance draws *)
  newWakeID : Store.table → string;             (* the UUIDv7 of the attempt *)
  fcVer : string;
  LiveDeployment : string → string → option Deployment;     (* app, scope *)
  DeploymentByID : string → option Deployment;
  AllowWakeApp : string → string → bool;        (* the wake limiter: app, plan *)
  AllowWakeAccount : string → string → bool;
  overage : option (string → option (Z * Z));
  LastWarmNode : string → string;
  preferredRegion : string → string → string;   (* upstream affinity: app, deployment *)
  ListAppSecretsInScope : string → string → string → option (list (string * string));
  ListAppEnvInScope : string → string → string → option (list (string * string));
  verifier : bool;                              (* a layer verifier is wired *)
  runtimeOf : string → string * string * Z;     (* netns, host ip, guest uid of a booted VM *)
  observedClass : string → string;              (* the characterize probe; empty: no report *)
  fleetOwner : string;
  capacityTable : Capacity.nodeCapacityTable;
  AppNodeID : string → option string;
  ActiveComputeNodes : option (list Placement.ComputeNode);
  ComputeNodeUsedMB : string → option Z;
  ComputeNodeRow : string → option Placement.ComputeNode;
  before_boot : list lifecycle;                 (* other goroutines, before the vmmd call *)
  after_boot : list lifecycle;                  (* and between its start and Phase 4 *)
}.

Abbreviation world := (@Engine.world Ledger.NodeLedger).
Abbreviation M := (@Engine.M Ledger.NodeLedger).

Section wake.
Context {cfg : Config} {env : WakeEnv}.
Implicit Types w : world.

Definition engine_view (w : world) : Placement.EngineView :=
  Placement.mkView fleetOwner capacityTable (clock w) (led w) AppNodeID ActiveComputeNodes
    ComputeNodeUsedMB ComputeNodeRow.

(** ** Resolution *)

Definition resolveAppForDeploy (appID : string) : M (wake_error + (App * string * Limits.t)) :=
  app <- readTable (AppByID appID);;
  match app with
  | None => ret (inl ErrResolveApp)
  | Some app =>
      plan <- readTable (PlanOf (aAccountID app));;
      match plan with
      | None => ret (inl ErrResolveApp)
      | Some plan =>
          match LimitsFor plan with
          | None => ret (inl (ErrUnknownPlan plan))
          | Some limits => ret (inr (app, plan, limits))
          end
      end
  end.

(** The app's status is the column of the row, or the eviction ParkDeployment wrote since. *)
Definition resolveApp (scope appID : string)
  : M (wake_error + (App * string * Limits.t * Deployment)) :=
  r <- resolveAppForDeploy appID;;
  match r with
  | inl err => ret (inl err)
  | inr (app, plan, limits) =>
      evicted <- reads (λ w, aEvictedCold app || bool_decide (appID ∈ evictedApps w));;
      if (evicted : bool) then ret (inl ErrParkedApp)
      else
      f <- fault;;
      if f then ret (inl ErrLiveDeployment)
      else match LiveDeployment appID scope with
           | None => ret (inl ErrNoLiveDeployment)
           | Some dep => ret (inr (app, plan, limits, dep))
           end
  end.

(** ** Placement and admission requests *)

Definition placement_request (appID : string) (app : App) (plan : string) (limits : Limits.t)
    (hint region : string) : Ledger.Request :=
  Ledger.mkReq EmptyString appID EmptyString plan (aRAMMB app) [] (Limits.VCPU limits)
    (aMaxConcurrency app) Ledger.KindWake EmptyString hint region 0 0.

Definition admit_request (id appID depID : string) (app : App) (plan : string) (limits : Limits.t)
    (p : Placement.t) : Ledger.Request :=
  Ledger.mkReq id appID depID plan (aRAMMB app) [] (Limits.VCPU limits) (aMaxConcurrency app)
    Ledger.KindWake (Placement.pNodeID p) EmptyString EmptyString (Placement.pCeilingMB p)
    (Placement.pVCPUBudget p).

(** store.CreateInstance: the new row, or [None] on a store error. *)
Definition create_instance (appID depID : string) (st : State) (ramMB : Z) (nodeID wakeID : string)
  : M (option Store.Instance) :=
  f <- fault;;
  if f then ret None
  else λ w, let '(ins, m) := Store.CreateInstance (rows w) (newID (rows w)) (clock w) appID depID
                               st ramMB nodeID wakeID in
            Some (Some ins, set_rows m w).

(** The sealed secrets of a deployment: [None] is an error. *)
Definition sealed_env (acct appID : string) (dep : Deployment)
  : M (list string + list (string * string)) :=
  let scope := if String.eqb (dScope dep) EmptyString then DefaultEnvScope else dScope dep in
  rows <- readTable (ListAppSecretsInScope acct appID scope);;
  ret (loadSealedEnvFor rows (dOverrideEnvSecrets dep)).

Definition loadAPIEnv (acct appID scope : string) : M (list (string * string)) :=
  let scope := if String.eqb scope EmptyString then DefaultEnvScope else scope in
  rows <- readTable (ListAppEnvInScope acct appID scope);;
  ret (default [] rows).

Definition app_spec (app : App) (limits : Limits.t) (dep : Deployment)
    (sealed apiEnv : list (string * string)) : AppSpec :=
  mkSpec (layerKey (dRootfsKey dep) (dID dep)) (i32 (Limits.VCPU limits)) (i32 (aRAMMB app))
    (i32 (Limits.EgressMbit limits)) sealed apiEnv (dOverridePort dep) (dHealthcheckPath dep).

(** ** Phases 3 and 4 *)

(** The layer attestation, when a verifier is wired: tampered, or an I/O error. *)
Definition verify_layer : M (option wake_error) :=
  if verifier then
    bad <- fault;;
    if negb bad then ret None
    else
    sig <- fault;;
    ret (Some (if (sig : bool) then ErrSigInvalid else ErrVerifyIO))
  else ret None.

Definition verify_reason (prefix : string) (e : wake_error) : string :=
  (prefix +:+ match e with ErrSigInvalid => "sig_invalid" | _ => "sig_verify_io" end)%string.

(** The vmmd create call: [None] on error (no VM exists), otherwise whether the boot was cold. *)
Definition vmm_create (restore : bool) (node id : string) : M (option bool) :=
  f <- fault;;
  if f then ret None
  else
  modify (λ w, set_vms ({[(node, id)]} ∪ vms w) w);;
  if restore then c <- fault;; ret (Some c) else ret (Some true).

(** Phase 4, under the re-acquired lock. *)
Definition commit (bi : bootInput) (cold : bool) : M (wake_error + WakeResult) :=
  let id := insID bi in
  fresh <- loadInstance id;;
  match fresh with
  | None =>
      ledger_Release id;;
      bestEffortDestroy (nodeID bi) id;;
      ret (inl ErrReread)
  | Some fresh =>
      if negb (State_eqb (Store.IState fresh) (initState bi)) then
        ledger_Release id;;
        bestEffortDestroy (nodeID bi) id;;
        ret (inl (ErrStolen (initState bi) (Store.IState fresh)))
      else
      now <- reads clock;;
      ok <- store_write (λ m, Store.SetInstanceRuntime m id (runtimeOf id) now);;
      if negb ok then
        bestEffortDestroy (nodeID bi) id;;
        ledger_Release id;;
        transitionWithKind id (appID bi) StateFailed "wake_boot_error" "record_runtime_failed";;
        ret (inl ErrRecordRuntime)
      else
      (if String.eqb (observedClass id) EmptyString then ret tt
       else f <- fault;; if f then ret tt else modify (add_class (appID bi, observedClass id)));;
      transition id (appID bi) StateRunning;;
      ret (inr (mkResult id (Store.NodeID fresh) cold (wakeID bi) false (Port (spec bi)) (depID bi)
                  (Store.RequestCount fresh)))
  end.

(** Phase 3's vmmd call and what follows it. *)
Definition boot_rpc (bi : bootInput) : M (wake_error + WakeResult) :=
  let id := insID bi in
  out <- vmm_create (haveSnap bi && negb (String.eqb (snapKey bi) EmptyString)) (nodeID bi) id;;
  for_each after_boot run_lifecycle;;
  match out with
  | None =>
      ledger_Release id;;
      transitionWithKind id (appID bi) StateFailed "wake_boot_error" "vmm_boot_failed";;
      ret (inl ErrBoot)
  | Some cold =>
      (if haveSnap bi && cold then MarkSnapshotStale (snapID bi) else ret tt);;
      lockApp (appID bi);;
      r <- commit bi cold;;
      unlockApp (appID bi);;
      ret r
  end.

(** From the release of the Phase 2 lock on. *)
Definition boot_and_commit (bi : bootInput) : M (wake_error + WakeResult) :=
  let id := insID bi in
  for_each before_boot run_lifecycle;;
  v <- verify_layer;;
  match v with
  | Some err =>
      transitionWithKind id (appID bi) StateFailed "wake_boot_error" (verify_reason EmptyString err);;
      ledger_Release id;;
      ret (inl err)
  | None => boot_rpc bi
  end.

(** ** Phase 2 *)

(** After the ledger admitted the instance, still under the lock. *)
Definition spec_and_boot (appID : string) (app : App) (plan : string) (limits : Limits.t)
    (dep : Deployment) (snap : option Snapshot) (p : Placement.t) (ins : Store.Instance)
  : M (wake_error + WakeResult) :=
  now <- reads clock;;
  f <- fault;;
  (if f then ret tt else modify (add_scaleOut (appID, now)));;
  sealed <- sealed_env (aAccountID app) appID dep;;
  match sealed with
  | inl missing => ret (inl (ErrSealedEnv missing))
  | inr sealed =>
      apiEnv <- loadAPIEnv (aAccountID app) appID (dScope dep);;
      let bi := mkBoot (Store.ID ins) appID (dID dep) (Store.IState ins) (bool_decide (is_Some snap))
                  (default EmptyString (sID <$> snap)) (default EmptyString (sStorageKey <$> snap))
                  (Placement.pNodeID p) (app_spec app limits dep sealed apiEnv) (Store.WakeID ins) in
      unlockApp appID;;
      boot_and_commit bi
  end.

(** Placement, the row, and the ledger. *)
Definition place_and_admit (lift : bool) (appID : string) (app : App) (plan : string)
    (limits : Limits.t) (dep : Deployment) : M (wake_error + WakeResult) :=
  wid <- reads (λ w, newWakeID (rows w));;
  tier <- usableSnapshotForWake fcVer (dID dep) plan;;
  let snap := tier.1 in
  let init := if bool_decide (is_Some snap) then StateWaking else StateColdBooting in
  placed <- reads (λ w, Placement.choosePlacementLocked (engine_view w)
                          (placement_request appID app plan limits (LastWarmNode appID)
                             (preferredRegion appID (dID dep))));;
  match placed with
  | inl e => unlockApp appID;; ret (inl (ErrPlacement e))
  | inr p =>
      now <- reads clock;;
      modify (add_warm (appID, Placement.pNodeID p, now));;
      created <- create_instance appID (dID dep) init (aRAMMB app) (Placement.pNodeID p) wid;;
      match created with
      | None => unlockApp appID;; ret (inl ErrCreateInstance)
      | Some ins =>
          err <- ledger_Admit (admit_request (Store.ID ins) appID (dID dep) app plan limits p);;
          match err with
          | Some e =>
              if lift && is_concurrency e then
                store_write (λ m, Store.DeleteInstance m (Store.ID ins));;
                unlockApp appID;;
                ret (inr at_capacity)
              else
                transitionWithKind (Store.ID ins) appID StateFailed "wake_boot_error" "admit_denied";;
                unlockApp appID;;
                ret (inl (ErrLedger e))
          | None => spec_and_boot appID app plan limits dep snap p ins
          end
      end
  end.

Definition admitAndDispatch (scope appID : string) (lift : bool) : M (wake_error + WakeResult) :=
  lockApp appID;;
  r <- resolveApp scope appID;;
  match r with
  | inl err => unlockApp appID;; ret (inl err)
  | inr (app, plan, limits, dep) =>
      if aWorker app then unlockApp appID;; ret (inr at_capacity)
      else if negb (AllowWakeApp appID plan) || negb (AllowWakeAccount (aAccountID app) plan)
      then unlockApp appID;; ret (inr at_capacity)
      else
      gate <- reads (λ w, (admitGate (clock w) (led w) overage app limits, clock w, led w));;
      match gate with
      | ((wakeAdmit, _, _), _, _) => place_and_admit lift appID app plan limits dep
      | ((o, obs, cap), now, l) =>
          unlockApp appID;; ret (gate_refusal lift now l app limits o obs cap)
      end
  end.

(** The floor and fan-out path: admits the given deployment and returns without booting it. *)
Definition admitAndDispatchForDeployment (scope appID deploymentID : string) (lift : bool)
  : M (wake_error + WakeResult) :=
  lockApp appID;;
  r <- resolveApp scope appID;;
  match r with
  | inl err => unlockApp appID;; ret (inl err)
  | inr (app, plan, limits, _) =>
      if aWorker app then unlockApp appID;; ret (inr at_capacity)
      else
      f <- fault;;
      if f then unlockApp appID;; ret (inl ErrDeploymentLookup)
      else
      match DeploymentByID deploymentID with
      | None => unlockApp appID;; ret (inr at_capacity)
      | Some dep =>
          if negb (dLive dep) then unlockApp appID;; ret (inr at_capacity)
          else
          placed <- reads (λ w, Placement.choosePlacementLocked (engine_view w)
                                  (placement_request appID app plan limits EmptyString EmptyString));;
          match placed with
          | inl e => unlockApp appID;; ret (inl (ErrPlacement e))
          | inr p =>
              wid <- reads (λ w, newWakeID (rows w));;
              created <- create_instance appID deploymentID StateColdBooting (aRAMMB app)
                           (Placement.pNodeID p) wid;;
              match created with
              | None => unlockApp appID;; ret (inl ErrCreateInstance)
              | Some ins =>
                  err <- ledger_Admit (admit_request (Store.ID ins) appID deploymentID app plan
                                         limits p);;
                  match err with
                  | Some e =>
                      store_write (λ m, Store.DeleteInstance m (Store.ID ins));;
                      if lift && is_problem e then ret (inr at_capacity)
                      else unlockApp appID;; ret (inl (ErrLedger e))
                  | None =>
                      unlockApp appID;;
                      ret (inr (mkResult (Store.ID ins) EmptyString false EmptyString false 0
                                  EmptyString (Store.RequestCount ins)))
                  end
              end
          end
      end
  end.

(** ** Entry points *)

Definition Wake (scope appID deploymentID : string) : M (wake_error + WakeResult) :=
  lockApp appID;;
  f <- fault;;
  if f then unlockApp appID;; ret (inl ErrRunningLookup)
  else
  running <- reads (λ w, Store.RunningInstanceForApp (rows w) appID);;
  match running with
  | Some ins =>
      dep <- readTable (LiveDeployment appID scope);;
      unlockApp appID;;
      let dep_id := if String.eqb deploymentID EmptyString then default EmptyString (dID <$> dep)
                    else deploymentID in
      ret (inr (mkResult (Store.ID ins) (Store.NodeID ins) false (Store.WakeID ins) false
                  (default 0 (dOverridePort <$> dep)) dep_id (Store.RequestCount ins)))
  | None =>
      unlockApp appID;;
      admitAndDispatch scope appID false
  end.

Definition AdmitInstance (scope appID deploymentID : string) : M (wake_error + WakeResult) :=
  if String.eqb deploymentID EmptyString then admitAndDispatch scope appID true
  else admitAndDispatchForDeployment scope appID deploymentID true.

Definition AdmitInstanceForDeployment (scope appID deploymentID : string)
  : M (wake_error + WakeResult) :=
  if String.eqb deploymentID EmptyString then AdmitInstance scope appID EmptyString
  else admitAndDispatchForDeployment scope appID deploymentID true.

(** ** Prime: boot a fresh deployment once, snapshot it, park it *)

(** From the ledger's admission on. Prime leaves the port and the healthcheck path of its spec
    empty. *)
Definition prime_boot (appID : string) (app : App) (limits : Limits.t) (dep : Deployment)
    (p : Placement.t) (ins : Store.Instance) : M (option wake_error) :=
  let id := Store.ID ins in
  let fail reason err :=
    ledger_Release id;;
    transitionWithKind id appID StateFailed "wake_boot_error" reason;;
    ret (Some err) in
  sealed <- sealed_env (aAccountID app) appID dep;;
  match sealed with
  | inl missing => ret (Some (ErrSealedEnv missing))
  | inr sealed =>
      loadAPIEnv (aAccountID app) appID (dScope dep);;
      v <- verify_layer;;
      match v with
      | Some err =>
          transitionWithKind id appID StateFailed "wake_boot_error" (verify_reason "prime_" err);;
          ledger_Release id;;
          ret (Some err)
      | None =>
          out <- vmm_create false (Placement.pNodeID p) id;;
          match out with
          | None => fail "prime_cold_boot_failed"%string ErrBoot
          | Some _ =>
              now <- reads clock;;
              ok <- store_write (λ m, Store.SetInstanceRuntime m id (runtimeOf id) now);;
              if negb ok then
                bestEffortDestroy (Placement.pNodeID p) id;;
                fail "prime_record_runtime_failed"%string ErrRecordRuntime
              else
              transition id appID StateRunning;;
              parked <- snapshotAndPark [] ins;;
              ret (if (parked : bool) then None else Some ErrSnapshotAndPark)
          end
      end
  end.

(** [None] is a nil error; the lock is released by the deferred call on every path. *)
Definition Prime (appID deploymentID : string) : M (option wake_error) :=
  lockApp appID;;
  err <- (r <- resolveAppForDeploy appID;;
          match r with
          | inl err => ret (Some err)
          | inr (app, plan, limits) =>
              dep <- readTable (DeploymentByID deploymentID);;
              match dep with
              | None => ret (Some ErrDeploymentLookup)
              | Some dep =>
                  placed <- reads (λ w, Placement.choosePlacementLocked (engine_view w)
                              (placement_request appID app plan limits EmptyString EmptyString));;
                  match placed with
                  | inl e => ret (Some (ErrPlacement e))
                  | inr p =>
                      wid <- reads (λ w, newWakeID (rows w));;
                      created <- create_instance appID deploymentID StateColdBooting (aRAMMB app)
                                   (Placement.pNodeID p) wid;;
                      match created with
                      | None => ret (Some ErrCreateInstance)
                      | Some ins =>
                          err <- ledger_Admit (admit_request (Store.ID ins) appID deploymentID app
                                                 plan limits p);;
                          match err with
                          | Some e =>
                              transitionWithKind (Store.ID ins) appID StateFailed "wake_boot_error"
                                "prime_admit_denied";;
                              ret (Some (ErrLedger e))
                          | None => prime_boot appID app limits dep p ins
                          end
                      end
                  end
              end
          end);;
  unlockApp appID;;
  ret err.

(** ** What a wake keeps

    Relative to [w0], everything except the instance [new] is kept as by the lifecycle
    operations, where the writes [A] of rows are allowed besides single edges; the held locks are
    [S]. *)
Record wkeeps (A : extra) (new : string) (S : gset string) (w0 w : world) : Prop := {
  wk_locked : locked w = S;
  wk_inv : Ledger.inv (led w);
  wk_view i e : i ≠ new → Ledger.view (led w) !! i = Some e →
    ∃ e0, Ledger.view (led w0) !! i = Some e0 ∧ (e = e0 ∨ e = Ledger.stop_counting e0);
  wk_legal : legal A w0 w;
  wk_keyed : Store.keyed (rows w);
  wk_vms n i : i ≠ new → (n, i) ∈ vms w → (n, i) ∈ vms w0;
}.

Lemma wkeeps_refl A new w :
  Ledger.inv (led w) → Store.keyed (rows w) → wkeeps A new (locked w) w w.
Proof.
  intros Hi Hk. constructor; eauto using legal_refl.
Qed.

Lemma wkeeps_step A new S S' w0 w w' :
  wkeeps A new S w0 w → keeps S' w w' → wkeeps A new S' w0 w'.
Proof.
  intros [Hl Hi Hv Hr Hk Hm] Hk'. pose proof (k_rows _ _ _ Hk') as Hrows.
  destruct Hk' as [Hl' Hi' Hv' Hr' Hm']. constructor; auto.
  - intros i e Hne He. destruct (Hv' i e He) as (e1 & He1 & Hc1).
    destruct (Hv i e1 Hne He1) as (e0 & He0 & Hc0). exists e0. split; [done|].
    destruct Hc1 as [->| ->], Hc0 as [->| ->]; auto.
  - eapply legal_trans; [exact Hr|by apply legal_plain].
  - by eapply keyed_kept.
Qed.

Lemma wkeeps_plain A new S w0 w : wkeeps no_extra new S w0 w → wkeeps A new S w0 w.
Proof. intros []. constructor; auto using legal_plain. Qed.

Lemma wkeeps_vm A new S w0 w n :
  wkeeps A new S w0 w → wkeeps A new S w0 (set_vms ({[(n, new)]} ∪ vms w) w).
Proof. intros []. constructor; simpl; eauto using legal_same. intros n' i Hne. set_solver. Qed.

(** One of the allowed writes of the row [new]. *)
Lemma wkeeps_row A new S w0 w ins :
  wkeeps A new S w0 w → Store.ID ins = new → A new (rows w !! new) (Some ins) →
  wkeeps A new S w0 (set_rows (<[new := ins]> (rows w)) w).
Proof.
  intros [] Hid HA. constructor; simpl; auto.
  - eapply legal_write; [done| |done]. intros k. simpl. destruct (decide (k = new)) as [->|Hne].
    + right. by rewrite lookup_insert_eq.
    + left. rewrite lookup_insert_ne by done. destruct (rows w !! k); by constructor.
  - intros id i. rewrite lookup_insert_Some. intros [[<- <-]|[_ ?]]; eauto.
Qed.

Lemma wkeeps_keeps_refl A new S w0 w : wkeeps A new S w0 w → keeps S w w.
Proof. intros []. subst S. by apply keeps_refl. Qed.

Lemma released (l : Ledger.NodeLedger) id :
  Ledger.inv l → Ledger.view (Ledger.release l id) !! id = None.
Proof. intros Hi. destruct (Ledger.law_release l id Hi) as [_ ->]. apply lookup_delete_eq. Qed.

(** The row of a wake before its commit. *)
Definition booting (i : Store.Instance) : Prop :=
  Store.IState i = StateWaking ∨ Store.IState i = StateColdBooting.

(** The writes of a wake that are not single edges: it creates the row [new] in a boot state, and
    may delete it again as long as it is in that state. *)
Definition created (new : string) : extra := λ id o o',
  id = new ∧ match o, o' with
             | None, Some i => Store.ID i = new ∧ booting i
             | Some i, None => booting i
             | _, _ => False
             end.

(** An error, or a refusal lifted to [AtCapacity], leaves no reservation behind; the
    sealed-environment error is [stuck_boot]. *)
Definition outcome (new : string) (r : wake_error + WakeResult) (w : world) : Prop :=
  match r with
  | inl (ErrSealedEnv _) => False
  | inl _ => Ledger.view (led w) !! new = None
  | inr res => if AtCapacity res then Ledger.view (led w) !! new = None else InstanceID res = new
  end.

(** Errors other than the sealed-environment one. *)
Definition plain_error (e : wake_error) : Prop := match e with ErrSealedEnv _ => False | _ => True end.

Lemma outcome_error new e w :
  plain_error e → Ledger.view (led w) !! new = None → outcome new (inl e) w.
Proof. by destruct e. Qed.

Lemma wp_bestEffortDestroy node id (Q : unit → world → Prop) w :
  (∀ l, Q tt (set_faults l w)) →
  (∀ l, Q tt (set_vms (vms w ∖ {[(nodeForRoute node, id)]}) (set_faults l w))) →
  wp (bestEffortDestroy node id) Q w.
Proof. intros H1 H2. apply wp_bind, wp_timedDestroy; intros l; by apply wp_ret. Qed.

Lemma commit_keeps A bi cold S w0 w :
  wkeeps A (insID bi) S w0 w →
  wp (commit bi cold) (λ r w', wkeeps A (insID bi) S w0 w' ∧ outcome (insID bi) r w') w.
Proof.
  intros Hw. pose proof (wkeeps_keeps_refl _ _ _ _ _ Hw) as Hk. pose proof (wk_inv _ _ _ _ _ Hw) as Hi.
  unfold commit. apply wp_bind, wp_loadInstance; intros l; cbv beta.
  2: destruct (rows w !! insID bi) as [fresh|] eqn:Hrow; [destruct (State_eqb _ _)|]; simpl negb;
       cbv iota.
  1,3,4: apply wp_bind, wp_modify, wp_bind, wp_bestEffortDestroy; intros l'; apply wp_ret;
    (split; [eapply wkeeps_step; [exact Hw|keeps_solve]|by apply released]).
  apply wp_bind, wp_reads, wp_bind, wp_store_write; [intros l'|intros l' m Hm]; simpl negb; cbv iota.
  - apply wp_bind, wp_bestEffortDestroy; intros l''; apply wp_bind, wp_modify, wp_bind, wp_transition;
      intros w' Ht; apply wp_ret; (split; [eapply wkeeps_step; [exact Hw|keeps_solve]|]);
      unfold outcome; rewrite (tr_led _ _ _ _ Ht); by apply released.
  - unfold Store.SetInstanceRuntime in Hm. simpl in Hm. rewrite Hrow in Hm. simplify_eq.
    set (w1 := set_rows _ _).
    assert (keeps S w w1) as Hk1.
    { apply (keeps_row S w (set_faults l' (set_faults l w)) _ fresh); [keeps_solve|done|by split_and!; auto]. }
    assert (∀ w2, keeps S w w2 → wp (transition (insID bi) (appID bi) StateRunning;;
        ret (inr (mkResult (insID bi) (Store.NodeID fresh) cold (wakeID bi) false (Port (spec bi))
                    (depID bi) (Store.RequestCount fresh))))
      (λ r w', wkeeps A (insID bi) S w0 w' ∧ outcome (insID bi) r w') w2) as Hlast.
    { intros w2 Hk2. apply wp_bind, wp_transition. intros w' Ht. apply wp_ret.
      split; [eapply wkeeps_step; [exact Hw|keeps_solve]|done]. }
    apply wp_bind. destruct (String.eqb _ _); [by apply wp_ret, Hlast|].
    apply wp_bind, wp_fault. intros [] l''; [apply wp_ret|apply wp_modify]; apply Hlast; keeps_solve.
Qed.

(** The environment's operations between two steps of a wake. *)
Lemma others_keep A new ops w0 w :
  wkeeps A new ∅ w0 w → wp (for_each ops run_lifecycle) (λ _ w', wkeeps A new ∅ w0 w') w.
Proof.
  intros Hw. eapply wp_mono.
  - apply (keeps_lifecycles ops w); [by eapply wkeeps_keeps_refl|apply Hw].
  - intros ? w' Hk. by eapply wkeeps_step.
Qed.

Lemma wkeeps_lock A new app w0 w :
  wkeeps A new ∅ w0 w → wkeeps A new {[app]} w0 (set_locked ({[app]} ∪ locked w) w).
Proof.
  intros Hw. assert ({[app]} ∪ locked w = {[app]}) as ->.
  { rewrite (wk_locked _ _ _ _ _ Hw). set_solver. }
  eapply wkeeps_step; [exact Hw|]. eapply keeps_locked, wkeeps_keeps_refl, Hw.
Qed.

Lemma wp_unlock A new app w0 w (Q : unit → world → Prop) :
  wkeeps A new {[app]} w0 w →
  (∀ w', wkeeps A new ∅ w0 w' → led w' = led w → rows w' = rows w → vms w' = vms w → Q tt w') →
  wp (unlockApp app) Q w.
Proof.
  intros Hw HQ. pose proof (wk_locked _ _ _ _ _ Hw) as Hl. apply wp_unlockApp; [rewrite Hl; set_solver|].
  apply HQ; try done. assert (locked w ∖ {[app]} = ∅) as -> by (rewrite Hl; set_solver).
  eapply wkeeps_step; [exact Hw|]. eapply keeps_locked, wkeeps_keeps_refl, Hw.
Qed.

Lemma wp_vmm_create restore node id (Q : option bool → world → Prop) w :
  (∀ l, Q None (set_faults l w)) →
  (∀ c l, Q (Some c) (set_faults l (set_vms ({[(node, id)]} ∪ vms w) w))) →
  wp (vmm_create restore node id) Q w.
Proof.
  intros H1 H2. apply wp_bind, wp_fault. intros [] l; [by apply wp_ret|]. cbv iota.
  apply wp_bind, wp_modify.
  assert (∀ l', set_faults l' (set_vms ({[(node, id)]} ∪ vms w) (set_faults l w))
                = set_faults l' (set_vms ({[(node, id)]} ∪ vms w) w)) as Hsw by by intros; destruct w.
  destruct restore.
  - apply wp_bind, wp_fault. intros c l'. apply wp_ret. rewrite Hsw. apply H2.
  - apply wp_ret. specialize (H2 true l). by destruct w.
Qed.

Lemma wkeeps_faults A new S w0 w l : wkeeps A new S w0 w → wkeeps A new S w0 (set_faults l w).
Proof. intros []. constructor; eauto using legal_same. Qed.

Lemma boot_rpc_keeps A bi w0 w :
  wkeeps A (insID bi) ∅ w0 w →
  wp (boot_rpc bi) (λ r w', wkeeps A (insID bi) ∅ w0 w' ∧ outcome (insID bi) r w') w.
Proof.
  intros Hw. apply wp_bind, wp_vmm_create; [intros l|intros cold l]; apply wp_bind.
  - eapply wp_mono; [by apply (others_keep A (insID bi) _ w0), wkeeps_faults|].
    intros ? w1 Hw1. pose proof (wkeeps_keeps_refl _ _ _ _ _ Hw1) as Hk1.
    apply wp_bind, wp_modify, wp_bind, wp_transition. intros w' Ht. apply wp_ret.
    split; [eapply wkeeps_step; [exact Hw1|keeps_solve]|].
    unfold outcome. rewrite (tr_led _ _ _ _ Ht). apply released, Hw1.
  - eapply wp_mono; [by apply (others_keep A (insID bi) _ w0), wkeeps_faults, wkeeps_vm|].
    intros ? w1 Hw1. apply wp_bind. apply (wp_mono _ (λ _ w', wkeeps A (insID bi) ∅ w0 w')).
    { pose proof (wkeeps_keeps_refl _ _ _ _ _ Hw1) as Hk1. destruct (_ && _); [|by apply wp_ret].
      unfold MarkSnapshotStale. repeat wp_step; (eapply wkeeps_step; [exact Hw1|keeps_solve]). }
    intros ? w2 Hw2. apply wp_bind, wp_lockApp; [rewrite (wk_locked _ _ _ _ _ Hw2); set_solver|].
    apply wp_bind. eapply wp_mono; [by apply (commit_keeps A bi cold {[appID bi]} w0), wkeeps_lock|].
    intros r w3 [Hw3 Ho]. apply wp_bind. eapply (wp_unlock A (insID bi) _ w0); [exact Hw3|].
    intros w4 Hw4 El _ _. apply wp_ret. split; [done|]. unfold outcome. by rewrite El.
Qed.

Lemma wp_verify_layer (Q : option wake_error → world → Prop) w :
  Q None w → (∀ l, Q None (set_faults l w)) →
  (∀ e l, plain_error e → Q (Some e) (set_faults l w)) → wp verify_layer Q w.
Proof.
  intros H0 H1 H. unfold verify_layer. destruct verifier; [|by apply wp_ret].
  apply wp_bind, wp_fault. intros [] l; [|by apply wp_ret].
  apply wp_bind, wp_fault. intros sig l'. apply wp_ret. apply (H _ l'). by destruct sig.
Qed.

Lemma boot_and_commit_keeps A bi w0 w :
  wkeeps A (insID bi) ∅ w0 w →
  wp (boot_and_commit bi) (λ r w', wkeeps A (insID bi) ∅ w0 w' ∧ outcome (insID bi) r w') w.
Proof.
  intros Hw0. apply wp_bind.
  eapply wp_mono; [by apply (others_keep A (insID bi) _ w0)|]. clear w Hw0. intros ? w Hw.
  apply wp_bind, wp_verify_layer; [by apply boot_rpc_keeps|intros l|intros err l Hpl].
  { by apply boot_rpc_keeps, wkeeps_faults. }
  apply (wkeeps_faults _ _ _ _ _ l) in Hw. pose proof (wkeeps_keeps_refl _ _ _ _ _ Hw) as Hk.
  apply wp_bind, wp_transition. intros w' Ht. apply wp_bind, wp_modify, wp_ret.
  split; [eapply wkeeps_step; [exact Hw|keeps_solve]|]. apply outcome_error; [done|].
  simpl. apply released. rewrite (tr_led _ _ _ _ Ht). apply Hw.
Qed.

(** What a sealed-environment error leaves behind: the app's lock, the reservation and the row in
    its boot state; no microVM was asked for. *)
Record stuck_boot (new app : string) (w0 w : world) : Prop := {
  sb_keeps : wkeeps (created new) new {[app]} w0 w;
  sb_led : ∃ e, Ledger.view (led w) = <[new := e]> (Ledger.view (led w0));
  sb_row : ∃ i, rows w = <[new := i]> (rows w0) ∧ Store.ID i = new ∧ booting i;
  sb_vms : vms w = vms w0;
}.

(** How a wake ends: all locks free and [outcome], or [stuck_boot] exactly when the sealed
    environment could not be loaded. *)
Definition wake_ends (new app : string) (w0 : world) (r : wake_error + WakeResult) (w : world)
  : Prop :=
  match r with
  | inl (ErrSealedEnv _) => stuck_boot new app w0 w
  | _ => wkeeps (created new) new ∅ w0 w ∧ outcome new r w
  end.

Lemma ends_ok new app w0 r w :
  wkeeps (created new) new ∅ w0 w → outcome new r w → wake_ends new app w0 r w.
Proof. destruct r as [[]|]; by simpl. Qed.

(** A step that only reads or writes the logs. *)
Lemma wkeeps_same A new S w0 w w' :
  wkeeps A new S w0 w → locked w' = locked w → led w' = led w → rows w' = rows w → vms w' = vms w →
  history w' = history w → wkeeps A new S w0 w'.
Proof.
  intros [] E1 E2 E3 E4 E5. constructor; rewrite ?E1, ?E2, ?E3, ?E4; eauto using legal_same.
Qed.

Lemma wp_release_and {T} A new app w0 w (r : T) (Q : T → world → Prop) :
  wkeeps A new {[app]} w0 w → (∀ w', wkeeps A new ∅ w0 w' → led w' = led w → Q r w') →
  wp (unlockApp app;; ret r) Q w.
Proof.
  intros Hw HQ. apply wp_bind. eapply wp_unlock; [exact Hw|]. intros w' Hw' El _ _. by apply wp_ret, HQ.
Qed.

Lemma wp_sealed_env acct app dep (Q : list string + list (string * string) → world → Prop) w :
  (∀ x l, Q x (set_faults l w)) → wp (sealed_env acct app dep) Q w.
Proof. intros H. apply wp_bind, wp_readTable. intros y l _. by apply wp_ret. Qed.

Lemma wp_loadAPIEnv acct app scope (Q : list (string * string) → world → Prop) w :
  (∀ x l, Q x (set_faults l w)) → wp (loadAPIEnv acct app scope) Q w.
Proof. intros H. apply wp_bind, wp_readTable. intros y l _. by apply wp_ret. Qed.

Lemma stuck_boot_same new app w0 w w' :
  stuck_boot new app w0 w → locked w' = locked w → led w' = led w → rows w' = rows w →
  vms w' = vms w → history w' = history w → stuck_boot new app w0 w'.
Proof.
  intros [Hk Hl Hr Hv] E1 E2 E3 E4 E5. constructor; rewrite ?E2, ?E3, ?E4; auto.
  by eapply wkeeps_same.
Qed.

Lemma spec_and_boot_keeps app a plan limits dep snap p ins w0 w :
  stuck_boot (Store.ID ins) app w0 w →
  wp (spec_and_boot app a plan limits dep snap p ins) (wake_ends (Store.ID ins) app w0) w.
Proof.
  intros Hw. apply wp_bind, wp_reads, wp_bind, wp_fault. intros b l. apply wp_bind.
  apply (wp_mono _ (λ _ w', stuck_boot (Store.ID ins) app w0 w')).
  { destruct b; [apply wp_ret|apply wp_modify]; by eapply stuck_boot_same. }
  intros ? w1 Hw1. apply wp_bind, wp_sealed_env. intros [missing|sealed] l'.
  { apply wp_ret. by eapply stuck_boot_same. }
  apply wp_bind, wp_loadAPIEnv. intros api l''. apply wp_bind.
  eapply wp_unlock; [do 2 apply wkeeps_faults; apply Hw1|]. intros w2 Hw2 _ _ _.
  eapply wp_mono; [by apply (boot_and_commit_keeps (created (Store.ID ins)) _ w0)|]. intros r w' [? ?]. by apply ends_ok.
Qed.

Lemma wp_usableSnapshot dep plan (Q : option Snapshot * string → world → Prop) w :
  (∀ x l, Q x (set_faults l w)) → wp (usableSnapshotForWake fcVer dep plan) Q w.
Proof.
  intros H.
  assert (∀ w', (∃ l, w' = set_faults l w) →
    wp (init <- readTable (LatestSnapshotForTier dep "init");;
        ret match init with
            | Some s => if usable fcVer s then (Some s, "init"%string)
                        else (None, "cold_boot_fallback"%string)
            | None => (None, "cold_boot_fallback"%string)
            end) Q w') as Hinit.
  { intros w' [l ->]. apply wp_bind, wp_readTable. intros y l' _. apply wp_ret. apply (H _ l'). }
  apply wp_bind. destruct (Plan.WarmSnapshotAllowed plan).
  - apply wp_readTable. intros [s|] l _; [|apply Hinit; eauto].
    destruct (usable fcVer s); [by apply wp_ret|apply Hinit; eauto].
  - apply wp_ret. apply Hinit. exists (faults w). by rewrite set_faults_id.
Qed.

Lemma wp_create_instance app dep st ram node wid (Q : option Store.Instance → world → Prop) w :
  (∀ l, Q None (set_faults l w)) →
  (∀ l ins, Store.ID ins = newID (rows w) → Store.IState ins = st →
     Q (Some ins) (set_rows (<[newID (rows w) := ins]> (rows w)) (set_faults l w))) →
  wp (create_instance app dep st ram node wid) Q w.
Proof.
  intros H1 H2. apply wp_bind, wp_fault. intros [] l; [by apply wp_ret|]. unfold wp. simpl. by apply H2.
Qed.

Lemma wkeeps_led A new S w0 w l :
  wkeeps A new S w0 w → Ledger.inv l →
  (∀ i, i ≠ new → Ledger.view l !! i = Ledger.view (led w) !! i) → wkeeps A new S w0 (set_led l w).
Proof.
  intros [Hl Hi Hv Hr Hk Hm] Hil Heq. constructor; eauto using legal_same. intros i e Hne He.
  apply Hv; [done|]. rewrite <- (Heq i Hne). exact He.
Qed.

(** Admitting [new]: refused, or its reservation is the only change to the ledger. *)
Lemma wp_admit A new S r w0 (Q : option Ledger.admit_error → world → Prop) w :
  wkeeps A new S w0 w → Ledger.wf_request r → Ledger.Instance_ r = new →
  (∀ e l, wkeeps A new S w0 (set_led l w) → Ledger.view l = Ledger.view (led w) →
     Q (Some e) (set_led l w)) →
  (∀ l, wkeeps A new S w0 (set_led l w) →
     Ledger.view l = <[new := Ledger.new_reservation r]> (Ledger.view (led w)) →
     Q None (set_led l w)) →
  wp (ledger_Admit r) Q w.
Proof.
  intros Hw Hwf Hid H1 H2. destruct (Ledger.law_admit (led w) r (wk_inv _ _ _ _ _ Hw) Hwf) as [Hi HE].
  unfold wp, ledger_Admit.
  assert (∀ v, Ledger.view (Ledger.try_admit (led w) r).1 = v →
    (∀ i, i ≠ new → v !! i = Ledger.view (led w) !! i) →
    wkeeps A new S w0 (set_led (Ledger.try_admit (led w) r).1 w)) as Hk.
  { intros v Hv Heq. apply wkeeps_led; [done|done|]. intros i Hne. rewrite Hv. by apply Heq. }
  destruct (Ledger.spec_admit_cases (Ledger.view (led w)) r) as [(e & Es)|(_ & Es & _)];
    rewrite Es in HE; pose proof (f_equal fst HE) as Hv; pose proof (f_equal snd HE) as He;
    cbn [fst snd] in Hv, He; rewrite He.
  - apply H1; [|done]. by apply (Hk _ Hv).
  - rewrite Hid in Hv. apply H2; [|done]. apply (Hk _ Hv). intros i Hne. by rewrite lookup_insert_ne.
Qed.

(** Sizes are positive and far from the int64 range; app ids contain no NUL byte. *)
Record wake_data_ok (app : string) : Prop := {
  wd_app : Ledger.no_nul app = true;
  wd_ram a : AppByID app = Some a → 0 < aRAMMB a < 2 ^ 60;
  wd_nodes nodes n : ActiveComputeNodes = Some nodes → n ∈ nodes →
    Placement.AdmissionCeilingMB n ≤ Ledger.ram_max ∧ Placement.VCPUBudget n ≤ Ledger.ram_max;
}.

Lemma LimitsFor_VCPU plan limits : LimitsFor plan = Some limits → 0 ≤ Limits.VCPU limits ≤ 4.
Proof. unfold LimitsFor, planLimits. intros H. split_ifs; vm_compute; split; discriminate. Qed.

(** The chosen node is one of the fleet. *)
Lemma chosen_in_fleet w r p :
  0 < Ledger.RAMMB r → Placement.choosePlacementLocked (engine_view w) r = inr p →
  ∃ nodes n usedMB, ActiveComputeNodes = Some nodes ∧ n ∈ nodes ∧
                    p = Placement.placement_of usedMB n.
Proof.
  intros Hr. unfold Placement.choosePlacementLocked. simpl.
  set (r' := if (_ : bool) then Placement.with_preferred r _ else r).
  assert (0 < Ledger.RAMMB r') as Hr' by (unfold r'; by destruct (negb _)).
  destruct (if negb _ then _ else None); [done|].
  destruct ActiveComputeNodes as [nodes|]; [|done].
  destruct (Placement.read_fleet _ _) as [usedMB usedVCPU].
  destruct (Placement.ChoosePlacement_cases usedMB usedVCPU nodes r' Hr')
    as [(n & -> & Hin & _)|(e & -> & _)]; [|done].
  intros [= <-]. eauto 10.
Qed.

Lemma wake_request_wf new app w a plan limits dep hint region p :
  wake_data_ok app → AppByID app = Some a → LimitsFor plan = Some limits →
  Placement.choosePlacementLocked (engine_view w)
    (placement_request app a plan limits hint region) = inr p →
  Ledger.wf_request (admit_request new app dep a plan limits p).
Proof.
  intros [Hn Hram Hnodes] Ha Hl Hp. specialize (Hram a Ha). apply LimitsFor_VCPU in Hl.
  apply chosen_in_fleet in Hp as (nodes & n & used & Hact & Hin & ->); [|simpl; lia].
  destruct (Hnodes nodes n Hact Hin).
  constructor; simpl; try done; try lia; unfold Ledger.ram_max, PerVMOverheadMB in *; try lia;
    unfold Ledger.admit_ceiling, Ledger.admit_vcpuCeiling; simpl;
    match goal with |- (if ?b then _ else _) ≤ _ => destruct b; [by vm_compute|lia] end.
Qed.

Section one_wake.
Context (app : string) (w0 : world).
Let new : string := newID (rows w0).
Context (Hfresh : Ledger.view (led w0) !! new = None) (Hnew : rows w0 !! new = None).
Context (Hok : wake_data_ok app).

(** Before the row is created nothing the wake depends on has changed. *)
Definition same_base (w : world) : Prop :=
  wkeeps (created new) new {[app]} w0 w ∧ rows w = rows w0 ∧ led w = led w0 ∧
  vms w = vms w0 ∧ clock w = clock w0.

Lemma same_base_faults l w : same_base w → same_base (set_faults l w).
Proof. intros (? & ? & ? & ? & ?). split_and!; auto. by apply wkeeps_faults. Qed.

Lemma refused_early r w :
  same_base w → outcome new r w0 →
  wp (unlockApp app;; ret r) (wake_ends new app w0) w.
Proof.
  intros (Hw & _ & El & _) Ho. eapply wp_release_and; [exact Hw|]. intros w' Hw' El'.
  apply ends_ok; [done|]. unfold outcome in *. by rewrite El', El.
Qed.

(** The ledger refused the instance whose row was just written. *)
Lemma admit_refused lift ins e lg w :
  wkeeps (created new) new {[app]} w0 (set_led lg w) → rows w = <[new := ins]> (rows w0) →
  Ledger.view lg = Ledger.view (led w0) → booting ins →
  wp (if lift && is_concurrency e
      then store_write (λ m, Store.DeleteInstance m new);; unlockApp app;; ret (inr at_capacity)
      else transitionWithKind new app StateFailed "wake_boot_error" "admit_denied";;
           unlockApp app;; ret (inl (ErrLedger e)))
     (wake_ends new app w0) (set_led lg w).
Proof.
  intros Hw2 Hr Hv Hboot.
  assert (∀ r w', outcome new r w0 → led w' = lg → wkeeps (created new) new ∅ w0 w' →
    wake_ends new app w0 r w') as Hend.
  { intros r w' Ho Elg Hw'. apply ends_ok; [done|]. unfold outcome in *. by rewrite Elg, Hv. }
  pose proof (wkeeps_keeps_refl _ _ _ _ _ Hw2) as Hk2.
  destruct (lift && is_concurrency e); apply wp_bind.
  - apply wp_store_write; [intros l''|intros l'' m Hm];
      (eapply wp_release_and; [|intros w' Hw' El'; by apply Hend]).
    + by apply wkeeps_faults.
    + unfold Store.DeleteInstance in Hm. simpl in Hm. rewrite Hr, lookup_insert_eq in Hm. simplify_eq.
      destruct Hw2 as [? ? ? Hr2 Hkey ?]. constructor; simpl; auto.
      * eapply legal_write; [exact Hr2| |done]. intros k. simpl. rewrite Hr.
        destruct (decide (k = new)) as [->|Hne].
        -- right. by rewrite lookup_delete_eq, lookup_insert_eq.
        -- left. rewrite lookup_delete_ne by done. destruct (_ !! k); by constructor.
      * intros id i [_ ?]%lookup_delete_Some. apply Hkey. simpl. by rewrite Hr.
  - apply wp_transition. intros w3 Ht. eapply wp_release_and.
    + eapply wkeeps_step; [exact Hw2|keeps_solve].
    + intros w' Hw' El'. apply Hend; [done| |done]. rewrite El'. by rewrite (tr_led _ _ _ _ Ht).
Qed.

Lemma place_and_admit_keeps lift a plan limits dep w :
  same_base w → AppByID app = Some a → LimitsFor plan = Some limits →
  wp (place_and_admit lift app a plan limits dep) (wake_ends new app w0) w.
Proof.
  intros Hw Ha Hlim. apply wp_bind, wp_reads. generalize (newWakeID (rows w)). intros wid.
  apply wp_bind, wp_usableSnapshot. intros tier l.
  apply (same_base_faults l) in Hw. revert Hw. generalize (set_faults l w). clear w. intros w Hw.
  cbv zeta. apply wp_bind, wp_reads. destruct (Placement.choosePlacementLocked _ _) as [e|p] eqn:Hp;
    [by apply refused_early|]. destruct Hw as (Hw & Er & El & Ev & Ec).
  assert (engine_view w = engine_view w0) as Hview by (unfold engine_view; by rewrite El, Ec).
  rewrite Hview in Hp.
  apply wp_bind, wp_reads, wp_bind, wp_modify, wp_bind, wp_create_instance; simpl rows; rewrite ?Er.
  { intros l'. apply refused_early; [|done]. split_and!; simpl; auto. by eapply wkeeps_same. }
  intros l' ins Hid Hst. fold new in Hid |- *. apply wp_bind. rewrite Hid.
  assert (booting ins) as Hboot by (unfold booting; rewrite Hst; destruct (bool_decide _); auto).
  assert (wkeeps (created new) new {[app]} w0 (set_rows (<[new := ins]> (rows w0))
    (set_faults l' (add_warm (app, Placement.pNodeID p, clock w) w)))) as Hw1.
  { assert (wkeeps (created new) new {[app]} w0 (add_warm (app, Placement.pNodeID p, clock w) w)) as Hwa
      by by eapply wkeeps_same.
    apply (wkeeps_faults _ _ _ _ _ l') in Hwa. apply (wkeeps_row _ _ _ _ _ ins) in Hwa; [|done|].
    - simpl rows in Hwa. by rewrite Er in Hwa.
    - simpl rows. by rewrite Er, Hnew. }
  eapply wp_admit; [exact Hw1|by eapply wake_request_wf|done|intros e lg Hw2 Hv|intros lg Hw2 Hv].
  - apply (admit_refused lift ins e lg); [exact Hw2|done|by rewrite Hv, <- El|done].
  - rewrite <- Hid. apply spec_and_boot_keeps. rewrite Hid. constructor; [exact Hw2| | |exact Ev].
    + eexists. rewrite <- El. exact Hv.
    + by exists ins.
Qed.

Lemma wp_resolveAppForDeploy (Q : wake_error + (App * string * Limits.t) → world → Prop) w :
  (∀ e l, plain_error e → Q (inl e) (set_faults l w)) →
  (∀ a plan limits l, AppByID app = Some a → LimitsFor plan = Some limits →
     Q (inr (a, plan, limits)) (set_faults l w)) →
  wp (resolveAppForDeploy app) Q w.
Proof.
  intros H1 H2. apply wp_bind, wp_readTable. intros y l [->|Hy]; [by apply wp_ret, H1|].
  destruct y as [a|]; [|by apply wp_ret, H1]. apply wp_bind, wp_readTable. intros [plan|] l' _.
  - destruct (LimitsFor plan) as [limits|] eqn:Hl; apply wp_ret;
      [by apply (H2 _ _ _ l')|by apply (H1 _ l')].
  - apply wp_ret. by apply (H1 _ l').
Qed.

Lemma wp_resolveApp scope (Q : wake_error + (App * string * Limits.t * Deployment) → world → Prop) w :
  (∀ e l, plain_error e → Q (inl e) (set_faults l w)) →
  (∀ a plan limits dep l, AppByID app = Some a → LimitsFor plan = Some limits →
     Q (inr (a, plan, limits, dep)) (set_faults l w)) →
  wp (resolveApp scope app) Q w.
Proof.
  intros H1 H2. apply wp_bind, wp_resolveAppForDeploy; [intros; by apply wp_ret, H1|].
  intros a plan limits l Ha Hl. apply wp_bind, wp_reads. destruct (_ || _); [by apply wp_ret, H1|].
  apply wp_bind, wp_fault. intros [] l'; [apply wp_ret; by apply (H1 _ l')|].
  destruct (LiveDeployment app scope); apply wp_ret; [by apply (H2 _ _ _ _ l')|by apply (H1 _ l')].
Qed.

Lemma admitAndDispatch_ends scope lift w :
  w = w0 → Ledger.inv (led w0) → locked w0 = ∅ → Store.keyed (rows w0) →
  wp (admitAndDispatch scope app lift) (wake_ends new app w0) w.
Proof.
  intros -> Hi Hl Hk. apply wp_bind, wp_lockApp; [rewrite Hl; set_solver|].
  assert (same_base (set_locked ({[app]} ∪ locked w0) w0)) as Hb.
  { split_and!; try done. apply wkeeps_lock. rewrite <- Hl at 1. by apply wkeeps_refl. }
  revert Hb. generalize (set_locked ({[app]} ∪ locked w0) w0). intros w Hb.
  apply wp_bind, wp_resolveApp.
  { intros e l He. by apply refused_early; [apply same_base_faults|apply outcome_error]. }
  intros a plan limits dep l Ha Hlim. apply (same_base_faults l) in Hb.
  destruct (aWorker a); [by apply refused_early|]. destruct (_ || _); [by apply refused_early|].
  apply wp_bind, wp_reads.
  assert (∀ o obs cap now lg, wp (unlockApp app;; ret (gate_refusal lift now lg a limits o obs cap))
            (wake_ends new app w0) (set_faults l w) ∨ o = wakeAdmit) as Href.
  { intros o obs cap now lg.
    destruct o; [by right|left..]; apply refused_early; try done; by destruct lift. }
  destruct (admitGate _ _ _ _ _) as [[[] obs] cap];
    [by apply place_and_admit_keeps|by edestruct Href..].
Qed.
End one_wake.

(** C2: a wake never leaks, whatever fails around it. From a state with all app locks free,
    [admitAndDispatch] returns (it never blocks) under every failure pattern and every sequence of
    watchdog kills, evictions, parks and liveness destroys in its unlocked window. Every other
    instance keeps its row identity, and no foreign reservation or VM appears. Every single write to
    the instances table moves each row along at most one edge of the state machine; the only other
    writes are the creation of the new row in a boot state and its deletion in that state. If it
    returns an error or [AtCapacity] no reservation of the new instance is left; if it returns
    success the result names the new instance; and all locks are free again. The one exception is the
    sealed-environment error, which always returns with the app's lock held, the reservation of the
    new instance in the ledger and its row in its boot state. *)
Theorem wake_never_leaks scope app lift w :
  Ledger.inv (led w) → locked w = ∅ → Store.keyed (rows w) →
  Ledger.view (led w) !! newID (rows w) = None → rows w !! newID (rows w) = None →
  wake_data_ok app →
  ∃ r w', admitAndDispatch scope app lift w = Some (r, w') ∧
          wake_ends (newID (rows w)) app w r w'.
Proof.
  intros Hi Hl Hk Hf Hn Hok. apply wp_run. by apply admitAndDispatch_ends.
Qed.

(** ** A wake that meets no failure *)

Lemma run_verify_layer w : faults w = [] → verify_layer w = Some (None, w).
Proof.
  intros Hf. unfold verify_layer. destruct verifier; [|done].
  by rewrite (run_bind _ _ _ _ _ (run_fault w Hf)).
Qed.

Lemma run_vmm_create restore node id w :
  faults w = [] →
  vmm_create restore node id w
  = Some (Some (negb restore), set_vms ({[(node, id)]} ∪ vms w) w).
Proof.
  intros Hf. unfold vmm_create. rewrite (run_bind _ _ _ _ _ (run_fault w Hf)). cbv iota.
  erewrite run_bind by reflexivity. destruct restore; [|done].
  by erewrite run_bind by by apply run_fault.
Qed.

(** The row, reservation, VM and locks after a successful commit. *)
Record woken (bi : bootInput) (w w' : world) : Prop := {
  wo_row : ∃ i, rows w' !! insID bi = Some i ∧ Store.IState i = StateRunning ∧
                Store.ID i = insID bi ∧ Store.StartedAt i = clock w;
  wo_rows k : k ≠ insID bi → rows w' !! k = rows w !! k;
  wo_led : led w' = led w;
  wo_vms : (nodeID bi, insID bi) ∈ vms w' ∧ ∀ n i, i ≠ insID bi → (n, i) ∈ vms w' ↔ (n, i) ∈ vms w;
  wo_locked : locked w' = locked w;
}.

Lemma run_commit bi cold ins w :
  faults w = [] → rows w !! insID bi = Some ins → Store.ID ins = insID bi →
  Store.IState ins = initState bi → (initState bi = StateWaking ∨ initState bi = StateColdBooting) →
  ∃ res w', commit bi cold w = Some (inr res, w') ∧ InstanceID res = insID bi ∧
    AtCapacity res = false ∧
    (∃ i, rows w' !! insID bi = Some i ∧ Store.IState i = StateRunning ∧ Store.ID i = insID bi ∧
          Store.StartedAt i = clock w) ∧
    (∀ k, k ≠ insID bi → rows w' !! k = rows w !! k) ∧
    led w' = led w ∧ vms w' = vms w ∧ locked w' = locked w.
Proof.
  intros Hf Hr Hid Hs Hinit. unfold commit.
  rewrite (run_bind _ _ _ _ _ (run_loadInstance _ w Hf)), Hr, Hs. unfold State_eqb at 1.
  rewrite bool_decide_eq_true_2 by done. cbv beta iota delta [negb].
  erewrite run_bind by reflexivity.
  set (ins1 := Store.set_runtime (runtimeOf (insID bi)) (clock w) ins).
  assert (store_write (λ m, Store.SetInstanceRuntime m (insID bi) (runtimeOf (insID bi)) (clock w)) w
          = Some (true, set_rows (<[insID bi := ins1]> (rows w)) w)) as Hw.
  { unfold store_write. rewrite (run_bind _ _ _ _ _ (run_fault w Hf)). cbv iota.
    unfold Store.SetInstanceRuntime. by rewrite Hr. }
  rewrite (run_bind _ _ _ _ _ Hw). cbv beta iota.
  set (w1 := set_rows _ w).
  assert (∃ w2, (if String.eqb (observedClass (insID bi)) EmptyString then ret tt
     else f <- fault;; if f then ret tt else modify (add_class (appID bi, observedClass (insID bi)))) w1
     = Some (tt, w2) ∧ rows w2 = rows w1 ∧ led w2 = led w ∧ vms w2 = vms w ∧ locked w2 = locked w ∧
       faults w2 = [] ∧ clock w2 = clock w) as (w2 & E2 & R2 & L2 & V2 & K2 & F2 & C2).
  { destruct (String.eqb _ _); [by eexists|]. erewrite run_bind by by apply run_fault. by eexists. }
  rewrite (run_bind _ _ _ _ _ E2). unfold transition.
  destruct (run_transition (insID bi) (appID bi) StateRunning "state_transition" EmptyString ins1 w2)
    as (w3 & E3 & R3 & L3 & K3 & V3 & F3 & C3); try done.
  - rewrite R2. apply lookup_insert_eq.
  - simpl. rewrite Hs. by destruct Hinit as [-> | ->]; constructor.
  - simpl. rewrite Hs. by destruct Hinit as [-> | ->].
  - erewrite run_bind by exact E3. do 2 eexists. split; [reflexivity|].
    rewrite R3, R2, L3, V3, K3. split_and!; try done.
    + eexists. split; [apply lookup_insert_eq|done].
    + intros k Hk. unfold w1. simpl rows. by rewrite !lookup_insert_ne.
Qed.

Lemma run_boot_and_commit bi ins w :
  before_boot = [] → after_boot = [] → faults w = [] → appID bi ∉ locked w →
  rows w !! insID bi = Some ins → Store.ID ins = insID bi → Store.IState ins = initState bi →
  (initState bi = StateWaking ∨ initState bi = StateColdBooting) →
  ∃ res w', boot_and_commit bi w = Some (inr res, w') ∧ InstanceID res = insID bi ∧
    AtCapacity res = false ∧ woken bi w w'.
Proof.
  intros Hb Ha Hf Hn Hr Hid Hs Hinit. unfold boot_and_commit. rewrite Hb.
  erewrite run_bind by reflexivity. rewrite (run_bind _ _ _ _ _ (run_verify_layer w Hf)). cbv iota.
  unfold boot_rpc. rewrite (run_bind _ _ _ _ _ (run_vmm_create _ _ _ w Hf)), Ha.
  erewrite run_bind by reflexivity. cbv iota. set (cold := negb _). set (w1 := set_vms _ w).
  assert (∃ w2, (if haveSnap bi && cold then MarkSnapshotStale (snapID bi) else ret tt) w1
     = Some (tt, w2) ∧ rows w2 = rows w ∧ led w2 = led w ∧ vms w2 = vms w1 ∧ locked w2 = locked w ∧
       faults w2 = [] ∧ clock w2 = clock w) as (w2 & E2 & R2 & L2 & V2 & K2 & F2 & C2).
  { clearbody cold. destruct (haveSnap bi && cold); [|exists w1; split_and!; done || exact Hf]. unfold MarkSnapshotStale.
    erewrite run_bind by by apply run_fault. eexists. split_and!; done || exact Hf. }
  rewrite (run_bind _ _ _ _ _ E2).
  erewrite run_bind by (unfold lockApp; by rewrite decide_False by by rewrite K2).
  destruct (run_commit bi cold ins (set_locked ({[appID bi]} ∪ locked w2) w2))
    as (res & w3 & E3 & Hres & Hcap & Hrow & Hrows & L3 & V3 & K3); try done; [by simpl; rewrite R2|].
  erewrite run_bind by exact E3.
  erewrite run_bind by (apply (run_unlock _ w); [done|]; rewrite K3; simpl; by rewrite K2).
  do 2 eexists. split_and!; [reflexivity|done|done|]. simpl in *. rewrite C2 in Hrow.
  constructor; simpl; auto.
  - intros k Hk. rewrite Hrows by done. by rewrite R2.
  - congruence.
  - rewrite V3, V2. unfold w1. simpl. set_solver.
Qed.

Lemma run_usableSnapshot dep plan w :
  faults w = [] → ∃ x, usableSnapshotForWake fcVer dep plan w = Some (x, w).
Proof.
  intros Hf. unfold usableSnapshotForWake. destruct (Plan.WarmSnapshotAllowed plan).
  - rewrite (run_bind _ _ _ _ _ (run_readTable _ w Hf)).
    destruct (LatestSnapshotForTier dep "warm") as [s|]; [destruct (usable fcVer s); [by eexists|]|];
      rewrite (run_bind _ _ _ _ _ (run_readTable _ w Hf)); by eexists.
  - erewrite run_bind by reflexivity. cbv beta iota.
    rewrite (run_bind _ _ _ _ _ (run_readTable _ w Hf)). by eexists.
Qed.

Lemma run_create_instance app dep st ram node wid w :
  faults w = [] →
  ∃ ins, create_instance app dep st ram node wid w
         = Some (Some ins, set_rows (<[newID (rows w) := ins]> (rows w)) w) ∧
         Store.ID ins = newID (rows w) ∧ Store.IState ins = st.
Proof.
  intros Hf. unfold create_instance. rewrite (run_bind _ _ _ _ _ (run_fault w Hf)). by eexists.
Qed.

(** The sealed environment of a deployment of the app. *)
Definition sealed_of (acct app : string) (dep : Deployment)
  : list string + list (string * string) :=
  loadSealedEnvFor
    (ListAppSecretsInScope acct app
       (if String.eqb (dScope dep) EmptyString then DefaultEnvScope else dScope dep))
    (dOverrideEnvSecrets dep).

(** Everything a wake of [app] needs up to the ledger's admission is in place. *)
Record ready (scope app : string) (a : App) (plan : string) (limits : Limits.t) (dep : Deployment)
    (p : Placement.t) (w : world) : Prop := {
  rd_inv : Ledger.inv (led w);
  rd_faults : faults w = [];
  rd_alone : before_boot = [] ∧ after_boot = [];
  rd_lock : app ∉ locked w;
  rd_app : AppByID app = Some a;
  rd_plan : PlanOf (aAccountID a) = Some plan;
  rd_limits : LimitsFor plan = Some limits;
  rd_dep : LiveDeployment app scope = Some dep;
  rd_worker : aWorker a = false;
  rd_active : aEvictedCold a = false ∧ app ∉ evictedApps w;
  rd_rate : AllowWakeApp app plan = true ∧ AllowWakeAccount (aAccountID a) plan = true;
  rd_gate : (admitGate (clock w) (led w) overage a limits).1.1 = wakeAdmit;
  rd_place : Placement.choosePlacementLocked (engine_view w)
               (placement_request app a plan limits (LastWarmNode app)
                  (preferredRegion app (dID dep))) = inr p;
  rd_data : wake_data_ok app;
  rd_room : (Ledger.spec_admit (Ledger.view (led w))
               (admit_request (newID (rows w)) app (dID dep) a plan limits p)).2 = None;
}.

Lemma ready_wf scope app a plan limits dep p w new :
  ready scope app a plan limits dep p w →
  Ledger.wf_request (admit_request new app (dID dep) a plan limits p).
Proof. intros []. by eapply wake_request_wf. Qed.

Section ready.
Context (scope app : string) (a : App) (plan : string) (limits : Limits.t) (dep : Deployment).
Context (p : Placement.t) (w0 : world) (R : ready scope app a plan limits dep p w0).
Let new : string := newID (rows w0).
Let req : Ledger.Request := admit_request new app (dID dep) a plan limits p.

Lemma run_resolveApp w :
  faults w = [] → evictedApps w = evictedApps w0 →
  resolveApp scope app w = Some (inr (a, plan, limits, dep), w).
Proof.
  intros Hf He. destruct R. unfold resolveApp, resolveAppForDeploy.
  erewrite run_bind.
  2: { rewrite (run_bind _ _ _ _ _ (run_readTable _ w Hf)), rd_app0.
       rewrite (run_bind _ _ _ _ _ (run_readTable _ w Hf)), rd_plan0, rd_limits0. reflexivity. }
  cbv beta iota. erewrite run_bind by reflexivity. destruct rd_active0 as [-> Hne]. rewrite He.
  rewrite bool_decide_eq_false_2 by done. cbv beta iota delta [orb].
  by rewrite (run_bind _ _ _ _ _ (run_fault w Hf)), rd_dep0.
Qed.

Lemma run_spec_and_boot snap ins sealed w :
  sealed_of (aAccountID a) app dep = inr sealed → faults w = [] → locked w = {[app]} ∪ locked w0 → rows w !! new = Some ins → Store.ID ins = new →
  Store.IState ins = StateWaking ∨ Store.IState ins = StateColdBooting →
  ∃ res w', spec_and_boot app a plan limits dep snap p ins w = Some (inr res, w') ∧
    InstanceID res = new ∧ AtCapacity res = false ∧
    (∃ i, rows w' !! new = Some i ∧ Store.IState i = StateRunning) ∧
    (∀ k, k ≠ new → rows w' !! k = rows w !! k) ∧ led w' = led w ∧
    (Placement.pNodeID p, new) ∈ vms w' ∧ locked w' = locked w0.
Proof.
  intros Hse Hf Hl Hr Hid Hs. destruct R. unfold spec_and_boot.
  erewrite run_bind by reflexivity. rewrite (run_bind _ _ _ _ _ (run_fault w Hf)). cbv iota.
  erewrite run_bind by reflexivity.
  erewrite run_bind.
  2: { unfold sealed_env. erewrite run_bind by by apply run_readTable. fold (sealed_of (aAccountID a) app dep).
       rewrite Hse. reflexivity. }
  cbv beta iota. erewrite run_bind.
  2: { unfold loadAPIEnv. erewrite run_bind by by apply run_readTable. reflexivity. }
  cbv beta zeta. erewrite run_bind by (apply (run_unlock _ w0); done).
  match goal with |- ∃ _ _, boot_and_commit ?b ?v = _ ∧ _ => set (bi := b); set (w1 := v) end.
  assert (insID bi = new) as Hnew by done.
  destruct (run_boot_and_commit bi ins w1) as (res & w2 & E & Hres & Hcap & [Hrow Hrows El Hvm Hk]);
    try done; [apply rd_alone0|apply rd_alone0|by rewrite Hnew|].
  rewrite Hnew in *. exists res, w2. split_and!; try done.
  - destruct Hrow as (i & ? & ? & _). by exists i.
  - by destruct Hvm.
Qed.

(** The wake gets as far as [spec_and_boot], with the new row written and the instance admitted. *)
Lemma run_to_spec lift :
  ∃ snap ins w, admitAndDispatch scope app lift w0 = spec_and_boot app a plan limits dep snap p ins w ∧
    faults w = [] ∧ locked w = {[app]} ∪ locked w0 ∧ rows w = <[new := ins]> (rows w0) ∧
    Store.ID ins = new ∧ (Store.IState ins = StateWaking ∨ Store.IState ins = StateColdBooting) ∧
    led w = (Ledger.try_admit (led w0) req).1.
Proof.
  pose proof R as []. destruct (Ledger.law_admit (led w0) req rd_inv0 (ready_wf _ _ _ _ _ _ _ _ _ R)) as [_ HE].
  assert ((Ledger.try_admit (led w0) req).2 = None) as Hadm.
  { pose proof (f_equal snd HE) as H2. cbn [snd] in H2. rewrite H2. exact rd_room0. }
  unfold admitAndDispatch. erewrite run_bind by (unfold lockApp; by rewrite decide_False).
  set (wl := set_locked _ w0). assert (faults wl = []) as Hfl by done.
  rewrite (run_bind _ _ _ _ _ (run_resolveApp wl Hfl eq_refl)). cbv beta iota.
  rewrite rd_worker0. destruct rd_rate0 as [-> ->]. cbv beta iota delta [negb orb].
  erewrite run_bind by reflexivity. change (clock wl) with (clock w0). change (led wl) with (led w0).
  destruct (admitGate _ _ _ _ _) as [[o x] y]. simpl in rd_gate0. rewrite rd_gate0.
  unfold place_and_admit. erewrite run_bind by reflexivity.
  destruct (run_usableSnapshot (dID dep) plan wl Hfl) as [tier Et].
  rewrite (run_bind _ _ _ _ _ Et). cbv zeta. erewrite run_bind by reflexivity.
  change (engine_view wl) with (engine_view w0). rewrite rd_place0.
  erewrite run_bind by reflexivity. erewrite run_bind by reflexivity.
  match goal with |- ∃ _ _ _, bind (create_instance ?x1 ?x2 ?st ?ram ?n ?wid) _ ?v = _ ∧ _ =>
    destruct (run_create_instance x1 x2 st ram n wid v) as (ins & Ei & Hid & Hst); [done|] end.
  rewrite (run_bind _ _ _ _ _ Ei). cbv beta iota. simpl rows in Ei, Hid |- *. fold new in Hid |- *.
  rewrite Hid. fold req.
  erewrite run_bind by (unfold ledger_Admit; simpl led; by rewrite Hadm). cbv beta iota.
  do 3 eexists. split; [reflexivity|]. split_and!; try done.
  rewrite Hst. destruct (bool_decide _); auto.
Qed.
End ready.

(** The app's count after an admission is within its concurrency cap. *)
Lemma admitted_within_cap m r limits m' :
  Ledger.is_wake r = true → LimitsFor (Ledger.ReqPlan r) = Some limits →
  m !! Ledger.Instance_ r = None → Ledger.spec_admit m r = (m', None) →
  let have := map_count (Ledger.counts_app (Ledger.AppID r)) m' in
  have ≤ Limits.MaxConcurrency limits ∧
  (0 < Ledger.MaxConcurrency r → have ≤ Ledger.MaxConcurrency r).
Proof.
  intros Hw Hl Hn. unfold Ledger.spec_admit, Ledger.admit_limits. rewrite Hw, Hl. simpl fmap. cbv iota.
  case_bool_decide; [done|]. cbv zeta. cbn [andb]. destruct (_ <=? _) eqn:Hcap; [done|].
  destruct (_ <? _); [done|]. destruct (_ <? _); [done|]. intros [= <-].
  unfold map_count in *. rewrite map_sum_insert by done.
  assert (Ledger.counts_app (Ledger.AppID r) (Ledger.new_reservation r) = true) as ->.
  { unfold Ledger.counts_app, Ledger.new_reservation. simpl. by rewrite Hw, String.eqb_refl. }
  unfold Ledger.admit_maxConc in Hcap. destruct (_ || _) eqn:Ho; breflect; lia.
Qed.

(** C6: a wake that meets no failure succeeds. When no store or VM call fails, no other operation
    runs in the wake's unlocked window, the app is active and no worker, the wake rate limiters
    allow it, its gate admits, the chooser found a node, the secrets load and the ledger has room,
    [admitAndDispatch] returns the new instance: its row is RUNNING, its microVM exists on the
    chosen node, the ledger holds exactly one more reservation (this instance's), the node is within
    its RAM ceiling and the app within its concurrency cap (the plan's, and the app's own when it
    sets one), no other row changed, and the locks are as before. *)
Theorem wake_succeeds scope app lift a plan limits dep p sealed w :
  ready scope app a plan limits dep p w → sealed_of (aAccountID a) app dep = inr sealed →
  let new := newID (rows w) in
  let req := admit_request new app (dID dep) a plan limits p in
  ∃ res w', admitAndDispatch scope app lift w = Some (inr res, w') ∧
    InstanceID res = new ∧ AtCapacity res = false ∧
    (∃ i, rows w' !! new = Some i ∧ Store.IState i = StateRunning) ∧
    (∀ k, k ≠ new → rows w' !! k = rows w !! k) ∧
    Ledger.inv (led w') ∧
    Ledger.view (led w') = <[new := Ledger.new_reservation req]> (Ledger.view (led w)) ∧
    map_sum (Ledger.ram_on (Placement.pNodeID p)) (Ledger.view (led w)) + Ledger.req_admissionMB req
      ≤ Ledger.admit_ceiling req ∧
    map_count (Ledger.counts_app app) (Ledger.view (led w')) ≤ Limits.MaxConcurrency limits ∧
    (0 < aMaxConcurrency a →
     map_count (Ledger.counts_app app) (Ledger.view (led w')) ≤ aMaxConcurrency a) ∧
    (Placement.pNodeID p, new) ∈ vms w' ∧ locked w' = locked w.
Proof.
  intros R Hse new req. pose proof R as [].
  destruct (Ledger.law_admit (led w) req rd_inv0 (ready_wf _ _ _ _ _ _ _ _ _ R)) as [Hi HE].
  destruct (Ledger.spec_admit_cases (Ledger.view (led w)) req) as [(e & Es)|(Habs & Es & Hram & _)].
  { unfold req, new in Es. by rewrite Es in rd_room0. }
  destruct (admitted_within_cap _ req limits _ eq_refl rd_limits0 Habs Es) as [Hc1 Hc2].
  rewrite Es in HE. pose proof (f_equal fst HE) as Hv. cbn [fst] in Hv.
  destruct (run_to_spec scope app a plan limits dep p w R lift)
    as (snap & ins & w1 & E1 & F1 & K1 & R1 & Hid & Hst & L1). rewrite E1.
  destruct (run_spec_and_boot scope app a plan limits dep p w R snap ins sealed w1)
    as (res & w2 & E2 & H1 & H2 & H3 & H4 & H5 & H6 & H7); try done.
  { rewrite R1. apply lookup_insert_eq. }
  exists res, w2. rewrite L1 in H5. pose proof (eq_trans (f_equal Ledger.view H5) Hv) as Hview.
  split_and!; try done; [|by rewrite H5|by rewrite Hview..].
  intros k Hk. rewrite H4, R1 by done. by rewrite lookup_insert_ne.
Qed.

(** ** The two paths that keep the app lock *)

(** No entry point of the app makes progress any more. *)
Definition app_blocked (app : string) (w : world) : Prop :=
  (∀ scope dep, Wake scope app dep w = None ∧ AdmitInstance scope app dep w = None ∧
                Prime app dep w = None) ∧
  (∀ id reason, known reason → KillStuck id app reason w = None).

Lemma locked_blocks app w : app ∈ locked w → app_blocked app w.
Proof.
  intros Hin. assert (lockApp app w = None) as Hl by (unfold lockApp; by rewrite decide_True).
  assert (∀ A (k : M A), (lockApp app;; k) w = None) as Hb by (intros; unfold bind; by rewrite Hl).
  split.
  - intros scope dep. unfold Wake, AdmitInstance, Prime, admitAndDispatch,
      admitAndDispatchForDeployment. rewrite !Hb. split_and!; try done. by destruct (String.eqb _ _).
  - intros id reason Hk. destruct reason as [| | |s]; simpl; [apply Hb..|by destruct (Hk s)].
Qed.

(** a missing secret wedges the app. When everything up to the ledger's admission succeeds but
    the deployment's sealed environment cannot be loaded, [admitAndDispatch] returns the error with
    the app's mutex still held, the RAM reservation still in the ledger and the row still in its boot
    state; from then on every wake, admit, prime and watchdog kill of that app blocks forever. *)
Theorem sealed_env_error_wedges_app scope app lift a plan limits dep p missing w :
  ready scope app a plan limits dep p w → sealed_of (aAccountID a) app dep = inl missing →
  let new := newID (rows w) in
  ∃ w', admitAndDispatch scope app lift w = Some (inl (ErrSealedEnv missing), w') ∧
    app_blocked app w' ∧ is_Some (Ledger.view (led w') !! new) ∧
    (∃ i, rows w' !! new = Some i ∧
          (Store.IState i = StateWaking ∨ Store.IState i = StateColdBooting)).
Proof.
  intros R Hse new. pose proof R as [].
  set (req := admit_request new app (dID dep) a plan limits p).
  destruct (Ledger.law_admit (led w) req rd_inv0 (ready_wf _ _ _ _ _ _ _ _ _ R)) as [Hi HE].
  destruct (Ledger.spec_admit_cases (Ledger.view (led w)) req) as [(e & Es)|(_ & Es & _)].
  { unfold req, new in Es. by rewrite Es in rd_room0. }
  rewrite Es in HE. pose proof (f_equal fst HE) as Hv. cbn [fst] in Hv.
  destruct (run_to_spec scope app a plan limits dep p w R lift)
    as (snap & ins & w1 & E1 & F1 & K1 & R1 & Hid & Hst & L1). rewrite E1. unfold spec_and_boot.
  erewrite run_bind by reflexivity. rewrite (run_bind _ _ _ _ _ (run_fault w1 F1)). cbv iota.
  erewrite run_bind by reflexivity.
  erewrite run_bind.
  2: { unfold sealed_env. erewrite run_bind by by apply run_readTable. fold (sealed_of (aAccountID a) app dep).
       rewrite Hse. reflexivity. }
  cbv beta iota. eexists. split; [reflexivity|]. split_and!.
  - apply locked_blocks. simpl. rewrite K1. set_solver.
  - change (is_Some (Ledger.view (led w1) !! new)). rewrite L1. fold new req. rewrite Hv.
    rewrite lookup_insert_eq. eauto.
  - exists ins. split; [|done]. simpl rows. rewrite R1. apply lookup_insert_eq.
Qed.

(** a refused floor admission wedges the app. When the ledger refuses the instance of
    [admitAndDispatchForDeployment] with a typed capacity problem, the call rolls the row back and
    reports [AtCapacity], but returns with the app's mutex held: the next wake, admit, prime or
    watchdog kill of the app blocks forever. *)
Theorem floor_refusal_wedges_app scope app depID a plan limits live dep p e w :
  faults w = [] → app ∉ locked w → AppByID app = Some a → PlanOf (aAccountID a) = Some plan →
  LimitsFor plan = Some limits → LiveDeployment app scope = Some live → aWorker a = false →
  aEvictedCold a = false → app ∉ evictedApps w → DeploymentByID depID = Some dep →
  dLive dep = true →
  Placement.choosePlacementLocked (engine_view w)
    (placement_request app a plan limits EmptyString EmptyString) = inr p →
  (Ledger.Admit (led w) (admit_request (newID (rows w)) app depID a plan limits p)).2 = Some e →
  is_problem e = true →
  ∃ w', admitAndDispatchForDeployment scope app depID true w = Some (inr at_capacity, w') ∧
    app_blocked app w' ∧ rows w' !! newID (rows w) = None.
Proof.
  intros Hf Hn Ha Hp Hl Hlive Hwk Hev Hne Hdep Hdl Hpl Hadm Hprob.
  unfold admitAndDispatchForDeployment.
  erewrite run_bind by (unfold lockApp; by rewrite decide_False). set (wl := set_locked _ w).
  assert (faults wl = []) as Hfl by done.
  erewrite run_bind.
  2: { unfold resolveApp, resolveAppForDeploy. erewrite run_bind.
       2: { rewrite (run_bind _ _ _ _ _ (run_readTable _ wl Hfl)), Ha.
            rewrite (run_bind _ _ _ _ _ (run_readTable _ wl Hfl)), Hp, Hl. reflexivity. }
       cbv beta iota. erewrite run_bind by reflexivity. rewrite Hev, bool_decide_eq_false_2 by done.
       cbv beta iota delta [orb]. rewrite (run_bind _ _ _ _ _ (run_fault wl Hfl)), Hlive. reflexivity. }
  cbv beta iota. rewrite Hwk. rewrite (run_bind _ _ _ _ _ (run_fault wl Hfl)), Hdep, Hdl.
  cbv beta iota delta [negb]. erewrite run_bind by reflexivity.
  change (engine_view wl) with (engine_view w). rewrite Hpl. erewrite run_bind by reflexivity.
  match goal with |- ∃ _, bind (create_instance ?x1 ?x2 ?st ?ram ?n ?wid) _ ?v = _ ∧ _ =>
    destruct (run_create_instance x1 x2 st ram n wid v) as (ins & Ei & Hid & _); [done|] end.
  rewrite (run_bind _ _ _ _ _ Ei). cbv beta iota. simpl rows in Hid |- *. rewrite Hid.
  erewrite run_bind by (unfold ledger_Admit; simpl led; simpl Ledger.try_admit; by rewrite Hadm).
  cbv beta iota. erewrite run_bind.
  2: { unfold store_write. erewrite run_bind by by apply run_fault. cbv iota.
       unfold Store.DeleteInstance. simpl rows. rewrite lookup_insert_eq. reflexivity. }
  cbv beta iota. rewrite Hprob. eexists. split; [reflexivity|]. split.
  - apply locked_blocks. simpl. set_solver.
  - simpl rows. apply lookup_delete_eq.
Qed.
End wake.

(** ** The gate and the ledger *)

(** the wake gate and the ledger agree on the concurrency cap. For an instance that is not yet
    in the ledger, [admitGate] rejects at the cap exactly when the [Admit] that follows would refuse
    the wake for concurrency: the gate neither turns away a wake the ledger would take, nor lets one
    through that the ledger refuses for that reason. *)
Theorem gate_agrees_with_ledger now l overage a limits r :
  LimitsFor (Ledger.ReqPlan r) = Some limits → Ledger.ReqKind r = Ledger.KindWake →
  Ledger.AppID r = aID a → Ledger.MaxConcurrency r = aMaxConcurrency a →
  Ledger.entries l !! Ledger.Instance_ r = None →
  (admitGate now l overage a limits).1.1 = wakeRejectAtCap ↔
  ∃ maxc have, (Ledger.Admit l r).2 = Some (Ledger.ErrPlanLimitConcurrency maxc have).
Proof.
  intros Hl Hk Ha Hm Hn. unfold admitGate, Ledger.Admit, Ledger.admit_limits, Ledger.is_wake.
  rewrite Hk, Hl, Ha. simpl fmap. cbv iota. rewrite Hn, bool_decide_eq_false_2 by (by intros [? ?]).
  unfold Ledger.Concurrency, Ledger.admit_maxConc. rewrite Hm. cbv zeta.
  destruct (_ <=? zget _ _); simpl; [split; [eauto|done]|].
  split.
  - destruct (isOnScaleOutCooldown _ _ _); [done|]. destruct (atMinFloorWithNoSignal _ _); [done|].
    destruct overage as [check|]; [|done]. by destruct (check _) as [[]|].
  - intros (maxc & have & He). repeat case_match; simplify_eq/=; done.
Qed.

(** ** The cooldown hint *)

(** the Retry-After hint of a held cooldown is the remaining time rounded down to seconds: it is
    never more than the customer has to wait, and it is 0 during the last second, although the
    response needs a positive value. *)
Theorem cooldown_hint_rounds_down app now concurrency last minI cooldownS :
  aLastScaleOutAt app = Some last → aPolicy app = Some (minI, cooldownS) →
  0 ≤ now - last < max_duration → 0 ≤ cooldownS < 2 ^ 31 →
  isOnScaleOutCooldown now app concurrency = true →
  let remaining := cooldownS * Second - (now - last) in
  let hint := cooldownSRemaining app now in
  0 < remaining ∧ hint * Second ≤ remaining < (hint + 1) * Second ∧
  (hint = 0 ↔ remaining < Second).
Proof.
  intros Hlast Hpol Hnow Hcd. unfold isOnScaleOutCooldown, cooldownSRemaining. rewrite Hlast, Hpol.
  destruct (concurrency =? 0); [done|]. destruct (cooldownS <=? 0) eqn:Ec; [done|]. breflect.
  assert (cooldownS *! Second = cooldownS * Second) as -> by (apply i64_id; unfold in_i64, Second; lia).
  intros Hlt%Z.ltb_lt. cbv zeta.
  assert (time_sub now last = now - last) as Ht by (unfold time_sub, max_duration, min_duration in *; lia).
  rewrite Ht in *.
  rewrite i64_id by (unfold in_i64, Second, max_duration in *; lia).
  destruct (_ <=? 0) eqn:Er; breflect; [lia|].
  pose proof (Z.quot_rem' (cooldownS * Second - (now - last)) Second) as Hq.
  pose proof (Z.rem_bound_pos (cooldownS * Second - (now - last)) Second ltac:(lia) ltac:(unfold Second; lia)).
  unfold Second in *. split_and!; lia.
Qed.

(** ** The sealed environment *)

Lemma index_lookup (rows : list (string * string)) k (m : gmap string (string * string)) :
  NoDup rows.*1 → (∀ r, r ∈ rows → m !! r.1 = None) →
  ∀ r, foldl (λ m r, <[r.1 := r]> m) m rows !! k = Some r ↔ m !! k = Some r ∨ (r ∈ rows ∧ r.1 = k).
Proof.
  revert m. induction rows as [|x rows IH]; intros m Hnd Hm r; [simpl; set_solver|].
  apply NoDup_cons in Hnd as [Hx Hnd]. simpl. rewrite IH; [|done|].
  - rewrite lookup_insert_Some. split.
    + intros [[[<- <-]|[? ?]]|[? ?]]; [right; split; [by left|done]|by left|right; split; [by right|done]].
    + intros [Hk|[[->|?]%elem_of_cons Hk]]; [left; right|left; left; done|right; done].
      split; [|done]. intros <-. rewrite (Hm x ltac:(by left)) in Hk. done.
  - intros y Hy. rewrite lookup_insert_ne; [apply Hm; by right|].
    intros Heq. apply Hx. rewrite Heq. by apply list_elem_of_fmap_2.
Qed.

(** the staged secrets are exactly the requested ones. For a deployment with an allowlist,
    [loadSealedEnvFor] succeeds exactly when every requested key has a row; it then stages exactly
    the rows of the requested keys, and otherwise it reports exactly the keys without a row. Without
    an allowlist every row is staged. *)
Theorem sealed_env_exact rows override :
  NoDup rows.*1 →
  (override = ∅ → loadSealedEnvFor (Some rows) override = inr rows) ∧
  (override ≠ ∅ →
   match loadSealedEnvFor (Some rows) override with
   | inr out => (∀ k, is_Some (override !! k) → ∃ c, (k, c) ∈ rows) ∧
                (∀ k c, (k, c) ∈ out ↔ is_Some (override !! k) ∧ (k, c) ∈ rows)
   | inl missing => (∃ k, k ∈ missing) ∧
                    (∀ k, k ∈ missing ↔ is_Some (override !! k) ∧ ∀ c, (k, c) ∉ rows)
   end).
Proof.
  intros Hnd. split; intros Hov; unfold loadSealedEnvFor.
  { by rewrite bool_decide_eq_true_2. }
  rewrite bool_decide_eq_false_2 by done. set (index := foldl _ _ _).
  assert (∀ k r, index !! k = Some r ↔ r ∈ rows ∧ r.1 = k) as Hidx.
  { intros k r. unfold index. rewrite index_lookup; [|done|intros; apply lookup_empty].
    rewrite lookup_empty. naive_solver. }
  assert (∀ k, k ∈ (map_to_list override).*1 ↔ is_Some (override !! k)) as Hkeys.
  { intros k. rewrite list_elem_of_fmap. split.
    - intros ([k' v] & -> & Hv%elem_of_map_to_list). simpl. eauto.
    - intros [v Hv]. exists (k, v). by rewrite elem_of_map_to_list. }
  assert (∀ k, index !! k = None ↔ ∀ c, (k, c) ∉ rows) as Hnone.
  { intros k. destruct (index !! k) as [[k' c]|] eqn:E; split; try done.
    - intros Hall. apply Hidx in E as [Hr <-]. by destruct (Hall c).
    - intros _ c Hc. assert (index !! k = Some (k, c)) as E' by by apply Hidx. congruence. }
  case_bool_decide as Hm.
  - split.
    + intros k Hk%Hkeys. destruct (index !! k) as [[k' c]|] eqn:E.
      * apply Hidx in E as [Hr <-]. by exists c.
      * assert (k ∈ filter (λ k, index !! k = None) (map_to_list override).*1) as Hin
          by by apply list_elem_of_filter. rewrite Hm in Hin. by apply elem_of_nil in Hin.
    + intros k c. rewrite list_elem_of_omap. split.
      * intros (k' & Hk' & Hi). apply Hidx in Hi as [Hr <-]. split; [by apply Hkeys|done].
      * intros [Hk Hr]. exists k. split; [by apply Hkeys|by apply Hidx].
  - split.
    + destruct (filter _ _) as [|k ?] eqn:E; [done|]. exists k. by left.
    + intros k. by rewrite list_elem_of_filter, Hkeys, Hnone, (comm (∧)).
Qed.

(** ** Witnesses: one app, one node, one deployment *)

Definition sample_dep (override : gmap string string) : Deployment :=
  mkDep "dep" true EmptyString EmptyString 3000 EmptyString override.

Definition sample_node : Placement.ComputeNode := Placement.sample_node "n1" 4096.

Definition sample_env (override : gmap string string) (before after : list lifecycle) : WakeEnv := {|
  newID := λ _, "i9"%string;
  newWakeID := λ _, "w9"%string;
  fcVer := "1.7";
  LiveDeployment := λ _ _, Some (sample_dep override);
  DeploymentByID := λ _, Some (sample_dep override);
  AllowWakeApp := λ _ _, true;
  AllowWakeAccount := λ _ _, true;
  overage := None;
  LastWarmNode := λ _, EmptyString;
  preferredRegion := λ _ _, EmptyString;
  ListAppSecretsInScope := λ _ _ _, Some [("DB_URL", "c1")]%string;
  ListAppEnvInScope := λ _ _ _, None;
  verifier := true;
  runtimeOf := λ _, ("ns"%string, "10.0.0.2"%string, 1000);
  observedClass := λ _, "http"%string;
  fleetOwner := EmptyString;
  capacityTable := Capacity.newNodeCapacityTable;
  AppNodeID := λ _, None;
  ActiveComputeNodes := Some [sample_node];
  ComputeNodeUsedMB := λ _, Some 0;
  ComputeNodeRow := λ _, Some sample_node;
  before_boot := before;
  after_boot := after;
|}.

Definition empty_world (l : Ledger.NodeLedger) (fs : list bool) : world :=
  mkWorld ∅ l ∅ ∅ [] [] [] ∅ [] [] [] [] ∅ [] fs (100 * Second).

#[local] Existing Instance Lifecycle.sample_config.

Lemma sample_data_ok override before after : wake_data_ok (env := sample_env override before after) "app".
Proof.
  constructor; [done|by intros a [= <-]; vm_compute|].
  intros nodes n [= <-]. rewrite list_elem_of_singleton. intros ->. by vm_compute.
Qed.

(** The layer check fails while the watchdog kills the booting instance. *)
Lemma wake_never_leaks_witness :
  let env := sample_env ∅ [OpKillStuck "i9" "app" StuckColdBootTimeout] [OpEvict "i9"] in
  let w := empty_world Ledger.NewNodeLedger [false; false; false; true] in
  ∃ r w', admitAndDispatch (env := env) EmptyString "app" false w = Some (r, w') ∧
          wake_ends "i9" "app" w r w'.
Proof.
  intros env w.
  apply (wake_never_leaks (env := env) EmptyString "app" false w);
    [apply Ledger.NewNodeLedger_ok|done..|apply sample_data_ok].
Defined.

Definition sample_limits : Limits.t := limitsPro.

Definition sample_placement : Placement.t := Placement.placement_of ∅ sample_node.

Lemma sample_ready override :
  ready (env := sample_env override [] []) EmptyString "app" Lifecycle.sample_app "pro" sample_limits
    (sample_dep override) sample_placement (empty_world Ledger.NewNodeLedger []).
Proof.
  constructor; [apply Ledger.NewNodeLedger_ok|reflexivity|done|apply not_elem_of_empty|reflexivity..
    |split; [reflexivity|apply not_elem_of_empty]|done|vm_compute; reflexivity
    |vm_compute; reflexivity|apply sample_data_ok|vm_compute; reflexivity].
Qed.

Lemma wake_succeeds_witness :
  let w := empty_world Ledger.NewNodeLedger [] in
  ∃ res w', admitAndDispatch (env := sample_env ∅ [] []) EmptyString "app" true w
            = Some (inr res, w') ∧ InstanceID res = "i9"%string ∧ locked w' = ∅.
Proof.
  intros w.
  destruct (wake_succeeds (env := sample_env ∅ [] []) EmptyString "app" true Lifecycle.sample_app
    "pro" sample_limits (sample_dep ∅) sample_placement [("DB_URL", "c1")]%string w)
    as (res & w' & E & Hid & _ & _ & _ & _ & _ & _ & _ & _ & _ & Hl).
  - apply sample_ready.
  - vm_compute. reflexivity.
  - exists res, w'. exact (conj E (conj Hid Hl)).
Defined.

Lemma sealed_env_error_wedges_app_witness :
  let ov : gmap string string := {["API_KEY" := "secret:API_KEY"]}%string in
  let w := empty_world Ledger.NewNodeLedger [] in
  ∃ w', admitAndDispatch (env := sample_env ov [] []) EmptyString "app" true w
        = Some (inl (ErrSealedEnv ["API_KEY"%string]), w') ∧
        app_blocked (env := sample_env ov [] []) "app" w'.
Proof.
  intros ov w.
  destruct (sealed_env_error_wedges_app (env := sample_env ov [] []) EmptyString "app" true
    Lifecycle.sample_app "pro" sample_limits (sample_dep ov) sample_placement ["API_KEY"%string] w)
    as (w' & E & Hb & _).
  - apply sample_ready.
  - vm_compute. reflexivity.
  - exists w'. exact (conj E Hb).
Defined.

(** The app is at its concurrency cap when the floor asks for one more. *)
Lemma floor_refusal_wedges_app_witness :
  let w := empty_world (Ledger.Admit Ledger.NewNodeLedger (Ledger.sample_request "i1" "n1")).1 [] in
  ∃ w', admitAndDispatchForDeployment (env := sample_env ∅ [] []) EmptyString "app" "dep" true w
        = Some (inr at_capacity, w') ∧
        app_blocked (env := sample_env ∅ [] []) "app" w'.
Proof.
  intros w.
  destruct (floor_refusal_wedges_app (env := sample_env ∅ [] []) EmptyString "app" "dep"
    Lifecycle.sample_app "pro" sample_limits (sample_dep ∅) (sample_dep ∅) sample_placement
    (Ledger.ErrPlanLimitConcurrency 5 1) w) as (w' & E & Hb & _);
    try apply not_elem_of_empty; try reflexivity; [vm_compute; reflexivity..|].
  exists w'. exact (conj E Hb).
Defined.

Lemma gate_agrees_with_ledger_witness :
  let l := (Ledger.Admit Ledger.NewNodeLedger (Ledger.sample_request "i1" "n1")).1 in
  (admitGate 0 l None Lifecycle.sample_app limitsFree).1.1 = wakeRejectAtCap.
Proof.
  intros l.
  apply (gate_agrees_with_ledger 0 l None Lifecycle.sample_app limitsFree
           (Ledger.sample_request "i2" "n1")); try done.
  eexists _, _. by vm_compute.
Defined.

Definition cooling_app : App :=
  mkApp "app" "acct" 128 1 false false 0 (Some (0, 60)) (Some (10 * Second)) false 0 0.

Lemma cooldown_hint_rounds_down_witness :
  isOnScaleOutCooldown (69 * Second + 500 * Millisecond) cooling_app 1 = true ∧
  cooldownSRemaining cooling_app (69 * Second + 500 * Millisecond) = 0.
Proof.
  split; [by vm_compute|].
  apply (cooldown_hint_rounds_down cooling_app (69 * Second + 500 * Millisecond) 1 (10 * Second) 0 60);
    by vm_compute.
Defined.

Lemma sealed_env_exact_witness :
  let ov : gmap string string := {["DB_URL" := "secret:DB_URL"]}%string in
  let rows := [("DB_URL", "c1"); ("OTHER", "c2")]%string in
  NoDup rows.*1 ∧ (("OTHER", "c2")%string ∉ [("DB_URL", "c1")]%string) ∧
  loadSealedEnvFor (Some rows) ov = inr [("DB_URL", "c1")]%string.
Proof.
  intros ov rows. assert (NoDup rows.*1) as Hnd by (by apply (bool_decide_unpack _); vm_compute).
  destruct (sealed_env_exact rows ov Hnd) as [_ H].
  assert (loadSealedEnvFor (Some rows) ov = inr [("DB_URL", "c1")]%string) as E by by vm_compute.
  specialize (H ltac:(done)). rewrite E in H. destruct H as [_ H].
  split_and!; [done| |done]. intros [[v Hv] _]%H. by vm_compute in Hv.
Defined.
End Wake.
