(* ===== verification/WakeCoord.v ===== *)
(** * pkg/sched: the wake coordinator

    Models src/pkg/sched/wake_coord.go and the leader/follower protocol of
    Engine.EnsureWake (engine.go): per app one leader runs the wake, followers
    wait for its outcome.

    Every coordinator method holds the coordinator's mutex for its whole body, so
    it is one step on the shared state.  Calls are pointers in Go: [calls] is the
    heap, [inflight] the map from apps to call ids.  The goroutines that are inside
    EnsureWake are part of the state; [exec] runs one action of one of them (or of
    the app-deletion subscriber) and has no result when the action is not enabled.
    A trace is any interleaving of such actions. *)

From S2P Require Import Prelude Wake.

Module Coord.

Record CoordInstance := mkInst {
  InstanceID : string;
  NodeID : string;
  DeploymentID : string;
  WakeID : string;
  Port : Z;
  ColdBoot : bool;
}.

Inductive coord_error :=
| ErrQueueFull
| ErrAppDeleted
| ErrAtCapacity
| ErrContext                            (* the caller's ctx.Err() *)
| ErrWake (e : Wake.wake_error).

Record CoordOutcome := mkOut {
  Instance : option CoordInstance;
  Err : option coord_error;
}.

Definition no_outcome : CoordOutcome := mkOut None None.
Definition failed (e : coord_error) : CoordOutcome := mkOut None (Some e).

(** What the leader of EnsureWake hands to its followers. *)
Definition leader_outcome (r : Wake.wake_error + Wake.WakeResult) : CoordOutcome :=
  match r with
  | inl e => failed (ErrWake e)
  | inr res =>
      if Wake.AtCapacity res then failed ErrAtCapacity
      else mkOut (Some (mkInst (Wake.InstanceID res) (Wake.RNodeID res) (Wake.RDeploymentID res)
                          (Wake.RWakeID res) (i32 (Wake.RPort res)) (Wake.ColdBoot res))) None
  end.

(** ** The coordinator *)

Record wakeCoordCall := mkCall {
  app : string;                (* the key it was entered under *)
  done : bool;                 (* the channel is closed *)
  outcome : CoordOutcome;
  waiters : Z;
  completed : bool;
}.

Record wakeCoord := mkCoord {
  inflight : gmap string nat;
  calls : gmap nat wakeCoordCall;
  next : nat;                  (* the next fresh pointer *)
}.

Definition wakeCoordCap : Z := 512.

Definition newWakeCoord : wakeCoord := mkCoord ∅ ∅ 0.

Definition set_call (c : nat) (x : wakeCoordCall) (s : wakeCoord) : wakeCoord :=
  mkCoord (inflight s) (<[c := x]> (calls s)) (next s).

(** [inl ErrQueueFull], or the call and whether the caller leads it. *)
Definition Enter (s : wakeCoord) (appID : string) : (coord_error + nat * bool) * wakeCoord :=
  let fresh :=
    (inr (next s, true),
     mkCoord (<[appID := next s]> (inflight s))
             (<[next s := mkCall appID false no_outcome 1 false]> (calls s)) (S (next s))) in
  match inflight s !! appID with
  | None => fresh
  | Some c =>
      match calls s !! c with
      | None => fresh
      | Some x =>
          if completed x then fresh
          else if wakeCoordCap <=? waiters x then (inl ErrQueueFull, s)
          else (inr (c, false),
                set_call c (mkCall (app x) (done x) (outcome x) (waiters x +! 1) (completed x)) s)
      end
  end.

Definition Complete (s : wakeCoord) (c : nat) (out : CoordOutcome) : wakeCoord :=
  match calls s !! c with
  | None => s
  | Some x => if done x then s else set_call c (mkCall (app x) true out (waiters x) true) s
  end.

(** [None]: the call is still open and the follower keeps waiting. *)
Definition Await (s : wakeCoord) (c : nat) (cancelled : bool) : option CoordOutcome :=
  match calls s !! c with
  | None => None
  | Some x => if cancelled then Some (failed ErrContext)
              else if done x then Some (outcome x) else None
  end.

Definition Release (s : wakeCoord) (appID : string) (c : nat) : wakeCoord :=
  match calls s !! c with
  | None => s
  | Some x =>
      let w := waiters x -! 1 in
      let s := set_call c (mkCall (app x) (done x) (outcome x) w (completed x)) s in
      if completed x && (w =? 0)
      then mkCoord (delete appID (inflight s)) (calls s) (next s) else s
  end.

Definition Forget (s : wakeCoord) (appID : string) : wakeCoord :=
  match inflight s !! appID with
  | None => s
  | Some c =>
      let s := mkCoord (delete appID (inflight s)) (calls s) (next s) in
      match calls s !! c with
      | None => s
      | Some x =>
          let out := match Err (outcome x) with None => failed ErrAppDeleted | Some _ => outcome x end in
          set_call c (mkCall (app x) true out (waiters x) true) s
      end
  end.

(** ** The goroutines inside EnsureWake *)

Inductive goroutine :=
| Leading (c : nat)                               (* running Engine.Wake *)
| Led (c : nat) (out : CoordOutcome)              (* after Complete, before Release *)
| Following (c : nat)                             (* in Await *)
| Followed (c : nat) (out : CoordOutcome)         (* after Await, before Release *)
| Returned (leader : bool) (c : nat) (out : CoordOutcome)
| Refused.                                        (* ErrQueueFull *)

Record state := mkState {
  coord : wakeCoord;
  threads : gmap nat goroutine;
}.

Inductive action :=
| AEnter (g : nat) (appID : string)
| AFinish (g : nat) (r : Wake.wake_error + Wake.WakeResult)
| AAwait (g : nat) (cancelled : bool)
| ARelease (g : nat)
| AForget (appID : string).

Definition app_of (s : state) (c : nat) : string :=
  match calls (coord s) !! c with Some x => app x | None => EmptyString end.

Definition exec (s : state) (a : action) : option state :=
  match a with
  | AEnter g appID =>
      match threads s !! g with
      | Some _ => None
      | None =>
          match Enter (coord s) appID with
          | (inl _, k) => Some (mkState k (<[g := Refused]> (threads s)))
          | (inr (c, true), k) => Some (mkState k (<[g := Leading c]> (threads s)))
          | (inr (c, false), k) => Some (mkState k (<[g := Following c]> (threads s)))
          end
      end
  | AFinish g r =>
      match threads s !! g with
      | Some (Leading c) =>
          Some (mkState (Complete (coord s) c (leader_outcome r))
                        (<[g := Led c (leader_outcome r)]> (threads s)))
      | _ => None
      end
  | AAwait g cancelled =>
      match threads s !! g with
      | Some (Following c) =>
          out ← Await (coord s) c cancelled;
          Some (mkState (coord s) (<[g := Followed c out]> (threads s)))
      | _ => None
      end
  | ARelease g =>
      match threads s !! g with
      | Some (Led c out) =>
          Some (mkState (Release (coord s) (app_of s c) c)
                        (<[g := Returned true c out]> (threads s)))
      | Some (Followed c out) =>
          Some (mkState (Release (coord s) (app_of s c) c)
                        (<[g := Returned false c out]> (threads s)))
      | _ => None
      end
  | AForget appID => Some (mkState (Forget (coord s) appID) (threads s))
  end.

Definition init : state := mkState newWakeCoord ∅.

Fixpoint exec_all (s : state) (tr : list action) : option state :=
  match tr with
  | [] => Some s
  | a :: tr => s' ← exec s a; exec_all s' tr
  end.

(** The steps of the system, and the states it can reach. *)
Inductive step : state → state → Prop :=
| step_exec a s s' : exec s a = Some s' → step s s'.

Definition reach (s : state) : Prop := rtc step init s.

(** ** The invariant of the protocol *)

(** The goroutine counts as a waiter of [c]. *)
Definition holds (c : nat) (t : goroutine) : bool :=
  match t with
  | Leading c' | Led c' _ | Following c' | Followed c' _ => Nat.eqb c' c
  | Returned _ _ _ | Refused => false
  end.

Definition leads (c : nat) (t : goroutine) : Prop :=
  match t with Leading c' | Led c' _ | Returned true c' _ => c' = c | _ => False end.

(** The leader of [c] finished with [out]; a follower of [c] received [out]. *)
Definition reported (c : nat) (out : CoordOutcome) (t : goroutine) : Prop :=
  t = Led c out ∨ t = Returned true c out.
Definition received (c : nat) (out : CoordOutcome) (t : goroutine) : Prop :=
  t = Followed c out ∨ t = Returned false c out.

Definition call_of (t : goroutine) : option nat :=
  match t with
  | Leading c | Led c _ | Following c | Followed c _ | Returned _ c _ => Some c
  | Refused => None
  end.

Record Inv (s : state) : Prop := {
  i_next c x : calls (coord s) !! c = Some x → (c < next (coord s))%nat;
  i_flight a c : inflight (coord s) !! a = Some c →
    ∃ x, calls (coord s) !! c = Some x ∧ app x = a;
  i_wait c x : calls (coord s) !! c = Some x → waiters x = map_count (holds c) (threads s);
  i_cap c x : calls (coord s) !! c = Some x → waiters x ≤ wakeCoordCap;
  i_ref g t c : threads s !! g = Some t → call_of t = Some c → is_Some (calls (coord s) !! c);
  i_done c x : calls (coord s) !! c = Some x → completed x = done x;
  i_open c x : calls (coord s) !! c = Some x → done x = false → outcome x = no_outcome;
  i_lead c x : calls (coord s) !! c = Some x → done x = false →
    ∃ g, threads s !! g = Some (Leading c);
  i_one g g' t t' c : threads s !! g = Some t → threads s !! g' = Some t' →
    leads c t → leads c t' → g = g';
  i_out c x : calls (coord s) !! c = Some x → done x = true →
    outcome x = failed ErrAppDeleted ∨
    ∃ g t, threads s !! g = Some t ∧ reported c (outcome x) t;
  i_got g t c out : threads s !! g = Some t → received c out t →
    out = failed ErrContext ∨ out = failed ErrAppDeleted ∨
    ∃ g' t', threads s !! g' = Some t' ∧ reported c out t';
}.

Lemma init_inv : Inv init.
Proof. constructor; simpl; intros *; rewrite ?lookup_empty; naive_solver. Qed.

(** A goroutine's next state inside EnsureWake. *)
Inductive advances : goroutine → goroutine → Prop :=
| adv_led c out : advances (Leading c) (Led c out)
| adv_led_returned c out : advances (Led c out) (Returned true c out)
| adv_followed c out : advances (Following c) (Followed c out)
| adv_followed_returned c out : advances (Followed c out) (Returned false c out).

Lemma advances_call t t' : advances t t' → call_of t' = call_of t.
Proof. by destruct 1. Qed.

Lemma advances_leads c t t' : advances t t' → leads c t' → leads c t.
Proof. by destruct 1. Qed.

Lemma advances_reported c out t t' : advances t t' → reported c out t → reported c out t'.
Proof. intros []; unfold reported; naive_solver. Qed.

(** Thread updates keep the leader facts. *)
Lemma one_update (T : gmap nat goroutine) g0 t0 t0' :
  (∀ g g' t t' c, T !! g = Some t → T !! g' = Some t' → leads c t → leads c t' → g = g') →
  T !! g0 = Some t0 → advances t0 t0' →
  ∀ g g' t t' c, <[g0 := t0']> T !! g = Some t → <[g0 := t0']> T !! g' = Some t' →
    leads c t → leads c t' → g = g'.
Proof.
  intros H H0 Ha g g' t t' c. rewrite !lookup_insert_Some.
  intros [[<- <-]|[? ?]] [[<- <-]|[? ?]] Hl Hl'; eauto using advances_leads.
Qed.

Lemma reported_update (T : gmap nat goroutine) g0 t0 t0' c out :
  T !! g0 = Some t0 → advances t0 t0' →
  (∃ g t, T !! g = Some t ∧ reported c out t) →
  ∃ g t, <[g0 := t0']> T !! g = Some t ∧ reported c out t.
Proof.
  intros H0 Ha (g & t & Hg & Hr). destruct (decide (g0 = g)) as [<-|Hne].
  - exists g0, t0'. rewrite lookup_insert_eq. split; [done|].
    rewrite H0 in Hg. simplify_eq. by eapply advances_reported.
  - exists g, t. by rewrite lookup_insert_ne.
Qed.

Lemma reported_new (T : gmap nat goroutine) g0 t0 c out :
  T !! g0 = None →
  (∃ g t, T !! g = Some t ∧ reported c out t) →
  ∃ g t, <[g0 := t0]> T !! g = Some t ∧ reported c out t.
Proof.
  intros H0 (g & t & Hg & Hr). exists g, t. split; [|done].
  rewrite lookup_insert_ne; [done|]. intros <-. congruence.
Qed.

Lemma count_holds_nonneg c (T : gmap nat goroutine) : 0 ≤ map_count (holds c) T.
Proof. apply map_count_nonneg. Qed.

Lemma holder_counted c (T : gmap nat goroutine) g t :
  T !! g = Some t → holds c t = true → 1 ≤ map_count (holds c) T.
Proof. intros. by eapply map_count_elem. Qed.

Lemma unused_count s c : Inv s → calls (coord s) !! c = None → map_count (holds c) (threads s) = 0.
Proof.
  intros Hi Hc. apply map_count_zero. intros g t Ht. destruct (holds c t) eqn:Hh; [|done].
  assert (call_of t = Some c) as Hcall
    by (destruct t; simpl in *; try done; by apply Nat.eqb_eq in Hh as ->).
  destruct (i_ref s Hi g t c Ht Hcall) as [x Hx]. congruence.
Qed.

(** Adding a goroutine to the count. *)
Lemma count_new c g t (T : gmap nat goroutine) :
  T !! g = None →
  map_count (holds c) (<[g := t]> T) = (if holds c t then 1 else 0) + map_count (holds c) T.
Proof. intros Hg. unfold map_count. by rewrite map_sum_insert. Qed.

Lemma count_advance c g t t' (T : gmap nat goroutine) :
  T !! g = Some t →
  map_count (holds c) (<[g := t']> T)
  = map_count (holds c) T - (if holds c t then 1 else 0) + (if holds c t' then 1 else 0).
Proof. intros Hg. unfold map_count. by rewrite (map_sum_update _ _ _ t). Qed.

Lemma fresh_inv s g a :
  Inv s → threads s !! g = None →
  let k := coord s in
  Inv (mkState (mkCoord (<[a := next k]> (inflight k))
                        (<[next k := mkCall a false no_outcome 1 false]> (calls k)) (S (next k)))
               (<[g := Leading (next k)]> (threads s))).
Proof.
  intros Hi Hg k.
  assert (calls k !! next k = None) as Hnew.
  { destruct (calls k !! next k) eqn:E; [|done]. apply (i_next s Hi) in E. unfold k in *. lia. }
  assert (∀ c x, calls k !! c = Some x → c ≠ next k) as Hne by (intros c x Hx ->; congruence).
  constructor; simpl.
  - intros c x [[<- _]|[_ Hx]]%lookup_insert_Some; [lia|]. apply (i_next s Hi) in Hx. unfold k in *. lia.
  - intros a' c [[<- <-]|[Ha Hc]]%lookup_insert_Some; [eexists; split; [apply lookup_insert_eq|done]|].
    destruct (i_flight s Hi a' c Hc) as (x & Hx & <-). exists x.
    by rewrite lookup_insert_ne by (apply not_eq_sym, (Hne _ _ Hx)).
  - intros c x Hx. rewrite count_new by done. simpl.
    apply lookup_insert_Some in Hx as [[<- <-]|[Hc Hx]]; simpl.
    + rewrite Nat.eqb_refl. rewrite (unused_count s) by done. done.
    + apply Nat.eqb_neq in Hc. rewrite Hc. by rewrite (i_wait s Hi c x Hx).
  - intros c x [[_ <-]|[_ Hx]]%lookup_insert_Some; [done|by apply (i_cap s Hi c x)].
  - intros g' t c [[<- <-]|[_ Ht]]%lookup_insert_Some Hc; simpl in *; simplify_eq.
    + rewrite lookup_insert_eq. eauto.
    + destruct (i_ref s Hi g' t c Ht Hc) as [x Hx].
      rewrite lookup_insert_ne by (apply not_eq_sym, (Hne _ _ Hx)). eauto.
  - intros c x [[_ <-]|[_ Hx]]%lookup_insert_Some; [done|by apply (i_done s Hi c x)].
  - intros c x [[_ <-]|[_ Hx]]%lookup_insert_Some; [done|by apply (i_open s Hi c x)].
  - intros c x [[<- <-]|[_ Hx]]%lookup_insert_Some Hd.
    + exists g. apply lookup_insert_eq.
    + destruct (i_lead s Hi c x Hx Hd) as [g' Hg']. exists g'.
      rewrite lookup_insert_ne; [done|]. intros ->. congruence.
  - intros g1 g2 t1 t2 c H1 H2 L1 L2. apply lookup_insert_Some in H1, H2.
    assert (∀ g' t, threads s !! g' = Some t → leads (next k) t → False) as Hno.
    { intros g' t Ht Hl. destruct (i_ref s Hi g' t (next k) Ht) as [x Hx]; [|unfold k in *; congruence].
      destruct t as [| | | |[]|]; simpl in *; simplify_eq; done. }
    destruct H1 as [[<- <-]|[? H1]], H2 as [[<- <-]|[? H2]]; simpl in *; subst; try done;
      [by destruct (Hno _ _ H2)|by destruct (Hno _ _ H1)|by eapply (i_one s Hi)].
  - intros c x [[_ <-]|[_ Hx]]%lookup_insert_Some Hd; [done|].
    destruct (i_out s Hi c x Hx Hd) as [?|Hr]; [by left|right; by apply reported_new].
  - intros g' t c out [[_ <-]|[_ Ht]]%lookup_insert_Some Hr; [by destruct Hr|].
    destruct (i_got s Hi g' t c out Ht Hr) as [?|[?|Hr']]; auto using reported_new.
Qed.

(** A call whose bookkeeping changed but not its identity, and a goroutine that arrives. *)
Lemma arrive_inv s g t c x w' :
  Inv s → threads s !! g = None → (t = Refused ∨ t = Following c) →
  calls (coord s) !! c = Some x →
  w' = waiters x + (if holds c t then 1 else 0) → w' ≤ wakeCoordCap →
  Inv (mkState (set_call c (mkCall (app x) (done x) (outcome x) w' (completed x)) (coord s))
               (<[g := t]> (threads s))).
Proof.
  intros Hi Hg Ht Hx Hw Hcap. constructor; simpl.
  - intros c' y [[<- _]|[_ Hy]]%lookup_insert_Some; by eapply (i_next s Hi).
  - intros a c' Hc'. destruct (i_flight s Hi a c' Hc') as (y & Hy & <-).
    destruct (decide (c = c')) as [<-|]; [|exists y; by rewrite lookup_insert_ne].
    simplify_eq. eexists. split; [apply lookup_insert_eq|done].
  - intros c' y Hy. rewrite count_new by done. apply lookup_insert_Some in Hy as [[<- <-]|[Hc Hy]]; simpl.
    + rewrite (i_wait s Hi c x Hx) in Hw. lia.
    + rewrite (i_wait s Hi c' y Hy). destruct Ht as [->| ->]; simpl; [lia|].
      apply Nat.eqb_neq in Hc. rewrite Hc. lia.
  - intros c' y [[<- <-]|[_ Hy]]%lookup_insert_Some; [done|by eapply (i_cap s Hi)].
  - intros g' t' c' [[<- <-]|[_ Ht']]%lookup_insert_Some Hc.
    + destruct Ht as [->| ->]; simpl in Hc; simplify_eq. rewrite lookup_insert_eq. eauto.
    + destruct (i_ref s Hi g' t' c' Ht' Hc) as [y Hy]. rewrite lookup_insert_is_Some'. eauto.
  - intros c' y [[<- <-]|[_ Hy]]%lookup_insert_Some;
      [by apply (i_done s Hi c x)|by apply (i_done s Hi c' y)].
  - intros c' y [[<- <-]|[_ Hy]]%lookup_insert_Some Hd;
      [by apply (i_open s Hi c x)|by apply (i_open s Hi c' y)].
  - intros c' y Hy Hd. assert (∃ y0, calls (coord s) !! c' = Some y0 ∧ done y0 = false) as (y0 & Hy0 & Hd0).
    { apply lookup_insert_Some in Hy as [[<- <-]|[_ Hy]]; eauto. }
    destruct (i_lead s Hi c' y0 Hy0 Hd0) as [g' Hg']. exists g'. rewrite lookup_insert_ne; [done|].
    intros ->. congruence.
  - intros g1 g2 t1 t2 c' H1 H2 L1 L2. apply lookup_insert_Some in H1, H2.
    destruct H1 as [[<- <-]|[? H1]], H2 as [[<- <-]|[? H2]]; try done;
      [by destruct Ht as [->| ->]|by destruct Ht as [->| ->]|by eapply (i_one s Hi)].
  - intros c' y Hy Hd. assert (∃ y0, calls (coord s) !! c' = Some y0 ∧ done y0 = true ∧ outcome y0 = outcome y)
      as (y0 & Hy0 & Hd0 & <-). { apply lookup_insert_Some in Hy as [[<- <-]|[_ Hy]]; eauto. }
    destruct (i_out s Hi c' y0 Hy0 Hd0) as [?|Hr]; [by left|right; by apply reported_new].
  - intros g' t' c' out [[_ <-]|[_ Ht']]%lookup_insert_Some Hr;
      [destruct Hr as [->| ->]; by destruct Ht|].
    destruct (i_got s Hi g' t' c' out Ht' Hr) as [?|[?|Hr']]; auto using reported_new.
Qed.

(** A goroutine moves on, and the call it belongs to is updated. *)
Lemma advance_inv s g t t' c x x' fl :
  Inv s → threads s !! g = Some t → advances t t' → call_of t = Some c →
  calls (coord s) !! c = Some x →
  app x' = app x →
  waiters x' = waiters x - (if holds c t then 1 else 0) + (if holds c t' then 1 else 0) →
  waiters x' ≤ wakeCoordCap → completed x' = done x' →
  (done x' = false → done x = false ∧ outcome x' = outcome x ∧ t ≠ Leading c) →
  (done x' = true → (done x = true ∧ outcome x' = outcome x) ∨ reported c (outcome x') t') →
  (∀ out, received c out t' →
     received c out t ∨ out = failed ErrContext ∨ (done x = true ∧ out = outcome x)) →
  (∀ a c', fl !! a = Some c' → inflight (coord s) !! a = Some c') →
  Inv (mkState (mkCoord fl (<[c := x']> (calls (coord s))) (next (coord s)))
               (<[g := t']> (threads s))).
Proof.
  intros Hi Hg Ha Hc Hx Happ Hw Hcap Hcd Hopen Hdone Hrec Hfl.
  pose proof (advances_call _ _ Ha) as Hc'.
  assert (∀ c0, c0 ≠ c → holds c0 t = false ∧ holds c0 t' = false) as Hother.
  { intros c0 Hne. rewrite Hc in Hc'.
    assert (∀ u, call_of u = Some c → holds c0 u = false) as Hu
      by (intros u Hu; destruct u; simpl in *; simplify_eq; try done; by apply Nat.eqb_neq).
    auto. }
  constructor; simpl.
  - intros c0 y [[<- _]|[_ Hy]]%lookup_insert_Some; by eapply (i_next s Hi).
  - intros a c0 Hc0%Hfl. destruct (i_flight s Hi a c0 Hc0) as (y & Hy & <-).
    destruct (decide (c = c0)) as [<-|]; [|exists y; by rewrite lookup_insert_ne].
    simplify_eq. exists x'. by rewrite lookup_insert_eq.
  - intros c0 y Hy. rewrite (count_advance _ _ t) by done.
    apply lookup_insert_Some in Hy as [[<- <-]|[Hne Hy]].
    + rewrite Hw, (i_wait s Hi c x Hx). lia.
    + destruct (Hother c0) as [-> ->]; [done|]. rewrite (i_wait s Hi c0 y Hy). lia.
  - intros c0 y [[<- <-]|[_ Hy]]%lookup_insert_Some; [done|by eapply (i_cap s Hi)].
  - intros g' u c0 Hu Hcu. rewrite lookup_insert_is_Some'.
    apply lookup_insert_Some in Hu as [[<- <-]|[_ Hu]]; [left; congruence|].
    right. by eapply (i_ref s Hi).
  - intros c0 y [[<- <-]|[_ Hy]]%lookup_insert_Some; [done|by eapply (i_done s Hi)].
  - intros c0 y [[<- <-]|[_ Hy]]%lookup_insert_Some Hd; [|by eapply (i_open s Hi)].
    destruct (Hopen Hd) as (Hd0 & -> & _). by eapply (i_open s Hi).
  - intros c0 y Hy Hd.
    assert (∃ g', threads s !! g' = Some (Leading c0) ∧ g' ≠ g) as (g' & Hg' & Hne).
    { apply lookup_insert_Some in Hy as [[<- <-]|[Hne Hy]].
      - destruct (Hopen Hd) as (Hd0 & _ & Hnl). destruct (i_lead s Hi c x Hx Hd0) as [g' Hg'].
        exists g'. split; [done|]. intros ->. congruence.
      - destruct (i_lead s Hi c0 y Hy Hd) as [g' Hg']. exists g'. split; [done|]. intros ->.
        simplify_eq/=. }
    exists g'. by rewrite lookup_insert_ne.
  - eapply one_update; [apply (i_one s Hi)|done|done].
  - intros c0 y [[<- <-]|[_ Hy]]%lookup_insert_Some Hd.
    + destruct (Hdone Hd) as [[Hd0 ->]|Hr].
      * destruct (i_out s Hi c x Hx Hd0) as [?|Hr]; [by left|right; by eapply reported_update].
      * right. exists g, t'. by rewrite lookup_insert_eq.
    + destruct (i_out s Hi c0 y Hy Hd) as [?|Hr]; [by left|right; by eapply reported_update].
  - intros g' u c0 out Hu Hr.
    assert ((∃ v, threads s !! g' = Some v ∧ received c0 out v) ∨ out = failed ErrContext ∨
            (c0 = c ∧ done x = true ∧ out = outcome x)) as [(v & Hv & Hr')|[->|(-> & Hd & ->)]].
    { apply lookup_insert_Some in Hu as [[<- <-]|[_ Hu]]; [|eauto].
      assert (c0 = c) as -> by (destruct Hr as [->| ->]; simpl in *; congruence).
      destruct (Hrec out Hr) as [?|[?|?]]; eauto. }
    + destruct (i_got s Hi g' v c0 out Hv Hr') as [?|[?|Hrep]]; auto.
      do 2 right. by eapply reported_update.
    + by left.
    + destruct (i_out s Hi c x Hx Hd) as [?|Hrep]; [by right; left|].
      do 2 right. by eapply reported_update.
Qed.

Lemma forget_inv s a : Inv s → Inv (mkState (Forget (coord s) a) (threads s)).
Proof.
  intros Hi. unfold Forget. destruct (inflight (coord s) !! a) as [c|] eqn:Hf; [|by destruct s].
  destruct (i_flight s Hi a c Hf) as (x & Hx & Happ). simpl. rewrite Hx.
  set (out := match Err (outcome x) with None => _ | Some _ => _ end).
  assert (out = failed ErrAppDeleted ∨ (out = outcome x ∧ done x = true)) as Hout.
  { unfold out. destruct (Err (outcome x)) eqn:E; [right; split; [done|]|by left].
    destruct (done x) eqn:Hd; [done|]. rewrite (i_open s Hi c x Hx Hd) in E. done. }
  constructor; simpl.
  - intros c0 y [[<- _]|[_ Hy]]%lookup_insert_Some; by eapply (i_next s Hi).
  - intros b c0 [_ Hc0]%lookup_delete_Some. destruct (i_flight s Hi b c0 Hc0) as (y & Hy & <-).
    destruct (decide (c = c0)) as [<-|]; [|exists y; by rewrite lookup_insert_ne].
    simplify_eq. eexists. by rewrite lookup_insert_eq.
  - intros c0 y [[<- <-]|[_ Hy]]%lookup_insert_Some; [by apply (i_wait s Hi c x)|by apply (i_wait s Hi c0 y)].
  - intros c0 y [[<- <-]|[_ Hy]]%lookup_insert_Some; [by apply (i_cap s Hi c x)|by apply (i_cap s Hi c0 y)].
  - intros g t c0 Ht Hc0. rewrite lookup_insert_is_Some'. right. by eapply (i_ref s Hi).
  - intros c0 y [[<- <-]|[_ Hy]]%lookup_insert_Some; [done|by eapply (i_done s Hi)].
  - intros c0 y [[<- <-]|[_ Hy]]%lookup_insert_Some; [done|by eapply (i_open s Hi)].
  - intros c0 y [[<- <-]|[_ Hy]]%lookup_insert_Some; [done|by eapply (i_lead s Hi)].
  - apply (i_one s Hi).
  - intros c0 y [[<- <-]|[_ Hy]]%lookup_insert_Some Hd; [|by eapply (i_out s Hi)].
    simpl. destruct Hout as [->|[-> Hd']]; [by left|]. by apply (i_out s Hi c x).
  - apply (i_got s Hi).
Qed.

Lemma waiters_range s c x :
  Inv s → calls (coord s) !! c = Some x → 0 ≤ waiters x ≤ wakeCoordCap.
Proof.
  intros Hi Hx. split; [|by apply (i_cap s Hi c x)]. rewrite (i_wait s Hi c x Hx).
  apply count_holds_nonneg.
Qed.

Lemma enter_inv s g a s' :
  Inv s → exec s (AEnter g a) = Some s' → Inv s'.
Proof.
  intros Hi. simpl. destruct (threads s !! g) eqn:Hg; [done|]. unfold Enter.
  destruct (inflight (coord s) !! a) as [c|] eqn:Hf; [|intros [= <-]; by apply fresh_inv].
  destruct (i_flight s Hi a c Hf) as (x & Hx & _). rewrite Hx.
  destruct (completed x) eqn:Ecomp; [intros [= <-]; by apply fresh_inv|].
  pose proof (waiters_range s c x Hi Hx) as Hr. unfold wakeCoordCap in *.
  destruct (512 <=? waiters x) eqn:Ecap; intros [= <-]; breflect.
  - assert (coord s = set_call c (mkCall (app x) (done x) (outcome x) (waiters x) (completed x)) (coord s)) as ->.
    { unfold set_call. assert (mkCall (app x) (done x) (outcome x) (waiters x) (completed x) = x) as ->
        by by destruct x. rewrite insert_id by done. by destruct (coord s). }
    apply arrive_inv; simpl; auto; unfold wakeCoordCap; lia.
  - rewrite i64_id by (unfold in_i64; lia).
    pose proof (arrive_inv s g (Following c) c x (waiters x + 1)) as HA. rewrite Ecomp in HA.
    apply HA; simpl; auto; rewrite ?Nat.eqb_refl; unfold wakeCoordCap; lia.
Qed.

Lemma release_inv s g t t' c :
  Inv s → threads s !! g = Some t → advances t t' → holds c t = true → holds c t' = false →
  call_of t = Some c → (∀ o, received c o t' → received c o t) → (∀ c', t ≠ Leading c') →
  Inv (mkState (Release (coord s) (app_of s c) c) (<[g := t']> (threads s))).
Proof.
  intros Hi Hg Ha Hh Hh' Hc Hrec Hnl. destruct (i_ref s Hi g t c Hg Hc) as [x Hx].
  pose proof (waiters_range s c x Hi Hx) as Hr. pose proof (holder_counted c _ g t Hg Hh) as H1.
  rewrite <- (i_wait s Hi c x Hx) in H1. unfold Release. rewrite Hx.
  assert (waiters x -! 1 = waiters x - 1) as -> by (apply i64_id; unfold in_i64, wakeCoordCap in *; lia).
  assert (∀ fl, (∀ a c', fl !! a = Some c' → inflight (coord s) !! a = Some c') →
    Inv (mkState (mkCoord fl (<[c := mkCall (app x) (done x) (outcome x) (waiters x - 1) (completed x)]>
                                (calls (coord s))) (next (coord s))) (<[g := t']> (threads s)))) as Hgen.
  { intros fl Hfl. eapply (advance_inv s g t t' c x); simpl; eauto.
    - rewrite Hh, Hh'. lia.
    - lia.
    - by apply (i_done s Hi c x). }
  destruct (_ && _); apply Hgen; [|done]. intros a c' [_ ?]%lookup_delete_Some. done.
Qed.

Lemma exec_inv s a s' : Inv s → exec s a = Some s' → Inv s'.
Proof.
  intros Hi. destruct a as [g a|g r|g cancelled|g|a]; simpl.
  - intros H. by eapply enter_inv.
  - destruct (threads s !! g) as [[c| | | | |]|] eqn:Hg; try done. intros [= <-].
    destruct (i_ref s Hi g _ c Hg eq_refl) as [x Hx]. unfold Complete. rewrite Hx.
    pose proof (i_cap s Hi c x Hx). pose proof (i_done s Hi c x Hx).
    destruct (done x) eqn:Hd.
    + assert (coord s = mkCoord (inflight (coord s)) (<[c := x]> (calls (coord s))) (next (coord s))) as ->
        by (rewrite insert_id by done; by destruct (coord s)).
      eapply advance_inv; eauto using adv_led; simpl; rewrite ?Nat.eqb_refl, ?Hd; try done;
        try lia; auto. intros out [?|?]; done.
    + eapply advance_inv; eauto using adv_led; simpl; rewrite ?Nat.eqb_refl; try done; try lia.
      * intros _. right. by left.
      * intros out [?|?]; done.
  - destruct (threads s !! g) as [[ | |c| | |]|] eqn:Hg; try done.
    destruct (Await (coord s) c cancelled) as [out|] eqn:Ha; simpl; [|done]. intros [= <-].
    destruct (i_ref s Hi g _ c Hg eq_refl) as [x Hx]. unfold Await in Ha. rewrite Hx in Ha.
    assert (coord s = mkCoord (inflight (coord s)) (<[c := x]> (calls (coord s))) (next (coord s))) as ->
      by (rewrite insert_id by done; by destruct (coord s)).
    eapply advance_inv; eauto using adv_followed, i_cap, i_done; simpl; rewrite ?Nat.eqb_refl; try lia; auto.
    intros o [[= <-]|?]; [|done]. destruct cancelled; simplify_eq; [by right; left|].
    destruct (done x) eqn:Hd; simplify_eq. auto.
  - destruct (threads s !! g) as [[ |c out| |c out| |]|] eqn:Hg; try done; intros [= <-].
    + apply (release_inv s g (Led c out) _ c); auto using adv_led_returned; simpl;
        rewrite ?Nat.eqb_refl; auto; unfold received; naive_solver.
    + apply (release_inv s g (Followed c out) _ c); auto using adv_followed_returned; simpl;
        rewrite ?Nat.eqb_refl; auto; unfold received; naive_solver.
  - intros [= <-]. by apply forget_inv.
Qed.

Lemma reach_inv s : reach s → Inv s.
Proof.
  intros H. unfold reach in H. apply rtc_ind_r with (P := Inv) in H; [done|apply init_inv|].
  intros s1 s2 _ [a ? ? He] Hi. by eapply exec_inv.
Qed.


(** ** Single flight *)

(** A release that removes the in-flight entry of another call: [Release] deletes the
    app's entry without comparing it with the call that is being released. *)
Definition steals (s : state) (a : action) : bool :=
  match a with
  | ARelease g =>
      match threads s !! g with
      | Some (Led c _) | Some (Followed c _) =>
          match calls (coord s) !! c, inflight (coord s) !! app_of s c with
          | Some x, Some c' => completed x && (waiters x -! 1 =? 0) && negb (Nat.eqb c' c)
          | _, _ => false
          end
      | _ => false
      end
  | _ => false
  end.

Fixpoint steal_free (s : state) (tr : list action) : bool :=
  match tr with
  | [] => true
  | a :: tr => negb (steals s a) &&
               match exec s a with Some s' => steal_free s' tr | None => true end
  end.

(** Every open call is the one in flight for its app. *)
Definition Flight (k : wakeCoord) : Prop :=
  ∀ c x, calls k !! c = Some x → done x = false → inflight k !! app x = Some c.

Lemma fresh_flight k a :
  Flight k → (∀ c x, inflight k !! a = Some c → calls k !! c = Some x → done x = true) →
  Flight (mkCoord (<[a := next k]> (inflight k))
                  (<[next k := mkCall a false no_outcome 1 false]> (calls k)) (S (next k))).
Proof.
  intros Hf Ha c x. simpl. intros [[<- <-]|[_ Hx]]%lookup_insert_Some Hd; simpl; [apply lookup_insert_eq|].
  pose proof (Hf c x Hx Hd) as Hfl. rewrite lookup_insert_ne; [done|].
  intros ->. rewrite (Ha c x Hfl Hx) in Hd. done.
Qed.

Lemma set_call_flight k c x x' :
  Flight k → calls k !! c = Some x → app x' = app x → (done x' = false → done x = false) →
  Flight (set_call c x' k).
Proof.
  intros Hf Hx Happ Hd c0 y. simpl. intros [[<- <-]|[_ Hy]]%lookup_insert_Some Hy'; [|by apply Hf].
  rewrite Happ. auto.
Qed.

Lemma delete_flight k a :
  Flight k → (∀ c x, inflight k !! a = Some c → calls k !! c = Some x → done x = true) →
  Flight (mkCoord (delete a (inflight k)) (calls k) (next k)).
Proof.
  intros Hf Ha c x Hx Hd. simpl in *. pose proof (Hf c x Hx Hd) as Hfl.
  rewrite lookup_delete_ne; [done|]. intros ->. rewrite (Ha c x Hfl Hx) in Hd. done.
Qed.

Lemma enter_flight s a : Inv s → Flight (coord s) → Flight (Enter (coord s) a).2.
Proof.
  intros Hi Hf. unfold Enter. destruct (inflight (coord s) !! a) as [c|] eqn:Hc.
  - destruct (calls (coord s) !! c) as [x|] eqn:Hx.
    + destruct (completed x) eqn:Hcomp.
      * apply fresh_flight; [done|]. intros. simplify_eq. by rewrite <- (i_done s Hi c x).
      * destruct (_ <=? _); simpl; [done|]. by eapply set_call_flight.
    + apply fresh_flight; [done|]. intros. simplify_eq.
  - apply fresh_flight; [done|]. intros. simplify_eq.
Qed.

Lemma release_flight s c x :
  Inv s → Flight (coord s) → calls (coord s) !! c = Some x →
  match inflight (coord s) !! app_of s c with
  | Some c' => completed x && (waiters x -! 1 =? 0) && negb (Nat.eqb c' c)
  | None => false
  end = false →
  Flight (Release (coord s) (app_of s c) c).
Proof.
  intros Hi Hf Hx Hno. unfold Release. rewrite Hx.
  set (k := set_call c _ _). assert (Flight k) as Hk by (by eapply set_call_flight).
  destruct (completed x && _) eqn:Hdel; [|done]. apply delete_flight; [done|].
  intros c' y Hc' Hy. simpl in Hc'. rewrite Hc' in Hno.
  apply negb_false_iff, Nat.eqb_eq in Hno as ->. simpl in Hy.
  rewrite lookup_insert_eq in Hy. simplify_eq. simpl. rewrite <- (i_done s Hi c x) by done.
  by apply andb_true_iff in Hdel as [? _].
Qed.

Lemma exec_flight s a s' :
  Inv s → Flight (coord s) → steals s a = false → exec s a = Some s' → Flight (coord s').
Proof.
  intros Hi Hf. destruct a as [g a|g r|g cancelled|g|a]; simpl.
  - intros _. destruct (threads s !! g); [done|]. pose proof (enter_flight s a Hi Hf) as He.
    destruct (Enter (coord s) a) as [[e|[c []]] k]; intros [= <-]; done.
  - intros _. destruct (threads s !! g) as [[c| | | | |]|]; try done. intros [= <-]. simpl.
    unfold Complete. destruct (calls (coord s) !! c) as [x|] eqn:Hx; [|done].
    destruct (done x) eqn:Hd; [done|]. by eapply set_call_flight.
  - intros _. destruct (threads s !! g) as [[ | |c| | |]|]; try done.
    destruct (Await _ _ _); simpl; [|done]. by intros [= <-].
  - destruct (threads s !! g) as [t|] eqn:Hg; [|done].
    destruct t as [ |c out| |c out| |]; try done; intros Hno [= <-]; simpl;
      destruct (i_ref s Hi g _ c Hg eq_refl) as [x Hx]; rewrite Hx in Hno;
      by eapply release_flight.
  - intros _ [= <-]. simpl. unfold Forget.
    destruct (inflight (coord s) !! a) as [c|] eqn:Hc; [|done]. simpl.
    destruct (i_flight s Hi a c Hc) as (x & Hx & Happ). rewrite Hx.
    intros c0 y. simpl. intros [[<- <-]|[Hne Hy]]%lookup_insert_Some Hd; [done|].
    pose proof (Hf c0 y Hy Hd). rewrite lookup_delete_ne; congruence.
Qed.

Lemma run_flight s tr s' :
  Inv s → Flight (coord s) → steal_free s tr = true → exec_all s tr = Some s' →
  Inv s' ∧ Flight (coord s').
Proof.
  revert s. induction tr as [|a tr IH]; simpl; intros s Hi Hf Hs H; [by simplify_eq|].
  destruct (exec s a) as [s1|] eqn:Ha; [|done]. simpl in H.
  apply andb_true_iff in Hs as [Hs Hs1]. apply negb_true_iff in Hs.
  apply (IH s1); [by eapply exec_inv|by eapply exec_flight|done|done].
Qed.

Lemma init_flight : Flight (coord init).
Proof. intros c x. simpl. by rewrite lookup_empty. Qed.

Lemma exec_all_reach s tr s' : reach s → exec_all s tr = Some s' → reach s'.
Proof.
  revert s. induction tr as [|a tr IH]; simpl; intros s Hs H; [by simplify_eq|].
  destruct (exec s a) as [s1|] eqn:Ha; [|done]. apply (IH s1); [|done].
  eapply rtc_r; [exact Hs|]. by econstructor.
Qed.

(** ** Theorems *)

(** in every state the coordinator can reach, under any interleaving of callers, leaders
    that finish, cancelled followers, releases and app deletions: the waiter count of a call is
    exactly the number of goroutines inside EnsureWake on it and stays within 0..512; a call
    that is still open has exactly one goroutine running its wake; and a call is marked
    completed exactly when its channel is closed, so Enter never hands out a closed call. *)
Theorem coord_safe s c x :
  reach s → calls (coord s) !! c = Some x →
  waiters x = map_count (holds c) (threads s) ∧ 0 ≤ waiters x ≤ wakeCoordCap ∧
  completed x = done x ∧
  (done x = false → ∃ g, threads s !! g = Some (Leading c) ∧
     ∀ g', threads s !! g' = Some (Leading c) → g' = g).
Proof.
  intros Hi%reach_inv Hx. split_and!.
  - by apply (i_wait s Hi).
  - by apply (waiters_range s c x).
  - by apply (waiters_range s c x).
  - by apply (i_done s Hi c).
  - intros Hd. destruct (i_lead s Hi c x Hx Hd) as [g Hg]. exists g. split; [done|].
    intros g' Hg'. by eapply (i_one s Hi g' g _ _ c).
Qed.

(** no follower is ever stranded.  From any reachable state a waiting follower either can
    return at once, or its call has a running leader, and as soon as that leader finishes with
    any result the follower can return with exactly the outcome of that result. *)
Theorem follower_served s g c :
  reach s → threads s !! g = Some (Following c) →
  (∃ out s', exec_all s [AAwait g false; ARelease g] = Some s' ∧
     threads s' !! g = Some (Returned false c out)) ∨
  (∃ l, threads s !! l = Some (Leading c) ∧ ∀ r, ∃ s',
     exec_all s [AFinish l r; AAwait g false; ARelease g] = Some s' ∧
     threads s' !! g = Some (Returned false c (leader_outcome r))).
Proof.
  intros Hi%reach_inv Hg. destruct (i_ref s Hi g _ c Hg eq_refl) as [x Hx].
  destruct (done x) eqn:Hd.
  - left. exists (outcome x). simpl. rewrite Hg. unfold Await. rewrite Hx, Hd. simpl.
    rewrite lookup_insert_eq. simpl. eexists. split; [done|]. simpl. apply lookup_insert_eq.
  - right. destruct (i_lead s Hi c x Hx Hd) as [l Hl]. exists l. split; [done|]. intros r.
    assert (l ≠ g) as Hne by (intros ->; congruence).
    simpl. rewrite Hl. unfold Complete. rewrite Hx, Hd. simpl.
    rewrite lookup_insert_ne, Hg by done. unfold Await. simpl. rewrite lookup_insert_eq. simpl.
    rewrite lookup_insert_eq. simpl. eexists. split; [done|]. simpl. apply lookup_insert_eq.
Qed.

(** what a follower returns is never made up: it is its own context error, the app-deleted
    error, or the outcome that the leader of the very call it waited on computed. *)
Theorem follower_outcome s g c out :
  reach s → threads s !! g = Some (Returned false c out) →
  out = failed ErrContext ∨ out = failed ErrAppDeleted ∨
  ∃ l t, threads s !! l = Some t ∧ reported c out t.
Proof. intros Hi%reach_inv Hg. apply (i_got s Hi g _ c out Hg). by right. Qed.

(** single flight.  In any trace in which no release removes another call's in-flight
    entry, an app has at most one open call and at most one goroutine running its wake on an
    open call, whatever callers, cancellations and app deletions are interleaved. *)
Theorem single_flight tr s g g' c c' x x' :
  exec_all init tr = Some s → steal_free init tr = true →
  threads s !! g = Some (Leading c) → calls (coord s) !! c = Some x → done x = false →
  threads s !! g' = Some (Leading c') → calls (coord s) !! c' = Some x' → done x' = false →
  app x = app x' → c = c' ∧ g = g'.
Proof.
  intros Hrun Hs Hg Hx Hd Hg' Hx' Hd' Happ.
  destruct (run_flight init tr s init_inv init_flight Hs Hrun) as [Hi Hf].
  pose proof (Hf c x Hx Hd) as H1. pose proof (Hf c' x' Hx' Hd') as H2.
  rewrite Happ in H1. rewrite H1 in H2. injection H2 as <-.
  split; [done|]. by eapply (i_one s Hi g g' _ _ c).
Qed.

Definition booted : Wake.WakeResult := Wake.mkResult "i-1" "n-1" true "w-1" false 8080 "d-1" 0.

(** The leader finishes while a follower has not drained yet, a later caller starts a new
    call, the drained follower's release removes that call's entry, and the next caller
    becomes a second leader. *)
Definition two_leaders : list action :=
  [AEnter 1 "a"; AEnter 2 "a"; AFinish 1 (inr booted); ARelease 1; AEnter 3 "a";
   AAwait 2 false; ARelease 2; AEnter 4 "a"]%string.

(** Release does not compare the entry it deletes with the call it releases, and that breaks
    single flight without any app deletion: after [two_leaders] goroutines 3 and 4 both run
    the wake of the same app, on two different open calls. *)
Theorem single_flight_broken :
  ∃ s x y, exec_all init two_leaders = Some s ∧
    threads s !! 3%nat = Some (Leading 1) ∧ threads s !! 4%nat = Some (Leading 2) ∧
    calls (coord s) !! 1%nat = Some x ∧ calls (coord s) !! 2%nat = Some y ∧
    done x = false ∧ done y = false ∧ app x = "a"%string ∧ app y = "a"%string.
Proof. do 3 eexists. split; [vm_compute; reflexivity|]. by repeat split; vm_compute. Qed.

(** Forget keeps a leader's outcome only when it is an error: when the app is deleted after
    the leader booted an instance and before a follower read the outcome, the follower gets
    the app-deleted error although the leader returned the instance. *)
Theorem forget_overwrites_success :
  ∃ s, exec_all init [AEnter 1 "a"; AEnter 2 "a"; AFinish 1 (inr booted); AForget "a";
                      ARelease 1; AAwait 2 false; ARelease 2]%string = Some s ∧
    threads s !! 1%nat = Some (Returned true 0 (leader_outcome (inr booted))) ∧
    threads s !! 2%nat = Some (Returned false 0 (failed ErrAppDeleted)).
Proof. eexists. split; [vm_compute; reflexivity|]. by split; vm_compute. Qed.

(** ** Witnesses *)

Definition st (tr : list action) : state :=
  match exec_all init tr with Some s => s | None => init end.

Definition tr_open : list action := [AEnter 1 "a"; AEnter 2 "a"]%string.
Definition tr_served : list action :=
  tr_open ++ [AFinish 1 (inr booted); AAwait 2 false; ARelease 2; AEnter 3 "a"%string].

Lemma reach_st tr : reach (st tr).
Proof.
  unfold st. destruct (exec_all init tr) as [s|] eqn:H; [|apply rtc_refl].
  eapply exec_all_reach; [apply rtc_refl|done].
Qed.

Lemma coord_safe_witness : waiters (mkCall "a" false no_outcome 2 false) = map_count (holds 0) (threads (st tr_open)).
Proof.
  apply (coord_safe (st tr_open) 0 (mkCall "a" false no_outcome 2 false)).
  - apply reach_st.
  - vm_compute. reflexivity.
Defined.

Lemma follower_served_witness :
  (∃ out s', exec_all (st tr_open) [AAwait 2 false; ARelease 2] = Some s' ∧
     threads s' !! 2%nat = Some (Returned false 0 out)) ∨
  (∃ l, threads (st tr_open) !! l = Some (Leading 0) ∧ ∀ r, ∃ s',
     exec_all (st tr_open) [AFinish l r; AAwait 2 false; ARelease 2] = Some s' ∧
     threads s' !! 2%nat = Some (Returned false 0 (leader_outcome r))).
Proof.
  apply (follower_served (st tr_open) 2 0).
  - apply reach_st.
  - vm_compute. reflexivity.
Defined.

Lemma follower_outcome_witness :
  leader_outcome (inr booted) = failed ErrContext ∨ leader_outcome (inr booted) = failed ErrAppDeleted ∨
  ∃ l t, threads (st tr_served) !! l = Some t ∧ reported 0 (leader_outcome (inr booted)) t.
Proof.
  apply (follower_outcome (st tr_served) 2 0 (leader_outcome (inr booted))).
  - apply reach_st.
  - vm_compute. reflexivity.
Defined.

Lemma single_flight_witness : 1%nat = 1%nat ∧ 3%nat = 3%nat.
Proof.
  apply (single_flight tr_served (st tr_served) 3 3 1 1 (mkCall "a" false no_outcome 1 false)
           (mkCall "a" false no_outcome 1 false)); vm_compute; reflexivity.
Defined.
End Coord.
