(* ===== verification/Migration.v ===== *)
(** * Live migration of instances between nodes

    Models the vmmd side of the handoff (src/pkg/vmmdgrpc/migration_handlers.go:
    the lease tracker and the four handlers), its orchestrator
    (src/pkg/sched/migration_handoff.go: MigrateOne) and, from engine.go,
    BuildAppSpecForMigration, MigrateLiveInstances, ReconcileExpiredMigrations and
    ReconcileDeadNodeInstances.

    Every node runs its own vmmd with its own in-memory tracker: [leases] of the
    world maps a node to its tracker.  A remote call can fail before it reaches the
    vmmd or lose its answer after the handler ran, and so can a write of the store.  Between the phases other
    goroutines act: a list of lifecycle operations and lease-expiry sweeps. *)

From S2P Require Import Prelude Api Machine Admission Capacity Placement InstanceStore.
From S2P Require Import Engine Lifecycle Wake.

Module Migration.
Import Engine Lifecycle.
#[local] Open Scope engine_scope.

(** ** The lease tracker of a vmmd *)

Abbreviation tracker := (gmap string activeMigration).

Inductive lease_error := errNoLease (id : string) | errLeaseMismatch (id : string).

(** [None] is errAlreadyActive. *)
Definition tracker_put (t : tracker) (m : activeMigration) : option tracker :=
  match t !! mInstanceID m with
  | Some _ => None
  | None => Some (<[mInstanceID m := m]> t)
  end.

Definition tracker_get (t : tracker) (id tok : string) : lease_error + activeMigration :=
  match t !! id with
  | None => inl (errNoLease id)
  | Some m => if negb (String.eqb (leaseToken m) tok) then inl (errLeaseMismatch id) else inr m
  end.

Definition tracker_delete (t : tracker) (id : string) : tracker := delete id t.

Definition listExpired (t : tracker) (now : Time) : list activeMigration :=
  filter (λ m, leaseExpiresAt m < now) (map_to_list t).*2.

Definition MigrateLiveLeaseSeconds : Z := 90.
Definition MigrateLiveMaxPerTick : Z := 10.
Definition MigratingWatchdogTickLimit : Z := 50.
Definition DeadNodeReconcilerStalenessSeconds : Z := 120.
Definition DeadNodeReconcilerTickLimit : Z := 50.

Record LiveMigrationPrepare := mkPrep {
  MemStorageKey : string;
  VMStateStorageKey : string;
  PLeaseToken : string;
}.

(** The vmstate blob next to the memory blob. *)
Definition vmstate_key (mem : string) : string :=
  let n := String.length mem in
  if (4 <=? n)%nat && String.eqb (String.substring (n - 4) 4 mem) "/mem"
  then (String.substring 0 (n - 4) mem +:+ "/vmstate")%string
  else (mem +:+ "-vmstate")%string.

Inductive mig_error :=
| ErrEmptyArgs
| ErrPrepare
| ErrStore (e : Store.store_error)       (* ErrConflict and ErrNotFound are returned as they are *)
| ErrMark
| ErrLoadSpec
| ErrReserve (e : Ledger.admit_error)
| ErrAdopt
| ErrLeaseExpired
| ErrCommit.

Record MigrationHarness := mkHarness {
  newOwnerNodeID : string;
  destinationCeilingMB : Z;
  destinationVCPUBudget : Z;
}.

(** What other goroutines do between two phases. *)
Inductive event := EvLifecycle (o : lifecycle) | EvLeaseSweep (node : string) (now : Time).

(** One handoff's surroundings: the token the dying vmmd mints and the events before the
    Phase 2 write, before the reservation, and during the adoption. *)
Record handoff := mkHandoff {
  token : string;
  before_mark : list event;
  before_reserve : list event;
  during_adopt : list event;
}.

(** The newest live deployment of an app, and the heartbeat column of compute_nodes. *)
Class MigEnv := {
  LiveDeploymentOf : string → option Wake.Deployment;
  LastHeartbeatAt : string → Time;
}.

Abbreviation world := (@Engine.world Ledger.NodeLedger).
Abbreviation M := (@Engine.M Ledger.NodeLedger).

Section migration.
Context {cfg : Config} {env : Wake.WakeEnv} {menv : MigEnv}.
Implicit Types w : world.

(** ** The vmmd handlers *)

Definition tracker_of (node : string) (w : world) : tracker := default ∅ (leases w !! node).
Definition set_tracker (node : string) (t : tracker) (w : world) : world :=
  set_leases (<[node := t]> (leases w)) w.

(** fcvm Manager.Park: a live VM is snapshotted and destroyed; when the snapshot fails the VM is
    destroyed too. *)
Definition vmm_park (node id : string) : M bool :=
  live <- reads (λ w, bool_decide ((node, id) ∈ vms w));;
  if negb live then ret false
  else
  f <- fault;;
  modify (λ w, set_vms (vms w ∖ {[(node, id)]}) w);;
  ret (negb f).

(** [tok] is what mintLeaseToken draws. *)
Definition PrepareLiveMigration (tok node id key : string) : M (option LiveMigrationPrepare) :=
  start <- reads clock;;
  if String.eqb id EmptyString || String.eqb key EmptyString then ret None
  else
  ok <- vmm_park node id;;
  if negb ok then ret None
  else
  let m := mkMig id tok start (time_add start (MigrateLiveLeaseSeconds *! Second)) key
             (vmstate_key key) in
  t <- reads (tracker_of node);;
  match tracker_put t m with
  | None => ret None
  | Some t => modify (set_tracker node t);; ret (Some (mkPrep key (vmstate_key key) tok))
  end.

(** The handler only validates the lease, against the tracker of the vmmd it runs on. *)
Definition AdoptMigratedInstance (node id mem vmstate tok : string) : M (option unit) :=
  if String.eqb id EmptyString || String.eqb mem EmptyString || String.eqb vmstate EmptyString
     || String.eqb tok EmptyString then ret None
  else
  t <- reads (tracker_of node);;
  match tracker_get t id tok with inl _ => ret None | inr _ => ret (Some tt) end.

Definition drop_lease (node id tok : string) : M (option unit) :=
  if String.eqb id EmptyString || String.eqb tok EmptyString then ret None
  else
  t <- reads (tracker_of node);;
  match tracker_get t id tok with
  | inl _ => ret (Some tt)
  | inr _ => modify (set_tracker node (tracker_delete t id));; ret (Some tt)
  end.

Definition AcknowledgeMigration (node id tok : string) : M (option unit) := drop_lease node id tok.
Definition CancelLiveMigration (node id tok : string) : M (option unit) := drop_lease node id tok.

(** One tick of the lease-expiry loop of a node's vmmd. *)
Definition LeaseExpiryTick (node : string) (now : Time) : M unit :=
  entries <- reads (λ w, listExpired (tracker_of node w) now);;
  for_each entries (λ m, modify (λ w,
    set_tracker node (tracker_delete (tracker_of node w) (mInstanceID m)) w)).

(** A gRPC call through the router: it may not reach the vmmd, or its answer may be lost. *)
Definition rpc {A} (handler : M (option A)) : M (option A) :=
  f <- fault;;
  if f then ret None
  else
  r <- handler;;
  lost <- fault;;
  ret (if (lost : bool) then None else r).

(** ** Store calls *)

Inductive cas_result := CasOk | CasErr (e : Store.store_error) | CasFault.

(** A compare-and-set write. It may fail before it reaches the database, and it may also commit and
    lose its answer: the caller sees the same error. *)
Definition store_cas (op : Store.table → Store.store_error + Store.table) : M cas_result :=
  let run w := match op (rows w) with
               | inr m => (CasOk, set_rows m w)
               | inl e => (CasErr e, w)
               end in
  f <- fault;;
  if f then lost <- fault;;
            if lost then modify (λ w, (run w).2);; ret CasFault else ret CasFault
  else λ w, Some (run w).

Definition run_event (e : event) : M unit :=
  match e with
  | EvLifecycle o => run_lifecycle o
  | EvLeaseSweep node now => LeaseExpiryTick node now
  end.

(** ** The orchestrator *)

(** [None] is an error; an account on an unknown plan panics. *)
Definition BuildAppSpecForMigration (instanceID : string) : M (option Wake.AppSpec) :=
  ins <- loadInstance instanceID;;
  match ins with
  | None => ret None
  | Some ins =>
  app <- readTable (AppByID (Store.AppID ins));;
  match app with
  | None => ret None
  | Some app =>
  dep <- readTable (LiveDeploymentOf (Store.AppID ins));;
  match dep with
  | None => ret None
  | Some dep =>
  plan <- readTable (PlanOf (aAccountID app));;
  match plan with
  | None => ret None
  | Some plan =>
  match MustLimitsFor plan with
  | None => λ _, None
  | Some limits =>
  sealed <- Wake.sealed_env (aAccountID app) (aID app) dep;;
  match sealed with
  | inl _ => ret None
  | inr sealed =>
  apiEnv <- Wake.loadAPIEnv (aAccountID app) (aID app) (Wake.dScope dep);;
  ret (Some (Wake.app_spec app limits dep sealed apiEnv))
  end end end end end end.

Definition migration_request (h : MigrationHarness) (id : string) (spec : Wake.AppSpec)
  : Ledger.Request :=
  Ledger.mkReq id EmptyString EmptyString EmptyString (Wake.MemSizeMiB spec) []
    (Wake.VCPUCount spec) 0 Ledger.KindMigration (newOwnerNodeID h) EmptyString EmptyString
    (destinationCeilingMB h) (destinationVCPUBudget h).

(** The best-effort rollback: the row back to parked, then the dying vmmd's lease. *)
Definition cancel_row (id from tok : string) : M unit :=
  store_cas (λ m, Store.CancelInstanceMigration m id from tok);; ret tt.
Definition cancel_vmm (id from tok : string) : M unit :=
  rpc (CancelLiveMigration from id tok);; ret tt.

(** Phases 4 and 5: the commit on the row, and the acknowledgement. *)
Definition migrate_commit (h : MigrationHarness) (id from tok : string) : M (option mig_error) :=
  now <- reads clock;;
  r <- store_cas (λ m, Store.MigrateInstanceOwner m now id from (newOwnerNodeID h) tok);;
  match r with
  | CasOk => rpc (AcknowledgeMigration from id tok);; ret None
  | CasErr (Store.ErrInvalid _) =>
      ledger_Release id;; cancel_vmm id from tok;; ret (Some ErrCommit)
  | CasErr e => ledger_Release id;; cancel_vmm id from tok;; ret (Some (ErrStore e))
  | CasFault =>
      late <- fault;;
      ledger_Release id;;
      cancel_vmm id from tok;;
      ret (Some (if (late : bool) then ErrLeaseExpired else ErrCommit))
  end.

(** Phase 3: the app spec, the reservation and the adoption. *)
Definition migrate_adopt (h : MigrationHarness) (e : handoff) (id from : string)
    (p : LiveMigrationPrepare) : M (option mig_error) :=
  let tok := PLeaseToken p in
  spec <- BuildAppSpecForMigration id;;
  match spec with
  | None => cancel_row id from tok;; cancel_vmm id from tok;; ret (Some ErrLoadSpec)
  | Some spec =>
      err <- ledger_Admit (migration_request h id spec);;
      match err with
      | Some err =>
          cancel_row id from tok;; cancel_vmm id from tok;; ret (Some (ErrReserve err))
      | None =>
          adopted <- rpc (AdoptMigratedInstance (newOwnerNodeID h) id (MemStorageKey p)
                            (VMStateStorageKey p) tok);;
          for_each (during_adopt e) run_event;;
          match adopted with
          | None =>
              ledger_Release id;;
              cancel_row id from tok;;
              cancel_vmm id from tok;;
              ret (Some ErrAdopt)
          | Some _ => migrate_commit h id from tok
          end
      end
  end.

(** [None] is a nil error: migrated. *)
Definition MigrateOne (h : MigrationHarness) (e : handoff) (id from : string)
  : M (option mig_error) :=
  if String.eqb id EmptyString || String.eqb from EmptyString then ret (Some ErrEmptyArgs)
  else
  let key := ("snap/migration-" +:+ id +:+ "/mem")%string in
  prepared <- rpc (PrepareLiveMigration (token e) from id key);;
  match prepared with
  | None => ret (Some ErrPrepare)
  | Some p =>
      for_each (before_mark e) run_event;;
      r <- store_cas (λ m, Store.MarkInstanceMigrating m id from (PLeaseToken p));;
      match r with
      | CasErr (Store.ErrInvalid _) | CasFault =>
          cancel_vmm id from (PLeaseToken p);; ret (Some ErrMark)
      | CasErr err => cancel_vmm id from (PLeaseToken p);; ret (Some (ErrStore err))
      | CasOk =>
          for_each (before_reserve e) run_event;;
          migrate_adopt h e id from p
      end
  end.

(** NewMigrationHarness: a failed ceiling lookup falls back to the global defaults. *)
Definition NewMigrationHarness (owner : string) : M MigrationHarness :=
  if String.eqb owner EmptyString then ret (mkHarness owner 0 0)
  else
  n <- readTable (Wake.ComputeNodeRow owner);;
  ret match n with
      | None => mkHarness owner 0 0
      | Some n => mkHarness owner (Placement.AdmissionCeilingMB n) (Placement.VCPUBudget n)
      end.

Fixpoint migrate_all (h : MigrationHarness) (from : string) (es : nat → handoff)
    (l : list Store.Instance) (attempted : nat) : M nat :=
  match l with
  | [] => ret attempted
  | ins :: l =>
      MigrateOne h (es attempted) (Store.ID ins) from;;
      migrate_all h from es l (S attempted)
  end.

(** [None] is the listing error. [maxOverride] is e.migrateLiveMaxPerTick. *)
Definition MigrateLiveInstances (maxOverride : Z) (es : nat → handoff) (deadNodeID : string)
  : M (option nat) :=
  if String.eqb Wake.fleetOwner EmptyString then ret (Some 0%nat)
  else if String.eqb deadNodeID EmptyString || String.eqb deadNodeID Wake.fleetOwner
  then ret (Some 0%nat)
  else
  let maxPerTick := if 0 <? maxOverride then maxOverride else MigrateLiveMaxPerTick in
  f <- fault;;
  if f then ret None
  else
  l <- reads (λ w, Store.ListLiveInstancesOnNode (rows w) deadNodeID maxPerTick);;
  if bool_decide (l = []) then ret (Some 0%nat)
  else
  h <- NewMigrationHarness Wake.fleetOwner;;
  n <- migrate_all h deadNodeID es (take (Z.to_nat maxPerTick) l) 0;;
  ret (Some n).

(** ** The reconcilers *)

(** [None] is a lookup error; a missing node is inactive. *)
Definition computeNodeActive (nodeID : string) : M (option bool) :=
  if String.eqb nodeID EmptyString then ret (Some false)
  else
  f <- fault;;
  ret (if (f : bool) then None
       else Some match Wake.ComputeNodeRow nodeID with
                 | Some n => Placement.Active n
                 | None => false
                 end).

(** One row: [true] when it left the migrating state. *)
Definition reconcile_row (ins : Store.Instance) : M bool :=
  active <- computeNodeActive (Store.NodeID ins);;
  match active with
  | None => ret false
  | Some active =>
      now <- reads clock;;
      r <- store_cas (λ m, if active
                          then Store.ReinviteMigratingInstance m now (Store.ID ins) (Store.LeaseToken ins)
                          else Store.AbortMigratingInstance m (Store.ID ins) (Store.LeaseToken ins));;
      ret match r with CasOk => true | _ => false end
  end.

Fixpoint count_each {A} (l : list A) (f : A → M bool) (n : nat) : M nat :=
  match l with
  | [] => ret n
  | x :: l => b <- f x;; count_each l f (if (b : bool) then S n else n)
  end.

Definition ReconcileExpiredMigrations (limitOverride : Z) : M (option nat) :=
  let maxPerTick := if 0 <? limitOverride then limitOverride else MigratingWatchdogTickLimit in
  f <- fault;;
  if f then ret None
  else
  l <- reads (λ w, Store.ListExpiredMigrations (rows w) maxPerTick);;
  n <- count_each (take (Z.to_nat maxPerTick) l) reconcile_row 0;;
  ret (Some n).

Definition node_status (nodeID : string) : option (bool * Time) :=
  (λ n, (Placement.Active n, LastHeartbeatAt nodeID)) <$> Wake.ComputeNodeRow nodeID.

Definition fail_row (ins : Store.Instance) : M bool :=
  now <- reads clock;;
  r <- store_cas (λ m, Store.FailRunningInstanceOnDeadNode m now (Store.ID ins) (Store.NodeID ins));;
  match r with
  | CasOk => ledger_Release (Store.ID ins);; ret true
  | _ => ret false
  end.

Definition ReconcileDeadNodeInstances (stalenessOverride : Z) : M (option nat) :=
  let staleness := if 0 <? stalenessOverride then stalenessOverride *! Second
                   else DeadNodeReconcilerStalenessSeconds *! Second in
  now <- reads clock;;
  f <- fault;;
  if f then ret None
  else
  l <- reads (λ w, Store.ListRunningInstancesOnDeadNodes (rows w) node_status
                     (time_add now (- staleness)) DeadNodeReconcilerTickLimit);;
  match l with
  | None => ret None
  | Some l => n <- count_each l fail_row 0;; ret (Some n)
  end.
End migration.

Section handoff_safety.
Context {cfg : Config} {env : Wake.WakeEnv} {menv : MigEnv}.
Implicit Types w : world.

(** ** What a handoff keeps *)

(** Relative to [w0]: other instances are kept, every write moved each row along at most one edge
    or is one of [A], the VMs are among [V], the trackers gained at most the lease [tok] of [id] on
    [from], and the reservation of [id], if any, is [R] (possibly no longer counting). *)
Record mkeeps (A : extra) (id from tok : string) (R : option Ledger.reservation)
    (V : gset (string * string)) (w0 w : world) : Prop := {
  mk_w : Wake.wkeeps A id ∅ w0 w;
  mk_vms : vms w ⊆ V;
  mk_leases n i m : tracker_of n w !! i = Some m →
    tracker_of n w0 !! i = Some m ∨ (n = from ∧ i = id ∧ leaseToken m = tok);
  mk_res e : Ledger.view (led w) !! id = Some e →
    ∃ e0, R = Some e0 ∧ (e = e0 ∨ e = Ledger.stop_counting e0);
}.

Lemma mkeeps_refl A id from tok w :
  Ledger.inv (led w) → Store.keyed (rows w) → locked w = ∅ →
  mkeeps A id from tok (Ledger.view (led w) !! id) (vms w) w w.
Proof.
  intros Hi Hk Hl. constructor; auto.
  - rewrite <- Hl. by apply Wake.wkeeps_refl.
  - intros e He. eauto.
Qed.

Lemma mkeeps_step A id from tok R V w0 w w' :
  mkeeps A id from tok R V w0 w → keeps ∅ w w' → mkeeps A id from tok R V w0 w'.
Proof.
  intros [Hw Hv Hls Hres] Hk. constructor.
  - by eapply Wake.wkeeps_step.
  - etrans; [apply Hk|done].
  - intros n i m. unfold tracker_of. rewrite (k_leases _ _ _ Hk). apply Hls.
  - intros e He. destruct (k_view _ _ _ Hk id e He) as (e1 & He1 & Hc1).
    destruct (Hres e1 He1) as (e0 & He0 & Hc0). exists e0. split; [done|].
    destruct Hc1 as [->| ->], Hc0 as [->| ->]; auto.
Qed.

Lemma mkeeps_self A id from tok R V w0 w : mkeeps A id from tok R V w0 w → keeps ∅ w w.
Proof. intros Hm. by eapply Wake.wkeeps_keeps_refl, mk_w. Qed.

Lemma mkeeps_faults A id from tok R V w0 w l :
  mkeeps A id from tok R V w0 w → mkeeps A id from tok R V w0 (set_faults l w).
Proof. intros Hm. eapply mkeeps_step; [exact Hm|]. apply keeps_faults. by eapply mkeeps_self. Qed.

Lemma mkeeps_release A id from tok R R' V w0 w :
  mkeeps A id from tok R V w0 w → mkeeps A id from tok R' V w0 (set_led (Ledger.release (led w) id) w).
Proof.
  intros Hm. pose proof (mkeeps_self _ _ _ _ _ _ _ _ Hm) as Hk.
  assert (mkeeps A id from tok R V w0 (set_led (Ledger.release (led w) id) w)) as [? ? ? ?]
    by (eapply mkeeps_step; [exact Hm|by apply keeps_release]).
  constructor; auto. intros e. cbn [led set_led]. by rewrite (Wake.released (led w) id) by apply Hm.
Qed.

Lemma mkeeps_shrink A id from tok R V V' w0 w :
  mkeeps A id from tok R V w0 w → vms w ⊆ V' → mkeeps A id from tok R V' w0 w.
Proof. intros [] ?. by constructor. Qed.

(** Only the trackers changed, and they gained at most that lease. *)
Lemma mkeeps_tracker A id from tok R V w0 w n t :
  mkeeps A id from tok R V w0 w →
  (∀ i m, t !! i = Some m →
     tracker_of n w !! i = Some m ∨ (n = from ∧ i = id ∧ leaseToken m = tok)) →
  mkeeps A id from tok R V w0 (set_tracker n t w).
Proof.
  intros [[] Hv Hls Hres] Ht. constructor; auto; [constructor; eauto using legal_same|].
  intros n' i m. unfold tracker_of at 1. simpl. destruct (decide (n = n')) as [<-|Hne].
  - rewrite lookup_insert_eq. simpl. intros [H|H]%Ht; [by apply Hls|by right].
  - rewrite lookup_insert_ne by done. apply Hls.
Qed.

Lemma mkeeps_untrack A id from tok R V w0 w n i :
  mkeeps A id from tok R V w0 w →
  mkeeps A id from tok R V w0 (set_tracker n (tracker_delete (tracker_of n w) i) w).
Proof.
  intros Hm. apply mkeeps_tracker; [done|]. intros j m. unfold tracker_delete.
  intros [_ ?]%lookup_delete_Some. by left.
Qed.

(** The row of [id] is written along an edge. *)
Lemma mkeeps_row A id from tok R V w0 w ins ins' :
  mkeeps A id from tok R V w0 w → rows w !! id = Some ins → row_step ins ins' →
  mkeeps A id from tok R V w0 (set_rows (<[id := ins']> (rows w)) w).
Proof.
  intros Hm Hr Hk. eapply mkeeps_step; [exact Hm|].
  apply (keeps_row ∅ w w id ins); [by eapply mkeeps_self|done|done].
Qed.

(** ** The calls of a handoff *)

Lemma wp_rpc {A} (handler : M (option A)) (Q : option A → world → Prop) w :
  (∀ l, Q None (set_faults l w)) →
  (∀ l, wp handler (λ r w', ∀ l', Q None (set_faults l' w') ∧ Q r (set_faults l' w')) (set_faults l w)) →
  wp (rpc handler) Q w.
Proof.
  intros H1 H2. apply wp_bind, wp_fault. intros [] l; [apply wp_ret, H1|]. apply wp_bind.
  eapply wp_mono; [apply H2|]. intros r w' HQ. apply wp_bind, wp_fault. intros lost l'.
  apply wp_ret. destruct lost; apply HQ.
Qed.

Lemma wp_store_cas op (Q : cas_result → world → Prop) w :
  (∀ l, Q CasFault (set_faults l w)) →
  (∀ l e, op (rows w) = inl e → Q (CasErr e) (set_faults l w)) →
  (∀ l m, op (rows w) = inr m →
     Q CasOk (set_rows m (set_faults l w)) ∧ Q CasFault (set_rows m (set_faults l w))) →
  wp (store_cas op) Q w.
Proof.
  intros H1 H2 H3. apply wp_bind, wp_fault. intros [] l.
  - apply wp_bind, wp_fault. intros [] l'; [|apply wp_ret, (H1 l')].
    apply wp_bind, wp_modify, wp_ret. simpl.
    destruct (op (rows w)) as [e|m] eqn:E; [apply (H1 l')|by apply (H3 l' m)].
  - unfold wp. simpl. destruct (op (rows w)) as [e|m] eqn:E; [auto|by apply H3].
Qed.

Lemma mark_cases m id from tok m' :
  Store.MarkInstanceMigrating m id from tok = inr m' →
  ∃ ins, m !! id = Some ins ∧ Store.NodeID ins = from ∧ Store.IState ins = StateRunning ∧
         m' = <[id := Store.set_lease tok (Store.set_state StateMigrating ins)]> m.
Proof.
  unfold Store.MarkInstanceMigrating. intros H. repeat (case_match; simplify_eq/=).
  unfold State_eqb in *. breflect. destruct_and?. eauto.
Qed.

Lemma cancel_cases m id from tok m' :
  Store.CancelInstanceMigration m id from tok = inr m' →
  ∃ ins, m !! id = Some ins ∧ Store.IState ins = StateMigrating ∧
         m' = <[id := Store.set_lease EmptyString (Store.set_state StateParked ins)]> m.
Proof.
  unfold Store.CancelInstanceMigration. intros H. repeat (case_match; simplify_eq/=).
  unfold State_eqb in *. breflect. destruct_and?. eauto.
Qed.

Lemma owner_cases m now id from to tok m' :
  Store.MigrateInstanceOwner m now id from to tok = inr m' →
  ∃ ins, m !! id = Some ins ∧ Store.NodeID ins = from ∧ Store.IState ins = StateMigrating ∧
         m' = <[id := Store.set_state StateRunning
                        (Store.set_lease tok (Store.set_owner to from now ins))]> m.
Proof.
  unfold Store.MigrateInstanceOwner. intros H. repeat (case_match; simplify_eq/=).
  unfold State_eqb in *. breflect. destruct_and?. eauto.
Qed.

Section one_handoff.
Context (id from : string) (h : MigrationHarness) (e : handoff) (w0 : world).
Let R0 : option Ledger.reservation := Ledger.view (led w0) !! id.
#[local] Abbreviation mk A R V := (mkeeps A id from (token e) R V w0).

Lemma event_keeps A R V ev w : mk A R V w → wp (run_event ev) (λ _ w', mk A R V w') w.
Proof.
  intros Hm. destruct ev as [o|node now]; simpl.
  - pose proof (keeps_lifecycles [o] w w (mkeeps_self _ _ _ _ _ _ _ _ Hm) (Wake.wk_keyed _ _ _ _ _ (mk_w _ _ _ _ _ _ _ _ Hm)))
      as Hl. simpl in Hl. unfold wp, bind in *.
    destruct (run_lifecycle o w) as [[[] w']|]; [|done]. by eapply mkeeps_step.
  - apply wp_bind, wp_reads. apply (wp_for_each (mk A R V)); [done|].
    intros m w' _ Hm'. apply wp_modify. by apply mkeeps_untrack.
Qed.

Lemma events_keep A R V evs w : mk A R V w → wp (for_each evs run_event) (λ _ w', mk A R V w') w.
Proof. intros Hm. apply (wp_for_each (mk A R V)); [done|]. intros. by apply event_keeps. Qed.

Lemma drop_lease_keeps A R V node tok' w :
  mk A R V w → wp (drop_lease node id tok') (λ _ w', mk A R V w') w.
Proof.
  intros Hm. unfold drop_lease. destruct (_ || _); [by apply wp_ret|]. apply wp_bind, wp_reads.
  destruct (tracker_get _ _ _); [by apply wp_ret|]. apply wp_bind, wp_modify, wp_ret.
  by apply mkeeps_untrack.
Qed.

Lemma rpc_keeps {T} A R V (handler : M (option T)) w :
  mk A R V w → (∀ w, mk A R V w → wp handler (λ _ w', mk A R V w') w) → wp (rpc handler) (λ _ w', mk A R V w') w.
Proof.
  intros Hm Hh. apply wp_rpc; [intros l; by apply mkeeps_faults|]. intros l.
  eapply wp_mono; [by apply Hh, mkeeps_faults|]. intros r w' Hm' l'. split; by apply mkeeps_faults.
Qed.

Lemma cancel_vmm_keeps A R V tok' w : mk A R V w → wp (cancel_vmm id from tok') (λ _ w', mk A R V w') w.
Proof.
  intros Hm. apply wp_bind. apply (wp_mono _ (λ _ w', mk A R V w')); [|intros; by apply wp_ret].
  apply rpc_keeps; [done|]. intros. by apply drop_lease_keeps.
Qed.

Lemma cancel_row_keeps A R V tok' w : mk A R V w → wp (cancel_row id from tok') (λ _ w', mk A R V w') w.
Proof.
  intros Hm. apply wp_bind, wp_store_cas; [intros l; by apply wp_ret, mkeeps_faults|
    intros l err _; by apply wp_ret, mkeeps_faults|].
  intros l m (ins & Hi & Hs & ->)%cancel_cases.
  assert (mk A R V (set_rows (<[id := Store.set_lease EmptyString (Store.set_state StateParked ins)]>
    (rows w)) (set_faults l w))); [|split; by apply wp_ret].
  apply (mkeeps_row _ _ _ _ _ _ _ (set_faults l w) ins); [by apply mkeeps_faults|done|].
  split_and!; try done. simpl. rewrite Hs. right. by constructor.
Qed.

(** The two rollbacks, and the value they return. *)
Lemma rollback_keeps A R V tok' (r : option mig_error) (Q : option mig_error → world → Prop) w :
  mk A R V w → (∀ w', mk A R V w' → Q r w') →
  wp (cancel_row id from tok';; cancel_vmm id from tok';; ret r) Q w.
Proof.
  intros Hm HQ. apply wp_bind. eapply wp_mono; [by apply cancel_row_keeps|]. intros ? w1 Hm1.
  apply wp_bind. eapply wp_mono; [by apply (cancel_vmm_keeps A R V)|]. intros ? w2 Hm2. by apply wp_ret, HQ.
Qed.

Lemma vmm_rollback_keeps A R V tok' (r : option mig_error) (Q : option mig_error → world → Prop) w :
  mk A R V w → (∀ w', mk A R V w' → Q r w') → wp (cancel_vmm id from tok';; ret r) Q w.
Proof.
  intros Hm HQ. apply wp_bind. eapply wp_mono; [by apply (cancel_vmm_keeps A R V)|]. intros ? w1 Hm1.
  by apply wp_ret, HQ.
Qed.

(** Phase 1: the VM on the dying node is gone whenever the call was answered. *)
Lemma prepare_keeps key w :
  mk no_extra R0 (vms w0) w →
  wp (rpc (PrepareLiveMigration (token e) from id key))
     (λ r w', match r with
              | Some p => mk no_extra R0 (vms w0 ∖ {[(from, id)]}) w' ∧ PLeaseToken p = token e ∧
                          (from, id) ∈ vms w0
              | None => mk no_extra R0 (vms w0) w'
              end) w.
Proof.
  intros Hm. apply wp_rpc; [intros l; by apply mkeeps_faults|]. intros l.
  apply (mkeeps_faults _ _ _ _ _ _ _ _ l) in Hm. revert Hm.
  generalize (set_faults l w). clear w l. intros w Hm.
  assert (∀ w', mk no_extra R0 (vms w0) w' → ∀ l', mk no_extra R0 (vms w0) (set_faults l' w') ∧
    mk no_extra R0 (vms w0) (set_faults l' w')) as Hnone.
  { intros w' Hm' l'. split; by apply mkeeps_faults. }
  unfold PrepareLiveMigration. apply wp_bind, wp_reads. destruct (_ || _); [by apply wp_ret, Hnone|].
  apply wp_bind. unfold vmm_park. apply wp_bind, wp_reads.
  destruct (bool_decide ((from, id) ∈ vms w)) eqn:Hlive; simpl negb; cbv iota;
    [apply bool_decide_eq_true in Hlive|by apply wp_ret, wp_ret, Hnone].
  apply wp_bind, wp_fault. intros f l. apply wp_bind, wp_modify, wp_ret.
  set (w1 := set_vms _ _).
  assert (mk no_extra R0 (vms w0) w1) as Hm1.
  { eapply mkeeps_step; [exact Hm|]. pose proof (mkeeps_self _ _ _ _ _ _ _ _ Hm). unfold w1. keeps_solve. }
  destruct f; simpl negb; cbv iota; [by apply wp_ret, Hnone|].
  apply wp_bind, wp_reads. unfold tracker_put. simpl mInstanceID.
  destruct (tracker_of from w1 !! id) eqn:Ht; [by apply wp_ret, Hnone|].
  apply wp_bind, wp_modify, wp_ret. intros l'.
  assert (mk no_extra R0 (vms w0) (set_tracker from (<[id := mkMig id (token e) (clock w)
     (time_add (clock w) (MigrateLiveLeaseSeconds *! Second)) key (vmstate_key key)]>
     (tracker_of from w1)) w1)) as Hm2.
  { apply mkeeps_tracker; [done|]. intros i m. rewrite lookup_insert_Some.
    intros [[<- <-]|[_ ?]]; [by right|by left]. }
  pose proof (mk_vms _ _ _ _ _ _ _ _ Hm). split; [by apply mkeeps_faults|].
  split_and!; [|done|set_solver]. eapply mkeeps_shrink; [by apply mkeeps_faults|]. simpl. set_solver.
Qed.

(** Sizes are far from the int32 and int64 ranges and every account has a known plan. *)
Record mig_data_ok : Prop := {
  md_ram a app : AppByID a = Some app → 0 ≤ aRAMMB app < 2 ^ 31;
  md_plan a p : PlanOf a = Some p → is_Some (LimitsFor p);
  md_ceil : destinationCeilingMB h ≤ Ledger.ram_max;
  md_vcpu : destinationVCPUBudget h ≤ Ledger.ram_max;
}.
Context (Hok : mig_data_ok).

Lemma migration_request_wf app limits plan dep sealed apiEnv a :
  AppByID a = Some app → LimitsFor plan = Some limits →
  Ledger.wf_request (migration_request h id (Wake.app_spec app limits dep sealed apiEnv)).
Proof.
  destruct Hok as [Hram _ Hc Hv]. intros Ha Hl. specialize (Hram a app Ha).
  apply Wake.LimitsFor_VCPU in Hl.
  assert (i32 (aRAMMB app) = aRAMMB app) as Er by (apply i32_id; unfold in_i32; lia).
  assert (i32 (Limits.VCPU limits) = Limits.VCPU limits) as Ev by (apply i32_id; unfold in_i32; lia).
  constructor; simpl; rewrite ?Er, ?Ev; try done; try lia;
    unfold Ledger.ram_max, PerVMOverheadMB in *; try lia;
    unfold Ledger.admit_ceiling, Ledger.admit_vcpuCeiling; simpl;
    match goal with |- (if ?b then _ else _) ≤ _ => destruct b; [by vm_compute|lia] end.
Qed.

Lemma faults_twice l l' w : set_faults l (set_faults l' w) = set_faults l w.
Proof. by destruct w. Qed.

Lemma wp_build (Q : option Wake.AppSpec → world → Prop) w :
  (∀ l, Q None (set_faults l w)) →
  (∀ l spec, Ledger.wf_request (migration_request h id spec) → Q (Some spec) (set_faults l w)) →
  wp (BuildAppSpecForMigration id) Q w.
Proof.
  intros H1 H2. unfold BuildAppSpecForMigration.
  apply wp_bind, wp_loadInstance; intros l; [by apply wp_ret|].
  destruct (rows w !! id) as [ins|]; [|by apply wp_ret].
  apply wp_bind, wp_readTable. intros app l1 Happ. rewrite faults_twice.
  destruct app as [app|]; [|by apply wp_ret]. destruct Happ as [?|Happ]; [done|].
  apply wp_bind, wp_readTable. intros dep l2 _. rewrite faults_twice.
  destruct dep as [dep|]; [|by apply wp_ret].
  apply wp_bind, wp_readTable. intros plan l3 Hplan. rewrite faults_twice.
  destruct plan as [plan|]; [|by apply wp_ret]. destruct Hplan as [?|Hplan]; [done|].
  destruct (md_plan Hok (aAccountID app) plan (eq_sym Hplan)) as [limits Hl].
  unfold MustLimitsFor. change (planLimits plan) with (LimitsFor plan). rewrite Hl.
  apply wp_bind. unfold Wake.sealed_env. apply wp_bind, wp_readTable. intros rws l4 _.
  rewrite faults_twice. apply wp_ret. destruct (Wake.loadSealedEnvFor _ _) as [|sealed]; [by apply wp_ret|].
  apply wp_bind. unfold Wake.loadAPIEnv. apply wp_bind, wp_readTable. intros rws' l5 _.
  rewrite faults_twice. apply wp_ret, wp_ret, H2. by eapply migration_request_wf.
Qed.

(** The new owner's vmmd can only know the lease if it is the dying vmmd itself, or already held
    the token before the handoff began. *)
Definition lease_known : Prop :=
  newOwnerNodeID h = from ∨
  ∃ m, tracker_of (newOwnerNodeID h) w0 !! id = Some m ∧ leaseToken m = token e.

Lemma adopt_rpc R V mem vmstate w :
  mk no_extra R V w →
  wp (rpc (AdoptMigratedInstance (newOwnerNodeID h) id mem vmstate (token e)))
     (λ r w', mk no_extra R V w' ∧ (is_Some r → lease_known)) w.
Proof.
  intros Hm. assert (∀ l w', mk no_extra R V w' → mk no_extra R V (set_faults l w') ∧ (is_Some (@None unit) → lease_known))
    as Hnone by (intros l w' Hm'; split; [by apply mkeeps_faults|by intros [? ?]]).
  apply wp_rpc; [intros; by apply Hnone|]. intros l. apply (mkeeps_faults _ _ _ _ _ _ _ _ l) in Hm.
  unfold AdoptMigratedInstance. destruct (_ || _); [apply wp_ret; intros; split; by apply Hnone|].
  apply wp_bind, wp_reads. destruct (tracker_get _ _ _) as [|m] eqn:Hg; apply wp_ret; intros l';
    (split; [by apply Hnone|]); [by apply Hnone|].
  split; [by apply mkeeps_faults|]. intros _. unfold tracker_get in Hg.
  destruct (tracker_of _ _ !! id) as [m'|] eqn:Hm'; [|done].
  destruct (String.eqb (leaseToken m') (token e)) eqn:Ht; simplify_eq/=. apply String.eqb_eq in Ht.
  destruct (mk_leases _ _ _ _ _ _ _ _ Hm _ _ _ Hm') as [?|(? & _)]; [right; eauto|by left].
Qed.

(** The one write of a handoff that is not a single edge on the row's node: the commit, which takes
    a MIGRATING row of the dying node to RUNNING on the new owner and records the lineage. *)
Definition moved : extra := λ k o o',
  k = id ∧ ∃ i i', o = Some i ∧ o' = Some i' ∧
    Store.IState i = StateMigrating ∧ Store.NodeID i = from ∧
    Store.IState i' = StateRunning ∧ Store.NodeID i' = newOwnerNodeID h ∧
    Store.MigratedFromNodeID i' = Some from ∧ Store.LeaseToken i' = token e ∧
    Store.ID i' = Store.ID i ∧ Store.AppID i' = Store.AppID i ∧ Store.RAMMB i' = Store.RAMMB i.

(** The row after the commit, against the row before the handoff. *)
Definition row_moved (w : world) : Prop :=
  ∃ ins0 ins, rows w0 !! id = Some ins0 ∧ rows w !! id = Some ins ∧
    Store.NodeID ins0 = from ∧ Store.NodeID ins = newOwnerNodeID h ∧
    Store.IState ins = StateRunning ∧ Store.MigratedFromNodeID ins = Some from ∧
    Store.LeaseToken ins = token e ∧ Store.AppID ins = Store.AppID ins0 ∧
    Store.RAMMB ins = Store.RAMMB ins0.

#[local] Abbreviation V1 := (vms w0 ∖ {[(from, id)]}).

(** A committed handoff: the row runs on the new owner with its lineage recorded, its reservation
    can only be on the new owner, the VM of the dying node is gone, and the new owner's vmmd knew
    the lease. *)
Record committed (w : world) : Prop := {
  c_w : Wake.wkeeps moved id ∅ w0 w;
  c_vms : vms w ⊆ V1;
  c_had : (from, id) ∈ vms w0;
  c_row : row_moved w;
  c_lease : lease_known;
  c_res r : Ledger.view (led w) !! id = Some r → Ledger.nodeID r = newOwnerNodeID h;
}.

(** The commit went through but its answer was lost: the row is the new owner's, and the handoff
    has given its reservation back. *)
Record lost_commit (w : world) : Prop := {
  lc_w : mk moved None V1 w;
  lc_row : row_moved w;
  lc_lease : lease_known;
}.

(** How [MigrateOne] ends. *)
Definition handoff_ends (r : option mig_error) (w : world) : Prop :=
  match r with
  | None => committed w
  | Some ErrCommit | Some ErrLeaseExpired => mk no_extra R0 (vms w0) w ∨ lost_commit w
  | Some _ => mk no_extra R0 (vms w0) w
  end.

Lemma ends_error err w : mk no_extra R0 (vms w0) w → handoff_ends (Some err) w.
Proof. intros Hm. destruct err; simpl; auto. Qed.

Lemma committed_ext w w' :
  committed w → locked w' = locked w → led w' = led w → rows w' = rows w → vms w' = vms w →
  history w' = history w → committed w'.
Proof.
  intros [Hw Hv Hg Hr Hl Hres] E1 E2 E3 E4 E5.
  constructor; unfold row_moved; rewrite ?E2, ?E3, ?E4; auto. eapply Wake.wkeeps_same; eauto.
Qed.

Lemma ack_keeps w : committed w → wp (rpc (AcknowledgeMigration from id (token e));; ret None) handoff_ends w.
Proof.
  intros Hc. apply wp_bind. apply (wp_mono _ (λ _ w', committed w')); [|intros; by apply wp_ret].
  apply wp_rpc; [intros l; by eapply committed_ext|]. intros l. unfold AcknowledgeMigration, drop_lease.
  destruct (_ || _); [apply wp_ret; intros l'; split; by eapply committed_ext|]. apply wp_bind, wp_reads.
  destruct (tracker_get _ _ _); [apply wp_ret|apply wp_bind, wp_modify, wp_ret];
    intros l'; split; by eapply committed_ext.
Qed.

Lemma mk_all A R w : mk A R V1 w → mk A R (vms w0) w.
Proof.
  intros Hm. eapply mkeeps_shrink; [done|]. pose proof (mk_vms _ _ _ _ _ _ _ _ Hm). set_solver.
Qed.

Lemma vmm_rollback_ends R err w :
  mk no_extra R V1 w →
  wp (ledger_Release id;; cancel_vmm id from (token e);; ret (Some err)) handoff_ends w.
Proof.
  intros Hm. apply wp_bind, wp_modify. eapply (vmm_rollback_keeps no_extra R0 (vms w0));
    [|intros; by apply ends_error]. by eapply mkeeps_release, mk_all.
Qed.

Lemma rollback_ends err w :
  mk no_extra R0 V1 w →
  wp (cancel_row id from (token e);; cancel_vmm id from (token e);; ret (Some err)) handoff_ends w.
Proof.
  intros Hm. eapply (rollback_keeps no_extra R0 (vms w0)); [by apply mk_all|].
  intros; by apply ends_error.
Qed.

(** Only the lease trackers change when the lost commit is cancelled at the dying vmmd. *)
Lemma lost_commit_ends R err w :
  mk moved R V1 w → row_moved w → lease_known → err = ErrCommit ∨ err = ErrLeaseExpired →
  wp (ledger_Release id;; cancel_vmm id from (token e);; ret (Some err)) handoff_ends w.
Proof.
  intros Hm Hr Hl Herr. apply wp_bind, wp_modify.
  apply (mkeeps_release _ _ _ _ _ None) in Hm.
  change (row_moved (set_led (Ledger.release (led w) id) w)) in Hr. revert Hm Hr.
  generalize (set_led (Ledger.release (led w) id) w). clear w. intros w Hm Hr.
  apply wp_bind. apply (wp_mono _ (λ _ w', lost_commit w')).
  2: { intros ? w' Hlc. apply wp_ret. destruct Herr as [-> | ->]; by right. }
  assert (∀ w', mk moved None V1 w' → rows w' = rows w → lost_commit w') as Hlc.
  { intros w' Hm' E. constructor; [done| |done]. unfold row_moved. by rewrite E. }
  apply wp_bind. apply (wp_mono _ (λ _ w', lost_commit w')); [|intros; by apply wp_ret].
  apply wp_rpc; [intros l; apply Hlc; [by apply mkeeps_faults|done]|]. intros l.
  unfold CancelLiveMigration, drop_lease.
  destruct (_ || _); [apply wp_ret; intros l'; split; apply Hlc; by do 2 try apply mkeeps_faults|].
  apply wp_bind, wp_reads. destruct (tracker_get _ _ _); [apply wp_ret|apply wp_bind, wp_modify, wp_ret];
    intros l'; split; apply Hlc; try done; by repeat (apply mkeeps_faults || apply mkeeps_untrack).
Qed.

Lemma commit_ends R w :
  mk no_extra R V1 w → (∀ r, R = Some r → Ledger.nodeID r = newOwnerNodeID h) →
  (from, id) ∈ vms w0 → lease_known →
  wp (migrate_commit h id from (token e)) handoff_ends w.
Proof.
  intros Hm HR Hin Hlk. unfold migrate_commit. apply wp_bind, wp_reads, wp_bind, wp_store_cas.
  - intros l. apply wp_bind, wp_fault. intros late l'.
    by eapply vmm_rollback_ends, mkeeps_faults, mkeeps_faults.
  - intros l err _. destruct err; by eapply vmm_rollback_ends, mkeeps_faults.
  - intros l m (ins & Hi & Hnode & Hs & ->)%owner_cases.
    apply (mkeeps_faults _ _ _ _ _ _ _ _ l) in Hm. destruct Hm as [Hw Hv Hls Hres].
    pose proof (Wake.wk_keyed _ _ _ _ _ Hw id ins Hi) as Hid. simpl in Hv.
    set (ins' := Store.set_state _ _). set (w1 := set_rows _ _).
    assert (Wake.wkeeps moved id ∅ w0 w1) as Hw1.
    { apply (Wake.wkeeps_row moved id ∅ w0 (set_faults l w)); [by eapply Wake.wkeeps_plain|done|].
      split; [done|]. exists ins, ins'. by split_and!. }
    assert (row_moved w1) as Hr1.
    { pose proof (legal_kept no_extra w0 _ id ltac:(by intros ? ? []) (Wake.wk_legal _ _ _ _ _ Hw)) as Hr.
      simpl in Hr. rewrite Hi in Hr. destruct (rows w0 !! id) as [ins0|] eqn:H0; [|by inversion Hr].
      assert (row_kept ins0 ins) as (_ & _ & Happ & Hram & Hn) by (by inversion Hr).
      exists ins0, ins'. split; [done|]. split; [apply lookup_insert_eq|]. split_and!; simpl; congruence. }
    split.
    + apply ack_keeps. constructor; auto.
      intros r Hr'. destruct (Hres r Hr') as (r0 & -> & [->| ->]); by apply (HR r0).
    + apply wp_bind, wp_fault. intros late l'. eapply (lost_commit_ends R); [|done|done|].
      * apply mkeeps_faults. by constructor.
      * destruct late; auto.
Qed.

Lemma adopt_ends p w :
  mk no_extra R0 V1 w → PLeaseToken p = token e → (from, id) ∈ vms w0 →
  wp (migrate_adopt h e id from p) handoff_ends w.
Proof.
  intros Hm Htok Hin. unfold migrate_adopt. rewrite Htok. apply wp_bind, wp_build; intros l;
    [by apply rollback_ends, mkeeps_faults|].
  intros spec Hwf. apply wp_bind.
  apply (mkeeps_faults _ _ _ _ _ _ _ _ l) in Hm. destruct Hm as [Hw Hv Hls Hres].
  eapply Wake.wp_admit; [exact Hw|exact Hwf|done| |].
  - intros err lg Hw' Hview. apply rollback_ends. constructor; auto.
    intros r. cbn [led set_led]. rewrite Hview. apply Hres.
  - intros lg Hw' Hview.
    set (R1 := Some (Ledger.new_reservation (migration_request h id spec))).
    assert (mk no_extra R1 V1 (set_led lg (set_faults l w))) as Hm1.
    { constructor; auto. intros r. cbn [led set_led]. rewrite Hview, lookup_insert_eq.
      intros [= <-]. eexists. split; [done|by left]. }
    apply wp_bind. eapply wp_mono; [by apply (adopt_rpc R1 V1)|].
    intros adopted w2 [Hm2 Hlk]. apply wp_bind. eapply wp_mono; [by apply (events_keep no_extra R1 V1)|].
    intros ? w3 Hm3. destruct adopted as [[]|];
      [apply (commit_ends R1); [done|by intros ? [= <-]|done|apply Hlk; eauto]|].
    apply wp_bind, wp_modify, rollback_ends. eapply mkeeps_release, Hm3.
Qed.

Lemma MigrateOne_ends w : mk no_extra R0 (vms w0) w → wp (MigrateOne h e id from) handoff_ends w.
Proof.
  intros Hm. unfold MigrateOne. destruct (_ || _); [by apply wp_ret, ends_error|]. apply wp_bind.
  eapply wp_mono; [by apply prepare_keeps|]. intros [p|] w1; [|intros Hm1; by apply wp_ret, ends_error].
  intros (Hm1 & Htok & Hin). rewrite Htok. apply wp_bind.
  eapply wp_mono; [by apply (events_keep no_extra R0 V1)|]. intros ? w2 Hm2.
  assert (∀ err w', mk no_extra R0 V1 w' → wp (cancel_vmm id from (token e);; ret (Some err)) handoff_ends w') as Hrb.
  { intros err w' Hm'. eapply (vmm_rollback_keeps no_extra R0 (vms w0)); [by apply mk_all|].
    intros; by apply ends_error. }
  apply wp_bind, wp_store_cas; [intros l; by apply Hrb, mkeeps_faults|
    intros l [] _; by apply Hrb, mkeeps_faults|].
  intros l m (ins & Hi & Hn & Hs & ->)%mark_cases. set (w3 := set_rows _ _).
  assert (mk no_extra R0 V1 w3) as Hm3.
  { apply (mkeeps_row _ _ _ _ _ _ _ (set_faults l w2) ins); [by apply mkeeps_faults|done|].
    split_and!; try done. simpl. rewrite Hs. right. by constructor. }
  split; [|by apply Hrb]. apply wp_bind.
  eapply wp_mono; [by apply (events_keep no_extra R0 V1)|intros ? w4 Hm4; by apply adopt_ends].
Qed.
End one_handoff.

(** ** A handoff in which no call fails *)

Lemma wp_rpc_nil {A} (handler : M (option A)) (Q : option A → world → Prop) w :
  faults w = [] → wp handler (λ r w', faults w' = [] ∧ Q r w') w → wp (rpc handler) Q w.
Proof.
  intros Hf Hh. apply wp_bind, wp_fault_nil; [done|]. apply wp_bind. eapply wp_mono; [exact Hh|].
  intros r w' [Hf' HQ]. by apply wp_bind, wp_fault_nil, wp_ret.
Qed.

Lemma wp_cas_nil op (Q : cas_result → world → Prop) w :
  faults w = [] →
  match op (rows w) with inr m => Q CasOk (set_rows m w) | inl err => Q (CasErr err) w end →
  wp (store_cas op) Q w.
Proof.
  intros Hf HQ. apply wp_bind, wp_fault_nil; [done|]. unfold wp. by destruct (op (rows w)).
Qed.

Lemma wp_readTable_nil {A} (x : option A) (Q : option A → world → Prop) w :
  faults w = [] → Q x w → wp (readTable x) Q w.
Proof. intros Hf HQ. by apply wp_bind, wp_fault_nil, wp_ret. Qed.

Section handoff_runs.
Context (id from : string) (h : MigrationHarness) (tok : string) (ins : Store.Instance) (w0 : world).
Context (Hok : mig_data_ok h).
#[local] Abbreviation e := (mkHandoff tok [] [] []).

Lemma wp_build_nil (Q : option Wake.AppSpec → world → Prop) w :
  faults w = [] →
  (∀ spec, (∀ s, spec = Some s → Ledger.wf_request (migration_request h id s)) → Q spec w) →
  wp (BuildAppSpecForMigration id) Q w.
Proof.
  intros Hf HQ. assert (Q None w) as Hnone by by apply HQ. unfold BuildAppSpecForMigration.
  unfold loadInstance. apply wp_bind, wp_bind, wp_fault_nil, wp_reads; [done|].
  unfold Store.InstanceByID. destruct (rows w !! id) as [i|]; [|by apply wp_ret].
  apply wp_bind, wp_readTable_nil; [done|]. destruct (AppByID _) as [app|] eqn:Happ; [|by apply wp_ret].
  apply wp_bind, wp_readTable_nil; [done|]. destruct (LiveDeploymentOf _) as [dep|]; [|by apply wp_ret].
  apply wp_bind, wp_readTable_nil; [done|]. destruct (PlanOf _) as [plan|] eqn:Hplan; [|by apply wp_ret].
  destruct (md_plan h Hok _ plan Hplan) as [limits Hl].
  unfold MustLimitsFor. change (planLimits plan) with (LimitsFor plan). rewrite Hl.
  apply wp_bind. unfold Wake.sealed_env. apply wp_bind, wp_readTable_nil, wp_ret; [done|].
  destruct (Wake.loadSealedEnvFor _ _) as [|sealed]; [by apply wp_ret|].
  apply wp_bind. unfold Wake.loadAPIEnv. apply wp_bind, wp_readTable_nil, wp_ret, wp_ret, HQ; [done|].
  intros ? [= <-]. by eapply migration_request_wf.
Qed.

Definition migrating_row : Store.Instance := Store.set_lease tok (Store.set_state StateMigrating ins).
Definition parked_row : Store.Instance :=
  Store.set_lease EmptyString (Store.set_state StateParked migrating_row).

(** After Phase 2 and up to the rollback. *)
Record marked (w : world) : Prop := {
  m_rows : rows w = <[id := migrating_row]> (rows w0);
  m_vms : vms w = vms w0 ∖ {[(from, id)]};
  m_inv : Ledger.inv (led w);
  m_view : Ledger.view (led w) = Ledger.view (led w0);
  m_locked : locked w = locked w0;
  m_lease : ∃ m, leaseToken m = tok ∧ tracker_of from w = <[id := m]> (tracker_of from w0);
  m_others n : n ≠ from → tracker_of n w = tracker_of n w0;
  m_faults : faults w = [];
}.

(** The instance ends parked where it was, without VM, lease or reservation of the handoff. *)
Record parked_back (w : world) : Prop := {
  pb_rows : rows w = <[id := parked_row]> (rows w0);
  pb_vms : vms w = vms w0 ∖ {[(from, id)]};
  pb_view : Ledger.view (led w) = Ledger.view (led w0);
  pb_locked : locked w = locked w0;
  pb_leases n : tracker_of n w = tracker_of n w0;
}.

Context (Hid : id ≠ EmptyString) (Hfrom : from ≠ EmptyString) (Htok : tok ≠ EmptyString).
Context (Hrow : rows w0 !! id = Some ins) (Hrun : Store.IState ins = StateRunning)
        (Hnode : Store.NodeID ins = from).
Context (Hfree : tracker_of from w0 !! id = None).

Lemma not_empty s : s ≠ EmptyString → String.eqb s EmptyString = false.
Proof. by intros ?%String.eqb_neq. Qed.

Lemma rollback_runs (r : option mig_error) w :
  marked w →
  wp (cancel_row id from tok;; cancel_vmm id from tok;; ret r) (λ r' w', r' = r ∧ parked_back w') w.
Proof.
  intros [Hr Hv Hi Hl Hk (m & Hm & Ht) Ho Hf]. apply wp_bind. unfold cancel_row.
  apply wp_bind, wp_cas_nil; [done|]. unfold Store.CancelInstanceMigration.
  rewrite !not_empty, Hr, lookup_insert_eq by done. simpl. rewrite Hnode, !String.eqb_refl. simpl.
  apply wp_ret. apply wp_bind. unfold cancel_vmm. apply wp_bind, wp_rpc_nil; [done|].
  unfold CancelLiveMigration, drop_lease. rewrite !not_empty by done. simpl. apply wp_bind, wp_reads.
  unfold tracker_get. change (tracker_of from (set_rows _ w)) with (tracker_of from w).
  rewrite Ht, lookup_insert_eq, Hm, String.eqb_refl. simpl. apply wp_bind, wp_modify, wp_ret.
  split; [done|]. apply wp_ret, wp_ret. split; [done|]. constructor; simpl; auto.
  - by rewrite insert_insert_eq.
  - intros n. unfold tracker_of at 1. simpl. destruct (decide (from = n)) as [<-|Hne].
    + rewrite lookup_insert_eq. simpl. unfold tracker_delete. by rewrite delete_insert_id.
    + rewrite lookup_insert_ne by done. by apply Ho.
Qed.

Definition refused (r : option mig_error) : Prop :=
  r = Some ErrLoadSpec ∨ (∃ err, r = Some (ErrReserve err)) ∨ r = Some ErrAdopt.

Context (Hcross : newOwnerNodeID h ≠ from).
Context (Hforeign : ∀ m, tracker_of (newOwnerNodeID h) w0 !! id = Some m → leaseToken m ≠ tok).

(** The new owner's own tracker does not hold the dying vmmd's lease. *)
Lemma adopt_refused mem vmstate (Q : option unit → world → Prop) w :
  tracker_of (newOwnerNodeID h) w = tracker_of (newOwnerNodeID h) w0 → faults w = [] →
  Q None w → wp (rpc (AdoptMigratedInstance (newOwnerNodeID h) id mem vmstate tok)) Q w.
Proof.
  intros Ht Hf HQ. apply wp_rpc_nil; [done|]. unfold AdoptMigratedInstance.
  destruct (_ || _); [apply wp_ret; by split|]. apply wp_bind, wp_reads. rewrite Ht. unfold tracker_get.
  destruct (tracker_of (newOwnerNodeID h) w0 !! id) as [m|]; [|by apply wp_ret].
  specialize (Hforeign m eq_refl). apply String.eqb_neq in Hforeign. rewrite Hforeign. by apply wp_ret.
Qed.

Lemma adopt_runs p w :
  marked w → PLeaseToken p = tok →
  wp (migrate_adopt h e id from p) (λ r w', refused r ∧ parked_back w') w.
Proof.
  intros Hm Hp. unfold migrate_adopt. rewrite Hp. apply wp_bind, wp_build_nil; [apply Hm|].
  intros spec Hwf.
  assert (∀ r w', refused r → marked w' → wp (cancel_row id from tok;; cancel_vmm id from tok;; ret r)
    (λ r' w', refused r' ∧ parked_back w') w') as Hback.
  { intros r w' Hr Hm'. eapply wp_mono; [by apply rollback_runs|]. by intros ? ? [-> ?]. }
  destruct spec as [spec|]; [|apply Hback; [by left|done]].
  specialize (Hwf spec eq_refl). destruct Hm as [Hr Hv Hi Hl Hk Ht Ho Hf].
  destruct (Ledger.law_admit (led w) _ Hi Hwf) as [Hi' HE]. apply wp_bind. unfold wp at 1, ledger_Admit.
  destruct (Ledger.spec_admit_cases (Ledger.view (led w)) (migration_request h id spec))
    as [(err & Es)|(Habs & Es & _)];
    rewrite Es in HE; pose proof (f_equal fst HE) as HV; pose proof (f_equal snd HE) as Herr;
    cbn [fst snd] in HV, Herr; rewrite Herr.
  - apply Hback; [right; left; by exists err|]. constructor; cbn [led set_led]; auto. congruence.
  - apply wp_bind, adopt_refused; [by apply Ho|done|]. apply wp_bind, wp_ret, wp_bind, wp_modify.
    apply Hback; [by right; right|].
    destruct (Ledger.law_release (Ledger.try_admit (led w) (migration_request h id spec)).1 id Hi')
      as [Hi2 HV2].
    constructor; cbn [led set_led]; auto. rewrite HV2, HV. simpl in *. by rewrite delete_insert_id.
Qed.

Lemma MigrateOne_runs :
  faults w0 = [] → Ledger.inv (led w0) → (from, id) ∈ vms w0 →
  wp (MigrateOne h e id from) (λ r w', refused r ∧ parked_back w') w0.
Proof.
  intros Hf Hi Hvm. unfold MigrateOne. rewrite !not_empty by done. simpl. apply wp_bind, wp_rpc_nil; [done|].
  unfold PrepareLiveMigration. apply wp_bind, wp_reads. rewrite (not_empty id) by done.
  cbn [orb]. rewrite (not_empty ("snap/migration-" +:+ _)) by done.
  apply wp_bind. unfold vmm_park. apply wp_bind, wp_reads. rewrite bool_decide_true by done. simpl.
  apply wp_bind, wp_fault_nil, wp_bind, wp_modify, wp_ret; [done|]. simpl. apply wp_bind, wp_reads.
  unfold tracker_put. simpl. change (tracker_of from (set_vms _ w0)) with (tracker_of from w0).
  rewrite Hfree. apply wp_bind, wp_modify, wp_ret. split; [done|]. apply wp_bind, wp_ret.
  apply wp_bind, wp_cas_nil; [done|]. unfold Store.MarkInstanceMigrating. simpl.
  rewrite !not_empty, Hrow, Hnode, Hrun, String.eqb_refl by done. simpl. apply wp_bind, wp_ret.
  apply adopt_runs; [|done]. constructor; simpl; auto.
  - eexists. split; [|unfold tracker_of; simpl; by rewrite lookup_insert_eq]. done.
  - intros n Hne. unfold tracker_of. simpl. by rewrite lookup_insert_ne.
Qed.
End handoff_runs.
End handoff_safety.

(** ** The reconcilers *)

Section reconcilers.
Context {cfg : Config} {env : Wake.WakeEnv} {menv : MigEnv}.
Implicit Types w : world.

(** The effect of a pass over the rows [l]: each is rewritten by [g] and, when [rel], gives its
    reservation back. *)
Record batch (g : Store.Instance → Store.Instance) (rel : bool) (l : list Store.Instance)
    (w w' : world) : Prop := {
  b_hit x : x ∈ l → rows w' !! Store.ID x = Some (g x);
  b_miss k : k ∉ (Store.ID <$> l) → rows w' !! k = rows w !! k;
  b_inv : Ledger.inv (led w');
  b_view i : Ledger.view (led w') !! i
             = if rel && bool_decide (i ∈ Store.ID <$> l) then None else Ledger.view (led w) !! i;
  b_vms : vms w' = vms w;
  b_locked : locked w' = locked w;
  b_clock : clock w' = clock w;
  b_faults : faults w' = faults w;
}.

Definition touch (g : Store.Instance → Store.Instance) (rel : bool) (ins : Store.Instance)
    (w : world) : world :=
  let w := set_rows (<[Store.ID ins := g ins]> (rows w)) w in
  if rel then set_led (Ledger.release (led w) (Store.ID ins)) w else w.

Lemma touch_view g rel ins w i :
  Ledger.inv (led w) →
  Ledger.inv (led (touch g rel ins w)) ∧
  Ledger.view (led (touch g rel ins w)) !! i
  = if rel && bool_decide (i = Store.ID ins) then None else Ledger.view (led w) !! i.
Proof.
  intros Hi. unfold touch. destruct rel; [|done].
  destruct (Ledger.law_release (led w) (Store.ID ins) Hi) as [Hi' HE]. split; [exact Hi'|].
  change (Ledger.view (Ledger.release (led w) (Store.ID ins)) !! i
          = if true && bool_decide (i = Store.ID ins) then None else Ledger.view (led w) !! i).
  rewrite HE. case_bool_decide as Hd; simpl; [subst; apply lookup_delete_eq|].
  by rewrite lookup_delete_ne.
Qed.

Lemma touch_rows g rel ins w : rows (touch g rel ins w) = <[Store.ID ins := g ins]> (rows w).
Proof. by destruct rel. Qed.

Lemma touch_same g rel ins w :
  vms (touch g rel ins w) = vms w ∧ locked (touch g rel ins w) = locked w ∧
  clock (touch g rel ins w) = clock w ∧ faults (touch g rel ins w) = faults w.
Proof. by destruct rel. Qed.

Lemma batch_nil g rel w : Ledger.inv (led w) → batch g rel [] w w.
Proof.
  intros Hi. constructor; auto; [by intros x ?%elem_of_nil|]. intros i. by destruct rel.
Qed.

Lemma batch_cons g rel x l w w' :
  Store.ID x ∉ Store.ID <$> l → Ledger.inv (led w) →
  batch g rel l (touch g rel x w) w' → batch g rel (x :: l) w w'.
Proof.
  intros Hx Hi [Hh Hm Hi' Hv Hvm Hlk Hc Hf]. destruct (touch_same g rel x w) as (E1 & E2 & E3 & E4).
  constructor; rewrite ?Hvm, ?Hlk, ?Hc, ?Hf; auto.
  - intros y [->|Hy]%elem_of_cons; [|by apply Hh]. rewrite Hm, touch_rows by done. apply lookup_insert_eq.
  - intros k Hk. rewrite fmap_cons, not_elem_of_cons in Hk. destruct Hk as [Hne Hk].
    rewrite Hm, touch_rows by done. by rewrite lookup_insert_ne.
  - intros i. rewrite Hv. destruct (touch_view g rel x w i Hi) as [_ ->]. destruct rel; [|done]. cbn [andb].
    rewrite fmap_cons. repeat case_bool_decide; set_solver.
Qed.

Lemma count_runs (f : Store.Instance → M bool) g rel l w n :
  Ledger.inv (led w) → faults w = [] → NoDup (Store.ID <$> l) →
  (∀ x, x ∈ l → rows w !! Store.ID x = Some x) →
  (∀ x w', x ∈ l → faults w' = [] → clock w' = clock w → rows w' !! Store.ID x = Some x →
     f x w' = Some (true, touch g rel x w')) →
  ∃ w', count_each l f n w = Some ((n + length l)%nat, w') ∧ batch g rel l w w'.
Proof.
  revert w n. induction l as [|x l IH]; intros w n Hi Hf Hnd Hrows Hstep; simpl.
  { exists w. rewrite Nat.add_0_r. split; [done|by apply batch_nil]. }
  rewrite fmap_cons, NoDup_cons in Hnd. destruct Hnd as [Hx Hnd].
  rewrite (run_bind _ _ _ _ _ (Hstep x w ltac:(by left) Hf eq_refl ltac:(by apply Hrows; left))).
  destruct (touch_same g rel x w) as (_ & _ & E3 & E4).
  destruct (IH (touch g rel x w) (S n)) as (w' & Hrun & Hb); auto.
  - by apply (touch_view g rel x w EmptyString).
  - by rewrite E4.
  - intros y Hy. rewrite touch_rows, lookup_insert_ne; [by apply Hrows; right|].
    intros Heq. apply Hx. rewrite Heq. apply list_elem_of_fmap. eauto.
  - intros y w1 Hy Hf1 Hc1 Hr1. apply Hstep; [by right|done|congruence|done].
  - exists w'. split; [by rewrite Hrun, Nat.add_succ_comm|by apply batch_cons].
Qed.


Lemma nodup_take (l : list Store.Instance) n :
  NoDup (Store.ID <$> l) → NoDup (Store.ID <$> take n l).
Proof. intros H. eapply sublist_NoDup; [exact H|]. apply (fmap_sublist _), sublist_take. Qed.

Lemma nodup_sort less (l : list Store.Instance) :
  NoDup (Store.ID <$> l) → NoDup (Store.ID <$> go_sort less l).
Proof. by rewrite (go_sort_perm less l). Qed.

(** Rows the migration reconciler looks at, and what it makes of one. *)
Definition stuck (ins : Store.Instance) : Prop :=
  Store.IState ins = StateMigrating ∧ Store.LeaseToken ins ≠ EmptyString.

Definition node_active (nodeID : string) : bool :=
  if String.eqb nodeID EmptyString then false
  else match Wake.ComputeNodeRow nodeID with Some n => Placement.Active n | None => false end.

Definition resolved (now : Time) (ins : Store.Instance) : Store.Instance :=
  if node_active (Store.NodeID ins)
  then Store.set_lease EmptyString (Store.set_migrated now (Store.set_state StateRunning ins))
  else Store.set_lease EmptyString (Store.set_state StateParked ins).

Lemma resolved_not_stuck now ins : ¬ stuck (resolved now ins).
Proof. unfold resolved, stuck. destruct (node_active _); simpl; tauto. Qed.

Lemma run_reconcile_row now ins w :
  faults w = [] → clock w = now → Store.ID ins ≠ EmptyString → rows w !! Store.ID ins = Some ins →
  stuck ins → reconcile_row ins w = Some (true, touch (resolved now) false ins w).
Proof.
  intros Hf <- Hid Hr [Hs Ht]. unfold reconcile_row.
  assert (computeNodeActive (Store.NodeID ins) w = Some (Some (node_active (Store.NodeID ins)), w)) as Ha.
  { unfold computeNodeActive, node_active. destruct (String.eqb _ _); [done|].
    by rewrite (run_bind _ _ _ _ _ (run_fault w Hf)). }
  rewrite (run_bind _ _ _ _ _ Ha). unfold bind at 1, reads. unfold store_cas.
  unfold bind at 1. unfold bind at 1. rewrite (run_fault w Hf).
  unfold Store.ReinviteMigratingInstance, Store.AbortMigratingInstance, touch, resolved.
  rewrite (proj2 (String.eqb_neq _ _) Hid), (proj2 (String.eqb_neq _ _) Ht), Hr, Hs, String.eqb_refl.
  by destruct (node_active _).
Qed.

(** The listed rows are distinct stuck rows of the table. *)
Lemma listed_stuck m lim :
  Store.keyed m →
  let l := Store.ListExpiredMigrations m lim in
  NoDup (Store.ID <$> l) ∧
  (∀ x, x ∈ l → m !! Store.ID x = Some x ∧ stuck x) ∧
  (Z.of_nat (length (filter stuck (map_to_list m).*2)) ≤ lim →
     ∀ x, m !! Store.ID x = Some x → stuck x → x ∈ l).
Proof.
  intros Hk. unfold Store.ListExpiredMigrations. destruct (lim <? 1) eqn:Hl; breflect.
  - split_and!; [constructor|by intros x ?%elem_of_nil|]. intros Hlen x Hx Hs.
    assert (x ∈ filter stuck (map_to_list m).*2) as Hin by by apply Store.elem_of_rows.
    destruct (filter stuck _); [by apply elem_of_nil in Hin|simpl in Hlen; lia].
  - split_and!.
    + by apply nodup_take, nodup_sort, Store.rows_nodup.
    + intros x Hx%elem_of_take. destruct Hx as (i & Hx%list_elem_of_lookup_2 & _).
      apply elem_of_go_sort, Store.elem_of_rows in Hx; [|done]. by destruct Hx as [? ?].
    + intros Hlen x Hx Hs. rewrite take_ge; [by apply elem_of_go_sort, Store.elem_of_rows|].
      rewrite length_go_sort. unfold stuck in Hlen. lia.
Qed.

(** Rows the dead-node sweep looks at, and what it makes of one. *)
Definition orphaned (threshold : Time) (ins : Store.Instance) : Prop :=
  Store.IState ins = StateRunning ∧ Store.node_dead node_status threshold ins = true.

Definition failed_row (now : Time) (ins : Store.Instance) : Store.Instance :=
  Store.set_terminal now (Store.set_state StateFailed ins).

Lemma run_fail_row now ins w :
  faults w = [] → clock w = now → Store.ID ins ≠ EmptyString → Store.NodeID ins ≠ EmptyString →
  rows w !! Store.ID ins = Some ins → Store.IState ins = StateRunning →
  fail_row ins w = Some (true, touch (failed_row now) true ins w).
Proof.
  intros Hf <- Hid Hn Hr Hs. unfold fail_row, store_cas. unfold bind at 1, reads. unfold bind at 1.
  unfold bind at 1. rewrite (run_fault w Hf). unfold Store.FailRunningInstanceOnDeadNode.
  by rewrite (proj2 (String.eqb_neq _ _) Hid), (proj2 (String.eqb_neq _ _) Hn), Hr, Hs, String.eqb_refl.
Qed.

Lemma listed_orphans m threshold :
  Store.keyed m →
  ∃ l, Store.ListRunningInstancesOnDeadNodes m node_status threshold DeadNodeReconcilerTickLimit
       = Some l ∧
  NoDup (Store.ID <$> l) ∧
  (∀ x, x ∈ l → m !! Store.ID x = Some x ∧ orphaned threshold x) ∧
  length l = Nat.min 50 (length (filter (orphaned threshold) (map_to_list m).*2)) ∧
  (length (filter (orphaned threshold) (map_to_list m).*2) ≤ 50 →
     ∀ x, m !! Store.ID x = Some x → orphaned threshold x → x ∈ l)%nat.
Proof.
  intros Hk. eexists. split; [reflexivity|]. split_and!.
  - by apply nodup_take, nodup_sort, Store.rows_nodup.
  - intros x Hx%elem_of_take. destruct Hx as (i & Hx%list_elem_of_lookup_2 & _).
    apply elem_of_go_sort, Store.elem_of_rows in Hx; [|done]. by destruct Hx as [? ?].
  - by rewrite length_take, length_go_sort.
  - intros Hlen x Hx Hs. rewrite take_ge; [by apply elem_of_go_sort, Store.elem_of_rows|].
    rewrite length_go_sort. exact Hlen.
Qed.

(** ** Theorems *)

(** C39: a handoff is safe whatever fails around it.  [MigrateOne] returns under every pattern of
    failing calls, lost answers and committed writes whose answer is lost, and every interleaving of
    lifecycle operations and lease-expiry sweeps between its phases. It touches no other instance
    and creates no microVM, and every write to the instances table moves each row along at most one
    edge of the state machine, except the commit, which takes the MIGRATING row of the dying node to
    RUNNING on the new owner. On success that commit happened: the row carries its lineage, any
    reservation is the new owner's, the dying node's microVM is gone, and the new owner's vmmd knew
    the lease. On an error the row is on its node and the destination ledger holds no reservation it
    did not hold before; only when the commit's answer was lost the row is the new owner's although
    an error is returned, and then no reservation of it is left. *)
Theorem handoff_safe h e id from w :
  Ledger.inv (led w) → Store.keyed (rows w) → locked w = ∅ → mig_data_ok h →
  ∃ r w', MigrateOne h e id from w = Some (r, w') ∧ handoff_ends id from h e w r w'.
Proof.
  intros Hi Hk Hl Hok. apply wp_run. apply MigrateOne_ends; [done|]. by apply mkeeps_refl.
Qed.

(** a handoff between two nodes never commits. The new owner's vmmd validates the lease against
    its own tracker, which holds only leases it minted itself; so unless that tracker happened to
    hold the very token the dying vmmd mints, [MigrateOne] returns an error in every run, under
    every failure pattern and interleaving. *)
Theorem cross_node_handoff_never_commits h e id from w :
  Ledger.inv (led w) → Store.keyed (rows w) → locked w = ∅ → mig_data_ok h →
  newOwnerNodeID h ≠ from →
  (∀ m, tracker_of (newOwnerNodeID h) w !! id = Some m → leaseToken m ≠ token e) →
  ∃ err w', MigrateOne h e id from w = Some (Some err, w').
Proof.
  intros Hi Hk Hl Hok Hne Hno.
  destruct (wp_run _ _ _ (MigrateOne_ends id from h e w Hok w (mkeeps_refl _ id from (token e) w Hi Hk Hl)))
    as ([err|] & w' & Hrun & Hend); [eauto|].
  destruct (c_lease _ _ _ _ _ _ Hend) as [?|(m & Hm & Ht)]; [done|]. by destruct (Hno m Hm).
Qed.

(** what a drain does to a running instance when no call fails: the handoff between two nodes is
    refused at the latest at the adoption and the instance ends PARKED on its old node, its microVM
    destroyed, its lease dropped, the ledger and every other row as before. *)
Theorem cross_node_handoff_parks h tok id from ins w :
  Ledger.inv (led w) → mig_data_ok h → faults w = [] →
  id ≠ EmptyString → from ≠ EmptyString → tok ≠ EmptyString →
  rows w !! id = Some ins → Store.IState ins = StateRunning → Store.NodeID ins = from →
  (from, id) ∈ vms w → tracker_of from w !! id = None →
  newOwnerNodeID h ≠ from →
  (∀ m, tracker_of (newOwnerNodeID h) w !! id = Some m → leaseToken m ≠ tok) →
  ∃ r w', MigrateOne h (mkHandoff tok [] [] []) id from w = Some (r, w') ∧ refused r ∧
          parked_back id from tok ins w w'.
Proof.
  intros Hi Hok Hf Hid Hfr Htok Hr Hrun Hn Hvm Hfree Hne Hno.
  destruct (wp_run _ _ _ (MigrateOne_runs id from h tok ins w Hok Hid Hfr Htok Hr Hrun Hn Hfree Hne Hno Hf Hi Hvm))
    as (r & w' & ? & ? & ?). eauto.
Qed.

(** the migration watchdog heals what it lists. Without failures one pass resolves every listed
    row, at most the cap of them: RUNNING on its node again when that node is active, PARKED
    otherwise, with the lease cleared. Nothing else changes, and when no more rows are stuck than
    the cap, none is left. *)
Theorem reconcile_expired_heals w :
  Ledger.inv (led w) → Store.keyed (rows w) → rows w !! EmptyString = None → faults w = [] →
  let l := Store.ListExpiredMigrations (rows w) MigratingWatchdogTickLimit in
  ∃ w', ReconcileExpiredMigrations 0 w = Some (Some (length l), w') ∧
        batch (resolved (clock w)) false l w w' ∧
        (Z.of_nat (length (filter stuck (map_to_list (rows w)).*2)) ≤ MigratingWatchdogTickLimit →
           ∀ k ins, rows w' !! k = Some ins → ¬ stuck ins).
Proof.
  intros Hi Hk He Hf l. destruct (listed_stuck (rows w) MigratingWatchdogTickLimit Hk) as (Hnd & Hin & Hall).
  fold l in Hnd, Hin, Hall. unfold ReconcileExpiredMigrations. cbv zeta. cbn [Z.ltb Z.compare].
  rewrite (run_bind _ _ _ _ _ (run_fault w Hf)). unfold bind at 1, reads. fold l.
  assert (take (Z.to_nat MigratingWatchdogTickLimit) l = l) as ->.
  { apply take_ge. unfold l, Store.ListExpiredMigrations. destruct (_ <? _); [simpl; lia|].
    rewrite length_take. lia. }
  destruct (count_runs reconcile_row (resolved (clock w)) false l w 0) as (w' & Hrun & Hb); auto.
  { intros x Hx. by apply Hin. }
  { intros x w1 Hx Hf1 Hc1 Hr1. destruct (Hin x Hx) as [Hx' Hs]. apply run_reconcile_row; auto.
    intros E. rewrite E in Hx'. congruence. }
  exists w'. rewrite (run_bind _ _ _ _ _ Hrun). split_and!; [done|done|].
  intros Hle k ins Hrow Hst. destruct (decide (k ∈ Store.ID <$> l)) as [Hkl|Hkl].
  - apply list_elem_of_fmap in Hkl as (x & -> & Hx). rewrite (b_hit _ _ _ _ _ Hb x Hx) in Hrow.
    simplify_eq. by eapply resolved_not_stuck.
  - rewrite (b_miss _ _ _ _ _ Hb k Hkl) in Hrow. apply Hkl. rewrite <- (Hk k ins Hrow).
    apply list_elem_of_fmap. exists ins. split; [done|]. apply Hall; [done| |done].
    by rewrite (Hk k ins Hrow).
Qed.

(** the dead-node sweep. Without failures one pass fails exactly the RUNNING rows of dead nodes
    it lists, at most 50, oldest heartbeat first: each becomes FAILED with its end time and gives
    its reservation back. Nothing else changes, and when at most 50 rows are orphaned none is
    left. *)
Theorem dead_node_sweep_clears w :
  Ledger.inv (led w) → Store.keyed (rows w) → rows w !! EmptyString = None → faults w = [] →
  (∀ k ins, rows w !! k = Some ins → Store.NodeID ins ≠ EmptyString) →
  let dead := orphaned (time_add (clock w) (- (120 * Second))) in
  let orphans := filter dead (map_to_list (rows w)).*2 in
  ∃ l w', ReconcileDeadNodeInstances 0 w = Some (Some (length l), w') ∧
          length l = Nat.min 50 (length orphans) ∧ (∀ x, x ∈ l → x ∈ orphans) ∧
          batch (failed_row (clock w)) true l w w' ∧
          (length orphans ≤ 50 → ∀ k ins, rows w' !! k = Some ins → ¬ dead ins)%nat.
Proof.
  intros Hi Hk He Hf Hnode dead orphans. unfold ReconcileDeadNodeInstances.
  unfold bind at 1, reads at 1. rewrite (run_bind _ _ _ _ _ (run_fault w Hf)). unfold bind at 1, reads.
  change (time_add (clock w) (- (if 0 <? 0 then 0 *! Second else DeadNodeReconcilerStalenessSeconds *! Second)))
    with (time_add (clock w) (- (120 * Second))).
  destruct (listed_orphans (rows w) (time_add (clock w) (- (120 * Second))) Hk)
    as (l & -> & Hnd & Hin & Hlen & Hall).
  destruct (count_runs fail_row (failed_row (clock w)) true l w 0) as (w' & Hrun & Hb); auto.
  { intros x Hx. by apply Hin. }
  { intros x w1 Hx Hf1 Hc1 Hr1. destruct (Hin x Hx) as [Hx' [Hs _]]. apply run_fail_row; auto.
    - intros E. rewrite E in Hx'. congruence.
    - by eapply Hnode. }
  exists l, w'. rewrite (run_bind _ _ _ _ _ Hrun). split_and!; auto.
  { intros x Hx. destruct (Hin x Hx). by apply Store.elem_of_rows. }
  intros Hle k ins Hrow Hst. destruct (decide (k ∈ Store.ID <$> l)) as [Hkl|Hkl].
  - apply list_elem_of_fmap in Hkl as (x & -> & Hx). rewrite (b_hit _ _ _ _ _ Hb x Hx) in Hrow.
    simplify_eq. by destruct Hst.
  - rewrite (b_miss _ _ _ _ _ Hb k Hkl) in Hrow. apply Hkl. rewrite <- (Hk k ins Hrow).
    apply list_elem_of_fmap. exists ins. split; [done|]. apply Hall; [done| |done].
    by rewrite (Hk k ins Hrow).
Qed.

(** What survives a whole drain. *)
Record drained (w0 w : world) : Prop := {
  d_inv : Ledger.inv (led w);
  d_keyed : Store.keyed (rows w);
  d_locked : locked w = ∅;
  d_vms : vms w ⊆ vms w0;
}.

Lemma handoff_drained h e id from w0 w :
  mig_data_ok h → drained w0 w → wp (MigrateOne h e id from) (λ _ w', drained w0 w') w.
Proof.
  intros Hok [Hi Hk Hl Hv]. eapply wp_mono; [apply (MigrateOne_ends id from h e w Hok); by apply mkeeps_refl|].
  assert (∀ A V w', Wake.wkeeps A id ∅ w w' → vms w' ⊆ V → V ⊆ vms w → drained w0 w') as Hd.
  { intros A V w' [Hl' Hi' _ _ Hk' _] Hv1 Hv2. constructor; auto. set_solver. }
  intros r w' Hend.
  assert (mkeeps no_extra id from (token e) (Ledger.view (led w) !! id) (vms w) w w' ∨
          lost_commit id from h e w w' ∨ committed id from h e w w') as [[]|[[[]]|[]]]
    by (unfold handoff_ends in Hend; destruct r as [[]|]; tauto).
  all: eapply Hd; eauto; set_solver.
Qed.

Lemma migrate_all_drained h from es l n w0 w :
  mig_data_ok h → drained w0 w →
  wp (migrate_all h from es l n) (λ k w', k = (n + length l)%nat ∧ drained w0 w') w.
Proof.
  intros Hok. revert n w. induction l as [|x l IH]; intros n w Hd; simpl.
  { apply wp_ret. by rewrite Nat.add_0_r. }
  apply wp_bind. eapply wp_mono; [by apply handoff_drained|]. intros ? w' Hd'.
  rewrite <- Nat.add_succ_comm. by apply IH.
Qed.

(** Sizes of the tables a drain reads. *)
Record drain_data_ok : Prop := {
  dd_ram a app : AppByID a = Some app → 0 ≤ aRAMMB app < 2 ^ 31;
  dd_plan a p : PlanOf a = Some p → is_Some (LimitsFor p);
  dd_node n row : Wake.ComputeNodeRow n = Some row →
    Placement.AdmissionCeilingMB row ≤ Ledger.ram_max ∧ Placement.VCPUBudget row ≤ Ledger.ram_max;
}.

Lemma harness_ok owner w0 w :
  drain_data_ok → drained w0 w →
  wp (NewMigrationHarness owner) (λ h w', mig_data_ok h ∧ drained w0 w') w.
Proof.
  intros [Hram Hplan Hnode] Hd.
  assert (∀ c b, c ≤ Ledger.ram_max → b ≤ Ledger.ram_max → mig_data_ok (mkHarness owner c b)) as Hok
    by (intros; by constructor).
  assert (0 ≤ Ledger.ram_max) as H0 by (unfold Ledger.ram_max; lia).
  unfold NewMigrationHarness. destruct (String.eqb _ _); [apply wp_ret; split; [by apply Hok|done]|].
  apply wp_bind, wp_readTable. intros n l Hn. apply wp_ret. split; [|by destruct Hd; constructor].
  destruct n as [n|]; [|by apply Hok]. destruct Hn as [?|Hn]; [done|].
  destruct (Hnode owner n (eq_sym Hn)). by apply Hok.
Qed.

(** draining a node always returns, under every failure pattern and interleaving: it attempts at
    most the per-tick cap of instances, each exactly once, creates no microVM, and leaves the
    ledger consistent and every app lock free; without an owner node, or asked to drain no node or
    itself, it attempts nothing. *)
Theorem drain_bounded es deadNodeID w :
  Ledger.inv (led w) → Store.keyed (rows w) → locked w = ∅ → drain_data_ok →
  ∃ r w', MigrateLiveInstances 0 es deadNodeID w = Some (r, w') ∧ drained w w' ∧
    ∀ n, r = Some n →
      (n ≤ 10)%nat ∧
      (Wake.fleetOwner = EmptyString ∨ deadNodeID = EmptyString ∨ deadNodeID = Wake.fleetOwner →
         n = 0%nat).
Proof.
  intros Hi Hk Hl Hok. apply wp_run.
  assert (drained w w) as Hd by (by constructor). unfold MigrateLiveInstances.
  destruct (String.eqb Wake.fleetOwner EmptyString) eqn:E1.
  { apply wp_ret. split; [done|]. intros n [= <-]. split; [lia|done]. }
  destruct (String.eqb deadNodeID EmptyString || _) eqn:E2.
  { apply wp_ret. split; [done|]. intros n [= <-]. split; [lia|done]. }
  apply orb_false_iff in E2 as [E2 E3]. apply String.eqb_neq in E1, E2, E3.
  apply wp_bind, wp_fault. intros f l. assert (drained w (set_faults l w)) as Hd1 by (by destruct Hd; constructor).
  destruct f; [by apply wp_ret|]. apply wp_bind, wp_reads. set (li := Store.ListLiveInstancesOnNode _ _ _).
  case_bool_decide. { apply wp_ret. split; [done|]. intros n [= <-]. split; [lia|done]. }
  apply wp_bind. eapply wp_mono; [by apply harness_ok|]. intros h w1 [Hh Hd2]. apply wp_bind.
  eapply wp_mono; [by apply migrate_all_drained|]. intros n w2 [-> Hd3]. apply wp_ret. split; [done|].
  intros n [= <-]. split; [|by intros [?|[?|?]]]. rewrite length_take.
  etrans; [apply Nat.le_min_l|]. vm_compute. lia.
Qed.
End reconcilers.

(** ** Two failure cases, and witnesses: an instance on node n1 drained towards node n2 *)

Definition sample_env : Wake.WakeEnv := {|
  Wake.newID := λ _, "i9"%string;
  Wake.newWakeID := λ _, "w9"%string;
  Wake.fcVer := "1.7";
  Wake.LiveDeployment := λ _ _, Some (Wake.sample_dep ∅);
  Wake.DeploymentByID := λ _, Some (Wake.sample_dep ∅);
  Wake.AllowWakeApp := λ _ _, true;
  Wake.AllowWakeAccount := λ _ _, true;
  Wake.overage := None;
  Wake.LastWarmNode := λ _, EmptyString;
  Wake.preferredRegion := λ _ _, EmptyString;
  Wake.ListAppSecretsInScope := λ _ _ _, Some [];
  Wake.ListAppEnvInScope := λ _ _ _, None;
  Wake.verifier := false;
  Wake.runtimeOf := λ _, ("ns"%string, "10.0.0.2"%string, 1000);
  Wake.observedClass := λ _, "http"%string;
  Wake.fleetOwner := "n2";
  Wake.capacityTable := Capacity.newNodeCapacityTable;
  Wake.AppNodeID := λ _, None;
  Wake.ActiveComputeNodes := Some [Placement.sample_node "n1" 4096; Placement.sample_node "n2" 4096];
  Wake.ComputeNodeUsedMB := λ _, Some 0;
  Wake.ComputeNodeRow := λ n, if String.eqb n "n3" then None else Some (Placement.sample_node n 4096);
  Wake.before_boot := [];
  Wake.after_boot := [];
|}.

Definition sample_menv : MigEnv := {|
  LiveDeploymentOf := λ _, Some (Wake.sample_dep ∅);
  LastHeartbeatAt := λ _, 0;
|}.

#[local] Existing Instance Lifecycle.sample_config.
#[local] Existing Instance sample_env.
#[local] Existing Instance sample_menv.

Definition sample_row (s : State) (tok : string) : Store.Instance :=
  Store.set_lease tok (Store.sample_row "i1" s "n1").

Definition sample_world (s : State) (fs : list bool) : world :=
  mkWorld {["i1"%string := sample_row s EmptyString]} Ledger.NewNodeLedger ∅ {[("n1"%string, "i1"%string)]}
    [] [] [] ∅ [] [] [] [] ∅ [] fs (200 * Second).

Definition sample_handoff : handoff :=
  mkHandoff "t1" [EvLifecycle (OpEvict "i1")] [EvLeaseSweep "n1" 0] [EvLifecycle (OpPark [] "i1")].

Definition to_n2 : MigrationHarness := mkHarness "n2" 4096 8.

(** a failed snapshot in Phase 1 is not harmless: the dying vmmd has destroyed the microVM by
    then, the handoff reports a prepare error, and the row stays RUNNING on its node. *)
Theorem prepare_failure_strands :
  ∃ w', MigrateOne to_n2 (mkHandoff "t1" [] [] []) "i1" "n1" (sample_world StateRunning [false; true])
        = Some (Some ErrPrepare, w') ∧
        rows w' = rows (sample_world StateRunning []) ∧ vms w' = ∅.
Proof. eexists. split; [vm_compute; reflexivity|]. split; vm_compute; reflexivity. Qed.

(** a row the watchdog re-invites has no microVM. When the rollback write of a refused handoff
    fails the row stays MIGRATING, and the next pass of the migration watchdog, finding its node
    active, makes it RUNNING again although Phase 1 destroyed its microVM. *)
Theorem reinvited_row_has_no_vm :
  ∃ w1 w2 ins,
    MigrateOne to_n2 (mkHandoff "t1" [] [] []) "i1" "n1"
      (sample_world StateRunning (repeat false 12 ++ [true])) = Some (Some ErrAdopt, w1) ∧
    ReconcileExpiredMigrations 0 w1 = Some (Some 1%nat, w2) ∧
    rows w2 !! "i1"%string = Some ins ∧ Store.IState ins = StateRunning ∧
    Store.NodeID ins = "n1"%string ∧ vms w2 = ∅.
Proof.
  do 3 eexists. split; [vm_compute; reflexivity|]. split; [vm_compute; reflexivity|].
  split; [vm_compute; reflexivity|]. by repeat split; vm_compute.
Qed.

Lemma sample_drain_ok : drain_data_ok.
Proof.
  constructor; [by intros a app [= <-]|by intros a p [= <-]; vm_compute; eauto|].
  intros n row. simpl. destruct (String.eqb n "n3"); [done|]. by intros [= <-].
Qed.

Lemma sample_mig_ok n : mig_data_ok (mkHarness n 4096 8).
Proof. destruct sample_drain_ok as [H1 H2 _]. by constructor; [exact H1|exact H2|..]. Qed.

Lemma sample_row_keyed s tok : Store.keyed {["i1"%string := sample_row s tok]}.
Proof. by intros id ins [<- <-]%lookup_singleton_Some. Qed.

(** A handoff that fails at the Phase 2 write, and one onto the vmmd that minted the lease, which
    commits. *)
Lemma handoff_safe_witness :
  let w := sample_world StateRunning [false; false; true] in
  let w2 := sample_world StateRunning [] in
  let home := mkHarness "n1" 4096 8 in
  (∃ r w', MigrateOne to_n2 sample_handoff "i1" "n1" w = Some (r, w') ∧
           handoff_ends "i1" "n1" to_n2 sample_handoff w r w') ∧
  (∃ w', MigrateOne home (mkHandoff "t1" [] [] []) "i1" "n1" w2 = Some (None, w') ∧
         committed "i1" "n1" home (mkHandoff "t1" [] [] []) w2 w').
Proof.
  intros w w2 home. split.
  - apply (handoff_safe to_n2 sample_handoff "i1" "n1" w);
      [apply Ledger.NewNodeLedger_ok|apply sample_row_keyed|reflexivity|apply sample_mig_ok].
  - destruct (handoff_safe home (mkHandoff "t1" [] [] []) "i1" "n1" w2) as (r & w' & E & H);
      [apply Ledger.NewNodeLedger_ok|apply sample_row_keyed|reflexivity|apply sample_mig_ok|].
    assert (r = None) as ->.
    { assert (fst <$> MigrateOne home (mkHandoff "t1" [] [] []) "i1" "n1" w2 = Some None) as E'
        by (vm_compute; reflexivity). rewrite E in E'. by injection E'. }
    exists w'. exact (conj E H).
Defined.

Lemma cross_node_handoff_never_commits_witness :
  ∃ err w', MigrateOne to_n2 sample_handoff "i1" "n1" (sample_world StateRunning []) = Some (Some err, w').
Proof.
  apply (cross_node_handoff_never_commits to_n2 sample_handoff "i1" "n1" (sample_world StateRunning []));
    [apply Ledger.NewNodeLedger_ok|apply sample_row_keyed|reflexivity|apply sample_mig_ok|done|].
  intros m. unfold tracker_of. simpl. by rewrite lookup_empty.
Defined.

Lemma cross_node_handoff_parks_witness :
  ∃ r w', MigrateOne to_n2 (mkHandoff "t1" [] [] []) "i1" "n1" (sample_world StateRunning [])
          = Some (r, w') ∧ refused r ∧
          parked_back "i1" "n1" "t1" (sample_row StateRunning EmptyString)
            (sample_world StateRunning []) w'.
Proof.
  apply (cross_node_handoff_parks to_n2 "t1" "i1" "n1" (sample_row StateRunning EmptyString)
           (sample_world StateRunning [])); try done;
    apply sample_mig_ok.
Defined.

Definition stuck_world : world :=
  set_rows {["i1"%string := sample_row StateMigrating "t1"]} (sample_world StateRunning []).

Lemma reconcile_expired_heals_witness :
  let l := Store.ListExpiredMigrations (rows stuck_world) MigratingWatchdogTickLimit in
  length l = 1%nat ∧
  ∃ w', ReconcileExpiredMigrations 0 stuck_world = Some (Some (length l), w') ∧
        batch (resolved (clock stuck_world)) false l stuck_world w'.
Proof.
  intros l. split; [vm_compute; reflexivity|].
  destruct (reconcile_expired_heals stuck_world) as (w' & E & Hb & _);
    [apply Ledger.NewNodeLedger_ok|apply sample_row_keyed|reflexivity|reflexivity|].
  exists w'. exact (conj E Hb).
Defined.

(** Node n1 has not answered for 200 seconds. *)
Lemma dead_node_sweep_clears_witness :
  ∃ l w', ReconcileDeadNodeInstances 0 (sample_world StateRunning []) = Some (Some (length l), w') ∧
          batch (failed_row (200 * Second)) true l (sample_world StateRunning []) w' ∧
          length l = 1%nat.
Proof.
  destruct (dead_node_sweep_clears (sample_world StateRunning [])) as (l & w' & E & Hlen & _ & Hb & _);
    [apply Ledger.NewNodeLedger_ok|apply sample_row_keyed|reflexivity|reflexivity| |].
  { intros k ins. simpl. by intros [<- <-]%lookup_singleton_Some. }
  exists l, w'. refine (conj E (conj Hb _)). rewrite Hlen. vm_compute. reflexivity.
Defined.

Lemma drain_bounded_witness :
  ∃ r w', MigrateLiveInstances 0 (λ _, sample_handoff) "n1" (sample_world StateRunning [])
          = Some (r, w') ∧ drained (sample_world StateRunning []) w'.
Proof.
  destruct (drain_bounded (λ _, sample_handoff) "n1" (sample_world StateRunning []))
    as (r & w' & E & Hd & _);
    [apply Ledger.NewNodeLedger_ok|apply sample_row_keyed|reflexivity|apply sample_drain_ok|].
  exists r, w'. exact (conj E Hd).
Defined.
End Migration.
