(* ===== verification/Windows.v ===== *)
(** * pkg/sched: the sliding windows of the autoscaler

    Models src/pkg/sched/scaleup/ringbuf.go (module [Ring]: the scale-up
    trigger's request window), src/pkg/sched/recentload/recentload.go (module
    [RecentLoad]: the reaper's mirror of the same signal, whose per-app fold is
    the same code) and src/pkg/sched/targets/ringbuf.go (module [Inflight]: the
    in-flight gauge window).

    The theorems compare each window with the complete log of its samples:
    merging samples of a bucket and evicting old buckets never changes what is
    read, and the stored buckets stay bounded.  Counters and their differences
    are non-negative int64 values of one process, so they are [Z] here. *)

From S2P Require Import Prelude.

Module Ring.

Record bucket := mkBucket { bidx : Z; count : Z }.

Record appBuffer := mkBuffer { buckets : list bucket; lastSeen : Z }.

Record RingBuffer := mkRing {
  windowSize : Z;
  bucketSize : Duration;
  byApp : gmap string appBuffer;
}.

Definition NewRingBuffer (ws : Z) (bs : Duration) : RingBuffer :=
  mkRing (if ws <=? 0 then 1 else ws) (if bs <=? 0 then Second else bs) ∅.

(** [now.UnixNano() / int64(bucketSize)], Go's truncated division. *)
Definition bucket_of (bs : Duration) (now : Time) : Z := Z.quot now bs.

(** Append to the current bucket or roll forward. *)
Definition add_sample (cur delta : Z) (l : list bucket) : list bucket :=
  match last l with
  | Some b => if bidx b =? cur
              then removelast l ++ [mkBucket (bidx b) (count b + delta)]
              else l ++ [mkBucket cur delta]
  | None => l ++ [mkBucket cur delta]
  end.

(** The eviction loop: drop buckets from the front while they are older than [cutoff]. *)
Fixpoint evict (cutoff : Z) (l : list bucket) : list bucket :=
  match l with
  | b :: l' => if bidx b <? cutoff then evict cutoff l' else l
  | [] => []
  end.

(** One iteration of the loop over the scraped counters. *)
Definition touch_app (ws cur cumulative : Z) (buf : option appBuffer) : appBuffer :=
  match buf with
  | None => mkBuffer [mkBucket cur 0] cumulative
  | Some buf =>
      if cumulative <? lastSeen buf then mkBuffer [mkBucket cur 0] cumulative
      else mkBuffer (evict (cur - ws + 1) (add_sample cur (cumulative - lastSeen buf) (buckets buf)))
             cumulative
  end.

Definition touch_all (ws cur : Z) (counts : gmap string Z) (m : gmap string appBuffer)
  : gmap string appBuffer :=
  map_fold (λ app c m, <[app := touch_app ws cur c (m !! app)]> m) m counts.

Definition Touch (r : RingBuffer) (now : Time) (counts : gmap string Z) : RingBuffer :=
  mkRing (windowSize r) (bucketSize r)
    (touch_all (windowSize r) (bucket_of (bucketSize r) now) counts (byApp r)).

(** The sum of the buckets inside the window. *)
Definition window_sum (cutoff : Z) (l : list bucket) : Z :=
  foldl (λ sum b, if cutoff <=? bidx b then sum + count b else sum) 0 l.

Definition buffer_sum (ws cur : Z) (buf : option appBuffer) : Z :=
  match buf with
  | None => 0
  | Some buf => window_sum (cur - ws + 1) (buckets buf)
  end.

Definition AppRPS (r : RingBuffer) (app : string) (now : Time) : Z :=
  buffer_sum (windowSize r) (bucket_of (bucketSize r) now) (byApp r !! app).
End Ring.

Module RecentLoad.

(** [scraper] is only tested for nil here; a scrape is an argument of [Touch]. *)
Record t := mkLoad { hasScraper : bool; ring : Ring.RingBuffer }.

Definition New (scraper : bool) (ws : Z) (bs : Duration) : t :=
  mkLoad scraper (Ring.mkRing (if ws <=? 0 then 1 else ws) (if bs <=? 0 then Second else bs) ∅).

(** [scrape] is the scraper's result, [None] its error. *)
Definition Touch (r : t) (now : Time) (scrape : option (gmap string Z)) : t :=
  if negb (hasScraper r) then r
  else match scrape with
       | None => r
       | Some counts => mkLoad (hasScraper r) (Ring.Touch (ring r) now counts)
       end.

Definition RecentRPS (r : t) (app : string) (now : Time) : Z := Ring.AppRPS (ring r) app now.

(** [int(math.Ceil(rps / float64(targetRPS)))]: exact for sums below 2^52, where the quotient of
    two integers is never rounded across an integer. *)
Definition RecentDesiredReplicas (r : t) (app : string) (now : Time) (targetRPS : Z) : Z :=
  if targetRPS <=? 0 then 0
  else let rps := RecentRPS r app now in
       if rps <=? 0 then 0 else (rps + targetRPS - 1) / targetRPS.
End RecentLoad.

Module Inflight.

Record bucket := mkBucket { bidx : Z; bmax : Z }.

Record RingBuffer := mkRing {
  windowSize : Z;
  bucketSize : Duration;
  byApp : gmap string (list bucket);
}.

Definition NewRingBuffer (ws : Z) (bs : Duration) : RingBuffer :=
  mkRing (if ws <=? 0 then 1 else ws) (if bs <=? 0 then Second else bs) ∅.

Fixpoint evict (cutoff : Z) (l : list bucket) : list bucket :=
  match l with
  | b :: l' => if bidx b <? cutoff then evict cutoff l' else l
  | [] => []
  end.

(** The update of one app's buckets; the same-bucket path returns before the eviction. *)
Definition observe_app (ws cur inflight : Z) (buf : option (list bucket)) : list bucket :=
  match buf with
  | None => [mkBucket cur inflight]
  | Some l =>
      match last l with
      | Some b =>
          if bidx b =? cur
          then removelast l ++ [mkBucket (bidx b) (if bmax b <? inflight then inflight else bmax b)]
          else evict (cur - ws + 1) (l ++ [mkBucket cur inflight])
      | None => evict (cur - ws + 1) (l ++ [mkBucket cur inflight])
      end
  end.

Definition Observe (r : RingBuffer) (now : Time) (app : string) (inflight : Z) : RingBuffer :=
  mkRing (windowSize r) (bucketSize r)
    (<[app := observe_app (windowSize r) (Ring.bucket_of (bucketSize r) now) inflight
                (byApp r !! app)]> (byApp r)).

(** The running maximum of the loop: [None] is [!found]. *)
Definition window_max (cutoff : Z) (l : list bucket) : option Z :=
  foldl (λ acc b,
           if cutoff <=? bidx b
           then match acc with
                | None => Some (bmax b)
                | Some m => Some (if m <? bmax b then bmax b else m)
                end
           else acc) None l.

Definition AppMaxInflight (r : RingBuffer) (app : string) (now : Time) : option Z :=
  match byApp r !! app with
  | None => None
  | Some l => window_max (Ring.bucket_of (bucketSize r) now - windowSize r + 1) l
  end.
End Inflight.

(** ** The complete log of an app's samples *)

Module WindowSpec.

(** What an app's scrapes say, without merging or eviction: the last counter and, since the last
    reset, the increments with the bucket each was seen in. *)
Definition log_step (bs : Duration) (app : string) (st : option (Z * list (Z * Z)))
    (s : Time * gmap string Z) : option (Z * list (Z * Z)) :=
  match s.2 !! app with
  | None => st
  | Some c =>
      match st with
      | None => Some (c, [])
      | Some (p, l) => if c <? p then Some (c, []) else Some (c, l ++ [(Ring.bucket_of bs s.1, c - p)])
      end
  end.

Definition app_log (bs : Duration) (app : string) (scrapes : list (Time * gmap string Z))
  : list (Z * Z) := default [] (snd <$> foldl (log_step bs app) None scrapes).

(** The requests logged in buckets from [cutoff] on. *)
Fixpoint requests_since (cutoff : Z) (l : list (Z * Z)) : Z :=
  match l with
  | [] => 0
  | (b, n) :: l => (if cutoff <=? b then n else 0) + requests_since cutoff l
  end.

Definition run_scrapes (r : Ring.RingBuffer) (scrapes : list (Time * gmap string Z))
  : Ring.RingBuffer := foldl (λ r s, Ring.Touch r s.1 s.2) r scrapes.

(** Bucket lists with strictly increasing indices inside [lo, hi]. *)
Fixpoint increasing (lo hi : Z) (l : list Z) : Prop :=
  match l with
  | [] => True
  | b :: l => lo ≤ b ≤ hi ∧ increasing (b + 1) hi l
  end.

Definition well_spaced (ws : Z) (buf : Ring.appBuffer) : Prop :=
  ∃ hi, increasing (hi - ws + 1) hi (Ring.bidx <$> Ring.buckets buf).

(** In-flight samples of one app: bucket and value. *)
Definition max_since (cutoff : Z) (l : list (Z * Z)) : option Z :=
  foldr (λ s acc, if cutoff <=? s.1
                  then Some (match acc with None => s.2 | Some m => Z.max s.2 m end) else acc) None l.

Definition run_samples (r : Inflight.RingBuffer) (samples : list (Time * string * Z))
  : Inflight.RingBuffer := foldl (λ r s, Inflight.Observe r s.1.1 s.1.2 s.2) r samples.

Definition sample_log (bs : Duration) (app : string) (samples : list (Time * string * Z))
  : list (Z * Z) :=
  (λ s, (Ring.bucket_of bs s.1.1, s.2)) <$> filter (λ s, s.1.2 = app) samples.

(** ** Lemmas *)

Lemma bucket_of_mono bs t u : 0 < bs → t ≤ u → Ring.bucket_of bs t ≤ Ring.bucket_of bs u.
Proof. intros. by apply Z.quot_le_mono. Qed.

Lemma requests_since_app c l1 l2 :
  requests_since c (l1 ++ l2) = requests_since c l1 + requests_since c l2.
Proof. induction l1 as [|[b n] l1 IH]; simpl; [done|]. rewrite IH. lia. Qed.

Lemma window_sum_log c l :
  Ring.window_sum c l = requests_since c ((λ b, (Ring.bidx b, Ring.count b)) <$> l).
Proof.
  unfold Ring.window_sum. assert (∀ s, foldl (λ sum b, if c <=? Ring.bidx b then sum + Ring.count b else sum) s l
    = s + requests_since c ((λ b, (Ring.bidx b, Ring.count b)) <$> l)) as H.
  { induction l as [|b l IH]; intros s; csimpl; [lia|]. rewrite IH. case_match; lia. }
  rewrite H. lia.
Qed.

Lemma last_split {A} (l : list A) b : last l = Some b → l = removelast l ++ [b].
Proof.
  intros H. apply last_Some in H as [l' ->]. by rewrite removelast_last.
Qed.

Lemma window_sum_add c cur d l :
  Ring.window_sum c (Ring.add_sample cur d l)
  = Ring.window_sum c l + (if c <=? cur then d else 0).
Proof.
  rewrite !window_sum_log. unfold Ring.add_sample. destruct (last l) as [b|] eqn:El.
  - destruct (Z.eqb_spec (Ring.bidx b) cur) as [<-|].
    + rewrite (last_split _ _ El) at 2. rewrite !fmap_app, !requests_since_app. csimpl. case_match; lia.
    + rewrite fmap_app, requests_since_app. csimpl. lia.
  - rewrite fmap_app, requests_since_app. csimpl. lia.
Qed.

Lemma window_sum_evict c c' l : c' ≤ c → Ring.window_sum c (Ring.evict c' l) = Ring.window_sum c l.
Proof.
  intros Hc. rewrite !window_sum_log. induction l as [|b l IH]; [done|]. csimpl.
  destruct (Z.ltb_spec (Ring.bidx b) c'); [|done]. rewrite IH, (proj2 (Z.leb_gt _ _)); lia.
Qed.

Lemma touch_all_lookup ws cur counts m app :
  Ring.touch_all ws cur counts m !! app
  = match counts !! app with
    | None => m !! app
    | Some c => Some (Ring.touch_app ws cur c (m !! app))
    end.
Proof.
  unfold Ring.touch_all. revert app.
  apply (map_fold_weak_ind (λ r counts, ∀ app, r !! app = match counts !! app with
    | None => m !! app | Some c => Some (Ring.touch_app ws cur c (m !! app)) end)); [done|].
  intros k c counts' r Hk IH app. destruct (decide (k = app)) as [<-|Hne].
  - rewrite !lookup_insert_eq, IH, Hk. done.
  - rewrite !lookup_insert_ne by done. apply IH.
Qed.

Lemma run_scrapes_snoc r l s :
  run_scrapes r (l ++ [s]) = Ring.Touch (run_scrapes r l) s.1 s.2.
Proof. unfold run_scrapes. by rewrite foldl_app. Qed.

Lemma run_scrapes_size r l :
  Ring.windowSize (run_scrapes r l) = Ring.windowSize r ∧
  Ring.bucketSize (run_scrapes r l) = Ring.bucketSize r.
Proof. induction l as [|s l IH] using rev_ind; [done|]. by rewrite run_scrapes_snoc. Qed.

Lemma buckets_before {A} bs now (l : list (Time * A)) :
  0 < bs → Forall (λ s, s.1 ≤ now) l → Forall (λ s, Ring.bucket_of bs s.1 ≤ Ring.bucket_of bs now) l.
Proof. intros Hbs Hf. eapply Forall_impl; [exact Hf|]. intros s Hs. by apply bucket_of_mono. Qed.

(** The buffer of an app agrees with its log on every window that ends at or after [hi]. *)
Definition agrees (ws hi : Z) (st : option (Z * list (Z * Z))) (buf : option Ring.appBuffer) : Prop :=
  match st, buf with
  | None, None => True
  | Some (p, l), Some b =>
      Ring.lastSeen b = p ∧
      ∀ c, hi - ws + 1 ≤ c → Ring.window_sum c (Ring.buckets b) = requests_since c l
  | _, _ => False
  end.

Lemma agrees_touch ws bs hi app s st buf c :
  agrees ws hi st buf → s.2 !! app = Some c → Ring.bucket_of bs s.1 ≤ hi →
  agrees ws hi (log_step bs app st s) (Some (Ring.touch_app ws (Ring.bucket_of bs s.1) c buf)).
Proof.
  intros Ha Hc Hb. unfold log_step. rewrite Hc. set (cur := Ring.bucket_of bs s.1) in *.
  assert (∀ x, Ring.window_sum x [Ring.mkBucket cur 0] = 0) as Hz
    by (intros x; unfold Ring.window_sum; simpl; by case_match).
  destruct st as [[p l]|], buf as [b|]; try done.
  destruct Ha as [Hp Hw]. unfold Ring.touch_app. rewrite Hp.
  destruct (Z.ltb_spec c p); [by split; [|intros; rewrite Hz]|]. split; [done|]. intros x Hx.
  cbn [Ring.buckets]. rewrite window_sum_evict, window_sum_add, Hw, requests_since_app by lia.
  simpl. case_match; lia.
Qed.

Lemma run_scrapes_agrees r hi app scrapes :
  Ring.byApp r = ∅ →
  Forall (λ s, Ring.bucket_of (Ring.bucketSize r) s.1 ≤ hi) scrapes →
  agrees (Ring.windowSize r) hi (foldl (log_step (Ring.bucketSize r) app) None scrapes)
    (Ring.byApp (run_scrapes r scrapes) !! app).
Proof.
  intros He. induction scrapes as [|s l IH] using rev_ind; intros Hf.
  - simpl. by rewrite He, lookup_empty.
  - apply Forall_app in Hf as [Hl [Hs _]%Forall_cons]. specialize (IH Hl).
    rewrite foldl_app, run_scrapes_snoc. simpl. destruct (run_scrapes_size r l) as [-> ->].
    rewrite touch_all_lookup. destruct (s.2 !! app) as [c|] eqn:Ec.
    + by apply agrees_touch.
    + unfold log_step. by rewrite Ec.
Qed.

(** the request window reads exactly what the complete scrape log says. Whatever the scrapes (any
    apps, counter resets and gaps included), as long as none is later than the read, the merged and
    evicted buckets sum to the requests whose increments were logged in the last [windowSize]
    buckets. *)
Theorem request_window_exact ws bs (scrapes : list (Time * gmap string Z)) app now :
  let r := Ring.NewRingBuffer ws bs in
  Forall (λ s, s.1 ≤ now) scrapes →
  Ring.AppRPS (run_scrapes r scrapes) app now
  = requests_since (Ring.bucket_of (Ring.bucketSize r) now - Ring.windowSize r + 1)
      (app_log (Ring.bucketSize r) app scrapes).
Proof.
  intros r Hf. assert (0 < Ring.bucketSize r) as Hbs by (simpl; unfold Second; case_match; lia).
  set (hi := Ring.bucket_of (Ring.bucketSize r) now).
  pose proof (run_scrapes_agrees r hi app scrapes eq_refl (buckets_before _ _ _ Hbs Hf)) as Ha.
  unfold Ring.AppRPS, app_log. destruct (run_scrapes_size r scrapes) as [-> ->].
  destruct (foldl (log_step _ _) None scrapes) as [[p l]|],
    (Ring.byApp (run_scrapes r scrapes) !! app) as [b|]; try done.
  destruct Ha as [_ Hw]. apply Hw. unfold hi. lia.
Qed.

(** ** Bounded memory *)

Lemma increasing_weaken lo lo' hi hi' l :
  increasing lo hi l → lo' ≤ lo → hi ≤ hi' → increasing lo' hi' l.
Proof.
  revert lo lo'. induction l as [|b l IH]; intros lo lo'; [done|]. intros [Hb Hi] ? ?.
  split; [lia|]. eapply IH; [exact Hi|lia|done].
Qed.

Lemma increasing_length lo hi l : increasing lo hi l → Z.of_nat (length l) ≤ Z.max 0 (hi - lo + 1).
Proof.
  revert lo. induction l as [|b l IH]; intros lo; [simpl; lia|]. intros [Hb Hi].
  specialize (IH _ Hi). rewrite length_cons. lia.
Qed.

Lemma increasing_snoc lo hi b l : increasing lo hi l → hi < b → lo ≤ b → increasing lo b (l ++ [b]).
Proof.
  revert lo. induction l as [|x l IH]; intros lo; simpl; [lia|]. intros [Hx Hi] ? ?.
  split; [lia|]. apply IH; [done|done|lia].
Qed.

Lemma increasing_last lo hi l b : increasing lo hi (l ++ [b]) → increasing lo b (l ++ [b]).
Proof.
  revert lo. induction l as [|x l IH]; intros lo; simpl; [lia|]. intros [Hx Hi]. split; [|by apply IH].
  destruct l as [|y l]; simpl in Hi; [lia|].
  assert (∀ lo l, increasing lo hi (l ++ [b]) → lo ≤ b) as Hle.
  { clear. intros lo l. revert lo. induction l as [|z l IH]; intros lo; simpl; [lia|].
    intros [? ?%IH]. lia. }
  destruct Hi as [? ?%Hle]. lia.
Qed.

Lemma evict_increasing c lo hi l :
  increasing lo hi (Ring.bidx <$> l) → increasing c hi (Ring.bidx <$> Ring.evict c l).
Proof.
  revert lo. induction l as [|b l IH]; intros lo; [done|]. csimpl. intros [Hb Hi].
  destruct (Z.ltb_spec (Ring.bidx b) c); [by eapply IH|]. csimpl. split; [lia|done].
Qed.

Lemma add_sample_increasing cur d lo hi l :
  increasing lo hi (Ring.bidx <$> l) → hi ≤ cur → lo ≤ cur →
  increasing lo cur (Ring.bidx <$> Ring.add_sample cur d l).
Proof.
  intros Hi Hh Hl. unfold Ring.add_sample. destruct (last l) as [b|] eqn:El.
  - pose proof (last_split _ _ El) as Es. rewrite Es in Hi. rewrite fmap_app in Hi. csimpl in Hi.
    pose proof (increasing_last _ _ _ _ Hi) as Hi'. destruct (Z.eqb_spec (Ring.bidx b) cur) as [<-|Hne].
    + by rewrite fmap_app.
    + rewrite fmap_app. rewrite Es at 1. rewrite fmap_app. csimpl. eapply increasing_snoc; [exact Hi'| |lia].
      assert (Ring.bidx b ≤ hi); [|lia]. clear -Hi. revert lo Hi.
      induction (Ring.bidx <$> removelast l) as [|x m IH]; intros lo; simpl; [lia|]. intros [_ ?]. eauto.
  - apply last_None in El as ->. simpl. lia.
Qed.

(** a window never stores more than [windowSize] buckets per app, however long it runs and however
    irregular the scrapes are, as long as time does not go backwards. *)
Theorem request_window_bounded ws bs (scrapes : list (Time * gmap string Z)) app buf :
  let r := Ring.NewRingBuffer ws bs in
  StronglySorted (λ a b, a.1 ≤ b.1) scrapes →
  Ring.byApp (run_scrapes r scrapes) !! app = Some buf →
  Z.of_nat (length (Ring.buckets buf)) ≤ Ring.windowSize r.
Proof.
  intros r Hs. assert (0 < Ring.bucketSize r) as Hbs by (simpl; unfold Second; case_match; lia).
  assert (0 < Ring.windowSize r) as Hws by (simpl; case_match; lia).
  assert (Ring.byApp r = ∅) as He by done. clearbody r.
  assert (∀ now, Forall (λ s, s.1 ≤ now) scrapes → ∀ buf,
            Ring.byApp (run_scrapes r scrapes) !! app = Some buf →
            ∃ hi, hi ≤ Ring.bucket_of (Ring.bucketSize r) now ∧
                  increasing (hi - Ring.windowSize r + 1) hi (Ring.bidx <$> Ring.buckets buf)) as Hinv.
  { clear buf. induction scrapes as [|s l IH] using rev_ind; intros now Hf buf;
      [simpl; by rewrite He|].
    apply StronglySorted_app in Hs as (Hls & Hl & _). apply Forall_app in Hf as [_ [Hnow _]%Forall_cons].
    assert (Forall (λ x, x.1 ≤ s.1) l) as Hle by (apply Forall_forall; intros x Hx; apply Hls; [done|by left]).
    specialize (IH Hl s.1 Hle). pose proof (bucket_of_mono (Ring.bucketSize r) _ _ Hbs Hnow) as Hm.
    rewrite run_scrapes_snoc. cbn [Ring.Touch Ring.byApp]. destruct (run_scrapes_size r l) as [-> ->].
    rewrite touch_all_lookup. set (cur := Ring.bucket_of (Ring.bucketSize r) s.1) in *.
    destruct (s.2 !! app) as [c|]; [intros [= <-]|intros Hb; destruct (IH _ Hb) as (hi & ? & ?); exists hi; split; [etrans; eassumption|done]].
    exists cur. split; [done|]. unfold Ring.touch_app.
    destruct (Ring.byApp (run_scrapes r l) !! app) as [b|]; [|simpl; lia].
    destruct (Z.ltb_spec c (Ring.lastSeen b)); [simpl; lia|]. destruct (IH _ eq_refl) as (hi & Hhi & Hb).
    eapply evict_increasing, add_sample_increasing; [exact Hb|lia|lia]. }
  intros Hb. destruct scrapes as [|s l _] using rev_ind; [by simpl in Hb; rewrite He in Hb|].
  destruct (Hinv s.1) with (buf := buf) as (hi & _ & Hi%increasing_length); [|done|].
  - apply StronglySorted_app in Hs as (Hls & _ & _). apply Forall_app; split; [|by constructor].
    apply Forall_forall. intros x Hx. apply Hls; [done|by left].
  - rewrite length_fmap in Hi. lia.
Qed.

(** ** The in-flight window *)

Definition omax (a b : option Z) : option Z :=
  match a, b with
  | Some x, Some y => Some (Z.max x y)
  | Some x, None => Some x
  | None, b => b
  end.

Lemma max_since_app c l1 l2 : max_since c (l1 ++ l2) = omax (max_since c l1) (max_since c l2).
Proof.
  induction l1 as [|[b n] l1 IH]; simpl; [done|]. rewrite IH. case_match; [|done].
  destruct (max_since c l1), (max_since c l2); simpl; f_equal; lia.
Qed.

Definition bucket_log (l : list Inflight.bucket) : list (Z * Z) :=
  (λ b, (Inflight.bidx b, Inflight.bmax b)) <$> l.

Lemma window_max_log c l : Inflight.window_max c l = max_since c (bucket_log l).
Proof.
  unfold Inflight.window_max. set (f := λ acc b, _).
  assert (∀ a, foldl f a l = omax a (max_since c (bucket_log l))) as H; [|by rewrite H].
  induction l as [|b l IH]; intros a; csimpl; [by destruct a|]. rewrite IH. unfold f.
  destruct (c <=? Inflight.bidx b); [|done]. fold (bucket_log l).
  destruct a as [m|], (max_since c (bucket_log l)) as [x|]; simpl; f_equal; case_match; lia.
Qed.

Lemma max_since_evict c c' l :
  c' ≤ c → max_since c (bucket_log (Inflight.evict c' l)) = max_since c (bucket_log l).
Proof.
  intros Hc. induction l as [|b l IH]; [done|]. csimpl.
  destruct (Z.ltb_spec (Inflight.bidx b) c'); [|done]. rewrite IH.
  by rewrite (proj2 (Z.leb_gt c (Inflight.bidx b))) by lia.
Qed.

(** One observation extends the log by one sample. *)
Lemma observe_log ws hi cur n buf c :
  cur ≤ hi → hi - ws + 1 ≤ c →
  max_since c (bucket_log (Inflight.observe_app ws cur n buf))
  = omax (max_since c (bucket_log (default [] buf))) (max_since c [(cur, n)]).
Proof.
  intros Hc Hw. unfold Inflight.observe_app. destruct buf as [l|]; [|done]. simpl default.
  assert (max_since c (bucket_log (Inflight.evict (cur - ws + 1) (l ++ [Inflight.mkBucket cur n])))
          = omax (max_since c (bucket_log l)) (max_since c [(cur, n)])) as Hev.
  { rewrite max_since_evict by lia. unfold bucket_log. by rewrite fmap_app, max_since_app. }
  destruct (last l) as [b|] eqn:El; [|done]. destruct (Z.eqb_spec (Inflight.bidx b) cur) as [<-|]; [|done].
  unfold bucket_log. rewrite (last_split _ _ El) at 2. rewrite !fmap_app, !max_since_app. csimpl.
  clear Hev. destruct (max_since c (_ <$> removelast l)), (c <=? Inflight.bidx b), (Z.ltb_spec (Inflight.bmax b) n);
    simpl; try done; f_equal; lia.
Qed.

Lemma run_samples_snoc r l s :
  run_samples r (l ++ [s]) = Inflight.Observe (run_samples r l) s.1.1 s.1.2 s.2.
Proof. unfold run_samples. by rewrite foldl_app. Qed.

Lemma run_samples_size r l :
  Inflight.windowSize (run_samples r l) = Inflight.windowSize r ∧
  Inflight.bucketSize (run_samples r l) = Inflight.bucketSize r.
Proof. induction l as [|s l IH] using rev_ind; [done|]. by rewrite run_samples_snoc. Qed.

(** the in-flight window reads the greatest sample of its app taken in the last [windowSize]
    buckets, and reports no signal exactly when there is none. *)
Theorem inflight_window_exact ws bs (samples : list (Time * string * Z)) app now :
  let r := Inflight.NewRingBuffer ws bs in
  Forall (λ s, s.1.1 ≤ now) samples →
  Inflight.AppMaxInflight (run_samples r samples) app now
  = max_since (Ring.bucket_of (Inflight.bucketSize r) now - Inflight.windowSize r + 1)
      (sample_log (Inflight.bucketSize r) app samples).
Proof.
  intros r Hf. assert (0 < Inflight.bucketSize r) as Hbs by (simpl; unfold Second; case_match; lia).
  assert (Inflight.byApp r = ∅) as He by done. clearbody r.
  set (hi := Ring.bucket_of (Inflight.bucketSize r) now). set (ws' := Inflight.windowSize r).
  assert (max_since (hi - ws' + 1) (bucket_log (default [] (Inflight.byApp (run_samples r samples) !! app)))
          = max_since (hi - ws' + 1) (sample_log (Inflight.bucketSize r) app samples)) as Hinv.
  { induction samples as [|s l IH] using rev_ind; [simpl; by rewrite He, lookup_empty|].
    apply Forall_app in Hf as [Hl [Hs _]%Forall_cons]. specialize (IH Hl).
    rewrite run_samples_snoc. cbn [Inflight.Observe Inflight.byApp]. destruct (run_samples_size r l) as [-> ->].
    unfold sample_log in *. rewrite filter_app, fmap_app, max_since_app, <- IH.
    destruct (decide (s.1.2 = app)) as [<-|Hne].
    - rewrite lookup_insert_eq. cbn [default]. rewrite filter_cons_True, filter_nil by done.
      apply (observe_log ws' hi); [by apply bucket_of_mono|done].
    - rewrite lookup_insert_ne, filter_cons_False, filter_nil by done. csimpl.
      by destruct (max_since _ _). }
  unfold Inflight.AppMaxInflight. destruct (run_samples_size r samples) as [-> ->]. fold hi ws'.
  rewrite <- Hinv. by destruct (Inflight.byApp (run_samples r samples) !! app) as [l|];
    simpl; [rewrite window_max_log|].
Qed.

(** the reaper's desired count is the least number of instances that carries the windowed
    requests at [targetRPS] each; without a target or without requests it is zero. *)
Theorem desired_replicas_least r app now target :
  let n := RecentLoad.RecentDesiredReplicas r app now target in
  let reqs := RecentLoad.RecentRPS r app now in
  0 ≤ n ∧ (target ≤ 0 → n = 0) ∧
  (0 < target → reqs ≤ n * target ∧ ∀ k, 0 ≤ k → reqs ≤ k * target → n ≤ k).
Proof.
  intros n reqs. unfold n, RecentLoad.RecentDesiredReplicas. fold reqs.
  destruct (Z.leb_spec target 0); [split_and!; [done|done|lia]|]. destruct (Z.leb_spec reqs 0); [split_and!; [done|done|split; lia]|].
  pose proof (Z.div_mod (reqs + target - 1) target ltac:(lia)) as Hd.
  pose proof (Z.mod_pos_bound (reqs + target - 1) target ltac:(lia)) as Hm.
  set (q := (reqs + target - 1) / target) in *.
  split_and!; [nia|lia|]. intros _. split; [nia|]. intros k Hk Hle.
  destruct (Z.le_gt_cases q k); [done|nia].
Qed.

(** ** Witnesses *)

Definition sample_scrapes : list (Time * gmap string Z) :=
  [(0, {["a" := 10]}); (1 * Second, {["a" := 14; "b" := 3]}); (3 * Second, {["a" := 15; "b" := 9]});
   (7 * Second, {["a" := 21; "b" := 2]})]%string.

Lemma request_window_exact_witness :
  Ring.AppRPS (run_scrapes (Ring.NewRingBuffer 5 Second) sample_scrapes) "a" (7 * Second) = 7 ∧
  Ring.AppRPS (run_scrapes (Ring.NewRingBuffer 5 Second) sample_scrapes) "b" (7 * Second) = 0.
Proof.
  assert (Forall (λ s : Time * gmap string Z, s.1 ≤ 7 * Second) sample_scrapes) as Hf
    by (repeat constructor; by vm_compute).
  pose proof (λ app, request_window_exact 5 Second sample_scrapes app (7 * Second) Hf) as H.
  split; (etrans; [apply H|by vm_compute]).
Defined.

Lemma request_window_bounded_witness :
  ∃ buf, Ring.byApp (run_scrapes (Ring.NewRingBuffer 2 Second) sample_scrapes) !! "a"%string = Some buf ∧
         Z.of_nat (length (Ring.buckets buf)) ≤ 2.
Proof.
  destruct (Ring.byApp (run_scrapes (Ring.NewRingBuffer 2 Second) sample_scrapes) !! "a"%string)
    as [buf|] eqn:E; [|by vm_compute in E].
  exists buf. split; [done|]. apply (request_window_bounded 2 Second sample_scrapes "a"); [|exact E].
  repeat constructor; by vm_compute.
Defined.

Lemma inflight_window_exact_witness :
  let samples := [(0, "a", 9); (4 * Second, "a", 3); (4 * Second, "a", 5); (5 * Second, "b", 8)]%string in
  Inflight.AppMaxInflight (run_samples (Inflight.NewRingBuffer 5 Second) samples) "a" (6 * Second)
  = Some 5.
Proof.
  intros samples. etrans; [apply (inflight_window_exact 5 Second samples "a" (6 * Second))|by vm_compute].
  repeat constructor; by vm_compute.
Defined.
End WindowSpec.
