(* ===== verification/Reaper.v ===== *)
(** * pkg/sched: the reaper's selectors

    Models src/pkg/sched/reaper.go: the pure functions that choose which
    instances to park for idleness ([ReapIdle]), to park because traffic fell
    ([ReapAggressive]) and to evict under RAM pressure ([SelectEvictions]).
    Metrics are left out.  An [appGroup] is updated in a map keyed by app, as in
    the code; the order in which Go visits that map is unspecified, and the
    theorems state which rows are chosen, not the order between apps.

    MustLimitsFor panics on an unknown plan: [ReapIdle] then has no result. *)

From S2P Require Import Prelude Api Machine.

Module Reaper.

Definition EvictionThresholdMB : Z := go_div (RAMAdmissionCeilingMB *! 80) 100.
Definition MinInstanceAge : Duration := 30 * Second.

Record InstanceInfo := mkInfo {
  Instance : string;
  AppID : string;
  IPlan : string;
  IState : State;
  RAMMB : Z;
  SidecarMBs : list Z;
  LastRequest : Time;
  Started : Time;
  EvictionPriority : string;
  IdleTimeoutS : Z;
  NodeID : string;
  OpenConns : Z;
  TailCount : Z;
  MinInstances : Z;
  DeploymentID : string;
  Worker : bool;                       (* WorkloadClass == worker *)
  LastScaleInAt : option Time;
  ScaleInCooldownS : Z;
}.

#[global] Instance InstanceInfo_eq_dec : EqDecision InstanceInfo.
Proof. solve_decision. Defined.

Definition admissionMB (i : InstanceInfo) : Z := BillableRAMMBWithSidecars (RAMMB i) (SidecarMBs i).

Definition EffectiveIdleTimeoutS (plan : string) (configured : Z) : option Z :=
  match MustLimitsFor plan with
  | None => None
  | Some l =>
      Some (if configured <=? 0 then Limits.IdleTimeoutS l
            else let '(floor, ceiling) := IdleTimeoutBounds l in
                 if configured <? floor then floor
                 else if ceiling <? configured then ceiling
                 else configured)
  end.

(** ** Groups *)

(** The selectors' per-app accumulator; [desired] is only used by [ReapAggressive]. *)
Record appGroup := mkGroup {
  running : Z;
  floor : Z;
  desired : Z;
  cands : list InstanceInfo;
  lastScaleInAt : option Time;
  scaleInCooldown : Duration;
}.

(** The group created at an app's first row: the carriers are read from that row. *)
Definition new_group (want : Z) (r : InstanceInfo) : appGroup :=
  mkGroup 0 (MinInstances r) want [] (LastScaleInAt r) (ScaleInCooldownS r *! Second).

Definition count_row (g : appGroup) : appGroup :=
  mkGroup (running g + 1) (floor g) (desired g) (cands g) (lastScaleInAt g) (scaleInCooldown g).

Definition add_cand (r : InstanceInfo) (g : appGroup) : appGroup :=
  mkGroup (running g) (floor g) (desired g) (cands g ++ [r]) (lastScaleInAt g) (scaleInCooldown g).

(** The scale-in cooldown consult. *)
Definition on_cooldown (now : Time) (last : option Time) (cooldown : Duration) : bool :=
  match last with
  | Some t => (0 <? cooldown) && (time_sub now t <? cooldown)
  | None => false
  end.

Definition held (now : Time) (g : appGroup) : bool :=
  on_cooldown now (lastScaleInAt g) (scaleInCooldown g).

(** The comparator of both sorts: oldest LastRequest first, then the instance id. *)
Definition lru_less : InstanceInfo → InstanceInfo → bool :=
  lex_less LastRequest Z.eqb Z.ltb (λ a b, str_ltb (Instance a) (Instance b)).

(** ** ReapIdle *)

(** One iteration of the row loop; [None] is the panic of MustLimitsFor. *)
Definition idle_row (now : Time) (byApp : gmap string appGroup) (r : InstanceInfo)
  : option (gmap string appGroup) :=
  if negb (State_eqb (IState r) StateRunning) then Some byApp
  else
  let g := default (new_group 0 r) (byApp !! AppID r) in
  let put g := <[AppID r := g]> byApp in
  if held now g then Some (put g)
  else if Worker r then Some (put g)
  else
  let g := count_row g in
  if 0 <? OpenConns r then Some (put g)
  else if 0 <? TailCount r then Some (put g)
  else
  match EffectiveIdleTimeoutS (IPlan r) (IdleTimeoutS r) with
  | None => None
  | Some t => if t *! Second <? time_sub now (LastRequest r)
              then Some (put (add_cand r g)) else Some (put g)
  end.

Fixpoint idle_rows (now : Time) (byApp : gmap string appGroup) (rs : list InstanceInfo)
  : option (gmap string appGroup) :=
  match rs with
  | [] => Some byApp
  | r :: rs => match idle_row now byApp r with
               | Some byApp => idle_rows now byApp rs
               | None => None
               end
  end.

(** The second loop's body: sort, trim to the surplus over the floor. *)
Definition idle_group (g : appGroup) : list string :=
  let cs := go_sort lru_less (cands g) in
  let allowed := running g - floor g in
  let allowed := if allowed <? 0 then 0 else allowed in
  let cs := if allowed <? Z.of_nat (length cs) then take (Z.to_nat allowed) cs else cs in
  Instance <$> cs.

Definition ReapIdle (now : Time) (instances : list InstanceInfo) : option (list string) :=
  byApp ← idle_rows now ∅ instances;
  Some (map_to_list byApp ≫= λ ag, idle_group ag.2).

(** ** ReapAggressive *)

Definition aggressive_row (now : Time) (desiredByApp : gmap string Z)
    (byApp : gmap string appGroup) (r : InstanceInfo) : gmap string appGroup :=
  if negb (State_eqb (IState r) StateRunning) then byApp
  else
  match desiredByApp !! AppID r with
  | None => byApp
  | Some want =>
      if Worker r then byApp
      else
      let g := default (new_group want r) (byApp !! AppID r) in
      let put g := <[AppID r := g]> byApp in
      if held now g then put g
      else
      let g := count_row g in
      if 0 <? OpenConns r then put g
      else if 0 <? TailCount r then put g
      else if time_sub now (Started r) <? MinInstanceAge then put g
      else put (add_cand r g)
  end.

Definition aggressive_group (g : appGroup) : list string :=
  let limit := if floor g <? desired g + 1 then desired g + 1 else floor g in
  let extra := running g - limit in
  if extra <=? 0 then []
  else
  let cs := go_sort lru_less (cands g) in
  let extra := if Z.of_nat (length cs) <? extra then Z.of_nat (length cs) else extra in
  Instance <$> take (Z.to_nat extra) cs.

Definition ReapAggressive (now : Time) (snapshot : list InstanceInfo)
    (desiredByApp : gmap string Z) : list string :=
  let byApp := foldl (aggressive_row now desiredByApp) ∅ snapshot in
  map_to_list byApp ≫= λ ag, aggressive_group ag.2.

(** ** SelectEvictions *)

(** best_effort before reserved, non-Scale before Scale, oldest request, instance id. *)
Definition evict_less : InstanceInfo → InstanceInfo → bool :=
  lex_less (λ i, String.eqb (EvictionPriority i) EvictionPriorityReserved) Bool.eqb false_first
    (lex_less (λ i, String.eqb (IPlan i) PlanScale) Bool.eqb false_first lru_less).

Definition evict_cands (now : Time) (instances : list InstanceInfo) : list InstanceInfo :=
  filter (λ r, State_eqb (IState r) StateRunning
               && negb (time_sub now (Started r) <? MinInstanceAge)) instances.

(** The greedy loop. *)
Fixpoint evict_loop (remaining : Z) (cs : list InstanceInfo) : list string :=
  match cs with
  | [] => []
  | r :: cs => if remaining <=? EvictionThresholdMB then []
               else Instance r :: evict_loop (remaining -! admissionMB r) cs
  end.

Definition SelectEvictions (residentMB : Z) (now : Time) (instances : list InstanceInfo)
  : list string :=
  if residentMB <=? EvictionThresholdMB then []
  else evict_loop residentMB (go_sort evict_less (evict_cands now instances)).

(** ** Specification *)

(** What runReaper's snapshot guarantees: instance ids are distinct, and the rows of one app carry the
    same floor and scale-in cooldown. *)
Record snapshot_ok (rows : list InstanceInfo) : Prop := {
  snap_ids : NoDup (Instance <$> rows);
  snap_carriers r r' : r ∈ rows → r' ∈ rows → AppID r = AppID r' →
    MinInstances r = MinInstances r' ∧ LastScaleInAt r = LastScaleInAt r' ∧
    ScaleInCooldownS r = ScaleInCooldownS r';
}.

Definition cooling (now : Time) (r : InstanceInfo) : bool :=
  on_cooldown now (LastScaleInAt r) (ScaleInCooldownS r *! Second).

(** A row that counts toward its app's running instances, and one that may be parked for idleness. *)
Definition counts (now : Time) (r : InstanceInfo) : bool :=
  State_eqb (IState r) StateRunning && negb (cooling now r) && negb (Worker r).

Definition idle (now : Time) (r : InstanceInfo) : bool :=
  counts now r && negb (0 <? OpenConns r) && negb (0 <? TailCount r) &&
  match EffectiveIdleTimeoutS (IPlan r) (IdleTimeoutS r) with
  | Some t => t *! Second <? time_sub now (LastRequest r)
  | None => false
  end.

Definition surplus (now : Time) (r : InstanceInfo) : bool :=
  counts now r && negb (0 <? OpenConns r) && negb (0 <? TailCount r) &&
  negb (time_sub now (Started r) <? MinInstanceAge).

(** The number of the app's rows that pass a test, and of those that come before [r]. *)
Definition app_count (P : InstanceInfo → bool) (rows : list InstanceInfo) (a : string) : Z :=
  Z.of_nat (length (filter (λ y, P y && String.eqb (AppID y) a) rows)).

Definition app_rank (P : InstanceInfo → bool) (rows : list InstanceInfo) (r : InstanceInfo) : Z :=
  Z.of_nat (length (filter (λ y, P y && String.eqb (AppID y) (AppID r) && lru_less y r) rows)).

(** Every row whose idle timeout is consulted has a known plan. *)
Definition plans_known (now : Time) (rows : list InstanceInfo) : Prop :=
  ∀ r, r ∈ rows → counts now r = true → OpenConns r ≤ 0 → TailCount r ≤ 0 →
       LimitsFor (IPlan r) ≠ None.

(** The group the row loops build for an app: carriers from the first row that enters it. *)
Definition group_of (enter cnt cand : InstanceInfo → bool) (want : string → Z)
    (rows : list InstanceInfo) (a : string) : option appGroup :=
  match filter (λ y, enter y && String.eqb (AppID y) a) rows with
  | [] => None
  | r0 :: _ =>
      Some (mkGroup (app_count cnt rows a) (MinInstances r0) (want a)
              (filter (λ y, cand y && String.eqb (AppID y) a) rows)
              (LastScaleInAt r0) (ScaleInCooldownS r0 *! Second))
  end.

(** ** The comparators *)

#[export] Instance lru_weak : WeakOrder lru_less.
Proof. apply lex_less_weak; [apply _|apply key_weak, _|apply Zeqb_lt_spec]. Qed.

#[export] Instance evict_weak : WeakOrder evict_less.
Proof.
  apply lex_less_weak; [apply _| |apply bool_eqb_spec].
  apply lex_less_weak; [apply _|apply _|apply bool_eqb_spec].
Qed.

Lemma lru_sep a b : lru_less a b = false → lru_less b a = false → Instance a = Instance b.
Proof.
  intros H1 H2. destruct (lex_less_sep _ _ _ _ Zeqb_lt_spec a b H1 H2) as (_ & ? & ?).
  by apply str_ltb_total.
Qed.

Lemma evict_sep a b : evict_less a b = false → evict_less b a = false → Instance a = Instance b.
Proof.
  intros H1 H2. destruct (lex_less_sep _ _ _ _ bool_eqb_spec a b H1 H2) as (_ & H3 & H4).
  destruct (lex_less_sep _ _ _ _ bool_eqb_spec a b H3 H4) as (_ & ? & ?). by apply lru_sep.
Qed.

(** Distinct ids: rows are determined by them. *)
Lemma ids_inj rows a b :
  NoDup (Instance <$> rows) → a ∈ rows → b ∈ rows → Instance a = Instance b → a = b.
Proof.
  intros Hnd [i Hi]%list_elem_of_lookup [j Hj]%list_elem_of_lookup E.
  assert (i = j) as ->; [|congruence].
  eapply NoDup_lookup; [exact Hnd|rewrite list_lookup_fmap, Hi; done|rewrite list_lookup_fmap, Hj; simpl; congruence].
Qed.

Lemma filter_ids (P : InstanceInfo → bool) rows :
  NoDup (Instance <$> rows) → NoDup (Instance <$> filter P rows).
Proof. intros. by eapply sublist_NoDup; [|apply (fmap_sublist _), sublist_filter]. Qed.

(** The rank lemma for a selection of the snapshot. *)
Lemma elem_of_lru_prefix (P : InstanceInfo → bool) rows n r :
  NoDup (Instance <$> rows) →
  r ∈ take n (go_sort lru_less (filter P rows)) ↔
  r ∈ filter P rows ∧ (length (filter (λ y, P y && lru_less y r) rows) < n)%nat.
Proof.
  intros Hnd. rewrite elem_of_take_rank.
  - assert (filter (λ y, lru_less y r) (filter P rows) = filter (λ y, P y && lru_less y r) rows) as ->; [|done].
    rewrite list_filter_filter. apply list_filter_iff. intros y. rewrite andb_True. tauto.
  - apply _.
  - eapply (NoDup_fmap_1 Instance), filter_ids, Hnd.
  - intros x y [_ Hx]%elem_of_filter_bool [_ Hy]%elem_of_filter_bool H1 H2.
    apply (ids_inj rows); [done..|by apply lru_sep].
Qed.

(** ** The row loops build [group_of] *)

Lemma filter_snoc_app (P : InstanceInfo → bool) rows r a :
  filter (λ y, P y && String.eqb (AppID y) a) (rows ++ [r])
  = filter (λ y, P y && String.eqb (AppID y) a) rows ++
    (if P r && String.eqb (AppID r) a then [r] else []).
Proof.
  rewrite filter_app. f_equal. destruct (P r && String.eqb (AppID r) a) eqn:E.
  - rewrite filter_cons_True, filter_nil; [done|by rewrite E].
  - rewrite filter_cons_False, filter_nil; [done|rewrite E; by intros []].
Qed.

Section groups.
Context (enter cnt cand : InstanceInfo → bool) (want : string → Z).
Hypothesis cnt_enter : ∀ r, cnt r = true → enter r = true.
Hypothesis cand_cnt : ∀ r, cand r = true → cnt r = true.

(** The effect of one row on its app's group. *)
Definition row_effect (r : InstanceInfo) (g : appGroup) : appGroup :=
  if cand r then add_cand r (count_row g) else if cnt r then count_row g else g.

Lemma group_of_other rows r a : AppID r ≠ a → group_of enter cnt cand want (rows ++ [r]) a
                                              = group_of enter cnt cand want rows a.
Proof.
  intros Hne. unfold group_of, app_count. rewrite !filter_snoc_app.
  rewrite (proj2 (String.eqb_neq _ _) Hne), !andb_false_r. by rewrite !app_nil_r.
Qed.

Lemma group_of_out rows r a :
  enter r = false → group_of enter cnt cand want (rows ++ [r]) a = group_of enter cnt cand want rows a.
Proof using All.
  intros He. assert (cnt r = false) as Hc by (destruct (cnt r) eqn:E; [by rewrite cnt_enter in He|done]).
  assert (cand r = false) as Hd by (destruct (cand r) eqn:E; [by rewrite cand_cnt in Hc|done]).
  unfold group_of, app_count. rewrite !filter_snoc_app, He, Hc, Hd. by rewrite !app_nil_r.
Qed.

Lemma group_of_in rows r :
  enter r = true →
  group_of enter cnt cand want (rows ++ [r]) (AppID r)
  = Some (row_effect r (default (new_group (want (AppID r)) r)
                          (group_of enter cnt cand want rows (AppID r)))).
Proof using All.
  intros He. unfold group_of, app_count. rewrite !filter_snoc_app, He, String.eqb_refl, !andb_true_r.
  assert (filter (λ y, enter y && String.eqb (AppID y) (AppID r)) rows = [] →
          filter (λ y, cnt y && String.eqb (AppID y) (AppID r)) rows = [] ∧
          filter (λ y, cand y && String.eqb (AppID y) (AppID r)) rows = []) as Hnil.
  { intros E. assert (∀ y, y ∈ rows → enter y && String.eqb (AppID y) (AppID r) = false) as Hno.
    { intros y Hy. destruct (enter y && _) eqn:Ey; [|done].
      assert (y ∈ filter (λ y, enter y && String.eqb (AppID y) (AppID r)) rows) as Hin
        by by apply elem_of_filter_bool. rewrite E in Hin. by apply elem_of_nil in Hin. }
    split; apply (filter_none (λ y, _ y && _)); intros y Hy; specialize (Hno y Hy);
      apply andb_false_iff in Hno as [Hno|Hno]; rewrite ?Hno, ?andb_false_r; try done.
    - destruct (cnt y) eqn:E'; [by rewrite cnt_enter in Hno|done].
    - destruct (cand y) eqn:E'; [by rewrite cnt_enter in Hno by by apply cand_cnt|done]. }
  unfold row_effect. pose proof (cand_cnt r) as Hcc.
  destruct (filter (λ y, enter y && String.eqb (AppID y) (AppID r)) rows) as [|r0 l]; simpl.
  - destruct Hnil as [-> ->]; [done|]. destruct (cand r), (cnt r); try done; by specialize (Hcc eq_refl).
  - unfold count_row, add_cand. destruct (cand r), (cnt r); simpl; rewrite ?length_app, ?app_nil_r; simpl;
      try (by specialize (Hcc eq_refl)); repeat f_equal; lia.
Qed.

(** A loop whose step updates the group of the row builds [group_of]. *)
Definition built (rows : list InstanceInfo) (m : gmap string appGroup) : Prop :=
  ∀ a, m !! a = group_of enter cnt cand want rows a.

Lemma built_empty : built [] ∅.
Proof. intros a. apply lookup_empty. Qed.

Lemma built_out rows m r : built rows m → enter r = false → built (rows ++ [r]) m.
Proof using All. intros Hb He a. by rewrite Hb, group_of_out. Qed.

Lemma built_in rows m r g :
  built rows m → enter r = true → g = row_effect r (default (new_group (want (AppID r)) r) (m !! AppID r)) →
  built (rows ++ [r]) (<[AppID r := g]> m).
Proof using All.
  intros Hb He -> a. destruct (decide (AppID r = a)) as [<-|Hne].
  - by rewrite lookup_insert_eq, Hb, group_of_in.
  - by rewrite lookup_insert_ne, Hb, group_of_other.
Qed.

(** The group's carriers are those of any row of the app. *)
Lemma built_held now rows m r :
  built rows m → snapshot_ok (rows ++ [r]) →
  held now (default (new_group (want (AppID r)) r) (m !! AppID r)) = cooling now r.
Proof using Type.
  clear cnt_enter cand_cnt.
  intros Hb [_ Hc]. rewrite Hb. unfold group_of.
  destruct (filter (λ y, enter y && String.eqb (AppID y) (AppID r)) rows) as [|r0 l] eqn:E; [done|].
  assert (r0 ∈ filter (λ y, enter y && String.eqb (AppID y) (AppID r)) rows) as [Hr0 Hin]%elem_of_filter_bool
    by (rewrite E; by left). breflect.
  destruct (Hc r0 r) as (_ & E2 & E3); [set_solver|set_solver|done|].
  unfold held, cooling. simpl. by rewrite E2, E3.
Qed.
End groups.

(** ** Which rows a selector picks *)

(** The rows of an app that count and are not picked. *)
Definition kept (cnt : InstanceInfo → bool) (park : list string) (rows : list InstanceInfo) (a : string)
  : Z := app_count (λ r, cnt r && negb (bool_decide (Instance r ∈ park))) rows a.

Lemma length_filter_split (P Q : InstanceInfo → bool) rows :
  length (filter P rows)
  = (length (filter (λ r, P r && Q r) rows) + length (filter (λ r, P r && negb (Q r)) rows))%nat.
Proof.
  induction rows as [|r rows IH]; [done|]. rewrite !filter_cons.
  destruct (P r), (Q r); simpl; rewrite ?IH; lia.
Qed.

(** Picking keeps all but the quota of the counted rows. *)
Lemma kept_bound (cnt cand : InstanceInfo → bool) rows park a q :
  snapshot_ok rows → (∀ r, cand r = true → cnt r = true) →
  (∀ r, r ∈ rows → AppID r = a → Instance r ∈ park → cand r = true ∧ app_rank cand rows r < q) →
  app_count cnt rows a - Z.max 0 q ≤ kept cnt park rows a.
Proof.
  intros [Hnd _] Hcc Hp. unfold kept, app_count.
  rewrite (length_filter_split _ (λ r, bool_decide (Instance r ∈ park))).
  assert (length (filter (λ r, (cnt r && String.eqb (AppID r) a) && negb (bool_decide (Instance r ∈ park))) rows)
        = length (filter (λ y, (cnt y && negb (bool_decide (Instance y ∈ park))) && String.eqb (AppID y) a) rows)) as ->.
  { f_equal. apply list_filter_iff. intros y. rewrite !andb_True. tauto. }
  assert (length (filter (λ r, (cnt r && String.eqb (AppID r) a) && bool_decide (Instance r ∈ park)) rows)
          ≤ Z.to_nat q)%nat; [|lia].
  trans (length (take (Z.to_nat q) (go_sort lru_less (filter (λ y, cand y && String.eqb (AppID y) a) rows)))); [|rewrite length_take; lia].
  apply submseteq_length, NoDup_submseteq; [eapply (NoDup_fmap_1 Instance), filter_ids, Hnd|].
  intros r [Hb Hin]%elem_of_filter_bool. breflect.
  destruct (Hp r) as [Hc Hlt]; [done..|].
  apply (elem_of_lru_prefix (λ y, cand y && String.eqb (AppID y) a)); [done|].
  subst a. rewrite elem_of_filter_bool, Hc, String.eqb_refl. unfold app_rank in Hlt. by split; [|lia].
Qed.

(** The group of a row that is in it. *)
Lemma group_carriers enter cnt cand want rows r g :
  snapshot_ok rows → r ∈ rows → group_of enter cnt cand want rows (AppID r) = Some g →
  running g = app_count cnt rows (AppID r) ∧ floor g = MinInstances r ∧ desired g = want (AppID r).
Proof.
  intros [_ Hc] Hr. unfold group_of.
  destruct (filter (λ y, enter y && String.eqb (AppID y) (AppID r)) rows) as [|r0 l] eqn:E; [done|].
  intros [= <-]. assert (r0 ∈ filter (λ y, enter y && String.eqb (AppID y) (AppID r)) rows) as Hin
    by (rewrite E; by left).
  apply elem_of_filter_bool in Hin as [Hb Hin]. breflect. destruct (Hc r0 r) as [E0 _]; [done..|].
  simpl. by rewrite E0.
Qed.

Lemma group_present enter cnt cand want rows r :
  r ∈ rows → enter r = true → is_Some (group_of enter cnt cand want rows (AppID r)).
Proof.
  intros Hr He. unfold group_of.
  assert (r ∈ filter (λ y, enter y && String.eqb (AppID y) (AppID r)) rows) as Hin.
  { apply elem_of_filter_bool. by rewrite He, String.eqb_refl. }
  destruct (filter (λ y, enter y && String.eqb (AppID y) (AppID r)) rows); [by apply elem_of_nil in Hin|eauto].
Qed.

Section picks.
Context (enter cnt cand : InstanceInfo → bool) (want : string → Z).
Hypothesis cnt_enter : ∀ r, cnt r = true → enter r = true.
Hypothesis cand_cnt : ∀ r, cand r = true → cnt r = true.
Context (pick : appGroup → list string) (quota : appGroup → Z).
Hypothesis pick_take : ∀ g, pick g = Instance <$> take (Z.to_nat (quota g)) (go_sort lru_less (cands g)).

Let picks (m : gmap string appGroup) : list string := map_to_list m ≫= λ ag, pick ag.2.

Lemma elem_of_pick rows a g id :
  snapshot_ok rows → group_of enter cnt cand want rows a = Some g →
  id ∈ pick g ↔
  ∃ r, r ∈ rows ∧ Instance r = id ∧ AppID r = a ∧ cand r = true ∧ app_rank cand rows r < quota g.
Proof using pick_take.
  intros [Hnd _] Hg. unfold group_of in Hg. case_match; [done|]. injection Hg as <-.
  rewrite pick_take, list_elem_of_fmap. cbn [cands]. set (n := quota _).
  assert (∀ r, r ∈ take (Z.to_nat n) (go_sort lru_less (filter (λ y, cand y && String.eqb (AppID y) a) rows)) ↔
               (cand r && String.eqb (AppID r) a = true ∧ r ∈ rows) ∧
               (length (filter (λ y, cand y && String.eqb (AppID y) a && lru_less y r) rows) < Z.to_nat n)%nat) as Hr.
  { intros r. by rewrite (elem_of_lru_prefix (λ y, cand y && String.eqb (AppID y) a)), elem_of_filter_bool. }
  split.
  - intros (r & -> & [[Hc Hin] Hlt]%Hr). breflect. subst a. exists r. split_and!; try done. unfold app_rank. lia.
  - intros (r & Hin & <- & <- & Hc & Hlt). exists r. split; [done|]. apply Hr.
    split; [by rewrite Hc, String.eqb_refl|]. unfold app_rank in Hlt. lia.
Qed.

(** The chosen rows: candidates whose rank in their app is below the app's quota. *)
Lemma elem_of_picks rows m id :
  snapshot_ok rows → built enter cnt cand want rows m →
  id ∈ picks m ↔
  ∃ r g, r ∈ rows ∧ Instance r = id ∧ cand r = true ∧
         group_of enter cnt cand want rows (AppID r) = Some g ∧ app_rank cand rows r < quota g.
Proof using pick_take.
  intros Hok Hb. unfold picks. rewrite list_elem_of_bind. split.
  - intros ([a g] & Hid & Hag%elem_of_map_to_list). rewrite Hb in Hag. simpl in Hid.
    apply (elem_of_pick _ _ _ _ Hok Hag) in Hid as (r & ? & ? & <- & ? & ?). by exists r, g.
  - intros (r & g & Hin & <- & Hc & Hg & Hlt). exists (AppID r, g). split; simpl.
    + apply (elem_of_pick _ _ _ _ Hok Hg). by exists r.
    + by rewrite elem_of_map_to_list, Hb.
Qed.

Lemma picks_nodup rows m :
  snapshot_ok rows → built enter cnt cand want rows m → NoDup (picks m).
Proof using pick_take.
  intros Hok Hb. apply NoDup_bind; [| |apply NoDup_map_to_list].
  - intros [a g] [a' g'] id Hag%elem_of_map_to_list Hag'%elem_of_map_to_list Hid Hid'.
    rewrite Hb in Hag, Hag'. apply (elem_of_pick _ _ _ _ Hok Hag) in Hid as (r & Hr & E & <- & _).
    apply (elem_of_pick _ _ _ _ Hok Hag') in Hid' as (r' & Hr' & E' & <- & _).
    assert (r = r') as <- by (eapply ids_inj; [apply Hok|..]; congruence). congruence.
  - intros [a g] Hag%elem_of_map_to_list. rewrite Hb in Hag. simpl. rewrite pick_take.
    assert (NoDup (Instance <$> go_sort lru_less (cands g))) as Hnd.
    { rewrite go_sort_perm. unfold group_of in Hag. case_match; [done|]. injection Hag as <-.
      apply filter_ids, Hok. }
    eapply sublist_NoDup; [exact Hnd|]. apply (fmap_sublist _), sublist_take.
Qed.

(** A selector's contract, for a quota that the rows of an app agree on. *)
Lemma picks_spec (q : InstanceInfo → Z) rows m :
  snapshot_ok rows → built enter cnt cand want rows m →
  (∀ r g, r ∈ rows → group_of enter cnt cand want rows (AppID r) = Some g → quota g = q r) →
  (∀ r r', r ∈ rows → r' ∈ rows → AppID r = AppID r' → q r = q r') →
  NoDup (picks m) ∧
  (∀ id, id ∈ picks m ↔
     ∃ r, r ∈ rows ∧ Instance r = id ∧ cand r = true ∧ app_rank cand rows r < q r) ∧
  (∀ r, r ∈ rows → app_count cnt rows (AppID r) - Z.max 0 (q r) ≤ kept cnt (picks m) rows (AppID r)).
Proof using All.
  intros Hok Hb Hq Hqq. assert (∀ id, id ∈ picks m ↔
     ∃ r, r ∈ rows ∧ Instance r = id ∧ cand r = true ∧ app_rank cand rows r < q r) as Hpick.
  { intros id. rewrite (elem_of_picks rows m id Hok Hb). split.
    - intros (r & g & Hr & Hid & Hi & Hg & Hlt). exists r. by rewrite <- (Hq r g Hr Hg).
    - intros (r & Hr & Hid & Hi & Hlt).
      destruct (group_present enter cnt cand want rows r) as [g Hg]; [done|by apply cnt_enter, cand_cnt|].
      exists r, g. by rewrite (Hq r g Hr Hg). }
  split_and!; [by eapply picks_nodup|done|]. intros r Hr.
  apply (kept_bound cnt cand); [done|done|]. intros r' Hr' Ea (r'' & Hr'' & Eid & Hi & Hlt)%Hpick.
  assert (r'' = r') as -> by (eapply ids_inj; [apply Hok|..]; done). split; [done|]. by rewrite (Hqq r r').
Qed.
End picks.

(** ** ReapIdle *)

Definition is_running (r : InstanceInfo) : bool := State_eqb (IState r) StateRunning.

Lemma counts_running now r : counts now r = true → is_running r = true.
Proof. unfold counts, is_running. intros. by breflect. Qed.

Lemma idle_counts now r : idle now r = true → counts now r = true.
Proof. unfold idle. intros. by breflect. Qed.

Definition idle_built (now : Time) := built is_running (counts now) (idle now) (λ _, 0).

Lemma idle_row_built now rows m r :
  idle_built now rows m → snapshot_ok (rows ++ [r]) → plans_known now (rows ++ [r]) →
  ∃ m', idle_row now m r = Some m' ∧ idle_built now (rows ++ [r]) m'.
Proof.
  intros Hb Hok Hpl. unfold idle_row. fold (is_running r).
  destruct (is_running r) eqn:Hr; simpl;
    [|eexists; split; [done|]; apply built_out; eauto using counts_running, idle_counts].
  assert (∀ g, g = row_effect (counts now) (idle now) r (default (new_group 0 r) (m !! AppID r)) →
    ∃ m', Some (<[AppID r := g]> m) = Some m' ∧ idle_built now (rows ++ [r]) m') as Hput.
  { intros g Hg. eexists; split; [done|]. eapply built_in; eauto using counts_running, idle_counts. }
  specialize (Hpl r ltac:(set_solver)). pose proof (built_held _ _ _ _ now _ _ r Hb Hok) as Hh.
  cbv beta in Hh. rewrite Hh. unfold row_effect, idle, counts in *. fold (is_running r) in *. rewrite Hr in *.
  simpl in *. destruct (cooling now r); simpl in *; [by apply Hput|].
  destruct (Worker r); simpl in *; [by apply Hput|].
  destruct (Z.ltb_spec 0 (OpenConns r)); simpl in *; [by apply Hput|].
  destruct (Z.ltb_spec 0 (TailCount r)); simpl in *; [by apply Hput|].
  destruct (EffectiveIdleTimeoutS (IPlan r) (IdleTimeoutS r)) as [t|] eqn:Et.
  - destruct (t *! Second <? time_sub now (LastRequest r)); by apply Hput.
  - exfalso. unfold EffectiveIdleTimeoutS, MustLimitsFor in Et. unfold LimitsFor in Hpl.
    destruct (planLimits (IPlan r)); [done|by apply Hpl].
Qed.

Lemma snapshot_prefix rows rs : snapshot_ok (rows ++ rs) → snapshot_ok rows.
Proof.
  intros [Hnd Hc]. split.
  - rewrite fmap_app in Hnd. by apply NoDup_app in Hnd as [? _].
  - intros r r' Hr Hr'. apply Hc; set_solver.
Qed.

Lemma idle_rows_built now rows m rs :
  idle_built now rows m → snapshot_ok (rows ++ rs) → plans_known now (rows ++ rs) →
  ∃ m', idle_rows now m rs = Some m' ∧ idle_built now (rows ++ rs) m'.
Proof.
  revert rows m. induction rs as [|r rs IH]; intros rows m Hb Hok Hpl; simpl.
  - rewrite app_nil_r. eauto.
  - assert (rows ++ r :: rs = (rows ++ [r]) ++ rs) as E by by rewrite <- app_assoc.
    rewrite E in *. destruct (idle_row_built now rows m r Hb) as (m' & -> & Hb').
    + by eapply snapshot_prefix.
    + intros x Hx. apply Hpl. set_solver.
    + by apply IH.
Qed.

Lemma idle_group_take g :
  idle_group g = Instance <$> take (Z.to_nat (running g - floor g)) (go_sort lru_less (cands g)).
Proof.
  unfold idle_group. destruct (Z.ltb_spec (running g - floor g) 0).
  - replace (Z.to_nat (running g - floor g)) with 0%nat by lia. destruct (Z.ltb_spec 0 (Z.of_nat (length (go_sort lru_less (cands g))))); [done|].
    by assert (go_sort lru_less (cands g) = []) as -> by (apply length_zero_iff_nil; lia).
  - destruct (Z.ltb_spec (running g - floor g) (Z.of_nat (length (go_sort lru_less (cands g))))); [done|].
    by rewrite take_ge by lia.
Qed.

(** On a snapshot with known plans the row loop does not panic. *)
Lemma ReapIdle_total now rows :
  snapshot_ok rows → plans_known now rows → ∃ park, ReapIdle now rows = Some park.
Proof.
  intros Hok Hpl. destruct (idle_rows_built now [] ∅ rows (built_empty _ _ _ _) Hok Hpl) as (m & E & _).
  unfold ReapIdle. rewrite E. eauto.
Qed.

(** what ReapIdle parks. On a snapshot with known plans it returns, each exactly once, the idle
    rows (RUNNING, not a worker, no open connection or tail task, past the effective timeout, app not
    in cooldown) whose rank from the oldest request in their app is below the app's surplus of
    running rows over its floor; so every app keeps its floor (or all it had), the rows it keeps are
    the freshest, and nothing idle above the floor survives. *)
Theorem reap_idle_correct now rows :
  snapshot_ok rows → plans_known now rows →
  ∃ park, ReapIdle now rows = Some park ∧ NoDup park ∧
    (∀ id, id ∈ park ↔
       ∃ r, r ∈ rows ∧ Instance r = id ∧ idle now r = true ∧
            app_rank (idle now) rows r < app_count (counts now) rows (AppID r) - MinInstances r) ∧
    (∀ r, r ∈ rows →
       Z.min (MinInstances r) (app_count (counts now) rows (AppID r))
       ≤ kept (counts now) park rows (AppID r)).
Proof.
  intros Hok Hpl. destruct (idle_rows_built now [] ∅ rows (built_empty _ _ _ _) Hok Hpl) as (m & E & Hb).
  unfold ReapIdle. rewrite E. simpl in *. eexists. split; [done|].
  destruct (picks_spec is_running (counts now) (idle now) (λ _, 0) (counts_running now) (idle_counts now)
    idle_group (λ g, running g - floor g) idle_group_take
    (λ r, app_count (counts now) rows (AppID r) - MinInstances r) rows m Hok Hb) as (Hnd & Hpick & Hk).
  - intros r g Hr Hg. by destruct (group_carriers _ _ _ _ _ _ _ Hok Hr Hg) as (-> & -> & _).
  - intros r r' Hr Hr' Ha. destruct (snap_carriers _ Hok r r') as [-> _]; [done..|]. by rewrite Ha.
  - split_and!; [done|done|]. intros r Hr. specialize (Hk r Hr).
    assert (0 ≤ app_count (counts now) rows (AppID r)) by (unfold app_count; lia). lia.
Qed.

(** ** ReapAggressive *)

Definition has_target (d : gmap string Z) (r : InstanceInfo) : bool :=
  bool_decide (is_Some (d !! AppID r)).

Lemma surplus_counts now r : surplus now r = true → counts now r = true.
Proof. unfold surplus. intros. by breflect. Qed.

(** Tests that agree on the rows of an app give the same counts and ranks. *)
Lemma app_count_ext P Q rows a :
  (∀ y, AppID y = a → P y = Q y) → app_count P rows a = app_count Q rows a.
Proof.
  intros H. unfold app_count. do 2 f_equal. apply list_filter_iff. intros y.
  destruct (String.eqb_spec (AppID y) a); [by rewrite H|by rewrite !andb_false_r].
Qed.

Lemma app_rank_ext P Q rows r :
  (∀ y, AppID y = AppID r → P y = Q y) → app_rank P rows r = app_rank Q rows r.
Proof.
  intros H. unfold app_rank. do 2 f_equal. apply list_filter_iff. intros y.
  destruct (String.eqb_spec (AppID y) (AppID r)); [by rewrite H|by rewrite !andb_false_r].
Qed.

Section aggressive.
Context (now : Time) (d : gmap string Z).

Let enter r := is_running r && negb (Worker r) && has_target d r.
Let cnt r := counts now r && has_target d r.
Let cand r := surplus now r && has_target d r.

Lemma cnt_enter r : cnt r = true → enter r = true.
Proof.
  unfold cnt, enter, counts. intros. breflect. unfold is_running.
  repeat match goal with H : _ = _ |- _ => rewrite H end. done.
Qed.

Lemma cand_cnt r : cand r = true → cnt r = true.
Proof. unfold cand, cnt. intros. breflect. by rewrite surplus_counts. Qed.

Lemma aggressive_row_built rows m r :
  built enter cnt cand (zget d) rows m → snapshot_ok (rows ++ [r]) →
  built enter cnt cand (zget d) (rows ++ [r]) (aggressive_row now d m r).
Proof.
  intros Hb Hok. unfold aggressive_row. fold (is_running r).
  destruct (enter r) eqn:He.
  2:{ assert (built enter cnt cand (zget d) (rows ++ [r]) m) as Hout
        by (apply built_out; eauto using cnt_enter, cand_cnt).
      unfold enter, has_target in He. destruct (is_running r); [|done]. simpl in *.
      destruct (d !! AppID r); simpl in *; [|done]. by destruct (Worker r). }
  assert (∀ g, g = row_effect cnt cand r (default (new_group (zget d (AppID r)) r) (m !! AppID r)) →
    built enter cnt cand (zget d) (rows ++ [r]) (<[AppID r := g]> m)) as Hput.
  { intros g Hg. eapply built_in; eauto using cnt_enter, cand_cnt. }
  pose proof (built_held _ _ _ _ now _ _ r Hb Hok) as Hh.
  unfold row_effect, cnt, cand, surplus, counts in Hput. fold (is_running r) in Hput.
  unfold enter in He. breflect. repeat match goal with H : _ = true |- _ => rewrite H in Hput |- * end.
  repeat match goal with H : _ = false |- _ => rewrite H in Hput |- * end.
  unfold zget, has_target in *. destruct (d !! AppID r) as [want|] eqn:Ed; [|breflect; by destruct H0].
  simpl in *. rewrite Hh. destruct (cooling now r); simpl in *; [by apply Hput|].
  destruct (0 <? OpenConns r); simpl in *; [by apply Hput|].
  destruct (0 <? TailCount r); simpl in *; [by apply Hput|].
  destruct (time_sub now (Started r) <? MinInstanceAge); simpl in *; by apply Hput.
Qed.

Lemma aggressive_rows_built rows m rs :
  built enter cnt cand (zget d) rows m → snapshot_ok (rows ++ rs) →
  built enter cnt cand (zget d) (rows ++ rs) (foldl (aggressive_row now d) m rs).
Proof.
  revert rows m. induction rs as [|r rs IH]; intros rows m Hb Hok; simpl; [by rewrite app_nil_r|].
  assert (rows ++ r :: rs = (rows ++ [r]) ++ rs) as E by by rewrite <- app_assoc.
  rewrite E in *. apply IH; [|done]. apply aggressive_row_built; [done|by eapply snapshot_prefix].
Qed.
End aggressive.

Definition aggressive_limit (floor desired : Z) : Z := Z.max floor (desired + 1).

Lemma aggressive_group_take g :
  aggressive_group g
  = Instance <$> take (Z.to_nat (running g - aggressive_limit (floor g) (desired g)))
                   (go_sort lru_less (cands g)).
Proof.
  unfold aggressive_group, aggressive_limit.
  replace (if floor g <? desired g + 1 then desired g + 1 else floor g)
    with (Z.max (floor g) (desired g + 1)) by (case_match; lia).
  set (e := running g - _). destruct (Z.leb_spec e 0); [by replace (Z.to_nat e) with 0%nat by lia|].
  destruct (Z.ltb_spec (Z.of_nat (length (go_sort lru_less (cands g)))) e); [|done].
  by rewrite Nat2Z.id, !take_ge by lia.
Qed.

(** what ReapAggressive parks. For the apps with a desired count it returns, each exactly once,
    the rows older than 30 s and without open connections or tail tasks whose rank from the oldest
    request is below the surplus of running rows over max(floor, desired + 1): every such app keeps
    that many rows (or all it had), freshest first, and other apps are untouched. *)
Theorem reap_aggressive_correct now d rows :
  snapshot_ok rows →
  let park := ReapAggressive now rows d in
  NoDup park ∧
  (∀ id, id ∈ park ↔
     ∃ r n, r ∈ rows ∧ Instance r = id ∧ d !! AppID r = Some n ∧ surplus now r = true ∧
       app_rank (surplus now) rows r
       < app_count (counts now) rows (AppID r) - aggressive_limit (MinInstances r) n) ∧
  (∀ r n, r ∈ rows → d !! AppID r = Some n →
     Z.min (aggressive_limit (MinInstances r) n) (app_count (counts now) rows (AppID r))
     ≤ kept (counts now) park rows (AppID r)).
Proof.
  intros Hok park. pose proof (aggressive_rows_built now d [] ∅ rows (built_empty _ _ _ _) Hok) as Hb.
  assert (∀ r n y, d !! AppID r = Some n → AppID y = AppID r → has_target d y = true) as Ht.
  { intros r n y Hn E. unfold has_target. rewrite E, Hn. done. }
  destruct (picks_spec _ _ _ (zget d) (cnt_enter now d) (cand_cnt now d) aggressive_group
    (λ g, running g - aggressive_limit (floor g) (desired g)) aggressive_group_take
    (λ r, app_count (λ y, counts now y && has_target d y) rows (AppID r)
          - aggressive_limit (MinInstances r) (zget d (AppID r))) rows _ Hok Hb) as (Hnd & Hpick & Hk).
  - intros r g Hr Hg. by destruct (group_carriers _ _ _ _ _ _ _ Hok Hr Hg) as (-> & -> & ->).
  - intros r r' Hr Hr' Ha. destruct (snap_carriers _ Hok r r') as [-> _]; [done..|]. by rewrite Ha.
  - change (map_to_list (foldl (aggressive_row now d) ∅ rows) ≫= λ ag, aggressive_group ag.2)
      with park in Hnd, Hpick, Hk. split; [done|]. split.
    + intros id. rewrite (Hpick id). split.
      * intros (r & Hr & Hid & Hc & Hlt). breflect. unfold has_target in *. breflect.
        destruct (d !! AppID r) as [n|] eqn:Hn; [|by destruct H0]. exists r, n. split_and!; try done.
        rewrite (zget_Some _ _ _ Hn) in Hlt.
        rewrite (app_rank_ext _ (surplus now)), (app_count_ext _ (counts now)) in Hlt; [done| |];
          intros y Ey; by rewrite (Ht r n y Hn Ey), andb_true_r.
      * intros (r & n & Hr & Hid & Hn & Hs & Hlt). exists r. rewrite Hs, (Ht r n r Hn eq_refl).
        split_and!; try done. rewrite (zget_Some _ _ _ Hn).
        rewrite (app_rank_ext _ (surplus now)), (app_count_ext _ (counts now)); [done| |];
          intros y Ey; by rewrite (Ht r n y Hn Ey), andb_true_r.
    + intros r n Hr Hn. specialize (Hk r Hr). unfold kept in Hk. rewrite (zget_Some _ _ _ Hn) in Hk.
      rewrite (app_count_ext (λ y, counts now y && has_target d y) (counts now)) in Hk
        by (intros y Ey; by rewrite (Ht r n y Hn Ey), andb_true_r).
      rewrite (app_count_ext (λ y, counts now y && has_target d y && negb (bool_decide (Instance y ∈ park)))
        (λ y, counts now y && negb (bool_decide (Instance y ∈ park)))) in Hk
        by (intros y Ey; by rewrite (Ht r n y Hn Ey), andb_true_r).
      fold (kept (counts now) park rows (AppID r)) in Hk.
      assert (0 ≤ app_count (counts now) rows (AppID r)) by (unfold app_count; lia). lia.
Qed.

(** ** SelectEvictions *)

Definition evictable (now : Time) (r : InstanceInfo) : bool :=
  State_eqb (IState r) StateRunning && negb (time_sub now (Started r) <? MinInstanceAge).

Definition sum_mb (l : list InstanceInfo) : Z := foldr (λ r acc, admissionMB r + acc) 0 l.

(** How well an instance is protected: reserved apps above best-effort ones, and within each the
    Scale plan above the others. *)
Definition protection (r : InstanceInfo) : Z :=
  (if decide (EvictionPriority r = "reserved"%string) then 2 else 0) +
  (if decide (IPlan r = "scale"%string) then 1 else 0).

(** The eviction order: less protected first, then longer without a request, then by id. *)
Definition goes_first (y r : InstanceInfo) : Prop :=
  protection y < protection r ∨
  protection y = protection r ∧
    (LastRequest y < LastRequest r ∨
     LastRequest y = LastRequest r ∧ String.compare (Instance y) (Instance r) = Lt).

#[export] Instance goes_first_dec y r : Decision (goes_first y r).
Proof. unfold goes_first. apply _. Defined.

(** The RAM freed before [r] is reached in eviction order. *)
Definition mb_before (now : Time) (rows : list InstanceInfo) (r : InstanceInfo) : Z :=
  sum_mb (filter (λ y, evictable now y = true ∧ goes_first y r) rows).

(** The comparator of the sort is that order. *)
Lemma evict_less_goes_first y r : evict_less y r = true ↔ goes_first y r.
Proof.
  assert (lru_less y r = true ↔ LastRequest y < LastRequest r ∨
    LastRequest y = LastRequest r ∧ String.compare (Instance y) (Instance r) = Lt) as Hlru.
  { unfold lru_less, lex_less. destruct (Z.eqb_spec (LastRequest y) (LastRequest r)) as [E|E];
      simpl; rewrite ?str_ltb_lt, ?Z.ltb_lt; naive_solver lia. }
  unfold evict_less, lex_less at 1 2, goes_first, protection.
  change EvictionPriorityReserved with "reserved"%string. change PlanScale with "scale"%string.
  destruct (String.eqb_spec (EvictionPriority y) "reserved"), (String.eqb_spec (EvictionPriority r) "reserved"),
    (String.eqb_spec (IPlan y) "scale"), (String.eqb_spec (IPlan r) "scale"); simpl;
    repeat case_decide; try done; unfold false_first; simpl; rewrite ?Hlru;
    (split; [intros ?|intros [?|[? ?]]]); try done; try lia; auto.
Qed.

Lemma mb_before_less now rows r :
  mb_before now rows r = sum_mb (filter (λ y, evictable now y && evict_less y r) rows).
Proof.
  unfold mb_before. f_equal. apply list_filter_iff. intros y.
  by rewrite andb_True, !Is_true_true, evict_less_goes_first.
Qed.

#[export] Instance sum_mb_perm : Proper ((≡ₚ) ==> (=)) sum_mb.
Proof. intros l l' Hp. unfold sum_mb. induction Hp; simpl; lia. Qed.

Lemma sum_mb_app l1 l2 : sum_mb (l1 ++ l2) = sum_mb l1 + sum_mb l2.
Proof. induction l1; simpl in *; lia. Qed.

Lemma sum_mb_nonneg l : (∀ r, r ∈ l → 0 ≤ admissionMB r) → 0 ≤ sum_mb l.
Proof.
  induction l as [|r l IH]; intros H; simpl; [done|].
  pose proof (H r ltac:(by left)). assert (0 ≤ sum_mb l) by (apply IH; intros; apply H; by right). lia.
Qed.

Lemma admissionMB_int64 r : - 2 ^ 63 ≤ admissionMB r < 2 ^ 63.
Proof.
  unfold admissionMB, BillableRAMMBWithSidecars.
  assert (∀ s, - 2 ^ 63 ≤ s < 2 ^ 63 → - 2 ^ 63 ≤ foldl (λ total m, if 0 <? m then total +! m else total) s (SidecarMBs r) < 2 ^ 63) as H.
  { induction (SidecarMBs r) as [|m l IH]; intros s Hs; simpl; [done|]. apply IH. case_match; [apply i64_range|done]. }
  apply H, i64_range.
Qed.

(** The greedy loop takes a row exactly when the rows before it do not free enough. *)
Lemma elem_of_evict_loop l1 x l2 rem :
  NoDup (Instance <$> l1 ++ x :: l2) → (∀ r, r ∈ l1 → 0 ≤ admissionMB r) → rem < 2 ^ 63 →
  Instance x ∈ evict_loop rem (l1 ++ x :: l2) ↔ EvictionThresholdMB < rem - sum_mb l1.
Proof.
  assert (EvictionThresholdMB = 38080) as Ht by done.
  revert rem. induction l1 as [|y l1 IH]; intros rem; csimpl; intros Hnd Hnn Hrem.
  - destruct (Z.leb_spec rem EvictionThresholdMB); [|split; [lia|by left]].
    split; [by intros ?%elem_of_nil|lia].
  - pose proof (sum_mb_nonneg l1 ltac:(intros; apply Hnn; by right)).
    pose proof (Hnn y ltac:(by left)). pose proof (admissionMB_int64 y).
    destruct (Z.leb_spec rem EvictionThresholdMB); [split; [by intros ?%elem_of_nil|lia]|].
    apply NoDup_cons in Hnd as [Hy Hnd]. rewrite elem_of_cons, i64_id by (unfold in_i64; lia).
    rewrite IH; [|done|intros; apply Hnn; by right|lia].
    split; [|intros; right; lia]. intros [E|?]; [|lia].
    destruct Hy. rewrite <- E. apply list_elem_of_fmap. exists x. split; [done|set_solver].
Qed.

(** It returns a prefix, and stops only when enough was freed. *)
Lemma evict_loop_prefix l rem :
  (∀ r, r ∈ l → 0 ≤ admissionMB r) → rem < 2 ^ 63 →
  ∃ l1 l2, l = l1 ++ l2 ∧ evict_loop rem l = Instance <$> l1 ∧
           (rem - sum_mb l1 ≤ EvictionThresholdMB ∨ l2 = []).
Proof.
  assert (EvictionThresholdMB = 38080) as Ht by done.
  revert rem. induction l as [|y l IH]; intros rem Hnn Hrem; simpl; [exists [], []; auto|].
  destruct (Z.leb_spec rem EvictionThresholdMB); [exists [], (y :: l); simpl; split_and!; auto; left; lia|].
  pose proof (Hnn y ltac:(by left)). pose proof (admissionMB_int64 y). rewrite i64_id by (unfold in_i64; lia).
  destruct (IH (rem - admissionMB y)) as (l1 & l2 & -> & -> & Hor); [intros; apply Hnn; by right|lia|].
  exists (y :: l1), l2. simpl. split_and!; [done|done|]. destruct Hor; [left; lia|by right].
Qed.

Lemma evict_less_trans a b c :
  evict_less a b = true → evict_less b c = true → evict_less a c = true.
Proof.
  intros H1 H2. destruct (evict_less a c) eqn:E; [done|].
  pose proof (less_negtrans a c b E (less_asym _ _ H2)). congruence.
Qed.

Lemma sum_mb_filter_le (P Q : InstanceInfo → bool) rows :
  (∀ r, r ∈ rows → 0 ≤ admissionMB r) → (∀ r, P r = true → Q r = true) →
  sum_mb (filter P rows) ≤ sum_mb (filter Q rows).
Proof.
  intros Hnn HPQ. induction rows as [|r rows IH]; [done|]. rewrite !filter_cons.
  pose proof (Hnn r ltac:(by left)). specialize (IH ltac:(intros; apply Hnn; by right)). specialize (HPQ r).
  destruct (P r), (Q r); simpl; [lia| |lia|lia]. by specialize (HPQ eq_refl).
Qed.

Lemma SelectEvictions_loop resident now rows :
  SelectEvictions resident now rows
  = evict_loop resident (go_sort evict_less (filter (evictable now) rows)).
Proof.
  unfold SelectEvictions, evict_cands. destruct (Z.leb_spec resident EvictionThresholdMB) as [Hle|]; [|done].
  fold (evictable now). destruct (go_sort _ _); simpl; [done|]. by rewrite (proj2 (Z.leb_le _ _) Hle).
Qed.

Section evictions.
Context (resident : Z) (now : Time) (rows : list InstanceInfo).
Hypothesis Hids : NoDup (Instance <$> rows).
Hypothesis Hnn : ∀ r, r ∈ rows → 0 ≤ admissionMB r.
Hypothesis Hres : resident < 2 ^ 63.

Let s := go_sort evict_less (filter (evictable now) rows).

Lemma elem_of_evict_order r : r ∈ s ↔ r ∈ rows ∧ evictable now r = true.
Proof. unfold s. rewrite elem_of_go_sort, elem_of_filter_bool. tauto. Qed.

Lemma evict_order_ids : NoDup (Instance <$> s).
Proof using Hids. unfold s. rewrite go_sort_perm. by apply filter_ids. Qed.

Lemma evicted_prefix :
  ∃ l1 l2, s = l1 ++ l2 ∧ SelectEvictions resident now rows = Instance <$> l1 ∧
           (resident - sum_mb l1 ≤ EvictionThresholdMB ∨ l2 = []).
Proof using Hnn Hres.
  rewrite SelectEvictions_loop. apply evict_loop_prefix; [|done]. intros r [? _]%elem_of_evict_order. eauto.
Qed.

Lemma elem_of_evicted r :
  r ∈ rows → evictable now r = true →
  Instance r ∈ SelectEvictions resident now rows ↔ EvictionThresholdMB < resident - mb_before now rows r.
Proof using All.
  intros Hr He. assert (r ∈ s) as (l1 & l2 & E)%list_elem_of_split by by apply elem_of_evict_order.
  rewrite SelectEvictions_loop. fold s. pose proof evict_order_ids as Hnd. rewrite E in *.
  rewrite elem_of_evict_loop; [|done| |done].
  2:{ intros y Hy. apply Hnn, elem_of_evict_order. rewrite E. set_solver. }
  rewrite mb_before_less. assert (l1 ≡ₚ filter (λ y, evictable now y && evict_less y r) rows) as <-; [|done].
  pose proof (go_sort_sorted evict_less (filter (evictable now) rows)) as Hs. fold s in Hs. rewrite E in Hs.
  rewrite fmap_app in Hnd. apply NoDup_app in Hnd as (_ & Hd & _).
  rewrite <- (sorted_split_rank evict_less l1 r l2 Hs), <- E.
  - unfold s. rewrite go_sort_perm, list_filter_filter.
    rewrite (list_filter_iff _ (λ y, evictable now y && evict_less y r)); [done|].
    intros y. rewrite andb_True. tauto.
  - intros Hin. apply (Hd (Instance r)); [by apply list_elem_of_fmap_2|by left].
  - intros a Ha H1 H2. destruct (Hd (Instance a)); [by apply list_elem_of_fmap_2|].
    rewrite (evict_sep a r) by done. by left.
Qed.
End evictions.

(** C38: what SelectEvictions evicts. With resident RAM above the threshold it evicts, each exactly
    once, the RUNNING rows older than 30 s that are reached before enough RAM is freed in the order
    best-effort before reserved, within these other plans before Scale, then least recently used, then
    by id ([goes_first]); the evicted set is downward closed in that order and frees enough, unless
    every evictable row is gone. *)
Theorem select_evictions_correct resident now rows :
  NoDup (Instance <$> rows) → (∀ r, r ∈ rows → 0 ≤ admissionMB r) → resident < 2 ^ 63 →
  let ev := SelectEvictions resident now rows in
  NoDup ev ∧
  (∀ id, id ∈ ev ↔
     ∃ r, r ∈ rows ∧ Instance r = id ∧ evictable now r = true ∧
          EvictionThresholdMB < resident - mb_before now rows r) ∧
  (∀ r r', r ∈ rows → r' ∈ rows → evictable now r = true → goes_first r r' →
     Instance r' ∈ ev → Instance r ∈ ev) ∧
  (resident - sum_mb (filter (λ r, bool_decide (Instance r ∈ ev)) rows) ≤ EvictionThresholdMB ∨
   ∀ r, r ∈ rows → evictable now r = true → Instance r ∈ ev).
Proof.
  intros Hids Hnn Hres ev. pose proof (elem_of_evicted resident now rows Hids Hnn Hres) as Hel.
  destruct (evicted_prefix resident now rows Hnn Hres) as (l1 & l2 & E & Eev & Hor).
  assert (∀ r, r ∈ l1 → r ∈ rows ∧ evictable now r = true) as Hl1.
  { intros r Hr. apply (elem_of_evict_order now rows). rewrite E. set_solver. }
  assert (∀ r, r ∈ rows → Instance r ∈ ev ↔ r ∈ l1) as Hin.
  { intros r Hr. unfold ev. rewrite Eev, list_elem_of_fmap. split; [|eauto].
    intros (r' & Eid & Hr'). rewrite (ids_inj rows r r'); [done|done|done|by apply Hl1|done]. }
  pose proof (evict_order_ids now rows Hids) as Hnd. rewrite E, fmap_app in Hnd.
  apply NoDup_app in Hnd as [Hnd _]. split_and!.
  - unfold ev. by rewrite Eev.
  - intros id. split.
    + unfold ev. rewrite Eev, list_elem_of_fmap. intros (r & -> & Hr). destruct (Hl1 r Hr) as [Hrr He].
      exists r. split_and!; [done|done|done|]. apply Hel; [done|done|]. by apply Hin.
    + intros (r & Hr & <- & He & Hlt). by apply Hel.
  - intros r r' Hr Hr' He Hless%evict_less_goes_first Hev. apply Hel; [done|done|].
    apply Hel in Hev; [|done|by apply Hl1, Hin]. rewrite mb_before_less in *.
    pose proof (sum_mb_filter_le (λ y, evictable now y && evict_less y r)
      (λ y, evictable now y && evict_less y r') rows Hnn) as Hle.
    assert (sum_mb (filter (λ y, evictable now y && evict_less y r) rows)
            ≤ sum_mb (filter (λ y, evictable now y && evict_less y r') rows)); [|lia].
    apply Hle. intros y Hy. breflect. rewrite (evict_less_trans y r r') by done. by rewrite andb_true_r.
  - destruct Hor as [Hle|Hnil]; [left|right].
    + assert (filter (λ r, bool_decide (Instance r ∈ ev)) rows ≡ₚ l1) as ->; [|done].
      apply NoDup_Permutation; [by eapply (NoDup_fmap_1 Instance), filter_ids|by eapply NoDup_fmap_1|].
      intros r. rewrite elem_of_filter_bool, bool_decide_eq_true. split.
      * intros [Hi Hr]. by apply Hin.
      * intros Hr. split; [apply Hin; [by apply Hl1|done]|by apply Hl1].
    + intros r Hr He. apply Hin; [done|]. assert (r ∈ l1 ++ l2) as Hrs
        by (rewrite <- E; by apply (elem_of_evict_order now rows)). by rewrite Hnil, app_nil_r in Hrs.
Qed.

(** ** The selectors only choose RUNNING rows of the snapshot *)

Definition chosen (rows : list InstanceInfo) (id : string) : Prop :=
  ∃ r, r ∈ rows ∧ Instance r = id ∧ IState r = StateRunning.

Lemma running_state r : is_running r = true → IState r = StateRunning.
Proof. unfold is_running, State_eqb. by rewrite bool_decide_eq_true. Qed.

Lemma ReapIdle_chosen now rows park id :
  snapshot_ok rows → plans_known now rows → ReapIdle now rows = Some park → id ∈ park → chosen rows id.
Proof.
  intros Hok Hpl. destruct (idle_rows_built now [] ∅ rows (built_empty _ _ _ _) Hok Hpl) as (m & E & Hb).
  unfold ReapIdle. rewrite E. intros [= <-].
  rewrite (elem_of_picks is_running (counts now) (idle now) (λ _, 0) idle_group
    (λ g, running g - floor g) idle_group_take rows m id Hok Hb).
  intros (r & _ & Hr & Hid & Hi & _). exists r. split_and!; [done|done|].
  by eapply running_state, counts_running, idle_counts.
Qed.

Lemma ReapAggressive_chosen now rows d id :
  snapshot_ok rows → id ∈ ReapAggressive now rows d → chosen rows id.
Proof.
  intros Hok. pose proof (aggressive_rows_built now d [] ∅ rows (built_empty _ _ _ _) Hok) as Hb.
  unfold ReapAggressive. rewrite (elem_of_picks _ _ _ _ aggressive_group
    (λ g, running g - aggressive_limit (floor g) (desired g)) aggressive_group_take rows _ id Hok Hb).
  intros (r & _ & Hr & Hid & Hi & _). exists r. split_and!; [done|done|]. breflect.
  by eapply running_state, counts_running, surplus_counts.
Qed.

Lemma SelectEvictions_chosen resident now rows id :
  id ∈ SelectEvictions resident now rows → chosen rows id.
Proof.
  rewrite SelectEvictions_loop. set (s := go_sort _ _).
  assert (∀ l rem, id ∈ evict_loop rem l → id ∈ Instance <$> l) as Hsub.
  { induction l as [|r l IH]; intros rem; simpl; [by intros ?%elem_of_nil|]. case_match; [by intros ?%elem_of_nil|].
    intros [->|?]%elem_of_cons; [by left|right; eauto]. }
  intros (r & -> & Hr)%Hsub%list_elem_of_fmap. unfold s in Hr.
  rewrite elem_of_go_sort, elem_of_filter_bool in Hr. destruct Hr as [He Hr]. exists r.
  split_and!; [done|done|]. unfold evictable in He. breflect. by apply running_state.
Qed.

(** ** Witnesses *)

Definition sample_info (id app : string) (lastReq started floor : Z) : InstanceInfo :=
  mkInfo id app "pro" StateRunning 512 [] (lastReq * Second) (started * Second) EmptyString 10 "n1" 0 0
    floor "dep" false None 0.

Definition sample_rows : list InstanceInfo :=
  [sample_info "i1" "a" 50 0 1; sample_info "i2" "a" 80 0 1; sample_info "i3" "a" 60 75 1;
   sample_info "i4" "b" 99 0 0].

Lemma sample_rows_ok : snapshot_ok sample_rows.
Proof.
  split; [vm_decide|]. intros r r' Hr Hr' E. unfold sample_rows in *.
  repeat (apply elem_of_cons in Hr as [->|Hr]); [..|by apply elem_of_nil in Hr];
    repeat (apply elem_of_cons in Hr' as [->|Hr']); try (by apply elem_of_nil in Hr'); done.
Qed.

Lemma sample_plans now : plans_known now sample_rows.
Proof.
  intros r Hr _ _ _. unfold sample_rows in Hr.
  repeat (apply elem_of_cons in Hr as [->|Hr]); [done..|by apply elem_of_nil in Hr].
Qed.

(** At 100 s the three rows of app [a] are idle and its floor is 1: the two stalest are parked. *)
Lemma reap_idle_correct_witness :
  ∃ park, ReapIdle (100 * Second) sample_rows = Some park ∧ park = ["i1"; "i3"]%string ∧ NoDup park.
Proof.
  destruct (reap_idle_correct (100 * Second) sample_rows sample_rows_ok (sample_plans _))
    as (park & E & Hnd & _). exists park. split_and!; [done| |done].
  assert (ReapIdle (100 * Second) sample_rows = Some ["i1"; "i3"]%string) as E' by by vm_compute. congruence.
Defined.

(** With one instance desired two are kept; "i3" is too young. *)
Lemma reap_aggressive_correct_witness :
  let d := {["a"%string := 1]} in
  ReapAggressive (100 * Second) sample_rows d = ["i1"]%string ∧
  NoDup (ReapAggressive (100 * Second) sample_rows d) ∧
  2 ≤ kept (counts (100 * Second)) (ReapAggressive (100 * Second) sample_rows d) sample_rows "a".
Proof.
  intros d. destruct (reap_aggressive_correct (100 * Second) d sample_rows sample_rows_ok) as (Hnd & _ & Hk).
  split_and!; [by vm_compute|exact Hnd|].
  apply (Hk (sample_info "i1" "a" 50 0 1) 1); [by left|done].
Defined.

(** A reserved, a Scale and an ordinary row: the ordinary one goes although it was used last. *)
Definition tiered_rows : list InstanceInfo :=
  [mkInfo "i1" "a" "pro" StateRunning 512 [] (10 * Second) 0 "reserved" 10 "n1" 0 0 0 "dep" false None 0;
   mkInfo "i2" "b" "scale" StateRunning 512 [] (20 * Second) 0 EmptyString 10 "n1" 0 0 0 "dep" false None 0;
   mkInfo "i3" "c" "pro" StateRunning 512 [] (60 * Second) 0 EmptyString 10 "n1" 0 0 0 "dep" false None 0].

Lemma select_evictions_correct_witness :
  SelectEvictions 38600 (100 * Second) tiered_rows = ["i3"]%string ∧
  SelectEvictions 39000 (100 * Second) tiered_rows = ["i3"; "i2"]%string ∧
  NoDup (SelectEvictions 39000 (100 * Second) tiered_rows).
Proof.
  split; [by vm_compute|]. split; [by vm_compute|].
  apply (select_evictions_correct 39000 (100 * Second) tiered_rows); [by vm_decide| |done].
  intros r Hr. unfold tiered_rows in Hr.
  repeat (apply elem_of_cons in Hr as [->|Hr]); [by vm_compute..|by apply elem_of_nil in Hr].
Defined.
End Reaper.
