(* ===== verification/ReaperLoop.v ===== *)
(** * pkg/sched: the reaper tick

    Models runReaper and runReaperAggressive of src/pkg/sched/loop.go: the
    snapshot over apps and instances, the floor enrichment from deployments, the
    three selectors of Reaper.v and the Engine calls they lead to, in the order
    of the code.  Every store read and write may fail (the engine's fault
    oracle); a panic of a selector is the absence of a result.

    Metrics and log lines are left out.  The flow counter, what tail-drain polls
    observe and the deployments table are parameters of the environment. *)

From S2P Require Import Prelude Api Machine Admission InstanceStore Engine Lifecycle Windows Reaper.

Module ReaperLoop.
Import Engine Lifecycle.

Definition MaxParksPerTickPerApp : Z := 8.

(** The app columns the reaper reads besides those of [Engine.App]. *)
Record ReapApp := mkReapApp {
  base : App;
  aIdleTimeoutS : Z;
  aEvictionPriority : string;
  aLastScaleInAt : option Time;
  aScaleInCooldownS : Z;               (* ScalingPolicyOrDefault(...).ScaleInCooldownS *)
  aAutoscaleTargetRPS : Z;
}.

Definition rID (a : ReapApp) : string := aID (base a).

Class ReapEnv := {
  deploymentMin : string → option Z;          (* deployments.min_instances, None: no such row *)
  flowOpen : string → option Z;               (* flowCounts.Open; None on a nil counter or an error *)
  tailPolls : string → list tail_poll;
  recentLoad : option RecentLoad.t;
  reaperAggressive : bool;
  reaperParkCap : Z;
}.

(** What the tick writes besides the engine's world: the loop's lastFloorByApp ([None] is the nil
    map), and the scale-in stamps and audit rows that reached the store. *)
Record Loop := mkLoop {
  lastFloorByApp : option (gmap string Z);
  scaleIns : list string;
  floorReleased : list (string * Z * Z);
  scaleDowns : list (string * Z * list string);
}.

Definition reaperInstanceState (s : State) : bool :=
  match s with
  | StateRunning | StateWaking | StateColdBooting | StateSnapshotting => true
  | _ => false
  end.

Definition app_floor (a : ReapApp) : Z :=
  effectiveMinInstances (Some (aMinInstances (base a), fst <$> aPolicy (base a))).

Section loop.
Context {cfg : Config} {env : ReapEnv}.
#[local] Abbreviation world := (@Engine.world Ledger.NodeLedger).
#[local] Abbreviation M := (@Engine.M Ledger.NodeLedger).
#[local] Notation "x <- m ;; k" := (bind m (λ x, k))
  (at level 100, m at next level, right associativity).
#[local] Notation "m ;; k" := (bind m (λ _, k)) (at level 100, right associativity).

(** ** The snapshot *)

Definition info_of (a : ReapApp) (plan : string) (ins : Store.Instance) : Reaper.InstanceInfo :=
  Reaper.mkInfo (Store.ID ins) (Store.AppID ins) plan (Store.IState ins) (Store.RAMMB ins) []
    (Store.LastRequestAt ins) (Store.StartedAt ins) (aEvictionPriority a) (aIdleTimeoutS a)
    (Store.NodeID ins) (default 0 (flowOpen (Store.ID ins))) (Store.TailCount ins) (app_floor a)
    (Store.DeploymentID ins) (aWorker (base a)) (aLastScaleInAt a) (aScaleInCooldownS a).

(** The rows of one app; the plan stays empty when the account cannot be read. *)
Definition app_rows (a : ReapApp) : M (list Reaper.InstanceInfo) :=
  acct <- readTable (PlanOf (aAccountID (base a)));;
  f <- fault;;
  if f then ret []
  else
  instances <- reads (λ w, Store.ListInstancesForApp (rows w) (rID a));;
  ret (info_of a (default EmptyString acct) <$>
         filter (λ ins, reaperInstanceState (Store.IState ins)) instances).

Fixpoint all_rows (apps : list ReapApp) : M (list Reaper.InstanceInfo) :=
  match apps with
  | [] => ret []
  | a :: apps => here <- app_rows a;; rest <- all_rows apps;; ret (here ++ rest)
  end.

Definition raise_floor (appID : string) (d : Z) (floors : gmap string Z) : gmap string Z :=
  if zget floors appID <? d then <[appID := d]> floors else floors.

(** The floor enrichment, with its per-tick deployment cache. *)
Fixpoint enrich (snapshot : list Reaper.InstanceInfo) (depCache floors : gmap string Z)
  : M (gmap string Z) :=
  match snapshot with
  | [] => ret floors
  | i :: rest =>
      let dep := Reaper.DeploymentID i in
      if String.eqb dep EmptyString then enrich rest depCache floors
      else
      match depCache !! dep with
      | Some d => enrich rest depCache (raise_floor (Reaper.AppID i) d floors)
      | None =>
          row <- readTable (deploymentMin dep);;
          match row with
          | None => enrich rest (<[dep := 0]> depCache) floors
          | Some n =>
              let d := effectiveDeploymentMinInstances (Some n) in
              enrich rest (<[dep := d]> depCache) (raise_floor (Reaper.AppID i) d floors)
          end
      end
  end.

Definition set_floor (n : Z) (i : Reaper.InstanceInfo) : Reaper.InstanceInfo :=
  Reaper.mkInfo (Reaper.Instance i) (Reaper.AppID i) (Reaper.IPlan i) (Reaper.IState i)
    (Reaper.RAMMB i) (Reaper.SidecarMBs i) (Reaper.LastRequest i) (Reaper.Started i)
    (Reaper.EvictionPriority i) (Reaper.IdleTimeoutS i) (Reaper.NodeID i) (Reaper.OpenConns i)
    (Reaper.TailCount i) n (Reaper.DeploymentID i) (Reaper.Worker i) (Reaper.LastScaleInAt i)
    (Reaper.ScaleInCooldownS i).

Definition restamp (floors : gmap string Z) (i : Reaper.InstanceInfo) : Reaper.InstanceInfo :=
  if Reaper.MinInstances i <? zget floors (Reaper.AppID i)
  then set_floor (zget floors (Reaper.AppID i)) i else i.

(** The snapshot with its final floors, and the floor of every app. *)
Definition build_snapshot (apps : list ReapApp) : M (list Reaper.InstanceInfo * gmap string Z) :=
  let floors := foldl (λ m a, <[rID a := app_floor a]> m) ∅ apps in
  snapshot <- all_rows apps;;
  floors <- enrich snapshot ∅ floors;;
  ret (restamp floors <$> snapshot, floors).

(** ** Parking *)

(** Park under the reaper's two-minute deadline. An expired deadline shows in Park as calls that
    fail from some point on ([faults]) and as a cancelled poll of the tail drain ([tailPolls]); both
    are arbitrary here, so every moment the deadline can strike is covered. *)
Definition parkFromReaper (id : string) : M bool := Park (tailPolls id) id.

(** Park the ids in turn; the result is the ids whose park reported no error. *)
Fixpoint park_all (ids : list string) : M (list string) :=
  match ids with
  | [] => ret []
  | id :: ids =>
      ok <- parkFromReaper id;;
      done <- park_all ids;;
      ret (if (ok : bool) then id :: done else done)
  end.

(** A best-effort store write that appends to one of the loop's logs. *)
Definition stamp_scale_in (appID : string) (l : Loop) : M Loop :=
  f <- fault;;
  ret (if (f : bool) then l
       else mkLoop (lastFloorByApp l) (scaleIns l ++ [appID]) (floorReleased l) (scaleDowns l)).

Definition emitFloorReleasedAudit (appID : string) (floor post : Z) (l : Loop) : M Loop :=
  f <- fault;;
  ret (if (f : bool) then l
       else mkLoop (lastFloorByApp l) (scaleIns l) (floorReleased l ++ [(appID, floor, post)])
              (scaleDowns l)).

Definition emitScaleDownAudit (appID : string) (desired : Z) (parked : list string) (l : Loop)
  : M Loop :=
  f <- fault;;
  ret (if (f : bool) then l
       else mkLoop (lastFloorByApp l) (scaleIns l) (floorReleased l)
              (scaleDowns l ++ [(appID, desired, parked)])).

(** instanceToApp: the last row of an id wins. *)
Definition instance_to_app (snapshot : list Reaper.InstanceInfo) : gmap string string :=
  foldl (λ m s, <[Reaper.Instance s := Reaper.AppID s]> m) ∅ snapshot.

(** The per-app work after the idle parks. *)
Definition idle_stamp (floors : gmap string Z) (appID : string) (l : Loop) : M Loop :=
  l <- stamp_scale_in appID l;;
  match lastFloorByApp l with
  | Some prev =>
      match prev !! appID with
      | Some p => if zget floors appID <? p
                  then emitFloorReleasedAudit appID p (zget floors appID) l else ret l
      | None => ret l
      end
  | None => ret l
  end.

Fixpoint idle_stamps (floors : gmap string Z) (appIDs : list string) (l : Loop) : M Loop :=
  match appIDs with
  | [] => ret l
  | a :: rest => l <- idle_stamp floors a l;; idle_stamps floors rest l
  end.

(** ** The aggressive branch *)

(** desiredByApp, over the apps that take part; its keys are consideredAppIDs. *)
Definition desired_by_app (load : RecentLoad.t) (now : Time) (apps : list ReapApp) : gmap string Z :=
  foldl (λ m a,
           if aMaxConcurrency (base a) <=? 1 then m
           else if aAutoscaleTargetRPS a <=? 0 then m
           else <[rID a := RecentLoad.RecentDesiredReplicas load (rID a) now (aAutoscaleTargetRPS a)]> m)
        ∅ apps.

Definition park_cap : Z := if reaperParkCap <=? 0 then MaxParksPerTickPerApp else reaperParkCap.

(** parkByApp[appID]. *)
Definition parks_of (i2a : gmap string string) (ids : list string) (appID : string) : list string :=
  filter (λ id, bool_decide (i2a !! id = Some appID) && negb (String.eqb appID EmptyString)) ids.

(** The ids one app parks in this tick. *)
Definition capped (ids : list string) : list string :=
  if park_cap <? Z.of_nat (length ids) then take (Z.to_nat park_cap) ids else ids.

Definition aggressive_app (i2a : gmap string string) (ids : list string) (desired : gmap string Z)
    (appID : string) (l : Loop) : M Loop :=
  match parks_of i2a ids appID with
  | [] => ret l
  | mine =>
      let mine := capped mine in
      l <- emitScaleDownAudit appID (zget desired appID) mine l;;
      ok <- park_all mine;;
      match ok with
      | [] => ret l
      | _ => stamp_scale_in appID l
      end
  end.

Fixpoint aggressive_apps (i2a : gmap string string) (ids : list string) (desired : gmap string Z)
    (appIDs : list string) (l : Loop) : M Loop :=
  match appIDs with
  | [] => ret l
  | a :: rest => l <- aggressive_app i2a ids desired a l;; aggressive_apps i2a ids desired rest l
  end.

Definition runReaperAggressive (load : RecentLoad.t) (apps : list ReapApp)
    (snapshot : list Reaper.InstanceInfo) (i2a : gmap string string) (now : Time) (l : Loop)
  : M Loop :=
  let desired := desired_by_app load now apps in
  aggressive_apps i2a (Reaper.ReapAggressive now snapshot desired) desired
    (map_to_list desired).*1 l.

(** ** The tick *)

Definition idle_phase (now : Time) (snapshot : list Reaper.InstanceInfo) (floors : gmap string Z)
    (l : Loop) : M Loop :=
  match Reaper.ReapIdle now snapshot with
  | None => λ _, None
  | Some ids =>
      done <- park_all ids;;
      idle_stamps floors
        (elements (list_to_set (omap (λ id, instance_to_app snapshot !! id) done) : gset string)) l
  end.

Definition remember_floors (apps : list ReapApp) (floors : gmap string Z) (l : Loop) : Loop :=
  mkLoop (Some (foldl (λ m a, <[rID a := zget floors (rID a)]> m) (default ∅ (lastFloorByApp l)) apps))
    (scaleIns l) (floorReleased l) (scaleDowns l).

Definition reap_actions (apps : list ReapApp) (snapshot : list Reaper.InstanceInfo)
    (floors : gmap string Z) (l : Loop) : M Loop :=
  now <- reads clock;;
  resident <- reads (λ w, Ledger.ResidentRAM (led w));;
  l <- idle_phase now snapshot floors l;;
  let l := remember_floors apps floors l in
  l <- match recentLoad with
       | Some load => if reaperAggressive
                      then runReaperAggressive load apps snapshot (instance_to_app snapshot) now l
                      else ret l
       | None => ret l
       end;;
  for_each (Reaper.SelectEvictions resident now snapshot) (λ id, Evict id;; ret tt);;
  ret l.

(** [apps] is what ListAppsByNodeID or ListAllApps returns, [None] its error. *)
Definition runReaper (apps : option (list ReapApp)) (l : Loop) : M Loop :=
  match apps with
  | None => ret l
  | Some apps =>
      sf <- build_snapshot apps;;
      reap_actions apps sf.1 sf.2 l
  end.
End loop.

(** ** What every step of the tick keeps *)

Section safety.
Context {cfg : Config} {env : ReapEnv}.
#[local] Abbreviation world := (@Engine.world Ledger.NodeLedger).
#[local] Abbreviation M := (@Engine.M Ledger.NodeLedger).
Implicit Types w : world.

Record safe (w0 w : world) : Prop := {
  safe_keeps : keeps ∅ w0 w;
  safe_keyed : Store.keyed (rows w);
}.

Lemma safe_step w0 w w' : safe w0 w → keeps (locked w) w w' → safe w0 w'.
Proof.
  intros [Hk Hkey] Hk'. rewrite (k_locked _ _ _ Hk) in Hk'. split.
  - by eapply keeps_trans.
  - eapply keyed_kept; [exact Hkey|by eapply k_rows].
Qed.

Lemma safe_faults w0 w l : safe w0 w → safe w0 (set_faults l w).
Proof. intros [? ?]. split; [by apply keeps_faults|done]. Qed.

Lemma wp_safe_Park w0 w polls id : safe w0 w → wp (Park polls id) (λ _ w', safe w0 w') w.
Proof.
  intros Hs. destruct (Hs) as [Hk Hkey]. pose proof (k_locked _ _ _ Hk) as Hl.
  eapply wp_mono; [apply keeps_Park; [apply Hk|]|intros; by eapply safe_step].
  intros ins Hi. rewrite Hl. by split; [|apply Hkey].
Qed.

Lemma wp_safe_Evict w0 w id : safe w0 w → wp (Evict id) (λ _ w', safe w0 w') w.
Proof.
  intros Hs. destruct (Hs) as [Hk Hkey]. pose proof (k_locked _ _ _ Hk) as Hl.
  eapply wp_mono; [apply keeps_Evict; [apply Hk|]|intros; by eapply safe_step].
  intros ins Hi. by rewrite Hl.
Qed.

Lemma wp_safe_park_all w0 ids w : safe w0 w → wp (park_all ids) (λ _ w', safe w0 w') w.
Proof.
  revert w. induction ids as [|id ids IH]; intros w Hs; simpl; [by apply wp_ret|].
  apply wp_bind. eapply wp_mono; [by apply wp_safe_Park|]. intros ok w' Hs'.
  apply wp_bind. eapply wp_mono; [by apply IH|]. intros. by apply wp_ret.
Qed.

Lemma wp_safe_write w0 w (f : bool → Loop) :
  safe w0 w → wp (bind fault (λ b, ret (f b))) (λ _ w', safe w0 w') w.
Proof. intros Hs. apply wp_bind, wp_fault. intros b l. by apply wp_ret, safe_faults. Qed.

Lemma wp_safe_idle_stamps w0 floors apps l w :
  safe w0 w → wp (idle_stamps floors apps l) (λ _ w', safe w0 w') w.
Proof.
  revert w l. induction apps as [|a apps IH]; intros w l Hs; simpl; [by apply wp_ret|].
  apply wp_bind. apply (wp_mono _ (λ _ w', safe w0 w')); [|intros; by apply IH]. unfold idle_stamp. apply wp_bind.
  eapply wp_mono; [by apply wp_safe_write|]. intros l' w' Hs'. simpl.
  repeat case_match; try (by apply wp_ret). by apply wp_safe_write.
Qed.

Lemma wp_safe_aggressive w0 i2a ids d apps l w :
  safe w0 w → wp (aggressive_apps i2a ids d apps l) (λ _ w', safe w0 w') w.
Proof.
  revert w l. induction apps as [|a apps IH]; intros w l Hs; simpl; [by apply wp_ret|].
  apply wp_bind. apply (wp_mono _ (λ _ w', safe w0 w')); [|intros; by apply IH]. unfold aggressive_app.
  case_match; [by apply wp_ret|]. apply wp_bind.
  eapply wp_mono; [apply wp_safe_write; exact Hs|].
  intros l' w' Hs'. apply wp_bind. eapply wp_mono; [apply wp_safe_park_all; exact Hs'|].
  intros ok w'' Hs''. case_match; [by apply wp_ret|by apply wp_safe_write].
Qed.

Lemma wp_safe_evictions w0 ids w :
  safe w0 w → wp (for_each ids (λ id, bind (Evict id) (λ _, ret tt))) (λ _ w', safe w0 w') w.
Proof.
  intros Hs. apply (wp_for_each (safe w0)); [done|]. intros id w' _ Hs'.
  apply wp_bind. eapply wp_mono; [by apply wp_safe_Evict|]. intros. by apply wp_ret.
Qed.

Lemma wp_safe_actions w0 apps snapshot floors l ids w :
  safe w0 w → Reaper.ReapIdle (clock w) snapshot = Some ids →
  wp (reap_actions apps snapshot floors l) (λ _ w', safe w0 w') w.
Proof.
  intros Hs Hi. unfold reap_actions. apply wp_bind, wp_reads, wp_bind, wp_reads, wp_bind.
  unfold idle_phase. rewrite Hi. apply (wp_mono _ (λ _ w', safe w0 w')).
  { apply wp_bind. eapply wp_mono; [by apply wp_safe_park_all|]. intros ? ? H. by apply wp_safe_idle_stamps. }
  intros l1 w1 H1. apply wp_bind, (wp_mono _ (λ _ w', safe w0 w')).
  { destruct recentLoad; [|by apply wp_ret].
    destruct reaperAggressive; [by apply wp_safe_aggressive|by apply wp_ret]. }
  intros l2 w2 H2. apply wp_bind. eapply wp_mono; [by apply wp_safe_evictions|]. intros. by apply wp_ret.
Qed.

(** ** The snapshot *)

(** A snapshot row and the table row, app and plan it was built from. *)
Definition row_of (w : world) (apps : list ReapApp) (i : Reaper.InstanceInfo) : Prop :=
  ∃ a plan ins, a ∈ apps ∧ rows w !! Store.ID ins = Some ins ∧ Store.AppID ins = rID a ∧
                reaperInstanceState (Store.IState ins) = true ∧ i = info_of a plan ins.

Lemma wp_app_rows a w :
  Store.keyed (rows w) →
  wp (app_rows a) (λ l w', (∃ fl, w' = set_faults fl w) ∧ NoDup (Reaper.Instance <$> l) ∧
                           ∀ i, i ∈ l → row_of w [a] i) w.
Proof.
  intros Hk. unfold app_rows. apply wp_bind, wp_readTable. intros acct fl _.
  apply wp_bind, wp_fault. intros b fl'. destruct b.
  - apply wp_ret. split_and!; [by exists fl'; destruct w|constructor|by intros i ?%elem_of_nil].
  - apply wp_bind, wp_reads, wp_ret. split_and!; [by exists fl'; destruct w| |].
    + rewrite <- list_fmap_compose. eapply sublist_NoDup; [|apply (fmap_sublist _), sublist_filter].
      change (NoDup (Store.ID <$> Store.ListInstancesForApp (rows w) (rID a))).
      unfold Store.ListInstancesForApp. rewrite go_sort_perm. by apply Store.rows_nodup.
    + intros i (ins & -> & [Hs Hin]%list_elem_of_filter)%list_elem_of_fmap.
      apply Store.elem_of_ListInstancesForApp in Hin as [Hrow Ha]; [|done].
      exists a, (default EmptyString acct), ins. split_and!; try done; [by left|by apply Is_true_true].
Qed.

Lemma row_of_mono w apps apps' i : apps ⊆ apps' → row_of w apps i → row_of w apps' i.
Proof. intros Hs (a & plan & ins & Ha & H). exists a, plan, ins. split; [by apply Hs|done]. Qed.

Lemma wp_all_rows apps w :
  Store.keyed (rows w) → NoDup (rID <$> apps) →
  wp (all_rows apps) (λ l w', (∃ fl, w' = set_faults fl w) ∧ NoDup (Reaper.Instance <$> l) ∧
                              ∀ i, i ∈ l → row_of w apps i) w.
Proof.
  intros Hk. revert w Hk. induction apps as [|a apps IH]; intros w Hk Hnd; simpl.
  - apply wp_ret. split_and!; [by exists (faults w); destruct w|constructor|by intros i ?%elem_of_nil].
  - apply NoDup_cons in Hnd as [Ha Hnd]. apply wp_bind. eapply wp_mono; [by apply wp_app_rows|].
    intros l1 w1 ([fl ->] & N1 & R1). apply wp_bind. eapply wp_mono; [by apply IH|].
    intros l2 w2 ([fl' ->] & N2 & R2). apply wp_ret. split_and!; [by exists fl'; destruct w| |].
    + rewrite fmap_app. apply NoDup_app. split_and!; [done| |done].
      intros id (i & -> & (a1 & p1 & r1 & H1 & L1 & A1 & _ & ->)%R1)%list_elem_of_fmap
                (i' & E & (a2 & p2 & r2 & H2 & L2 & A2 & _ & ->)%R2)%list_elem_of_fmap. simpl in *.
      apply list_elem_of_singleton in H1 as ->. rewrite E in L1. assert (r1 = r2) as <- by congruence.
      apply Ha. rewrite <- A1, A2. by apply list_elem_of_fmap_2.
    + intros i [Hi|Hi]%elem_of_app.
      * eapply row_of_mono; [|by apply R1]. set_solver.
      * eapply (row_of_mono _ apps); [set_solver|]. by apply R2.
Qed.

Lemma wp_enrich snapshot cache floors w :
  wp (enrich snapshot cache floors) (λ _ w', ∃ fl, w' = set_faults fl w) w.
Proof.
  revert cache floors w. induction snapshot as [|i l IH]; intros cache floors w; simpl.
  - apply wp_ret. by exists (faults w); destruct w.
  - case_match; [apply IH|]. case_match; [apply IH|]. apply wp_bind, wp_readTable. intros row fl _.
    destruct row; (eapply wp_mono; [apply IH|]); intros ? ? [fl' ->]; exists fl'; by destruct w.
Qed.

(** The tick's snapshot meets the selectors' requirements, and each row comes from the table. *)
Lemma wp_build_snapshot apps w :
  Store.keyed (rows w) → NoDup (rID <$> apps) →
  wp (build_snapshot apps)
     (λ sf w', (∃ fl, w' = set_faults fl w) ∧ Reaper.snapshot_ok sf.1 ∧
               ∀ i, i ∈ sf.1 → ∃ i0, row_of w apps i0 ∧ i = restamp sf.2 i0) w.
Proof.
  intros Hk Hnd. unfold build_snapshot. apply wp_bind. eapply wp_mono; [by apply wp_all_rows|].
  intros l w1 ([fl ->] & N & R). apply wp_bind. eapply wp_mono; [apply wp_enrich|].
  intros floors w2 [fl' ->]. apply wp_ret. simpl.
  assert (∀ i, Reaper.Instance (restamp floors i) = Reaper.Instance i ∧
               Reaper.AppID (restamp floors i) = Reaper.AppID i ∧
               Reaper.MinInstances (restamp floors i)
               = Z.max (Reaper.MinInstances i) (zget floors (Reaper.AppID i)) ∧
               Reaper.LastScaleInAt (restamp floors i) = Reaper.LastScaleInAt i ∧
               Reaper.ScaleInCooldownS (restamp floors i) = Reaper.ScaleInCooldownS i) as Hre.
  { intros i. unfold restamp. case_match; breflect; simpl; split_and!; try done; lia. }
  split_and!; [by exists fl'; destruct w| |].
  - split.
    + rewrite <- list_fmap_compose. erewrite list_fmap_ext; [exact N|]. intros ? i _. apply Hre.
    + intros r r' (i & -> & Hi)%list_elem_of_fmap (i' & -> & Hi')%list_elem_of_fmap.
      destruct (Hre i) as (_ & -> & -> & -> & ->), (Hre i') as (_ & -> & -> & -> & ->). intros E.
      destruct (R _ Hi) as (a & p & ins & Ha & _ & Aa & _ & ->).
      destruct (R _ Hi') as (a' & p' & ins' & Ha' & _ & Aa' & _ & ->). simpl in *.
      assert (a = a') as <-; [|by rewrite E].
      apply list_elem_of_lookup in Ha as [j Hj], Ha' as [k Hk'].
      assert (j = k) as ->; [|congruence]. apply (NoDup_lookup _ j k (rID a) Hnd);
        rewrite list_lookup_fmap, ?Hj, ?Hk'; simpl; congruence.
  - intros i (i0 & -> & Hi0)%list_elem_of_fmap. exists i0. split; [by apply R|done].
Qed.

(** The account read of [a], at its turn in the tick that starts in [w], gave no valid plan: the call
    failed, the account is missing, or its plan is not in the plan table. *)
Definition plan_unread (apps : list ReapApp) (w : world) (a : ReapApp) : Prop :=
  ∃ pre post l1 w1 acct w2,
    apps = pre ++ a :: post ∧ all_rows pre w = Some (l1, w1) ∧
    readTable (PlanOf (aAccountID (base a))) w1 = Some (acct, w2) ∧
    LimitsFor (default EmptyString acct) = None.

(** A row whose plan is unknown stems from such a read. *)
Lemma unknown_plan_unread apps w l w' i :
  Store.keyed (rows w) → all_rows apps w = Some (l, w') → i ∈ l → LimitsFor (Reaper.IPlan i) = None →
  ∃ a, plan_unread apps w a ∧ Reaper.AppID i = rID a.
Proof.
  revert w l w'. induction apps as [|a apps IH]; intros w l w' Hk; simpl.
  { intros [= <- _]. by intros ?%elem_of_nil. }
  pose proof (wp_app_rows a w Hk) as Hrows. unfold wp in Hrows.
  unfold bind at 1. destruct (app_rows a w) as [[here w1]|] eqn:E1; [|done].
  destruct Hrows as ([fl ->] & _ & Hof). unfold bind at 1.
  destruct (all_rows apps (set_faults fl w)) as [[rest w2]|] eqn:E2; [|done].
  intros [= <- _] [Hi|Hi]%elem_of_app Hn.
  - assert (Reaper.AppID i = rID a) as Hid.
    { by destruct (Hof i Hi) as (a' & plan & ins & ->%list_elem_of_singleton & _ & Ha & _ & ->). }
    revert E1. unfold app_rows, bind. destruct (readTable _ w) as [[acct w3]|] eqn:Er; [|done].
    destruct (fault w3) as [[[] w4]|]; [| |done]; intros [= <- _]; [by apply elem_of_nil in Hi|].
    apply list_elem_of_fmap in Hi as (r & -> & _). exists a. split; [|done].
    exists [], apps, [], w, acct, w3. by split_and!.
  - destruct (IH (set_faults fl w) _ _ Hk E2 Hi Hn) as (b & (pre & post & l1 & w1 & acct & w3 & -> & Hpre & Hrd) & Hb).
    exists b. split; [|done]. exists (a :: pre), post, (here ++ l1), w1, acct, w3.
    split; [done|]. simpl. split; [|done]. unfold bind. by rewrite E1, Hpre.
Qed.

Lemma snapshot_plan_unread apps w sf w' i :
  Store.keyed (rows w) → build_snapshot apps w = Some (sf, w') → i ∈ sf.1 →
  LimitsFor (Reaper.IPlan i) = None → ∃ a, plan_unread apps w a ∧ Reaper.AppID i = rID a.
Proof.
  intros Hk. unfold build_snapshot, bind. destruct (all_rows apps w) as [[l w1]|] eqn:E; [|done].
  destruct (enrich _ _ _ w1) as [[floors w2]|]; [|done]. intros [= <- _]. simpl.
  intros (i0 & -> & Hi0)%list_elem_of_fmap. unfold restamp.
  destruct (_ <? _); simpl; by apply (unknown_plan_unread apps w l w1 i0).
Qed.

(** C37: a reaper tick is safe under every failure pattern. Whatever calls fail, a tick that returns
    leaves no lock held, keeps the ledger consistent without inventing reservations, creates no VM,
    and every write it commits to the instances table moves each row along at most one edge of the
    state machine. The only way it does not return is a panic on a snapshot row whose plan is
    unknown, and that happens only when the account read of the row's app failed at its turn in this
    very tick, or found no account, or found one with an invalid plan. *)
Theorem reaper_tick_safe apps l w :
  Ledger.inv (led w) → locked w = ∅ → Store.keyed (rows w) → NoDup (rID <$> apps) →
  match runReaper (Some apps) l w with
  | Some (_, w') => keeps ∅ w w' ∧ Store.keyed (rows w')
  | None => ∃ sf w1 i a, build_snapshot apps w = Some (sf, w1) ∧ i ∈ sf.1 ∧
                         LimitsFor (Reaper.IPlan i) = None ∧
                         plan_unread apps w a ∧ Reaper.AppID i = rID a
  end.
Proof.
  intros Hi Hl Hk Hnd. assert (safe w w) as Hs by (split; [rewrite <- Hl; by apply keeps_refl|done]).
  destruct (wp_run _ _ _ (wp_build_snapshot apps w Hk Hnd)) as (sf & w1 & E & [fl ->] & Hok & _).
  unfold runReaper. rewrite (run_bind _ _ _ _ _ E).
  destruct (decide (Exists (λ i, LimitsFor (Reaper.IPlan i) = None) sf.1)) as [Hx|Hx].
  - destruct (reap_actions apps sf.1 sf.2 l (set_faults fl w)) as [[l' w']|] eqn:Er.
    + destruct (Reaper.ReapIdle (clock w) sf.1) as [ids|] eqn:Ei.
      * pose proof (wp_safe_actions w apps sf.1 sf.2 l ids _ (safe_faults _ _ fl Hs) Ei) as Hw.
        unfold wp in Hw. rewrite Er in Hw. by destruct Hw.
      * exfalso. revert Er. unfold reap_actions, idle_phase, bind, reads. simpl. by rewrite Ei.
    + apply Exists_exists in Hx as (i & Hin & Hn).
      destruct (snapshot_plan_unread apps w sf (set_faults fl w) i) as (a & ? & ?); [done..|].
      by exists sf, (set_faults fl w), i, a.
  - destruct (Reaper.ReapIdle_total (clock w) sf.1 Hok) as [ids Ei].
    { intros r Hr _ _ _ Hn. apply Hx, Exists_exists. by exists r. }
    pose proof (wp_safe_actions w apps sf.1 sf.2 l ids _ (safe_faults _ _ fl Hs) Ei) as Hw.
    apply wp_run in Hw as (l' & w' & -> & [? ?]). done.
Qed.
End safety.

(** ** A tick in which no call fails *)

Section effective.
Context {cfg : Config} {env : ReapEnv}.
#[local] Abbreviation world := (@Engine.world Ledger.NodeLedger).
#[local] Abbreviation M := (@Engine.M Ledger.NodeLedger).
Implicit Types w : world.

(** From [w] to [w'] exactly the running instances of [P] were taken down into state [st]. *)
Record took (P : list string) (st : State) (w w' : world) : Prop := {
  tk_hit id ins : id ∈ P → rows w !! id = Some ins → Store.IState ins = StateRunning →
    (∃ ins', rows w' !! id = Some ins' ∧ Store.IState ins' = st) ∧ Ledger.view (led w') !! id = None;
  tk_miss id : id ∉ P ∨ ¬ running id w →
    rows w' !! id = rows w !! id ∧ Ledger.view (led w') !! id = Ledger.view (led w) !! id;
  tk_quiet : Ledger.inv (led w') ∧ locked w' = ∅ ∧ faults w' = [] ∧ Store.keyed (rows w') ∧
             clock w' = clock w;
}.

Record quiet (w : world) : Prop := {
  q_inv : Ledger.inv (led w);
  q_locked : locked w = ∅;
  q_faults : faults w = [];
  q_keyed : Store.keyed (rows w);
}.

Lemma took_none st w : quiet w → took [] st w w.
Proof. intros []. split; [by intros ? ? ?%elem_of_nil|done|done]. Qed.

Lemma took_quiet P st w w' : took P st w w' → quiet w'.
Proof. intros [_ _ (? & ? & ? & ? & _)]. by split. Qed.

#[local] Instance running_dec id w : Decision (running id w).
Proof.
  unfold Decision, running. destruct (rows w !! id) as [ins|] eqn:E.
  - destruct (decide (Store.IState ins = StateRunning)); [left; eauto|right; naive_solver].
  - right. naive_solver.
Defined.

Lemma took_app P P' st w w1 w2 :
  st ≠ StateRunning → took P st w w1 → took P' st w1 w2 → took (P ++ P') st w w2.
Proof.
  intros Hst [H1 M1 Q1] [H2 M2 Q2]. split; [| |destruct Q1 as (_ & _ & _ & _ & <-); tauto].
  - intros id ins Hin Hr Hs. destruct (decide (id ∈ P)) as [Hp|Hp].
    + destruct (H1 id ins Hp Hr Hs) as [(i1 & R1 & S1) V1].
      destruct (M2 id) as [-> ->]; [right; intros (j & Hj & Hjs); congruence|]. eauto.
    + destruct (M1 id (or_introl Hp)) as [R1 V1]. rewrite <- R1 in Hr.
      eapply H2; [set_solver|exact Hr|done].
  - intros id Hm. destruct (M1 id) as [R1 V1]; [destruct Hm as [Hm|Hm]; [left; set_solver|by right]|].
    rewrite <- R1, <- V1. apply M2. destruct Hm as [Hm|Hm]; [left; set_solver|right].
    unfold running in *. by rewrite R1.
Qed.

(** One instance: parked or evicted when running, untouched otherwise. *)
Lemma took_down id st ins w w' :
  quiet w → rows w !! id = Some ins → Store.IState ins = StateRunning →
  taken_down id st ins w w' → took [id] st w w'.
Proof.
  intros [Hi Hl Hf Hk] Hr Hs [(i' & Ri & Si & Ii & _) Ro V I K F C]. split.
  - intros k j ->%list_elem_of_singleton Hj _. split; [eauto|]. rewrite V. apply lookup_delete_eq.
  - intros k Hm. assert (k ≠ id) as Hne.
    { intros ->. destruct Hm as [Hm|Hm]; [apply Hm; by left|]. apply Hm. by exists ins. }
    split; [by apply Ro|]. rewrite V. by apply lookup_delete_ne.
  - split_and!; [done|congruence|congruence| |done]. intros k j Hj. destruct (decide (k = id)) as [->|Hne].
    + rewrite Ri in Hj. injection Hj as <-. rewrite Ii. by apply Hk.
    + rewrite Ro in Hj by done. by apply Hk.
Qed.

Lemma took_skip id st w : quiet w → ¬ running id w → took [id] st w w.
Proof.
  intros [] Hn. split; [|done|done]. intros k ins ->%list_elem_of_singleton Hr Hs. destruct Hn. by exists ins.
Qed.

Lemma run_lockedRunning_skip id ins w :
  quiet w → rows w !! id = Some ins → ¬ running id w → lockedRunning id w = Some (inr None, w).
Proof.
  intros [Hi Hl Hf Hk] Hr Hn. unfold lockedRunning.
  rewrite (run_bind _ _ _ _ _ (run_loadInstance id w Hf)), Hr.
  erewrite run_bind by (unfold lockApp; by rewrite decide_False by (rewrite Hl; set_solver)).
  erewrite run_bind by by apply run_loadInstance. simpl. rewrite Hr.
  unfold State_eqb. rewrite bool_decide_eq_false_2 by (intros ?; apply Hn; by exists ins). cbv [negb].
  erewrite run_bind by (apply (run_unlock _ w); [rewrite Hl; set_solver|done]).
  unfold ret. by destruct w.
Qed.

(** The app of a row is known, so a park can read its warm-snapshot settings. *)
Definition app_known (w : world) (id : string) : Prop :=
  ∃ ins app plan, rows w !! id = Some ins ∧ AppByID (Store.AppID ins) = Some app ∧
                  PlanOf (aAccountID app) = Some plan.

Hypothesis polls_ok : ∀ id, uncancelled (tailPolls id).

Lemma run_park_one id w :
  quiet w → (running id w → app_known w id) → is_Some (rows w !! id) →
  ∃ w', parkFromReaper id w = Some (true, w') ∧ took [id] StateParked w w'.
Proof using polls_ok.
  intros Hq Hknown [ins Hr]. destruct (decide (running id w)) as [Hrun|Hn].
  - destruct (Hknown Hrun) as (ins' & app & plan & Hr' & Ha & Hp). destruct Hrun as (j & Hj & Hs).
    assert (j = ins ∧ ins' = ins) as [-> ->] by (split; congruence). destruct (Hq).
    destruct (run_Park (tailPolls id) id ins app plan w) as (w' & E & Ht & _); try done.
    { by rewrite q_locked0. }
    exists w'. split; [exact E|]. by eapply took_down.
  - exists w. split; [|by apply took_skip]. unfold parkFromReaper, Park.
    by rewrite (run_bind _ _ _ _ _ (run_lockedRunning_skip id ins w Hq Hr Hn)).
Qed.

Lemma run_evict_one id w :
  quiet w → is_Some (rows w !! id) →
  ∃ w', bind (Evict id) (λ _, ret tt) w = Some (tt, w') ∧ took [id] StateStopped w w'.
Proof.
  intros Hq [ins Hr]. destruct (decide (running id w)) as [Hrun|Hn].
  - destruct Hrun as (j & Hj & Hs). assert (j = ins) as -> by congruence. destruct (Hq).
    destruct (run_Evict id ins w) as (w' & E & Ht & _); try done; [by rewrite q_locked0|].
    exists w'. split; [by rewrite (run_bind _ _ _ _ _ E)|]. by eapply took_down.
  - exists w. split; [|by apply took_skip]. unfold Evict.
    erewrite run_bind by (by rewrite (run_bind _ _ _ _ _ (run_lockedRunning_skip id ins w Hq Hr Hn))). done.
Qed.

Definition ready (w : world) (id : string) : Prop :=
  is_Some (rows w !! id) ∧ (running id w → app_known w id).

Lemma ready_took P st w w' id : st ≠ StateRunning → took P st w w' → ready w id → ready w' id.
Proof.
  intros Hst [Hh Hm _] [[ins Hr] Hk].
  destruct (decide (id ∈ P ∧ running id w)) as [[Hp (j & Hj & Hs)]|Hno].
  - destruct (Hh id j Hp Hj Hs) as [(i' & Ri & Si) _]. split; [eauto|].
    intros (k & Hk' & Hks). congruence.
  - destruct (Hm id) as [Er _].
    { destruct (decide (running id w)) as [Hrun|Hn]; [|by right]. left. intros Hp. by apply Hno. }
    split; [by rewrite Er|]. unfold running, app_known in *. by rewrite Er.
Qed.

Lemma run_park_all ids w :
  quiet w → (∀ id, id ∈ ids → ready w id) →
  ∃ w', park_all ids w = Some (ids, w') ∧ took ids StateParked w w'.
Proof using polls_ok.
  revert w. induction ids as [|id ids IH]; intros w Hq Hr; simpl.
  - exists w. split; [done|by apply took_none].
  - destruct (run_park_one id w Hq) as (w1 & E1 & T1); [apply Hr; by left..|].
    destruct (IH w1) as (w2 & E2 & T2); [by eapply took_quiet|..].
    { intros k Hk. eapply ready_took; [|exact T1|apply Hr; by right]. done. }
    exists w2. rewrite (run_bind _ _ _ _ _ E1), (run_bind _ _ _ _ _ E2). split; [done|].
    by eapply (took_app [id] ids).
Qed.

Lemma run_evictions ids w :
  quiet w → (∀ id, id ∈ ids → is_Some (rows w !! id)) →
  ∃ w', for_each ids (λ id, bind (Evict id) (λ _, ret tt)) w = Some (tt, w') ∧
        took ids StateStopped w w'.
Proof.
  revert w. induction ids as [|id ids IH]; intros w Hq Hr; simpl.
  - exists w. split; [done|by apply took_none].
  - destruct (run_evict_one id w Hq) as (w1 & E1 & T1); [apply Hr; by left|].
    destruct (IH w1) as (w2 & E2 & T2); [by eapply took_quiet|..].
    { intros k Hk. destruct (Hr k) as [ins Hi]; [by right|]. destruct (decide (running k w)) as [(j & Hj & Hs)|Hn].
      - destruct (decide (k ∈ [id])) as [Hin|Hin].
        + destruct (tk_hit _ _ _ _ T1 k j Hin Hj Hs) as [(? & -> & _) _]. eauto.
        + destruct (tk_miss _ _ _ _ T1 k) as [-> _]; [by left|]. eauto.
      - destruct (tk_miss _ _ _ _ T1 k) as [-> _]; [by right|]. eauto. }
    exists w2. rewrite (run_bind _ _ _ _ _ E1). split; [done|]. by eapply (took_app [id] ids).
Qed.

(** The stamps and audit rows do not touch the engine's world. *)
Lemma run_write w (f : bool → Loop) : faults w = [] → bind fault (λ b, ret (f b)) w = Some (f false, w).
Proof. intros Hf. by rewrite (run_bind _ _ _ _ _ (run_fault w Hf)). Qed.

Lemma run_idle_stamps floors apps l w :
  faults w = [] → ∃ l', idle_stamps floors apps l w = Some (l', w).
Proof.
  intros Hf. revert l. induction apps as [|a apps IH]; intros l; simpl; [by exists l|].
  assert (∃ l', idle_stamp floors a l w = Some (l', w)) as [l1 E1].
  { unfold idle_stamp. erewrite run_bind by (unfold stamp_scale_in; by apply (run_write w (λ f, if f then _ else _))).
    repeat case_match; try (by eexists). unfold emitFloorReleasedAudit. eexists. by apply (run_write w (λ f, if f then _ else _)). }
  rewrite (run_bind _ _ _ _ _ E1). apply IH.
Qed.

(** The ids the aggressive branch parks for a list of apps. *)
Definition aggressive_ids (i2a : gmap string string) (ids : list string) (appIDs : list string)
  : list string := appIDs ≫= λ a, capped (parks_of i2a ids a).

Lemma run_aggressive i2a ids d apps l w :
  quiet w → (∀ id, id ∈ ids → ready w id) →
  ∃ l' w', aggressive_apps i2a ids d apps l w = Some (l', w') ∧
           took (aggressive_ids i2a ids apps) StateParked w w'.
Proof using polls_ok.
  revert w l. induction apps as [|a apps IH]; intros w l Hq Hr; simpl.
  { exists l, w. split; [done|by apply took_none]. }
  assert (∃ l' w', aggressive_app i2a ids d a l w = Some (l', w') ∧
                   took (capped (parks_of i2a ids a)) StateParked w w') as (l1 & w1 & E1 & T1).
  { unfold aggressive_app. assert (∀ id, id ∈ capped (parks_of i2a ids a) → ready w id) as Hrd.
    { intros id Hid. apply Hr. assert (id ∈ parks_of i2a ids a) as Hin.
      { unfold capped in Hid. case_match; [|done]. eapply elem_of_take in Hid as (k & Hk & _).
        by eapply list_elem_of_lookup_2. }
      unfold parks_of in Hin. by apply elem_of_filter_bool in Hin as []. }
    destruct (parks_of i2a ids a) as [|x mine] eqn:Ep.
    { exists l, w. split; [done|]. unfold capped. simpl. case_match; [|by apply took_none].
      rewrite take_nil. by apply took_none. }
    rewrite <- Ep in *. destruct (run_park_all (capped (parks_of i2a ids a)) w Hq Hrd) as (w' & E & T).
    erewrite run_bind by (unfold emitScaleDownAudit; apply (run_write w (λ f, if f then _ else _)), Hq).
    rewrite (run_bind _ _ _ _ _ E). pose proof (took_quiet _ _ _ _ T) as [_ _ Hf' _].
    destruct (capped (parks_of i2a ids a)); [by eexists _, w'|].
    eexists _, w'. split; [|done]. by apply (run_write w' (λ f, if f then _ else _)). }
  destruct (IH w1 l1) as (l2 & w2 & E2 & T2); [by eapply took_quiet| |].
  { intros id Hid. eapply ready_took; [|exact T1|by apply Hr]. done. }
  exists l2, w2. rewrite (run_bind _ _ _ _ _ E1). split; [done|].
  unfold aggressive_ids. csimpl. by eapply took_app.
Qed.

(** The snapshot when no read fails. *)
Definition app_infos (w : world) (a : ReapApp) : list Reaper.InstanceInfo :=
  info_of a (default EmptyString (PlanOf (aAccountID (base a)))) <$>
    filter (λ ins, reaperInstanceState (Store.IState ins)) (Store.ListInstancesForApp (rows w) (rID a)).

Lemma run_all_rows apps w :
  faults w = [] → all_rows apps w = Some (apps ≫= app_infos w, w).
Proof.
  intros Hf. induction apps as [|a apps IH]; [done|]. simpl. unfold app_rows.
  erewrite run_bind; [|rewrite (run_bind _ _ _ _ _ (run_readTable _ w Hf)), (run_bind _ _ _ _ _ (run_fault w Hf)); done].
  by rewrite (run_bind _ _ _ _ _ IH).
Qed.

Lemma run_enrich snapshot cache floors w :
  faults w = [] → ∃ floors', enrich snapshot cache floors w = Some (floors', w).
Proof.
  intros Hf. revert cache floors. induction snapshot as [|i l IH]; intros cache floors; simpl; [by eexists|].
  case_match; [apply IH|]. case_match; [apply IH|].
  rewrite (run_bind _ _ _ _ _ (run_readTable _ w Hf)). case_match; apply IH.
Qed.

(** Every app is known, and its account has a valid plan. *)
Definition accounts_ok (apps : list ReapApp) : Prop :=
  ∀ a, a ∈ apps → AppByID (rID a) = Some (base a) ∧
    ∃ plan, PlanOf (aAccountID (base a)) = Some plan ∧ LimitsFor plan ≠ None.

Lemma run_build_snapshot apps w :
  faults w = [] → Store.keyed (rows w) → NoDup (rID <$> apps) → accounts_ok apps →
  ∃ sf, build_snapshot apps w = Some (sf, w) ∧ Reaper.snapshot_ok sf.1 ∧
        (∀ now, Reaper.plans_known now sf.1) ∧
        (∀ id, Reaper.chosen sf.1 id → ready w id ∧ running id w).
Proof.
  intros Hf Hk Hnd Hacc.
  destruct (wp_run _ _ _ (wp_build_snapshot apps w Hk Hnd)) as (sf & w1 & E & [fl ->] & Hok & Hrow).
  destruct (run_enrich (apps ≫= app_infos w) ∅ (foldl (λ m a, <[rID a := app_floor a]> m) ∅ apps) w Hf) as [fls Ef].
  assert (build_snapshot apps w = Some ((restamp fls <$> (apps ≫= app_infos w), fls), w)) as E'.
  { unfold build_snapshot. by rewrite (run_bind _ _ _ _ _ (run_all_rows apps w Hf)), (run_bind _ _ _ _ _ Ef). }
  rewrite E' in E. injection E as <- Ew. simpl in *. eexists. split_and!; [exact E'|exact Hok| |].
  - intros now r (i & -> & (a & Hin & Ha)%list_elem_of_bind)%list_elem_of_fmap _ _ _.
    destruct (Hacc a Ha) as (_ & plan & Hp & Hl).
    apply list_elem_of_fmap in Hin as (ins & -> & _). rewrite Hp.
    unfold restamp. case_match; done.
  - intros id (r & (i0 & (a & plan & ins & Ha & Hr & Happ & _ & ->) & ->)%Hrow & Hid & Hs).
    assert (Store.ID ins = id ∧ Store.IState ins = StateRunning) as [<- Hs'].
    { revert Hid Hs. unfold restamp. case_match; done. }
    destruct (Hacc a Ha) as (Hap & plan' & Hp & _).
    split; [split; [eauto|]|by exists ins]. intros _. exists ins, (base a), plan'. by rewrite Happ.
Qed.

(** The ids one tick parks. *)
Definition tick_parks (apps : list ReapApp) (now : Time) (snap : list Reaper.InstanceInfo)
    (idle : list string) : list string :=
  idle ++ match recentLoad with
          | Some load =>
              if reaperAggressive
              then aggressive_ids (instance_to_app snap)
                     (Reaper.ReapAggressive now snap (desired_by_app load now apps))
                     (map_to_list (desired_by_app load now apps)).*1
              else []
          | None => []
          end.

Lemma run_reap_actions apps snap floors l ids w :
  quiet w → Reaper.snapshot_ok snap → Reaper.plans_known (clock w) snap →
  (∀ id, Reaper.chosen snap id → ready w id) → Reaper.ReapIdle (clock w) snap = Some ids →
  ∃ l' w1 w', reap_actions apps snap floors l w = Some (l', w') ∧
    took (tick_parks apps (clock w) snap ids) StateParked w w1 ∧
    took (Reaper.SelectEvictions (Ledger.ResidentRAM (led w)) (clock w) snap) StateStopped w1 w'.
Proof using polls_ok.
  intros Hq Hok Hpl Hready Hi.
  destruct (run_park_all ids w Hq) as (w1 & E1 & T1).
  { intros id Hid. by eapply Hready, Reaper.ReapIdle_chosen. }
  pose proof (took_quiet _ _ _ _ T1) as Q1.
  assert (∀ id, Reaper.chosen snap id → ready w1 id) as R1
    by (intros id Hc; eapply ready_took; [|exact T1|by apply Hready]; done).
  destruct (run_idle_stamps floors (elements (list_to_set (omap (λ id, instance_to_app snap !! id) ids) : gset string))
    l w1 (q_faults _ Q1)) as [l1 E1'].
  set (l1' := remember_floors apps floors l1).
  assert (∃ l2 w2, (match recentLoad with
                    | Some load => if reaperAggressive
                        then runReaperAggressive load apps snap (instance_to_app snap) (clock w) l1'
                        else ret l1'
                    | None => ret l1'
                    end) w1 = Some (l2, w2) ∧ took (tick_parks apps (clock w) snap ids) StateParked w w2)
    as (l2 & w2 & E2 & T2).
  { unfold tick_parks. destruct recentLoad as [load|]; [|exists l1', w1; by rewrite app_nil_r].
    destruct reaperAggressive; [|exists l1', w1; by rewrite app_nil_r].
    edestruct (run_aggressive (instance_to_app snap)) as (l2 & w2 & E2 & T2); [exact Q1| |].
    2:{ exists l2, w2. split; [exact E2|]. by eapply took_app. }
    intros id Hid. by eapply R1, Reaper.ReapAggressive_chosen. }
  destruct (run_evictions (Reaper.SelectEvictions (Ledger.ResidentRAM (led w)) (clock w) snap) w2)
    as (w3 & E3 & T3); [by eapply took_quiet|..].
  { intros id Hid%Reaper.SelectEvictions_chosen. by destruct (ready_took _ StateParked _ _ id ltac:(done) T2 (Hready id Hid)). }
  exists l2, w2, w3. split_and!; [|done|done]. unfold reap_actions. erewrite run_bind by done.
  erewrite run_bind by done. erewrite run_bind.
  2:{ unfold idle_phase. rewrite Hi, (run_bind _ _ _ _ _ E1). exact E1'. }
  fold l1'. cbv zeta. rewrite (run_bind _ _ _ _ _ E2), (run_bind _ _ _ _ _ E3). done.
Qed.

Lemma tick_parks_chosen apps now snap ids id :
  Reaper.snapshot_ok snap → Reaper.plans_known now snap → Reaper.ReapIdle now snap = Some ids →
  id ∈ tick_parks apps now snap ids → Reaper.chosen snap id.
Proof.
  intros Hok Hpl Hi [Hid|Hid]%elem_of_app; [by eapply Reaper.ReapIdle_chosen|].
  destruct recentLoad as [load|]; [|by apply elem_of_nil in Hid].
  destruct reaperAggressive; [|by apply elem_of_nil in Hid].
  apply list_elem_of_bind in Hid as (a & Hid & _). eapply Reaper.ReapAggressive_chosen; [done|].
  assert (id ∈ parks_of (instance_to_app snap) (Reaper.ReapAggressive now snap (desired_by_app load now apps)) a)
    as [_ Hin]%elem_of_filter_bool; [|exact Hin].
  unfold capped in Hid. case_match; [|done]. apply elem_of_take in Hid as (k & Hk & _).
  by eapply list_elem_of_lookup_2.
Qed.

(** what a tick does when no call fails. It runs to completion; the rows the idle and (capped)
    aggressive selectors chose on the snapshot end PARKED, the remaining rows chosen by the RAM
    selector end STOPPED, both with their reservation given back, and every other row and
    reservation is untouched. *)
Theorem reaper_tick_effective apps l w :
  Ledger.inv (led w) → locked w = ∅ → faults w = [] → Store.keyed (rows w) → NoDup (rID <$> apps) →
  accounts_ok apps →
  ∃ sf ids l' w',
    build_snapshot apps w = Some (sf, w) ∧ Reaper.ReapIdle (clock w) sf.1 = Some ids ∧
    runReaper (Some apps) l w = Some (l', w') ∧ Ledger.inv (led w') ∧ locked w' = ∅ ∧
    let parks := tick_parks apps (clock w) sf.1 ids in
    let evicts := Reaper.SelectEvictions (Ledger.ResidentRAM (led w)) (clock w) sf.1 in
    (∀ id ins, rows w !! id = Some ins → ∃ ins', rows w' !! id = Some ins' ∧
       Store.IState ins' = (if decide (id ∈ parks) then StateParked
                            else if decide (id ∈ evicts) then StateStopped
                            else Store.IState ins)) ∧
    (∀ id, id ∈ parks ++ evicts → Ledger.view (led w') !! id = None) ∧
    (∀ id, id ∉ parks ++ evicts →
       rows w' !! id = rows w !! id ∧ Ledger.view (led w') !! id = Ledger.view (led w) !! id).
Proof using polls_ok.
  intros Hi Hl Hf Hk Hnd Hacc. assert (quiet w) as Hq by by split.
  destruct (run_build_snapshot apps w Hf Hk Hnd Hacc) as (sf & E & Hok & Hpl & Hch).
  destruct (Reaper.ReapIdle_total (clock w) sf.1 Hok (Hpl _)) as [ids Ei].
  destruct (run_reap_actions apps sf.1 sf.2 l ids w Hq Hok (Hpl _)) as (l' & w1 & w' & Er & T1 & T2);
    [intros id Hc; by apply Hch|done|].
  exists sf, ids, l', w'. split; [done|]. split; [done|].
  split; [unfold runReaper; by rewrite (run_bind _ _ _ _ _ E)|].
  destruct (tk_quiet _ _ _ _ T2) as (Hi' & Hl' & _). split; [done|]. split; [done|]. intros parks evicts.
  assert (∀ id, id ∈ parks → running id w) as Hpr by (intros id ?; by eapply Hch, tick_parks_chosen).
  assert (∀ id, id ∈ evicts → running id w) as Her
    by (intros id ?; by eapply Hch, Reaper.SelectEvictions_chosen).
  assert (∀ id, id ∈ parks → (∃ ins', rows w' !! id = Some ins' ∧ Store.IState ins' = StateParked) ∧
                             Ledger.view (led w') !! id = None) as HP.
  { intros id Hid. destruct (Hpr id Hid) as (ins & Hr & Hs).
    destruct (tk_hit _ _ _ _ T1 id ins Hid Hr Hs) as [(i1 & R1 & S1) V1].
    destruct (tk_miss _ _ _ _ T2 id) as [-> ->]; [right; intros (j & Hj & Hjs); congruence|]. eauto. }
  assert (∀ id, id ∉ parks → id ∈ evicts →
            (∃ ins', rows w' !! id = Some ins' ∧ Store.IState ins' = StateStopped) ∧
            Ledger.view (led w') !! id = None) as HE.
  { intros id Hn Hid. destruct (Her id Hid) as (ins & Hr & Hs).
    destruct (tk_miss _ _ _ _ T1 id) as [R1 _]; [by left|]. rewrite <- R1 in Hr.
    by apply (tk_hit _ _ _ _ T2 id ins). }
  assert (∀ id, id ∉ parks ++ evicts → rows w' !! id = rows w !! id ∧
            Ledger.view (led w') !! id = Ledger.view (led w) !! id) as HM.
  { intros id Hn. destruct (tk_miss _ _ _ _ T1 id) as [<- <-]; [left; set_solver|].
    apply (tk_miss _ _ _ _ T2). left. set_solver. }
  split_and!; [|intros id [Hid|Hid]%elem_of_app|done].
  - intros id ins Hr. destruct (decide (id ∈ parks)) as [Hp|Hp]; [by apply HP|].
    destruct (decide (id ∈ evicts)) as [He|He]; [by apply HE|].
    exists ins. by destruct (HM id) as [-> _]; [set_solver|].
  - by apply HP.
  - destruct (decide (id ∈ parks)); [by apply HP|by apply HE].
Qed.
End effective.

(** ** Scenarios and witnesses *)

Module Sample.

Definition the_app (floor : Z) : App :=
  mkApp "a" "acct" 128 4 false false floor None None false 0 0.

Definition reap_app (floor : Z) : ReapApp := mkReapApp (the_app floor) 10 EmptyString None 0 10.

(** A RUNNING row of app "a": when it started and when it last served, in seconds. *)
Definition ins_on (node id : string) (ram started lastReq : Z) : Store.Instance :=
  Store.mkIns id "a" EmptyString StateRunning (EmptyString, EmptyString, 0) ram (started * Second)
    (lastReq * Second) zero_time None node "w" None None EmptyString None 0 0.

Definition ins := ins_on "n1".

Definition table (l : list Store.Instance) : Store.table :=
  list_to_map ((λ i, (Store.ID i, i)) <$> l).

Definition req (id node : string) (ram : Z) : Ledger.Request :=
  Ledger.mkReq id "a" "dep" "pro" ram [] 1 4 Ledger.KindWake node EmptyString EmptyString 0 0.

Definition ledger (l : list Store.Instance) : Ledger.NodeLedger :=
  foldl (λ m i, (Ledger.Admit m (req (Store.ID i) (Store.NodeID i) (Store.RAMMB i))).1) Ledger.NewNodeLedger l.

Definition w0 (l : list Store.Instance) (fs : list bool) : @Engine.world Ledger.NodeLedger :=
  mkWorld (table l) (ledger l) ∅ ∅ [] [] [] ∅ [] [] [] [] ∅ [] fs (100 * Second).

Definition config (floor : Z) : Config := {|
  defaultLocalNodeID := "n1";
  hasSnapshot := λ _, false;
  AppByID := λ _, Some (the_app floor);
  PlanOf := λ _, Some "pro"%string;
  LatestSnapshotForTier := λ _ _, None;
  AppOfDeployment := λ _, Some "a"%string;
  ComputeNodeByID := λ _, None;
|}.

(** With the aggressive branch on, the window was never fed: no scrape has run yet. *)
Definition env (aggressive : bool) : ReapEnv := {|
  deploymentMin := λ _, None;
  flowOpen := λ _, Some 0;
  tailPolls := λ _, [];
  recentLoad := Some (RecentLoad.New true 5 Second);
  reaperAggressive := aggressive;
  reaperParkCap := 0;
|}.

Definition loop0 : Loop := mkLoop None [] [] [].

Definition tick (floor : Z) (aggressive : bool) (w : @Engine.world Ledger.NodeLedger) :=
  @runReaper (config floor) (env aggressive) (Some [reap_app floor]) loop0 w.

Definition states (r : option (Loop * @Engine.world Ledger.NodeLedger)) (ids : list string)
  : option (list (option State)) :=
  (λ lw, (λ id, Store.IState <$> rows lw.2 !! id) <$> ids) <$> r.

Lemma table_keyed l : Store.keyed (table l).
Proof.
  intros id i H%elem_of_list_to_map_2. apply list_elem_of_fmap in H as (j & [= -> ->] & _). done.
Qed.

Definition two : list Store.Instance := [ins "A" 128 0 50; ins "B" 128 0 99].

Lemma two_ok : Ledger.inv (ledger two).
Proof.
  unfold ledger, two. cbn [foldl].
  apply (Ledger.Admit_refines _ _); [|by constructor; vm_compute].
  apply (Ledger.Admit_refines _ _); [apply Ledger.NewNodeLedger_ok|by constructor; vm_compute].
Qed.
End Sample.

(** The account read of the first call fails, so the snapshot has no plan: the tick dies, as the
    theorem allows. *)
Lemma reaper_tick_safe_witness :
  let w := Sample.w0 Sample.two [true] in
  Sample.tick 0 false w = None ∧
  ∃ a, @plan_unread (Sample.config 0) (Sample.env false) [Sample.reap_app 0] w a.
Proof.
  intros w.
  pose proof (@reaper_tick_safe (Sample.config 0) (Sample.env false) [Sample.reap_app 0] Sample.loop0 w
    Sample.two_ok eq_refl (Sample.table_keyed _) (NoDup_singleton _)) as H.
  assert (Sample.tick 0 false w = None) as E by by vm_compute. split; [exact E|].
  unfold Sample.tick in E. rewrite E in H. destruct H as (_ & _ & _ & a & _ & _ & _ & Ha & _).
  exists a. exact Ha.
Defined.

Lemma reaper_tick_effective_witness :
  let w := Sample.w0 Sample.two [] in
  ∃ l' w', Sample.tick 0 false w = Some (l', w') ∧ Ledger.inv (led w') ∧
           Store.IState <$> rows w' !! "A"%string = Some StateParked ∧
           Store.IState <$> rows w' !! "B"%string = Some StateRunning.
Proof.
  intros w. destruct (@reaper_tick_effective (Sample.config 0) (Sample.env false)
    (λ _, Forall_nil_2 _) [Sample.reap_app 0] Sample.loop0 w)
    as (sf & ids & l' & w' & _ & _ & E & Hi & _).
  - apply Sample.two_ok.
  - done.
  - done.
  - apply Sample.table_keyed.
  - apply NoDup_singleton.
  - intros a ->%list_elem_of_singleton. split; [done|]. exists "pro"%string. by split.
  - exists l', w'. split; [exact E|]. split; [exact Hi|].
    assert (Sample.states (Sample.tick 0 false w) ["A"; "B"]%string
            = Some [Some StateParked; Some StateRunning]) as Hs by by vm_compute.
    unfold Sample.states, Sample.tick in Hs. rewrite E in Hs. by injection Hs as -> ->.
Defined.

(** five ways a tick without any failure harms a healthy app. (1) Both park branches select on the
    same snapshot: with a floor of one and two running instances the idle branch parks the one that
    served least recently and the aggressive branch, for which that one is too young, parks the
    other. (2) Resident RAM is read before the parks: "A" (idle, too young to evict) is parked, which
    brings the box far below the threshold, and "B", which served a second ago, is still destroyed.
    (3) A fresh instance whose first request is not recorded yet has the zero LastRequestAt, and the
    idle selector has no minimum age, so it is parked at once. (4) Before the first scrape every app
    looks idle to the aggressive branch: three busy instances are reduced to one. (5) The threshold is
    one box's and the resident total is the fleet's: with two nodes at 42 per cent of their ceiling
    an instance is destroyed. *)
Theorem reaper_tick_hazards :
  let row := (Store.CreateInstance ∅ "A" (99 * Second) "a" EmptyString StateRunning 128 "n1" "w").1 in
  let big := [Sample.ins "A" 20000 80 85; Sample.ins "B" 19500 0 99] in
  let fleet := [Sample.ins_on "n1" "A" 20000 0 99; Sample.ins_on "n2" "B" 20000 0 98] in
  Sample.states (Sample.tick 1 true (Sample.w0 [Sample.ins "A" 128 80 85; Sample.ins "B" 128 0 88] []))
    ["A"; "B"]%string = Some [Some StateParked; Some StateParked] ∧
  (Reaper.EvictionThresholdMB < Ledger.ResidentRAM (Sample.ledger big) ∧
   Ledger.ResidentRAM (Ledger.Release (Sample.ledger big) "A") ≤ Reaper.EvictionThresholdMB ∧
   Sample.states (Sample.tick 0 false (Sample.w0 big [])) ["A"; "B"]%string
   = Some [Some StateParked; Some StateStopped]) ∧
  Sample.states (Sample.tick 0 false (Sample.w0 [row] [])) ["A"]%string = Some [Some StateParked] ∧
  Sample.states (Sample.tick 0 true
    (Sample.w0 [Sample.ins "A" 128 0 99; Sample.ins "B" 128 0 98; Sample.ins "C" 128 0 97] []))
    ["A"; "B"; "C"]%string = Some [Some StateRunning; Some StateParked; Some StateParked] ∧
  (Ledger.ResidentRAMForNode (Sample.ledger fleet) "n1" = 20008 ∧
   Ledger.ResidentRAMForNode (Sample.ledger fleet) "n2" = 20008 ∧
   Sample.states (Sample.tick 0 false (Sample.w0 fleet [])) ["A"; "B"]%string
   = Some [Some StateRunning; Some StateStopped]).
Proof. by vm_compute. Qed.
End ReaperLoop.
