(* ===== verification/Triggers.v ===== *)
(** * pkg/sched/{scaleup,targets,floor}: the autoscaling triggers

    Models the decision functions and ticks of src/pkg/sched/scaleup/trigger.go
    (module [ScaleUp]), src/pkg/sched/targets/trigger.go (module [Targets]) and
    src/pkg/sched/floor/trigger.go (module [Floor]) over the engine of Wake.v and
    the windows of Windows.v.

    A tick is a computation of the engine's world: it reads the ledger, decides
    per app, and calls EnsureWake or AdmitInstanceForDeployment.  A measured
    per-instance value is a rational: the float64 comparison of a quotient of
    counters below 2^52 with an integer target decides the same way.  Metrics,
    log lines and audit rows are left out. *)

From Stdlib Require Import QArith_base.
From S2P Require Import Prelude Api Machine Admission Capacity Placement InstanceStore.
From S2P Require Import Engine Lifecycle Wake Windows.

Import Engine Lifecycle Wake.
#[local] Open Scope engine_scope.
#[local] Open Scope Z_scope.

(** [a > b] on rationals. *)
Definition Qgtb (a b : Q) : bool := negb (Qle_bool a b).

Inductive Outcome :=
| OutcomeAdmit | OutcomeRejectAtCap | OutcomeNoSignal | OutcomeCooldownHeld
| OutcomeFloorMet | OutcomeDisabled | OutcomeAtCapacity | OutcomeRamCeiling | OutcomeBackoffHeld.

(** The app columns the triggers read besides those of [Engine.App]: the autoscale targets and the
    scaling policy's target (metric and value). *)
Record TApp := mkTApp {
  tbase : App;
  tTargetRPS : Z;
  tTargetCPU : Z;
  tPolicyTarget : option (string * Q);
}.

Definition tID (a : TApp) : string := aID (tbase a).

(** ** EnsureWake

    With no flight of the app in progress the caller is the leader and runs Wake; [None] is an
    error.  Concurrent callers are the subject of WakeCoord.v. *)
Definition EnsureWake `{Config} `{WakeEnv} (appID : string) : M (option WakeResult) :=
  res <- Wake EmptyString appID EmptyString;;
  match res with
  | inl _ => ret None
  | inr r => if AtCapacity r then ret None else ret (Some r)
  end.

(** ** scaleup *)

Module ScaleUp.

Record AppStats := mkStats {
  TargetRPS : Z;
  TargetCPU : Z;
  MaxConcurrency : Z;
  Concurrency : Z;
  PerInstanceRPS : Q;
  PerInstanceCPU : Q;
  HaveCPU : bool;
  HaveRPS : bool;
}.

Record Decision := mkDecision { ShouldAdmit : bool; DOutcome : Outcome; Headroom : Z; ObservedRPS : Q }.

Definition decide (s : AppStats) : Decision :=
  let no_signal := mkDecision false OutcomeNoSignal 0 (inject_Z 0) in
  if (TargetRPS s =? 0) && (TargetCPU s =? 0) then no_signal
  else
  let rpsHot := (0 <? TargetRPS s) && HaveRPS s && Qgtb (PerInstanceRPS s) (inject_Z (TargetRPS s)) in
  let cpuHot := (0 <? TargetCPU s) && HaveCPU s && Qgtb (PerInstanceCPU s) (inject_Z (TargetCPU s)) in
  if negb rpsHot && negb cpuHot then no_signal
  else
  let headroom := MaxConcurrency s - Concurrency s in
  if headroom <=? 0 then mkDecision false OutcomeRejectAtCap 0 (inject_Z 0)
  else mkDecision true OutcomeAdmit headroom (PerInstanceRPS s).

(** [rps / float64(conc)] for [conc > 0]. *)
Definition per_instance (rps conc : Z) : Q := Qmake rps (Z.to_pos conc).

Definition stats_of (a : TApp) (l : Ledger.NodeLedger) (scraper : bool) (r : Ring.RingBuffer)
    (now : Time) (cpu : option Q) : AppStats :=
  let conc := Ledger.Concurrency l (tID a) in
  let have := (0 <? conc) && scraper in
  mkStats (tTargetRPS a) (tTargetCPU a) (aMaxConcurrency (tbase a)) conc
    (if have then per_instance (Ring.AppRPS r (tID a) now) conc else inject_Z 0)
    (default (inject_Z 0) cpu) (bool_decide (is_Some cpu)) have.

(** One app of the sweep; [cpu] is MaxCPU ([None] without a sample or a reader). *)
Definition tick_app `{Config} `{WakeEnv} (scraper : bool) (r : Ring.RingBuffer)
    (cpu : string → option Q) (a : TApp) : M unit :=
  if (tTargetRPS a =? 0) && (tTargetCPU a =? 0) then ret tt
  else
  st <- reads (λ w, stats_of a (led w) scraper r (clock w) (cpu (tID a)));;
  if negb (ShouldAdmit (decide st)) then ret tt
  else EnsureWake (tID a);; ret tt.

(** [scrape] is the scraper and its result: [None] when it is not wired, [Some None] its error.
    [apps] is the app list or its error.  The result is the fed window. *)
Definition Tick `{Config} `{WakeEnv} (r : Ring.RingBuffer) (scrape : option (option (gmap string Z)))
    (apps : option (list TApp)) (cpu : string → option Q) : M Ring.RingBuffer :=
  now <- reads clock;;
  let r := match scrape with Some (Some counts) => Ring.Touch r now counts | _ => r end in
  match apps with
  | None => ret r
  | Some apps =>
      for_each apps (tick_app (bool_decide (is_Some scrape)) r cpu);; ret r
  end.
End ScaleUp.

(** ** targets *)

Module Targets.

Record Stats := mkStats {
  TargetValue : Q;
  MaxConcurrency : Z;
  Concurrency : Z;
  PerInstanceInflight : Z;
  HaveInflight : bool;
  LastScaleOutAt : Time;
  ScaleOutCooldownS : Z;
  Now : Time;
}.

Record Decision := mkDecision { ShouldAdmit : bool; DOutcome : Outcome; Headroom : Z; Observed : Z }.

Definition decide (s : Stats) : Decision :=
  if Qeq_bool (TargetValue s) (inject_Z 0) then mkDecision false OutcomeNoSignal 0 0
  else if (0 <? Concurrency s) && negb (LastScaleOutAt s =? zero_time)
          && (time_sub (Now s) (LastScaleOutAt s) <? ScaleOutCooldownS s *! Second)
  then mkDecision false OutcomeCooldownHeld 0 0
  else if negb (HaveInflight s && Qgtb (inject_Z (PerInstanceInflight s)) (TargetValue s))
  then mkDecision false OutcomeNoSignal 0 (PerInstanceInflight s)
  else
  let headroom := MaxConcurrency s - Concurrency s in
  if headroom <=? 0 then mkDecision false OutcomeRejectAtCap 0 (PerInstanceInflight s)
  else mkDecision true OutcomeAdmit headroom (PerInstanceInflight s).

Definition stats_of (a : TApp) (target : Q) (l : Ledger.NodeLedger) (r : Inflight.RingBuffer)
    (now : Time) : Stats :=
  let sample := Inflight.AppMaxInflight r (tID a) now in
  mkStats target (aMaxConcurrency (tbase a)) (Ledger.Concurrency l (tID a)) (default 0 sample)
    (bool_decide (is_Some sample)) (default zero_time (aLastScaleOutAt (tbase a)))
    (default 0 (snd <$> aPolicy (tbase a))) now.

(** [inflight] is MaxInflightForApp. *)
Definition tick_app `{Config} `{WakeEnv} (inflight : string → option Z) (a : TApp)
    (r : Inflight.RingBuffer) : M Inflight.RingBuffer :=
  match tPolicyTarget a with
  | Some (metric, target) =>
      if negb (String.eqb metric "concurrent_requests") then ret r
      else
      now <- reads clock;;
      let r := match inflight (tID a) with
               | Some n => Inflight.Observe r now (tID a) n
               | None => r
               end in
      st <- reads (λ w, stats_of a target (led w) r now);;
      if negb (ShouldAdmit (decide st)) then ret r
      else EnsureWake (tID a);; ret r
  | None => ret r
  end.

Fixpoint tick_apps `{Config} `{WakeEnv} (inflight : string → option Z) (apps : list TApp)
    (r : Inflight.RingBuffer) : M Inflight.RingBuffer :=
  match apps with
  | [] => ret r
  | a :: apps => r <- tick_app inflight a r;; tick_apps inflight apps r
  end.

Definition Tick `{Config} `{WakeEnv} (r : Inflight.RingBuffer) (apps : option (list TApp))
    (inflight : string → option Z) : M Inflight.RingBuffer :=
  match apps with
  | None => ret r
  | Some apps => tick_apps inflight apps r
  end.
End Targets.

(** ** floor *)

Module Floor.

Definition MaxFloorBackoffSeconds : Z := 60.

Record AppStats := mkStats {
  SPlan : string;
  SFloor : Z;
  Concurrency : Z;
  MaxConcurrency : Z;
  Worker : bool;
  LastScaleOutAt : Time;
  ScaleOutCooldownS : Z;
  Now : Time;
  BackoffUntil : Time;
  IsRamCeiling : bool;
}.

(** AdmitNow is set exactly for [OutcomeAdmit]. *)
Definition decide (s : AppStats) : Outcome :=
  if SFloor s <=? 0 then OutcomeDisabled
  else if negb (Plan.MinInstancesAllowed (SPlan s)) then OutcomeDisabled
  else if Worker s then OutcomeDisabled
  else if SFloor s <=? Concurrency s then OutcomeFloorMet
  else if MaxConcurrency s <=? Concurrency s then OutcomeAtCapacity
  else if negb (LastScaleOutAt s =? zero_time) && (0 <? ScaleOutCooldownS s)
          && (time_sub (Now s) (LastScaleOutAt s) <? ScaleOutCooldownS s *! Second)
  then OutcomeCooldownHeld
  else if negb (BackoffUntil s =? zero_time) && (Now s <? BackoffUntil s) then OutcomeBackoffHeld
  else if IsRamCeiling s then OutcomeRamCeiling
  else OutcomeAdmit.

(** *** The per-app backoff *)

Record backoffEntry := mkBackoff { attempts : Z; nextRetryAt : Time }.

Abbreviation backoffs := (gmap string backoffEntry).

Definition peekBackoff (b : backoffs) (app : string) : Time :=
  match b !! app with Some e => nextRetryAt e | None => zero_time end.

Definition recordSuccess (b : backoffs) (app : string) : backoffs := delete app b.

Definition recordFailure (b : backoffs) (app : string) (now : Time) : backoffs :=
  let e := default (mkBackoff 0 zero_time) (b !! app) in
  let attempts := attempts e + 1 in
  let attempts := if 6 <? attempts then 6 else attempts in
  let delay := i64 (Z.shiftl 1 attempts) *! Second in
  let maxDelay := MaxFloorBackoffSeconds * Second in
  let delay := if maxDelay <? delay then maxDelay else delay in
  <[app := mkBackoff attempts (time_add now delay)]> b.

Definition effectiveMaxConcurrency (app : App) (plan : string) : Z :=
  let planMax := default 0 (Limits.MaxConcurrency <$> LimitsFor plan) in
  if (aMaxConcurrency app <=? 0) || (planMax <? aMaxConcurrency app) then planMax
  else aMaxConcurrency app.

Definition scalingOutCooldownS (app : App) : Z := default 0 (snd <$> aPolicy app).

Definition app_floor (app : App) : Z :=
  effectiveMinInstances (Some (aMinInstances app, fst <$> aPolicy app)).

(** A row of the deployment list. *)
Record FDep := mkFDep { fID : string; fApp : string; fMin : Z }.

Section ticks.
Context {cfg : Config} {env : WakeEnv}.

(** The plan resolver: PlanFree when the account cannot be read. *)
Definition resolve_plan (accountID : string) : M string :=
  p <- readTable (PlanOf accountID);; ret (default PlanFree p).

Definition stats_of (key : string) (app : App) (plan : string) (floor conc headroom : Z) (now : Time)
    (b : backoffs) : AppStats :=
  mkStats plan floor conc (effectiveMaxConcurrency app plan) (aWorker app)
    (default zero_time (aLastScaleOutAt app)) (scalingOutCooldownS app) now (peekBackoff b key)
    (headroom <? BillableRAMMB (aRAMMB app)).

(** One deployment of the sweep; [headroom] was read once at its start. *)
Definition tick_dep (now : Time) (headroom : Z) (d : FDep) (b : backoffs) : M backoffs :=
  app <- readTable (AppByID (fApp d));;
  match app with
  | None => ret b
  | Some app =>
      let dFloor := effectiveDeploymentMinInstances (Some (fMin d)) in
      let effective := if app_floor app <? dFloor then dFloor else app_floor app in
      if effective <=? 0 then ret b
      else
      plan <- resolve_plan (aAccountID app);;
      if negb (Plan.MinInstancesAllowed plan) then ret b
      else if aWorker app then ret b
      else
      conc <- reads (λ w, Ledger.ConcurrencyForDeployment (led w) (fApp d) (fID d));;
      if effective <=? conc then ret b
      else if effectiveMaxConcurrency app plan <=? conc then ret b
      else
      match decide (stats_of (fApp d) app plan effective conc headroom now b) with
      | OutcomeAdmit =>
          res <- AdmitInstanceForDeployment EmptyString (fApp d) (fID d);;
          match res with
          | inl _ => t <- reads clock;; ret (recordFailure b (fApp d) t)
          | inr _ => ret (recordSuccess b (fApp d))
          end
      | _ => ret b
      end
  end.

Fixpoint tick_deps (now : Time) (headroom : Z) (deps : list FDep) (b : backoffs) : M backoffs :=
  match deps with
  | [] => ret b
  | d :: deps => b <- tick_dep now headroom d b;; tick_deps now headroom deps b
  end.

(** [deps] is the deployment list, [None] its error. *)
Definition tickPerDeployment (deps : option (list FDep)) (b : backoffs) : M backoffs :=
  match deps with
  | None => ret b
  | Some deps =>
      now <- reads clock;;
      headroom <- reads (λ w, Ledger.HeadroomMB (led w));;
      tick_deps now headroom deps b
  end.

(** The per-app walk of callers without a deployment store. *)
Definition tick_app (now : Time) (headroom : Z) (app : App) (b : backoffs) : M backoffs :=
  let floor := app_floor app in
  if floor <=? 0 then ret b
  else
  plan <- resolve_plan (aAccountID app);;
  if negb (Plan.MinInstancesAllowed plan) then ret b
  else if aWorker app then ret b
  else
  conc <- reads (λ w, Ledger.Concurrency (led w) (aID app));;
  match decide (stats_of (aID app) app plan floor conc headroom now b) with
  | OutcomeAdmit =>
      res <- EnsureWake (aID app);;
      match res with
      | None => t <- reads clock;; ret (recordFailure b (aID app) t)
      | Some _ => ret (recordSuccess b (aID app))
      end
  | _ => ret b
  end.

Fixpoint tick_all (now : Time) (headroom : Z) (apps : list App) (b : backoffs) : M backoffs :=
  match apps with
  | [] => ret b
  | a :: apps => b <- tick_app now headroom a b;; tick_all now headroom apps b
  end.

Definition tickPerApp (apps : option (list App)) (b : backoffs) : M backoffs :=
  match apps with
  | None => ret b
  | Some apps =>
      now <- reads clock;;
      headroom <- reads (λ w, Ledger.HeadroomMB (led w));;
      tick_all now headroom apps b
  end.
End ticks.
End Floor.

(** ** Scenarios *)

Module TSample.

Definition app : App := mkApp "app" "acct" 128 2 false false 1 None None false 0 0.
Definition tapp : TApp := mkTApp app 10 0 None.

Definition config : Config := {|
  defaultLocalNodeID := "n1";
  hasSnapshot := λ _, false;
  AppByID := λ _, Some app;
  PlanOf := λ _, Some "pro"%string;
  LatestSnapshotForTier := λ _ _, None;
  AppOfDeployment := λ _, Some "app"%string;
  ComputeNodeByID := λ _, None;
|}.

(** One instance of the app is RUNNING and counts in the ledger. *)
Definition busy : world :=
  mkWorld {["i1"%string := Lifecycle.sample_ins StateRunning]} Lifecycle.sample_ledger ∅
    {[("n1", "i1")]}%string [] [] [] ∅ [] [] [] [] ∅ [] [] (100 * Second).

(** A hundred requests a second for five seconds. *)
Definition hot : Ring.RingBuffer :=
  WindowSpec.run_scrapes (Ring.NewRingBuffer 5 Second)
    ((λ i, (i * Second, {["app"%string := 100 * i]})) <$> [95; 96; 97; 98; 99; 100]).

Definition later (d : Duration) (w : world) : world :=
  mkWorld (rows w) (led w) (locked w) (vms w) (audit w) (depsFailed w) (parkedDeps w) (evictedApps w)
    (staleSnaps w) (scaleOuts w) (observedClasses w) (warmRecords w) (leases w) (history w) (faults w)
    (clock w + d).
End TSample.

(** ** The triggers never add an instance to an app that runs *)

Module Triggers.

Section triggers.
Context {cfg : Config} {env : WakeEnv}.
Implicit Types w : world.

Definition has_running (w : world) (app : string) : Prop :=
  ∃ id ins, rows w !! id = Some ins ∧ Store.AppID ins = app ∧ Store.IState ins = StateRunning.

Lemma RunningInstanceForApp_found w app :
  has_running w app → is_Some (Store.RunningInstanceForApp (rows w) app).
Proof.
  intros (id & ins & Hr & Ha & Hs). unfold Store.RunningInstanceForApp.
  assert (ins ∈ (map_to_list (rows w)).*2) as Hin.
  { apply list_elem_of_fmap. exists (id, ins). by rewrite elem_of_map_to_list. }
  set (f := λ newest ins, _). assert (∀ l x, is_Some x → is_Some (foldl f x l)) as Hkeep.
  { induction l as [|y l IH]; intros x Hx; simpl; [done|]. apply IH. unfold f. case_match; [done|].
    destruct x; [case_match; eauto|eauto]. }
  generalize (@None Store.Instance). induction (map_to_list (rows w)).*2 as [|y l IH]; [by apply elem_of_nil in Hin|].
  intros x. simpl. apply elem_of_cons in Hin as [<-|Hin]; [|by apply IH]. apply Hkeep. unfold f.
  rewrite Ha, String.eqb_refl. unfold State_eqb. rewrite Hs, bool_decide_eq_true_2 by done. simpl.
  destruct x; [case_match; eauto|eauto].
Qed.

(** EnsureWake of an app with a running instance returns that instance and changes nothing. *)
Lemma wp_EnsureWake_running app w :
  app ∉ locked w → has_running w app → wp (EnsureWake app) (λ _ w', ∃ fl, w' = set_faults fl w) w.
Proof.
  intros Hl [ins Hi]%RunningInstanceForApp_found. unfold EnsureWake, Wake.
  assert (∀ fl, set_locked (({[app]} ∪ locked w) ∖ {[app]}) (set_faults fl (set_locked ({[app]} ∪ locked w) w))
                = set_faults fl w) as Hback.
  { intros fl. assert (({[app]} ∪ locked w) ∖ {[app]} = locked w) as -> by set_solver. by destruct w. }
  apply wp_bind, wp_bind, wp_lockApp; [done|]. apply wp_bind, wp_fault. intros [] fl.
  - apply wp_bind, wp_unlockApp; [simpl; set_solver|]. apply wp_ret, wp_ret. exists fl. apply Hback.
  - apply wp_bind, wp_reads. cbn [rows set_faults set_locked]. rewrite Hi.
    apply wp_bind, wp_readTable. intros dep fl' _. apply wp_bind, wp_unlockApp; [simpl; set_solver|].
    apply wp_ret, wp_ret. exists fl'. rewrite <- Hback. by destruct w.
Qed.

(** Relative to [w0] only the fault oracle has advanced. *)
Definition same (w0 w : world) : Prop := ∃ fl, w = set_faults fl w0.

Lemma same_refl w : same w w.
Proof. exists (faults w). by destruct w. Qed.

Lemma same_ensure w0 w app :
  locked w0 = ∅ → has_running w0 app → same w0 w → wp (EnsureWake app) (λ _ w', same w0 w') w.
Proof.
  intros Hl Hr [fl ->]. eapply wp_mono; [apply wp_EnsureWake_running; [simpl; by rewrite Hl|done]|].
  intros ? ? [fl' ->]. exists fl'. by destruct w0.
Qed.

Lemma scaleup_same w0 w r scrape apps cpu :
  locked w0 = ∅ → (∀ a, a ∈ apps → has_running w0 (tID a)) → same w0 w →
  wp (ScaleUp.Tick r scrape (Some apps) cpu) (λ _ w', same w0 w') w.
Proof.
  intros Hl Hr Hs. unfold ScaleUp.Tick. apply wp_bind, wp_reads, wp_bind.
  eapply wp_mono; [apply (wp_for_each (same w0)); [done|]|intros; by apply wp_ret].
  intros a w' Ha Hs'. unfold ScaleUp.tick_app. case_match; [by apply wp_ret|].
  apply wp_bind, wp_reads. case_match; [by apply wp_ret|].
  apply wp_bind. eapply wp_mono; [apply same_ensure; [done|by apply Hr|exact Hs']|]. intros. by apply wp_ret.
Qed.

Lemma targets_same w0 w r apps inflight :
  locked w0 = ∅ → (∀ a, a ∈ apps → has_running w0 (tID a)) → same w0 w →
  wp (Targets.Tick r (Some apps) inflight) (λ _ w', same w0 w') w.
Proof.
  intros Hl. simpl. revert r w. induction apps as [|a apps IH]; intros r w Hr Hs; simpl; [by apply wp_ret|].
  apply wp_bind, (wp_mono _ (λ _ w', same w0 w')); [|intros; apply IH; [|done]; intros; apply Hr; by right].
  unfold Targets.tick_app. case_match; [|by apply wp_ret]. case_match. case_match; [by apply wp_ret|].
  apply wp_bind, wp_reads, wp_bind, wp_reads. case_match; [by apply wp_ret|].
  apply wp_bind. eapply wp_mono; [apply same_ensure; [done|apply Hr; by left|exact Hs]|]. intros. by apply wp_ret.
Qed.

Lemma floor_same w0 w apps b :
  locked w0 = ∅ → (∀ a, a ∈ apps → has_running w0 (aID a)) → same w0 w →
  wp (Floor.tickPerApp (Some apps) b) (λ _ w', same w0 w') w.
Proof.
  intros Hl Hr Hs. apply wp_bind, wp_reads, wp_bind, wp_reads.
  generalize (clock w), (Ledger.HeadroomMB (led w)). intros now headroom.
  revert b w Hr Hs. induction apps as [|a apps IH]; intros b w Hr Hs; simpl; [by apply wp_ret|].
  apply wp_bind, (wp_mono _ (λ _ w', same w0 w')); [|intros; apply IH; [|done]; intros; apply Hr; by right].
  unfold Floor.tick_app. case_match; [by apply wp_ret|]. unfold Floor.resolve_plan.
  apply wp_bind, wp_bind, wp_readTable. intros p fl _. apply wp_ret.
  assert (same w0 (set_faults fl w)) as Hs' by (destruct Hs as [fl' ->]; exists fl; by destruct w0).
  case_match; [by apply wp_ret|]. case_match; [by apply wp_ret|]. apply wp_bind, wp_reads.
  case_match; try (by apply wp_ret). apply wp_bind.
  eapply wp_mono; [apply same_ensure; [done|apply Hr; by left|exact Hs']|].
  intros res w' Hw'. case_match; [by apply wp_ret|]. apply wp_bind, wp_reads. by apply wp_ret.
Qed.

(** the reactive triggers never scale out. Whatever the traffic, the CPU and in-flight readings,
    the targets, the floors and the failures, a tick of the scale-up trigger, of the
    concurrent-requests trigger or of the per-app floor trigger over apps that each have a RUNNING
    instance leaves every row, reservation and VM as it was: all three now go through EnsureWake,
    whose Wake answers with the running instance. *)
Theorem triggers_never_scale_out r ir scrape apps cpu inflight b w :
  locked w = ∅ → (∀ a, a ∈ apps → has_running w (tID a)) →
  (∃ r' fl, ScaleUp.Tick r scrape (Some apps) cpu w = Some (r', set_faults fl w)) ∧
  (∃ r' fl, Targets.Tick ir (Some apps) inflight w = Some (r', set_faults fl w)) ∧
  (∃ b' fl, Floor.tickPerApp (Some (tbase <$> apps)) b w = Some (b', set_faults fl w)).
Proof.
  intros Hl Hr. split_and!.
  - destruct (wp_run _ _ _ (scaleup_same w w r scrape apps cpu Hl Hr (same_refl w))) as (x & ? & E & [fl ->]). eauto.
  - destruct (wp_run _ _ _ (targets_same w w ir apps inflight Hl Hr (same_refl w))) as (x & ? & E & [fl ->]). eauto.
  - assert (∀ a, a ∈ tbase <$> apps → has_running w (aID a)) as Hr'
      by (intros ? (a & -> & Ha)%list_elem_of_fmap; by apply Hr).
    destruct (wp_run _ _ _ (floor_same w w _ b Hl Hr' (same_refl w))) as (x & ? & E & [fl ->]). eauto.
Qed.
End triggers.

(** ** The floor trigger's backoff *)

(** [n] consecutive failures of an app, the i-th at time [ts i]. *)
Definition fail_times (app : string) (ts : nat → Time) (n : nat) : Floor.backoffs :=
  foldl (λ b i, Floor.recordFailure b app (ts i)) ∅ (seq 1 n).

Lemma fail_times_S app ts n :
  fail_times app ts (S n) = Floor.recordFailure (fail_times app ts n) app (ts (S n)).
Proof. unfold fail_times. rewrite seq_S, foldl_app. done. Qed.

Lemma fail_times_entry app ts n :
  (0 < n)%nat →
  fail_times app ts n !! app
  = Some (Floor.mkBackoff (Z.min (Z.of_nat n) 6)
            (ts n + Z.min (2 ^ Z.min (Z.of_nat n) 6) Floor.MaxFloorBackoffSeconds * Second)).
Proof.
  induction n as [|n IH]; [lia|]. intros _. rewrite fail_times_S. unfold Floor.recordFailure.
  assert (Floor.attempts (default (Floor.mkBackoff 0 zero_time) (fail_times app ts n !! app))
          = Z.min (Z.of_nat n) 6) as -> by (destruct n; [done|by rewrite IH by lia]).
  set (k := if 6 <? Z.min (Z.of_nat n) 6 + 1 then 6 else Z.min (Z.of_nat n) 6 + 1).
  assert (k = Z.min (Z.of_nat (S n)) 6) as -> by (unfold k; case_match; breflect; lia).
  rewrite lookup_insert_eq. do 2 f_equal. unfold time_add. f_equal.
  assert (∃ j, Z.min (Z.of_nat (S n)) 6 = j ∧ 1 ≤ j ≤ 6) as (j & -> & Hj) by (eexists; split; [done|lia]).
  assert (j = 1 ∨ j = 2 ∨ j = 3 ∨ j = 4 ∨ j = 5 ∨ j = 6) as Hc by lia.
  by destruct Hc as [->|[->|[->|[->|[->| ->]]]]].
Qed.

(** the floor trigger's backoff. After [n] consecutive failed admissions the next probe of the
    app is exactly min(2^min(n,6), 60) seconds after the last one, so it never waits more than a
    minute; until then the decision is BackoffHeld for an app that would otherwise be admitted; other
    apps are not delayed, and one success clears it. *)
Theorem floor_backoff_schedule app ts n s :
  (0 < n)%nat →
  let b := fail_times app ts n in
  let until := ts n + Z.min (2 ^ Z.min (Z.of_nat n) 6) 60 * Second in
  Floor.peekBackoff b app = until ∧ ts n < until ≤ ts n + 60 * Second ∧
  (∀ other, other ≠ app → Floor.peekBackoff b other = zero_time) ∧
  Floor.peekBackoff (Floor.recordSuccess b app) app = zero_time ∧
  (Floor.decide s = OutcomeAdmit → zero_time < until →
   let held t := Floor.mkStats (Floor.SPlan s) (Floor.SFloor s) (Floor.Concurrency s)
                   (Floor.MaxConcurrency s) (Floor.Worker s) (Floor.LastScaleOutAt s)
                   (Floor.ScaleOutCooldownS s) (Floor.Now s) t (Floor.IsRamCeiling s) in
   Floor.decide (held until)
   = if Floor.Now s <? until then OutcomeBackoffHeld else OutcomeAdmit).
Proof.
  intros Hn b until. pose proof (fail_times_entry app ts n Hn) as He. fold b in He.
  assert (1 ≤ 2 ^ Z.min (Z.of_nat n) 6) as Hp by (pose proof (Z.pow_pos_nonneg 2 (Z.min (Z.of_nat n) 6)); lia).
  split_and!.
  - unfold Floor.peekBackoff. by rewrite He.
  - unfold until, Second. lia.
  - unfold until, Second. lia.
  - intros other Ho. unfold Floor.peekBackoff, b. clear -Ho. induction n as [|n IH]; [done|].
    rewrite fail_times_S. unfold Floor.recordFailure. by rewrite lookup_insert_ne.
  - unfold Floor.peekBackoff, Floor.recordSuccess. by rewrite lookup_delete_eq.
  - intros Hd Hz held. unfold held, Floor.decide in *. cbn [Floor.SPlan Floor.SFloor Floor.Concurrency
      Floor.MaxConcurrency Floor.Worker Floor.LastScaleOutAt Floor.ScaleOutCooldownS Floor.Now
      Floor.BackoffUntil Floor.IsRamCeiling].
    rewrite (proj2 (Z.eqb_neq until zero_time)) by lia.
    destruct (Floor.SFloor s <=? 0); [done|]. destruct (negb (Plan.MinInstancesAllowed _)); [done|].
    destruct (Floor.Worker s); [done|]. destruct (Floor.SFloor s <=? _); [done|].
    destruct (Floor.MaxConcurrency s <=? _); [done|]. destruct (_ && _ && _); [done|].
    destruct (_ && _); [done|]. destruct (Floor.IsRamCeiling s); [done|]. done.
Qed.

Lemma floor_backoff_schedule_witness :
  let b := fail_times "a" (λ i, Z.of_nat i * Minute) 3 in
  Floor.peekBackoff b "a" = 3 * Minute + 8 * Second ∧
  Floor.peekBackoff (Floor.recordSuccess b "a") "a" = zero_time.
Proof.
  intros b. destruct (floor_backoff_schedule "a" (λ i, Z.of_nat i * Minute) 3
    (Floor.mkStats PlanPro 1 0 5 false zero_time 0 0 zero_time false) ltac:(lia)) as (E & _ & _ & Hs & _).
  split; [etrans; [exact E|by vm_compute]|exact Hs].
Defined.

(** The trigger decides to admit, the tick adds nothing; AdmitInstance would have added a row. *)
Lemma triggers_never_scale_out_witness :
  let cpu (_ : string) : option Q := None in
  ScaleUp.ShouldAdmit (ScaleUp.decide (ScaleUp.stats_of TSample.tapp (led TSample.busy) true TSample.hot
                                         (clock TSample.busy) None)) = true ∧
  (∃ r' fl, @ScaleUp.Tick TSample.config (sample_env ∅ [] []) TSample.hot (Some (Some ∅))
              (Some [TSample.tapp]) cpu TSample.busy = Some (r', set_faults fl TSample.busy)) ∧
  (∃ r w', @AdmitInstance TSample.config (sample_env ∅ [] []) EmptyString "app" EmptyString TSample.busy
           = Some (inr r, w') ∧ size (rows w') = 2%nat).
Proof.
  intros cpu. split; [by vm_compute|]. split.
  - apply (@triggers_never_scale_out TSample.config (sample_env ∅ [] []) TSample.hot
      (Inflight.NewRingBuffer 5 Second) (Some (Some ∅)) [TSample.tapp] cpu (λ _, None) ∅); [done|].
    intros a ->%list_elem_of_singleton. exists "i1"%string, (Lifecycle.sample_ins StateRunning).
    split_and!; [|done|done]. apply lookup_singleton_eq.
  - eexists _, _. split; [vm_compute; reflexivity|by vm_compute].
Defined.

(** the instances the floor trigger admits never boot. The per-deployment tick reserves capacity
    and writes a COLD_BOOTING row, but no microVM is created; half a minute later the watchdog fails
    the row and marks the healthy deployment as failed to start. *)
Theorem floor_instance_never_boots :
  ∃ b w1 w2,
    @Floor.tickPerDeployment TSample.config (sample_env ∅ [] []) (Some [Floor.mkFDep "dep" "app" 0]) ∅
      (empty_world Ledger.NewNodeLedger []) = Some (b, w1) ∧
    Store.IState <$> rows w1 !! "i9"%string = Some StateColdBooting ∧
    Ledger.Concurrency (led w1) "app" = 1 ∧ vms w1 = ∅ ∧
    @sweepRuns _ _ TSample.config (TSample.later (31 * Second) w1) = Some (tt, w2) ∧
    Store.IState <$> rows w2 !! "i9"%string = Some StateFailed ∧
    depsFailed w2 = [("dep", "app_startup_timeout")]%string.
Proof. eexists _, _, _. split; [by vm_compute|]. by vm_compute. Qed.

(** two units of the trigger arithmetic that do not fit. The scale-up target is compared with the
    requests of the whole five-second window: an app that receives exactly one request per second on
    one instance exceeds a target of four requests per second. And an app with no instance at all
    waits out the scale-out cooldown below its floor, although the floor trigger's comment says
    concurrency is at least one there, while the engine's own gate lets a cold start bypass it. *)
Theorem trigger_unit_hazards :
  let r := WindowSpec.run_scrapes (Ring.NewRingBuffer 5 Second)
             ((λ i, (i * Second, {["app"%string := i]})) <$> [1; 2; 3; 4; 5; 6; 7; 8; 9; 10]) in
  let app := mkApp "app" "acct" 128 2 false false 1 (Some (1, 300)) (Some (90 * Second)) false 0 0 in
  (Ring.AppRPS r "app" (10 * Second) = 5 ∧
   ScaleUp.DOutcome (ScaleUp.decide
     (ScaleUp.stats_of (mkTApp TSample.app 4 0 None) (led TSample.busy) true r (10 * Second) None))
   = OutcomeAdmit) ∧
  Floor.decide (Floor.stats_of "app" app PlanPro 1 0 40000 (100 * Second) ∅) = OutcomeCooldownHeld ∧
  isOnScaleOutCooldown (100 * Second) app 0 = false.
Proof. by vm_compute. Qed.
End Triggers.
