(* ===== verification/Float64.v ===== *)
(** * Go float64 arithmetic on rationals

    The token buckets of the scheduler and of the gateway count in float64.  A finite float64 is a
    rational; an operation is the exact rational result rounded by [round64] to 53 significant bits,
    ties to even, with the subnormal exponent as lower limit.  Results of the modelled code stay far below 2^1024, so
    overflow to infinity does not occur and is not modelled.  The lemmas bound the rounding error and
    show that integers up to 2^53 are exact and that rounding is monotone. *)

From Stdlib Require Export QArith Lqa.
From S2P Require Import Prelude.
#[local] Open Scope Z_scope.

Module Float64.

(** ** Rounding *)

(** The integer nearest to [n/d], ties to even. *)
Definition round_half_even (n d : Z) : Z :=
  let q := n / d in
  let r := n mod d in
  if 2 * r <? d then q else if d <? 2 * r then q + 1 else if Z.even q then q else q + 1.

(** The [k] with [2^k <= |n|/d < 2^(k+1)]. *)
Definition magnitude (n d : Z) : Z :=
  let k := Z.log2 (Z.abs n) - Z.log2 d in
  if (if 0 <=? k then d * 2 ^ k <=? Z.abs n else d <=? Z.abs n * 2 ^ (- k)) then k else k - 1.

Definition ulp_exponent (n d : Z) : Z := Z.max (magnitude n d - 52) (-1074).

Definition round64 (x : Q) : Q :=
  let n := Qnum x in
  let d := Zpos (Qden x) in
  if n =? 0 then 0%Q
  else
    let e := ulp_exponent n d in
    if 0 <=? e then inject_Z (round_half_even n (d * 2 ^ e) * 2 ^ e)
    else Qred (round_half_even (n * 2 ^ (- e)) d # Z.to_pos (2 ^ (- e))).

(** ** The operations the code uses *)

Definition of_int (z : Z) : Q := round64 (inject_Z z).
Definition fadd (x y : Q) : Q := round64 (x + y)%Q.
Definition fsub (x y : Q) : Q := round64 (x - y)%Q.
Definition fmul (x y : Q) : Q := round64 (x * y)%Q.
Definition fdiv (x y : Q) : Q := round64 (x / y)%Q.
Definition fle (x y : Q) : bool := Qle_bool x y.
Definition flt (x y : Q) : bool := negb (Qle_bool y x).

(** time.Duration.Minutes *)
Definition Minutes (d : Duration) : Q :=
  let min := Z.quot d Minute in
  let nsec := Z.rem d Minute in
  fadd (of_int min) (fdiv (of_int nsec) (inject_Z 60000000000)).

(** time.Duration.Seconds *)
Definition Seconds (d : Duration) : Q :=
  let sec := Z.quot d Second in
  let nsec := Z.rem d Second in
  fadd (of_int sec) (fdiv (of_int nsec) (inject_Z 1000000000)).

(** ** Rounding error *)

Lemma round_half_even_error n d : 0 < d → - d ≤ 2 * (round_half_even n d * d - n) ≤ d.
Proof.
  intros Hd. unfold round_half_even.
  pose proof (Z.div_mod n d ltac:(lia)). pose proof (Z.mod_pos_bound n d Hd).
  repeat case_match; breflect; nia.
Qed.

Lemma round_half_even_ge n d m : 0 < d → m * d ≤ n → m ≤ round_half_even n d.
Proof.
  intros Hd Hm. assert (m ≤ n / d) by (apply Z.div_le_lower_bound; lia).
  unfold round_half_even. repeat case_match; lia.
Qed.

Lemma round_half_even_le n d m : 0 < d → n ≤ m * d → round_half_even n d ≤ m.
Proof.
  intros Hd Hm. pose proof (round_half_even_error n d Hd). nia.
Qed.

Lemma magnitude_lower n d :
  0 < n → 0 < d →
  let k := magnitude n d in if 0 <=? k then d * 2 ^ k ≤ n else d ≤ n * 2 ^ (- k).
Proof.
  intros Hn Hd. unfold magnitude. rewrite (Z.abs_eq n) by lia.
  set (k := Z.log2 n - Z.log2 d).
  pose proof (Z.log2_spec n Hn). pose proof (Z.log2_spec d Hd).
  pose proof (Z.log2_nonneg n). pose proof (Z.log2_nonneg d). simpl.
  destruct (if 0 <=? k then _ else _) eqn:E.
  { destruct (0 <=? k); by breflect. }
  destruct (Z.leb_spec 0 (k - 1)).
  - assert (d * 2 ^ (k - 1) ≤ 2 ^ Z.log2 n); [|lia].
    replace (Z.log2 n) with (Z.succ (Z.log2 d) + (k - 1)) by lia.
    rewrite Z.pow_add_r by lia. pose proof (Z.pow_pos_nonneg 2 (k - 1)). nia.
  - assert (2 ^ Z.succ (Z.log2 d) ≤ 2 ^ Z.log2 n * 2 ^ (- (k - 1))).
    { rewrite <- Z.pow_add_r by lia. apply Z.pow_le_mono_r; lia. }
    pose proof (Z.pow_pos_nonneg 2 (- (k - 1))). nia.
Qed.

(** A positive rational is rounded to some [p/q] within half a unit [t] in the last place, and the
    unit is small against the value or against 2^-99. *)
Lemma round64_near n d :
  0 < n →
  ∃ p q t, (round64 (n # d) == p # q)%Q ∧ 0 ≤ p ∧
    - t ≤ 2 * (p * Zpos d - n * Zpos q) ≤ t ∧
    (t * 2 ^ 52 ≤ n * Zpos q ∨ t * 2 ^ 99 ≤ Zpos d * Zpos q).
Proof.
  intros Hn. unfold round64. cbn [Qnum Qden]. destruct (Z.eqb_spec n 0); [lia|].
  pose proof (magnitude_lower n (Zpos d) Hn ltac:(lia)) as Hk. cbv zeta in *.
  unfold ulp_exponent. set (k := magnitude n (Zpos d)) in *.
  destruct (Z.leb_spec 0 (Z.max (k - 52) (-1074))) as [He|He].
  - replace (Z.max (k - 52) (-1074)) with (k - 52) in * by lia. rewrite (proj2 (Z.leb_le 0 k)) in Hk by lia.
    pose proof (Z.pow_pos_nonneg 2 (k - 52)).
    pose proof (round_half_even_error n (Zpos d * 2 ^ (k - 52)) ltac:(lia)).
    pose proof (round_half_even_ge n (Zpos d * 2 ^ (k - 52)) 0 ltac:(lia) ltac:(lia)).
    set (r := round_half_even _ _) in *.
    exists (r * 2 ^ (k - 52)), 1%positive, (Zpos d * 2 ^ (k - 52)). split; [done|].
    split_and!; [nia|nia|nia|]. left. rewrite <- Z.mul_assoc, <- Z.pow_add_r by lia.
    replace (k - 52 + 52) with k by lia. lia.
  - set (e := Z.max (k - 52) (-1074)) in *. pose proof (Z.pow_pos_nonneg 2 (- e)).
    pose proof (round_half_even_error (n * 2 ^ (- e)) (Zpos d) ltac:(lia)).
    pose proof (round_half_even_ge (n * 2 ^ (- e)) (Zpos d) 0 ltac:(lia) ltac:(nia)).
    set (r := round_half_even _ _) in *.
    exists r, (Z.to_pos (2 ^ (- e))), (Zpos d). split; [apply Qred_correct|].
    rewrite Z2Pos.id by lia. split_and!; [lia|lia|lia|].
    destruct (Z.le_gt_cases (-1074) (k - 52)).
    + left. assert (e = k - 52) as He' by (unfold e; lia). clearbody e. subst e.
      destruct (Z.leb_spec 0 k).
      * assert (2 ^ k * 2 ^ (- (k - 52)) = 2 ^ 52) as E
          by (rewrite <- Z.pow_add_r by lia; by replace (k + - (k - 52)) with 52 by lia).
        rewrite <- E, Z.mul_assoc. by apply Z.mul_le_mono_nonneg_r; lia.
      * replace (- (k - 52)) with (- k + 52) by lia. rewrite Z.pow_add_r by lia. lia.
    + right. assert (e = -1074) as He' by (unfold e; lia). clearbody e. subst e.
      change (- (-1074)) with (99 + 975). rewrite Z.pow_add_r by lia. nia.
Qed.

Definition u : Q := 1 # 9007199254740992.                          (* 2^-53 *)
Definition eta : Q := 1 # 1267650600228229401496703205376.         (* 2^-100 *)

Lemma round64_zero x : (x == 0)%Q → round64 x = 0%Q.
Proof. intros Hx. unfold Qeq in Hx. simpl in Hx. unfold round64. by rewrite (proj2 (Z.eqb_eq _ _)) by lia. Qed.

Lemma round64_error x : (0 <= x → 0 <= round64 x ∧ x - x * u - eta <= round64 x <= x + x * u + eta)%Q.
Proof.
  intros Hx. destruct x as [n d]. destruct (Z.eq_dec n 0) as [->|Hn].
  { rewrite (round64_zero (0 # d)) by done. assert ((0 # d) == 0)%Q as -> by done. unfold u, eta. lra. }
  assert (0 < n) as Hp by (unfold Qle in Hx; simpl in Hx; lia).
  destruct (round64_near n d Hp) as (p & q & t & -> & Hp0 & Ht & Hs). unfold u, eta.
  split; [unfold Qle; simpl; lia|]. unfold Qle, Qminus, Qplus, Qopp, Qmult. cbn [Qnum Qden].
  rewrite !Pos2Z.inj_mul. nia.
Qed.

(** ** Integers up to 2^53 are exact, and rounding does not cross them *)

Lemma round64_ge_int x m : 0 ≤ m ≤ 2 ^ 53 → (inject_Z m <= x → inject_Z m <= round64 x)%Q.
Proof.
  intros Hm Hx. destruct x as [n d]. unfold Qle in Hx. simpl in Hx.
  destruct (Z.eq_dec m 0) as [->|]; [apply round64_error; unfold Qle; simpl; lia|].
  assert (0 < n) as Hn by nia. unfold round64. cbn [Qnum Qden]. destruct (Z.eqb_spec n 0); [lia|].
  pose proof (magnitude_lower n (Zpos d) Hn ltac:(lia)) as Hk. cbv zeta in *.
  set (k := magnitude n (Zpos d)) in *. destruct (Z.leb_spec 0 (ulp_exponent n (Zpos d))) as [He|He].
  - assert (ulp_exponent n (Zpos d) = k - 52) as Ee by (unfold ulp_exponent in *; fold k in He |- *; lia).
    rewrite Ee in *. rewrite (proj2 (Z.leb_le 0 k)) in Hk by lia.
    rewrite <- Zle_Qle. destruct (Z.eq_dec k 52) as [Hk2|].
    { rewrite Hk2. change (2 ^ (52 - 52)) with 1. rewrite !Z.mul_1_r. apply round_half_even_ge; lia. }
    assert (2 ^ k = 2 ^ 52 * 2 ^ (k - 52)) as E2 by (rewrite <- Z.pow_add_r by lia; f_equal; lia).
    pose proof (Z.pow_pos_nonneg 2 (k - 53)).
    assert (2 ^ (k - 52) = 2 * 2 ^ (k - 53)) as E3
      by (rewrite <- (Z.pow_succ_r 2 (k - 53)) by lia; f_equal; lia).
    pose proof (round_half_even_ge n (Zpos d * 2 ^ (k - 52)) (2 ^ 52) ltac:(lia) ltac:(lia)). nia.
  - set (e := ulp_exponent n (Zpos d)) in *. pose proof (Z.pow_pos_nonneg 2 (- e)).
    rewrite Qred_correct. unfold Qle. simpl. rewrite Z2Pos.id, Z.mul_1_r by lia.
    apply round_half_even_ge; nia.
Qed.

Lemma round64_le_int x m : 0 ≤ m ≤ 2 ^ 53 → (0 <= x → x <= inject_Z m → round64 x <= inject_Z m)%Q.
Proof.
  intros Hm H0 Hx. destruct x as [n d]. unfold Qle in H0, Hx. simpl in H0, Hx.
  unfold round64. cbn [Qnum Qden]. destruct (Z.eqb_spec n 0); [unfold Qle; simpl; lia|].
  pose proof (magnitude_lower n (Zpos d) ltac:(lia) ltac:(lia)) as Hk. cbv zeta in *.
  set (k := magnitude n (Zpos d)) in *. destruct (Z.leb_spec 0 (ulp_exponent n (Zpos d))) as [He|He].
  - assert (ulp_exponent n (Zpos d) = k - 52) as Ee by (unfold ulp_exponent in *; fold k in He |- *; lia).
    rewrite Ee in *. rewrite (proj2 (Z.leb_le 0 k)) in Hk by lia.
    rewrite <- Zle_Qle. destruct (Z.eq_dec k 52) as [Hk2|].
    { rewrite Hk2. change (2 ^ (52 - 52)) with 1. rewrite !Z.mul_1_r. apply round_half_even_le; lia. }
    assert (m * Zpos d ≤ 2 ^ 53 * Zpos d) by (apply Z.mul_le_mono_nonneg_r; lia).
    assert (k < 54) as Hk3.
    { apply Z.nle_gt. intros ?. assert (2 ^ 54 ≤ 2 ^ k) by (apply Z.pow_le_mono_r; lia).
      assert (Zpos d * 2 ^ 54 ≤ Zpos d * 2 ^ k) by (apply Z.mul_le_mono_nonneg_l; lia).
      lia. }
    assert (k = 53) as Hk4 by lia. rewrite Hk4 in *. change (2 ^ (53 - 52)) with 2.
    pose proof (round_half_even_le n (Zpos d * 2) (2 ^ 52) ltac:(lia) ltac:(lia)). nia.
  - set (e := ulp_exponent n (Zpos d)) in *. pose proof (Z.pow_pos_nonneg 2 (- e)).
    rewrite Qred_correct. unfold Qle. simpl. rewrite Z2Pos.id, Z.mul_1_r by lia.
    apply round_half_even_le; nia.
Qed.

Lemma round64_int x m : 0 ≤ m ≤ 2 ^ 53 → (x == inject_Z m → round64 x == inject_Z m)%Q.
Proof.
  intros Hm Hx. apply Qle_antisym.
  - apply round64_le_int; [done| |by rewrite Hx; apply Qle_refl].
    rewrite Hx. unfold Qle. simpl. lia.
  - apply round64_ge_int; [done|]. rewrite Hx. apply Qle_refl.
Qed.

Lemma of_int_exact m : 0 ≤ m ≤ 2 ^ 53 → (of_int m == inject_Z m)%Q.
Proof. intros Hm. by apply round64_int. Qed.

(** ** Rounding is monotone *)

Lemma round_half_even_mono n1 d1 n2 d2 :
  0 < d1 → 0 < d2 → n1 * d2 ≤ n2 * d1 → round_half_even n1 d1 ≤ round_half_even n2 d2.
Proof.
  intros H1 H2 Hle. pose proof (Z.div_mod n1 d1 ltac:(lia)) as E1. pose proof (Z.div_mod n2 d2 ltac:(lia)) as E2.
  pose proof (Z.mod_pos_bound n1 d1 H1). pose proof (Z.mod_pos_bound n2 d2 H2).
  unfold round_half_even. set (q1 := n1 / d1) in *. set (q2 := n2 / d2) in *.
  set (r1 := n1 mod d1) in *. set (r2 := n2 mod d2) in *. clearbody q1 q2 r1 r2. subst n1 n2.
  assert (r2 * d1 < d2 * d1) by (apply Z.mul_lt_mono_pos_r; lia).
  assert (0 ≤ r1 * d2) by (apply Z.mul_nonneg_nonneg; lia).
  assert (q1 ≤ q2) as Hq.
  { apply Z.nlt_ge. intros Hlt. assert (d1 * d2 * 1 ≤ d1 * d2 * (q1 - q2)) by (apply Z.mul_le_mono_nonneg_l; nia). lia. }
  destruct (Z.eq_dec q1 q2) as [->|]; [|repeat case_match; lia].
  assert (r1 * d2 ≤ r2 * d1) by lia. repeat case_match; breflect; try lia; nia.
Qed.

(** [magnitude] brackets the value. *)
Lemma magnitude_upper n d :
  0 < n → 0 < d →
  let k := magnitude n d + 1 in if 0 <=? k then n < d * 2 ^ k else n * 2 ^ (- k) < d.
Proof.
  intros Hn Hd. unfold magnitude. rewrite (Z.abs_eq n) by lia.
  set (k := Z.log2 n - Z.log2 d).
  pose proof (Z.log2_spec n Hn). pose proof (Z.log2_spec d Hd).
  pose proof (Z.log2_nonneg n). pose proof (Z.log2_nonneg d). simpl.
  destruct (if 0 <=? k then _ else _) eqn:E.
  - destruct (Z.leb_spec 0 (k + 1)).
    + assert (2 ^ Z.succ (Z.log2 n) ≤ 2 ^ Z.log2 d * 2 ^ (k + 1)).
      { rewrite <- Z.pow_add_r by lia. apply Z.pow_le_mono_r; lia. }
      pose proof (Z.pow_pos_nonneg 2 (k + 1)). nia.
    + assert (2 ^ Z.succ (Z.log2 n) * 2 ^ (- (k + 1)) ≤ 2 ^ Z.log2 d).
      { rewrite <- Z.pow_add_r by lia. apply Z.pow_le_mono_r; lia. }
      pose proof (Z.pow_pos_nonneg 2 (- (k + 1))). nia.
  - replace (k - 1 + 1) with k by lia. destruct (0 <=? k); breflect; lia.
Qed.

Lemma round_half_even_scale n d c : 0 < d → 0 < c → round_half_even (n * c) (d * c) = round_half_even n d.
Proof.
  intros Hd Hc. unfold round_half_even. rewrite Z.div_mul_cancel_r, Z.mul_mod_distr_r by lia.
  rewrite !Z.mul_assoc.
  assert ((2 * (n mod d) * c <? d * c) = (2 * (n mod d) <? d)) as ->
    by (apply eq_true_iff_eq; rewrite !Z.ltb_lt; symmetry; by apply Z.mul_lt_mono_pos_r).
  assert ((d * c <? 2 * (n mod d) * c) = (d <? 2 * (n mod d))) as ->
    by (apply eq_true_iff_eq; rewrite !Z.ltb_lt; symmetry; by apply Z.mul_lt_mono_pos_r).
  done.
Qed.

(** A positive value in units of the smallest subnormal, 2^-1074: rounded to a multiple of [2^E], which
    is 53 significant bits unless [E] is zero. *)
Definition min_scale : Z := 2 ^ 1074.

Lemma round64_scaled n d :
  0 < n →
  ∃ E, 0 ≤ E ∧
    (round64 (n # d) == (round_half_even (n * min_scale) (Zpos d * 2 ^ E) * 2 ^ E) # Z.to_pos min_scale)%Q ∧
    (E = 0 ∨ Zpos d * 2 ^ (E + 52) ≤ n * min_scale) ∧ n * min_scale < Zpos d * 2 ^ (E + 53).
Proof.
  intros Hn. pose proof (magnitude_lower n (Zpos d) Hn ltac:(lia)) as Hlo.
  pose proof (magnitude_upper n (Zpos d) Hn ltac:(lia)) as Hhi. cbv zeta in *.
  unfold round64. cbn [Qnum Qden]. destruct (Z.eqb_spec n 0); [lia|].
  unfold ulp_exponent. set (k := magnitude n (Zpos d)) in *. set (e := Z.max (k - 52) (-1074)).
  assert (0 < min_scale) as Hm by (unfold min_scale; apply Z.pow_pos_nonneg; lia).
  exists (e + 1074). split; [lia|]. split_and!.
  - destruct (Z.leb_spec 0 e).
    + assert (2 ^ (e + 1074) = 2 ^ e * min_scale) as -> by (unfold min_scale; apply Z.pow_add_r; lia).
      pose proof (Z.pow_pos_nonneg 2 e). rewrite (Z.mul_assoc (Zpos d)), round_half_even_scale by lia.
      unfold Qeq, inject_Z. cbn [Qnum Qden]. rewrite Z2Pos.id by done. lia.
    + rewrite Qred_correct. pose proof (Z.pow_pos_nonneg 2 (- e)). pose proof (Z.pow_pos_nonneg 2 (e + 1074)).
      assert (min_scale = 2 ^ (- e) * 2 ^ (e + 1074)) as Ems
        by (unfold min_scale; rewrite <- Z.pow_add_r by lia; f_equal; lia).
      rewrite Ems at 1. rewrite (Z.mul_assoc n), round_half_even_scale by lia.
      unfold Qeq. cbn [Qnum Qden]. rewrite !Z2Pos.id by lia. rewrite Ems. lia.
  - destruct (Z.le_gt_cases (k - 52) (-1074)); [left; lia|right].
    replace (e + 1074 + 52) with (k + 1074) by lia. destruct (Z.leb_spec 0 k).
    + rewrite Z.pow_add_r, Z.mul_assoc by lia. apply Z.mul_le_mono_nonneg_r; unfold min_scale in *; lia.
    + assert (min_scale = 2 ^ (- k) * 2 ^ (k + 1074)) as ->
        by (unfold min_scale; rewrite <- Z.pow_add_r by lia; f_equal; lia).
      rewrite Z.mul_assoc. pose proof (Z.pow_pos_nonneg 2 (k + 1074)). apply Z.mul_le_mono_nonneg_r; lia.
  - assert (2 ^ (k + 1075) ≤ 2 ^ (e + 1074 + 53)) as Hp by (apply Z.pow_le_mono_r; lia).
    apply Z.lt_le_trans with (Zpos d * 2 ^ Z.max 0 (k + 1075)); [|apply Z.mul_le_mono_nonneg_l, Z.pow_le_mono_r; lia].
    destruct (Z.leb_spec 0 (k + 1)); [|destruct (Z.le_gt_cases 0 (k + 1075))].
    + replace (Z.max 0 (k + 1075)) with (k + 1 + 1074) by lia. rewrite Z.pow_add_r, Z.mul_assoc by lia.
      apply Z.mul_lt_mono_pos_r; done.
    + assert (min_scale = 2 ^ (- (k + 1)) * 2 ^ (k + 1075)) as ->
        by (unfold min_scale; rewrite <- Z.pow_add_r by lia; f_equal; lia).
      replace (Z.max 0 (k + 1075)) with (k + 1075) by lia. pose proof (Z.pow_pos_nonneg 2 (k + 1075)).
      rewrite Z.mul_assoc. apply Z.mul_lt_mono_pos_r; lia.
    + replace (Z.max 0 (k + 1075)) with 0 by lia. rewrite Z.mul_1_r.
      apply Z.le_lt_trans with (n * 2 ^ (- (k + 1))); [|done].
      apply Z.mul_le_mono_nonneg_l; [lia|]. apply Z.pow_le_mono_r; lia.
Qed.

Lemma round64_mono x y : (0 <= x → x <= y → round64 x <= round64 y)%Q.
Proof.
  intros H0 Hxy. destruct x as [n1 d1], y as [n2 d2].
  destruct (Z.eq_dec n1 0) as [->|Hn1].
  { rewrite (round64_zero (0 # d1)) by done. apply round64_error. by apply Qle_trans with (0 # d1). }
  unfold Qle in H0, Hxy. simpl in H0, Hxy. assert (0 < n1) as Hp1 by lia. assert (0 < n2) as Hp2 by nia.
  destruct (round64_scaled n1 d1 Hp1) as (E1 & HE1 & -> & Hlo1 & Hhi1).
  destruct (round64_scaled n2 d2 Hp2) as (E2 & HE2 & -> & Hlo2 & Hhi2).
  assert (0 < min_scale) as Hm by (unfold min_scale; apply Z.pow_pos_nonneg; lia).
  generalize dependent min_scale. intros m Hlo1 Hhi1 Hlo2 Hhi2 Hm.
  unfold Qle. cbn [Qnum Qden]. apply Z.mul_le_mono_nonneg_r; [lia|].
  assert (n1 * m * Zpos d2 ≤ n2 * m * Zpos d1) as Hle by nia.
  pose proof (Z.pow_pos_nonneg 2 E1). pose proof (Z.pow_pos_nonneg 2 E2).
  destruct (Z.lt_trichotomy E1 E2) as [Hlt|[->|Hgt]].
  - destruct Hlo2 as [?|Hlo2]; [lia|].
    assert (2 ^ (E2 + 52) = 2 ^ (E2 + 52 - E1) * 2 ^ E1) as EP by (rewrite <- Z.pow_add_r by lia; f_equal; lia).
    apply Z.le_trans with (2 ^ (E2 + 52)).
    + rewrite EP. apply Z.mul_le_mono_nonneg_r; [lia|]. apply round_half_even_le; [lia|].
      assert (2 ^ (E1 + 53) ≤ 2 ^ (E2 + 52)) by (apply Z.pow_le_mono_r; lia).
      assert (Zpos d1 * 2 ^ (E1 + 53) ≤ Zpos d1 * 2 ^ (E2 + 52)) by (apply Z.mul_le_mono_nonneg_l; lia). lia.
    + rewrite Z.pow_add_r, Z.mul_comm by lia. apply Z.mul_le_mono_nonneg_r; [lia|].
      apply round_half_even_ge; [lia|]. rewrite Z.pow_add_r in Hlo2 by lia. lia.
  - apply Z.mul_le_mono_nonneg_r; [lia|]. apply round_half_even_mono; nia.
  - destruct Hlo1 as [?|Hlo1]; [lia|].
    assert (2 ^ (E2 + 53) ≤ 2 ^ (E1 + 52)) by (apply Z.pow_le_mono_r; lia).
    assert (Zpos d2 * 2 ^ (E2 + 53) ≤ Zpos d2 * 2 ^ (E1 + 52)) by (apply Z.mul_le_mono_nonneg_l; lia).
    assert (n2 * m * Zpos d1 < Zpos d2 * 2 ^ (E1 + 52) * Zpos d1) by (apply Z.mul_lt_mono_pos_r; lia).
    assert (Zpos d1 * 2 ^ (E1 + 52) * Zpos d2 ≤ n1 * m * Zpos d2) by (apply Z.mul_le_mono_nonneg_r; lia). lia.
Qed.

Lemma round64_comp x y : (0 <= x → x == y → round64 x == round64 y)%Q.
Proof.
  intros H0 Hxy. apply Qle_antisym; apply round64_mono; try done; rewrite <- Hxy; try done; apply Qle_refl.
Qed.

Lemma fadd_mono x y x' y' : (0 <= x → 0 <= y → x <= x' → y <= y' → fadd x y <= fadd x' y')%Q.
Proof. intros. apply round64_mono; lra. Qed.

Lemma fmul_mono x y x' y' : (0 <= x → 0 <= y → x <= x' → y <= y' → fmul x y <= fmul x' y')%Q.
Proof. intros. apply round64_mono; [by apply Qmult_le_0_compat|]. by apply Qmult_le_compat_nonneg. Qed.

Lemma fadd_nonneg x y : (0 <= x → 0 <= y → 0 <= fadd x y)%Q.
Proof. intros. apply round64_error. lra. Qed.

Lemma fmul_nonneg x y : (0 <= x → 0 <= y → 0 <= fmul x y)%Q.
Proof. intros. apply round64_error. by apply Qmult_le_0_compat. Qed.

Lemma fadd_ge_int x y m : 0 ≤ m ≤ 2 ^ 53 → (inject_Z m <= x + y → inject_Z m <= fadd x y)%Q.
Proof. apply round64_ge_int. Qed.

Lemma fadd_comp x y x' y' : (0 <= x + y → x == x' → y == y' → fadd x y == fadd x' y')%Q.
Proof. intros H0 Hx Hy. apply round64_comp; [done|]. by rewrite Hx, Hy. Qed.

Lemma fsub_nonneg x y : (0 <= x - y → 0 <= fsub x y)%Q.
Proof. intros. by apply round64_error. Qed.

Lemma fsub_le_int x y m : 0 ≤ m ≤ 2 ^ 53 → (0 <= x - y → x - y <= inject_Z m → fsub x y <= inject_Z m)%Q.
Proof. apply round64_le_int. Qed.

Lemma fsub_comp x y x' y' : (0 <= x - y → x == x' → y == y' → fsub x y == fsub x' y')%Q.
Proof. intros H0 Hx Hy. apply round64_comp; [done|]. by rewrite Hx, Hy. Qed.

Lemma Seconds_bounds d :
  0 ≤ d < 2 ^ 63 →
  (inject_Z (d / Second) <= Seconds d <= inject_Z (d / Second + 1))%Q.
Proof.
  assert (Second = 1000000000) as HS by done. intros Hd. unfold Seconds. rewrite Z.quot_div_nonneg, Z.rem_mod_nonneg by lia.
  assert (0 ≤ d / Second < 2 ^ 53) as Hs.
  { split; [apply Z.div_pos; lia|]. apply Z.div_lt_upper_bound; lia. }
  pose proof (Z.mod_pos_bound d Second ltac:(lia)) as Hr.
  assert (of_int (d / Second) == inject_Z (d / Second))%Q as Es by (apply of_int_exact; lia).
  assert (of_int (d mod Second) == inject_Z (d mod Second))%Q as Er by (apply of_int_exact; lia).
  assert (0 <= fdiv (of_int (d mod Second)) (inject_Z 1000000000) <= inject_Z 1)%Q as [Hf0 Hf1].
  { assert (0 <= of_int (d mod Second) / inject_Z 1000000000)%Q as H0.
    { apply Qle_shift_div_l; [done|]. rewrite Er, Qmult_0_l. change 0%Q with (inject_Z 0). rewrite <- Zle_Qle. lia. }
    split; [by apply round64_error|]. apply round64_le_int; [lia|done|].
    apply Qle_shift_div_r; [done|]. rewrite Er, <- inject_Z_mult, <- Zle_Qle. lia. }
  split.
  - apply round64_ge_int; [lia|]. rewrite Es. lra.
  - apply round64_le_int; [lia| |].
    + rewrite Es. assert (0 <= inject_Z (d / Second))%Q by (change 0%Q with (inject_Z 0); rewrite <- Zle_Qle; lia). lra.
    + rewrite Es, inject_Z_plus. lra.
Qed.

Lemma Seconds_nonneg d : 0 ≤ d < 2 ^ 63 → (0 <= Seconds d)%Q.
Proof.
  intros Hd. destruct (Seconds_bounds d Hd) as [H _]. eapply Qle_trans; [|exact H].
  change 0%Q with (inject_Z 0). rewrite <- Zle_Qle. apply Z.div_pos; [lia|done].
Qed.

Lemma Seconds_mono d d' : 0 ≤ d → d ≤ d' → d' < 2 ^ 63 → (Seconds d <= Seconds d')%Q.
Proof.
  assert (Second = 1000000000) as HS by done.
  intros H0 Hle Hmax. destruct (Z.eq_dec (d / Second) (d' / Second)) as [Heq|Hne].
  - unfold Seconds. rewrite !Z.quot_div_nonneg, !Z.rem_mod_nonneg, Heq by lia.
    assert (0 ≤ d mod Second ≤ d' mod Second) as Hr.
    { pose proof (Z.div_mod d Second ltac:(lia)). pose proof (Z.div_mod d' Second ltac:(lia)).
      pose proof (Z.mod_pos_bound d Second ltac:(lia)). lia. }
    pose proof (Z.mod_pos_bound d' Second ltac:(lia)).
    assert (0 <= of_int (d mod Second) <= of_int (d' mod Second))%Q as [Ha Hb].
    { rewrite !of_int_exact by (lia). change 0%Q with (inject_Z 0). by rewrite <- !Zle_Qle. }
    assert (0 <= / inject_Z 1000000000)%Q as Hi by done.
    assert (0 ≤ d' / Second) by (apply Z.div_pos; lia).
    apply fadd_mono; [|by apply round64_error, Qmult_le_0_compat|apply Qle_refl|].
    + apply round64_error. change 0%Q with (inject_Z 0). by rewrite <- Zle_Qle.
    + apply round64_mono; [by apply Qmult_le_0_compat|]. by apply Qmult_le_compat_r.
  - assert (d / Second ≤ d' / Second) by (apply Z.div_le_mono; lia).
    destruct (Seconds_bounds d ltac:(lia)) as [_ H1]. destruct (Seconds_bounds d' ltac:(lia)) as [H2 _].
    eapply Qle_trans; [exact H1|]. eapply Qle_trans; [|exact H2]. rewrite <- Zle_Qle. lia.
Qed.
End Float64.
