(* ===== verification/RateLimit.v ===== *)
(** * The wake-rate limiter

    src/pkg/sched/rate_limit.go: the per-app and per-account token buckets that throttle wakes, and
    the check of Engine.admitAndDispatch that consults both ([admit_wake]).  Each method runs under the
    limiter's mutex and is one step; the clock is an argument.  Tokens are float64 ([Float64]), so the
    bounds below hold for the arithmetic the code executes, not for exact rationals.  A bucket map is
    analysed on its own as a sequence of [consume] operations ([run_ops]); the limiter is two such
    maps. *)

From S2P Require Import Prelude Api Float64.
#[local] Open Scope Z_scope.
#[local] Open Scope go_scope.

Module RateLimit.
Import Float64.

Record wakeBucket := mkBucket {
  tokens : Q;
  rpm : Q;
  burst : Q;
  last : Time;
}.

#[local] Abbreviation buckets := (gmap string wakeBucket).

Record WakeRateLimiter := mkLimiter {
  appBuckets : buckets;
  acctBuckets : buckets;
  noop : bool;
}.

Definition NewWakeRateLimiter : WakeRateLimiter := mkLimiter ∅ ∅ false.

(** The bucket as [consume] finds it: created full, or refilled since its last use and capped. *)
Definition refill (now : Time) (b : option wakeBucket) (rpm burst : Q) : wakeBucket :=
  match b with
  | None => mkBucket burst rpm burst now
  | Some b =>
      let t := fadd (tokens b) (fmul (Minutes (time_sub now (last b))) rpm) in
      mkBucket (if flt burst t then burst else t) rpm burst now
  end.

Definition consume (now : Time) (m : buckets) (id : string) (rpm burst : Q) : bool * buckets :=
  let b := refill now (m !! id) rpm burst in
  if fle 1 (tokens b) then (true, <[id := mkBucket (fsub (tokens b) 1) rpm burst now]> m)
  else (false, <[id := b]> m).

Definition AllowWakeApp (now : Time) (l : WakeRateLimiter) (appID plan : string)
  : bool * WakeRateLimiter :=
  if noop l then (true, l)
  else match LimitsFor plan with
       | None => (false, l)
       | Some limits =>
           let burst := Limits.WakeBurstPerApp limits in
           if burst <=? 0 then (false, l)
           else let '(ok, m) := consume now (appBuckets l) appID (of_int burst) (of_int burst) in
                (ok, mkLimiter m (acctBuckets l) (noop l))
       end.

Definition AllowWakeAccount (now : Time) (l : WakeRateLimiter) (accountID plan : string)
  : bool * WakeRateLimiter :=
  if noop l then (true, l)
  else match LimitsFor plan with
       | None => (false, l)
       | Some limits =>
           let burst := Limits.WakeBurstPerAccount limits in
           if burst <=? 0 then (false, l)
           else let '(ok, m) := consume now (acctBuckets l) accountID (of_int burst) (of_int burst) in
                (ok, mkLimiter (appBuckets l) m (noop l))
       end.

Definition ForgetApp (l : WakeRateLimiter) (appID : string) : WakeRateLimiter :=
  mkLimiter (delete appID (appBuckets l)) (acctBuckets l) (noop l).
Definition ForgetAccount (l : WakeRateLimiter) (accountID : string) : WakeRateLimiter :=
  mkLimiter (appBuckets l) (delete accountID (acctBuckets l)) (noop l).
Definition BucketCount (l : WakeRateLimiter) : Z :=
  Z.of_nat (size (appBuckets l)) + Z.of_nat (size (acctBuckets l)).
Definition ForgetAll (l : WakeRateLimiter) : Z * WakeRateLimiter :=
  (BucketCount l, mkLimiter ∅ ∅ (noop l)).

(** The check of admitAndDispatch: the account bucket is asked only when the app bucket agreed. *)
Definition admit_wake (now : Time) (l : WakeRateLimiter) (appID accountID plan : string)
  : bool * WakeRateLimiter :=
  let '(a, l1) := AllowWakeApp now l appID plan in
  if negb a then (false, l1)
  else AllowWakeAccount now l1 accountID plan.

(** ** Runs *)

Record call := mkCall { at_ : Time; cApp : string; cAccount : string; cPlan : string }.

Fixpoint run (l : WakeRateLimiter) (cs : list call) : list (call * bool) * WakeRateLimiter :=
  match cs with
  | [] => ([], l)
  | c :: cs =>
      let '(ok, l1) := admit_wake (at_ c) l (cApp c) (cAccount c) (cPlan c) in
      let '(log, l2) := run l1 cs in ((c, ok) :: log, l2)
  end.

Definition app_burst (plan : string) : Z :=
  match LimitsFor plan with Some lim => Limits.WakeBurstPerApp lim | None => 0 end.
Definition account_burst (plan : string) : Z :=
  match LimitsFor plan with Some lim => Limits.WakeBurstPerAccount lim | None => 0 end.

Definition admitted (P : call → bool) (log : list (call * bool)) : Z :=
  Z.of_nat (length (filter (λ e, P e.1 && e.2 = true) log)).

(** ** One bucket map *)

Record op := mkOp { oAt : Time; oID : string; oBurst : Z }.

Fixpoint run_ops (m : buckets) (os : list op) : list (op * bool) * buckets :=
  match os with
  | [] => ([], m)
  | o :: os =>
      let '(ok, m1) := consume (oAt o) m (oID o) (of_int (oBurst o)) (of_int (oBurst o)) in
      let '(log, m2) := run_ops m1 os in ((o, ok) :: log, m2)
  end.

Definition consumed (id : string) (log : list (op * bool)) : Z :=
  Z.of_nat (length (filter (λ e, String.eqb (oID e.1) id && e.2 = true) log)).

(** ** The refill arithmetic *)

Lemma minutes_bounds d :
  0 ≤ d ≤ max_duration →
  (inject_Z (Z.quot d Minute) <= Minutes d ∧
   Minutes d <= (d # 60000000000) * (1 + (4 # 9007199254740992)) + (4 # 1267650600228229401496703205376))%Q.
Proof.
  intros Hd. unfold max_duration in Hd. unfold Minutes. set (q := Z.quot d Minute). set (r := Z.rem d Minute).
  assert (Minute = 60000000000) as HM by done.
  pose proof (Z.quot_rem' d Minute) as Hqr. fold q r in Hqr. rewrite HM in Hqr.
  assert (0 ≤ r < 60000000000) as Hr by (apply (Z.rem_bound_pos d Minute); lia).
  assert (0 ≤ q ≤ 2 ^ 28) as Hq by lia.
  pose proof (of_int_exact q ltac:(lia)) as Eq. pose proof (of_int_exact r ltac:(lia)) as Er.
  assert (inject_Z 0 <= inject_Z q)%Q as Hq0 by (rewrite <- Zle_Qle; lia).
  assert (inject_Z 0 <= inject_Z r)%Q as Hr0 by (rewrite <- Zle_Qle; lia).
  assert ((d # 60000000000) == inject_Z q + inject_Z r * (1 # 60000000000))%Q as Ed
    by (unfold Qeq; simpl; lia).
  change (inject_Z 0) with 0%Q in *.
  assert (of_int r / inject_Z 60000000000 == inject_Z r * (1 # 60000000000))%Q as Ev
    by (rewrite Er; reflexivity).
  pose proof (round64_error (of_int r / inject_Z 60000000000)%Q ltac:(rewrite Ev; lra)) as (H0 & _ & H1).
  fold (fdiv (of_int r) (inject_Z 60000000000)) in H0, H1. unfold u, eta in H1. rewrite Ev in H1.
  set (v := fdiv _ _) in *.
  pose proof (round64_error (of_int q + v)%Q ltac:(rewrite Eq; lra)) as (_ & _ & H2).
  unfold u, eta in H2. fold (fadd (of_int q) v) in H2.
  assert (inject_Z q <= fadd (of_int q) v)%Q by (apply round64_ge_int; [lia|]; rewrite Eq; lra).
  set (s := fadd _ _) in *. rewrite Eq in H2. split; [done|]. rewrite Ed. lra.
Qed.

Definition delta : Q := 1 # 68719476736.                            (* 2^-36 *)

Lemma refill_capped now ob B :
  0 < B ≤ 256 →
  (∀ b, ob = Some b → 0 <= tokens b ∧ (last b ≤ now)%Z)%Q →
  (0 <= tokens (refill now ob (of_int B) (of_int B)) <= inject_Z B)%Q.
Proof.
  intros HB Hb. pose proof (of_int_exact B ltac:(lia)) as EB.
  assert (inject_Z 0 <= inject_Z B)%Q as HB0 by (rewrite <- Zle_Qle; lia). change (inject_Z 0) with 0%Q in HB0.
  destruct ob as [b|]; simpl; [|rewrite EB; lra]. destruct (Hb b eq_refl) as [Ht Hl].
  enough (0 <= fadd (tokens b) (fmul (Minutes (time_sub now (last b))) (of_int B)))%Q as Hf.
  { set (t := fadd _ _) in *. unfold flt. destruct (Qle_bool _ _) eqn:E; simpl; [|rewrite EB; lra].
    apply Qle_bool_iff in E. rewrite EB in E. lra. }
  assert (0 ≤ time_sub now (last b) ≤ max_duration) as Hd by (unfold time_sub, max_duration, min_duration; lia).
  destruct (minutes_bounds _ Hd) as [Hm _].
  assert (inject_Z 0 <= inject_Z (Z.quot (time_sub now (last b)) Minute))%Q as Hq.
  { rewrite <- Zle_Qle. apply Z.quot_pos; [lia|done]. }
  change (inject_Z 0) with 0%Q in Hq.
  apply round64_error. apply Qle_trans with (tokens b + 0)%Q; [lra|].
  apply Qplus_le_compat; [lra|]. apply round64_error. apply Qmult_le_0_compat; [lra|]. rewrite EB. lra.
Qed.

Lemma refill_gain now b B B' :
  0 < B ≤ 256 → B ≤ B' → (0 <= tokens b <= 256)%Q → last b ≤ now →
  (tokens (refill now (Some b) (of_int B) (of_int B))
   <= tokens b + (now - last b # 60000000000) * inject_Z B' + delta * (1 # 2))%Q.
Proof.
  intros HB HB' Ht Hl. pose proof (of_int_exact B ltac:(lia)) as EB.
  pose proof (refill_capped now (Some b) B HB ltac:(intros ? [= <-]; split; [apply Ht|done])) as [_ Hcap].
  set (dt := time_sub now (last b)).
  assert (0 ≤ dt ≤ max_duration ∧ dt ≤ now - last b) as [Hd HD]
    by (unfold dt, time_sub, max_duration, min_duration; lia).
  destruct (minutes_bounds _ Hd) as [Hm0 Hm].
  assert (inject_Z 0 <= inject_Z (Z.quot dt Minute))%Q as Hq.
  { rewrite <- Zle_Qle. apply Z.quot_pos; [lia|done]. }
  change (inject_Z 0) with 0%Q in Hq.
  assert (1 <= inject_Z B <= 256)%Q as [HB1 HB2].
  { split; [change 1%Q with (inject_Z 1)|change 256%Q with (inject_Z 256)]; rewrite <- Zle_Qle; lia. }
  set (y := ((dt # 60000000000) * inject_Z B)%Q).
  assert (y <= (now - last b # 60000000000) * inject_Z B')%Q as Hy.
  { unfold y, Qle, Qmult. simpl. nia. }
  assert (0 <= y)%Q as Hy0 by (unfold y, Qle, Qmult; simpl; nia).
  enough (tokens (refill now (Some b) (of_int B) (of_int B)) <= tokens b + y + delta * (1 # 2))%Q by lra.
  destruct (Qlt_le_dec y 256) as [Hlt|Hge]; [|unfold delta; lra].
  set (mm := Minutes dt) in *.
  assert (mm * inject_Z B <= y * (1 + (4 # 9007199254740992)) + (1 # 1000000000000000000000))%Q as Hmy.
  { apply Qle_trans with (((dt # 60000000000) * (1 + (4 # 9007199254740992))
      + (4 # 1267650600228229401496703205376)) * inject_Z B)%Q; [by apply Qmult_le_compat_r; lra|].
    unfold y. lra. }
  assert (0 <= mm * inject_Z B)%Q as Hm1 by (apply Qmult_le_0_compat; lra).
  pose proof (round64_error (mm * of_int B)%Q ltac:(rewrite EB; lra)) as (Hf0 & _ & Hf).
  fold (fmul mm (of_int B)) in Hf0, Hf. unfold refill. cbn [tokens]. fold dt mm.
  set (f := fmul _ _) in *. rewrite EB in Hf. unfold u, eta in Hf.
  pose proof (round64_error (tokens b + f)%Q ltac:(lra)) as (_ & _ & Hs).
  fold (fadd (tokens b) f) in Hs. set (t := fadd _ _) in *. unfold u, eta in Hs.
  unfold flt, delta. destruct (Qle_bool _ _) eqn:E; simpl; [lra|].
  apply Bool.not_true_iff_false in E. rewrite Qle_bool_iff in E. apply Qnot_le_lt in E. lra.
Qed.

(** ** Consuming *)

(** Buckets of the plan table's sizes, last used no later than [t]. *)
Definition bucket_ok (t : Time) (b : wakeBucket) : Prop := (0 <= tokens b <= 256)%Q ∧ last b ≤ t.
Definition ok_map (t : Time) (m : buckets) : Prop := map_Forall (λ _, bucket_ok t) m.

Lemma ok_map_mono t t' m : ok_map t m → t ≤ t' → ok_map t' m.
Proof. intros Hm Ht. eapply map_Forall_impl; [exact Hm|]. intros id b [??]. split; [done|lia]. Qed.

Definition one (ok : bool) : Q := if ok then 1%Q else 0%Q.

(** One [consume]: it writes only the bucket of its id; the tokens left and the one taken come from
    the bucket's ceiling, and from its old balance and the time since its last use. *)
Lemma consume_spec now m id B B' ok m' :
  0 < B ≤ 256 → B ≤ B' → ok_map now m →
  consume now m id (of_int B) (of_int B) = (ok, m') →
  ok_map now m' ∧ (∀ j, j ≠ id → m' !! j = m !! j) ∧
  ∃ b', m' !! id = Some b' ∧ last b' = now ∧
    (tokens b' + one ok <= inject_Z B' + delta)%Q ∧
    ∀ b, m !! id = Some b →
         (tokens b' + one ok <= tokens b + (now - last b # 60000000000) * inject_Z B' + delta)%Q.
Proof.
  intros HB HB' Hm Hc.
  assert (1 <= inject_Z B <= 256 ∧ inject_Z B <= inject_Z B')%Q as [[HB1 HB2] HB3].
  { change 1%Q with (inject_Z 1). change 256%Q with (inject_Z 256). rewrite <- !Zle_Qle. lia. }
  opose proof (refill_capped now (m !! id) B HB _) as Hcap.
  { intros b Hb. apply Hm in Hb as [??]. split; [lra|done]. }
  assert (∀ b, m !! id = Some b →
    (tokens (refill now (m !! id) (of_int B) (of_int B))
     <= tokens b + (now - last b # 60000000000) * inject_Z B' + delta * (1 # 2))%Q) as Hgain.
  { intros b Hb. rewrite Hb. apply refill_gain; try done; by apply Hm in Hb as [??]. }
  unfold consume in Hc. set (r := refill _ _ _ _) in *.
  assert (last r = now) as Hlast by (unfold r, refill; by destruct (m !! id)).
  destruct (fle 1 (tokens r)) eqn:E; injection Hc as <- <-.
  - apply Qle_bool_iff in E.
    pose proof (round64_error (tokens r - 1)%Q ltac:(lra)) as (Hs0 & _ & Hs). fold (fsub (tokens r) 1) in Hs0, Hs.
    set (s := fsub _ _) in *. unfold u, eta, delta in *.
    split_and!.
    + apply map_Forall_insert_2; [|done]. split; [simpl; lra|simpl; lia].
    + intros j Hj. by rewrite lookup_insert_ne.
    + eexists. rewrite lookup_insert_eq. split_and!; [done|done|simpl; lra|].
      intros b Hb. specialize (Hgain b Hb). simpl. lra.
  - unfold delta in *. split_and!.
    + apply map_Forall_insert_2; [|done]. split; [lra|lia].
    + intros j Hj. by rewrite lookup_insert_ne.
    + eexists. rewrite lookup_insert_eq. split_and!; [done|done|simpl; lra|].
      intros b Hb. specialize (Hgain b Hb). simpl. lra.
Qed.

(** ** The number of tokens a run takes *)

Definition in_order (t : Time) (ts : list Time) : Prop := StronglySorted Z.le (t :: ts).

Definition ops_ok (id : string) (B : Z) (os : list op) : Prop :=
  Forall (λ o, 0 < oBurst o ≤ 256 ∧ (oID o = id → oBurst o ≤ B)) os.

Lemma consumed_cons id o ok log :
  consumed id ((o, ok) :: log) = (if String.eqb (oID o) id && ok then 1 else 0) + consumed id log.
Proof.
  unfold consumed. rewrite filter_cons. cbn [fst snd]. case_decide as E.
  - rewrite E, length_cons. lia.
  - by rewrite (not_true_is_false _ E).
Qed.

Lemma consumed_consQ id o ok log :
  (inject_Z (consumed id ((o, ok) :: log))
   == one (String.eqb (oID o) id && ok) + inject_Z (consumed id log))%Q.
Proof. rewrite consumed_cons, inject_Z_plus. by destruct (_ && ok). Qed.

(** What a bucket of rate [B] per minute gains in [d] nanoseconds. *)
Definition gain (d B : Z) : Q := ((d # 60000000000) * inject_Z B)%Q.

Lemma gain_nonneg d B : 0 ≤ d → 0 ≤ B → (0 <= gain d B)%Q.
Proof. intros ??. unfold gain, Qle, Qmult. simpl. nia. Qed.

Lemma gain_split a b c B : (gain (c - a) B == gain (c - b) B + gain (b - a) B)%Q.
Proof. unfold gain, Qeq, Qplus, Qmult. simpl. lia. Qed.

Lemma inject_Z_succ n : (inject_Z (Z.of_nat (S n)) == inject_Z (Z.of_nat n) + 1)%Q.
Proof. rewrite Nat2Z.inj_succ. unfold Z.succ. by rewrite inject_Z_plus. Qed.

Lemma take_from_balance id B T os m t b :
  0 ≤ B → ops_ok id B os → in_order t (oAt <$> os) → Forall (λ o, oAt o ≤ T) os → t ≤ T → ok_map t m →
  m !! id = Some b →
  (inject_Z (consumed id (run_ops m os).1)
   <= tokens b + gain (T - last b) B + delta * inject_Z (Z.of_nat (length os)))%Q.
Proof.
  intros HB. revert m t b. induction os as [|o os IH]; intros m t b Hops Hord HT Ht Hm Hb.
  { destruct (Hm _ _ Hb) as [[??] ?]. pose proof (gain_nonneg (T - last b) B ltac:(lia) HB).
    unfold delta.
    change (inject_Z (consumed id (run_ops m []).1)) with 0%Q.
    change (inject_Z (Z.of_nat (length (@nil op)))) with 0%Q. lra. }
  apply Forall_cons in Hops as [[Ho HoB] Hops]. apply Forall_cons in HT as [HTo HT].
  inversion Hord as [|? ? Hord' Hlt]; subst. apply Forall_cons in Hlt as [Hto _]. simpl in Hord'.
  simpl run_ops. destruct (consume _ _ _ _ _) as [ok m1] eqn:Ec.
  pose proof (IH m1 (oAt o)) as IH'. destruct (run_ops m1 os) as [log m2]. cbn [fst] in *.
  rewrite consumed_consQ, length_cons, inject_Z_succ.
  assert (ok_map (oAt o) m) as Hm' by (by eapply ok_map_mono).
  destruct (String.eqb_spec (oID o) id) as [<-|Hne].
  - apply (consume_spec _ _ _ _ B) in Ec as (Hm1 & _ & b' & Hb' & Hl & _ & Hg); [|done|auto|done].
    specialize (Hg b Hb). specialize (IH' b' Hops Hord' HT HTo Hm1 Hb'). rewrite Hl in IH'.
    fold (gain (oAt o - last b) B) in Hg. rewrite (gain_split (last b) (oAt o) T). 
    destruct ok; cbn [andb one] in *; unfold delta in *; lra.
  - apply (consume_spec _ _ _ _ (oBurst o)) in Ec as (Hm1 & Hother & _); [|done|done|done].
    rewrite <- (Hother id) in Hb by done. specialize (IH' b Hops Hord' HT HTo Hm1 Hb).
    cbn [andb one]. unfold delta in *. lra.
Qed.

(** From any balance: at most one ceiling, plus the gain of the elapsed time, plus the rounding. *)
Lemma take_bounded id B T os m t :
  0 ≤ B → ops_ok id B os → in_order t (oAt <$> os) → Forall (λ o, oAt o ≤ T) os → t ≤ T → ok_map t m →
  (inject_Z (consumed id (run_ops m os).1)
   <= inject_Z B + gain (T - t) B + delta * inject_Z (Z.of_nat (length os)))%Q.
Proof.
  intros HB. assert (0 <= inject_Z B)%Q as HB0 by (change 0%Q with (inject_Z 0); by rewrite <- Zle_Qle).
  revert m t. induction os as [|o os IH]; intros m t Hops Hord HT Ht Hm.
  { pose proof (gain_nonneg (T - t) B ltac:(lia) HB). unfold delta.
    change (inject_Z (consumed id (run_ops m []).1)) with 0%Q.
    change (inject_Z (Z.of_nat (length (@nil op)))) with 0%Q. lra. }
  apply Forall_cons in Hops as [[Ho HoB] Hops]. apply Forall_cons in HT as [HTo HT].
  inversion Hord as [|? ? Hord' Hlt]; subst. apply Forall_cons in Hlt as [Hto _]. simpl in Hord'.
  simpl run_ops. destruct (consume _ _ _ _ _) as [ok m1] eqn:Ec.
  assert (ok_map (oAt o) m) as Hm' by (by eapply ok_map_mono).
  pose proof (gain_nonneg (oAt o - t) B ltac:(lia) HB) as Hg0. pose proof (gain_split t (oAt o) T B) as Hgs.
  destruct (String.eqb_spec (oID o) id) as [<-|Hne].
  - apply (consume_spec _ _ _ _ B) in Ec as (Hm1 & _ & b' & Hb' & Hl & Hcap & _); [|done|auto|done].
    pose proof (take_from_balance (oID o) B T os m1 (oAt o) b' HB Hops Hord' HT HTo Hm1 Hb') as Hrest.
    destruct (run_ops m1 os) as [log m2]. cbn [fst] in *. rewrite Hl in Hrest.
    rewrite consumed_consQ, String.eqb_refl, length_cons, inject_Z_succ.
    destruct ok; cbn [andb one] in *; unfold delta in *; lra.
  - apply (consume_spec _ _ _ _ (oBurst o)) in Ec as (Hm1 & _); [|done|done|done].
    pose proof (IH m1 (oAt o) Hops Hord' HT HTo Hm1) as Hrest.
    destruct (run_ops m1 os) as [log m2]. cbn [fst] in *.
    rewrite consumed_consQ, length_cons, inject_Z_succ. apply String.eqb_neq in Hne.
    rewrite Hne. cbn [andb one]. unfold delta in *. lra.
Qed.

(** ** The limiter as two bucket maps *)

Lemma burst_range plan limits :
  LimitsFor plan = Some limits →
  0 < Limits.WakeBurstPerApp limits ≤ 256 ∧ 0 < Limits.WakeBurstPerAccount limits ≤ 256.
Proof.
  unfold LimitsFor, planLimits. intros H. repeat case_match; simplify_eq; simpl; lia.
Qed.

Lemma run_ops_app m os1 os2 :
  run_ops m (os1 ++ os2)
  = ((run_ops m os1).1 ++ (run_ops (run_ops m os1).2 os2).1, (run_ops (run_ops m os1).2 os2).2).
Proof.
  revert m. induction os1 as [|o os IH]; intros m; simpl; [by destruct (run_ops m os2)|].
  destruct (consume _ _ _ _ _) as [ok m1]. rewrite IH. by destruct (run_ops m1 os) as [log m2].
Qed.

Definition op_of (burst : string → Z) (id : call → string) (c : call) : op :=
  mkOp (at_ c) (id c) (burst (cPlan c)).

(** The operations of a run on one of the maps: those of some of its calls, in order. *)
Definition ops_from (burst : string → Z) (id : call → string) (os : list op) (cs : list call) : Prop :=
  ∃ cs', cs' `sublist_of` cs ∧ os = op_of burst id <$> cs' ∧ Forall (λ c, 0 < burst (cPlan c) ≤ 256) cs'.

Definition step_of (burst : string → Z) (id : call → string) (c : call) (ok : bool)
    (m m' : buckets) : Prop :=
  ∃ os, ops_from burst id os [c] ∧ (run_ops m os).2 = m' ∧
        (ok = true → (run_ops m os).1 = [(op_of burst id c, true)]).

Lemma step_none burst id c m : step_of burst id c false m m.
Proof. exists []. split_and!; [|done|done]. exists []. split_and!; [apply sublist_nil_l|done|done]. Qed.

Lemma step_consume burst id c ok m m' :
  0 < burst (cPlan c) ≤ 256 →
  consume (at_ c) m (id c) (of_int (burst (cPlan c))) (of_int (burst (cPlan c))) = (ok, m') →
  step_of burst id c ok m m'.
Proof.
  intros Hb Hc. exists [op_of burst id c]. simpl. rewrite Hc. split_and!; [|done|by intros ->].
  exists [c]. split_and!; [done|done|by apply Forall_singleton].
Qed.

Lemma step_weaken burst id c ok m m' : step_of burst id c ok m m' → step_of burst id c false m m'.
Proof. intros (os & ? & ? & _). by exists os. Qed.

Lemma AllowWakeApp_step l c ok l1 :
  noop l = false → AllowWakeApp (at_ c) l (cApp c) (cPlan c) = (ok, l1) →
  noop l1 = false ∧ acctBuckets l1 = acctBuckets l ∧
  step_of app_burst cApp c ok (appBuckets l) (appBuckets l1).
Proof.
  unfold AllowWakeApp. intros Hn. rewrite Hn. destruct (LimitsFor (cPlan c)) as [lim|] eqn:El.
  2: { intros [= <- <-]. split_and!; [done|done|apply step_none]. }
  pose proof (burst_range _ _ El) as [Hb _]. rewrite (proj2 (Z.leb_gt _ _)) by lia.
  destruct (consume _ _ _ _ _) as [ok' m'] eqn:Ec. intros [= <- <-].
  split_and!; [done|done|]. apply step_consume; unfold app_burst; rewrite El; done.
Qed.

Lemma AllowWakeAccount_step l c ok l1 :
  noop l = false → AllowWakeAccount (at_ c) l (cAccount c) (cPlan c) = (ok, l1) →
  noop l1 = false ∧ appBuckets l1 = appBuckets l ∧
  step_of account_burst cAccount c ok (acctBuckets l) (acctBuckets l1).
Proof.
  unfold AllowWakeAccount. intros Hn. rewrite Hn. destruct (LimitsFor (cPlan c)) as [lim|] eqn:El.
  2: { intros [= <- <-]. split_and!; [done|done|apply step_none]. }
  pose proof (burst_range _ _ El) as [_ Hb]. rewrite (proj2 (Z.leb_gt _ _)) by lia.
  destruct (consume _ _ _ _ _) as [ok' m'] eqn:Ec. intros [= <- <-].
  split_and!; [done|done|]. apply step_consume; unfold account_burst; rewrite El; done.
Qed.

Lemma admit_wake_step l c ok l1 :
  noop l = false → admit_wake (at_ c) l (cApp c) (cAccount c) (cPlan c) = (ok, l1) →
  noop l1 = false ∧ step_of app_burst cApp c ok (appBuckets l) (appBuckets l1) ∧
  step_of account_burst cAccount c ok (acctBuckets l) (acctBuckets l1).
Proof.
  unfold admit_wake. intros Hn. destruct (AllowWakeApp _ _ _ _) as [a l'] eqn:Ea.
  apply AllowWakeApp_step in Ea as (Hn' & Hacct & Hs); [|done]. destruct a; simpl.
  - intros Eb%AllowWakeAccount_step; [|done]. destruct Eb as (? & Happ & Hs'). rewrite Happ, <- Hacct.
    split_and!; [done| |done]. destruct ok; [done|by eapply step_weaken].
  - intros [= <- <-]. rewrite Hacct. split_and!; [done|done|apply step_none].
Qed.

Lemma consumed_app id log1 log2 : consumed id (log1 ++ log2) = consumed id log1 + consumed id log2.
Proof. unfold consumed. rewrite filter_app, length_app. lia. Qed.

Lemma admitted_cons P c ok log :
  admitted P ((c, ok) :: log) = (if P c && ok then 1 else 0) + admitted P log.
Proof.
  unfold admitted. rewrite filter_cons. cbn [fst snd]. case_decide as E.
  - rewrite E, length_cons. lia.
  - by rewrite (not_true_is_false _ E).
Qed.

Lemma run_step l c cs :
  run l (c :: cs) =
  (let '(ok, l1) := admit_wake (at_ c) l (cApp c) (cAccount c) (cPlan c) in
   ((c, ok) :: (run l1 cs).1, (run l1 cs).2)).
Proof. simpl. destruct (admit_wake _ _ _ _ _) as [ok l1]. by destruct (run l1 cs). Qed.

Lemma ops_from_cons burst id os1 os2 c cs :
  ops_from burst id os1 [c] → ops_from burst id os2 cs → ops_from burst id (os1 ++ os2) (c :: cs).
Proof.
  intros (cs1 & Hs1 & -> & Hf1) (cs2 & Hs2 & -> & Hf2). exists (cs1 ++ cs2).
  split_and!; [by apply (sublist_app cs1 [c])|by rewrite fmap_app|by apply Forall_app].
Qed.

Lemma Forall_sub {A} (P : A → Prop) l k : l `sublist_of` k → Forall P k → Forall P l.
Proof. induction 1; [done| |]; intros [??]%Forall_cons; [constructor|]; auto. Qed.

Section project.
Context (burst : string → Z) (id : call → string) (get : WakeRateLimiter → buckets).
Hypothesis Hstep : ∀ l c ok l1,
  noop l = false → admit_wake (at_ c) l (cApp c) (cAccount c) (cPlan c) = (ok, l1) →
  noop l1 = false ∧ step_of burst id c ok (get l) (get l1).

(** A run does to the map what some of its calls do, and admits no more calls of an id than the
    bucket of that id gives tokens. *)
Lemma run_project l cs :
  noop l = false →
  ∃ os, ops_from burst id os cs ∧ noop (run l cs).2 = false ∧
    (run_ops (get l) os).2 = get (run l cs).2 ∧
    ∀ x, admitted (λ c, String.eqb (id c) x) (run l cs).1 ≤ consumed x (run_ops (get l) os).1.
Proof using Hstep.
  revert l. induction cs as [|c cs IH]; intros l Hn.
  { exists []. split_and!; [|done|done|done]. exists []. by split_and!. }
  rewrite run_step. destruct (admit_wake _ _ _ _ _) as [ok l1] eqn:Ea.
  apply Hstep in Ea as (Hn1 & os1 & Hf1 & Hm1 & Hlog1); [|done].
  destruct (IH l1 Hn1) as (os2 & Hf2 & Hn2 & Hm2 & Hle). exists (os1 ++ os2). simpl.
  rewrite run_ops_app, Hm1. simpl. split_and!; [by apply ops_from_cons|done|done|]. intros x.
  rewrite admitted_cons, consumed_app. specialize (Hle x).
  destruct (String.eqb (id c) x && ok) eqn:E; [|unfold consumed in *; lia].
  apply andb_true_iff in E as [Hx ->]. rewrite Hlog1, consumed_cons by done. simpl. rewrite Hx. simpl.
  change (consumed x []) with 0. lia.
Qed.

Lemma ops_from_order os cs t : ops_from burst id os cs → in_order t (at_ <$> cs) → in_order t (oAt <$> os).
Proof using Type.
  clear Hstep. intros (cs' & Hs & -> & _). unfold in_order. rewrite <- list_fmap_compose.
  change (oAt ∘ op_of burst id) with at_.
  intros Hord. inversion Hord as [|? ? Hord' Hlt]; subst. constructor.
  - clear Hlt Hord. induction Hs as [|c cs1 cs2 Hs IH|c cs1 cs2 Hs IH]; [done| |].
    + csimpl in Hord'. inversion Hord' as [|? ? Ho Hl]; subst. csimpl. constructor; [by apply IH|].
      rewrite Forall_fmap in Hl |- *. by eapply Forall_sub.
    + csimpl in Hord'. inversion Hord' as [|? ? Ho Hl]; subst. by apply IH.
  - rewrite Forall_fmap in Hlt |- *. by eapply Forall_sub.
Qed.
End project.

Lemma run_ops_ok id B os m t T :
  ops_ok id B os → in_order t (oAt <$> os) → Forall (λ o, oAt o ≤ T) os → t ≤ T → ok_map t m →
  ok_map T (run_ops m os).2.
Proof.
  revert m t. induction os as [|o os IH]; intros m t Hops Hord HT Ht Hm.
  { by eapply ok_map_mono. }
  apply Forall_cons in Hops as [[Ho HoB] Hops]. apply Forall_cons in HT as [HTo HT].
  inversion Hord as [|? ? Hord' Hlt]; subst. apply Forall_cons in Hlt as [Hto _]. csimpl in Hord'.
  simpl. destruct (consume _ _ _ _ _) as [ok m1] eqn:Ec.
  apply (consume_spec _ _ _ _ (oBurst o)) in Ec as (Hm1 & _); [|done|done|by eapply ok_map_mono].
  pose proof (IH m1 (oAt o) Hops Hord' HT HTo Hm1) as H. by destruct (run_ops m1 os).
Qed.

Lemma ops_from_facts burst id os cs x B T :
  ops_from burst id os cs → Forall (λ c, at_ c ≤ T ∧ (id c = x → burst (cPlan c) ≤ B)) cs →
  ops_ok x B os ∧ Forall (λ o, oAt o ≤ T) os ∧ (length os ≤ length cs)%nat.
Proof.
  intros (cs' & Hs & -> & Hb) Hf. pose proof (Forall_sub _ _ _ Hs Hf) as Hf'.
  unfold ops_ok. rewrite !Forall_fmap, length_fmap. split_and!; [| |by apply sublist_length].
  - eapply Forall_impl; [apply Forall_and; exact (conj Hb Hf')|]. simpl. naive_solver.
  - eapply Forall_impl; [exact Hf'|]. simpl. naive_solver.
Qed.

Lemma ops_from_ok burst id os cs x T :
  ops_from burst id os cs → Forall (λ c, at_ c ≤ T) cs → ops_ok x 256 os ∧ Forall (λ o, oAt o ≤ T) os.
Proof.
  intros (cs' & Hs & -> & Hb) Hf. pose proof (Forall_sub _ _ _ Hs Hf) as Hf'.
  unfold ops_ok. rewrite !Forall_fmap. split; [|done]. eapply Forall_impl; [exact Hb|]. simpl. lia.
Qed.

Lemma count_bound n B D len :
  (inject_Z n <= inject_Z B + gain D B + delta * inject_Z (Z.of_nat len))%Q →
  Z.of_nat len ≤ 2 ^ 36 → n * Minute ≤ (B + 1) * Minute + D * B.
Proof.
  intros Hn Hl. change Minute with 60000000000.
  assert (delta * inject_Z (Z.of_nat len) <= 1)%Q as Hd by (unfold delta, Qle; simpl; lia).
  assert (inject_Z n <= inject_Z B + gain D B + 1)%Q as H by lra.
  unfold gain, Qle, Qplus, Qmult in H. simpl in H. lia.
Qed.

Section window.
Context (burst : string → Z) (id : call → string) (get : WakeRateLimiter → buckets).
Hypothesis Hstep : ∀ l c ok l1,
  noop l = false → admit_wake (at_ c) l (cApp c) (cAccount c) (cPlan c) = (ok, l1) →
  noop l1 = false ∧ step_of burst id c ok (get l) (get l1).
Hypothesis Hinit : get NewWakeRateLimiter = ∅.

Lemma window_bounded pre cs x B t t0 t1 :
  0 ≤ B → in_order t (at_ <$> pre) → t ≤ t0 → Forall (λ c, at_ c ≤ t0) pre →
  in_order t0 (at_ <$> cs) → t0 ≤ t1 →
  Forall (λ c, at_ c ≤ t1 ∧ (id c = x → burst (cPlan c) ≤ B)) cs →
  Z.of_nat (length cs) ≤ 2 ^ 36 →
  admitted (λ c, String.eqb (id c) x) (run (run NewWakeRateLimiter pre).2 cs).1 * Minute
  ≤ (B + 1) * Minute + (t1 - t0) * B.
Proof using Hstep Hinit.
  intros HB Hpre Ht Hpre0 Hcs Ht1 Hf Hlen.
  destruct (run_project burst id get Hstep NewWakeRateLimiter pre eq_refl) as (os1 & Hos1 & Hn & Hm & _).
  rewrite Hinit in Hm. set (l := (run NewWakeRateLimiter pre).2) in *.
  assert (ok_map t0 (get l)) as Hok.
  { rewrite <- Hm.
    destruct (ops_from_ok burst id os1 pre x t0 Hos1 Hpre0).
    eapply run_ops_ok; [done|by eapply ops_from_order|done|done|apply map_Forall_empty]. }
  destruct (run_project burst id get Hstep l cs Hn) as (os & Hos & _ & _ & Hle).
  destruct (ops_from_facts burst id os cs x B t1 Hos Hf) as (Hops & HT & Hlen').
  pose proof (take_bounded x B t1 os (get l) t0 HB Hops (ops_from_order _ _ _ _ _ Hos Hcs) HT Ht1 Hok) as Hb.
  apply count_bound in Hb; [|lia]. specialize (Hle x). assert (0 < Minute) by done. nia.
Qed.
End window.

Lemma project_app l c ok l1 :
  noop l = false → admit_wake (at_ c) l (cApp c) (cAccount c) (cPlan c) = (ok, l1) →
  noop l1 = false ∧ step_of app_burst cApp c ok (appBuckets l) (appBuckets l1).
Proof. intros Hn (? & ? & _)%admit_wake_step; done. Qed.

Lemma project_account l c ok l1 :
  noop l = false → admit_wake (at_ c) l (cApp c) (cAccount c) (cPlan c) = (ok, l1) →
  noop l1 = false ∧ step_of account_burst cAccount c ok (acctBuckets l) (acctBuckets l1).
Proof. intros Hn (? & _ & ?)%admit_wake_step; done. Qed.

(** C40: the wake rate is bounded. After any history and over any window, whatever calls of other apps and
    accounts come between, the limiter lets through at most one burst, plus the per-minute rate times
    the length of the window, plus one: for an app with the largest app burst [Bapp] its plans have in
    the window, and for an account, over all its apps, with [Bacct]. This is proved for the rounded
    float64 balance, for windows of up to 2^36 calls. *)
Theorem wake_rate_bounded pre cs app acct Bapp Bacct t t0 t1 :
  0 ≤ Bapp → 0 ≤ Bacct →
  in_order t (at_ <$> pre) → t ≤ t0 → Forall (λ c, at_ c ≤ t0) pre →
  in_order t0 (at_ <$> cs) → t0 ≤ t1 → Forall (λ c, at_ c ≤ t1) cs →
  Forall (λ c, (cApp c = app → app_burst (cPlan c) ≤ Bapp) ∧
               (cAccount c = acct → account_burst (cPlan c) ≤ Bacct)) cs →
  Z.of_nat (length cs) ≤ 2 ^ 36 →
  let log := (run (run NewWakeRateLimiter pre).2 cs).1 in
  admitted (λ c, String.eqb (cApp c) app) log * Minute ≤ (Bapp + 1) * Minute + (t1 - t0) * Bapp ∧
  admitted (λ c, String.eqb (cAccount c) acct) log * Minute ≤ (Bacct + 1) * Minute + (t1 - t0) * Bacct.
Proof.
  intros Ha Hb Hpre Ht Hpre0 Hcs Ht1 Hf1 Hf Hlen. rewrite Forall_and in Hf. destruct Hf as [HfA HfB]. split.
  - apply (window_bounded app_burst cApp appBuckets project_app eq_refl _ _ _ _ t); try done.
    by apply Forall_and.
  - apply (window_bounded account_burst cAccount acctBuckets project_account eq_refl _ _ _ _ t); try done.
    by apply Forall_and.
Qed.

(** Five wakes of one app in the same minute on the plan with burst one. *)
Definition sample_calls : list call :=
  (λ i, mkCall (i * 10 * Second) "app" "acct" PlanFree) <$> [1; 2; 3; 4; 5].

Lemma wake_rate_bounded_witness :
  let log := (run (run NewWakeRateLimiter []).2 sample_calls).1 in
  snd <$> log = [true; false; false; false; false] ∧
  admitted (λ c, String.eqb (cApp c) "app") log * Minute ≤ 2 * Minute + 50 * Second.
Proof.
  split; [by vm_compute|].
  assert (in_order 0 (at_ <$> sample_calls)) as Hord
    by (repeat constructor; vm_compute; intros [=]).
  destruct (wake_rate_bounded [] sample_calls "app" "acct" 1 1 0 0 (50 * Second)) as [H _];
    [lia|lia|repeat constructor|lia|done|exact Hord|done| | |vm_compute; intros [=]|exact H].
  - repeat constructor; vm_compute; intros [=].
  - repeat constructor; intros _; vm_compute; intros [=].
Defined.

(** ** Availability *)

Lemma run_ops_last m os x b :
  (run_ops m os).2 !! x = Some b → m !! x = Some b ∨ ∃ o, o ∈ os ∧ oID o = x ∧ last b = oAt o.
Proof.
  revert m. induction os as [|o os IH]; intros m; [by left|]. simpl.
  destruct (consume _ _ _ _ _) as [ok m1] eqn:Ec. specialize (IH m1).
  destruct (run_ops m1 os) as [log m2]. simpl in *. intros Hb.
  destruct (IH Hb) as [Hm1|(o' & ? & ?)]; [|right; exists o'; split; [by right|done]].
  destruct (decide (oID o = x)) as [<-|Hne].
  - right. exists o. split_and!; [by left|done|]. unfold consume in Ec.
    destruct (fle _ _); injection Ec as <- <-; rewrite lookup_insert_eq in Hm1; injection Hm1 as <-; [done|].
    unfold refill. by destruct (m !! oID o).
  - left. unfold consume in Ec. by destruct (fle _ _); injection Ec as <- <-;
      rewrite lookup_insert_ne in Hm1.
Qed.

(** A bucket left alone for a minute, or a new one, is full. *)
Lemma refill_quiet now m id B :
  0 < B ≤ 256 → ok_map now m → (∀ b, m !! id = Some b → last b + Minute ≤ now) →
  (inject_Z B <= tokens (refill now (m !! id) (of_int B) (of_int B)))%Q.
Proof.
  intros HB Hm Hq. pose proof (of_int_exact B ltac:(lia)) as EB.
  destruct (m !! id) as [b|] eqn:Eb; [|simpl; rewrite EB; apply Qle_refl].
  specialize (Hq b eq_refl). destruct (Hm _ _ Eb) as [[Ht _] Hl]. change Minute with 60000000000 in Hq.
  assert (0 ≤ time_sub now (last b) ≤ max_duration ∧ 60000000000 ≤ time_sub now (last b)) as [Hd Hd']
    by (unfold time_sub, max_duration, min_duration; lia).
  destruct (minutes_bounds _ Hd) as [Hm1 _].
  assert (inject_Z 1 <= inject_Z (Z.quot (time_sub now (last b)) Minute))%Q as Hq1.
  { rewrite <- Zle_Qle. apply Z.quot_le_lower_bound; [done|]. change Minute with 60000000000. lia. }
  change (inject_Z 1) with 1%Q in Hq1.
  assert (0 <= inject_Z B)%Q as HB0 by (change 0%Q with (inject_Z 0); rewrite <- Zle_Qle; lia).
  unfold refill. cbn [tokens]. set (mm := Minutes _) in *.
  assert (inject_Z B <= fmul mm (of_int B))%Q as Hf.
  { apply round64_ge_int; [lia|]. rewrite EB.
    apply Qle_trans with (1 * inject_Z B)%Q; [lra|]. apply Qmult_le_compat_r; lra. }
  assert (inject_Z B <= fadd (tokens b) (fmul mm (of_int B)))%Q as Hs.
  { apply round64_ge_int; [lia|]. lra. }
  set (t := fadd _ _) in *. destruct (flt _ _); [rewrite EB; apply Qle_refl|done].
Qed.

Lemma consume_quiet now m id B :
  0 < B ≤ 256 → ok_map now m → (∀ b, m !! id = Some b → last b + Minute ≤ now) →
  (consume now m id (of_int B) (of_int B)).1 = true.
Proof.
  intros HB Hm Hq. pose proof (refill_quiet now m id B HB Hm Hq) as Hr.
  assert (inject_Z 1 <= inject_Z B)%Q as HB1 by (rewrite <- Zle_Qle; lia). change (inject_Z 1) with 1%Q in HB1.
  unfold consume, fle. by rewrite (proj2 (Qle_bool_iff _ _)) by lra.
Qed.

Section quiet.
Context (burst : string → Z) (id : call → string) (get : WakeRateLimiter → buckets).
Hypothesis Hstep : ∀ l c ok l1,
  noop l = false → admit_wake (at_ c) l (cApp c) (cAccount c) (cPlan c) = (ok, l1) →
  noop l1 = false ∧ step_of burst id c ok (get l) (get l1).
Hypothesis Hinit : get NewWakeRateLimiter = ∅.

Lemma reached_buckets pre t now :
  in_order t (at_ <$> pre) → Forall (λ p, at_ p ≤ now) pre → t ≤ now →
  let l := (run NewWakeRateLimiter pre).2 in
  noop l = false ∧ ok_map now (get l) ∧
  ∀ x b, get l !! x = Some b → ∃ p, p ∈ pre ∧ id p = x ∧ last b = at_ p.
Proof using Hstep Hinit.
  intros Hord Hpre Ht.
  destruct (run_project burst id get Hstep NewWakeRateLimiter pre eq_refl) as (os & Hos & Hn & Hm & _).
  rewrite Hinit in Hm. destruct (ops_from_ok burst id os pre EmptyString now Hos Hpre) as [Hok HT].
  split_and!; [done| |].
  - rewrite <- Hm. eapply run_ops_ok; [done|by eapply ops_from_order|done|done|apply map_Forall_empty].
  - intros x b. rewrite <- Hm. intros [Hb|(o & Ho & Hid & Hl)]%run_ops_last.
    { by rewrite lookup_empty in Hb. }
    destruct Hos as (cs' & Hs & -> & _). apply list_elem_of_fmap in Ho as (p & -> & Hp).
    exists p. split_and!; [|done|done]. exact (elem_of_submseteq _ _ _ Hp (sublist_submseteq _ _ Hs)).
Qed.
End quiet.

(** a quiet minute is always enough. Whatever happened before, a wake on a known plan is let through
    when no wake of its app and none of its account was asked for within the last minute: throttling is
    never permanent, and rounding never costs the last token. *)
Theorem wake_rate_available pre c t :
  in_order t (at_ <$> pre) → Forall (λ p, at_ p ≤ at_ c) pre → t ≤ at_ c →
  is_Some (LimitsFor (cPlan c)) →
  Forall (λ p, cApp p = cApp c ∨ cAccount p = cAccount c → at_ p + Minute ≤ at_ c) pre →
  (admit_wake (at_ c) (run NewWakeRateLimiter pre).2 (cApp c) (cAccount c) (cPlan c)).1 = true.
Proof.
  intros Hord Hpre Ht [lim Hlim] Hquiet. rewrite Forall_forall in Hquiet.
  destruct (reached_buckets app_burst cApp appBuckets project_app eq_refl pre t (at_ c)) as (Hn & HmA & HlA);
    [done..|].
  destruct (reached_buckets account_burst cAccount acctBuckets project_account eq_refl pre t (at_ c))
    as (_ & HmB & HlB); [done..|].
  set (l := (run NewWakeRateLimiter pre).2) in *. destruct (burst_range _ _ Hlim) as [HbA HbB].
  unfold admit_wake, AllowWakeApp. rewrite Hn, Hlim, (proj2 (Z.leb_gt _ _)) by lia.
  opose proof (consume_quiet (at_ c) (appBuckets l) (cApp c) _ HbA HmA _) as HcA.
  { intros b (p & Hp & Hid & ->)%HlA. apply (Hquiet p Hp). by left. }
  destruct (consume _ _ _ _ _) as [ok m]. simpl in HcA. subst ok. simpl.
  unfold AllowWakeAccount. simpl. rewrite Hlim, (proj2 (Z.leb_gt _ _)) by lia.
  opose proof (consume_quiet (at_ c) (acctBuckets l) (cAccount c) _ HbB HmB _) as HcB.
  { intros b (p & Hp & Hid & ->)%HlB. apply (Hquiet p Hp). by right. }
  destruct (consume _ _ _ _ _) as [ok m']. exact HcB.
Qed.

Lemma wake_rate_available_witness :
  (admit_wake (110 * Second) (run NewWakeRateLimiter sample_calls).2 "app" "acct" PlanFree).1 = true.
Proof.
  apply (wake_rate_available sample_calls (mkCall (110 * Second) "app" "acct" PlanFree) 0).
  - repeat constructor; vm_compute; intros [=].
  - repeat constructor; vm_compute; intros [=].
  - done.
  - by eexists.
  - repeat constructor; intros _; vm_compute; intros [=].
Defined.
End RateLimit.
