(* ===== verification/Guards.v ===== *)
(** * The caches the wake path consults

    Module [Overage] is the spend-cap checker (src/pkg/sched/overage.go), [WarmAffinity] the sticky-node
    cache (warmaffinity.go), [UpstreamAffinity] the region preference (upstream_affinity.go) and
    [LivenessWindow] the restart window (liveness_window.go).  Every critical section of a method is one
    step; clocks and the answers of store reads are arguments, so a sequence of steps is an interleaving
    of the goroutines that use the cache.  The theorems compare each cache with the history of the steps
    that filled it. *)

From S2P Require Import Prelude Api.
#[local] Open Scope go_scope.

(** ** Spend cap *)

Module Overage.

Inductive OverageStatus := OverageOK | OverageReached.

#[global] Instance status_eq_dec : EqDecision OverageStatus.
Proof. solve_decision. Defined.

(** [lastEmittedDay]: the UTC day of the last audit row as a day number, [None] for the empty string. *)
Record overageEntry := mkEntry {
  status : OverageStatus;
  observedCents : Z;
  capCents : Z;
  exp : Time;
  lastEmittedDay : option Z;
}.

(** [events] is the audit table: account, observed and cap cents, and the time of the row. *)
Record memCacheOverageChecker := mkChecker {
  ttl : Duration;
  cache : gmap string overageEntry;
  events : list (string * Z * Z * Time);
}.

Definition newMemCacheOverageChecker (ttl : Duration) : memCacheOverageChecker :=
  mkChecker (if ttl <=? 0 then 5 * Second else ttl) ∅ [].

Definition utc_day (t : Time) : Z := t / (24 * Hour).

(** What the store answered: GetAccountOverageCapCents ([None] an error, [Some None] no cap) and
    CurrentMonthOverageCents ([None] an error). *)
Record reads := mkReads { capRead : option (option Z); obsRead : option Z }.

(** The first critical section of Check: a fresh entry answers. *)
Definition check_cached (c : memCacheOverageChecker) (now : Time) (acct : string)
  : option (OverageStatus * Z * Z) :=
  match cache c !! acct with
  | Some e => if now <? exp e then Some (status e, observedCents e, capCents e) else None
  | None => None
  end.

(** What Check returns after the reads, the last component telling whether it returns an error. *)
Definition check_result (r : reads) : OverageStatus * Z * Z * bool :=
  match capRead r with
  | None => (OverageOK, 0, 0, true)
  | Some None => (OverageOK, 0, 0, false)
  | Some (Some cap) =>
      match obsRead r with
      | None => (OverageOK, cap, 0, true)
      | Some obs => (if cap <=? obs then OverageReached else OverageOK, obs, cap, false)
      end
  end.

(** The entry it stores; [prev] is the entry found when the write lock is taken. *)
Definition check_entry (r : reads) (until : Time) (prev : option overageEntry) : overageEntry :=
  match capRead r with
  | None | Some None => mkEntry OverageOK 0 0 until None
  | Some (Some cap) =>
      match obsRead r with
      | None => mkEntry OverageOK 0 cap until None
      | Some obs => mkEntry (if cap <=? obs then OverageReached else OverageOK) obs cap until
                      (match prev with Some e => lastEmittedDay e | None => None end)
      end
  end.

(** The second critical section of Check, for a call that began at [now]. *)
Definition check_store (c : memCacheOverageChecker) (now : Time) (acct : string) (r : reads)
  : memCacheOverageChecker :=
  mkChecker (ttl c)
    (<[acct := check_entry r (time_add now (ttl c)) (cache c !! acct)]> (cache c)) (events c).

Definition Check (c : memCacheOverageChecker) (now : Time) (acct : string) (r : reads)
  : OverageStatus * Z * Z * bool * memCacheOverageChecker :=
  match check_cached c now acct with
  | Some (s, obs, cap) => (s, obs, cap, false, c)
  | None => (check_result r, check_store c now acct r)
  end.

(** [written]: whether AppendEvent succeeds; its error is dropped. *)
Definition RecordReached (c : memCacheOverageChecker) (now : Time) (acct : string) (obs cap : Z)
    (written : bool) : memCacheOverageChecker :=
  let today := utc_day now in
  let entry := default (mkEntry OverageOK 0 0 zero_time None) (cache c !! acct) in
  if bool_decide (lastEmittedDay entry = Some today) then c
  else mkChecker (ttl c)
         (<[acct := mkEntry (status entry) (observedCents entry) (capCents entry) (exp entry)
                      (Some today)]> (cache c))
         (if written then events c ++ [(acct, obs, cap, now)] else events c).

Definition Invalidate (c : memCacheOverageChecker) (acct : string) : memCacheOverageChecker :=
  mkChecker (ttl c) (delete acct (cache c)) (events c).

(** The spend-cap branch of Engine.admitGate: [Some] refuses the wake with the two amounts. *)
Definition gate (c : memCacheOverageChecker) (now : Time) (acct : string) (r : reads) (written : bool)
  : option (Z * Z) * memCacheOverageChecker :=
  let '(s, obs, cap, _, c') := Check c now acct r in
  match s with
  | OverageReached => (Some (obs, cap), RecordReached c' now acct obs cap written)
  | OverageOK => (None, c')
  end.

(** *** Interleavings *)

Inductive step :=
| Fill (now : Time) (acct : string) (r : reads)
| Reached (now : Time) (acct : string) (obs cap : Z) (written : bool)
| Drop (acct : string).

Definition exec (c : memCacheOverageChecker) (s : step) : memCacheOverageChecker :=
  match s with
  | Fill now acct r => check_store c now acct r
  | Reached now acct obs cap written => RecordReached c now acct obs cap written
  | Drop acct => Invalidate c acct
  end.

Definition run (c : memCacheOverageChecker) (ss : list step) : memCacheOverageChecker := foldl exec c ss.

Lemma cap_run_snoc c ss s : run c (ss ++ [s]) = exec (run c ss) s.
Proof. unfold run. by rewrite foldl_app. Qed.

Lemma cap_run_ttl c ss : ttl (run c ss) = ttl c.
Proof.
  induction ss as [|s ss IH] using rev_ind; [done|]. rewrite cap_run_snoc, <- IH.
  destruct s; [done| |done]. simpl. unfold RecordReached. by case_bool_decide.
Qed.

(** *** The answer *)

(** The refusal a pair of reads asks for: both succeeded, a cap is set and it is reached. *)
Definition reached (r : reads) : option (Z * Z) :=
  match capRead r, obsRead r with
  | Some (Some cap), Some obs => if cap <=? obs then Some (obs, cap) else None
  | _, _ => None
  end.

Definition refusal (s : OverageStatus) (obs cap : Z) : option (Z * Z) :=
  match s with OverageReached => Some (obs, cap) | OverageOK => None end.

Lemma entry_refusal r until prev :
  let e := check_entry r until prev in
  exp e = until ∧ refusal (status e) (observedCents e) (capCents e) = reached r.
Proof.
  unfold check_entry, reached. destruct (capRead r) as [[cap|]|]; [|done|done].
  destruct (obsRead r) as [obs|]; [|done]. simpl. by destruct (cap <=? obs).
Qed.

Lemma result_refusal r :
  let '(s, obs, cap, _) := check_result r in refusal s obs cap = reached r.
Proof.
  unfold check_result, reached. destruct (capRead r) as [[cap|]|]; [|done|done].
  destruct (obsRead r) as [obs|]; [|done]. by destruct (cap <=? obs).
Qed.

(** Every live entry holds the answer of a fill that is younger than the TTL. *)
Lemma run_entry t0 ss acct e now :
  zero_time ≤ now →
  cache (run (newMemCacheOverageChecker t0) ss) !! acct = Some e → now < exp e →
  ∃ t r, Fill t acct r ∈ ss ∧ exp e = t + ttl (newMemCacheOverageChecker t0) ∧
         refusal (status e) (observedCents e) (capCents e) = reached r.
Proof.
  intros Hz. revert e. induction ss as [|s ss IH] using rev_ind; intros e; [done|].
  rewrite cap_run_snoc. set (c := run _ ss) in *.
  assert (∀ e, cache c !! acct = Some e → now < exp e →
    ∃ t r, Fill t acct r ∈ ss ++ [s] ∧ exp e = t + ttl (newMemCacheOverageChecker t0) ∧
           refusal (status e) (observedCents e) (capCents e) = reached r) as IH'.
  { intros e' He' Hn. destruct (IH e' He' Hn) as (t & r & ? & ?). exists t, r. split; [set_solver|done]. }
  destruct s as [t a r|t a obs cap written|a]; simpl.
  - destruct (decide (a = acct)) as [->|Hne]; [|rewrite lookup_insert_ne by done; apply IH'].
    rewrite lookup_insert_eq. intros [= <-] _.
    destruct (entry_refusal r (time_add t (ttl c)) (cache c !! acct)) as [He Hr].
    exists t, r. split_and!; [set_solver| |done]. rewrite He. unfold c, time_add. by rewrite cap_run_ttl.
  - unfold RecordReached. case_bool_decide; [apply IH'|]. simpl.
    destruct (decide (a = acct)) as [->|Hne]; [|rewrite lookup_insert_ne by done; apply IH'].
    rewrite lookup_insert_eq. intros [= <-]. simpl. destruct (cache c !! acct) as [e'|] eqn:Ee; simpl; [|lia].
    by apply IH'.
  - destruct (decide (a = acct)) as [->|Hne]; [by rewrite lookup_delete_eq|].
    rewrite lookup_delete_ne by done. apply IH'.
Qed.

(** the spend cap is enforced on fresh reads. Whatever goroutines filled, stamped or dropped cache
    entries before, in any interleaving, the gate's answer for an account is the one its store reads
    ask for, where the reads are its own or those of a call for the same account that began less than
    one TTL earlier: it refuses, with the amounts read, exactly when both reads succeeded and the cap is
    reached. A failed read therefore never refuses a wake, and a raised cap is honoured within a TTL. *)
Theorem spend_cap_gate t0 ss acct now r written :
  zero_time ≤ now →
  let c := run (newMemCacheOverageChecker t0) ss in
  ∃ t r', (t = now ∧ r' = r ∨ Fill t acct r' ∈ ss) ∧ now < t + ttl c ∧
          (gate c now acct r written).1 = reached r'.
Proof.
  intros Hz c. assert (0 < ttl c) as Httl.
  { unfold c. rewrite cap_run_ttl. simpl. unfold Second. case_match; breflect; lia. }
  unfold gate, Check, check_cached. destruct (cache c !! acct) as [e|] eqn:Ee.
  - destruct (Z.ltb_spec now (exp e)) as [Hlt|].
    + destruct (run_entry t0 ss acct e now Hz Ee Hlt) as (t & r' & Hin & Hexp & Hr). exists t, r'.
      split_and!; [by right| |rewrite <- Hr; by destruct (status e)].
      unfold c. rewrite cap_run_ttl. lia.
    + exists now, r. split_and!; [by left|lia|]. pose proof (result_refusal r) as Hr.
      by destruct (check_result r) as [[[[] ?] ?] ?]; rewrite <- Hr.
  - exists now, r. split_and!; [by left|lia|]. pose proof (result_refusal r) as Hr.
    by destruct (check_result r) as [[[[] ?] ?] ?]; rewrite <- Hr.
Qed.

Definition sample_fill : step := Fill (10 * Second) "acct" (mkReads (Some (Some 500)) (Some 700)).

Lemma spend_cap_gate_witness :
  let c := run (newMemCacheOverageChecker 0) [sample_fill] in
  (gate c (12 * Second) "acct" (mkReads None None) true).1 = Some (700, 500) ∧
  ∃ t r', (t = 12 * Second ∧ r' = mkReads None None ∨ Fill t "acct" r' ∈ [sample_fill]) ∧
          12 * Second < t + ttl c ∧
          (gate c (12 * Second) "acct" (mkReads None None) true).1 = reached r'.
Proof.
  split; [by vm_compute|]. apply (spend_cap_gate 0 [sample_fill] "acct" (12 * Second) (mkReads None None) true).
  by vm_compute.
Defined.

(** *** The audit rows *)

Definition audit_days (acct : string) (evs : list (string * Z * Z * Time)) : list Z :=
  omap (λ e : string * Z * Z * Time,
          let '(a, _, _, t) := e in if String.eqb a acct then Some (utc_day t) else None) evs.

Definition reached_days (acct : string) (ss : list step) : list Z :=
  omap (λ s, match s with
             | Reached t a _ _ _ => if String.eqb a acct then Some (utc_day t) else None
             | _ => None
             end) ss.

(** The cache entry of the account is never dropped and never replaced by a failed or capless read. *)
Definition undisturbed (acct : string) (s : step) : Prop :=
  match s with
  | Fill _ a r => a = acct → ∃ cap obs, capRead r = Some (Some cap) ∧ obsRead r = Some obs
  | Reached _ _ _ _ _ => True
  | Drop a => a ≠ acct
  end.

Definition stamped (c : memCacheOverageChecker) (acct : string) : option Z :=
  cache c !! acct ≫= lastEmittedDay.

(** The rows' days increase up to the stamped day, which is one of the reported [days]. *)
Definition audit_inv (acct : string) (c : memCacheOverageChecker) (days : list Z) : Prop :=
  StronglySorted Z.lt (audit_days acct (events c)) ∧
  match stamped c acct with
  | None => audit_days acct (events c) = []
  | Some d => Forall (λ d', d' ≤ d) (audit_days acct (events c)) ∧ d ∈ days
  end.

Lemma audit_days_app acct evs evs' :
  audit_days acct (evs ++ evs') = audit_days acct evs ++ audit_days acct evs'.
Proof. apply omap_app. Qed.

Lemma sorted_lt_snoc l d : StronglySorted Z.lt l → Forall (λ x, x < d) l → StronglySorted Z.lt (l ++ [d]).
Proof.
  intros Hl Hd. rewrite Forall_forall in Hd. apply StronglySorted_app_2; [|done|repeat constructor].
  intros x y Hx ->%list_elem_of_singleton. by apply Hd.
Qed.

Lemma audit_same acct c c' days days' :
  audit_inv acct c days → audit_days acct (events c') = audit_days acct (events c) →
  stamped c' acct = stamped c acct → days ⊆ days' → audit_inv acct c' days'.
Proof.
  unfold audit_inv. intros [Hs Hst] -> -> Hd. split; [done|].
  destruct (stamped c acct); [|done]. destruct Hst. split; [done|]. by apply Hd.
Qed.

Lemma audit_below acct c days d :
  audit_inv acct c days → Forall (λ x, x ≤ d) days → stamped c acct ≠ Some d →
  Forall (λ x, x < d) (audit_days acct (events c)).
Proof.
  intros [_ Hst] Hd Hne. destruct (stamped c acct) as [d'|]; [|by rewrite Hst]. destruct Hst as [Hst Hin].
  rewrite Forall_forall in Hd. specialize (Hd d' Hin). eapply Forall_impl; [exact Hst|]. simpl.
  intros x Hx. assert (d' ≠ d) by congruence. lia.
Qed.

(** A new row opens a new day; a day already stamped writes none. *)
Lemma audit_reached acct c days t obs cap written :
  audit_inv acct c days → Forall (λ x, x ≤ utc_day t) days →
  audit_inv acct (RecordReached c t acct obs cap written) (days ++ [utc_day t]).
Proof.
  intros Hi Hd. unfold RecordReached. case_bool_decide as Hst.
  { apply (audit_same _ c _ days); [done|done|done|set_solver]. }
  assert (stamped c acct ≠ Some (utc_day t)) as Hne.
  { unfold stamped. by destruct (cache c !! acct). }
  pose proof (audit_below _ _ _ _ Hi Hd Hne) as Hlt. destruct Hi as [Hs _]. unfold audit_inv, stamped. simpl.
  rewrite lookup_insert_eq. simpl.
  assert (Forall (λ x, x ≤ utc_day t) (audit_days acct (events c))) as Hle.
  { eapply Forall_impl; [exact Hlt|]. simpl. lia. }
  destruct written; [|by split; [|split; [|set_solver]]].
  rewrite audit_days_app. simpl. rewrite String.eqb_refl. simpl. split; [by apply sorted_lt_snoc|].
  split; [|set_solver]. apply Forall_app. split; [done|by repeat constructor].
Qed.

Lemma audit_reached_other acct a c days t obs cap written :
  a ≠ acct → audit_inv acct c days → audit_inv acct (RecordReached c t a obs cap written) days.
Proof.
  intros Hne Hi. unfold RecordReached. case_bool_decide; [done|].
  apply (audit_same _ c _ days); [done| |unfold stamped; simpl; by rewrite lookup_insert_ne|done].
  simpl. destruct written; [|done]. rewrite audit_days_app. simpl.
  by rewrite (proj2 (String.eqb_neq _ _) Hne), app_nil_r.
Qed.

Lemma audit_inv_run t0 acct ss :
  Forall (undisturbed acct) ss → StronglySorted Z.le (reached_days acct ss) →
  audit_inv acct (run (newMemCacheOverageChecker t0) ss) (reached_days acct ss).
Proof.
  induction ss as [|s ss IH] using rev_ind; intros Hu Hs.
  { split; [constructor|done]. }
  apply Forall_app in Hu as [Hu [Hus _]%Forall_cons]. unfold reached_days in *. rewrite omap_app in *.
  apply StronglySorted_app in Hs as (Hlt & Hs & _). specialize (IH Hu Hs). rewrite cap_run_snoc.
  fold (reached_days acct ss) in *. set (c := run _ ss) in *.
  destruct s as [t a r|t a obs cap written|a]; simpl in Hus, Hlt |- *; rewrite ?app_nil_r.
  - apply (audit_same _ c _ (reached_days acct ss)); [done|done| |done]. unfold stamped. simpl.
    destruct (decide (a = acct)) as [->|Hne]; [|by rewrite lookup_insert_ne].
    rewrite lookup_insert_eq. destruct Hus as (cp & obs & Hc & Ho); [done|].
    unfold check_entry. rewrite Hc, Ho. simpl. by destruct (cache c !! acct).
  - destruct (String.eqb_spec a acct) as [->|Hne]; simpl.
    + apply audit_reached; [done|]. apply Forall_forall. intros x Hx. apply (Hlt x); [done|by left].
    + rewrite app_nil_r. by apply audit_reached_other.
  - apply (audit_same _ c _ (reached_days acct ss)); [done|done| |done].
    unfold stamped. simpl. by rewrite lookup_delete_ne.
Qed.

(** one audit row per day. As long as the account's cache entry is not dropped and every refresh reads
    a cap and an amount, however many goroutines report the cap as reached, the audit table gets at most
    one row for the account and UTC day (clocks not running backwards over a day boundary). *)
Theorem cap_audit_once_per_day t0 acct ss :
  Forall (undisturbed acct) ss → StronglySorted Z.le (reached_days acct ss) →
  NoDup (audit_days acct (events (run (newMemCacheOverageChecker t0) ss))).
Proof.
  intros Hu Hs. destruct (audit_inv_run t0 acct ss Hu Hs) as [Hsort _].
  induction Hsort as [|d l _ IH Hd]; constructor; [|done].
  intros Hin. rewrite Forall_forall in Hd. specialize (Hd d Hin). lia.
Qed.

Definition hour (h : Z) : step := Reached (h * Hour) "acct" 700 500 true.

Lemma cap_audit_once_per_day_witness :
  let c := run (newMemCacheOverageChecker 0) [sample_fill; hour 1; hour 2; hour 25] in
  audit_days "acct" (events c) = [0; 1] ∧ NoDup (audit_days "acct" (events c)).
Proof.
  split; [by vm_compute|]. apply (cap_audit_once_per_day 0 "acct" [sample_fill; hour 1; hour 2; hour 25]).
  - repeat constructor. intros _. by exists 500, 700.
  - vm_compute. repeat constructor; intros [=].
Defined.

(** a failed read forgets the day's audit row. The fail-open entry a failed read stores drops the
    stamp of the day, so when the store recovers the same account gets a second row on the same day,
    although the checker documents that its per-day dedupe survives such an outage. *)
Theorem cap_audit_repeated_after_outage :
  let bad := Fill (2 * Hour) "acct" (mkReads None None) in
  let good := Fill (3 * Hour) "acct" (mkReads (Some (Some 500)) (Some 700)) in
  audit_days "acct" (events (run (newMemCacheOverageChecker 0) [sample_fill; hour 1; bad; good; hour 3]))
  = [0; 0].
Proof. by vm_compute. Qed.
End Overage.

(** ** Sticky-warm affinity *)

Module WarmAffinity.

Record warmEntry := mkEntry { nodeID : string; lastSeen : Time }.

Record t := mkWarm { ttl : Duration; m : gmap string warmEntry }.

Definition NewWarmAffinity (ttl : Duration) : t :=
  mkWarm (if ttl <=? 0 then WarmAffinityTTL else ttl) ∅.

Definition RecordWake (w : t) (now : Time) (appID node : string) : t :=
  if String.eqb appID EmptyString || String.eqb node EmptyString then w
  else mkWarm (ttl w) (<[appID := mkEntry node now]> (m w)).

(** The previous node and whether the broadcaster must announce a change. *)
Definition RecordWakeIfChanged (w : t) (now : Time) (appID node : string) : string * bool * t :=
  if String.eqb appID EmptyString || String.eqb node EmptyString then (EmptyString, false, w)
  else
    let w' := mkWarm (ttl w) (<[appID := mkEntry node now]> (m w)) in
    match m w !! appID with
    | None => (EmptyString, true, w')
    | Some prev => (nodeID prev, negb (String.eqb (nodeID prev) node), w')
    end.

Definition LastWarmNode (w : t) (now : Time) (appID : string) : string * bool * t :=
  if String.eqb appID EmptyString then (EmptyString, false, w)
  else match m w !! appID with
       | None => (EmptyString, false, w)
       | Some e =>
           if ttl w <? time_sub now (lastSeen e)
           then (EmptyString, false, mkWarm (ttl w) (delete appID (m w)))
           else (nodeID e, true, w)
       end.

Definition Forget (w : t) (appID : string) : t :=
  if String.eqb appID EmptyString then w else mkWarm (ttl w) (delete appID (m w)).

(** *** Histories *)

Inductive step :=
| Wake (now : Time) (appID node : string)
| Read (now : Time) (appID : string)
| Drop (appID : string).

Definition exec (w : t) (s : step) : t :=
  match s with
  | Wake now appID node => (RecordWakeIfChanged w now appID node).2
  | Read now appID => (LastWarmNode w now appID).2
  | Drop appID => Forget w appID
  end.

Definition run (w : t) (ss : list step) : t := foldl exec w ss.

(** The last wake of the app that no later Forget dropped. *)
Definition last_wake (appID : string) (ss : list step) : option warmEntry :=
  foldl (λ acc s, match s with
                  | Wake now a node =>
                      if String.eqb a appID && negb (String.eqb node EmptyString)
                      then Some (mkEntry node now) else acc
                  | Read _ _ => acc
                  | Drop a => if String.eqb a appID then None else acc
                  end) None ss.

Definition step_time (s : step) : option Time :=
  match s with Wake now _ _ => Some now | Read now _ => Some now | Drop _ => None end.

Lemma warm_run_snoc w ss s : run w (ss ++ [s]) = exec (run w ss) s.
Proof. unfold run. by rewrite foldl_app. Qed.

Lemma last_wake_snoc appID ss s :
  last_wake appID (ss ++ [s])
  = match s with
    | Wake now a node => if String.eqb a appID && negb (String.eqb node EmptyString)
                         then Some (mkEntry node now) else last_wake appID ss
    | Read _ _ => last_wake appID ss
    | Drop a => if String.eqb a appID then None else last_wake appID ss
    end.
Proof. unfold last_wake. by rewrite foldl_app. Qed.

Lemma exec_ttl w s : ttl (exec w s) = ttl w.
Proof.
  destruct s; simpl; unfold RecordWakeIfChanged, LastWarmNode, Forget; repeat case_match; done.
Qed.

Lemma warm_run_ttl w ss : ttl (run w ss) = ttl w.
Proof. induction ss as [|s ss IH] using rev_ind; [done|]. by rewrite warm_run_snoc, exec_ttl. Qed.

Lemma record_changed w now appID node :
  (RecordWakeIfChanged w now appID node).2 = RecordWake w now appID node.
Proof. unfold RecordWakeIfChanged, RecordWake. repeat case_match; done. Qed.

(** The cache holds the last wake of every app, or has evicted one that is expired at [now]. *)
Definition tracks (now : Time) (w : t) (appID : string) (e : option warmEntry) : Prop :=
  m w !! appID = e ∨ m w !! appID = None ∧ ∃ e', e = Some e' ∧ ttl w < time_sub now (lastSeen e').

Lemma time_sub_mono t t' u : t ≤ t' → time_sub t u ≤ time_sub t' u.
Proof. unfold time_sub. lia. Qed.

Lemma run_tracks t0 ss now appID :
  appID ≠ EmptyString → Forall (λ s, ∀ u, step_time s = Some u → u ≤ now) ss →
  tracks now (run (NewWarmAffinity t0) ss) appID (last_wake appID ss).
Proof.
  intros Hne. induction ss as [|s ss IH] using rev_ind; intros Hf; [by left|].
  apply Forall_app in Hf as [Hf [Hs _]%Forall_cons]. specialize (IH Hf).
  rewrite warm_run_snoc, last_wake_snoc. set (w := run _ ss) in *. unfold tracks in *. rewrite exec_ttl.
  destruct s as [u a node|u a|a]; simpl.
  - rewrite record_changed. unfold RecordWake. destruct (String.eqb_spec a EmptyString) as [->|Ha]; simpl.
    { by destruct appID. }
    destruct (String.eqb node EmptyString); simpl; [by rewrite andb_false_r|]. rewrite andb_true_r.
    destruct (String.eqb_spec a appID) as [->|]; [left; by rewrite lookup_insert_eq|].
    by rewrite lookup_insert_ne.
  - unfold LastWarmNode. destruct (String.eqb a EmptyString); [done|].
    destruct (m w !! a) as [e|] eqn:Ee; [|done]. destruct (Z.ltb_spec (ttl w) (time_sub u (lastSeen e))); [|done].
    simpl. destruct (decide (a = appID)) as [->|]; [|by rewrite lookup_delete_ne].
    right. split; [by rewrite lookup_delete_eq|]. destruct IH as [<-|[? _]]; [|congruence].
    exists e. split; [done|]. specialize (Hs u eq_refl). pose proof (time_sub_mono _ _ (lastSeen e) Hs). lia.
  - unfold Forget. destruct (String.eqb_spec a appID) as [->|Ha].
    + rewrite (proj2 (String.eqb_neq _ _)) by done. left. simpl. by rewrite lookup_delete_eq.
    + destruct (String.eqb a EmptyString); [done|]. simpl. by rewrite lookup_delete_ne.
Qed.

(** the affinity cache remembers exactly the last wake. After any history of wakes, reads and drops
    whose clock readings do not pass the present, the hint for an app is the node of its last wake that
    no Forget dropped, as long as that wake is at most a TTL old, and there is none otherwise; the
    evictions done by earlier reads never change an answer. *)
Theorem warm_affinity_exact t0 ss now appID :
  appID ≠ EmptyString → Forall (λ s, ∀ u, step_time s = Some u → u ≤ now) ss →
  let w := run (NewWarmAffinity t0) ss in
  (LastWarmNode w now appID).1
  = match last_wake appID ss with
    | Some e => if ttl w <? time_sub now (lastSeen e) then (EmptyString, false) else (nodeID e, true)
    | None => (EmptyString, false)
    end.
Proof.
  intros Hne Hf w. pose proof (run_tracks t0 ss now appID Hne Hf) as Ht. fold w in Ht.
  unfold LastWarmNode. rewrite (proj2 (String.eqb_neq _ _) Hne).
  destruct Ht as [->|(-> & e & -> & Hlt)].
  - destruct (last_wake appID ss) as [e|]; [|done]. by destruct (_ <? _).
  - by rewrite (proj2 (Z.ltb_lt _ _) Hlt).
Qed.

Lemma warm_affinity_exact_witness :
  let ss := [Wake 0 "app" "n1"; Wake Minute "app" "n2"; Read (2 * Minute) "app"] in
  let w := run (NewWarmAffinity 0) ss in
  (LastWarmNode w (20 * Minute) "app").1 = ("n2"%string, true) ∧
  (LastWarmNode w (40 * Minute) "app").1 = (EmptyString, false).
Proof.
  split.
  - rewrite (warm_affinity_exact 0 [Wake 0 "app" "n1"; Wake Minute "app" "n2"; Read (2 * Minute) "app"]
               (20 * Minute) "app"); [by vm_compute|done|].
    repeat constructor; intros u [= <-]; by vm_compute.
  - by vm_compute.
Defined.
End WarmAffinity.

(** ** Upstream affinity *)

Module UpstreamAffinity.

Record entry := mkEntry { preferredRegion : string; scoreMs : Z; observedAt : Time }.

Record t := mkUpstream { ttl : Duration; m : gmap string entry }.

(** A probe row; [RTTMs] is nil on a failed probe. *)
Record probe := mkProbe { Region : string; OK : bool; RTTMs : option Z }.

Definition NewUpstreamAffinity (ttl : Duration) : t :=
  mkUpstream (if ttl <=? 0 then UpstreamAffinityTTL else ttl) ∅.

Definition defaultDeploymentScope : string := "default".
Definition appDeploymentKeySep : string := String Ascii.zero EmptyString.

Definition appDeploymentKeyOf (appID deploymentScope : string) : string :=
  let deploymentScope := if String.eqb deploymentScope EmptyString then defaultDeploymentScope
                         else deploymentScope in
  String.append appID (String.append appDeploymentKeySep deploymentScope).

(** (region, score, ok) *)
Definition Score (u : t) (now : Time) (appID deploymentScope : string) : string * Z * bool * t :=
  let key := appDeploymentKeyOf appID deploymentScope in
  match m u !! key with
  | None => (EmptyString, 0, false, u)
  | Some e =>
      if ttl u <? time_sub now (observedAt e)
      then (EmptyString, 0, false, mkUpstream (ttl u) (delete key (m u)))
      else (preferredRegion e, scoreMs e, true, u)
  end.

(** The two maps of scoreForUpstreams after its first loop. *)
Definition add_probe (acc : gmap string Z * gmap string Z) (row : probe) : gmap string Z * gmap string Z :=
  match OK row, RTTMs row with
  | true, Some rtt =>
      let '(scores, count) := acc in
      (<[Region row := zget scores (Region row) +! rtt]> scores,
       <[Region row := zget count (Region row) +! 1]> count)
  | _, _ => acc
  end.

Definition sums (rows : list probe) : gmap string Z * gmap string Z := foldl add_probe (∅, ∅) rows.

(** One turn of the second loop. *)
Definition pick (count : gmap string Z) (best : string * Z) (e : string * Z) : string * Z :=
  let '(bestRegion, bestMean) := best in
  let '(region, sum) := e in
  let n := zget count region in
  if n =? 0 then best
  else
    let mean := go_div sum n in
    if (bestMean =? -1) || (mean <? bestMean) then (region, mean) else best.

Section order.
(** [range_] is the order in which Go ranges over a map; it may differ on every call. *)
Context (range_ : gmap string Z → list (string * Z)).

Definition scoreForUpstreams (rows : list probe) : string * Z :=
  match rows with
  | [] => (EmptyString, 0)
  | _ => let '(scores, count) := sums rows in
         foldl (pick count) (EmptyString, -1) (range_ scores)
  end.

(** [rows] is the answer of ListAppUpstreamProbeScores, [None] its error; the boolean tells whether
    Refresh returns nil. *)
Definition Refresh (u : t) (now : Time) (appID deploymentScope : string) (rows : option (list probe))
  : bool * t :=
  match rows with
  | None => (false, u)
  | Some [] => (true, u)
  | Some rows =>
      let '(bestRegion, bestMean) := scoreForUpstreams rows in
      if String.eqb bestRegion EmptyString then (true, u)
      else (true, mkUpstream (ttl u) (<[appDeploymentKeyOf appID deploymentScope :=
                                          mkEntry bestRegion bestMean now]> (m u)))
  end.

(** The wake path's use of the cache: the region hint of admitAndDispatch. *)
Definition region_hint (u : t) (now : Time) (appID dep : string) (rows : option (list probe))
  : string * t :=
  let '(region, _, _, u1) := Score u now appID dep in
  if String.eqb region EmptyString then
    let '(ok, u2) := Refresh u1 now appID dep rows in
    if ok then let '(region, _, _, u3) := Score u2 now appID dep in (region, u3)
    else (EmptyString, u2)
  else (region, u1).
End order.

(** *** The best region *)

Definition measured (region : string) (rows : list probe) : list Z :=
  omap (λ row, if OK row && String.eqb (Region row) region then RTTMs row else None) rows.

Definition total (l : list Z) : Z := foldr Z.add 0 l.

Definition mean_of (region : string) (rows : list probe) : Z :=
  Z.quot (total (measured region rows)) (Z.of_nat (length (measured region rows))).

(** Plausible probe sets: round trips of at most 2^31 ms, at most 2^31 rows. *)
Definition plausible (rows : list probe) : Prop :=
  Z.of_nat (length rows) ≤ 2 ^ 31 ∧ Forall (λ row, ∀ x, RTTMs row = Some x → 0 ≤ x ≤ 2 ^ 31) rows.

Lemma measured_app region l k : measured region (l ++ k) = measured region l ++ measured region k.
Proof. apply omap_app. Qed.

Lemma measured_length region rows : (length (measured region rows) ≤ length rows)%nat.
Proof.
  unfold measured. induction rows as [|r rows IH]; [done|]. csimpl.
  case_match; csimpl; lia.
Qed.

Lemma total_app l k : total (l ++ k) = total l + total k.
Proof. unfold total. induction l as [|x l IH]; [done|]. simpl. lia. Qed.

Lemma measured_total region rows :
  plausible rows →
  0 ≤ total (measured region rows) ≤ 2 ^ 31 * Z.of_nat (length (measured region rows)).
Proof.
  intros [_ Hf]. unfold measured. induction rows as [|r rows IH]; [simpl; lia|].
  apply Forall_cons in Hf as [Hr Hf]. specialize (IH Hf). csimpl.
  destruct (OK r && _); [|done]. destruct (RTTMs r) as [x|] eqn:E; [|done].
  specialize (Hr x eq_refl). rewrite length_cons. simpl. lia.
Qed.

Lemma sums_spec rows region :
  plausible rows →
  let l := measured region rows in
  ((sums rows).1 !! region = if bool_decide (l = []) then None else Some (total l)) ∧
  ((sums rows).2 !! region = if bool_decide (l = []) then None else Some (Z.of_nat (length l))).
Proof.
  induction rows as [|r rows IH] using rev_ind; intros Hp; [done|].
  assert (plausible rows) as Hp'.
  { destruct Hp as [Hl Hf]. apply Forall_app in Hf as [Hf _]. rewrite length_app in Hl. split; [lia|done]. }
  pose proof (measured_total region _ Hp) as Ht. pose proof (measured_length region (rows ++ [r])) as Hlen.
  destruct Hp as [Hl _]. specialize (IH Hp'). unfold sums in *. rewrite foldl_app, measured_app in *. simpl in *.
  destruct (foldl add_probe (∅, ∅) rows) as [scores count]. simpl in IH. unfold add_probe.
  destruct (OK r); simpl in *; [|by rewrite app_nil_r].
  destruct (RTTMs r) as [x|]; [|by destruct (String.eqb _ _); simpl; rewrite app_nil_r].
  destruct (String.eqb_spec (Region r) region) as [->|Hne]; simpl in *; 
    [|rewrite !lookup_insert_ne, app_nil_r by done; exact IH].
  rewrite !lookup_insert_eq. destruct IH as [Hs Hc]. unfold zget. rewrite Hs, Hc.
  set (l := measured region rows) in *.
  rewrite (bool_decide_false (l ++ [x] = [])) by (by destruct l).
  rewrite total_app, length_app in *. cbn [length total foldr] in *.
  rewrite length_app in Hlen. simpl in Hlen.
  case_bool_decide as Hnil.
  - rewrite Hnil in *. simpl in *. rewrite !i64_id by (unfold in_i64; lia). split; f_equal; lia.
  - simpl. rewrite !i64_id by (unfold in_i64; lia). split; f_equal; lia.
Qed.

(** The second loop keeps the best region it has seen; [done_] are the regions visited. *)
Definition best_of (mean : string → Z) (done_ : list string) (best : string * Z) : Prop :=
  match done_ with
  | [] => best = (EmptyString, -1)
  | _ => best.1 ∈ done_ ∧ best.2 = mean best.1 ∧ Forall (λ r, best.2 ≤ mean r) done_
  end.

Lemma pick_best count mean done_ best e :
  zget count e.1 ≠ 0 → go_div e.2 (zget count e.1) = mean e.1 → 0 ≤ mean e.1 →
  Forall (λ r, 0 ≤ mean r) done_ → best_of mean done_ best →
  best_of mean (done_ ++ [e.1]) (pick count best e).
Proof.
  destruct best as [br bm], e as [r s]. simpl. intros Hn Hm H0 Hd Hb. unfold pick.
  rewrite (proj2 (Z.eqb_neq _ _)), Hm by done. unfold best_of.
  destruct done_ as [|d ds]; simpl.
  - injection Hb as -> ->. simpl. split_and!; [set_solver|done|by repeat constructor].
  - destruct Hb as (Hin & Hbm & Hle). simpl in *.
    assert (0 ≤ bm) as Hbm0 by (rewrite Hbm; rewrite Forall_forall in Hd; by apply Hd).
    rewrite (proj2 (Z.eqb_neq bm (-1))) by lia. simpl. change (d :: ds ++ [r]) with ((d :: ds) ++ [r]).
    destruct (Z.ltb_spec (mean r) bm); simpl; split_and!; try done.
    + set_solver.
    + apply (Forall_app _ (d :: ds) [r]). split; [|by repeat constructor]. eapply Forall_impl; [exact Hle|]. simpl. lia.
    + set_solver.
    + apply (Forall_app _ (d :: ds) [r]). split; [done|]. by repeat constructor.
Qed.

Lemma picks_best count mean es :
  Forall (λ e : string * Z, zget count e.1 ≠ 0 ∧ go_div e.2 (zget count e.1) = mean e.1 ∧ 0 ≤ mean e.1) es →
  best_of mean es.*1 (foldl (pick count) (EmptyString, -1) es).
Proof.
  induction es as [|e es IH] using rev_ind; intros Hf; [done|].
  apply Forall_app in Hf as [Hf [He _]%Forall_cons]. rewrite foldl_app, fmap_app. simpl.
  apply pick_best; try naive_solver. rewrite Forall_fmap. eapply Forall_impl; [exact Hf|]. simpl. naive_solver.
Qed.

Lemma mean_nonneg region rows : plausible rows → 0 ≤ mean_of region rows.
Proof.
  intros Hp. pose proof (measured_total region rows Hp). unfold mean_of.
  destruct (measured region rows) eqn:E; [done|]. apply Z.quot_pos; [lia|]. rewrite length_cons. lia.
Qed.

Lemma mean_entry r rows :
  plausible rows → measured r rows ≠ [] →
  zget (sums rows).2 r ≠ 0 ∧
  go_div (total (measured r rows)) (zget (sums rows).2 r) = mean_of r rows ∧ 0 ≤ mean_of r rows.
Proof.
  intros Hp Hne. destruct (sums_spec rows r Hp) as [_ Hc]. rewrite bool_decide_false in Hc by done.
  rewrite (zget_Some _ _ _ Hc). pose proof (mean_nonneg r rows Hp) as H0.
  assert (0 < Z.of_nat (length (measured r rows))) by (destruct (measured r rows); [done|simpl; lia]).
  split_and!; [lia| |done]. unfold go_div. apply i64_id. fold (mean_of r rows). unfold in_i64.
  pose proof (measured_total r rows Hp) as Ht. pose proof (measured_length r rows). destruct Hp as [Hl _].
  assert (mean_of r rows ≤ total (measured r rows)) by (apply Z.quot_le_upper_bound; nia). lia.
Qed.

(** the region hint is the region with the lowest mean round trip. In whatever order Go ranges over
    the score map, for a plausible probe set scoreForUpstreams returns a region that has successful
    measurements, its mean (rounded toward zero), and no measured region has a smaller mean; without a
    successful measurement the region is empty and the chooser gets no bias. *)
Theorem upstream_region_best range_ rows :
  (∀ m : gmap string Z, range_ m ≡ₚ map_to_list m) → plausible rows →
  let '(region, score) := scoreForUpstreams range_ rows in
  ((∀ r, measured r rows = []) → region = EmptyString) ∧
  ((∃ r, measured r rows ≠ []) →
     measured region rows ≠ [] ∧ score = mean_of region rows ∧
     ∀ r, measured r rows ≠ [] → score ≤ mean_of r rows).
Proof.
  intros Hr Hp.
  pose proof (picks_best (sums rows).2 (λ r, mean_of r rows) (range_ (sums rows).1)) as Hb.
  assert (∀ r s, (r, s) ∈ range_ (sums rows).1 → measured r rows ≠ [] ∧ s = total (measured r rows)) as Hin.
  { intros r s. rewrite Hr, elem_of_map_to_list. destruct (sums_spec rows r Hp) as [-> _].
    case_bool_decide; [done|]. by intros [= <-]. }
  assert (∀ r, measured r rows ≠ [] → r ∈ (range_ (sums rows).1).*1) as Hall.
  { intros r Hne. apply list_elem_of_fmap. exists (r, total (measured r rows)). split; [done|].
    rewrite Hr, elem_of_map_to_list. destruct (sums_spec rows r Hp) as [-> _]. by rewrite bool_decide_false. }
  assert (best_of (λ r, mean_of r rows) (range_ (sums rows).1).*1
            (foldl (pick (sums rows).2) (EmptyString, -1) (range_ (sums rows).1))) as Hbest.
  { apply Hb, Forall_forall. intros [r s] [Hne ->]%Hin. simpl. by apply mean_entry. }
  unfold scoreForUpstreams. destruct rows as [|row rows']; [by split; [|intros (? & [])]|].
  set (rows := row :: rows') in *. destruct (sums rows) as [scores count]. simpl in *.
  destruct (foldl _ _ _) as [region score]. unfold best_of in Hbest.
  destruct ((range_ scores).*1) as [|d ds] eqn:Ed.
  - injection Hbest as -> ->. split; [done|]. intros (r & Hne). by apply Hall, elem_of_nil in Hne.
  - destruct Hbest as (Hreg & Hscore & Hle). simpl in *. rewrite <- Ed in *.
    assert (measured region rows ≠ []) as Hm.
    { apply list_elem_of_fmap in Hreg as ([r s] & -> & [? _]%Hin). done. }
    split; [by intros Hnone; destruct (Hm (Hnone region))|]. intros _. split_and!; [done|done|].
    intros r Hne%Hall. rewrite Forall_forall in Hle. by apply Hle.
Qed.

Definition sample_rows : list probe :=
  [mkProbe "fra" true (Some 40); mkProbe "ams" true (Some 10); mkProbe "fra" true (Some 20);
   mkProbe "nyc" false None].

Lemma plausible_sample : plausible sample_rows.
Proof. split; [by vm_compute|]. unfold sample_rows.
  repeat first [apply Forall_nil_2|apply Forall_cons_2]; simpl; intros x Hx; simplify_eq; lia.
Qed.

Lemma upstream_region_best_witness :
  scoreForUpstreams map_to_list sample_rows = ("ams"%string, 10) ∧
  ∀ r, measured r sample_rows ≠ [] → 10 ≤ mean_of r sample_rows.
Proof.
  assert (scoreForUpstreams map_to_list sample_rows = ("ams"%string, 10)) as E by (by vm_compute).
  split; [exact E|].
  pose proof (upstream_region_best map_to_list sample_rows (λ m, Permutation_refl _) plausible_sample) as H.
  rewrite E in H. destruct H as [_ H]. apply H. exists "ams"%string. by vm_compute.
Defined.

(** *** Deployments do not share entries *)

Fixpoint has_nul (s : string) : bool :=
  match s with EmptyString => false | String c s => Ascii.eqb c Ascii.zero || has_nul s end.

Lemma append_nul_inj a b x y :
  has_nul a = false → has_nul b = false →
  String.append a (String Ascii.zero x) = String.append b (String Ascii.zero y) → a = b ∧ x = y.
Proof.
  revert b. induction a as [|c a IH]; intros [|d b]; simpl; intros Ha Hb He.
  - by injection He.
  - injection He as <- _. by rewrite Ascii.eqb_refl in Hb.
  - injection He as -> _. by rewrite Ascii.eqb_refl in Ha.
  - injection He as -> He. apply orb_false_iff in Ha as [_ Ha], Hb as [_ Hb].
    destruct (IH b Ha Hb He) as [-> ->]. done.
Qed.

Definition scope_of (dep : string) : string :=
  if String.eqb dep EmptyString then defaultDeploymentScope else dep.

Lemma key_inj a b d d' :
  has_nul a = false → has_nul b = false →
  appDeploymentKeyOf a d = appDeploymentKeyOf b d' → a = b ∧ scope_of d = scope_of d'.
Proof. unfold appDeploymentKeyOf. simpl. apply append_nul_inj. Qed.

Record refresh := mkRefresh { rAt : Time; rApp : string; rDep : string; rRows : list probe }.

Definition fill (range_ : gmap string Z → list (string * Z)) (u : t) (r : refresh) : t :=
  (Refresh range_ u (rAt r) (rApp r) (rDep r) (Some (rRows r))).2.

Definition filled (range_ : gmap string Z → list (string * Z)) (t0 : Duration) (rs : list refresh) : t :=
  foldl (fill range_) (NewUpstreamAffinity t0) rs.

Lemma Refresh_ttl range_ u now a d rows : ttl (Refresh range_ u now a d rows).2 = ttl u.
Proof. unfold Refresh. repeat case_match; done. Qed.

Lemma Refresh_entry range_ u now a d rows key e :
  m (Refresh range_ u now a d (Some rows)).2 !! key = Some e →
  m u !! key = Some e ∨
  key = appDeploymentKeyOf a d ∧ observedAt e = now ∧ preferredRegion e = (scoreForUpstreams range_ rows).1.
Proof.
  unfold Refresh. destruct rows as [|row rows]; [by left|].
  destruct (scoreForUpstreams _ _) as [region mean]. destruct (String.eqb _ _); [by left|]. simpl.
  destruct (decide (key = appDeploymentKeyOf a d)) as [->|]; [|rewrite lookup_insert_ne by done; by left].
  rewrite lookup_insert_eq. intros [= <-]. by right.
Qed.

Lemma filled_entry range_ t0 rs key e :
  m (filled range_ t0 rs) !! key = Some e →
  ∃ r, r ∈ rs ∧ key = appDeploymentKeyOf (rApp r) (rDep r) ∧ observedAt e = rAt r ∧
       preferredRegion e = (scoreForUpstreams range_ (rRows r)).1.
Proof.
  unfold filled. induction rs as [|r rs IH] using rev_ind; [done|]. rewrite foldl_app. simpl.
  intros [He|(-> & ? & ?)]%Refresh_entry; [|exists r; set_solver].
  destruct (IH He) as (r' & ? & ?). exists r'. set_solver.
Qed.

Lemma filled_ttl range_ t0 rs : ttl (filled range_ t0 rs) = ttl (NewUpstreamAffinity t0).
Proof.
  unfold filled. induction rs as [|r rs IH] using rev_ind; [done|]. rewrite foldl_app. simpl.
  unfold fill. by rewrite Refresh_ttl.
Qed.

(** Score answers from the entry of its key, when that is fresh. *)
Lemma Score_entry u now a d :
  (Score u now a d).1.1.1 ≠ EmptyString →
  ∃ e, m u !! appDeploymentKeyOf a d = Some e ∧ time_sub now (observedAt e) ≤ ttl u ∧
       (Score u now a d).1.1.1 = preferredRegion e.
Proof.
  unfold Score. destruct (m u !! _) as [e|]; [|done].
  destruct (Z.ltb_spec (ttl u) (time_sub now (observedAt e))); [done|]. simpl. by exists e.
Qed.

Lemma Score_state u now a d key e :
  m (Score u now a d).2 !! key = Some e → m u !! key = Some e.
Proof.
  unfold Score. destruct (m u !! _); [|done]. case_match; [|done]. simpl. by intros [_ ?]%lookup_delete_Some.
Qed.

Lemma Score_ttl u now a d : ttl (Score u now a d).2 = ttl u.
Proof. unfold Score. repeat case_match; done. Qed.

(** a region hint is fresh and belongs to its deployment. After any refreshes for any apps and
    deployments, a non-empty hint for a deployment is the best region of a probe set that was read for
    this app and this deployment scope, either by this very wake or at most one TTL ago; staging and
    production entries never mix (app ids contain no NUL byte). *)
Theorem upstream_hint_isolated range_ t0 rs now app dep rows :
  Forall (λ r, has_nul (rApp r) = false ∧ rAt r ≤ now) rs → has_nul app = false →
  let u := filled range_ t0 rs in
  let region := (region_hint range_ u now app dep rows).1 in
  region ≠ EmptyString →
  ∃ r, (r ∈ rs ∨ rows = Some (rRows r) ∧ rAt r = now) ∧
       (rApp r = app ∧ scope_of (rDep r) = scope_of dep) ∧
       time_sub now (rAt r) ≤ ttl u ∧ region = (scoreForUpstreams range_ (rRows r)).1.
Proof.
  intros Hf Hn u region Hne. rewrite Forall_forall in Hf.
  assert (∀ e, m u !! appDeploymentKeyOf app dep = Some e → time_sub now (observedAt e) ≤ ttl u →
    ∃ r, (r ∈ rs ∨ rows = Some (rRows r) ∧ rAt r = now) ∧
         (rApp r = app ∧ scope_of (rDep r) = scope_of dep) ∧
         time_sub now (rAt r) ≤ ttl u ∧ preferredRegion e = (scoreForUpstreams range_ (rRows r)).1) as Hold.
  { intros e (r & Hin & Hk & Ho & Hp)%filled_entry Hfr. exists r. rewrite <- Ho.
    destruct (Hf r Hin) as [Hnr _]. apply key_inj in Hk as [-> Hs]; [|done|done]. auto. }
  subst region. revert Hne. unfold region_hint.
  pose proof (Score_entry u now app dep) as Hs1. pose proof (Score_state u now app dep) as Hm1.
  pose proof (Score_ttl u now app dep) as Ht1.
  destruct (Score u now app dep) as [[[region ?] ?] u1]. simpl in *.
  destruct (String.eqb_spec region EmptyString) as [->|Hreg].
  2: { intros _. destruct (Hs1 Hreg) as (e & He & Hfr & ->). by apply Hold. }
  destruct rows as [rows|]; [|done]. pose proof (Refresh_entry range_ u1 now app dep rows) as Hr.
  pose proof (Refresh_ttl range_ u1 now app dep (Some rows)) as Ht2.
  destruct (Refresh range_ u1 now app dep (Some rows)) as [ok u2]. simpl in *. destruct ok; [|done].
  pose proof (Score_entry u2 now app dep) as Hs2. destruct (Score u2 now app dep) as [[[region ?] ?] u3].
  simpl in *. intros Hne. destruct (Hs2 Hne) as (e & He & Hfr & ->). rewrite Ht2, Ht1 in Hfr.
  destruct (Hr _ _ He) as [He1|(_ & Ho & Hp)]; [by apply Hold; [apply Hm1|]|].
  rewrite Ho in Hfr. exists (mkRefresh now app dep rows). simpl. split_and!; [by right|done|done|done|done].
Qed.

Lemma upstream_hint_isolated_witness :
  let rs := [mkRefresh 0 "app" "staging" sample_rows] in
  let u := filled map_to_list 0 rs in
  (region_hint map_to_list u Second "app" "staging" None).1 = "ams"%string ∧
  (region_hint map_to_list u Second "app" "prod" None).1 = EmptyString ∧
  ∃ r, rApp r = "app"%string ∧ scope_of (rDep r) = "staging"%string.
Proof.
  split_and!; [by vm_compute|by vm_compute|].
  destruct (upstream_hint_isolated map_to_list 0 [mkRefresh 0 "app" "staging" sample_rows] Second
              "app" "staging" None) as (r & _ & [Ha Hs] & _).
  - repeat constructor. simpl. unfold Second. lia.
  - done.
  - by vm_compute.
  - by exists r.
Defined.
End UpstreamAffinity.

(** ** Liveness restarts *)

Module LivenessWindow.

Record t := mkWindow {
  restarts : gmap string (list Time);
  window : Duration;
  maxN : Z;
}.

Definition NewLivenessWindow (window : Duration) (maxN : Z) : t := mkWindow ∅ window maxN.

(** [ring[keep:]]: drops the leading entries that are not after the cutoff. *)
Fixpoint trim (cutoff : Time) (ring : list Time) : list Time :=
  match ring with
  | [] => []
  | x :: ring' => if cutoff <? x then ring else trim cutoff ring'
  end.

Definition ring_of (w : t) (deploymentID : string) : list Time := default [] (restarts w !! deploymentID).

Definition RecordRestart (w : t) (deploymentID : string) (now : Time) : bool * Z * t :=
  if (window w <=? 0) || (maxN w <=? 0) then (false, 0, w)
  else
    let cutoff := time_add now (- window w) in
    let ring := trim cutoff (ring_of w deploymentID) ++ [now] in
    let w' := mkWindow (<[deploymentID := ring]> (restarts w)) (window w) (maxN w) in
    let n := Z.of_nat (length ring) in
    (maxN w <=? n, n, w').

Definition Forget (w : t) (deploymentID : string) : t :=
  mkWindow (delete deploymentID (restarts w)) (window w) (maxN w).

Definition recent (w : t) (deploymentID : string) (now : Time) : Z :=
  if window w <=? 0 then 0
  else Z.of_nat (length (filter (λ x, time_add now (- window w) < x) (ring_of w deploymentID))).

(** *** Histories *)

Inductive step :=
| Restart (deploymentID : string) (now : Time)
| Replaced (deploymentID : string).

Definition exec (w : t) (s : step) : t :=
  match s with
  | Restart dep now => (RecordRestart w dep now).2
  | Replaced dep => Forget w dep
  end.

Definition run (w : t) (ss : list step) : t := foldl exec w ss.

(** The restarts of a deployment since it was last replaced. *)
Definition history (dep : string) (ss : list step) : list Time :=
  foldl (λ acc s, match s with
                  | Restart d now => if String.eqb d dep then acc ++ [now] else acc
                  | Replaced d => if String.eqb d dep then [] else acc
                  end) [] ss.

Definition within (w : Duration) (now : Time) (l : list Time) : list Time := filter (λ x, now - w < x) l.

Definition times (ss : list step) : list Time :=
  omap (λ s, match s with Restart _ now => Some now | Replaced _ => None end) ss.

Lemma filter_after cutoff (l : list Time) : Forall (λ x, cutoff < x) l → filter (λ x, cutoff < x) l = l.
Proof. induction 1; [done|]. rewrite filter_cons, decide_True by done. by f_equal. Qed.

Lemma trim_filter cutoff l : StronglySorted Z.le l → trim cutoff l = filter (λ x, cutoff < x) l.
Proof.
  induction 1 as [|x l Hs IH Hf]; [done|]. simpl. rewrite filter_cons.
  destruct (Z.ltb_spec cutoff x); [rewrite decide_True by done|rewrite decide_False by lia; done].
  f_equal. symmetry. apply filter_after. eapply Forall_impl; [exact Hf|]. simpl. lia.
Qed.

Lemma filter_weaker a b (l : list Time) :
  a ≤ b → filter (λ x, b < x) (filter (λ x, a < x) l) = filter (λ x, b < x) l.
Proof.
  intros Hab. rewrite list_filter_filter. apply list_filter_iff. intros x. lia.
Qed.

Lemma restart_history_snoc dep ss s :
  history dep (ss ++ [s])
  = match s with
    | Restart d now => if String.eqb d dep then history dep ss ++ [now] else history dep ss
    | Replaced d => if String.eqb d dep then [] else history dep ss
    end.
Proof. unfold history. by rewrite foldl_app. Qed.

Lemma restart_run_snoc w ss s : run w (ss ++ [s]) = exec (run w ss) s.
Proof. unfold run. by rewrite foldl_app. Qed.

Lemma exec_params w s : window (exec w s) = window w ∧ maxN (exec w s) = maxN w.
Proof. destruct s; simpl; [unfold RecordRestart; by case_match|done]. Qed.

Lemma restart_run_params w ss : window (run w ss) = window w ∧ maxN (run w ss) = maxN w.
Proof.
  induction ss as [|s ss IH] using rev_ind; [done|]. rewrite restart_run_snoc. by destruct (exec_params (run w ss) s) as [-> ->].
Qed.

Lemma history_times dep ss x : x ∈ history dep ss → x ∈ times ss.
Proof.
  induction ss as [|s ss IH] using rev_ind; [done|]. rewrite restart_history_snoc. unfold times. rewrite omap_app.
  fold (times ss). destruct s as [d now|d]; simpl; destruct (String.eqb d dep); rewrite ?elem_of_app; set_solver.
Qed.

Lemma history_sorted dep ss : StronglySorted Z.le (times ss) → StronglySorted Z.le (history dep ss).
Proof.
  induction ss as [|s ss IH] using rev_ind; [constructor|]. unfold times. rewrite omap_app, restart_history_snoc.
  fold (times ss). intros (Hlt & Hs & _)%StronglySorted_app. specialize (IH Hs).
  destruct s as [d now|d]; simpl in *; destruct (String.eqb d dep); try done; [|constructor].
  apply StronglySorted_app_2; [|done|repeat constructor]. intros x y Hx%history_times Hy. by apply Hlt.
Qed.

Lemma filter_sorted P `{∀ x, Decision (P x)} (l : list Time) :
  StronglySorted Z.le l → StronglySorted Z.le (filter P l).
Proof.
  induction 1 as [|x l Hs IH Hf]; [constructor|]. rewrite filter_cons. case_decide; [|done].
  constructor; [done|]. rewrite Forall_forall in Hf |- *. intros y [_ Hy]%list_elem_of_filter. by apply Hf.
Qed.

(** Recording a restart of a deployment whose ring is an earlier window of its history. *)
Lemma ring_step W (hist ring : list Time) (t now : Time) :
  0 < W → t ≤ now → StronglySorted Z.le hist → ring = within W t hist →
  trim (time_add now (- W)) ring ++ [now] = within W now (hist ++ [now]).
Proof.
  intros HW Ht Hs ->. unfold within, time_add. rewrite trim_filter by (by apply filter_sorted).
  replace (now + - W) with (now - W) by lia. rewrite filter_weaker, filter_app by lia.
  rewrite (filter_cons _ now []), decide_True by lia. done.
Qed.

(** The stored ring is the window of the history that ended at the last restart. *)
Lemma ring_window W N dep ss now :
  0 < W → 0 < N → StronglySorted Z.le (times ss) → Forall (λ x, x ≤ now) (times ss) →
  ∃ t, t ≤ now ∧ ring_of (run (NewLivenessWindow W N) ss) dep = within W t (history dep ss).
Proof.
  intros HW HN. revert now. induction ss as [|s ss IH] using rev_ind; intros now Hs Hf; [by exists now|].
  unfold times in Hs, Hf. rewrite omap_app in Hs, Hf. fold (times ss) in Hs, Hf.
  apply StronglySorted_app in Hs as (Hlt & Hs & _). apply Forall_app in Hf as [Hf Hlast].
  rewrite restart_run_snoc, restart_history_snoc.
  destruct (restart_run_params (NewLivenessWindow W N) ss) as [Hw Hn]. simpl in Hw, Hn.
  destruct s as [d u|d]; simpl in Hlast, Hlt |- *.
  - apply Forall_cons in Hlast as [Hu _]. unfold RecordRestart. rewrite Hw, Hn, !(proj2 (Z.leb_gt _ _)) by lia.
    simpl. unfold ring_of. simpl. destruct (String.eqb_spec d dep) as [->|Hne].
    + destruct (IH u Hs) as (t & Ht & Hring).
      { apply Forall_forall. intros x Hx. apply (Hlt x u); [done|by left]. }
      rewrite lookup_insert_eq. exists u. split; [done|].
      by apply (ring_step W (history dep ss) _ t); [|done|apply history_sorted|].
    + rewrite lookup_insert_ne by done. by apply IH.
  - unfold ring_of. simpl. destruct (String.eqb_spec d dep) as [->|Hne].
    + rewrite lookup_delete_eq. by exists now.
    + rewrite lookup_delete_ne by done. by apply IH.
Qed.

(** the liveness window counts exactly the recent restarts. After any history of restarts and
    replacements of any deployments, in the order of the clock, recording a restart returns the number
    of restarts of this deployment, this one included, since it was last replaced and within the last
    [window], and asks to park the app exactly when that number has reached the maximum. *)
Theorem liveness_window_exact W N dep ss now :
  0 < W → 0 < N → StronglySorted Z.le (times ss) → Forall (λ x, x ≤ now) (times ss) →
  let n := Z.of_nat (length (within W now (history dep ss ++ [now]))) in
  (RecordRestart (run (NewLivenessWindow W N) ss) dep now).1 = (N <=? n, n).
Proof.
  intros HW HN Hs Hf n. destruct (ring_window W N dep ss now HW HN Hs Hf) as (t & Ht & Hring).
  destruct (restart_run_params (NewLivenessWindow W N) ss) as [Hw Hn]. simpl in Hw, Hn.
  unfold RecordRestart. rewrite Hw, Hn, !(proj2 (Z.leb_gt _ _)) by lia. cbv zeta. cbn [orb fst].
  by rewrite (ring_step W (history dep ss) _ t now HW Ht (history_sorted dep ss Hs) Hring).
Qed.

Lemma liveness_window_exact_witness :
  let ss := [Restart "d" 0; Restart "d" (4 * Minute); Restart "e" (4 * Minute)] in
  (RecordRestart (run (NewLivenessWindow (5 * Minute) 3) ss) "d" (6 * Minute)).1 = (false, 2) ∧
  (RecordRestart (run (NewLivenessWindow (5 * Minute) 3) ss) "d" (4 * Minute)).1 = (true, 3).
Proof.
  split.
  - rewrite (liveness_window_exact (5 * Minute) 3 "d"
               [Restart "d" 0; Restart "d" (4 * Minute); Restart "e" (4 * Minute)] (6 * Minute));
      [by vm_compute|done|done| |]; repeat constructor; vm_compute; intros [=].
  - by vm_compute.
Defined.
End LivenessWindow.
