(* ===== verification/Rebalance.v ===== *)
(** * Moving apps between schedulers

    Module [Pressure] is the sliding window of capacity refusals (src/pkg/sched/pressure_aggregator.go).
    Module [Rebalance] is the ownership column of the apps table (ListOrphanedApps and ReassignAppOwner
    of src/pkg/state/memstore.go), RebalanceOrphanedApps and RebalancePressuredApps of
    src/pkg/sched/engine.go, and the two watchers that call them (rebalancer.go, pressure_rebalancer.go).
    The peer searches are those of [Placement].  Other schedulers write the same column: between a read
    and the write that depends on it a list of their writes is applied, so a theorem over all such lists
    is a theorem over all interleavings. *)

From S2P Require Import Prelude Api Admission Capacity Placement.
#[local] Open Scope go_scope.

(** ** Capacity pressure *)

Module Pressure.

Record PressureAggregator := mkAgg {
  window : Duration;
  maxEventsPerApp : Z;
  events : gmap string (list Z);            (* app -> times of refusals *)
}.

Definition NewPressureAggregator : PressureAggregator := mkAgg (60 * Second) 100000 ∅.

(** The entries at or after the cutoff, in order. *)
Definition keep (cutoff : Z) (slice : list Z) : list Z := filter (λ ts : Z, cutoff ≤ ts) slice.

Definition IncAtCapacity (a : PressureAggregator) (appID : string) (t : Time) : PressureAggregator :=
  let slice := default [] (events a !! appID) in
  let cutoff := time_add t (- window a) in
  let slice := keep cutoff slice ++ [t] in
  let n := Z.of_nat (length slice) in
  let slice := if maxEventsPerApp a <? n then drop (Z.to_nat (n - maxEventsPerApp a)) slice else slice in
  mkAgg (window a) (maxEventsPerApp a) (<[appID := slice]> (events a)).

Definition Count (a : PressureAggregator) (appID : string) (t : Time) : Z :=
  Z.of_nat (length (keep (time_add t (- window a)) (default [] (events a !! appID)))).

Definition prune (cutoff : Time) (slice : list Z) : option (list Z) :=
  match keep cutoff slice with [] => None | kept => Some kept end.

Definition PressuredApps (a : PressureAggregator) (threshold : Z) (t : Time)
  : list string * PressureAggregator :=
  let cutoff := time_add t (- window a) in
  let events' := omap (prune cutoff) (events a) in
  let out := (filter (λ e : string * list Z, threshold ≤ Z.of_nat (length e.2)) (map_to_list events')).*1 in
  (go_sort str_ltb out, mkAgg (window a) (maxEventsPerApp a) events').

Definition Reset (a : PressureAggregator) (appID : string) : PressureAggregator :=
  mkAgg (window a) (maxEventsPerApp a) (delete appID (events a)).

Definition ResetAll (a : PressureAggregator) : PressureAggregator :=
  mkAgg (window a) (maxEventsPerApp a) ∅.

(** *** Histories *)

Inductive step :=
| Refused (appID : string) (t : Time)
| Sweep (threshold : Z) (t : Time)
| Moved (appID : string).

Definition exec (a : PressureAggregator) (s : step) : PressureAggregator :=
  match s with
  | Refused appID t => IncAtCapacity a appID t
  | Sweep threshold t => (PressuredApps a threshold t).2
  | Moved appID => Reset a appID
  end.

Definition run (a : PressureAggregator) (ss : list step) : PressureAggregator := foldl exec a ss.

(** The refusals of an app since it was last moved. *)
Definition history (appID : string) (ss : list step) : list Z :=
  foldl (λ acc s, match s with
                  | Refused a t => if String.eqb a appID then acc ++ [t] else acc
                  | Sweep _ _ => acc
                  | Moved a => if String.eqb a appID then [] else acc
                  end) [] ss.

Definition step_time (s : step) : option Time :=
  match s with Refused _ t => Some t | Sweep _ t => Some t | Moved _ => None end.

Definition times (ss : list step) : list Z := omap step_time ss.

Lemma refusal_run_snoc a ss s : run a (ss ++ [s]) = exec (run a ss) s.
Proof. unfold run. by rewrite foldl_app. Qed.

Lemma refusal_history_snoc appID ss s :
  history appID (ss ++ [s])
  = match s with
    | Refused a t => if String.eqb a appID then history appID ss ++ [t] else history appID ss
    | Sweep _ _ => history appID ss
    | Moved a => if String.eqb a appID then [] else history appID ss
    end.
Proof. unfold history. by rewrite foldl_app. Qed.

Lemma refusal_run_params a ss :
  window (run a ss) = window a ∧ maxEventsPerApp (run a ss) = maxEventsPerApp a.
Proof. induction ss as [|s ss IH] using rev_ind; [done|]. rewrite refusal_run_snoc. by destruct s. Qed.

(** *** Counting in windows *)

Definition count_since (cutoff : Z) (l : list Z) : Z := Z.of_nat (length (keep cutoff l)).

Lemma count_since_app c l k : count_since c (l ++ k) = count_since c l + count_since c k.
Proof. unfold count_since, keep. by rewrite filter_app, length_app, Nat2Z.inj_add. Qed.

Lemma count_since_le c l : 0 ≤ count_since c l ≤ Z.of_nat (length l).
Proof. split; [apply Nat2Z.is_nonneg|]. apply inj_le, length_filter. Qed.

Lemma keep_sorted c l : StronglySorted Z.le l → StronglySorted Z.le (keep c l).
Proof.
  unfold keep. induction 1 as [|x l Hs IH Hf]; [constructor|]. rewrite filter_cons. case_decide; [|done].
  constructor; [done|]. rewrite Forall_forall in Hf |- *. intros y [_ Hy]%list_elem_of_filter. by apply Hf.
Qed.

Lemma count_since_keep c c' l : c ≤ c' → count_since c' (keep c l) = count_since c' l.
Proof.
  intros Hc. unfold count_since, keep. do 2 f_equal. rewrite list_filter_filter. apply list_filter_iff.
  intros x. lia.
Qed.

(** On an ordered slice, dropping the oldest entries caps the count. *)
Lemma count_since_drop c k l :
  StronglySorted Z.le l →
  count_since c (drop k l) = Z.min (Z.of_nat (length l - k)) (count_since c l).
Proof.
  intros Hs. revert k. induction Hs as [|x l Hs IH Hf]; intros k; [by destruct k|].
  assert (c ≤ x → count_since c l = Z.of_nat (length l)) as Hall.
  { intros Hc. clear IH. unfold count_since, keep. f_equal.
    induction Hf as [|y l Hy Hf IH]; [done|]. inversion Hs; subst.
    rewrite filter_cons, decide_True by lia. simpl. f_equal. by apply IH. }
  assert (count_since c (x :: l) = (if decide (c ≤ x) then 1 else 0) + count_since c l) as Ec.
  { unfold count_since, keep. rewrite filter_cons. case_decide; rewrite ?length_cons; lia. }
  pose proof (count_since_le c l). destruct k as [|k]; cbn [drop].
  - pose proof (count_since_le c (x :: l)). rewrite Nat.sub_0_r. lia.
  - rewrite IH, Ec, length_cons. case_decide as Hc; [rewrite (Hall Hc)|]; lia.
Qed.

Lemma drop_sorted k l : StronglySorted Z.le l → StronglySorted Z.le (drop k l).
Proof. intros Hs. rewrite <- (take_drop k l) in Hs. by apply StronglySorted_app in Hs as (_ & _ & ?). Qed.

(** The stored slice of an app counts, up to the cap, like its history in every window that ends now
    or later. *)
Definition counts_like (cap : Z) (w : Duration) (now : Time) (slice hist : list Z) : Prop :=
  StronglySorted Z.le slice ∧ Forall (λ x, x ≤ now) slice ∧
  ∀ t, now ≤ t → Z.min cap (count_since (t - w) slice) = Z.min cap (count_since (t - w) hist).

Definition slice_of (a : PressureAggregator) (appID : string) : list Z := default [] (events a !! appID).

Lemma counts_like_later cap w now now' slice hist :
  now ≤ now' → counts_like cap w now slice hist → counts_like cap w now' slice hist.
Proof.
  intros Hn (? & Hf & Hc). split_and!; [done| |intros; apply Hc; lia].
  eapply Forall_impl; [exact Hf|]. simpl. lia.
Qed.

Lemma sorted_snoc_le l t : StronglySorted Z.le l → Forall (λ x, x ≤ t) l → StronglySorted Z.le (l ++ [t]).
Proof.
  intros Hl Hf. rewrite Forall_forall in Hf. apply StronglySorted_app_2; [|done|repeat constructor].
  intros x y Hx ->%list_elem_of_singleton. by apply Hf.
Qed.

Lemma Forall_keep c l (P : Z → Prop) : Forall P l → Forall P (keep c l).
Proof. rewrite !Forall_forall. intros H x [_ Hx]%list_elem_of_filter. by apply H. Qed.

Lemma counts_like_inc cap w now t slice hist :
  0 < cap → now ≤ t → counts_like cap w now slice hist →
  let s := keep (t - w) slice ++ [t] in
  let n := Z.of_nat (length s) in
  counts_like cap w t (if cap <? n then drop (Z.to_nat (n - cap)) s else s) (hist ++ [t]).
Proof.
  intros Hcap Hn (Hs & Hf & Hc) s n.
  assert (Forall (λ x, x ≤ t) slice) as Hf' by (eapply Forall_impl; [exact Hf|]; simpl; lia).
  assert (StronglySorted Z.le s) as Hss by (apply sorted_snoc_le; [by apply keep_sorted|by apply Forall_keep]).
  assert (Forall (λ x, x ≤ t) s) as Hfs.
  { apply Forall_app. split; [by apply Forall_keep|by repeat constructor]. }
  assert (∀ u, t ≤ u → Z.min cap (count_since (u - w) s) = Z.min cap (count_since (u - w) (hist ++ [t]))) as Hcs.
  { intros u Hu. unfold s. rewrite !count_since_app, count_since_keep by lia. specialize (Hc u ltac:(lia)).
    pose proof (count_since_le (u - w) [t]). lia. }
  case_match; [|done]. breflect. split_and!.
  - by apply drop_sorted.
  - by apply Forall_drop.
  - intros u Hu. rewrite count_since_drop, <- Hcs by done. unfold n in *. lia.
Qed.

Lemma prune_counts cap w now t slice hist :
  now ≤ t → counts_like cap w now slice hist →
  counts_like cap w t (default [] (prune (t - w) slice)) hist.
Proof.
  intros Hn (Hs & Hf & Hc).
  assert (default [] (prune (t - w) slice) = keep (t - w) slice) as ->.
  { unfold prune. by destruct (keep _ _). }
  split_and!; [by apply keep_sorted| |].
  - apply Forall_keep. eapply Forall_impl; [exact Hf|]. simpl. lia.
  - intros u Hu. rewrite count_since_keep by lia. apply Hc. lia.
Qed.

Lemma run_counts W cap ss now appID :
  0 < cap → StronglySorted Z.le (times ss) → Forall (λ x, x ≤ now) (times ss) →
  counts_like cap W now (slice_of (run (mkAgg W cap ∅) ss) appID) (history appID ss).
Proof.
  intros Hcap. revert now. induction ss as [|s ss IH] using rev_ind; intros now Hs Hf.
  { split_and!; [constructor|constructor|done]. }
  unfold times in Hs, Hf. rewrite omap_app in Hs, Hf. fold (times ss) in Hs, Hf.
  apply StronglySorted_app in Hs as (Hlt & Hs & _). apply Forall_app in Hf as [Hf Hlast].
  rewrite refusal_run_snoc, refusal_history_snoc. destruct (refusal_run_params (mkAgg W cap ∅) ss) as [Hw Hm]. simpl in Hw, Hm.
  assert (∀ t, step_time s = Some t → Forall (λ x, x ≤ t) (times ss) ∧ t ≤ now) as Htime.
  { intros t Ht. simpl in Hlt, Hlast. rewrite Ht in Hlt, Hlast. apply Forall_cons in Hlast as [? _].
    split; [|done]. apply Forall_forall. intros x Hx. apply (Hlt x t); [done|by left]. }
  unfold slice_of in *. destruct s as [a t|thr t|a]; simpl.
  - destruct (Htime t eq_refl) as [Hft Htn]. destruct (String.eqb_spec a appID) as [->|Hne].
    + rewrite lookup_insert_eq, Hw, Hm. unfold time_add. simpl.
      apply (counts_like_later _ _ t); [done|]. apply (counts_like_inc cap W t t); [done|done|]. by apply IH.
    + rewrite lookup_insert_ne by done. by apply IH.
  - destruct (Htime t eq_refl) as [Hft Htn]. rewrite lookup_omap, Hw. unfold time_add.
    apply (counts_like_later _ _ t); [done|]. specialize (IH t Hs Hft).
    destruct (events (run (mkAgg W cap ∅) ss) !! appID) as [slice|]; simpl in *; [|done].
    by apply (prune_counts _ _ t).
  - destruct (String.eqb_spec a appID) as [->|Hne].
    + rewrite lookup_delete_eq. split_and!; [constructor|constructor|done].
    + rewrite lookup_delete_ne by done. by apply IH.
Qed.

Lemma PressuredApps_elem a threshold t appID :
  0 < threshold →
  appID ∈ (PressuredApps a threshold t).1 ↔ threshold ≤ count_since (t - window a) (slice_of a appID).
Proof.
  intros Hthr. unfold PressuredApps, slice_of, time_add. simpl. rewrite elem_of_go_sort, list_elem_of_fmap.
  replace (t + - window a) with (t - window a) by lia. split.
  - intros ([k l] & -> & [Hl Hin]%list_elem_of_filter). apply elem_of_map_to_list in Hin.
    rewrite lookup_omap in Hin. simpl in *. destruct (events a !! k) as [slice|]; [|done]. simpl in *.
    unfold prune in Hin. destruct (keep _ slice) eqn:E; [done|]. injection Hin as <-. unfold count_since. by rewrite E.
  - intros Hc. destruct (events a !! appID) as [slice|] eqn:Es; simpl in Hc; [|unfold count_since in Hc; simpl in Hc; lia].
    exists (appID, keep (t - window a) slice). split; [done|]. apply list_elem_of_filter. split; [done|].
    apply elem_of_map_to_list. rewrite lookup_omap, Es. simpl. unfold prune.
    destruct (keep _ slice) eqn:E; [|done]. unfold count_since in Hc. rewrite E in Hc. simpl in Hc. lia.
Qed.

Lemma NoDup_fst_filter (P : string * list Z → Prop) `{∀ e, Decision (P e)} (m : gmap string (list Z)) :
  NoDup (filter P (map_to_list m)).*1.
Proof.
  apply NoDup_fmap_fst; [|by apply NoDup_filter, NoDup_map_to_list].
  intros k x y [_ Hx%elem_of_map_to_list]%list_elem_of_filter [_ Hy%elem_of_map_to_list]%list_elem_of_filter.
  congruence.
Qed.

Lemma pressured_iff W cap ss threshold now appID :
  0 < threshold ≤ cap → StronglySorted Z.le (times ss) → Forall (λ x, x ≤ now) (times ss) →
  appID ∈ (PressuredApps (run (mkAgg W cap ∅) ss) threshold now).1 ↔
  threshold ≤ count_since (now - W) (history appID ss).
Proof.
  intros Hthr Hs Hf. rewrite PressuredApps_elem by lia.
  destruct (refusal_run_params (mkAgg W cap ∅) ss) as [-> _]. simpl.
  destruct (run_counts W cap ss now appID ltac:(lia) Hs Hf) as (_ & _ & Hc). specialize (Hc now ltac:(lia)). lia.
Qed.

(** the pressure sweep finds exactly the pressured apps. After any history of refusals, sweeps and moves
    in the order of the clock, a sweep with a threshold within the stored cap lists an app exactly when
    its refusals in the window, counted since it was last moved, reach the threshold; the list is in
    ascending order without repetition. Neither the pruning by earlier sweeps nor the per-app cap on
    stored events loses a decision. *)
Theorem pressured_apps_exact W cap ss threshold now :
  0 < threshold ≤ cap → StronglySorted Z.le (times ss) → Forall (λ x, x ≤ now) (times ss) →
  let apps := (PressuredApps (run (mkAgg W cap ∅) ss) threshold now).1 in
  (∀ appID, appID ∈ apps ↔ threshold ≤ count_since (now - W) (history appID ss)) ∧
  NoDup apps ∧ StronglySorted (not_after str_ltb) apps.
Proof.
  intros Hthr Hs Hf apps. split_and!.
  - intros appID. by apply pressured_iff.
  - unfold apps, PressuredApps. simpl. rewrite (go_sort_perm str_ltb).
    apply (NoDup_fst_filter (λ e : string * list Z, threshold ≤ Z.of_nat (length e.2))).
  - apply (go_sort_sorted str_ltb).
Qed.

Lemma pressured_apps_exact_witness :
  let ss := [Refused "b" 0; Refused "a" (50 * Second); Refused "b" (55 * Second);
             Refused "a" (60 * Second); Refused "b" (70 * Second)] in
  (PressuredApps (run (mkAgg (60 * Second) 10 ∅) ss) 2 (70 * Second)).1 = ["a"; "b"]%string ∧
  NoDup (PressuredApps (run (mkAgg (60 * Second) 10 ∅) ss) 2 (70 * Second)).1.
Proof.
  split; [by vm_compute|].
  apply (pressured_apps_exact (60 * Second) 10
           [Refused "b" 0; Refused "a" (50 * Second); Refused "b" (55 * Second);
            Refused "a" (60 * Second); Refused "b" (70 * Second)] 2 (70 * Second)); [lia| |];
    repeat constructor; vm_compute; intros [=].
Defined.
End Pressure.

(** ** The ownership column *)

Module Rebalance.

Inductive AppStatus := AppActive | AppEvictedCold | AppDeleted.

#[global] Instance AppStatus_eq_dec : EqDecision AppStatus.
Proof. solve_decision. Defined.

(** The fields of an app row the rebalancers read. *)
Record App := mkApp {
  ID : string;
  NodeID : string;
  Status : AppStatus;
  RAMMB : Z;
  ReassignedAt : option Time;
  OverflowNode : option string;
}.

#[local] Abbreviation apps_table := (gmap string App).

Definition eligible (a : App) : bool :=
  match Status a with AppActive | AppEvictedCold => true | AppDeleted => false end.

(** [now.Sub(reassignedAt) < cooldown] *)
Definition in_cooldown (now : Time) (cooldownSeconds : Z) (a : App) : bool :=
  match ReassignedAt a with
  | None => false
  | Some t => time_sub now t <? cooldownSeconds *! Second
  end.

Definition orphaned (nodes : gmap string Placement.ComputeNode) (now : Time) (cooldownSeconds : Z)
    (a : App) : bool :=
  negb (String.eqb (NodeID a) EmptyString) && eligible a &&
  match nodes !! NodeID a with
  | None => false
  | Some n => negb (Placement.Active n)
  end && negb ((0 <=? cooldownSeconds) && in_cooldown now cooldownSeconds a).

(** Never reassigned first, then the longest ago, then by id. *)
Definition orphan_less (a b : App) : bool :=
  match ReassignedAt a, ReassignedAt b with
  | None, Some _ => true
  | Some _, None => false
  | None, None => str_ltb (ID a) (ID b)
  | Some t, Some u => if negb (t =? u) then t <? u else str_ltb (ID a) (ID b)
  end.

Definition ListOrphanedApps (nodes : gmap string Placement.ComputeNode) (now : Time)
    (cooldownSeconds maxPerTick : Z) (m : apps_table) : list App :=
  if maxPerTick <? 1 then []
  else
    let out := go_sort orphan_less
                 (filter (λ a, orphaned nodes now cooldownSeconds a = true) (map_to_list m).*2) in
    if maxPerTick <? Z.of_nat (length out) then take (Z.to_nat maxPerTick) out else out.

Inductive reassign_error := ErrEmptyArgument | ErrNotFound | ErrConflict | ErrStore.

Definition ReassignAppOwner (now : Time) (m : apps_table) (appID from to : string)
  : reassign_error + apps_table :=
  if String.eqb appID EmptyString then inl ErrEmptyArgument
  else if String.eqb from EmptyString then inl ErrEmptyArgument
  else if String.eqb to EmptyString then inl ErrEmptyArgument
  else match m !! appID with
       | None => inl ErrNotFound
       | Some a =>
           if negb (String.eqb (NodeID a) from) then inl ErrConflict
           else if negb (eligible a) then inl ErrConflict
           else inr (<[appID := mkApp (ID a) to (Status a) (RAMMB a) (Some now) (OverflowNode a)]> m)
       end.

(** A write to the column; the log keeps those that took effect. *)
Record write := mkWrite { wApp : string; wFrom : string; wTo : string; wAt : Time }.

Definition apply_write (m : apps_table) (w : write) : option apps_table :=
  match ReassignAppOwner (wAt w) m (wApp w) (wFrom w) (wTo w) with inr m' => Some m' | inl _ => None end.

(** What other schedulers do meanwhile; a refused write has no effect. *)
Fixpoint peers_write (m : apps_table) (ws : list write) : list write * apps_table :=
  match ws with
  | [] => ([], m)
  | w :: ws =>
      match apply_write m w with
      | Some m' => let '(log, m2) := peers_write m' ws in (w :: log, m2)
      | None => peers_write m ws
      end
  end.

Definition needed (a : App) : Z := RAMMB a +! PerVMOverheadMB.

(** One turn of the loop of RebalanceOrphanedApps.  [peers] are the writes of other schedulers since the
    previous turn, [fault] makes the write fail with a store error, [at_] is the clock of the write.
    The state is the table, the headroom already used, the apps moved so far and the log of writes. *)
Record turn := mkTurn { peers : list write; fault : bool; at_ : Time }.

Record batch := mkBatch {
  table : apps_table;
  usedMB : Z;
  moved : list App;
  log : list write;
}.

Section orphans.
Context (owner deadNodeID : string) (now : Time) (cooldownSec ceiling : Z).

Definition orphan_turn (b : batch) (app : App) (t : turn) : batch :=
  let '(plog, m) := peers_write (table b) (peers t) in
  let b := mkBatch m (usedMB b) (moved b) (log b ++ plog) in
  if negb (String.eqb deadNodeID EmptyString) && negb (String.eqb (NodeID app) deadNodeID) then b
  else if negb (eligible app) then b
  else if in_cooldown now cooldownSec app then b
  else if ceiling <? usedMB b +! needed app then b
  else if fault t then b
  else match ReassignAppOwner (at_ t) (table b) (ID app) (NodeID app) owner with
       | inl _ => b
       | inr m' => mkBatch m' (usedMB b +! needed app) (moved b ++ [app])
                     (log b ++ [mkWrite (ID app) (NodeID app) owner (at_ t)])
       end.

Definition no_turn : turn := mkTurn [] false now.

Fixpoint orphan_loop (b : batch) (orphans : list App) (ts : list turn) : batch :=
  match orphans with
  | [] => b
  | app :: orphans =>
      orphan_loop (orphan_turn b app (hd no_turn ts)) orphans (tl ts)
  end.
End orphans.

Definition RebalanceCooldownSeconds : Z := 60.
Definition RebalanceMaxPerTickPerNode : Z := 50.

(** What the store and the configuration answer: [listOK] and [usedRead] are the results of the two
    reads, [ownCeiling] is admissionCeilingForOwn, [cfgCooldown] and [cfgMax] the overrides of
    WithRebalanceConfig (zero: not set). *)
Record fleet := mkFleet {
  nodes : gmap string Placement.ComputeNode;
  listOK : bool;
  usedRead : option Z;
  ownCeiling : Z;
  cfgCooldown : Z;
  cfgMax : Z;
}.

Definition cooldown_of (f : fleet) : Z := if 0 <? cfgCooldown f then cfgCooldown f else RebalanceCooldownSeconds.
Definition max_of (f : fleet) : Z := if 0 <? cfgMax f then cfgMax f else RebalanceMaxPerTickPerNode.
Definition ceiling_of (f : fleet) : Z :=
  if ownCeiling f <=? 0 then RAMAdmissionCeilingMB else ownCeiling f.

(** [inl tt] is a returned error. *)
Definition RebalanceOrphanedApps (f : fleet) (owner deadNodeID : string) (now : Time) (ts : list turn)
    (m : apps_table) : (unit + unit) * batch :=
  let idle := mkBatch m 0 [] [] in
  if String.eqb owner EmptyString then (inr tt, idle)
  else if negb (listOK f) then (inl tt, idle)
  else match ListOrphanedApps (nodes f) now (cooldown_of f) (max_of f) m with
       | [] => (inr tt, idle)
       | orphans =>
           match usedRead f with
           | None => (inl tt, idle)
           | Some used =>
               (inr tt, orphan_loop owner deadNodeID now (cooldown_of f) (ceiling_of f)
                          (mkBatch m used [] []) orphans ts)
           end
       end.

(** The compute_node_changed watcher: only a parsed payload of a node that went inactive is acted on. *)
Definition handleEvent (f : fleet) (owner : string) (now : Time) (ts : list turn)
    (payload : option (string * bool)) (m : apps_table) : batch :=
  match payload with
  | Some (node, false) =>
      if String.eqb node EmptyString then mkBatch m 0 [] []
      else (RebalanceOrphanedApps f owner node now ts m).2
  | _ => mkBatch m 0 [] []
  end.

(** *** Every change of owner is a logged conditional write *)

Fixpoint replay (m : apps_table) (ws : list write) : option apps_table :=
  match ws with
  | [] => Some m
  | w :: ws => apply_write m w ≫= λ m', replay m' ws
  end.

Lemma replay_app m ws1 ws2 : replay m (ws1 ++ ws2) = replay m ws1 ≫= λ m', replay m' ws2.
Proof.
  revert m. induction ws1 as [|w ws IH]; intros m; [done|]. simpl.
  destruct (apply_write m w) as [m'|]; [|done]. apply IH.
Qed.

Lemma peers_replay m ws : replay m (peers_write m ws).1 = Some (peers_write m ws).2.
Proof.
  revert m. induction ws as [|w ws IH]; intros m; [done|]. simpl.
  destruct (apply_write m w) as [m'|] eqn:E; [|done]. specialize (IH m').
  destruct (peers_write m' ws) as [log m2]. simpl in *. by rewrite E.
Qed.

Definition sum_needed (l : list App) : Z := foldr (λ a acc, needed a + acc) 0 l.

Lemma sum_needed_app l k : sum_needed (l ++ k) = sum_needed l + sum_needed k.
Proof. unfold sum_needed. induction l as [|a l IH]; [done|]. simpl. lia. Qed.

Section batch_inv.
Context (owner dead : string) (now : Time) (cooldown ceiling used0 : Z) (m0 : apps_table).
Hypothesis Hceil : ceiling ≤ 2 ^ 40.
Hypothesis Hused : 0 ≤ used0 ≤ 2 ^ 40.

Record batch_ok (b : batch) : Prop := {
  bo_replay : replay m0 (log b) = Some (table b);
  bo_used : usedMB b = used0 + sum_needed (moved b);
  bo_fits : moved b = [] ∨ usedMB b ≤ ceiling;
  bo_range : 0 ≤ usedMB b ≤ 2 ^ 40;
  bo_moved : Forall (λ a, (dead = EmptyString ∨ NodeID a = dead) ∧ eligible a = true ∧
                          in_cooldown now cooldown a = false ∧
                          ∃ t, mkWrite (ID a) (NodeID a) owner t ∈ log b) (moved b);
}.

Lemma batch_ok_peers b t :
  batch_ok b →
  batch_ok (mkBatch (peers_write (table b) (peers t)).2 (usedMB b) (moved b)
              (log b ++ (peers_write (table b) (peers t)).1)).
Proof using Type.
  intros [Hr Hu Hf Hrg Hm]. split; simpl; try done.
  - rewrite replay_app, Hr. simpl. apply peers_replay.
  - eapply Forall_impl; [exact Hm|]. simpl. intros a (? & ? & ? & u & ?). split_and!; [done..|].
    exists u. apply elem_of_app. by left.
Qed.

Lemma orphan_turn_ok b app t :
  batch_ok b → 0 ≤ RAMMB app ≤ 2 ^ 31 →
  batch_ok (orphan_turn owner dead now cooldown ceiling b app t).
Proof using Hceil Hused.
  intros Hb Hram. unfold orphan_turn. pose proof (batch_ok_peers b t Hb) as Hb'.
  destruct (peers_write (table b) (peers t)) as [plog m]. simpl in Hb'.
  set (b' := mkBatch m (usedMB b) (moved b) (log b ++ plog)) in *. 
  destruct (negb (String.eqb dead EmptyString) && _) eqn:Ed; [done|].
  destruct (eligible app) eqn:Ee; [simpl|done]. destruct (in_cooldown now cooldown app) eqn:Ec; [done|].
  assert (needed app = RAMMB app + PerVMOverheadMB) as Hn.
  { unfold needed, PerVMOverheadMB. apply i64_id. unfold in_i64. lia. }
  destruct Hb' as [Hr Hu Hf Hrg Hm]. simpl in *.
  rewrite i64_id by (unfold in_i64; rewrite Hn; unfold PerVMOverheadMB; lia).
  destruct (Z.ltb_spec ceiling (usedMB b + needed app)) as [|Hle]; [done|].
  destruct (fault t); [done|].
  destruct (ReassignAppOwner (at_ t) m (ID app) (NodeID app) owner) as [|m'] eqn:Er; [done|].
  split; simpl.
  - rewrite replay_app, Hr. simpl. unfold apply_write. simpl. by rewrite Er.
  - rewrite sum_needed_app. simpl. lia.
  - right. lia.
  - rewrite Hn in *. unfold PerVMOverheadMB in *. lia.
  - apply Forall_app. split.
    + eapply Forall_impl; [exact Hm|]. simpl. intros a (? & ? & ? & u & ?). split_and!; [done..|].
      exists u. apply elem_of_app. by left.
    + apply Forall_singleton. split_and!; [|done|done|exists (at_ t); set_solver].
      destruct (String.eqb_spec dead EmptyString); [by left|]. right. simpl in Ed.
      by destruct (String.eqb_spec (NodeID app) dead).
Qed.

Lemma orphan_loop_ok b orphans ts :
  batch_ok b → Forall (λ a, 0 ≤ RAMMB a ≤ 2 ^ 31) orphans →
  batch_ok (orphan_loop owner dead now cooldown ceiling b orphans ts).
Proof using Hceil Hused.
  revert b ts. induction orphans as [|a orphans IH]; intros b ts Hb Hf; [done|].
  apply Forall_cons in Hf as [Ha Hf]. simpl. apply IH; [|done]. by apply orphan_turn_ok.
Qed.

Lemma orphan_loop_sublist b orphans ts :
  ∃ l, moved (orphan_loop owner dead now cooldown ceiling b orphans ts) = moved b ++ l ∧ l `sublist_of` orphans.
Proof using Type.
  clear Hceil Hused. revert b ts. induction orphans as [|a orphans IH]; intros b ts; simpl.
  { exists []. by rewrite app_nil_r. }
  destruct (IH (orphan_turn owner dead now cooldown ceiling b a (hd (no_turn now) ts)) (tl ts)) as (l & Hl & Hs).
  assert (moved (orphan_turn owner dead now cooldown ceiling b a (hd (no_turn now) ts)) = moved b ∨
          moved (orphan_turn owner dead now cooldown ceiling b a (hd (no_turn now) ts)) = moved b ++ [a]) as [E|E].
  { unfold orphan_turn. destruct (peers_write _ _). repeat case_match; auto. }
  - exists l. rewrite Hl, E. split; [done|by apply sublist_cons].
  - exists (a :: l). rewrite Hl, E, <- app_assoc. split; [done|by apply sublist_skip].
Qed.
End batch_inv.

Definition ram_ok (m : apps_table) : Prop := map_Forall (λ _ a, 0 ≤ RAMMB a ≤ 2 ^ 31) m.

Lemma ListOrphanedApps_spec f now cd mx m :
  (∀ a, a ∈ ListOrphanedApps f now cd mx m → orphaned f now cd a = true ∧ ∃ id, m !! id = Some a) ∧
  Z.of_nat (length (ListOrphanedApps f now cd mx m)) ≤ Z.max 0 mx.
Proof.
  unfold ListOrphanedApps. destruct (Z.ltb_spec mx 1); [split; [set_solver|simpl; lia]|].
  set (l := go_sort orphan_less _).
  assert (∀ a, a ∈ l → orphaned f now cd a = true ∧ ∃ id, m !! id = Some a) as Hl.
  { intros a. unfold l. rewrite (elem_of_go_sort orphan_less), list_elem_of_filter, list_elem_of_fmap.
    intros [? ([id b] & -> & Hin%elem_of_map_to_list)]. eauto. }
  destruct (Z.ltb_spec mx (Z.of_nat (length l))).
  - split; [intros a Ha; apply Hl; rewrite <- (take_drop (Z.to_nat mx) l); apply elem_of_app; by left|].
    rewrite length_take. lia.
  - split; [done|lia].
Qed.

(** the drain of a dead node is admission-safe under races. Whatever other schedulers write to the
    ownership column between the reads and writes of a batch, and whichever writes fail: every change
    of owner in the resulting table is a conditional write that found the expected owner; each app
    moved was listed as orphaned (its node inactive), matches the dead node of the event and is outside
    its cooldown, and its write to this scheduler is in the log; at most the per-tick maximum is moved; and the RAM
    moved fits, on top of what the node already uses, under the ceiling. *)
Theorem orphan_drain_safe f owner dead now ts m used :
  ram_ok m → usedRead f = Some used → 0 ≤ used ≤ 2 ^ 40 → ownCeiling f ≤ 2 ^ 40 →
  let b := (RebalanceOrphanedApps f owner dead now ts m).2 in
  replay m (log b) = Some (table b) ∧
  Forall (λ a, orphaned (nodes f) now (cooldown_of f) a = true ∧ (dead = EmptyString ∨ NodeID a = dead) ∧
               in_cooldown now (cooldown_of f) a = false ∧
               ∃ t, mkWrite (ID a) (NodeID a) owner t ∈ log b) (moved b) ∧
  Z.of_nat (length (moved b)) ≤ max_of f ∧
  (moved b = [] ∨ used + sum_needed (moved b) ≤ ceiling_of f).
Proof.
  intros Hram Hu Hur Hcr. cbv zeta. unfold RebalanceOrphanedApps. rewrite Hu.
  assert (0 < max_of f) as Hmax.
  { unfold max_of, RebalanceMaxPerTickPerNode. case_match; breflect; lia. }
  destruct (String.eqb owner EmptyString); [simpl; split_and!; [done|done|lia|by left]|].
  destruct (listOK f); cbn [negb]; [|simpl; split_and!; [done|done|lia|by left]].
  destruct (ListOrphanedApps_spec (nodes f) now (cooldown_of f) (max_of f) m) as [Hlist Hlen].
  destruct (ListOrphanedApps (nodes f) now (cooldown_of f) (max_of f) m) as [|a0 l0] eqn:El.
  { simpl. split_and!; [done|done|lia|by left]. }
  set (l := a0 :: l0) in *. cbn [snd].
  assert (ceiling_of f ≤ 2 ^ 40) as Hc by (unfold ceiling_of; case_match; [by vm_compute|done]).
  destruct (orphan_loop_sublist owner dead now (cooldown_of f) (ceiling_of f) (mkBatch m used [] []) l ts)
    as (k & Hk & Hsub). change (moved (mkBatch m used [] []) ++ k) with k in Hk.
  destruct (orphan_loop_ok owner dead now (cooldown_of f) (ceiling_of f) used m Hc Hur
              (mkBatch m used [] []) l ts) as [Hr Huse Hfit Hrange Hm].
  { split; simpl; [done|lia|by left|done|done]. }
  { apply Forall_forall. intros a Ha. destruct (Hlist a Ha) as [_ (id & Hid)]. by apply Hram in Hid. }
  split_and!; [done| | |].
  - apply Forall_forall. intros a Ha. rewrite Forall_forall in Hm. destruct (Hm a Ha) as (? & ? & ? & ?).
    split_and!; [|done..]. apply Hlist. rewrite Hk in Ha.
    exact (elem_of_submseteq _ _ _ Ha (sublist_submseteq _ _ Hsub)).
  - rewrite Hk. apply sublist_length in Hsub. lia.
  - rewrite <- Huse. done.
Qed.

Definition node (id : string) (active : bool) : Placement.ComputeNode :=
  Placement.mkNode id id EmptyString 1000 4 active None None.

Definition sample_fleet : fleet :=
  mkFleet {["n1"%string := node "n1" true; "n2"%string := node "n2" false]} true (Some 500) 1000 0 0.

Definition sample_app (id owner : string) (ram : Z) : App := mkApp id owner AppActive ram None None.

Definition sample_table : apps_table :=
  {["a"%string := sample_app "a" "n2" 256; "b"%string := sample_app "b" "n2" 256;
    "c"%string := sample_app "c" "n1" 128]}.

(** A peer claims "a" first; "b" then fits and is moved. *)
Definition sample_turns : list turn :=
  [mkTurn [mkWrite "a" "n2" "n3" (2 * Minute)] false (2 * Minute); mkTurn [] false (2 * Minute)].

Lemma orphan_drain_safe_witness :
  let b := (RebalanceOrphanedApps sample_fleet "n1" "n2" Minute sample_turns sample_table).2 in
  ID <$> moved b = ["b"%string] ∧ replay sample_table (log b) = Some (table b).
Proof.
  split; [by vm_compute|].
  apply (orphan_drain_safe sample_fleet "n1" "n2" Minute sample_turns sample_table 500);
    [|done|lia|by vm_compute].
  apply (bool_decide_unpack _). by vm_compute.
Defined.

(** *** Claims *)

Lemma apply_write_inv m w m' :
  apply_write m w = Some m' →
  ∃ a, m !! wApp w = Some a ∧ NodeID a = wFrom w ∧
       m' = <[wApp w := mkApp (ID a) (wTo w) (Status a) (RAMMB a) (Some (wAt w)) (OverflowNode a)]> m.
Proof.
  unfold apply_write, ReassignAppOwner. destruct (String.eqb _ _); [done|]. destruct (String.eqb _ _); [done|].
  destruct (String.eqb _ _); [done|]. destruct (m !! wApp w) as [a|]; [|done].
  destruct (String.eqb_spec (NodeID a) (wFrom w)); simpl; [|done]. destruct (eligible a); simpl; [|done].
  intros [= <-]. by exists a.
Qed.

Definition claims (id from : string) (ws : list write) : list write :=
  filter (λ w, wApp w = id ∧ wFrom w = from) ws.

(** Once an app has left a node to which nothing is moved, no later write finds it there. *)
Lemma no_more_claims id d m ws m' :
  replay m ws = Some m' → Forall (λ w, wTo w ≠ d) ws →
  (∀ a, m !! id = Some a → NodeID a ≠ d) → claims id d ws = [].
Proof.
  revert m. induction ws as [|w ws IH]; intros m Hr Hf Hid; [done|].
  apply Forall_cons in Hf as [Hw Hf]. simpl in Hr.
  destruct (apply_write m w) as [m1|] eqn:E; [|done]. simpl in Hr.
  apply apply_write_inv in E as (a & Ha & Hfrom & ->). unfold claims. rewrite filter_cons.
  rewrite decide_False by (intros [<- Hd]; apply (Hid a Ha); congruence).
  apply (IH _ Hr Hf). intros b Hb. destruct (decide (wApp w = id)) as [<-|Hne].
  - rewrite lookup_insert_eq in Hb. by injection Hb as <-.
  - rewrite lookup_insert_ne in Hb by done. by apply Hid.
Qed.

(** an orphaned app is claimed by one scheduler only. In every sequence of ownership writes that took
    effect, whoever issued them, an app is taken away from a node at most once as long as nothing is
    moved to that node (it is dead): of all racing schedulers exactly the first one wins. *)
Theorem orphan_claimed_once m ws m' id d :
  replay m ws = Some m' → Forall (λ w, wTo w ≠ d) ws → (length (claims id d ws) ≤ 1)%nat.
Proof.
  revert m. induction ws as [|w ws IH]; intros m Hr Hf; [simpl; lia|].
  apply Forall_cons in Hf as [Hw Hf]. simpl in Hr.
  destruct (apply_write m w) as [m1|] eqn:E; [|done]. simpl in Hr. unfold claims. rewrite filter_cons.
  case_decide as Hc; [|by apply (IH m1)]. destruct Hc as [<- <-].
  apply apply_write_inv in E as (a & Ha & Hfrom & ->). simpl.
  fold (claims (wApp w) (wFrom w) ws). rewrite (no_more_claims _ _ _ _ _ Hr Hf); [done|].
  intros b Hb. rewrite lookup_insert_eq in Hb. by injection Hb as <-.
Qed.

Lemma orphan_claimed_once_witness :
  let b := (RebalanceOrphanedApps sample_fleet "n1" "n2" Minute sample_turns sample_table).2 in
  length (log b) = 2%nat ∧ (length (claims "a" "n2" (log b)) ≤ 1)%nat.
Proof.
  split; [by vm_compute|].
  apply (orphan_claimed_once sample_table _
           (table (RebalanceOrphanedApps sample_fleet "n1" "n2" Minute sample_turns sample_table).2)).
  - by vm_compute.
  - apply (bool_decide_unpack _). by vm_compute.
Defined.

(** ** Capacity pressure *)

Record sweeper := mkSweeper {
  sTable : apps_table;
  sAgg : Pressure.PressureAggregator;
  sCounter : gmap string Z;                   (* pressureSweepCounter *)
  sLabels : list (string * string);           (* metric axis and label of every observation *)
  sLog : list write;
}.

Definition observe (axis label : string) (s : sweeper) : sweeper :=
  mkSweeper (sTable s) (sAgg s) (sCounter s) (sLabels s ++ [(axis, label)]) (sLog s).
Definition observePressure : string → sweeper → sweeper := observe "pressure".
Definition observeOverflowSpill : string → sweeper → sweeper := observe "overflow".

Definition IncrementPressureSweepCounter (appID : string) (s : sweeper) : sweeper :=
  mkSweeper (sTable s) (sAgg s) (<[appID := zget (sCounter s) appID +! 1]> (sCounter s)) (sLabels s) (sLog s).

Definition ResetPressureSweepCounter (appID : string) (s : sweeper) : sweeper :=
  mkSweeper (sTable s) (sAgg s) (delete appID (sCounter s)) (sLabels s) (sLog s).

Section pressured.
(** The fleet as the engine reads it; [Placement.now] is the clock of the sweep. *)
Context (e : Placement.EngineView) (cooldownSec : Z).

(** The preferred overflow node when it qualifies, otherwise the first peer with headroom; the boolean
    is overflowTargetUsed and the labels are those observed on the way. *)
Definition choose_peer (app : App) : (unit + string * bool) * list (string * string) :=
  let first (labels : list (string * string)) :=
    match Placement.findPeerWithHeadroom e (RAMMB app) with
    | inl _ => (inl tt, labels)
    | inr peer =>
        if String.eqb peer EmptyString
        then (inr (EmptyString, false), labels ++ [("pressure"%string, "no_headroom"%string)])
        else (inr (peer, false), labels ++ [("overflow"%string, "fallback_used"%string)])
    end in
  match OverflowNode app with
  | Some target =>
      if String.eqb target EmptyString then first []
      else
        let peer := match Placement.findOverflowPeerWithHeadroom e (RAMMB app) target with
                    | inl _ => EmptyString | inr p => p end in
        if String.eqb peer EmptyString
        then first [("pressure"%string, "overflow_target_unavailable"%string);
                    ("overflow"%string, "unavailable"%string)]
        else (inr (peer, true), [])
  | None => first []
  end.

Definition observe_all (ls : list (string * string)) (s : sweeper) : sweeper :=
  foldl (λ s l, observe l.1 l.2 s) s ls.

(** The table after the other schedulers' writes of this turn. *)
Definition meanwhile (t : turn) (s : sweeper) : sweeper :=
  let '(plog, m) := peers_write (sTable s) (peers t) in
  mkSweeper m (sAgg s) (sCounter s) (sLabels s) (sLog s ++ plog).

Definition RebalancePressuredApps (appID : string) (t : turn) (s : sweeper) : (unit + unit) * sweeper :=
  let owner := Placement.ownerNodeID e in
  if String.eqb owner EmptyString then (inr tt, s)
  else if String.eqb appID EmptyString then (inr tt, s)
  else match sTable s !! appID with
  | None => (inl tt, s)
  | Some app =>
      let s := meanwhile t s in
      if String.eqb (NodeID app) EmptyString then (inr tt, observePressure "no_eligibility" s)
      else if negb (String.eqb (NodeID app) owner) then (inr tt, observePressure "no_eligibility" s)
      else if negb (eligible app) then (inr tt, observePressure "no_eligibility" s)
      else if in_cooldown (Placement.now e) cooldownSec app then (inr tt, observePressure "cooldown" s)
      else
      let '(choice, labels) := choose_peer app in
      let s := observe_all labels s in
      match choice with
      | inl _ => (inl tt, s)
      | inr (peer, overflowTargetUsed) =>
          if String.eqb peer EmptyString then (inr tt, s)
          else match (if fault t then inl ErrStore
                      else ReassignAppOwner (at_ t) (sTable s) (ID app) (NodeID app) peer) with
          | inl ErrConflict => (inr tt, observePressure "conflict" s)
          | inl _ => (inr tt, observePressure "no_eligibility" s)
          | inr m' =>
              let s := mkSweeper m' (Pressure.Reset (sAgg s) (ID app)) (sCounter s) (sLabels s)
                         (sLog s ++ [mkWrite (ID app) (NodeID app) peer (at_ t)]) in
              let s := observePressure "migrated" (ResetPressureSweepCounter (ID app) s) in
              (inr tt, if overflowTargetUsed then observeOverflowSpill "used" s else s)
          end
      end
  end.

(** The per-cadence unit of the watcher: every pressured app in order; errors are logged and skipped. *)
Fixpoint sweep_apps (apps : list string) (ts : list turn) (s : sweeper) : sweeper :=
  match apps with
  | [] => s
  | appID :: apps =>
      let s := IncrementPressureSweepCounter appID s in
      sweep_apps apps (tl ts)
        (RebalancePressuredApps appID (hd (no_turn (Placement.now e)) ts) s).2
  end.

Definition tick (thresholdPerMin : Z) (ts : list turn) (s : sweeper) : sweeper :=
  let '(apps, agg) := Pressure.PressuredApps (sAgg s) thresholdPerMin (Placement.now e) in
  sweep_apps apps ts (mkSweeper (sTable s) agg (sCounter s) (sLabels s) (sLog s)).

(** The once-per-startup sweep: a tick that reports how many apps it handled. *)
Definition RunColdStartSweep (thresholdPerMin : Z) (ts : list turn) (s : sweeper) : Z * sweeper :=
  (Z.of_nat (length (Pressure.PressuredApps (sAgg s) thresholdPerMin (Placement.now e)).1),
   tick thresholdPerMin ts s).
End pressured.

(** *** What a move guarantees *)

Definition node_ceiling (n : Placement.ComputeNode) : Z :=
  if Placement.AdmissionCeilingMB n <=? 0 then RAMAdmissionCeilingMB else Placement.AdmissionCeilingMB n.

(** [n] is an active node other than this scheduler's own with room for the app. *)
Definition has_room (e : Placement.EngineView) (ram : Z) (n : Placement.ComputeNode) : Prop :=
  Placement.ID n ≠ Placement.ownerNodeID e ∧
  ∃ used, Placement.ComputeNodeUsedMB e (Placement.ID n) = Some used ∧
          ram +! PerVMOverheadMB ≤ node_ceiling n -! used.

Definition preferred_ok (e : Placement.EngineView) (app : App) (target : string) : Prop :=
  OverflowNode app = Some target ∧ target ≠ EmptyString ∧
  ∃ n, Placement.ComputeNodeByID e target = Some n ∧ Placement.Active n = true ∧ has_room e (RAMMB app) n.

(** The peer is the preferred overflow node when that has room, and otherwise the first active node by
    name that has. *)
Definition right_peer (e : Placement.EngineView) (app : App) (peer : string) : Prop :=
  preferred_ok e app peer ∨
  (∀ target, ¬ preferred_ok e app target) ∧
  ∃ ns n, Placement.ActiveComputeNodes e = Some ns ∧ n ∈ ns ∧ Placement.ID n = peer ∧
    has_room e (RAMMB app) n ∧
    ∀ n', n' ∈ ns → has_room e (RAMMB app) n' → str_ltb (Placement.Name n') (Placement.Name n) = false.

Record view_ok (e : Placement.EngineView) : Prop := {
  vo_active : ∀ ns n, Placement.ActiveComputeNodes e = Some ns → n ∈ ns → Placement.ID n ≠ EmptyString;
  vo_byid : ∀ id n, Placement.ComputeNodeByID e id = Some n → Placement.ID n = id;
}.

Lemma overflow_spec e ram target :
  view_ok e → target ≠ EmptyString →
  let p := match Placement.findOverflowPeerWithHeadroom e ram target with inl _ => EmptyString | inr p => p end in
  (p = target ∧ ∃ n, Placement.ComputeNodeByID e target = Some n ∧ Placement.Active n = true ∧ has_room e ram n) ∨
  (p = EmptyString ∧
   ¬ ∃ n, Placement.ComputeNodeByID e target = Some n ∧ Placement.Active n = true ∧ has_room e ram n).
Proof.
  intros Hv Hne. unfold Placement.findOverflowPeerWithHeadroom.
  destruct (String.eqb_spec target (Placement.ownerNodeID e)) as [Ho|Ho].
  { right. split; [done|]. intros (n & Hn & _ & Hown & _). by rewrite (vo_byid e Hv _ _ Hn) in Hown. }
  destruct (Placement.ComputeNodeByID e target) as [n|] eqn:En; [|right; split; [done|by intros (? & [=] & _)]].
  pose proof (vo_byid e Hv _ _ En) as Hid.
  destruct (Placement.Active n) eqn:Ea; simpl; [|right; split; [done|]; intros (n' & [= <-] & ? & _); congruence].
  destruct (Placement.ComputeNodeUsedMB e (Placement.ID n)) as [used|] eqn:Eu.
  2: { right. split; [done|]. intros (n' & [= <-] & _ & _ & u & Hu & _). congruence. }
  fold (node_ceiling n). destruct (Z.ltb_spec (node_ceiling n -! used) (ram +! PerVMOverheadMB)).
  - right. split; [done|]. intros (n' & [= <-] & _ & _ & u & Hu & Hr). simplify_eq. lia.
  - left. split; [done|]. exists n. split_and!; [done|done|]. split; [by rewrite Hid|]. by exists used.
Qed.

Lemma first_spec e app p :
  view_ok e → (∀ target, ¬ preferred_ok e app target) → p ≠ EmptyString →
  Placement.findPeerWithHeadroom e (RAMMB app) = inr p → right_peer e app p.
Proof.
  intros Hv Hno Hp Hf. right. split; [done|].
  destruct (Placement.ActiveComputeNodes e) as [ns|] eqn:En; [|unfold Placement.findPeerWithHeadroom in Hf; by rewrite En in Hf].
  pose proof (Placement.peer_search_correct e (RAMMB app) ns p En Hf (λ n, vo_active e Hv ns n En)) as Hs.
  cbv zeta in Hs. rewrite (proj2 (String.eqb_neq _ _) Hp) in Hs.
  destruct Hs as (n & Hin & Hid & Hok & Hmin). exists ns, n. split_and!; [done|done|done|exact Hok|].
  intros n' Hin' Hok'. by apply Hmin.
Qed.

Lemma choose_peer_spec e app p used :
  view_ok e → (choose_peer e app).1 = inr (p, used) → p ≠ EmptyString → right_peer e app p.
Proof.
  intros Hv Hc Hp. unfold choose_peer in Hc.
  assert ((∀ target, ¬ preferred_ok e app target) →
    ∀ labels, (match Placement.findPeerWithHeadroom e (RAMMB app) with
     | inl _ => (inl tt, labels)
     | inr peer =>
         if String.eqb peer EmptyString
         then (inr (EmptyString, false), labels ++ [("pressure"%string, "no_headroom"%string)])
         else (inr (peer, false), labels ++ [("overflow"%string, "fallback_used"%string)])
     end : (unit + string * bool) * list (string * string)).1 = inr (p, used) → right_peer e app p) as Hfirst.
  { intros Hno labels Hl. destruct (Placement.findPeerWithHeadroom e (RAMMB app)) as [|q] eqn:Ef; [done|].
    apply first_spec; [done|done|done|]. rewrite Ef. destruct (String.eqb q EmptyString); simplify_eq/=; done. }
  destruct (OverflowNode app) as [target|] eqn:Eo.
  2: { apply Hfirst in Hc; [done|]. intros target [Ht _]. congruence. }
  destruct (String.eqb_spec target EmptyString) as [Ht|Ht].
  { apply Hfirst in Hc; [done|]. intros target' (Ht' & Hne & _). congruence. }
  destruct (overflow_spec e (RAMMB app) target Hv Ht) as [[Hq Hn]|[Hq Hn]]; cbv zeta in Hc; rewrite Hq in Hc.
  - rewrite (proj2 (String.eqb_neq _ _) Ht) in Hc. simplify_eq/=. left. split_and!; done.
  - apply Hfirst in Hc; [done|]. intros target' (Ht' & _ & Hn'). by simplify_eq.
Qed.

Lemma observe_all_fields ls s :
  sTable (observe_all ls s) = sTable s ∧ sAgg (observe_all ls s) = sAgg s ∧
  sCounter (observe_all ls s) = sCounter s ∧ sLog (observe_all ls s) = sLog s.
Proof.
  unfold observe_all. induction ls as [|l ls IH] using rev_ind; [done|]. rewrite foldl_app. simpl. done.
Qed.

Lemma meanwhile_fields t s :
  sTable (meanwhile t s) = (peers_write (sTable s) (peers t)).2 ∧ sAgg (meanwhile t s) = sAgg s ∧
  sCounter (meanwhile t s) = sCounter s.
Proof. unfold meanwhile. by destruct (peers_write _ _). Qed.

Definition keyed (m : apps_table) : Prop := map_Forall (λ id a, ID a = id) m.

Lemma right_peer_other e app peer : view_ok e → right_peer e app peer → peer ≠ Placement.ownerNodeID e.
Proof.
  intros Hv [(_ & _ & n & Hn & _ & Hown & _)|(_ & ns & n & _ & _ & <- & [Hown _] & _)]; [|done].
  by rewrite (vo_byid e Hv _ _ Hn) in Hown.
Qed.

(** An app that was moved to a peer is refused by this scheduler's placement. *)
Lemma moved_refused e app peer m m' appID at_ e' r :
  view_ok e → right_peer e app peer → peer ≠ EmptyString → Placement.ownerNodeID e ≠ EmptyString →
  apply_write m (mkWrite appID (Placement.ownerNodeID e) peer at_) = Some m' →
  Placement.ownerNodeID e' = Placement.ownerNodeID e → Ledger.AppID r = appID →
  Placement.AppNodeID e' appID = NodeID <$> m' !! appID →
  Placement.choosePlacementLocked e' r
  = inl (Placement.ErrWrongOwner appID peer (Placement.ownerNodeID e)).
Proof.
  intros Hv Hr Hp Ho (a & _ & _ & ->)%apply_write_inv He' Happ Hnode. simpl in *.
  rewrite lookup_insert_eq in Hnode. simpl in Hnode. unfold Placement.choosePlacementLocked.
  rewrite He', Happ, Hnode, (proj2 (String.eqb_neq _ _) Ho), (proj2 (String.eqb_neq _ _) Hp). simpl.
  by rewrite (proj2 (String.eqb_neq _ _) (right_peer_other e app peer Hv Hr)).
Qed.

(** The state after the app was moved to [peer] and nothing else: one conditional write on top of the
    other schedulers' writes, window and counter reset, and the app refused here from now on. *)
Definition handed_over (e : Placement.EngineView) (t : turn) (appID peer : string) (s s' : sweeper) : Prop :=
  let owner := Placement.ownerNodeID e in
  apply_write (peers_write (sTable s) (peers t)).2 (mkWrite appID owner peer (at_ t)) = Some (sTable s') ∧
  sAgg s' = Pressure.Reset (sAgg s) appID ∧ sCounter s' = delete appID (sCounter s) ∧
  ∀ e' r, Placement.ownerNodeID e' = owner → Ledger.AppID r = appID →
          Placement.AppNodeID e' appID = NodeID <$> sTable s' !! appID →
          Placement.choosePlacementLocked e' r = inl (Placement.ErrWrongOwner appID peer owner).

(** a pressured app moves only to a node with room, and then it is gone. Whatever other schedulers
    write meanwhile, handling a pressured app either leaves table, refusal window and sweep counter as
    they were (up to those writes), or moves exactly this app: it was owned by this scheduler, eligible
    and outside its cooldown, and its new owner is its preferred overflow node when that is active and
    has room, else the first active peer by name that has; its refusals and its counter are reset, and
    from then on this scheduler's own placement refuses the app as owned by the peer. *)
Theorem pressure_move_correct e cooldown appID t s :
  view_ok e → keyed (sTable s) →
  let owner := Placement.ownerNodeID e in
  let s' := (RebalancePressuredApps e cooldown appID t s).2 in
  ((sTable s' = sTable s ∨ sTable s' = (peers_write (sTable s) (peers t)).2) ∧
   sAgg s' = sAgg s ∧ sCounter s' = sCounter s) ∨
  ∃ app peer,
    sTable s !! appID = Some app ∧ NodeID app = owner ∧ eligible app = true ∧
    in_cooldown (Placement.now e) cooldown app = false ∧ right_peer e app peer ∧
    handed_over e t appID peer s s'.
Proof.
  intros Hv Hk owner s'. subst s'. unfold RebalancePressuredApps. fold owner.
  destruct (String.eqb_spec owner EmptyString) as [Ho|Ho]; [left; auto|].
  destruct (String.eqb appID EmptyString); [left; auto|].
  destruct (sTable s !! appID) as [app|] eqn:Ea; [|left; auto].
  pose proof (Hk _ _ Ea) as Hid. destruct (meanwhile_fields t s) as (Hm1 & Hm2 & Hm3).
  set (sm := meanwhile t s) in *.
  assert (∀ l, (sTable (observePressure l sm) = sTable s ∨
                sTable (observePressure l sm) = (peers_write (sTable s) (peers t)).2) ∧
               sAgg (observePressure l sm) = sAgg s ∧ sCounter (observePressure l sm) = sCounter s) as Hkeep.
  { intros l. simpl. auto. }
  destruct (String.eqb_spec (NodeID app) EmptyString); [left; apply Hkeep|].
  destruct (String.eqb_spec (NodeID app) owner) as [Hn|]; cbn [negb]; [|left; apply Hkeep].
  destruct (eligible app) eqn:Eel; cbn [negb]; [|left; apply Hkeep].
  destruct (in_cooldown (Placement.now e) cooldown app) eqn:Ec; [left; apply Hkeep|].
  pose proof (choose_peer_spec e app) as Hpeer. destruct (choose_peer e app) as [choice labels].
  destruct (observe_all_fields labels sm) as (Ho1 & Ho2 & Ho3 & Ho4). set (so := observe_all labels sm) in *.
  destruct choice as [|[peer used]]; simpl; [left; rewrite Ho1, Ho2, Ho3; auto|].
  destruct (String.eqb_spec peer EmptyString) as [|Hp]; simpl; [left; rewrite Ho1, Ho2, Ho3; auto|].
  destruct (if fault t then _ else _) as [err|m'] eqn:Er.
  { left. destruct err; simpl; rewrite Ho1, Ho2, Ho3; auto. }
  destruct (fault t); [done|]. right. exists app, peer. rewrite Hid in *.
  assert (apply_write (peers_write (sTable s) (peers t)).2 (mkWrite appID owner peer (at_ t)) = Some m') as Hw.
  { unfold apply_write. simpl. rewrite <- Hm1, <- Ho1, <- Hn, Er. done. }
  assert (right_peer e app peer) as Hright by (by apply (Hpeer peer used)).
  assert (∀ s', sTable s' = m' → sAgg s' = Pressure.Reset (sAgg s) appID →
                sCounter s' = delete appID (sCounter s) →
    handed_over e t appID peer s s') as Hfin.
  { intros s' Hs1 Hs2 Hs3. unfold handed_over. rewrite Hs1, Hs2, Hs3. split_and!; [done|done|done|].
    intros e' r He' Hr Hnode. by eapply (moved_refused e app peer _ m'). }
  split_and!; [done|done|done|done|done|]. destruct used; apply Hfin; simpl; by rewrite ?Ho2, ?Ho3, ?Hm2, ?Hm3.
Qed.

Definition sample_view (used : Z) : Placement.EngineView :=
  Placement.mkView "n1" Capacity.newNodeCapacityTable (2 * Minute) Ledger.NewNodeLedger (λ _, None)
    (Some [node "n1" true; node "n2" true; node "n3" true]) (λ _, Some used)
    (λ id, if bool_decide (id ∈ ["n1"; "n2"; "n3"]%string) then Some (node id true) else None).

Lemma sample_view_ok used : view_ok (sample_view used).
Proof.
  split.
  - intros ns n [= <-]. rewrite !elem_of_cons, elem_of_nil. by intros [->|[->|[->|[]]]].
  - intros id n. simpl. case_bool_decide; [|done]. by intros [= <-].
Qed.

Definition pressured_agg : Pressure.PressureAggregator :=
  Pressure.run Pressure.NewPressureAggregator
    [Pressure.Refused "a" (110 * Second); Pressure.Refused "b" (115 * Second)].

Definition own (id : string) (ram : Z) (overflow : option string) : App :=
  mkApp id "n1" AppActive ram None overflow.

Definition sample_sweeper (overflow : option string) : sweeper :=
  mkSweeper {["a"%string := own "a" 600 overflow; "b"%string := own "b" 600 overflow]} pressured_agg ∅ [] [].

Lemma pressure_move_correct_witness :
  let s' := (RebalancePressuredApps (sample_view 0) 60 "a" (no_turn 0) (sample_sweeper (Some "n3"%string))).2 in
  NodeID <$> sTable s' !! "a"%string = Some "n3"%string ∧
  ∃ app peer, sTable (sample_sweeper (Some "n3"%string)) !! "a"%string = Some app ∧
              right_peer (sample_view 0) app peer.
Proof.
  split; [by vm_compute|].
  destruct (pressure_move_correct (sample_view 0) 60 "a" (no_turn 0) (sample_sweeper (Some "n3"%string))
              (sample_view_ok 0)) as [(_ & Hagg & _)|(app & peer & Ha & _ & _ & _ & Hp & _)].
  - apply (bool_decide_unpack _). by vm_compute.
  - apply (f_equal (λ a, Pressure.Count a "a" (2 * Minute))) in Hagg. by vm_compute in Hagg.
  - by exists app, peer.
Defined.

(** *** The sweep *)

Lemma apply_write_keyed m w m' : keyed m → apply_write m w = Some m' → keyed m'.
Proof.
  intros Hk (a & Ha & _ & ->)%apply_write_inv. apply map_Forall_insert_2; [|done]. simpl. by apply (Hk _ _ Ha).
Qed.

Lemma peers_keyed m ws : keyed m → keyed (peers_write m ws).2.
Proof.
  revert m. induction ws as [|w ws IH]; intros m Hk; [done|]. simpl.
  destruct (apply_write m w) as [m'|] eqn:E; [|by apply IH]. specialize (IH m' (apply_write_keyed _ _ _ Hk E)).
  by destruct (peers_write m' ws).
Qed.

Lemma peers_log m ws : Forall (λ w, w ∈ ws) (peers_write m ws).1.
Proof.
  revert m. induction ws as [|w ws IH]; intros m; [done|]. simpl.
  assert (∀ m', Forall (λ w', w' ∈ w :: ws) (peers_write m' ws).1) as IH'.
  { intros m'. eapply Forall_impl; [apply IH|]. simpl. set_solver. }
  destruct (apply_write m w) as [m'|]; [|apply IH']. specialize (IH' m').
  destruct (peers_write m' ws). simpl in *. constructor; [set_solver|done].
Qed.

(** The writes a step adds to the log lead from its table to the next one, and each is one of [ws] or
    takes an app of [apps] away from this scheduler. *)
Definition logged (owner : string) (apps : list string) (ws : list write) (s s' : sweeper) : Prop :=
  keyed (sTable s') ∧
  ∃ l, sLog s' = sLog s ++ l ∧ replay (sTable s) l = Some (sTable s') ∧
       Forall (λ w, w ∈ ws ∨ wApp w ∈ apps ∧ wFrom w = owner ∧ wTo w ≠ owner) l.

Lemma logged_none owner apps ws s s' :
  keyed (sTable s) → sTable s' = sTable s → sLog s' = sLog s → logged owner apps ws s s'.
Proof. intros Hk Ht Hl. split; [by rewrite Ht|]. exists []. rewrite Hl, Ht, app_nil_r. done. Qed.

Lemma logged_trans owner apps apps' ws ws' s1 s2 s3 :
  logged owner apps ws s1 s2 → logged owner apps' ws' s2 s3 → logged owner (apps ++ apps') (ws ++ ws') s1 s3.
Proof.
  intros (_ & l1 & Hl1 & Hr1 & Hf1) (Hk & l2 & Hl2 & Hr2 & Hf2). split; [done|]. exists (l1 ++ l2).
  rewrite Hl2, Hl1, <- app_assoc, replay_app, Hr1. split_and!; [done|done|]. apply Forall_app. split.
  - eapply Forall_impl; [exact Hf1|]. simpl. set_solver.
  - eapply Forall_impl; [exact Hf2|]. simpl. set_solver.
Qed.

Lemma logged_meanwhile owner apps t s :
  keyed (sTable s) → logged owner apps (peers t) s (meanwhile t s).
Proof.
  intros Hk. unfold meanwhile. pose proof (peers_keyed _ (peers t) Hk). pose proof (peers_replay (sTable s) (peers t)).
  pose proof (peers_log (sTable s) (peers t)) as Hf. destruct (peers_write _ _) as [plog m]. simpl in *.
  split; [done|]. exists plog. split_and!; [done|done|]. eapply Forall_impl; [exact Hf|]. simpl. auto.
Qed.

Lemma logged_same owner apps ws s s1 s2 :
  logged owner apps ws s s1 → sTable s2 = sTable s1 → sLog s2 = sLog s1 → logged owner apps ws s s2.
Proof. unfold logged. by intros ? -> ->. Qed.

Lemma logged_write owner app ws s s1 s2 w :
  logged owner [app] ws s s1 → apply_write (sTable s1) w = Some (sTable s2) → sLog s2 = sLog s1 ++ [w] →
  wApp w = app → wFrom w = owner → wTo w ≠ owner → logged owner [app] ws s s2.
Proof.
  intros (Hk & l & Hl & Hr & Hf) Hw Hl2 Happ Hfrom Hto. split; [by eapply apply_write_keyed|].
  exists (l ++ [w]). rewrite Hl2, Hl, <- app_assoc, replay_app, Hr. simpl. rewrite Hw. split_and!; [done|done|].
  apply Forall_app. split; [done|]. apply Forall_singleton. right. set_solver.
Qed.

Lemma rebalance_logged e cooldown appID t s :
  view_ok e → keyed (sTable s) →
  logged (Placement.ownerNodeID e) [appID] (peers t) s (RebalancePressuredApps e cooldown appID t s).2.
Proof.
  intros Hv Hk. unfold RebalancePressuredApps. set (owner := Placement.ownerNodeID e).
  destruct (String.eqb_spec owner EmptyString) as [Ho|Ho]; [by apply logged_none|].
  destruct (String.eqb appID EmptyString); [by apply logged_none|].
  destruct (sTable s !! appID) as [app|] eqn:Ea; [|by apply logged_none].
  pose proof (Hk _ _ Ea) as Hid. simpl in Hid. pose proof (logged_meanwhile owner [appID] t s Hk) as Hm.
  set (sm := meanwhile t s) in *.
  destruct (String.eqb (NodeID app) EmptyString); [by apply (logged_same _ _ _ _ sm)|].
  destruct (String.eqb_spec (NodeID app) owner) as [Hn|]; [|by apply (logged_same _ _ _ _ sm)].
  destruct (eligible app); [|by apply (logged_same _ _ _ _ sm)].
  destruct (in_cooldown (Placement.now e) cooldown app); [by apply (logged_same _ _ _ _ sm)|]. cbn [negb].
  pose proof (choose_peer_spec e app) as Hpeer. destruct (choose_peer e app) as [choice labels].
  destruct (observe_all_fields labels sm) as (Ho1 & _ & _ & Ho4). set (so := observe_all labels sm) in *.
  assert (logged owner [appID] (peers t) s so) as Hso by (by apply (logged_same _ _ _ _ sm)).
  destruct choice as [|[peer used]]; [done|]. destruct (String.eqb_spec peer EmptyString) as [|Hp]; [done|].
  destruct (if fault t then _ else _) as [err|m'] eqn:Er; [by destruct err; apply (logged_same _ _ _ _ so)|].
  destruct (fault t); [done|]. rewrite Hid in *.
  assert (peer ≠ owner) as Hother.
  { apply (right_peer_other e app); [done|]. by apply (Hpeer peer used). }
  destruct used; apply (logged_write _ _ _ _ so _ (mkWrite appID (NodeID app) peer (at_ t))); try done;
    unfold apply_write; simpl; by rewrite Er.
Qed.

Lemma sweep_logged e cooldown apps ts s :
  view_ok e → keyed (sTable s) →
  logged (Placement.ownerNodeID e) apps (concat (peers <$> ts)) s (sweep_apps e cooldown apps ts s).
Proof.
  intros Hv. revert ts s. induction apps as [|a apps IH]; intros ts s Hk; [by apply logged_none|]. simpl.
  pose proof (rebalance_logged e cooldown a (hd (no_turn (Placement.now e)) ts)
                (IncrementPressureSweepCounter a s) Hv Hk) as H1.
  pose proof (IH (tl ts) _ (proj1 H1)) as H2. change (a :: apps) with ([a] ++ apps).
  destruct ts as [|t ts]; simpl in *; by apply (logged_trans _ [a] apps _ _ _ _ _ H1 H2).
Qed.

(** a pressure sweep moves only apps under pressure. After any history of refusals, sweeps and moves,
    and whatever other schedulers write during the sweep, every change of owner in the table is a
    conditional write that is either one of theirs, or takes away from this scheduler, to another node,
    an app that was refused at least [threshold] times within the window since it was last moved. *)
Theorem pressure_sweep_safe e cooldown threshold ts s ss W cap :
  view_ok e → keyed (sTable s) → sAgg s = Pressure.run (Pressure.mkAgg W cap ∅) ss → sLog s = [] →
  0 < threshold ≤ cap → StronglySorted Z.le (Pressure.times ss) →
  Forall (λ x, x ≤ Placement.now e) (Pressure.times ss) →
  let s' := tick e cooldown threshold ts s in
  replay (sTable s) (sLog s') = Some (sTable s') ∧
  Forall (λ w, w ∈ concat (peers <$> ts) ∨
               wFrom w = Placement.ownerNodeID e ∧ wTo w ≠ Placement.ownerNodeID e ∧
               threshold ≤ Pressure.count_since (Placement.now e - W) (Pressure.history (wApp w) ss)) (sLog s').
Proof.
  intros Hv Hk Ha Hl Hthr Hs Hf. cbv zeta. unfold tick. rewrite Ha.
  pose proof (λ a, Pressure.pressured_iff W cap ss threshold (Placement.now e) a Hthr Hs Hf) as Hiff.
  destruct (Pressure.PressuredApps _ _ _) as [apps agg]. cbn [fst] in Hiff.
  destruct (sweep_logged e cooldown apps ts (mkSweeper (sTable s) agg (sCounter s) (sLabels s) (sLog s)) Hv Hk)
    as (_ & l & Hll & Hr & Hw). cbn [sTable sLog] in *. rewrite Hl in Hll at 2. simpl in Hll.
  rewrite Hll. split; [done|]. eapply Forall_impl; [exact Hw|]. simpl.
  intros w [?|(Hin & ? & ?)]; [by left|]. right. split_and!; [done|done|]. by apply Hiff.
Qed.

Lemma pressure_sweep_safe_witness :
  let s' := tick (sample_view 0) 60 1 [] (sample_sweeper None) in
  length (sLog s') = 2%nat ∧ replay (sTable (sample_sweeper None)) (sLog s') = Some (sTable s').
Proof.
  split; [by vm_compute|].
  apply (pressure_sweep_safe (sample_view 0) 60 1 [] (sample_sweeper None)
           [Pressure.Refused "a" (110 * Second); Pressure.Refused "b" (115 * Second)] (60 * Second) 100000).
  - apply sample_view_ok.
  - apply (bool_decide_unpack _). by vm_compute.
  - done.
  - done.
  - lia.
  - repeat constructor; vm_compute; intros [=].
  - repeat constructor; vm_compute; intros [=].
Defined.

(** two flaws of the pressure sweep. It checks the headroom of a peer per app against the stored
    instances, which a move does not change, so one sweep hands two apps of 600 MB to the same peer
    although its 1000 MB have room for one. And it counts a fallback from the preferred overflow node
    for every app that has no preference at all. *)
Theorem pressure_sweep_hazards :
  let s' := tick (sample_view 0) 60 1 [] (sample_sweeper None) in
  NodeID <$> sTable s' !! "a"%string = Some "n2"%string ∧
  NodeID <$> sTable s' !! "b"%string = Some "n2"%string ∧
  node_ceiling (node "n2" true) < needed (own "a" 600 None) + needed (own "b" 600 None) ∧
  ("overflow"%string, "fallback_used"%string) ∈ sLabels s'.
Proof. split_and!; [by vm_compute..|]. vm_decide. Qed.
End Rebalance.
