(* ===== verification/Usage.v ===== *)
(** * Usage minutes: the ledger of billable RAM

    Module [Calendar] is the part of Go's time package the meter uses (Truncate, Year, Month, Date).
    Module [Usage] holds the usage tables of the store (AppendUsage and its reads, src/pkg/state/memstore.go),
    [Sampler] the minute sampler (src/pkg/meter/sampler.go) and [Pusher] the billing push
    (src/pkg/meter/pusher.go).  The theorems show that a minute is billed once whatever the number of
    ticks that fall into it, that the month view equals the sum of the minutes, and which minutes a
    series of pushes covers. *)

From stdpp Require Import pretty.
From S2P Require Import Prelude Api Machine InstanceStore.
#[local] Open Scope go_scope.

(** ** Go's calendar *)

Module Calendar.

Definition Day : Z := 24 * Hour.

(** Time.Truncate rounds down to a multiple of [d] since the zero time. *)
Definition Truncate (t : Time) (d : Duration) : Time :=
  if d <=? 0 then t else t - (t - zero_time) mod d.

(** Year and month of a day number counted from the Unix epoch, in the proleptic Gregorian calendar;
    a computational year starts in March. *)
Definition civil (day : Z) : Z * Z * Z :=
  let z := day + 719468 in
  let era := z / 146097 in
  let doe := z mod 146097 in
  let yoe := (doe - doe / 1460 + doe / 36524 - doe / 146096) / 365 in
  let doy := doe - (365 * yoe + yoe / 4 - yoe / 100) in
  let mp := (5 * doy + 2) / 153 in
  let d := doy - (153 * mp + 2) / 5 + 1 in
  let m := if mp <? 10 then mp + 3 else mp - 9 in
  let y := yoe + era * 400 + (if m <=? 2 then 1 else 0) in
  (y, m, d).

Definition YearMonth (t : Time) : Z * Z := let '(y, m, _) := civil (t / Day) in (y, m).

(** time.Date(y, m, 1, 0, 0, 0, 0, time.UTC) *)
Definition Date1 (ym : Z * Z) : Time :=
  let '(y, m) := ym in
  let y' := if m <=? 2 then y - 1 else y in
  let era := y' / 400 in
  let yoe := y' mod 400 in
  let doy := (153 * (if 2 <? m then m - 3 else m + 9) + 2) / 5 in
  let doe := yoe * 365 + yoe / 4 - yoe / 100 + doy in
  (era * 146097 + doe - 719468) * Day.

(** ** Facts

    The year of a day of the 400-year cycle: its quotient is monotone in the day, so it is enough to
    evaluate it at the first and the last day of each of the 400 years. *)

Definition year_start (yoe : Z) : Z := 365 * yoe + yoe / 4 - yoe / 100.
Definition year_quot (doe : Z) : Z := doe - doe / 1460 + doe / 36524 - doe / 146096.

Lemma year_quot_mono a b : a ≤ b → year_quot a ≤ year_quot b.
Proof.
  intros H. replace b with (a + Z.of_nat (Z.to_nat (b - a))) by lia.
  generalize (Z.to_nat (b - a)). clear. intros n. induction n as [|n IH]; [by rewrite Z.add_0_r|].
  etransitivity; [exact IH|]. replace (a + Z.of_nat (S n)) with (a + Z.of_nat n + 1) by lia.
  generalize (a + Z.of_nat n). clear. intros d. unfold year_quot. Z.to_euclidean_division_equations. lia.
Qed.

Definition year_ok (y : Z) : bool :=
  (year_quot (year_start y) / 365 =? y) && (year_quot (Z.min 146096 (year_start (y + 1) - 1)) / 365 =? y) &&
  (year_start (y + 1) - year_start y <=? 366).

Lemma years_checked : forallb (λ n, year_ok (Z.of_nat n)) (seq 0 400) = true.
Proof. by vm_compute. Qed.

Lemma year_tile doe n :
  0 ≤ doe < year_start (Z.of_nat n) →
  ∃ y : nat, (y < n)%nat ∧ year_start (Z.of_nat y) ≤ doe < year_start (Z.of_nat y + 1).
Proof.
  induction n as [|n IH]; [change (year_start (Z.of_nat 0)) with 0; lia|]. intros [H0 Hn].
  destruct (Z.lt_ge_cases doe (year_start (Z.of_nat n))) as [H|H].
  - destruct IH as (y & ? & ?); [done|]. exists y. split; [lia|done].
  - exists n. split; [lia|]. by replace (Z.of_nat n + 1) with (Z.of_nat (S n)) by lia.
Qed.

Lemma year_of_day doe :
  0 ≤ doe < 146097 →
  ∃ y, 0 ≤ y < 400 ∧ year_quot doe / 365 = y ∧ 0 ≤ doe - year_start y ≤ 365.
Proof.
  intros Hd. destruct (Z.eq_dec doe 146096) as [->|Hne].
  { exists 399. split; [lia|]. split; [by vm_compute|]. by vm_compute. }
  assert (∃ y : nat, (y < 400)%nat ∧ year_start (Z.of_nat y) ≤ doe < year_start (Z.of_nat y + 1))
    as (y & Hy & H1 & H2) by (apply year_tile; change (year_start (Z.of_nat 400)) with 146096; lia).
  pose proof years_checked as Hc. rewrite forallb_forall in Hc.
  specialize (Hc y). rewrite in_seq in Hc. specialize (Hc ltac:(lia)). unfold year_ok in Hc. breflect.
  exists (Z.of_nat y). split; [lia|]. split; [|lia].
  assert (doe ≤ Z.min 146096 (year_start (Z.of_nat y + 1) - 1)) as Hle by lia.
  pose proof (Z.div_le_mono _ _ 365 ltac:(lia) (year_quot_mono _ _ Hle)).
  pose proof (Z.div_le_mono _ _ 365 ltac:(lia) (year_quot_mono _ _ H1)). lia.
Qed.

(** The month and day of a day of the year, evaluated at all 366 of them. *)
Definition month_ok (doy : Z) : bool :=
  let mp := (5 * doy + 2) / 153 in
  let s := (153 * mp + 2) / 5 in
  (0 <=? mp) && (mp <=? 11) && (0 <=? s) && (s <=? doy) && ((5 * s + 2) / 153 =? mp).

Lemma months_checked doy : 0 ≤ doy ≤ 365 → month_ok doy = true.
Proof.
  intros H. assert (forallb (λ n, month_ok (Z.of_nat n)) (seq 0 366) = true) as Hc by by vm_compute.
  rewrite forallb_forall in Hc. specialize (Hc (Z.to_nat doy)). rewrite in_seq in Hc.
  rewrite Z2Nat.id in Hc by lia. apply Hc. lia.
Qed.

(** What the two calendar functions compute on a date with year [y] of era [e] and day of year [doy]. *)
Lemma civil_cycle e y doy :
  0 ≤ y < 400 → 0 ≤ doy ≤ 365 → year_start y + doy < 146097 → year_quot (year_start y + doy) / 365 = y →
  civil (e * 146097 + year_start y + doy - 719468) =
  (let mp := (5 * doy + 2) / 153 in
   let m := if mp <? 10 then mp + 3 else mp - 9 in
   (y + e * 400 + (if m <=? 2 then 1 else 0), m, doy - (153 * mp + 2) / 5 + 1)).
Proof.
  intros Hy Hd Hb Hq. unfold civil.
  replace (e * 146097 + year_start y + doy - 719468 + 719468) with (year_start y + doy + e * 146097) by lia.
  assert (0 ≤ year_start y) by (unfold year_start; Z.to_euclidean_division_equations; lia).
  rewrite Z.div_add, Z.mod_add, (Z.div_small _ 146097), (Z.mod_small _ 146097) by lia.
  fold (year_quot (year_start y + doy)). rewrite Hq. fold (year_start y).
  replace (year_start y + doy - year_start y) with doy by lia. done.
Qed.

Lemma Date1_cycle e y mp :
  0 ≤ y < 400 → 0 ≤ mp ≤ 11 →
  let m := if mp <? 10 then mp + 3 else mp - 9 in
  Date1 (y + e * 400 + (if m <=? 2 then 1 else 0), m) =
  (e * 146097 + year_start y + (153 * mp + 2) / 5 - 719468) * Day.
Proof.
  intros Hy Hmp m. unfold Date1, m. destruct (Z.ltb_spec mp 10).
  - rewrite (proj2 (Z.leb_gt (mp + 3) 2)), (proj2 (Z.ltb_lt 2 (mp + 3))) by lia.
    rewrite Z.add_0_r, Z.div_add, Z.mod_add, (Z.div_small y), (Z.mod_small y) by lia.
    replace (mp + 3 - 3) with mp by lia. unfold year_start. f_equal. lia.
  - rewrite (proj2 (Z.leb_le (mp - 9) 2)), (proj2 (Z.ltb_ge 2 (mp - 9))) by lia.
    replace (y + e * 400 + 1 - 1) with (y + e * 400) by lia.
    rewrite Z.div_add, Z.mod_add, (Z.div_small y), (Z.mod_small y) by lia.
    replace (mp - 9 + 9) with mp by lia. unfold year_start. f_equal. lia.
Qed.

(** The month of a time starts at or before it and is the month of its own start. *)
Lemma month_start_spec (t : Time) : Date1 (YearMonth t) ≤ t ∧ YearMonth (Date1 (YearMonth t)) = YearMonth t.
Proof.
  set (day := t / Day).
  pose proof (Z.mod_pos_bound (day + 719468) 146097 ltac:(lia)) as Hb.
  destruct (year_of_day _ Hb) as (y & Hy & Hq & Hd).
  set (e := (day + 719468) / 146097). set (doy := (day + 719468) mod 146097 - year_start y) in *.
  assert ((day + 719468) mod 146097 = year_start y + doy) as Hm by lia.
  assert (day = e * 146097 + year_start y + doy - 719468) as Eday
    by (pose proof (Z.div_mod (day + 719468) 146097); lia).
  rewrite Hm in Hb, Hq. pose proof (months_checked doy Hd) as Hmo. unfold month_ok in Hmo. breflect.
  clearbody e doy. set (mp := (5 * doy + 2) / 153) in *. set (s := (153 * mp + 2) / 5) in *.
  set (m := if mp <? 10 then mp + 3 else mp - 9) in *.
  assert (YearMonth t = (y + e * 400 + (if m <=? 2 then 1 else 0), m)) as ->.
  { unfold YearMonth. fold day. rewrite Eday. by rewrite civil_cycle by lia. }
  pose proof (Date1_cycle e y mp Hy ltac:(lia)) as Ed. cbv zeta in Ed. fold m s in Ed. rewrite Ed.
  split.
  - assert (t = Day * day + t mod Day) by (apply Z.div_mod; done).
    pose proof (Z.mod_pos_bound t Day ltac:(done)). assert (0 < Day) by done. nia.
  - unfold YearMonth. rewrite Z.div_mul by done.
    assert (year_quot (year_start y + s) / 365 = y) as Hqs.
    { assert (forallb (λ n, year_ok (Z.of_nat n)) (seq 0 400) = true) as Hc by apply years_checked.
      rewrite forallb_forall in Hc. specialize (Hc (Z.to_nat y)). rewrite in_seq, Z2Nat.id in Hc by lia.
      specialize (Hc ltac:(lia)). unfold year_ok in Hc. breflect.
      pose proof (Z.div_le_mono _ _ 365 ltac:(lia) (year_quot_mono (year_start y) (year_start y + s) ltac:(lia))).
      pose proof (Z.div_le_mono _ _ 365 ltac:(lia) (year_quot_mono (year_start y + s) (year_start y + doy) ltac:(lia))). lia. }
    rewrite civil_cycle by lia. cbv zeta. by replace ((5 * s + 2) / 153) with mp by lia.
Qed.

Lemma YearMonth_start (t : Time) : YearMonth (Date1 (YearMonth t)) = YearMonth t.
Proof. apply month_start_spec. Qed.

Lemma Date1_inj (t u : Time) : Date1 (YearMonth t) = Date1 (YearMonth u) ↔ YearMonth t = YearMonth u.
Proof. split; [|by intros ->]. intros H. by rewrite <- (YearMonth_start t), H, YearMonth_start. Qed.

(** The truncations the code uses are to the minute, the hour and the day, all of which divide the
    distance between the zero time and the Unix epoch. *)
Lemma Truncate_mod (t : Time) d : 0 < d → zero_time mod d = 0 → Truncate t d = t - t mod d.
Proof.
  intros Hd Hz. unfold Truncate. rewrite (proj2 (Z.leb_gt d 0)) by lia.
  rewrite Zminus_mod, Hz, Z.sub_0_r, Zmod_mod. done.
Qed.

Lemma Truncate_minute (t : Time) : Truncate t Minute = t - t mod Minute.
Proof. by apply Truncate_mod. Qed.

Lemma Truncate_hour (t : Time) : Truncate t Hour = t - t mod Hour.
Proof. by apply Truncate_mod. Qed.

Lemma Truncate_day (t : Time) : Truncate t Day = t - t mod Day.
Proof. by apply Truncate_mod. Qed.

Arguments Date1 : simpl never.
Arguments YearMonth : simpl never.
Arguments Truncate : simpl never.

End Calendar.
Import Calendar.
#[local] Opaque Date1 YearMonth Truncate.

(** ** The usage tables *)

Module Usage.

Record usageMinute := mkMinute {
  AccountID : string;
  AppID : string;
  InstanceID : string;
  MinuteAt : Time;
  MBSeconds : Z;
  Requests : Z;
  CPUUsec : Z;
  TXBytes : Z;
  NetTxBytes : Z;
  NetRxBytes : Z;
  ColdBootCount : Z;
  TailSeconds : Z;
}.

(** The rolled-up row: one app, one month. *)
Record Usage := mkUsage {
  uAccountID : string;
  uAppID : string;
  uMonth : Time;
  uMBSeconds : Z;
  uRequests : Z;
  uCPUUsec : Z;
  uTXBytes : Z;
  uNetTxBytes : Z;
  uNetRxBytes : Z;
  uColdBootCount : Z;
}.

Record tables := mkTables { usage : list usageMinute; usageByMonth : list Usage }.

Definition empty : tables := mkTables [] [].

(** [for _, u := range m.usage { if keep { n += f(u) } }] *)
Definition sum_i64 (f : usageMinute → Z) (keep : usageMinute → bool) (l : list usageMinute) : Z :=
  foldl (λ n u, if keep u then n +! f u else n) 0 l.

Definition in_month (acct app : string) (month : Time) (u : usageMinute) : bool :=
  String.eqb (AccountID u) acct && String.eqb (AppID u) app &&
  bool_decide (YearMonth (MinuteAt u) = YearMonth month).

Definition month_row (acct app : string) (month : Time) (u : Usage) : bool :=
  String.eqb (uAccountID u) acct && String.eqb (uAppID u) app && (uMonth u =? month).

(** Remove the first element that satisfies the test. *)
Fixpoint drop_first {A} (P : A → bool) (l : list A) : list A :=
  match l with [] => [] | x :: l => if P x then l else x :: drop_first P l end.

Definition recomputeMonthLocked (acct app : string) (minute : Time) (d : tables) : tables :=
  let month := Date1 (YearMonth minute) in
  let keep := in_month acct app month in
  let row := mkUsage acct app month (sum_i64 MBSeconds keep (usage d)) (sum_i64 Requests keep (usage d))
    (sum_i64 CPUUsec keep (usage d)) (sum_i64 TXBytes keep (usage d)) (sum_i64 NetTxBytes keep (usage d))
    (sum_i64 NetRxBytes keep (usage d))
    (foldl (λ n u, if keep u then i32 (n + ColdBootCount u) else n) 0 (usage d)) in
  mkTables (usage d) (drop_first (month_row acct app month) (usageByMonth d) ++ [row]).

(** The arguments of one AppendUsage call. *)
Record append := mkAppend {
  aAccount : string;
  aApp : string;
  aInstance : string;
  aMinute : Time;
  aMB : Z;
  aRequests : Z;
  aCPU : Z;
  aTX : Z;
  aNetTX : Z;
  aNetRX : Z;
  aColdBoots : Z;
  aTail : Z;
}.

Definition key_is (instance : string) (key : Time) (u : usageMinute) : bool :=
  String.eqb (InstanceID u) instance && (MinuteAt u =? key).

(** The conflict branch: billing columns are first-write-wins, the telemetry columns add up. *)
Definition merge (a : append) (u : usageMinute) : usageMinute :=
  let fresh := (MBSeconds u =? 0) && (Requests u =? 0) in
  mkMinute (AccountID u) (AppID u) (InstanceID u) (MinuteAt u)
    (if fresh then aMB a else MBSeconds u) (if fresh then aRequests a else Requests u)
    (CPUUsec u +! aCPU a) (TXBytes u +! aTX a) (NetTxBytes u +! aNetTX a) (NetRxBytes u +! aNetRX a)
    (i32 (ColdBootCount u + aColdBoots a)) (TailSeconds u +! aTail a).

Definition fresh_row (a : append) (key : Time) : usageMinute :=
  mkMinute (aAccount a) (aApp a) (aInstance a) key (aMB a) (aRequests a) (aCPU a) (aTX a) (aNetTX a)
    (aNetRX a) (aColdBoots a) (aTail a).

(** Update the first row of the key, or append a new row. *)
Fixpoint upsert (a : append) (key : Time) (l : list usageMinute) : list usageMinute :=
  match l with
  | [] => [fresh_row a key]
  | u :: l => if key_is (aInstance a) key u then merge a u :: l else u :: upsert a key l
  end.

Definition AppendUsage (a : append) (d : tables) : tables :=
  let key := Truncate (aMinute a) Minute in
  recomputeMonthLocked (aAccount a) (aApp a) key (mkTables (upsert a key (usage d)) (usageByMonth d)).

Definition UsageByMonth (acct : string) (month : Time) (d : tables) : list Usage :=
  let key := Date1 (YearMonth month) in
  filter (λ u, String.eqb (uAccountID u) acct && (uMonth u =? key)) (usageByMonth d).

Definition in_window (acct : string) (start stop : Time) (u : usageMinute) : bool :=
  String.eqb (AccountID u) acct && negb ((MinuteAt u <? start) || negb (MinuteAt u <? stop)).

(** The per-app buckets of UsageByHour; [start] is the Month of every row. *)
Definition add_hour (start : Time) (b : gmap string Usage) (u : usageMinute) : gmap string Usage :=
  let a := default (mkUsage EmptyString EmptyString 0 0 0 0 0 0 0 0) (b !! AppID u) in
  <[AppID u := mkUsage (AccountID u) (AppID u) start (uMBSeconds a +! MBSeconds u)
      (uRequests a +! Requests u) (uCPUUsec a +! CPUUsec u) (uTXBytes a +! TXBytes u)
      (uNetTxBytes a +! NetTxBytes u) 0 0]> b.

Definition UsageByHour (acct : string) (start stop : Time) (d : tables) : list Usage :=
  (map_to_list (foldl (λ b u, if in_window acct start stop u then add_hour start b u else b) ∅ (usage d))).*2.

(** The spend of the current month: mb_seconds since the month start, converted to cents. *)
Definition CurrentMonthOverageCents (now : Time) (acct : string) (d : tables) : Z :=
  let monthStart := Date1 (YearMonth now) in
  let mbSeconds := sum_i64 MBSeconds
    (λ u, String.eqb (AccountID u) acct && negb (MinuteAt u <? monthStart)) (usage d) in
  go_div (mbSeconds *! 100) 3600.

(** UsageByAccount groups by app and month; [since] is None for the zero time. *)
Definition add_account (b : gmap (string * (Z * Z)) Usage) (u : usageMinute) : gmap (string * (Z * Z)) Usage :=
  let k := (AppID u, YearMonth (MinuteAt u)) in
  let a := default (mkUsage EmptyString EmptyString 0 0 0 0 0 0 0 0) (b !! k) in
  <[k := mkUsage (AccountID u) (AppID u) (Date1 (YearMonth (MinuteAt u))) (uMBSeconds a +! MBSeconds u)
      (uRequests a +! Requests u) (uCPUUsec a +! CPUUsec u) (uTXBytes a +! TXBytes u)
      (uNetTxBytes a +! NetTxBytes u) 0 0]> b.

Definition since_ok (acct : string) (since : option Time) (u : usageMinute) : bool :=
  String.eqb (AccountID u) acct && match since with None => true | Some s => negb (MinuteAt u <? s) end.

Definition by_app_month (a b : Usage) : bool :=
  if negb (String.eqb (uAppID a) (uAppID b)) then str_ltb (uAppID a) (uAppID b) else uMonth a <? uMonth b.

Definition UsageByAccount (acct : string) (since : option Time) (d : tables) : list Usage :=
  go_sort by_app_month
    (map_to_list (foldl (λ b u, if since_ok acct since u then add_account b u else b) ∅ (usage d))).*2.

(** A history of the tables: the calls in the order the store's mutex admits them. *)
Definition run (l : list append) (d : tables) : tables := foldl (λ d a, AppendUsage a d) d l.

(** ** Specification

    The bill is determined by the first call of each (instance, minute) key. *)

Definition key_of (a : append) : string * Time := (aInstance a, Truncate (aMinute a) Minute).

Definition first_writes (l : list append) : list append :=
  foldl (λ acc a, if existsb (λ b, bool_decide (key_of b = key_of a)) acc then acc else acc ++ [a]) [] l.

Definition zsum {A} (f : A → Z) (l : list A) : Z := foldr (λ x n, f x + n) 0 l.

(** ** Sums *)

Lemma zsum_app {A} (f : A → Z) l k : zsum f (l ++ k) = zsum f l + zsum f k.
Proof. induction l as [|x l IH]; simpl; lia. Qed.

Lemma zsum_ext {A} (f g : A → Z) l : (∀ x, x ∈ l → f x = g x) → zsum f l = zsum g l.
Proof.
  induction l as [|x l IH]; simpl; intros H; [done|]. rewrite H by set_solver. f_equal. apply IH. set_solver.
Qed.

Lemma zsum_fmap {A B} (f : B → Z) (g : A → B) l : zsum f (g <$> l) = zsum (f ∘ g) l.
Proof. induction l as [|x l IH]; [done|]. rewrite fmap_cons. simpl. by rewrite IH. Qed.

#[global] Instance zsum_perm {A} (f : A → Z) : Proper ((≡ₚ) ==> (=)) (zsum f).
Proof. induction 1; simpl; lia. Qed.

Lemma zsum_nonneg {A} (f : A → Z) l : (∀ x, x ∈ l → 0 ≤ f x) → 0 ≤ zsum f l.
Proof.
  induction l as [|x l IH]; simpl; intros H; [done|]. pose proof (H x ltac:(by left)).
  assert (0 ≤ zsum f l); [|lia]. apply IH. intros y Hy. apply H. by right.
Qed.

Lemma zsum_filter {A} (f : A → Z) (P : A → bool) l :
  zsum f (filter P l) = zsum (λ x, if P x then f x else 0) l.
Proof.
  induction l as [|x l IH]; [done|]. rewrite filter_cons_bool. simpl. destruct (P x); simpl; lia.
Qed.

(** A loop that accumulates an int64 computes the wrapped sum. *)
Lemma foldl_i64 {A} (f : A → Z) l z : foldl (λ n x, n +! f x) (i64 z) l = i64 (z + zsum f l).
Proof.
  revert z. induction l as [|x l IH]; intros z; simpl; [by rewrite Z.add_0_r|].
  rewrite i64_add_l, IH. f_equal. lia.
Qed.

Lemma foldl_i64_0 {A} (f : A → Z) l : foldl (λ n x, n +! f x) 0 l = i64 (zsum f l).
Proof. by apply (foldl_i64 f l 0). Qed.

Lemma sum_i64_filter f keep l :
  sum_i64 f keep l = foldl (λ n u, n +! f u) 0 (filter keep l).
Proof.
  unfold sum_i64. generalize 0. induction l as [|u l IH]; intros z; [done|]. simpl.
  rewrite IH, filter_cons_bool. by destruct (keep u).
Qed.

Lemma zsum_map {K} `{Countable K} (m : gmap K Usage) (f : Usage → Z) :
  zsum f (map_to_list m).*2 = map_sum f m.
Proof.
  unfold map_sum. rewrite map_fold_foldr. induction (map_to_list m) as [|[k v] l IH]; [done|].
  rewrite fmap_cons. simpl. by rewrite <- IH.
Qed.

(** ** One append *)

Definition key (u : usageMinute) : string * Time := (InstanceID u, MinuteAt u).

Lemma key_is_spec i t u : key_is i t u = true ↔ key u = (i, t).
Proof.
  unfold key_is, key. rewrite andb_true_iff, String.eqb_eq, Z.eqb_eq. split; [by intros [-> ->]|]. by intros [= -> ->].
Qed.

Lemma key_merge a u : key (merge a u) = key u.
Proof. done. Qed.

Lemma elem_key_dec (i : string) (t : Time) (l : list usageMinute) : ((i, t) ∈ key <$> l) ∨ ((i, t) ∉ key <$> l).
Proof. destruct (decide ((i, t) ∈ key <$> l)); auto. Qed.

(** [upsert] replaces the row of the key where there is one and appends a row otherwise. *)
Lemma upsert_new a t l : (aInstance a, t) ∉ key <$> l → upsert a t l = l ++ [fresh_row a t].
Proof.
  induction l as [|u l IH]; intros H; [done|]. simpl. rewrite fmap_cons, not_elem_of_cons in H.
  destruct (key_is _ _ _) eqn:E; [apply key_is_spec in E; destruct H as [H _]; by rewrite E in H|]. rewrite IH; [done|tauto].
Qed.

Lemma upsert_old a t l :
  (aInstance a, t) ∈ key <$> l →
  ∃ l1 u l2, l = l1 ++ u :: l2 ∧ key u = (aInstance a, t) ∧ upsert a t l = l1 ++ merge a u :: l2.
Proof.
  induction l as [|u l IH]; intros H; [by apply elem_of_nil in H|]. simpl.
  destruct (key_is _ _ _) eqn:E; [apply key_is_spec in E; by exists [], u, l|].
  rewrite fmap_cons, elem_of_cons in H. destruct H as [H|H].
  - by rewrite (proj2 (key_is_spec _ _ _)) in E.
  - destruct (IH H) as (l1 & v & l2 & -> & Hk & ->). by exists (u :: l1), v, l2.
Qed.

Lemma upsert_keys a t l :
  key <$> upsert a t l = if decide ((aInstance a, t) ∈ key <$> l) then key <$> l else (key <$> l) ++ [(aInstance a, t)].
Proof.
  case_decide as H.
  - destruct (upsert_old a t l H) as (l1 & u & l2 & -> & Hk & ->). by rewrite !fmap_app, !fmap_cons.
  - by rewrite upsert_new, fmap_app by done.
Qed.

Lemma upsert_nodup a t l : NoDup (key <$> l) → NoDup (key <$> upsert a t l).
Proof.
  intros H. rewrite upsert_keys. case_decide as Hk; [done|]. apply NoDup_app. split; [done|].
  split; [|apply NoDup_singleton]. intros x Hx ->%list_elem_of_singleton. done.
Qed.

(** Rows outside a test are not touched when the key's row is outside it. *)
Lemma upsert_filter (keep : usageMinute → bool) a t l :
  keep (fresh_row a t) = false →
  (∀ u, u ∈ l → key u = (aInstance a, t) → keep u = false ∧ keep (merge a u) = false) →
  filter keep (upsert a t l) = filter keep l.
Proof.
  intros Hf Hm. destruct (elem_key_dec (aInstance a) t l) as [H|H].
  - destruct (upsert_old a t l H) as (l1 & u & l2 & -> & Hk & ->). rewrite !filter_app.
    destruct (Hm u ltac:(set_solver) Hk) as [E1 E2].
    rewrite !filter_cons_False by (rewrite ?E1, ?E2; by intros []). done.
  - rewrite upsert_new, filter_app, filter_cons_False by (done || (rewrite Hf; by intros [])).
    by rewrite app_nil_r.
Qed.

(** ** The bill is the first writes *)

(** The columns a bill depends on. *)
Definition bill_of_row (u : usageMinute) : string * string * string * Time * Z :=
  (AccountID u, AppID u, InstanceID u, MinuteAt u, MBSeconds u).
Definition bill_of_append (a : append) : string * string * string * Time * Z :=
  (aAccount a, aApp a, aInstance a, Truncate (aMinute a) Minute, aMB a).

Lemma run_snoc l a d : run (l ++ [a]) d = AppendUsage a (run l d).
Proof. unfold run. by rewrite foldl_app. Qed.

Lemma first_writes_snoc l a :
  first_writes (l ++ [a]) =
  if existsb (λ b, bool_decide (key_of b = key_of a)) (first_writes l) then first_writes l else first_writes l ++ [a].
Proof. unfold first_writes. by rewrite foldl_app. Qed.

Lemma usage_append a d : usage (AppendUsage a d) = upsert a (Truncate (aMinute a) Minute) (usage d).
Proof. done. Qed.

Definition nonzero (a : append) : Prop := aMB a ≠ 0.

Lemma run_nonzero l u : Forall nonzero l → u ∈ usage (run l empty) → MBSeconds u ≠ 0.
Proof.
  revert u. induction l as [|a l IH] using rev_ind; intros u Hl Hu; [by apply elem_of_nil in Hu|].
  rewrite Forall_app, Forall_singleton in Hl. destruct Hl as [Hl Ha].
  rewrite run_snoc, usage_append in Hu. set (t := Truncate _ _) in *. set (d := run l empty) in *.
  destruct (elem_key_dec (aInstance a) t (usage d)) as [H|H].
  - destruct (upsert_old a t _ H) as (l1 & v & l2 & E & Hk & E'). rewrite E' in Hu.
    assert (v ∈ usage d) as Hv by (rewrite E; set_solver). pose proof (IH v Hl Hv).
    apply elem_of_app in Hu as [Hu|[->|Hu]%elem_of_cons].
    + apply IH; [done|]. rewrite E. set_solver.
    + simpl. rewrite (proj2 (Z.eqb_neq _ _)) by done. done.
    + apply IH; [done|]. rewrite E. set_solver.
  - rewrite upsert_new in Hu by done. apply elem_of_app in Hu as [Hu|Hu]; [by apply IH|].
    apply list_elem_of_singleton in Hu as ->. done.
Qed.

Lemma existsb_key (l : list append) k :
  existsb (λ b, bool_decide (key_of b = k)) l = bool_decide (k ∈ key_of <$> l).
Proof.
  apply eq_bool_prop_intro. rewrite !Is_true_true, existsb_exists, bool_decide_eq_true, list_elem_of_fmap.
  setoid_rewrite bool_decide_eq_true. setoid_rewrite list_elem_of_In. naive_solver.
Qed.

Lemma rows_keys l : key <$> usage (run l empty) = key_of <$> first_writes l.
Proof.
  induction l as [|a l IH] using rev_ind; [done|].
  rewrite run_snoc, usage_append, upsert_keys, IH, first_writes_snoc, existsb_key.
  change (aInstance a, Truncate (aMinute a) Minute) with (key_of a).
  case_decide; case_bool_decide; try done. by rewrite fmap_app.
Qed.

Lemma rows_bill l :
  Forall nonzero l → bill_of_row <$> usage (run l empty) = bill_of_append <$> first_writes l.
Proof.
  induction l as [|a l IH] using rev_ind; intros Hl; [done|]. pose proof Hl as Hl0.
  rewrite Forall_app, Forall_singleton in Hl. destruct Hl as [Hl Ha]. specialize (IH Hl).
  rewrite run_snoc, usage_append, first_writes_snoc, existsb_key. set (t := Truncate _ _).
  rewrite <- rows_keys. destruct (elem_key_dec (aInstance a) t (usage (run l empty))) as [H|H].
  - rewrite bool_decide_true by done.
    destruct (upsert_old a t _ H) as (l1 & v & l2 & E & Hk & ->). rewrite <- IH, E, !fmap_app, !fmap_cons.
    do 2 f_equal. unfold bill_of_row. simpl.
    assert (MBSeconds v ≠ 0) by (apply (run_nonzero l); [done|rewrite E; set_solver]).
    by rewrite (proj2 (Z.eqb_neq _ _)) by done.
  - rewrite bool_decide_false by done. by rewrite upsert_new, !fmap_app, IH by done.
Qed.

(** ** The month view *)

(** The row recomputeMonthLocked writes, as a function of the minutes it covers. *)
Definition month_agg (acct app : string) (month : Time) (l : list usageMinute) : Usage :=
  let sum f := foldl (λ n u, n +! f u) 0 l in
  mkUsage acct app month (sum MBSeconds) (sum Requests) (sum CPUUsec) (sum TXBytes) (sum NetTxBytes)
    (sum NetRxBytes) (foldl (λ n u, i32 (n + ColdBootCount u)) 0 l).

Lemma recompute_agg acct app minute d :
  let month := Date1 (YearMonth minute) in
  recomputeMonthLocked acct app minute d =
  mkTables (usage d) (drop_first (month_row acct app month) (usageByMonth d) ++
                      [month_agg acct app month (filter (in_month acct app month) (usage d))]).
Proof.
  unfold recomputeMonthLocked, month_agg. cbv zeta. rewrite !sum_i64_filter. generalize (Date1 (YearMonth minute)).
  intros month. do 4 f_equal. generalize 0. induction (usage d) as [|u l IH]; intros z; [done|]. simpl.
  rewrite IH, filter_cons_bool. by destruct (in_month _ _ _ u).
Qed.

Definition view_key (r : Usage) : string * string * Time := (uAccountID r, uAppID r, uMonth r).
Definition row_view_key (u : usageMinute) : string * string * Time :=
  (AccountID u, AppID u, Date1 (YearMonth (MinuteAt u))).

(** The month view holds exactly the aggregates of the minutes, one per app and month. *)
Record view_ok (d : tables) : Prop := {
  vo_nodup : NoDup (view_key <$> usageByMonth d);
  vo_rows : ∀ r, r ∈ usageByMonth d →
    (∃ t, uMonth r = Date1 (YearMonth t)) ∧
    r = month_agg (uAccountID r) (uAppID r) (uMonth r)
          (filter (in_month (uAccountID r) (uAppID r) (uMonth r)) (usage d));
  vo_all : ∀ u, u ∈ usage d → row_view_key u ∈ view_key <$> usageByMonth d;
}.

Lemma month_row_spec acct app month r : month_row acct app month r = true ↔ view_key r = (acct, app, month).
Proof.
  unfold month_row, view_key. rewrite !andb_true_iff, !String.eqb_eq, Z.eqb_eq.
  split; [by intros [[-> ->] ->]|]. by intros [= -> -> ->].
Qed.

Lemma in_month_spec acct app t u :
  in_month acct app (Date1 (YearMonth t)) u = true ↔ row_view_key u = (acct, app, Date1 (YearMonth t)).
Proof.
  unfold in_month, row_view_key. rewrite !andb_true_iff, !String.eqb_eq, bool_decide_eq_true, YearMonth_start.
  split; [by intros [[-> ->] ->]|]. intros [= -> -> E]. by apply Date1_inj in E.
Qed.

Lemma drop_first_elem {A} (P : A → bool) l x :
  x ∈ drop_first P l → x ∈ l.
Proof. induction l as [|y l IH]; simpl; [done|]. destruct (P y); set_solver. Qed.

Lemma drop_first_keys {A K} (P : A → bool) (k : A → K) (k0 : K) l :
  (∀ x, P x = true ↔ k x = k0) → NoDup (k <$> l) →
  NoDup (k <$> drop_first P l) ∧ (∀ x, x ∈ k <$> drop_first P l ↔ x ∈ k <$> l ∧ x ≠ k0).
Proof.
  intros HP. induction l as [|y l IH]; simpl; [intros _; split; [constructor|set_solver]|].
  rewrite NoDup_cons. intros [Hy Hnd]. destruct (IH Hnd) as [IH1 IH2]. destruct (P y) eqn:E.
  - apply HP in E. split; [done|]. intros x. rewrite elem_of_cons. subst k0. split.
    + intros Hx. split; [by right|]. by intros ->.
    + by intros [[->|Hx] Hne].
  - assert (k y ≠ k0) by (intros ?%HP; congruence). rewrite fmap_cons, NoDup_cons. split.
    + split; [|done]. rewrite IH2. naive_solver.
    + intros x. rewrite !elem_of_cons, IH2. naive_solver.
Qed.

Definition owned (own : string → string * string) (a : append) : Prop := own (aInstance a) = (aAccount a, aApp a).
Definition rows_owned (own : string → string * string) (d : tables) : Prop :=
  ∀ u, u ∈ usage d → own (InstanceID u) = (AccountID u, AppID u).

Lemma upsert_owned own a t d :
  owned own a → rows_owned own d → ∀ u, u ∈ upsert a t (usage d) →
  own (InstanceID u) = (AccountID u, AppID u) ∧ (u ∈ usage d ∨ key u = (aInstance a, t)).
Proof.
  intros Ha Hr u. destruct (elem_key_dec (aInstance a) t (usage d)) as [H|H].
  - destruct (upsert_old a t _ H) as (l1 & v & l2 & E & Hk & ->). specialize (Hr v) as Hv.
    rewrite elem_of_app, elem_of_cons. intros [Hu|[->|Hu]].
    + split; [apply Hr; rewrite E|left; rewrite E]; set_solver.
    + split; [apply Hv; rewrite E; set_solver|by right].
    + split; [apply Hr; rewrite E|left; rewrite E]; set_solver.
  - rewrite upsert_new by done. intros [Hu|Hu]%elem_of_app; [split; [by apply Hr|by left]|].
    apply list_elem_of_singleton in Hu as ->. split; [done|by right].
Qed.

Lemma append_view_ok own a d :
  owned own a → rows_owned own d → view_ok d → rows_owned own (AppendUsage a d) ∧ view_ok (AppendUsage a d).
Proof.
  intros Ha Hr [Hnd Hrows Hall]. unfold AppendUsage. rewrite recompute_agg. set (t := Truncate _ _). simpl.
  pose proof (upsert_owned own a t d Ha Hr) as Hup. split; [intros u Hu; by apply Hup|].
  set (M := Date1 (YearMonth t)). set (k0 := (aAccount a, aApp a, M)).
  destruct (drop_first_keys (month_row (aAccount a) (aApp a) M) view_key k0 _
    (month_row_spec _ _ _) Hnd) as [Hnd' Hk'].
  assert (∀ u, own (InstanceID u) = (AccountID u, AppID u) → key u = (aInstance a, t) → row_view_key u = k0) as Hkey.
  { intros u Ho [= Ei Et]. rewrite Ei, Ha in Ho. injection Ho as E1 E2.
    unfold row_view_key, k0, M. by rewrite Et, E1, E2. }
  split; simpl.
  - rewrite fmap_app. apply NoDup_app. split; [done|]. split; [|apply NoDup_singleton].
    intros x Hx Hx'. apply list_elem_of_singleton in Hx'. rewrite Hk' in Hx. by destruct Hx.
  - intros r [Hd|Hd]%elem_of_app.
    + destruct (Hrows r (drop_first_elem _ _ _ Hd)) as [[s Hs] Er]. split; [by exists s|].
      assert (view_key r ≠ k0) as Hne by (apply Hk'; by apply list_elem_of_fmap_2).
      rewrite upsert_filter; [done|..]; rewrite Hs.
      * apply not_true_iff_false. rewrite in_month_spec, <- Hs. intros E. apply Hne. unfold view_key.
        rewrite <- E. by apply (Hkey (fresh_row a t)).
      * intros u Hu Hk. assert (row_view_key u = k0) as Eu by (apply Hkey; [by apply Hr|done]).
        split; apply not_true_iff_false; rewrite in_month_spec, <- Hs.
        -- intros E. apply Hne. by rewrite <- Eu, E.
        -- intros E. apply Hne. change (row_view_key (merge a u)) with (row_view_key u) in E. by rewrite <- Eu, E.
    + apply list_elem_of_singleton in Hd as ->. split; [by exists t|done].
  - intros u Hu. rewrite fmap_app, elem_of_app, Hk'. destruct (Hup u Hu) as [Ho [Hold|Hk]].
    + destruct (decide (row_view_key u = k0)) as [->|]; [right; by left|]. left. split; [by apply Hall|done].
    + right. rewrite (Hkey u Ho Hk). by left.
Qed.

Lemma run_view_ok own l : Forall (owned own) l → rows_owned own (run l empty) ∧ view_ok (run l empty).
Proof.
  induction l as [|a l IH] using rev_ind; intros Hl.
  { split; [intros u Hu; by apply elem_of_nil in Hu|]. split; simpl; [constructor|..]; intros x Hx; by apply elem_of_nil in Hx. }
  rewrite Forall_app, Forall_singleton in Hl. destruct Hl as [Hl Ha]. destruct (IH Hl) as [H1 H2].
  rewrite run_snoc. by apply (append_view_ok own).
Qed.

Lemma i64_zsum {A} (f : A → Z) l : i64 (zsum (λ x, i64 (f x)) l) = i64 (zsum f l).
Proof.
  induction l as [|x l IH]; [done|]. simpl. rewrite i64_add_l, Z.add_comm, <- i64_add_l, IH, i64_add_l. f_equal. lia.
Qed.

Lemma zsum_plus {A} (f g : A → Z) l : zsum (λ x, f x + g x) l = zsum f l + zsum g l.
Proof. induction l as [|x l IH]; simpl; lia. Qed.

Lemma zsum_zero {A} (f : A → Z) l : (∀ x, x ∈ l → f x = 0) → zsum f l = 0.
Proof. intros H. rewrite (zsum_ext _ (λ _, 0) l H). clear. induction l; simpl; lia. Qed.

(** A sum split by a key over the distinct keys. *)
Lemma zsum_partition {A K} `{EqDecision K} (k : A → K) (f : A → Z) ks l :
  NoDup ks →
  zsum (λ c, zsum (λ x, if bool_decide (k x = c) then f x else 0) l) ks =
  zsum (λ x, if bool_decide (k x ∈ ks) then f x else 0) l.
Proof.
  induction 1 as [|c ks Hc _ IH].
  { symmetry. apply zsum_zero. intros x _. cbv beta. by rewrite bool_decide_false by (by intros ?%elem_of_nil). }
  cbn [zsum foldr]. fold (zsum (λ c, zsum (λ x, if bool_decide (k x = c) then f x else 0) l) ks).
  rewrite IH, <- zsum_plus. apply zsum_ext. intros x _.
  destruct (decide (k x = c)) as [<-|Hne].
  - rewrite (bool_decide_true (k x = k x)), (bool_decide_false (k x ∈ ks)), bool_decide_true by (done || by left). lia.
  - rewrite (bool_decide_false (k x = c)) by done. simpl.
    rewrite (bool_decide_ext (k x ∈ c :: ks) (k x ∈ ks)) by (rewrite elem_of_cons; naive_solver). lia.
Qed.

(** The minutes of an account that lie in the month of [t]. *)
Definition account_month (acct : string) (t : Time) (u : usageMinute) : bool :=
  String.eqb (AccountID u) acct && bool_decide (YearMonth (MinuteAt u) = YearMonth t).

Lemma view_sum acct t d :
  view_ok d →
  foldl (λ n r, n +! uMBSeconds r) 0 (UsageByMonth acct t d) =
  i64 (zsum MBSeconds (filter (account_month acct t) (usage d))).
Proof.
  intros [Hnd Hrows Hall]. rewrite foldl_i64_0. unfold UsageByMonth. set (M := Date1 (YearMonth t)).
  set (view := filter _ _).
  assert (∀ r, r ∈ view ↔ (uAccountID r = acct ∧ uMonth r = M) ∧ r ∈ usageByMonth d) as Hview.
  { intros r. unfold view. by rewrite elem_of_filter_bool, andb_true_iff, String.eqb_eq, Z.eqb_eq. }
  assert (NoDup (uAppID <$> view)) as Happs.
  { assert (NoDup (view_key <$> view)) as H by (eapply sublist_NoDup; [exact Hnd|]; apply fmap_sublist, sublist_filter).
    revert H Hview. generalize view. intros l H Hl.
    assert (view_key <$> l = (λ a, (acct, a, M)) <$> (uAppID <$> l)) as E.
    { rewrite <- list_fmap_compose. apply list_fmap_ext. intros i r Hr. apply list_elem_of_lookup_2, Hl in Hr.
      destruct Hr as [[<- <-] _]. done. }
    rewrite E in H. by apply NoDup_fmap_1 in H. }
  rewrite (zsum_ext _ (λ r, i64 (zsum MBSeconds (filter (in_month acct (uAppID r) M) (usage d))))); cycle 1.
  { intros r [[<- HM] Hr]%Hview. destruct (Hrows r Hr) as [_ Er]. rewrite Er at 1. simpl. by rewrite foldl_i64_0, HM. }
  rewrite i64_zsum. f_equal. rewrite zsum_filter.
  transitivity (zsum (λ a, zsum (λ u, if bool_decide (AppID u = a)
      then (if account_month acct t u then MBSeconds u else 0) else 0) (usage d)) (uAppID <$> view)).
  { rewrite zsum_fmap. apply zsum_ext. intros r _. simpl. rewrite zsum_filter. apply zsum_ext. intros u _.
    unfold in_month, account_month, M. rewrite YearMonth_start.
    destruct (String.eqb_spec (AppID u) (uAppID r)) as [e|e];
      [rewrite (bool_decide_true (AppID u = _)) by done|rewrite (bool_decide_false (AppID u = _)) by done];
      by destruct (String.eqb (AccountID u) acct), (bool_decide (YearMonth _ = _)). }
  rewrite zsum_partition by done. apply zsum_ext. intros u Hu.
  destruct (account_month acct t u) eqn:E; [|by case_bool_decide].
  rewrite bool_decide_true; [done|]. unfold account_month in E. breflect.
  specialize (Hall u Hu) as Hk. apply list_elem_of_fmap in Hk as (r & Hk & Hr). injection Hk as E1 E2 E3.
  rewrite E2. apply list_elem_of_fmap_2, Hview. split; [|done]. split; [congruence|]. rewrite <- E3. unfold M. congruence.
Qed.

(** ** The bill *)

Definition billed_in (acct : string) (t : Time) (a : append) : bool :=
  String.eqb (aAccount a) acct && bool_decide (YearMonth (Truncate (aMinute a) Minute) = YearMonth t).

Lemma first_writes_nodup l : NoDup (key_of <$> first_writes l).
Proof.
  rewrite <- rows_keys. induction l as [|a l IH] using rev_ind; [constructor|].
  rewrite run_snoc, usage_append. by apply upsert_nodup.
Qed.

Lemma first_writes_cover l a : a ∈ l → key_of a ∈ key_of <$> first_writes l.
Proof.
  induction l as [|b l IH] using rev_ind; intros Ha; [by apply elem_of_nil in Ha|].
  rewrite first_writes_snoc, existsb_key. apply elem_of_app in Ha as [Ha|Ha].
  - apply IH in Ha. case_bool_decide; [done|]. rewrite fmap_app, elem_of_app. by left.
  - apply list_elem_of_singleton in Ha as ->. case_bool_decide; [done|]. rewrite fmap_app, elem_of_app. right. by left.
Qed.

(** The month view of an account is the sum of its first writes. *)
Lemma month_view_bill own l acct t :
  Forall (owned own) l → Forall nonzero l →
  foldl (λ n r, n +! uMBSeconds r) 0 (UsageByMonth acct t (run l empty)) =
  i64 (zsum aMB (filter (billed_in acct t) (first_writes l))).
Proof.
  intros Ho Hn. destruct (run_view_ok own l Ho) as [_ Hv]. rewrite view_sum by done.
  f_equal. rewrite !zsum_filter. pose proof (rows_bill l Hn) as E.
  transitivity (zsum (λ '(ac, _, _, m, mb), if String.eqb ac acct && bool_decide (YearMonth m = YearMonth t) then mb else 0)
    (bill_of_row <$> usage (run l empty))); [by rewrite zsum_fmap|]. rewrite E. by rewrite zsum_fmap.
Qed.

(** C36: However often each (instance, minute) is reported and in whatever order, the month view of an account (UsageByMonth, what quota and invoices read) adds up to the MB-seconds of the first report of every (instance, minute) of that account in that month, each counted once; the wrap-around of int64 is the only loss. *)
Theorem month_bill_exact (own : string → string * string) (l : list append) (acct : string) (t : Time) :
  Forall (owned own) l → Forall nonzero l →
  foldl (λ n r, n +! uMBSeconds r) 0 (UsageByMonth acct t (run l empty)) =
    i64 (zsum aMB (filter (billed_in acct t) (first_writes l))) ∧
  NoDup (key_of <$> first_writes l) ∧
  (∀ a, a ∈ l → key_of a ∈ key_of <$> first_writes l).
Proof.
  intros Ho Hn. split_and!; [by apply (month_view_bill own)|apply first_writes_nodup|apply first_writes_cover].
Qed.

Lemma month_bill_exact_witness :
  let a i m mb cpu := mkAppend "acct" "app" i m mb 1 cpu 0 0 0 0 0 in
  let l := [a "i1" (90 * Second) 15840 5; a "i2" (90 * Second) 15840 0; a "i1" (100 * Second) 99999 7] in
  foldl (λ n r, n +! uMBSeconds r) 0 (UsageByMonth "acct" 0 (run l empty)) = 31680.
Proof.
  intros a l.
  assert (Forall (owned (λ _, ("acct", "app"))) l) as Ho by (repeat constructor).
  assert (Forall nonzero l) as Hn by (repeat constructor; vm_compute; discriminate).
  destruct (month_bill_exact (λ _, ("acct", "app")) l "acct" 0 Ho Hn) as [E _]. rewrite E. vm_compute. reflexivity.
Defined.

(** ** The grouped reads *)

Lemma group_sum {K} `{Countable K} (add : gmap K Usage → usageMinute → gmap K Usage)
    (keep : usageMinute → bool) (l : list usageMinute) (b : gmap K Usage) :
  (∀ b u, i64 (map_sum uMBSeconds (add b u)) = i64 (map_sum uMBSeconds b + MBSeconds u)) →
  i64 (map_sum uMBSeconds (foldl (λ b u, if keep u then add b u else b) b l)) =
  i64 (map_sum uMBSeconds b + zsum MBSeconds (filter keep l)).
Proof.
  intros Hadd. rewrite zsum_filter. revert b. induction l as [|u l IH]; intros b; simpl; [by rewrite Z.add_0_r|].
  rewrite IH. destruct (keep u); [|done]. rewrite <- i64_add_l, Hadd, i64_add_l. f_equal. lia.
Qed.

Lemma insert_add_sum {K} `{Countable K} (b : gmap K Usage) k (r : Usage) z :
  uMBSeconds r = uMBSeconds (default (mkUsage EmptyString EmptyString 0 0 0 0 0 0 0 0) (b !! k)) +! z →
  i64 (map_sum uMBSeconds (<[k := r]> b)) = i64 (map_sum uMBSeconds b + z).
Proof.
  intros Hr. destruct (b !! k) as [a|] eqn:E; simpl in Hr.
  - rewrite (map_sum_update _ _ _ a) by done. rewrite Hr, Z.add_comm, i64_add_l. f_equal. lia.
  - rewrite map_sum_insert by done. rewrite Hr, i64_add_l. f_equal. lia.
Qed.

Lemma hour_sum acct start stop d :
  foldl (λ n r, n +! uMBSeconds r) 0 (UsageByHour acct start stop d) =
  i64 (zsum MBSeconds (filter (in_window acct start stop) (usage d))).
Proof.
  rewrite foldl_i64_0. unfold UsageByHour. rewrite zsum_map, group_sum by (intros; by apply insert_add_sum).
  by rewrite map_sum_empty.
Qed.

Lemma account_sum acct since d :
  foldl (λ n r, n +! uMBSeconds r) 0 (UsageByAccount acct since d) =
  i64 (zsum MBSeconds (filter (since_ok acct since) (usage d))).
Proof.
  rewrite foldl_i64_0. unfold UsageByAccount. rewrite go_sort_perm, zsum_map, group_sum by (intros; by apply insert_add_sum).
  by rewrite map_sum_empty.
Qed.

End Usage.
Import Usage.

(** ** The minute sampler *)

Module Sampler.

(** The columns of an app row the sampler reads; [Policy] is the floor of the scaling policy. *)
Record App := mkApp {
  ID : string;
  AccountID : string;
  Deleted : bool;
  RAMMB : Z;
  MinInstances : Z;
  Policy : option Z;
}.

(** What the store answers about the fleet at one tick.  [sidecarRAMs] and [deploymentMin] are keyed by the
    instance on whose turn the deployment is read; [None] is a failed read. *)
Record fleet := mkFleet {
  apps : list App;
  instances : string → list Store.Instance;
  sidecarRAMs : string → string → option (list Z);
  deploymentMin : string → string → option Z;
}.

(** What the sources report at one tick, and which calls fail. *)
Record telemetry := mkTelemetry {
  now : Time;
  listAppsOK : bool;
  listInstancesOK : string → bool;
  invocations : string → option Z;
  appendOK : string → bool;
  cpu : option (string → option Z);
  egress : option (string → option (Z * Z));
  tail : option (string → option Z);
}.

Record cpuBaseline := mkBaseline { lastCPUUsec : Z; lastMinute : Time }.

Record RolledRow := mkRow {
  rInstanceID : string;
  rAppID : string;
  rAccountID : string;
  rMinute : Time;
  rMBSeconds : Z;
  rAdmissionMB : Z;
  rCPUUsec : Z;
  rTXBytes : Z;
  rNetTxBytes : Z;
  rNetRxBytes : Z;
  rColdBootCount : Z;
  rTailSeconds : Z;
  rSyntheticFloor : bool;
}.

(** The sampler's map, the store and the rows returned: those written so far, none after a failed list. *)
Record state := mkState { db : tables; baselines : gmap string cpuBaseline; out : list RolledRow }.

Definition MinuteKey (t : Time) : Time := Truncate t Minute.
Definition MBSecondsPerMinute (admissionMB : Z) : Z := admissionMB *! 60.

Definition cpuDeltaForMinute (t : telemetry) (instanceID : string) (minute : Time)
    (b : gmap string cpuBaseline) : Z * gmap string cpuBaseline :=
  match cpu t with
  | None => (0, b)
  | Some src =>
      match src instanceID with
      | None => (0, b)
      | Some curr =>
          let delta :=
            match b !! instanceID with
            | None => 0
            | Some prev => if curr <? lastCPUUsec prev then 0 else u64 (curr - lastCPUUsec prev)
            end in
          (i64 delta, <[instanceID := mkBaseline curr minute]> b)
      end
  end.

Definition egressBytes (t : telemetry) (instanceID : string) : option (Z * Z) :=
  match egress t with None => None | Some src => src instanceID end.

Definition egress_columns (t : telemetry) (instanceID : string) : Z * Z :=
  match egressBytes t instanceID with Some (tx, netTx) => (i64 tx, i64 netTx) | None => (0, 0) end.

Definition tailSecondsFor (t : telemetry) (instanceID : string) : option Z :=
  match tail t with None => None | Some src => src instanceID end.

(** The pre-load of sidecar RAM: one read per deployment, repeated after a failed one. *)
Definition load_sidecars (f : fleet) (ins : list Store.Instance) : gmap string (list Z) :=
  foldl (λ m i,
    if String.eqb (Store.DeploymentID i) EmptyString then m
    else match m !! Store.DeploymentID i with
    | Some _ => m
    | None => match sidecarRAMs f (Store.ID i) (Store.DeploymentID i) with
              | Some mbs => <[Store.DeploymentID i := mbs]> m
              | None => m
              end
    end) ∅ ins.

Definition billable_of (sc : gmap string (list Z)) (i : Store.Instance) : Z :=
  BillableRAMMBWithSidecars (Store.RAMMB i) (default [] (sc !! Store.DeploymentID i)).

(** The append of one row.  The sampler passes 0 for ingress bytes and cold boots. *)
Definition append_of (r : RolledRow) (requests : Z) : append :=
  mkAppend (rAccountID r) (rAppID r) (rInstanceID r) (rMinute r) (rMBSeconds r) requests (rCPUUsec r)
    (rTXBytes r) (rNetTxBytes r) (rNetRxBytes r) (rColdBootCount r) (rTailSeconds r).

Definition sample_instance (t : telemetry) (app : App) (minute : Time) (sc : gmap string (list Z))
    (i : Store.Instance) (s : state) : state * bool :=
  match invocations t (Store.ID i) with
  | None => (s, false)
  | Some requests =>
      let '(cpuUsec, b) := cpuDeltaForMinute t (Store.ID i) minute (baselines s) in
      let '(tx, netTx) := egress_columns t (Store.ID i) in
      let tailSec := default 0 (tailSecondsFor t (Store.ID i)) in
      let row := mkRow (Store.ID i) (ID app) (AccountID app) minute
        (MBSecondsPerMinute (billable_of sc i)) (billable_of sc i) cpuUsec tx netTx 0 0 tailSec false in
      if appendOK t (Store.ID i)
      then (mkState (AppendUsage (append_of row requests) (db s)) b (out s ++ [row]), true)
      else (mkState (db s) b (out s), false)
  end.

(** The loop over the instances, with the live count; it stops at the first error. *)
Fixpoint sample_live (t : telemetry) (app : App) (minute : Time) (sc : gmap string (list Z))
    (ins : list Store.Instance) (live : Z) (s : state) : state * Z * bool :=
  match ins with
  | [] => (s, live, true)
  | i :: ins =>
      if negb (CountsForRAM (Store.IState i)) then sample_live t app minute sc ins live s
      else let '(s', ok) := sample_instance t app minute sc i s in
           if ok then sample_live t app minute sc ins (live +! 1) s' else (s', live, false)
  end.

(** The effective floor: the app's own and those of the deployments with a live instance. *)
Definition app_floor (f : fleet) (app : App) (ins : list Store.Instance) : Z :=
  foldl (λ floor i,
    if negb (CountsForRAM (Store.IState i)) || String.eqb (Store.DeploymentID i) EmptyString then floor
    else match deploymentMin f (Store.ID i) (Store.DeploymentID i) with
         | None => floor
         | Some d => let dFloor := effectiveDeploymentMinInstances (Some d) in
                     if floor <? dFloor then dFloor else floor
         end) (effectiveMinInstances (Some (MinInstances app, Policy app))) ins.

Section sampler.
(** uuid.NewSHA1(FloorNamespace, name), rendered as a string. *)
Context (NewSHA1 : string → string).

Definition FloorInstanceID (appID : string) (i : Z) : string := NewSHA1 (appID +:+ ":" +:+ pretty i).

(** The synthetic rows [i], [i+1], ... of the floor gap. *)
Fixpoint floor_rows (t : telemetry) (app : App) (minute : Time) (billable perRow remainder : Z)
    (n : nat) (i : Z) (s : state) : state * bool :=
  match n with
  | O => (s, true)
  | S n =>
      let mb := if i =? 0 then perRow +! remainder else perRow in
      let row := mkRow (FloorInstanceID (ID app) i) (ID app) (AccountID app) minute mb billable
        0 0 0 0 0 0 true in
      if appendOK t (FloorInstanceID (ID app) i)
      then floor_rows t app minute billable perRow remainder n (i + 1)
             (mkState (AppendUsage (append_of row 0) (db s)) (baselines s) (out s ++ [row]))
      else (s, false)
  end.

Definition sample_app (f : fleet) (t : telemetry) (minute : Time) (app : App) (s : state) : state * bool :=
  if Deleted app then (s, true)
  else if negb (listInstancesOK t (ID app)) then (mkState (db s) (baselines s) [], false)
  else
    let ins := instances f (ID app) in
    let '(s1, live, ok) := sample_live t app minute (load_sidecars f ins) ins 0 s in
    if negb ok then (s1, false)
    else
      let floor := app_floor f app ins in
      if (0 <? floor) && (live <? floor) then
        let gap := floor -! live in
        let billable := BillableRAMMB (RAMMB app) in
        let floorTotal := gap *! MBSecondsPerMinute billable in
        let perRow := go_div floorTotal gap in
        let remainder := floorTotal -! (perRow *! gap) in
        floor_rows t app minute billable perRow remainder (Z.to_nat gap) 0 s1
      else (s1, true).

Fixpoint sample_apps (f : fleet) (t : telemetry) (minute : Time) (l : list App) (s : state) : state * bool :=
  match l with
  | [] => (s, true)
  | app :: l =>
      let '(s', ok) := sample_app f t minute app s in
      if ok then sample_apps f t minute l s' else (s', false)
  end.

(** One tick.  The result tells whether it returned without an error. *)
Definition SampleAndRoll (f : fleet) (t : telemetry) (d : tables) (b : gmap string cpuBaseline) : state * bool :=
  if negb (listAppsOK t) then (mkState d b [], false)
  else sample_apps f t (MinuteKey (now t)) (apps f) (mkState d b []).

(** Ticks of one sampler, in order, each with what the store and the sources answer it. *)
Fixpoint ticks (ts : list (fleet * telemetry)) (d : tables) (b : gmap string cpuBaseline) : tables :=
  match ts with
  | [] => d
  | (f, t) :: ts => let '(s, _) := SampleAndRoll f t d b in ticks ts (db s) (baselines s)
  end.

(** ** Specification: what a minute of the fleet costs

    A bill lists account, app, instance, minute and MB-seconds. *)

Abbreviation bill := (list (string * string * string * Time * Z)).

Definition live (f : fleet) (app : App) : list Store.Instance :=
  filter (λ i, CountsForRAM (Store.IState i)) (instances f (ID app)).

Definition instance_mb (f : fleet) (app : App) (i : Store.Instance) : Z :=
  60 * (Store.RAMMB i + 8 +
        sum_pos (default [] (load_sidecars f (instances f (ID app)) !! Store.DeploymentID i))).

Definition gap (f : fleet) (app : App) : Z :=
  Z.max 0 (app_floor f app (instances f (ID app)) - Z.of_nat (length (live f app))).

Definition app_bill (f : fleet) (m : Time) (app : App) : bill :=
  if Deleted app then [] else
  ((λ i, (AccountID app, ID app, Store.ID i, m, instance_mb f app i)) <$> live f app) ++
  ((λ k, (AccountID app, ID app, FloorInstanceID (ID app) (Z.of_nat k), m, 60 * (RAMMB app + 8)))
     <$> seq 0 (Z.to_nat (gap f app))).

Definition fleet_bill (f : fleet) (m : Time) : bill :=
  apps f ≫= app_bill f m.

(** The sizes for which the int arithmetic of the sampler is exact. *)
Record sane_app (f : fleet) (app : App) : Prop := {
  sa_live : ∀ i, i ∈ live f app → 0 ≤ Store.RAMMB i ∧ instance_mb f app i < 2 ^ 63;
  sa_count : Z.of_nat (length (live f app)) < 2 ^ 62;
  sa_floor : 0 ≤ RAMMB app ∧ app_floor f app (instances f (ID app)) < 2 ^ 62 ∧
             (gap f app) * (60 * (RAMMB app + 8)) < 2 ^ 63 ∧ 60 * (RAMMB app + 8) < 2 ^ 63;
}.

(** [s'] results from [s] by appending a prefix of the bill [E], all of it if [ok]. *)
Definition extends (E : bill) (s s' : state) (ok : bool) : Prop :=
  ∃ A, db s' = run A (db s) ∧ (bill_of_append <$> A) `prefix_of` E ∧ (ok = true → bill_of_append <$> A = E).

Lemma extends_nil s ok : extends [] s s ok.
Proof. by exists []. Qed.

Lemma extends_stop E s s' : db s' = db s → extends E s s' false.
Proof. intros Hd. exists []. split; [done|]. split; [apply prefix_nil|done]. Qed.

Lemma extends_app E1 E2 s s1 s2 ok :
  extends E1 s s1 true → extends E2 s1 s2 ok → extends (E1 ++ E2) s s2 ok.
Proof.
  intros (A1 & D1 & P1 & F1) (A2 & D2 & P2 & F2). exists (A1 ++ A2). rewrite fmap_app, F1 by done.
  split; [unfold run in *; by rewrite foldl_app, D2, D1|]. split; [by apply prefix_app|]. intros H. by rewrite F2.
Qed.

Lemma extends_weaken E1 E2 s s1 : extends E1 s s1 false → extends (E1 ++ E2) s s1 false.
Proof. intros (A & D & P & F). exists A. split; [done|]. split; [by apply prefix_app_r|done]. Qed.

Lemma extends_one e s a s' :
  db s' = AppendUsage a (db s) → bill_of_append a = e → extends [e] s s' true.
Proof. intros Hd <-. exists [a]. split; [done|]. split; done. Qed.

Lemma billable_exact f app i :
  i ∈ live f app → sane_app f app →
  MBSecondsPerMinute (billable_of (load_sidecars f (instances f (ID app))) i) = instance_mb f app i.
Proof.
  intros Hi [Hl _ _]. destruct (Hl i Hi) as [H0 H1]. unfold instance_mb in *.
  set (sc := default [] _) in *. pose proof (sum_pos_nonneg sc).
  unfold MBSecondsPerMinute, billable_of. fold sc.
  rewrite BillableRAMMBWithSidecars_exact by (unfold PerVMOverheadMB; lia).
  rewrite i64_id by (unfold in_i64, PerVMOverheadMB; lia). unfold PerVMOverheadMB. lia.
Qed.

Lemma sample_live_extends f t app m l n s :
  Truncate m Minute = m → sane_app f app → (∀ i, i ∈ l → i ∈ instances f (ID app)) →
  let sc := load_sidecars f (instances f (ID app)) in
  let L := filter (λ i, CountsForRAM (Store.IState i)) l in
  let '(s', n', ok) := sample_live t app m sc l (i64 n) s in
  extends ((λ i, (AccountID app, ID app, Store.ID i, m, instance_mb f app i)) <$> L) s s' ok ∧
  (ok = true → n' = i64 (n + Z.of_nat (length L))).
Proof.
  intros Hm Hs Hl sc. revert n s Hl. induction l as [|i l IH]; intros n s Hl; simpl.
  { split; [apply extends_nil|]. intros _. by rewrite Z.add_0_r. }
  assert (∀ i, i ∈ l → i ∈ instances f (ID app)) as Hl' by (intros; apply Hl; by right).
  destruct (CountsForRAM (Store.IState i)) eqn:Ec; simpl; cycle 1.
  { rewrite filter_cons_False by (rewrite Ec; by intros []). by apply IH. }
  rewrite filter_cons_True by by rewrite Ec.
  assert (i ∈ live f app) as Hi by (apply elem_of_filter_bool; split; [done|]; apply Hl; by left).
  destruct (sample_instance t app m sc i s) as [s1 ok] eqn:E. unfold sample_instance in E.
  destruct (invocations t _) as [req|]; [|injection E as <- <-; split; [by apply extends_stop|done]].
  destruct (cpuDeltaForMinute t _ m _) as [c b]. destruct (egress_columns t _) as [tx ntx].
  destruct (appendOK t _); injection E as <- <-; [|split; [by apply extends_stop|done]].
  match goal with |- context [sample_live _ _ _ _ _ _ ?s1] => specialize (IH (n + 1) s1 Hl') end.
  rewrite i64_add_l.
  destruct (sample_live _ _ _ _ _ _ _) as [[s' n'] ok']. destruct IH as [IH1 IH2]. split.
  - rewrite fmap_cons. apply (extends_app [_]) with (2 := IH1). eapply extends_one; [done|].
    unfold bill_of_append. simpl. rewrite Hm. do 2 f_equal. by apply billable_exact.
  - intros Hok. rewrite IH2 by done. simpl. f_equal. lia.
Qed.

Lemma floor_rows_extends t app m mb n i s billable :
  Truncate m Minute = m → 0 ≤ i →
  let '(s', ok) := floor_rows t app m billable mb 0 n i s in
  in_i64 mb →
  extends ((λ k, (AccountID app, ID app, FloorInstanceID (ID app) (Z.of_nat k), m, mb))
             <$> seq (Z.to_nat i) n) s s' ok.
Proof.
  intros Hm. revert i s. induction n as [|n IH]; intros i s Hi; simpl; [intros _; apply extends_nil|].
  destruct (appendOK t _); [|intros _; by apply extends_stop].
  match goal with |- context [floor_rows _ _ _ _ _ _ _ _ ?s1] => specialize (IH (i + 1) s1 ltac:(lia)) end.
  destruct (floor_rows _ _ _ _ _ _ _ _ _) as [s' ok]. intros Hmb. specialize (IH Hmb).
  apply (extends_app [_]) with (s1 := mkState (AppendUsage (append_of (mkRow (FloorInstanceID (ID app) i) (ID app)
    (AccountID app) m (if i =? 0 then mb +! 0 else mb) billable 0 0 0 0 0 0 true) 0) (db s)) (baselines s)
    (out s ++ [mkRow (FloorInstanceID (ID app) i) (ID app) (AccountID app) m (if i =? 0 then mb +! 0 else mb)
       billable 0 0 0 0 0 0 true])).
  - eapply extends_one; [done|]. unfold bill_of_append. simpl. rewrite Hm, Z2Nat.id, Z.add_0_r by lia.
    do 2 f_equal. destruct (i =? 0); [|done]. by apply i64_id.
  - by replace (S (Z.to_nat i)) with (Z.to_nat (i + 1)) by lia.
Qed.

Lemma sample_app_extends f t m app s :
  Truncate m Minute = m → (Deleted app = false → sane_app f app) →
  let '(s', ok) := sample_app f t m app s in extends (app_bill f m app) s s' ok.
Proof.
  intros Hm Hs. unfold sample_app, app_bill. destruct (Deleted app); [apply extends_nil|]. specialize (Hs eq_refl).
  destruct (listInstancesOK t _); simpl; [|by apply extends_stop].
  pose proof (sample_live_extends f t app m (instances f (ID app)) 0 s Hm Hs (λ _ H, H)) as Hlive. cbv zeta in Hlive.
  change (i64 0) with 0 in Hlive. fold (live f app) in Hlive.
  destruct (sample_live _ _ _ _ _ _ _) as [[s1 n] ok]. destruct Hlive as [H1 H2].
  destruct ok; simpl; [|by apply extends_weaken]. rewrite H2 by done. clear H2 n.
  destruct Hs as [_ Hc (Hram & Hfl & Hg & Hmb)]. unfold gap in Hg. rewrite Z.add_0_l.
  rewrite i64_id by (unfold in_i64; lia). set (fl := app_floor _ _ _) in *.
  assert (0 ≤ Z.of_nat (length (live f app))) as Hn0 by lia. set (n := Z.of_nat _) in *.
  destruct ((0 <? fl) && (n <? fl)) eqn:E; cycle 1.
  { assert (gap f app = 0) as -> by (unfold gap; fold fl n; breflect; lia). rewrite app_nil_r. done. }
  breflect. rewrite (i64_id (fl - n)) by (unfold in_i64; lia).
  rewrite Z.max_r in Hg by lia. unfold gap. fold fl n. rewrite Z.max_r by lia.
  set (g := fl - n) in *. assert (0 < g < 2 ^ 62) by lia. set (mb := 60 * (RAMMB app + 8)) in *.
  assert (MBSecondsPerMinute (BillableRAMMB (RAMMB app)) = mb) as ->.
  { unfold MBSecondsPerMinute, BillableRAMMB, PerVMOverheadMB. rewrite (i64_id (RAMMB app + 8)) by (unfold in_i64; lia).
    rewrite i64_id by (unfold in_i64; lia). lia. }
  assert (0 ≤ g * mb) by (apply Z.mul_nonneg_nonneg; lia).
  rewrite (i64_id (g * mb)) by (unfold in_i64; lia). unfold go_div.
  rewrite Z.mul_comm, Z.quot_mul by lia. rewrite (i64_id mb) by (unfold in_i64; lia).
  rewrite (i64_id (mb * g)), Z.sub_diag by (unfold in_i64; lia). change (i64 0) with 0.
  pose proof (floor_rows_extends t app m mb (Z.to_nat g) 0 s1 (BillableRAMMB (RAMMB app)) Hm ltac:(lia)) as Hf.
  destruct (floor_rows _ _ _ _ _ _ _ _ _) as [s2 ok2]. eapply extends_app; [exact H1|]. apply Hf. unfold in_i64. lia.
Qed.

Lemma tick_extends f t d b :
  let m := MinuteKey (now t) in
  (∀ app, app ∈ apps f → Deleted app = false → sane_app f app) →
  let '(s', ok) := SampleAndRoll f t d b in extends (fleet_bill f m) (mkState d b []) s' ok.
Proof.
  intros m Hs. unfold SampleAndRoll, fleet_bill. destruct (listAppsOK t); simpl; [|by apply extends_stop].
  assert (Truncate m Minute = m) as Hm.
  { unfold m, MinuteKey. rewrite !Truncate_minute. set (z := now t). pose proof (Z.div_mod z Minute ltac:(done)).
    replace (z - z mod Minute) with (z / Minute * Minute) by lia. rewrite Z.mod_mul by done. lia. }
  fold m. clearbody m. generalize (mkState d b []). clear d b. induction (apps f) as [|app l IH]; intros s.
  { apply extends_nil. }
  simpl. pose proof (sample_app_extends f t m app s Hm (Hs app ltac:(by left))) as H1.
  destruct (sample_app _ _ _ _ _) as [s1 ok]. destruct ok; [|by apply extends_weaken].
  specialize (IH (λ a Ha, Hs a ltac:(by right)) s1). destruct (sample_apps _ _ _ _ _) as [s2 ok2].
  by eapply extends_app.
Qed.

(** ** The bill of one minute under repeated ticks *)

Definition at_minute (m : Time) (u : usageMinute) : bool := MinuteAt u =? m.
Definition bills (m : Time) (d : tables) : bill := bill_of_row <$> filter (at_minute m) (usage d).

Definition instance_of : string * string * string * Time * Z → string := λ '(_, _, i, _, _), i.

(** The first entry of every instance. *)
Fixpoint keep_first (seen : list string) (E : bill) : bill :=
  match E with
  | [] => []
  | e :: E =>
      if bool_decide (instance_of e ∈ seen) then keep_first seen E
      else e :: keep_first (instance_of e :: seen) E
  end.

Lemma keep_first_snoc seen E e :
  keep_first seen (E ++ [e]) =
    keep_first seen E ++ (if bool_decide (instance_of e ∈ seen ++ (instance_of <$> E)) then [] else [e]).
Proof.
  revert seen. induction E as [|x E IH]; intros seen; [cbn; rewrite app_nil_r; by case_bool_decide|].
  rewrite <- app_comm_cons. cbn [keep_first]. rewrite fmap_cons.
  assert (∀ P Q `{!Decision P, !Decision Q}, P ↔ Q →
            (if bool_decide P then [] else [e]) = (if bool_decide Q then [] else [e])) as Hext.
  { intros P Q ? ? H. by rewrite (bool_decide_ext P Q). }
  case_bool_decide as Hx; rewrite IH.
  - f_equal. apply Hext. rewrite !elem_of_app, elem_of_cons. clear Hext. split; [tauto|].
    intros [?|[Heq|?]]; [by left|left; by rewrite Heq|by right].
  - change ((x :: ?l) ++ ?k) with (x :: (l ++ k)). do 2 f_equal. apply Hext.
    repeat first [rewrite elem_of_cons|rewrite elem_of_app]. tauto.
Qed.

Lemma keep_first_instances seen E i : i ∉ seen → i ∈ instance_of <$> keep_first seen E ↔ i ∈ instance_of <$> E.
Proof.
  revert seen. induction E as [|x E IH]; intros seen Hi; simpl; [done|]. case_bool_decide as Hx.
  - rewrite IH by done. rewrite elem_of_cons. naive_solver.
  - simpl. rewrite !elem_of_cons. destruct (decide (i = instance_of x)) as [|Hne]; [naive_solver|].
    rewrite IH by set_solver. done.
Qed.

Lemma keep_first_sub seen E e : e ∈ keep_first seen E → e ∈ E ∧ instance_of e ∉ seen.
Proof.
  revert seen. induction E as [|x E IH]; intros seen; simpl; [by intros ?%elem_of_nil|].
  case_bool_decide as Hx; [intros ?%IH; set_solver|].
  intros [->|[? ?]%IH]%elem_of_cons; [split; [by left|done]|]. set_solver.
Qed.

Lemma keep_first_nodup seen E : NoDup (instance_of <$> keep_first seen E).
Proof.
  revert seen. induction E as [|x E IH]; intros seen; simpl; [constructor|]. case_bool_decide; [done|].
  simpl. constructor; [|done]. intros (e & He & [_ Hn]%keep_first_sub)%list_elem_of_fmap. apply Hn. rewrite He. by left.
Qed.

(** An entry of minute [m] with an amount. *)
Definition charges (m : Time) (e : string * string * string * Time * Z) : Prop :=
  let '(_, _, _, m', mb) := e in m' = m ∧ mb ≠ 0.

Lemma bills_instance m d i : (i, m) ∈ key <$> usage d ↔ i ∈ instance_of <$> bills m d.
Proof.
  unfold bills. rewrite !list_elem_of_fmap. split.
  - intros (u & [= -> ->] & Hu). exists (bill_of_row u). split; [done|]. apply list_elem_of_fmap_2.
    apply elem_of_filter_bool. split; [apply Z.eqb_refl|done].
  - intros (e & -> & (u & -> & Hu)%list_elem_of_fmap). apply elem_of_filter_bool in Hu as [Hm Hu].
    exists u. split; [|done]. apply Z.eqb_eq in Hm. unfold key. by rewrite Hm.
Qed.

(** Writes of a minute without rows leave the first of each instance, and the other minutes alone. *)
Lemma bills_run m A d :
  (∀ u, u ∈ usage d → MinuteAt u ≠ m) → Forall (charges m) (bill_of_append <$> A) →
  bills m (run A d) = keep_first [] (bill_of_append <$> A)
  ∧ filter (λ u, negb (at_minute m u)) (usage (run A d)) = filter (λ u, negb (at_minute m u)) (usage d)
  ∧ Forall (charges m) (bills m (run A d)).
Proof.
  intros Hd. induction A as [|a A IH] using rev_ind; intros HA.
  { assert (bills m d = []) as E by (unfold bills; rewrite filter_none; [done|]; intros u Hu; apply Z.eqb_neq; auto).
    change (run [] d) with d. rewrite E. split_and!; [done|done|constructor]. }
  rewrite fmap_app, Forall_app in HA. destruct HA as [HA Ha].
  assert (Truncate (aMinute a) Minute = m ∧ aMB a ≠ 0) as [Hm Hnz] by (by apply Forall_cons in Ha as [Ha _]).
  destruct (IH HA) as (E1 & E2 & E3). rewrite fmap_app, run_snoc.
  change (bill_of_append <$> [a]) with [bill_of_append a]. rewrite keep_first_snoc. clear IH.
  set (d1 := run A d) in *.
  assert (at_minute m (fresh_row a m) = true) as Hfm by apply Z.eqb_refl.
  change (instance_of (bill_of_append a)) with (aInstance a). simpl app. rewrite <- E1.
  assert ((aInstance a, m) ∈ key <$> usage d1 ↔ aInstance a ∈ instance_of <$> (bill_of_append <$> A)) as Hin.
  { rewrite bills_instance, E1. apply keep_first_instances. set_solver. }
  unfold bills. rewrite usage_append, Hm. destruct (elem_key_dec (aInstance a) m (usage d1)) as [H|H].
  - rewrite bool_decide_true by (by apply Hin). destruct (upsert_old a m _ H) as (l1 & v & l2 & E & Hk & ->).
    injection Hk as Hki Hkm. assert (at_minute m v = true) as Hv by (unfold at_minute; rewrite Hkm; apply Z.eqb_refl).
    assert (bill_of_row (merge a v) = bill_of_row v) as Em.
    { rewrite Forall_forall in E3. destruct (E3 (bill_of_row v)) as [_ Hz].
      - apply list_elem_of_fmap_2, elem_of_filter_bool. split; [done|]. rewrite E. set_solver.
      - unfold bill_of_row. simpl. by rewrite (proj2 (Z.eqb_neq _ _) Hz). }
    unfold bills in E3. rewrite E in E2, E3 |- *. rewrite app_nil_r.
    rewrite !filter_app, !filter_cons_bool in E2, E3 |- *. change (at_minute m (merge a v)) with (at_minute m v).
    rewrite Hv in E2, E3 |- *. rewrite !fmap_app, !fmap_cons in *. rewrite Em.
    split_and!; [|rewrite <- E2|done]; rewrite !filter_app, !filter_cons_bool, ?fmap_app; [by rewrite Hv|].
    change (at_minute m (merge a v)) with (at_minute m v). by rewrite Hv.
  - rewrite bool_decide_false by (by rewrite <- Hin). rewrite upsert_new by done.
    rewrite !filter_app, !filter_cons_bool, Hfm, fmap_app, app_nil_r.
    assert (bill_of_row (fresh_row a m) = bill_of_append a) as Ef by (unfold bill_of_row, bill_of_append; simpl; by rewrite Hm).
    split_and!; [simpl; by rewrite Ef|done|]. apply Forall_app. split; [done|]. simpl. rewrite Ef. by constructor.
Qed.

(** ** A tick without failures *)

Record healthy (t : telemetry) : Prop := {
  he_apps : listAppsOK t = true;
  he_instances : ∀ a, listInstancesOK t a = true;
  he_invocations : ∀ i, is_Some (invocations t i);
  he_append : ∀ i, appendOK t i = true;
}.

Lemma sample_live_ok t app m sc l n s : healthy t → (sample_live t app m sc l n s).2 = true.
Proof.
  intros Ht. revert n s. induction l as [|i l IH]; intros n s; simpl; [done|].
  destruct (negb _); [apply IH|]. unfold sample_instance.
  destruct (he_invocations t Ht (Store.ID i)) as [r ->]. destruct (cpuDeltaForMinute _ _ _ _), (egress_columns _ _).
  rewrite (he_append t Ht). apply IH.
Qed.

Lemma floor_rows_ok t app m b p r n i s : healthy t → (floor_rows t app m b p r n i s).2 = true.
Proof.
  intros Ht. revert i s. induction n as [|n IH]; intros i s; simpl; [done|]. rewrite (he_append t Ht). apply IH.
Qed.

Lemma tick_ok f t d b : healthy t → (SampleAndRoll f t d b).2 = true.
Proof.
  intros Ht. unfold SampleAndRoll. rewrite (he_apps t Ht). simpl. generalize (mkState d b []).
  induction (apps f) as [|app l IH]; intros s; simpl; [done|].
  assert ((sample_app f t (MinuteKey (now t)) app s).2 = true) as H1.
  { unfold sample_app. destruct (Deleted app); [done|]. rewrite (he_instances t Ht). simpl.
    set (r := sample_live _ _ _ _ _ _ _). assert (r.2 = true) as Hr by by apply sample_live_ok.
    destruct r as [[s1 n] ok]. simpl in Hr. subst ok. simpl.
    destruct (_ && _); [|done]. by apply floor_rows_ok. }
  destruct (sample_app _ _ _ _ _) as [s1 ok]. simpl in H1. subst ok. apply IH.
Qed.

(** The price of one minute of an app in MB-seconds: what its live instances hold, and plan RAM for
    every instance missing to its floor. *)
Definition app_minute_mb (f : fleet) (app : App) : Z :=
  if Deleted app then 0
  else zsum (instance_mb f app) (live f app) + gap f app * (60 * (RAMMB app + 8)).

Definition sane (f : fleet) : Prop := ∀ app, app ∈ apps f → Deleted app = false → sane_app f app.

Lemma fleet_bill_sum f m acct :
  zsum (λ '(ac, _, _, _, mb), if String.eqb ac acct then mb else 0) (fleet_bill f m) =
  zsum (λ app, if String.eqb (AccountID app) acct then app_minute_mb f app else 0) (apps f).
Proof.
  unfold fleet_bill. induction (apps f) as [|app l IH]; [done|]. rewrite bind_cons, zsum_app, IH. simpl. f_equal.
  unfold app_bill, app_minute_mb. destruct (Deleted app); [by destruct (String.eqb _ _)|].
  rewrite zsum_app, !zsum_fmap. unfold compose. destruct (String.eqb _ _).
  - f_equal. assert (0 ≤ gap f app) by (unfold gap; lia). replace (gap f app) with (Z.of_nat (Z.to_nat (gap f app))) at 2 by lia.
    generalize (Z.to_nat (gap f app)), 0%nat. clear. induction n as [|n IH]; intros k; simpl; [lia|]. rewrite IH. lia.
  - rewrite !zsum_zero; [done|done|done].
Qed.

Lemma fleet_bill_charges f m : sane f → Forall (charges m) (fleet_bill f m).
Proof.
  intros Hs. apply Forall_forall. intros e (app & Hin & Happ)%list_elem_of_bind. unfold app_bill in Hin.
  destruct (Deleted app) eqn:Ed; [by apply elem_of_nil in Hin|]. destruct (Hs app Happ Ed) as [Hl _ (Hr & _)].
  apply elem_of_app in Hin as [(j & -> & Hj)%list_elem_of_fmap|(k & -> & _)%list_elem_of_fmap]; (split; [done|]); [|lia].
  destruct (Hl j Hj) as [H0 _]. unfold instance_mb. pose proof (sum_pos_nonneg (default [] (load_sidecars f
    (instances f (ID app)) !! Store.DeploymentID j))). lia.
Qed.

(** What a tick of minute [m] wrote: its bill up to the call that failed. *)
Definition tick_wrote (m : Time) (ft : fleet * telemetry) (P : bill) : Prop :=
  P `prefix_of` fleet_bill ft.1 m ∧ (healthy ft.2 → P = fleet_bill ft.1 m).

Lemma ticks_wrote m ts d b :
  (∀ ft, ft ∈ ts → MinuteKey (now ft.2) = m ∧ sane ft.1) →
  ∃ As, Forall2 (tick_wrote m) ts (fmap (M := list) bill_of_append <$> As) ∧ ticks ts d b = run (concat As) d.
Proof.
  revert d b. induction ts as [|[f t] ts IH]; intros d b Hts; [by exists []|].
  destruct (Hts (f, t) ltac:(by left)) as [Hm Hs]. simpl in Hm, Hs. pose proof (tick_extends f t d b Hs) as Hx.
  pose proof (tick_ok f t d b) as Hok. simpl. rewrite Hm in Hx. destruct (SampleAndRoll f t d b) as [s1 ok].
  destruct Hx as (A & HA & Hpre & Hfull). simpl in HA, Hok.
  destruct (IH (db s1) (baselines s1)) as (As & HAs & E); [intros; apply Hts; by right|].
  exists (A :: As). split; [constructor; [split; auto|done]|]. simpl. unfold run in *. by rewrite foldl_app, E, HA.
Qed.

Lemma wrote_charges m ts Ps :
  (∀ ft, ft ∈ ts → MinuteKey (now ft.2) = m ∧ sane ft.1) → Forall2 (tick_wrote m) ts Ps →
  Forall (charges m) (concat Ps).
Proof.
  intros Hts H. induction H as [|ft P ts Ps [Hpre _] _ IH]; [constructor|]. simpl. apply Forall_app. split.
  - destruct (Hts ft ltac:(by left)) as [_ Hs]. pose proof (fleet_bill_charges ft.1 m Hs) as Hc.
    destruct Hpre as [k Hk]. rewrite Hk, Forall_app in Hc. by destruct Hc.
  - apply IH. intros; apply Hts; by right.
Qed.

(** Ticks that would write one bill, one of them whole, leave exactly that bill. *)
Lemma keep_first_same m ts Ps E :
  NoDup (instance_of <$> E) → (∀ ft, ft ∈ ts → fleet_bill ft.1 m = E) → (∃ ft, ft ∈ ts ∧ healthy ft.2) →
  Forall2 (tick_wrote m) ts Ps → keep_first [] (concat Ps) ≡ₚ E.
Proof.
  intros Hnd Hts (ft & Hft & Hh) HPs.
  assert (∀ e, e ∈ concat Ps ↔ e ∈ E) as Hin.
  { intros e. rewrite list_elem_of_In, in_concat. setoid_rewrite <- list_elem_of_In. split.
    - intros (P & HP & HeP). apply list_elem_of_lookup in HP as [k Hk].
      destruct (Forall2_lookup_r _ _ _ _ _ HPs Hk) as (ft' & Hft' & Hpre & _).
      rewrite (Hts ft') in Hpre by (by eapply list_elem_of_lookup_2). by eapply elem_of_prefix.
    - intros He. pose proof Hft as [k Hk]%list_elem_of_lookup.
      destruct (Forall2_lookup_l _ _ _ _ _ HPs Hk) as (P & HP & _ & HPE).
      exists P. split; [by eapply list_elem_of_lookup_2|]. rewrite HPE by done. by rewrite (Hts ft). }
  apply NoDup_Permutation; [eapply NoDup_fmap_1, keep_first_nodup|by eapply NoDup_fmap_1|].
  intros e. split; [intros [He _]%keep_first_sub; by apply Hin|]. intros He.
  assert (instance_of e ∈ instance_of <$> keep_first [] (concat Ps)) as Hk.
  { apply keep_first_instances; [set_solver|]. by apply list_elem_of_fmap_2, Hin. }
  apply list_elem_of_fmap in Hk as (e' & Hi & He'). assert (e' ∈ E) as HE by (by apply Hin, (keep_first_sub [] _ e')).
  assert (e = e') as ->; [|done].
  apply list_elem_of_lookup in He as [k1 H1]. apply list_elem_of_lookup in HE as [k2 H2].
  assert (k1 = k2) as ->; [|congruence]. eapply (NoDup_lookup _ _ _ (instance_of e) Hnd).
  - by rewrite list_lookup_fmap, H1.
  - rewrite list_lookup_fmap, H2, Hi. done.
Qed.

(** C32: An instance is billed once for a minute, by the first tick that reaches it. Whatever number of ticks falls into a minute, with the apps, the instances and the results of the sidecar and deployment reads changing from tick to tick and any call failing anywhere, each tick writes its bill in order up to the call that fails (all of it when none does), and the rows of the minute are the first entry of each instance in what the ticks wrote; no other minute changes. The bill of a tick is the plan RAM plus overhead of every live instance and of the sidecars whose read succeeded at that tick, and the plan RAM of every instance missing to an app's floor, so a failed sidecar read under-bills the instance for the minute and no later tick corrects it. When all ticks of the minute read the same fleet and one runs without a failed call, every account is billed exactly that. *)
Theorem minute_billed_once (m : Time) (ts : list (fleet * telemetry)) (d : tables) (b : gmap string cpuBaseline) :
  (∀ ft, ft ∈ ts → MinuteKey (now ft.2) = m ∧ sane ft.1) → (∀ u, u ∈ usage d → MinuteAt u ≠ m) →
  (∃ Ps, Forall2 (tick_wrote m) ts Ps ∧ bills m (ticks ts d b) = keep_first [] (concat Ps))
  ∧ filter (λ u, negb (at_minute m u)) (usage (ticks ts d b)) = filter (λ u, negb (at_minute m u)) (usage d)
  ∧ ∀ f acct,
    NoDup (instance_of <$> fleet_bill f m) → (∀ ft, ft ∈ ts → fleet_bill ft.1 m = fleet_bill f m) →
    (∃ ft, ft ∈ ts ∧ healthy ft.2) →
    zsum MBSeconds (filter (λ u, String.eqb (Usage.AccountID u) acct && at_minute m u) (usage (ticks ts d b))) =
      zsum (λ app, if String.eqb (AccountID app) acct then app_minute_mb f app else 0) (apps f).
Proof.
  intros Hts Hd. destruct (ticks_wrote m ts d b Hts) as (As & HAs & E).
  pose proof (wrote_charges m ts _ Hts HAs) as Hc. assert (concat (fmap (M := list) bill_of_append <$> As) = bill_of_append <$> concat As) as Ej
    by (symmetry; apply concat_map). rewrite Ej in Hc.
  destruct (bills_run m (concat As) d Hd Hc) as (B1 & B2 & _). rewrite <- E, <- Ej in B1. rewrite <- E in B2.
  split_and!; [by eexists|done|]. intros f acct Hnd Hsame Hh.
  rewrite <- (fleet_bill_sum f m acct), <- (keep_first_same m ts _ _ Hnd Hsame Hh HAs), <- B1.
  unfold bills. rewrite zsum_fmap, !zsum_filter. apply zsum_ext. intros u _. simpl.
  by destruct (at_minute m u), (String.eqb _ _).
Qed.

End sampler.

Definition no_faults (t : Time) : telemetry :=
  mkTelemetry t true (λ _, true) (λ _, Some 1) (λ _, true) None None None.

(** One app with a floor of two and one live instance, sampled three times in one minute: the first tick
    fails to read the sidecars and stops after the live instance, so the 32 MB of the sidecar are not
    billed for that minute, although both later ticks read them. *)
Lemma minute_billed_once_witness :
  let i := Store.mkIns "i1" "app" "d1" StateRunning ("ns", "ip", 1) 256 0 0 0 None "n" "w" None None "l" None 0 0 in
  let fleet_with sidecars := mkFleet [mkApp "app" "acct" false 256 2 None] (λ _, [i]) (λ _ _, sidecars) (λ _ _, Some 0) in
  let bad := mkTelemetry (70 * Second) true (λ _, true) (λ _, Some 1) (λ j, String.eqb j "i1") None None None in
  let good := fleet_with (Some [32]) in
  let lost := [(fleet_with None, bad); (good, no_faults (80 * Second)); (good, no_faults (119 * Second))] in
  let whole := [(good, bad); (good, no_faults (80 * Second))] in
  bills Minute (ticks (λ n, n) lost empty ∅)
  = [("acct", "app", "i1", Minute, 60 * (256 + 8)); ("acct", "app", "app:0", Minute, 60 * (256 + 8))]%string
  ∧ (∃ Ps, Forall2 (tick_wrote (λ n, n) Minute) lost Ps ∧ bills Minute (ticks (λ n, n) lost empty ∅) = keep_first [] (concat Ps))
  ∧ zsum MBSeconds (filter (λ u, String.eqb (Usage.AccountID u) "acct" && at_minute Minute u)
      (usage (ticks (λ n, n) whole empty ∅))) = 33600.
Proof.
  intros i fleet_with bad good lost whole.
  assert (∀ sc, sc = None ∨ sc = Some [32] → sane (fleet_with sc)) as Hs.
  { intros sc Hsc app Happ _. apply list_elem_of_singleton in Happ as ->. split.
    - intros j Hj. assert (j = i) as ->; [|destruct Hsc as [->| ->]; vm_compute; split; discriminate || reflexivity].
      apply elem_of_filter_bool in Hj as [_ Hj]. by apply list_elem_of_singleton in Hj.
    - destruct Hsc as [->| ->]; vm_compute; reflexivity.
    - destruct Hsc as [->| ->]; vm_compute; repeat split; discriminate || reflexivity. }
  assert (∀ ft, ft ∈ lost ++ whole → MinuteKey (now ft.2) = Minute ∧ sane ft.1) as Ht.
  { intros ft Hft. unfold lost, whole in Hft. rewrite elem_of_app, !elem_of_cons, !elem_of_nil in Hft.
    destruct_or?; subst ft; try done; (split; [vm_compute; reflexivity|apply Hs; auto]). }
  split; [vm_compute; reflexivity|]. split.
  - apply (minute_billed_once (λ n, n) Minute lost empty ∅);
      [intros; apply Ht; set_solver|intros u Hu; by apply elem_of_nil in Hu].
  - destruct (minute_billed_once (λ n, n) Minute whole empty ∅) as (_ & _ & E);
      [intros; apply Ht; set_solver|intros u Hu; by apply elem_of_nil in Hu|].
    rewrite (E good "acct"%string); [vm_compute; reflexivity|vm_decide| |].
    + intros ft Hft. unfold whole in Hft. rewrite !elem_of_cons, elem_of_nil in Hft. destruct_or?; subst ft; done.
    + exists (good, no_faults (80 * Second)). split; [right; left|]. split; [done|done|by eexists|done].
Defined.

End Sampler.

(** ** The billing push *)

Module Pusher.

Inductive AccountStatus := AccountActive | AccountPastDue | AccountSuspended | AccountDeletedPending.

#[global] Instance AccountStatus_eq_dec : EqDecision AccountStatus.
Proof. solve_decision. Defined.

(** The columns of an account row the pusher reads. *)
Record Account := mkAccount { ID : string; Plan : string; Status : AccountStatus }.

Definition StripeInterval_default : Duration := 24 * Hour.

Definition HourWindow (at_ : Time) : Time * Time :=
  (Truncate at_ Hour - Hour, Truncate at_ Hour).

(** One tick: the clock, the accounts ([None] a failed list), which usage reads work, and the provider
    ([None] if none is configured) with its answer to a record. *)
Record env := mkEnv {
  now : Time;
  accounts : option (list Account);
  readOK : string → bool;
  provider : option (string → Time → Z → bool);
}.

Definition skipped (a : Account) : bool :=
  String.eqb (Plan a) PlanFree ||
  bool_decide (Status a = AccountSuspended) || bool_decide (Status a = AccountDeletedPending).

(** The records sent in one tick, each with the provider's answer. *)
Definition push_account (e : env) (prov : string → Time → Z → bool) (d : tables) (start stop : Time)
    (a : Account) : list (string * Time * Z * bool) :=
  if skipped a then []
  else if negb (readOK e (ID a)) then []
  else
    let mbSec := foldl (λ n u, n +! uMBSeconds u) 0 (UsageByHour (ID a) start stop d) in
    if mbSec <=? 0 then [] else [(ID a, start, mbSec, prov (ID a) start mbSec)].

(** The records, the number accepted and whether the tick returned an error. *)
Definition PushHour (e : env) (d : tables) : list (string * Time * Z * bool) * Z * bool :=
  let '(start, stop) := HourWindow (now e) in
  match provider e, accounts e with
  | None, _ | _, None => ([], 0, true)
  | Some prov, Some l =>
      let sent := l ≫= push_account e prov d start stop in
      (sent, foldl (λ n (r : string * Time * Z * bool), if r.2 then n +! 1 else n) 0 sent, false)
  end.

Definition accepted_mb (acct : string) (r : string * Time * Z * bool) : Z :=
  let '(a, _, mb, ok) := r in if String.eqb a acct && ok then mb else 0.

(** What the provider has accepted for an account over a series of ticks. *)
Definition accepted (acct : string) (d : tables) (es : list env) : Z :=
  zsum (λ e, zsum (accepted_mb acct) (PushHour e d).1.1) es.

(** ** Which minutes a series of ticks covers *)

Definition window_mb (acct : string) (e : env) (d : tables) : Z :=
  zsum MBSeconds (filter (in_window acct (HourWindow (now e)).1 (HourWindow (now e)).2) (usage d)).

(** The account is pushed at this tick if it has usage, and the answer is [ok]. *)
Definition serves (acct : string) (e : env) (ok : bool) : Prop :=
  ∃ l a prov, provider e = Some prov ∧ accounts e = Some l ∧ a ∈ l ∧ NoDup (ID <$> l) ∧ ID a = acct ∧
    skipped a = false ∧ readOK e acct = true ∧ ∀ start mb, prov acct start mb = ok.

Definition covered (acct : string) (es : list (env * bool)) (u : usageMinute) : bool :=
  existsb (λ '(e, ok), ok && in_window acct (HourWindow (now e)).1 (HourWindow (now e)).2 u) es.

Lemma push_one acct d e ok :
  serves acct e ok → (∀ u, u ∈ usage d → 0 ≤ MBSeconds u) → zsum MBSeconds (usage d) < 2 ^ 63 →
  zsum (accepted_mb acct) (PushHour e d).1.1 =
  if ok then window_mb acct e d else 0.
Proof.
  intros (l & a & prov & Hprov & Hl & Ha & Hnd & HID & Hsk & Hr & Hp) Hpos Hmax. unfold PushHour, window_mb. rewrite Hprov, Hl.
  destruct (HourWindow (now e)) as [start stop]. simpl.
  assert (0 ≤ zsum MBSeconds (filter (in_window acct start stop) (usage d)) < 2 ^ 63) as Hb.
  { split; [apply zsum_nonneg; intros u [_ Hu]%elem_of_filter_bool; by apply Hpos|].
    enough (zsum MBSeconds (filter (in_window acct start stop) (usage d)) ≤ zsum MBSeconds (usage d)) by lia.
    rewrite zsum_filter. clear -Hpos. induction (usage d) as [|u us IH]; simpl; [done|].
    pose proof (Hpos u ltac:(by left)). assert (∀ u, u ∈ us → 0 ≤ MBSeconds u) as Hp by (intros; apply Hpos; by right).
    specialize (IH Hp). destruct (in_window _ _ _ u); lia. }
  assert (∀ l, acct ∉ ID <$> l → zsum (accepted_mb acct)
      (l ≫= push_account e prov d start stop) = 0) as Hother.
  { clear. induction l as [|b l IH]; [done|]. rewrite fmap_cons, not_elem_of_cons. intros [Hb Hl].
    rewrite bind_cons, zsum_app, IH by done. unfold push_account.
    repeat case_match; simpl; try done. by rewrite (proj2 (String.eqb_neq _ _)) by done. }
  apply list_elem_of_split in Ha as (l1 & l2 & ->). rewrite fmap_app, fmap_cons in Hnd.
  apply NoDup_app in Hnd as (_ & Hd & [Hd2 _]%NoDup_cons).
  rewrite bind_app, bind_cons, !zsum_app, !Hother by (rewrite <- HID; try done; intros H; apply (Hd _ H); by left).
  unfold push_account. rewrite Hsk, HID, Hr, hour_sum, i64_id by (unfold in_i64; lia). simpl.
  destruct (Z.leb_spec (zsum MBSeconds (filter (in_window acct start stop) (usage d))) 0); simpl.
  - destruct ok; lia.
  - rewrite String.eqb_refl, Hp. simpl. destruct ok; lia.
Qed.

Lemma in_window_spec acct start stop u :
  in_window acct start stop u = true ↔ Usage.AccountID u = acct ∧ start ≤ MinuteAt u < stop.
Proof.
  unfold in_window. rewrite andb_true_iff, String.eqb_eq, negb_true_iff, orb_false_iff, negb_false_iff, Z.ltb_ge, Z.ltb_lt.
  done.
Qed.

(** Tick number [k] of a series runs in the hour [T0 + k * s]. *)
Definition series (acct : string) (T0 s : Z) (es : list (env * bool)) : Prop :=
  ∀ (k : nat) e ok, es !! k = Some (e, ok) →
    serves acct e ok ∧ Truncate (now e) Hour = T0 + Z.of_nat k * s * Hour.

Lemma series_cons acct T0 s e ok es :
  series acct T0 s ((e, ok) :: es) →
  serves acct e ok ∧ Truncate (now e) Hour = T0 ∧ series acct (T0 + s * Hour) s es.
Proof.
  intros H. destruct (H 0%nat e ok eq_refl) as [H1 H2]. split; [done|]. split; [lia|].
  intros k e' ok' Hk. destruct (H (S k) e' ok' Hk) as [H3 H4]. split; [done|]. rewrite H4. lia.
Qed.

Lemma series_covered acct T0 s es u :
  series acct T0 s es → covered acct es u = true ↔
  Usage.AccountID u = acct ∧ ∃ (k : nat) e, es !! k = Some (e, true) ∧
    T0 + Z.of_nat k * s * Hour - Hour ≤ MinuteAt u < T0 + Z.of_nat k * s * Hour.
Proof.
  intros Hs. unfold covered. rewrite existsb_exists. split.
  - intros ([e ok] & Hin & [-> Hw%in_window_spec]%andb_true_iff). rewrite <- list_elem_of_In in Hin.
    apply list_elem_of_lookup in Hin as [k Hk]. destruct (Hs k e true Hk) as [_ Ht].
    unfold HourWindow in Hw. simpl in Hw. rewrite Ht in Hw. destruct Hw as [H1 H2]. split; [done|]. by exists k, e.
  - intros (Ha & k & e & Hk & Hw). exists (e, true). rewrite <- list_elem_of_In. split; [by eapply list_elem_of_lookup_2|].
    destruct (Hs k e true Hk) as [_ Ht]. simpl. apply in_window_spec. unfold HourWindow. simpl. by rewrite Ht.
Qed.

Lemma accepted_series acct T0 s d es :
  1 ≤ s → series acct T0 s es → (∀ u, u ∈ usage d → 0 ≤ MBSeconds u) → zsum MBSeconds (usage d) < 2 ^ 63 →
  accepted acct d es.*1 = zsum MBSeconds (filter (covered acct es) (usage d)).
Proof.
  intros Hs1 Hs Hpos Hmax. revert T0 Hs. induction es as [|[e ok] es IH]; intros T0 Hs.
  { rewrite filter_none; [done|]. intros u _. done. }
  destruct (series_cons _ _ _ _ _ _ Hs) as (Hserve & Ht & Htl). 
  assert (accepted acct d ((e, ok) :: es).*1 = zsum (accepted_mb acct) (PushHour e d).1.1 + accepted acct d es.*1) as -> by done.
  rewrite (IH _ Htl), (push_one acct d e ok) by done. unfold window_mb. rewrite !zsum_filter.
  transitivity (zsum (λ u, (if ok && in_window acct (HourWindow (now e)).1 (HourWindow (now e)).2 u then MBSeconds u else 0) +
    (if covered acct es u then MBSeconds u else 0)) (usage d)).
  { rewrite zsum_plus. f_equal. destruct ok; simpl; [done|]. symmetry. by apply zsum_zero. }
  apply zsum_ext. intros u _. cbn [covered existsb]. fold (covered acct es u).
  destruct (ok && in_window _ _ _ u) eqn:E; [|done]. apply andb_true_iff in E as [_ E%in_window_spec].
  simpl in E. rewrite Ht in E. assert (covered acct es u = false) as ->; [|simpl; lia].
  apply not_true_iff_false. rewrite (series_covered _ _ _ _ _ Htl). intros (_ & k & e' & _ & Hw).
  assert (0 ≤ Z.of_nat k * s) by lia. assert (1 ≤ s + Z.of_nat k * s) by lia. unfold Hour, Minute, Second in *. lia.
Qed.

(** The push is exact at an hourly cadence.  When the pusher runs once in every hour of a span, the provider has accepted, for an account, exactly the MB-seconds of the minutes in the hours whose record it accepted: no minute is sent twice, every minute of the span belongs to exactly one record, and the minutes of a rejected record are never sent again. *)
Theorem hourly_push_exact (acct : string) (T0 : Time) (d : tables) (es : list (env * bool)) :
  series acct T0 1 es → (∀ u, u ∈ usage d → 0 ≤ MBSeconds u) → zsum MBSeconds (usage d) < 2 ^ 63 →
  accepted acct d es.*1 = zsum MBSeconds (filter (covered acct es) (usage d)) ∧
  ∀ u, Usage.AccountID u = acct → T0 - Hour ≤ MinuteAt u < T0 + (Z.of_nat (length es) - 1) * Hour →
    ∃ (k : nat) e ok, es !! k = Some (e, ok) ∧ covered acct es u = ok ∧
      T0 + Z.of_nat k * Hour - Hour ≤ MinuteAt u < T0 + Z.of_nat k * Hour.
Proof.
  intros Hs Hpos Hmax. split; [by apply (accepted_series acct T0 1)|]. intros u Ha Hu.
  set (k := (MinuteAt u - (T0 - Hour)) / Hour). assert (0 < Hour) by done.
  assert (0 ≤ k) by (apply Z.div_pos; lia).
  assert (Hour * k ≤ MinuteAt u - (T0 - Hour) < Hour * k + Hour) as Hk
    by (pose proof (Z.div_mod (MinuteAt u - (T0 - Hour)) Hour); pose proof (Z.mod_pos_bound (MinuteAt u - (T0 - Hour)) Hour); unfold k; lia).
  assert (k < Z.of_nat (length es)) by nia.
  destruct (lookup_lt_is_Some_2 es (Z.to_nat k)) as [[e ok] He]; [lia|].
  exists (Z.to_nat k), e, ok. split; [done|]. rewrite Z2Nat.id by lia. split; [|lia].
  apply eq_bool_prop_intro. rewrite !Is_true_true, (series_covered _ _ _ _ _ Hs). split.
  - intros (_ & j & e' & Hj & Hw). assert (Z.of_nat j = k) by nia. assert (j = Z.to_nat k) by lia. congruence.
  - intros ->. split; [done|]. exists (Z.to_nat k), e. split; [done|]. lia.
Qed.

(** A day of one 264 MB instance, and the pushes of a Hobby account. *)
Definition day_usage : tables :=
  mkTables ((λ k, mkMinute "acct" "app" "i1" (Z.of_nat k * Minute) 15840 0 0 0 0 0 0 0) <$> seq 0 1440) [].
Definition push_at (t : Time) : env :=
  mkEnv t (Some [mkAccount "acct" PlanHobby AccountActive]) (λ _, true) (Some (λ _ _ _, true)).

Lemma push_at_serves t : serves "acct" (push_at t) true.
Proof.
  exists [mkAccount "acct" PlanHobby AccountActive], (mkAccount "acct" PlanHobby AccountActive), (λ _ _ _, true).
  split_and!; [done|done|by left|vm_decide|done|vm_compute; done|done|done].
Qed.

Lemma day_usage_small :
  (∀ u, u ∈ usage day_usage → 0 ≤ MBSeconds u) ∧ zsum MBSeconds (usage day_usage) < 2 ^ 63.
Proof.
  split; [|vm_compute; reflexivity]. intros u (k & -> & _)%list_elem_of_fmap. simpl. lia.
Qed.

Lemma hourly_push_exact_witness :
  let es := [(push_at Hour, true); (push_at (2 * Hour), true)] in
  accepted "acct" day_usage es.*1 = 2 * 60 * 15840.
Proof.
  intros es. destruct day_usage_small as [H1 H2].
  destruct (hourly_push_exact "acct" Hour day_usage es) as [E _]; [|exact H1|exact H2|].
  - intros k e ok Hk. destruct k as [|[|k]]; [..|done]; injection Hk as <- <-;
      (split; [apply push_at_serves|vm_compute; reflexivity]).
  - rewrite E. vm_compute. reflexivity.
Defined.

(** The push loses 23 hours of every day at the default cadence.  The default interval is 24 hours but a tick sends only the hour before it, so a minute that lies outside that hour of its day is in no record, whatever the number of ticks; a full day of one instance is billed as one hour. *)
Theorem daily_push_misses (acct : string) (T0 : Time) (s : Z) (es : list (env * bool)) (u : usageMinute) :
  s * Hour = StripeInterval_default → series acct T0 s es →
  Hour ≤ (MinuteAt u - (T0 - Hour)) mod (24 * Hour) → covered acct es u = false.
Proof.
  intros Hs Hser Hu. assert (s = 24) as -> by (unfold StripeInterval_default, Hour, Minute, Second in Hs; lia).
  apply not_true_iff_false. rewrite (series_covered _ _ _ _ _ Hser). intros (_ & k & e & _ & Hw).
  replace (MinuteAt u - (T0 - Hour)) with
    (MinuteAt u - (T0 + Z.of_nat k * 24 * Hour - Hour) + Z.of_nat k * (24 * Hour)) in Hu by lia.
  rewrite Z.mod_add, Z.mod_small in Hu by (unfold Hour, Minute, Second in *; lia). lia.
Qed.

Lemma daily_push_misses_witness :
  covered "acct" [(push_at (24 * Hour), true)] (mkMinute "acct" "app" "i1" (5 * Hour) 15840 0 0 0 0 0 0 0) = false ∧
  accepted "acct" day_usage [push_at (24 * Hour)] = 60 * 15840.
Proof.
  split.
  - apply (daily_push_misses "acct" (24 * Hour) 24 [(push_at (24 * Hour), true)]).
    + reflexivity.
    + intros k e ok Hk. destruct k; [|done]. injection Hk as <- <-.
      split; [apply push_at_serves|vm_compute; reflexivity].
    + vm_compute. discriminate.
  - vm_compute. reflexivity.
Defined.

End Pusher.
