(* ===== verification/Billing.v ===== *)
(** * Quotas, overage and credits

    Module [Quota] is the quota verdict of the meter (src/pkg/meter/math.go, aggregator.go), computed in
    float64; module [Spend] the conversions of MB-seconds to money (src/pkg/billing/plans.go,
    credit_consume.go and the store's CurrentMonthOverageCents); module [Credits] the reducer that drains
    account credits against an invoice (ConsumeAccountCredit of src/pkg/state/memstore.go). *)

From S2P Require Import Prelude Api Float64 InstanceStore Usage.
#[local] Open Scope Z_scope.
#[local] Open Scope go_scope.
Import Calendar Usage Float64.

(** ** The quota verdict *)

Module Quota.

Definition GBHours (mbSeconds : Z) : Q := fdiv (fdiv (of_int mbSeconds) (inject_Z 1024)) (inject_Z 3600).

Definition CPUHours (cpuUsec : Z) : Q := fdiv (of_int cpuUsec) (inject_Z 3600000000).

(** The conversion of a float64 to an int64 truncates toward zero. *)
Definition to_int (x : Q) : Z := i64 (Z.quot (Qnum x) (Zpos (Qden x))).

Definition MonthlyUsageGB (usages : list Usage.Usage) : Q :=
  let mbSec := foldl (λ n u, n +! uMBSeconds u) 0 usages in
  let gb := GBHours mbSec in
  fdiv (of_int (to_int (fadd (fmul gb (inject_Z 1000000)) (1 # 2)))) (inject_Z 1000000).

Inductive QuotaVerdict := NoAction | Warn | Stop.

Record QuotaResult := mkResult {
  Plan : string;
  UsedGB : Q;
  QuotaGB : Z;
  Percent : Z;
  Action : QuotaVerdict;
}.

Definition CheckQuota (plan : string) (usedGB : Q) : QuotaResult :=
  let q := Api.Plan.PlanIncludedGBHours plan in
  if q <=? 0 then mkResult plan usedGB q 0 NoAction
  else
    let pct := to_int (fadd (fdiv (fmul usedGB (inject_Z 100)) (of_int q)) (1 # 2)) in
    let pct := if 999 <? pct then 999 else pct in
    mkResult plan usedGB q pct
      (if String.eqb plan PlanFree && fle (of_int q) usedGB then Stop
       else if negb (String.eqb plan PlanFree) && fle (of_int q) usedGB then Warn
       else NoAction).

(** ** The verdict is exact to one MB-second *)

Lemma to_int_ge x m : (0 <= x)%Q → (inject_Z m <= x)%Q → (x < inject_Z (2 ^ 63))%Q → m ≤ to_int x.
Proof.
  intros H0 Hm Hmax. destruct x as [n d]. unfold Qle, Qlt, to_int in *. simpl in *.
  rewrite Z.quot_div_nonneg by lia. rewrite i64_id.
  - apply Z.div_le_lower_bound; lia.
  - pose proof (Z.div_pos n (Zpos d)). assert (n / Zpos d < 2 ^ 63) by (apply Z.div_lt_upper_bound; lia). unfold in_i64. lia.
Qed.

Lemma to_int_lt x m : (0 <= x)%Q → (x < inject_Z m)%Q → m ≤ 2 ^ 63 → 0 ≤ to_int x < m.
Proof.
  intros H0 Hm Hmax. destruct x as [n d]. unfold Qle, Qlt, to_int in *. simpl in *.
  rewrite Z.quot_div_nonneg by lia. pose proof (Z.div_pos n (Zpos d) ltac:(lia) ltac:(lia)).
  assert (n / Zpos d < m) by (apply Z.div_lt_upper_bound; lia). rewrite i64_id by (unfold in_i64; lia). lia.
Qed.

(** The rounded micro-GB-hours before truncation, [v], against the exact value. *)
Lemma micro_gb_bounds S :
  0 ≤ S ≤ 2 ^ 53 →
  let v := fadd (fmul (GBHours S) (inject_Z 1000000)) (1 # 2) in
  let x := (inject_Z S * (1000000 # 3686400))%Q in
  (0 <= v ∧ x + (1 # 2) - x * (1 # 1000000000000000) - (1 # 1000000000) <= v ∧
   v <= x + (1 # 2) + x * (1 # 1000000000000000) + (1 # 1000000000))%Q.
Proof.
  intros HS. cbv zeta. unfold fadd, fmul, GBHours, fdiv, Qdiv.
  change (/ inject_Z 1024)%Q with (1 # 1024). change (/ inject_Z 3600)%Q with (1 # 3600).
  pose proof (of_int_exact S HS) as Ha. set (a := of_int S) in *.
  assert (0 <= inject_Z S)%Q as HS0 by (unfold Qle; simpl; lia). set (X := inject_Z S) in *.
  assert (0 <= a * (1 # 1024))%Q as H1 by lra. pose proof (round64_error _ H1) as [B0 B]. set (b := round64 (a * (1 # 1024))) in *.
  assert (0 <= b * (1 # 3600))%Q as H2 by lra. pose proof (round64_error _ H2) as [C0 C]. set (c := round64 (b * (1 # 3600))) in *.
  change (inject_Z 1000000) with (1000000 # 1).
  assert (0 <= c * (1000000 # 1))%Q as H3 by lra. pose proof (round64_error _ H3) as [G0 G]. set (g := round64 (c * (1000000 # 1))) in *.
  assert (0 <= g + (1 # 2))%Q as H4 by lra. pose proof (round64_error _ H4) as [V0 V]. set (v := round64 (g + (1 # 2))) in *.
  clearbody a b c g v X. unfold u, eta in *. destruct B, C, G, V. split; [done|]. split; lra.
Qed.

(** The rounded usage reaches an integer quota exactly when the MB-seconds come within one of it. *)
Lemma monthly_usage_ge (l : list Usage.Usage) q :
  let S := foldl (λ n u, n +! uMBSeconds u) 0 l in
  0 ≤ S ≤ 2 ^ 53 → 0 < q ≤ 10000 →
  fle (of_int q) (MonthlyUsageGB l) = (q * 3686400 - 1 <=? S).
Proof.
  cbv zeta. intros HS Hq. unfold MonthlyUsageGB. set (S := foldl _ _ _) in *. clearbody S.
  pose proof (micro_gb_bounds S HS) as (V0 & V1 & V2). cbv zeta in *.
  set (v := fadd _ _) in *. clearbody v.
  assert (inject_Z S <= inject_Z (2 ^ 53))%Q as HSQ by (rewrite <- Zle_Qle; lia).
  change (inject_Z (2 ^ 53)) with (9007199254740992 # 1)%Q in HSQ.
  assert (v < inject_Z (2 ^ 52))%Q as Hv52 by (change (inject_Z (2 ^ 52)) with (4503599627370496 # 1)%Q; lra).
  pose proof (to_int_lt v (2 ^ 52) V0 Hv52 ltac:(lia)) as Hn.
  assert (of_int q == inject_Z q)%Q as Eq by (apply of_int_exact; lia).
  assert (of_int (to_int v) == inject_Z (to_int v))%Q as En by (apply of_int_exact; lia).
  unfold fle, fdiv, Qdiv. change (/ inject_Z 1000000)%Q with (1 # 1000000).
  set (a := of_int (to_int v)) in *. set (b := of_int q) in *. clearbody a b.
  assert (0 <= inject_Z (to_int v))%Q as Hn0 by (unfold Qle; simpl; lia).
  assert (0 <= a * (1 # 1000000))%Q as Ha0 by lra.
  assert (inject_Z q <= inject_Z 10000)%Q as HqQ by (rewrite <- Zle_Qle; lia). change (inject_Z 10000) with (10000 # 1)%Q in HqQ.
  destruct (Z.leb_spec (q * 3686400 - 1) S) as [H|H].
  - apply Qle_bool_iff. rewrite Eq. apply round64_ge_int; [lia|].
    assert (inject_Z (q * 1000000) <= v)%Q as Hge.
    { rewrite Zle_Qle in H. rewrite inject_Z_mult. unfold Z.sub in H. rewrite inject_Z_plus, inject_Z_mult in H.
      change (inject_Z 3686400) with (3686400 # 1) in H. change (inject_Z (- (1))) with (-1 # 1) in H.
      change (inject_Z 1000000) with (1000000 # 1). lra. }
    assert (v < inject_Z (2 ^ 63))%Q as Hv63
      by (change (inject_Z (2 ^ 52)) with (4503599627370496 # 1)%Q in Hv52; change (inject_Z (2 ^ 63)) with (9223372036854775808 # 1)%Q; lra).
    pose proof (to_int_ge v _ V0 Hge Hv63) as Hn2. rewrite Zle_Qle, inject_Z_mult in Hn2.
    change (inject_Z 1000000) with (1000000 # 1) in Hn2. lra.
  - apply not_true_iff_false. rewrite Qle_bool_iff. apply Qlt_not_le.
    assert (S ≤ q * 3686400 - 2) as H' by lia. rewrite Zle_Qle in H'. unfold Z.sub in H'.
    rewrite inject_Z_plus, inject_Z_mult in H'.
    change (inject_Z 3686400) with (3686400 # 1) in H'. change (inject_Z (- (2))) with (-2 # 1) in H'.
    assert (v < inject_Z (q * 1000000))%Q as Hlt.
    { rewrite inject_Z_mult. change (inject_Z 1000000) with (1000000 # 1). lra. }
    pose proof (to_int_lt v _ V0 Hlt ltac:(lia)) as Hn2. assert (to_int v ≤ q * 1000000 - 1) as Hn3 by lia.
    rewrite Zle_Qle in Hn3. unfold Z.sub in Hn3. rewrite inject_Z_plus, inject_Z_mult in Hn3.
    change (inject_Z 1000000) with (1000000 # 1) in Hn3. change (inject_Z (- (1))) with (-1 # 1) in Hn3.
    pose proof (round64_error _ Ha0) as [_ [_ Hr]]. unfold u, eta in Hr. lra.
Qed.

(** The verdict by the month's MB-seconds. *)
Lemma quota_verdict (plan : string) (l : list Usage.Usage) :
  plan ∈ Plans →
  let S := foldl (λ n u, n +! uMBSeconds u) 0 l in
  0 ≤ S ≤ 2 ^ 53 →
  Action (CheckQuota plan (MonthlyUsageGB l)) =
  if S <? Api.Plan.PlanIncludedGBHours plan * 3686400 - 1 then NoAction
  else if String.eqb plan PlanFree then Stop else Warn.
Proof.
  intros Hp S HS. unfold CheckQuota.
  assert (0 < Api.Plan.PlanIncludedGBHours plan ≤ 10000) as Hq.
  { unfold Plans in Hp. rewrite !elem_of_cons, elem_of_nil in Hp. destruct Hp as [->|[->|[->|[->|[]]]]]; vm_compute; split; done. }
  rewrite (proj2 (Z.leb_gt _ 0)) by lia. simpl. rewrite monthly_usage_ge by done. fold S.
  destruct (Z.leb_spec (Api.Plan.PlanIncludedGBHours plan * 3686400 - 1) S).
  - rewrite (proj2 (Z.ltb_ge _ _)) by lia. by destruct (String.eqb plan PlanFree).
  - rewrite (proj2 (Z.ltb_lt _ _)) by lia. by destruct (String.eqb plan PlanFree).
Qed.

(** The quota verdict is exact to one MB-second in spite of its float64 arithmetic: a plan's action fires, a hard stop on Free and a warning on the paid plans, exactly when the month's MB-seconds reach the included GB-hours (3,686,400 MB-seconds each) less one. *)
Theorem quota_exact (plan : string) (l : list Usage.Usage) :
  plan ∈ Plans →
  let S := foldl (λ n u, n +! uMBSeconds u) 0 l in
  0 ≤ S ≤ 2 ^ 53 →
  Action (CheckQuota plan (MonthlyUsageGB l)) =
  if S <? Api.Plan.PlanIncludedGBHours plan * 3686400 - 1 then NoAction
  else if String.eqb plan PlanFree then Stop else Warn.
Proof. apply quota_verdict. Qed.

Lemma quota_exact_witness :
  let r mb := mkUsage "acct" "app" 0 mb 0 0 0 0 0 0 in
  Action (CheckQuota PlanFree (MonthlyUsageGB [r 10000000; r 8431999])) = Stop ∧
  Action (CheckQuota PlanFree (MonthlyUsageGB [r 10000000; r 8431998])) = NoAction.
Proof.
  intros r. split.
  - rewrite quota_exact; [vm_compute; reflexivity|by left|vm_compute; split; discriminate].
  - rewrite quota_exact; [vm_compute; reflexivity|by left|vm_compute; split; discriminate].
Defined.

End Quota.

(** ** Money *)

Module Spend.

Definition WireQuantityMillicentsPerGBHour : Z := 1000.
Definition SecondsPerGBHour : Z := 1024 * 3600.

Definition WireQuantityForMBSeconds (mbSeconds : Z) : Z :=
  go_div (mbSeconds *! WireQuantityMillicentsPerGBHour) SecondsPerGBHour.

(** The columns of an invoice row the reducer reads. *)
Record Invoice := mkInvoice {
  ID : string;
  AccountID : string;
  Provider : string;
  ProviderInvoiceID : string;
  PeriodStart : Time;
  PeriodEnd : Time;
}.

(** [readOK] tells whether the usage read works; [None] is an error. *)
Definition ComputeInvoiceOverageCents (readOK : bool) (inv : Invoice) (d : tables) : option Z :=
  if PeriodEnd inv <? PeriodStart inv then None
  else if negb readOK then None
  else
    let since := if PeriodStart inv =? zero_time then None else Some (PeriodStart inv) in
    let mbSec := foldl (λ n u, n +! uMBSeconds u) 0 (UsageByAccount (AccountID inv) since d) in
    let cents := go_div (mbSec *! 100) 3600 in
    if cents <? 0 then None else Some cents.

(** The MB-seconds an invoice is computed from. *)
Definition invoice_mb (inv : Invoice) (d : tables) : Z :=
  zsum MBSeconds (filter (λ u, String.eqb (Usage.AccountID u) (AccountID inv) && (PeriodStart inv <=? MinuteAt u)) (usage d)).

(** The spend the cap and the credits work with is wrong in two ways.  For usage that fits the integers, the overage of an invoice is MB-seconds * 100 / 3600 over all usage from the period start on: it ignores the end of the period, so two invoices that differ only there get the same overage, and it is at least 102,400 times what the metered record charges, since it treats MB-seconds as GB-seconds and a cent as a hundred cents. *)
Theorem invoice_overage_inflated (inv : Invoice) (d : tables) :
  PeriodStart inv ≤ PeriodEnd inv → zero_time < PeriodStart inv →
  (∀ u, u ∈ usage d → 0 ≤ MBSeconds u) → zsum MBSeconds (usage d) * 1000 < 2 ^ 63 →
  let S := invoice_mb inv d in
  ComputeInvoiceOverageCents true inv d = Some (S * 100 / 3600) ∧
  102400 * (WireQuantityForMBSeconds S / WireQuantityMillicentsPerGBHour) ≤ S * 100 / 3600.
Proof.
  intros Hp Hz Hpos Hmax S.
  assert (0 ≤ S ≤ zsum MBSeconds (usage d)) as HS.
  { unfold S, invoice_mb. rewrite zsum_filter. clear -Hpos. induction (usage d) as [|x l IH]; simpl; [done|].
    pose proof (Hpos x ltac:(by left)). assert (∀ u, u ∈ l → 0 ≤ MBSeconds u) as Hl by (intros; apply Hpos; by right).
    specialize (IH Hl). case_match; lia. }
  split.
  - unfold ComputeInvoiceOverageCents. rewrite (proj2 (Z.ltb_ge _ _)), (proj2 (Z.eqb_neq _ _)) by lia. simpl.
    rewrite account_sum.
    assert (zsum MBSeconds (filter (since_ok (AccountID inv) (Some (PeriodStart inv))) (usage d)) = S) as ->.
    { unfold S, invoice_mb. rewrite !zsum_filter. apply zsum_ext. intros x _. unfold since_ok.
      by rewrite <- Z.leb_antisym. }
    rewrite (i64_id S), (i64_id (S * 100)) by (unfold in_i64; lia). unfold go_div.
    rewrite Z.quot_div_nonneg by lia. pose proof (Z.div_pos (S * 100) 3600 ltac:(lia) ltac:(lia)).
    assert (S * 100 / 3600 ≤ S * 100) by (apply Z.div_le_upper_bound; lia).
    rewrite i64_id by (unfold in_i64; lia). by rewrite (proj2 (Z.ltb_ge _ _)) by lia.
  - unfold WireQuantityForMBSeconds, WireQuantityMillicentsPerGBHour, SecondsPerGBHour, go_div.
    rewrite (i64_id (S * 1000)) by (unfold in_i64; lia). rewrite Z.quot_div_nonneg by lia.
    assert (0 ≤ S * 1000 / (1024 * 3600) ≤ S * 1000)
      by (split; [apply Z.div_pos; lia|apply Z.div_le_upper_bound; lia]).
    rewrite i64_id by (unfold in_i64; lia). Z.to_euclidean_division_equations. lia.
Qed.

Lemma invoice_overage_inflated_witness :
  let d := mkTables [mkMinute "acct" "app" "i1" Hour 3686400 0 0 0 0 0 0 0] [] in
  ComputeInvoiceOverageCents true (mkInvoice "inv" "acct" "stripe" "in_1" 0 Minute) d = Some 102400 ∧
  WireQuantityForMBSeconds 3686400 = 1000.
Proof.
  intros d. split; [|vm_compute; reflexivity].
  destruct (invoice_overage_inflated (mkInvoice "inv" "acct" "stripe" "in_1" 0 Minute) d) as [E _].
  - vm_compute. discriminate.
  - vm_compute. reflexivity.
  - intros x Hx. apply list_elem_of_singleton in Hx as ->. vm_compute. discriminate.
  - vm_compute. reflexivity.
  - rewrite E. vm_compute. reflexivity.
Defined.

End Spend.

(** ** Account credits *)

Module Credits.

(** The row without its free-text reason. *)
Record AccountCredit := mkCredit {
  ID : string;
  AccountID : string;
  CentsRemaining : Z;
  CreatedAt : Time;
  ExpiresAt : option Time;
}.

(** The row without its generated ID. *)
Record CreditLedgerEntry := mkEntry {
  lAccountID : string;
  lCreditID : string;
  lDeltaCents : Z;
  lReason : string;
  lActor : string;
  lCreatedAt : Time;
  lProviderInvoiceID : option string;
}.

Record store := mkStore { accountCredits : gmap string AccountCredit; creditLedger : list CreditLedgerEntry }.

Record params := mkParams {
  pAccountID : string;
  pTargetCents : Z;
  pProviderInvoiceID : string;
  pReason : string;
  pActor : string;
}.

Record ConsumedCreditRow := mkRow { rCreditID : string; rDeltaCents : Z; rNewBalance : Z }.

Record result := mkResult {
  ConsumedCents : Z;
  RemainingCreditsCents : Z;
  AlreadyConsumedForInvoice : bool;
  PerCredit : list ConsumedCreditRow;
}.

Definition active (acct : string) (now : Time) (c : AccountCredit) : bool :=
  String.eqb (AccountID c) acct && negb (CentsRemaining c <=? 0) &&
  match ExpiresAt c with None => true | Some e => now <? e end.

(** The order in which the map is visited does not matter for a sum. *)
Definition sumActive (acct : string) (now : Time) (m : gmap string AccountCredit) : Z :=
  map_fold (λ _ c n, if active acct now c then n +! CentsRemaining c else n) 0 m.

(** ListActiveCreditsForConsumption; [order] is the order in which the map is visited. *)
Definition ListActiveCreditsForConsumption (acct : string) (now : Time) (order : list string)
    (m : gmap string AccountCredit) : list AccountCredit :=
  go_sort (λ a b, CreatedAt a <? CreatedAt b) (filter (active acct now) (omap (m !!.) order)).

Definition for_invoice (inv : string) (e : CreditLedgerEntry) : bool :=
  match lProviderInvoiceID e with Some i => String.eqb i inv | None => false end.

Definition priorCents (inv : string) (l : list CreditLedgerEntry) : Z :=
  foldl (λ n e, if for_invoice inv e && (lDeltaCents e <? 0) then n +! - lDeltaCents e else n) 0 l.

(** The deltas of the invoice, by credit; the first row of a credit wins. *)
Definition seen_map (inv : string) (l : list CreditLedgerEntry) : gmap string Z :=
  foldl (λ m e, if for_invoice inv e
                then match m !! lCreditID e with Some _ => m | None => <[lCreditID e := lDeltaCents e]> m end
                else m) ∅ l.

(** The loop's variables. *)
Record loop := mkLoop {
  lo_store : store;
  lo_seen : gmap string Z;
  lo_res : result;
  lo_remaining : Z;
  lo_inserted : bool;
}.

Definition drain_one (p : params) (now : Time) (c : AccountCredit) (s : loop) : loop :=
  let amount := if lo_remaining s <? CentsRemaining c then lo_remaining s else CentsRemaining c in
  match lo_seen s !! ID c with
  | Some _ => s
  | None =>
      let newBalance := CentsRemaining c -! amount in
      if 0 <? amount then
        mkLoop
          (mkStore (<[ID c := mkCredit (ID c) (AccountID c) newBalance (CreatedAt c) (ExpiresAt c)]>
                      (accountCredits (lo_store s)))
             (creditLedger (lo_store s) ++
                [mkEntry (pAccountID p) (ID c) (- amount) (pReason p) (pActor p) now (Some (pProviderInvoiceID p))]))
          (<[ID c := - amount]> (lo_seen s))
          (mkResult (ConsumedCents (lo_res s) +! amount) (RemainingCreditsCents (lo_res s))
             (AlreadyConsumedForInvoice (lo_res s))
             (PerCredit (lo_res s) ++ [mkRow (ID c) (- amount) newBalance]))
          (lo_remaining s -! amount) true
      else s
  end.

(** The loop; [false] is the error of a balance that would go negative. *)
Fixpoint drain (p : params) (now : Time) (l : list AccountCredit) (s : loop) : loop * bool :=
  match l with
  | [] => (s, true)
  | c :: l =>
      if lo_remaining s =? 0 then (s, true)
      else
        let amount := if lo_remaining s <? CentsRemaining c then lo_remaining s else CentsRemaining c in
        if bool_decide (lo_seen s !! ID c = None) && (CentsRemaining c -! amount <? 0) then (s, false)
        else drain p now l (drain_one p now c s)
  end.

(** The whole call: [inl] an error, with the store as it is left. *)
Definition ConsumeAccountCredit (p : params) (now : Time) (order : list string) (s : store)
    : (unit + result) * store :=
  if pTargetCents p =? 0 then (inr (mkResult 0 0 false []), s)
  else if String.eqb (pProviderInvoiceID p) EmptyString then (inl tt, s)
  else
    let prior := priorCents (pProviderInvoiceID p) (creditLedger s) in
    if 0 <? prior then (inr (mkResult prior (sumActive (pAccountID p) now (accountCredits s)) true []), s)
    else
      let l := ListActiveCreditsForConsumption (pAccountID p) now order (accountCredits s) in
      let '(e, ok) := drain p now l (mkLoop s (seen_map (pProviderInvoiceID p) (creditLedger s))
                                       (mkResult 0 0 false []) (pTargetCents p) false) in
      if negb ok then (inl tt, lo_store e)
      else
          let r := lo_res e in
          let none := negb (lo_inserted e) && (0 <? pTargetCents p) in
          let r := if none
                   then mkResult (map_fold (λ _ d n, if d <? 0 then n +! - d else n) (ConsumedCents r) (lo_seen e))
                          (RemainingCreditsCents r) true (PerCredit r)
                   else r in
          (inr (mkResult (ConsumedCents r) (sumActive (pAccountID p) now (accountCredits (lo_store e)))
                  (AlreadyConsumedForInvoice r) (PerCredit r)), lo_store e).

(** ** Specification: pay the oldest credits first *)

Fixpoint pay (rem : Z) (l : list AccountCredit) : list (AccountCredit * Z) :=
  match l with
  | [] => []
  | c :: l => if rem =? 0 then [] else
      let a := Z.min (CentsRemaining c) rem in (c, a) :: pay (rem - a) l
  end.

Definition paid (c : AccountCredit) (a : Z) : AccountCredit :=
  mkCredit (ID c) (AccountID c) (CentsRemaining c - a) (CreatedAt c) (ExpiresAt c).

Definition apply_payments (ps : list (AccountCredit * Z)) (m : gmap string AccountCredit) : gmap string AccountCredit :=
  foldl (λ m '(c, a), <[ID c := paid c a]> m) m ps.

Definition ledger_row (p : params) (now : Time) (x : AccountCredit * Z) : CreditLedgerEntry :=
  mkEntry (pAccountID p) (ID x.1) (- x.2) (pReason p) (pActor p) now (Some (pProviderInvoiceID p)).

Lemma pay_0 l : pay 0 l = [].
Proof. by destruct l. Qed.

Lemma pay_amounts rem l :
  0 ≤ rem → (∀ c, c ∈ l → 0 < CentsRemaining c) →
  ∀ c a, (c, a) ∈ pay rem l → c ∈ l ∧ 0 < a ≤ CentsRemaining c.
Proof.
  revert rem. induction l as [|x l IH]; simpl; intros rem Hr Hl c a; [by intros ?%elem_of_nil|].
  pose proof (Hl x ltac:(by left)). destruct (Z.eqb_spec rem 0); [by intros ?%elem_of_nil|].
  intros [[= -> ->]|Hin]%elem_of_cons; [split; [by left|lia]|].
  destruct (IH (rem - Z.min (CentsRemaining x) rem) ltac:(lia) ltac:(intros; apply Hl; by right) c a Hin) as [H1 H2].
  split; [by right|done].
Qed.

Lemma pay_sum rem l :
  0 ≤ rem → (∀ c, c ∈ l → 0 < CentsRemaining c) → zsum snd (pay rem l) = Z.min rem (zsum CentsRemaining l).
Proof.
  revert rem. induction l as [|x l IH]; simpl; intros rem Hr Hl; [lia|].
  pose proof (Hl x ltac:(by left)). assert (∀ c, c ∈ l → 0 < CentsRemaining c) as Hl' by (intros; apply Hl; by right).
  assert (0 ≤ zsum CentsRemaining l) by (apply zsum_nonneg; intros c Hc; specialize (Hl' c Hc); lia).
  destruct (Z.eqb_spec rem 0); simpl; [lia|]. rewrite IH by (done || lia). lia.
Qed.

(** First in, first out: what is paid from a credit implies that all credits before it are used up. *)
Lemma pay_fifo rem l1 c l2 a :
  0 ≤ rem → (∀ x, x ∈ l1 ++ c :: l2 → 0 < CentsRemaining x) → NoDup (ID <$> l1 ++ c :: l2) →
  (c, a) ∈ pay rem (l1 ++ c :: l2) → ∀ x, x ∈ l1 → (x, CentsRemaining x) ∈ pay rem (l1 ++ c :: l2).
Proof.
  revert rem. induction l1 as [|y l1 IH]; intros rem Hr Hl Hnd Hin x Hx; [by apply elem_of_nil in Hx|]. simpl in *.
  pose proof (Hl y ltac:(by left)). destruct (Z.eqb_spec rem 0); [by apply elem_of_nil in Hin|].
  rewrite NoDup_cons in Hnd. destruct Hnd as [Hy Hnd].
  assert (∀ x, x ∈ l1 ++ c :: l2 → 0 < CentsRemaining x) as Hl' by (intros; apply Hl; by right).
  apply elem_of_cons in Hin as [[= -> _]|Hin].
  { destruct Hy. apply list_elem_of_fmap_2, elem_of_app. right. by left. }
  assert (CentsRemaining y < rem ∨ rem ≤ CentsRemaining y) as [Hlt|Hge] by lia; cycle 1.
  { replace (rem - Z.min (CentsRemaining y) rem) with 0 in Hin by lia. rewrite pay_0 in Hin. by apply elem_of_nil in Hin. }
  apply elem_of_cons in Hx as [->|Hx]; apply elem_of_cons; [left; f_equal; lia|].
  right. apply IH; try done. lia.
Qed.

Lemma drain_spec p now l s :
  NoDup (ID <$> l) → (∀ c, c ∈ l → lo_seen s !! ID c = None) →
  (∀ c, c ∈ l → 0 < CentsRemaining c < 2 ^ 63) →
  0 ≤ lo_remaining s → 0 ≤ ConsumedCents (lo_res s) → ConsumedCents (lo_res s) + lo_remaining s < 2 ^ 63 →
  let ps := pay (lo_remaining s) l in
  let '(e, ok) := drain p now l s in
  ok = true ∧
  lo_store e = mkStore (apply_payments ps (accountCredits (lo_store s)))
                 (creditLedger (lo_store s) ++ (ledger_row p now <$> ps)) ∧
  ConsumedCents (lo_res e) = ConsumedCents (lo_res s) + zsum snd ps ∧
  AlreadyConsumedForInvoice (lo_res e) = AlreadyConsumedForInvoice (lo_res s) ∧
  lo_inserted e = lo_inserted s || negb (bool_decide (ps = [])) ∧
  (ps = [] → lo_seen e = lo_seen s).
Proof.
  revert s. induction l as [|c l IH]; intros s Hnd Hseen Hc Hr H0 Hb; simpl.
  { rewrite app_nil_r, orb_false_r, Z.add_0_r. by destruct (lo_store s). }
  rewrite fmap_cons, NoDup_cons in Hnd. destruct Hnd as [Hnc Hnd]. destruct (Z.eqb_spec (lo_remaining s) 0) as [E|E].
  { simpl. rewrite app_nil_r, orb_false_r, Z.add_0_r. by destruct (lo_store s). }
  destruct (Hc c ltac:(by left)) as [Hc1 Hc2]. rewrite (Hseen c) by by left. rewrite bool_decide_true by done. simpl.
  assert ((if lo_remaining s <? CentsRemaining c then lo_remaining s else CentsRemaining c) =
          Z.min (CentsRemaining c) (lo_remaining s)) as Ea by (destruct (Z.ltb_spec (lo_remaining s) (CentsRemaining c)); lia).
  rewrite Ea. set (a := Z.min (CentsRemaining c) (lo_remaining s)) in *.
  rewrite (i64_id (CentsRemaining c - a)) by (unfold in_i64; lia). rewrite (proj2 (Z.ltb_ge _ 0)) by lia.
  unfold drain_one. rewrite Ea, (Hseen c) by by left. fold a. rewrite (proj2 (Z.ltb_lt 0 a)) by lia.
  rewrite !i64_id by (unfold in_i64; lia).
  match goal with |- context [drain p now l ?s1] => specialize (IH s1) end. simpl in IH.
  destruct (drain p now l _) as [e ok]. destruct IH as (I1 & I2 & I3 & I4 & I5 & _); try done; try lia.
  { intros c' Hc'. rewrite lookup_insert_ne; [apply Hseen; by right|]. intros E'. apply Hnc. rewrite E'. by apply list_elem_of_fmap_2. }
  { intros c' Hc'. apply Hc. by right. }
  split_and!; [done| |rewrite I3; lia|done|by rewrite I5, orb_true_r|done].
  rewrite I2. f_equal. by rewrite <- app_assoc.
Qed.

(** ** The store's rows *)

(** Rows are stored under their own ID and hold int64 amounts. *)
Definition rows_ok (m : gmap string AccountCredit) : Prop :=
  ∀ k c, m !! k = Some c → ID c = k ∧ CentsRemaining c < 2 ^ 63.

Definition visits (order : list string) (m : gmap string AccountCredit) : Prop :=
  NoDup order ∧ ∀ k, k ∈ order ↔ is_Some (m !! k).

#[global] Instance created_weak : WeakOrder (λ a b : AccountCredit, CreatedAt a <? CreatedAt b).
Proof. split; intros; breflect; [apply Z.ltb_ge; lia|]. apply Z.ltb_ge. lia. Qed.

Lemma active_list acct now order m :
  rows_ok m → visits order m →
  let l := ListActiveCreditsForConsumption acct now order m in
  NoDup (ID <$> l) ∧ StronglySorted (not_after (λ a b, CreatedAt a <? CreatedAt b)) l ∧
  (∀ c, c ∈ l ↔ m !! ID c = Some c ∧ active acct now c = true).
Proof.
  intros Hm [Hnd Hv] l. unfold l, ListActiveCreditsForConsumption. split_and!.
  - rewrite (go_sort_perm _ _). eapply sublist_NoDup with (l2 := order); [done|].
    clear -Hm. induction order as [|k order IH]; [constructor|]. simpl. destruct (m !! k) as [c|] eqn:E.
    + destruct (Hm k c E) as [<- _]. rewrite filter_cons_bool. destruct (active _ _ _); [by constructor|by constructor].
    + by constructor.
  - apply go_sort_sorted. apply _.
  - intros c. rewrite elem_of_go_sort, elem_of_filter_bool, list_elem_of_omap. split.
    + intros (Ha & k & _ & Hk). destruct (Hm k c Hk) as [-> _]. done.
    + intros [Hk Ha]. split; [done|]. exists (ID c). split; [|done]. apply Hv. by eexists.
Qed.

(** The balances after a call. *)
Lemma apply_payments_lookup ps m :
  NoDup (ID <$> ps.*1) →
  (∀ c a, (c, a) ∈ ps → apply_payments ps m !! ID c = Some (paid c a)) ∧
  (∀ k, k ∉ ID <$> ps.*1 → apply_payments ps m !! k = m !! k).
Proof.
  revert m. induction ps as [|[c a] ps IH]; intros m; simpl; [by intros _; split; [intros ?? ?%elem_of_nil|]|].
  rewrite NoDup_cons. intros [Hc Hnd]. destruct (IH (<[ID c := paid c a]> m) Hnd) as [I1 I2]. split.
  - intros c' a' [[= -> ->]|Hin]%elem_of_cons; [rewrite I2 by done; apply lookup_insert_eq|by apply I1].
  - intros k [Hk1 Hk2]%not_elem_of_cons. rewrite I2 by done. by rewrite lookup_insert_ne.
Qed.

Lemma apply_payments_sum ps m :
  NoDup (ID <$> ps.*1) → (∀ c a, (c, a) ∈ ps → m !! ID c = Some c) →
  map_sum CentsRemaining (apply_payments ps m) = map_sum CentsRemaining m - zsum snd ps.
Proof.
  revert m. induction ps as [|[c a] ps IH]; intros m Hnd Hm; simpl; [lia|].
  rewrite !fmap_cons, NoDup_cons in Hnd. destruct Hnd as [Hc Hnd].
  change (apply_payments ((c, a) :: ps) m) with (apply_payments ps (<[ID c := paid c a]> m)). rewrite IH.
  - rewrite (map_sum_update _ _ _ c) by (eapply Hm; by left). simpl. lia.
  - done.
  - intros c' a' Hin. rewrite lookup_insert_ne; [eapply Hm; by right|]. simpl in Hc. intros E. apply Hc. rewrite E.
    apply list_elem_of_fmap_2. by apply (list_elem_of_fmap_2 fst) in Hin.
Qed.

Definition available (acct : string) (now : Time) (m : gmap string AccountCredit) : Z :=
  map_sum (λ c, if active acct now c then CentsRemaining c else 0) m.

Lemma available_list acct now order m :
  rows_ok m → visits order m →
  zsum CentsRemaining (ListActiveCreditsForConsumption acct now order m) = available acct now m.
Proof.
  intros Hm [Hnd Hv]. unfold ListActiveCreditsForConsumption. rewrite go_sort_perm, zsum_filter.
  set (f := λ c, if active acct now c then CentsRemaining c else 0). unfold available. fold f.
  revert m Hm Hv. induction order as [|k order IH]; intros m Hm Hv.
  { assert (m = ∅) as ->; [|by rewrite map_sum_empty]. apply map_empty. intros k.
    destruct (m !! k) eqn:E; [|done]. assert (k ∈ []) as Hn by (apply Hv; by eexists). by apply elem_of_nil in Hn. }
  apply NoDup_cons in Hnd as [Hk Hnd]. destruct (proj1 (Hv k) ltac:(by left)) as [c Hc].
  rewrite (map_sum_delete f m k c Hc). simpl. rewrite Hc. simpl. f_equal.
  rewrite <- (IH Hnd (delete k m)).
  - f_equal. clear -Hk. induction order as [|j order IH]; [done|]. apply not_elem_of_cons in Hk as [H1 H2].
    simpl. rewrite lookup_delete_ne by done. by rewrite IH.
  - intros j x [_ Hj]%lookup_delete_Some. by apply Hm.
  - intros j. destruct (decide (j = k)) as [->|Hne]; [rewrite lookup_delete_eq; split; [done|by intros [? ?]]|].
    rewrite lookup_delete_ne by done. rewrite <- Hv, elem_of_cons. naive_solver.
Qed.

Lemma prior_none inv l : (∀ e, e ∈ l → for_invoice inv e = false) → priorCents inv l = 0 ∧ seen_map inv l = ∅.
Proof.
  unfold priorCents, seen_map. generalize (∅ : gmap string Z) 0. induction l as [|e l IH]; intros m z H; [done|]. simpl.
  rewrite (H e) by by left. apply IH. intros e' He'. apply H. by right.
Qed.

Lemma prior_rows p now inv ps l :
  pProviderInvoiceID p = inv → (∀ e, e ∈ l → for_invoice inv e = false) → (∀ c a, (c, a) ∈ ps → 0 < a) →
  priorCents inv (l ++ (ledger_row p now <$> ps)) = i64 (zsum snd ps).
Proof.
  intros Hp Hl Ha. pose proof (proj1 (prior_none inv l Hl)) as H0. unfold priorCents in *. rewrite foldl_app, H0.
  clear l Hl H0. enough (∀ z, foldl (λ n e, if for_invoice inv e && (lDeltaCents e <? 0) then n +! - lDeltaCents e else n)
    (i64 z) (ledger_row p now <$> ps) = i64 (z + zsum snd ps)) as H by apply (H 0).
  induction ps as [|[c a] ps IH]; intros z; simpl; [by rewrite Z.add_0_r|].
  pose proof (Ha c a ltac:(by left)). unfold for_invoice. simpl. rewrite Hp, String.eqb_refl, (proj2 (Z.ltb_lt _ _)) by lia. simpl.
  rewrite i64_add_l, IH; [f_equal; lia|]. intros c' a' Hin. eapply Ha. by right.
Qed.

(** What is booked later for other invoices does not count. *)
Lemma prior_later inv l later : (∀ e, e ∈ later → for_invoice inv e = false) → priorCents inv (l ++ later) = priorCents inv l.
Proof.
  unfold priorCents. rewrite foldl_app. generalize (foldl (λ n e, if for_invoice inv e && (lDeltaCents e <? 0) then n +! - lDeltaCents e else n) 0 l).
  induction later as [|e later IH]; intros z H; [done|]. simpl. rewrite (H e) by by left. simpl. apply IH.
  intros e' He'. apply H. by right.
Qed.

Lemma pay_nodup rem l : NoDup (ID <$> l) → NoDup (ID <$> (pay rem l).*1).
Proof.
  intros H. eapply sublist_NoDup; [exact H|]. apply fmap_sublist. clear. revert rem.
  induction l as [|c l IH]; intros rem; [constructor|]. simpl. case_match; [apply sublist_nil_l|]. simpl. by constructor.
Qed.

Section consume.
Context (p : params) (now : Time) (order : list string) (s : store).
Hypothesis Hrows : rows_ok (accountCredits s).
Hypothesis Horder : visits order (accountCredits s).
Hypothesis Htarget : 0 < pTargetCents p < 2 ^ 63.
Hypothesis Hinv : pProviderInvoiceID p ≠ EmptyString.
Hypothesis Hfresh : ∀ e, e ∈ creditLedger s → for_invoice (pProviderInvoiceID p) e = false.

#[local] Definition payments : list (AccountCredit * Z) :=
  pay (pTargetCents p) (ListActiveCreditsForConsumption (pAccountID p) now order (accountCredits s)).

#[local] Lemma active_range c :
  c ∈ ListActiveCreditsForConsumption (pAccountID p) now order (accountCredits s) → 0 < CentsRemaining c < 2 ^ 63.
Proof using Hrows Horder.
  destruct (active_list (pAccountID p) now order _ Hrows Horder) as (_ & _ & He).
  intros [Hc Ha]%He. split; [|by apply (Hrows (ID c))]. unfold active in Ha. breflect. lia.
Qed.

#[local] Lemma consume_first :
  ∃ r, ConsumeAccountCredit p now order s =
         (inr r, mkStore (apply_payments payments (accountCredits s)) (creditLedger s ++ (ledger_row p now <$> payments))) ∧
       ConsumedCents r = zsum snd payments ∧ AlreadyConsumedForInvoice r = bool_decide (payments = []).
Proof using Hrows Horder Htarget Hinv Hfresh.
  unfold ConsumeAccountCredit. rewrite (proj2 (Z.eqb_neq _ 0)), (proj2 (String.eqb_neq _ _)) by (done || lia).
  destruct (prior_none _ _ Hfresh) as [-> ->]. simpl.
  destruct (active_list (pAccountID p) now order _ Hrows Horder) as (Hnd & _ & _). pose proof active_range as Hc.
  unfold payments. set (l := ListActiveCreditsForConsumption _ _ _ _) in *.
  pose proof (drain_spec p now l (mkLoop s ∅ (mkResult 0 0 false []) (pTargetCents p) false)) as Hd. simpl in Hd.
  destruct (drain p now l _) as [e ok]. destruct Hd as (-> & E2 & E3 & E4 & E5 & E6); try done; try lia. simpl.
  eexists. rewrite E2. split; [done|]. rewrite E5. destruct (bool_decide_reflect (pay (pTargetCents p) l = [])) as [Hp|Hp]; simpl.
  - rewrite (proj2 (Z.ltb_lt 0 _)) by lia. simpl. by rewrite E3, E6, Hp.
  - by rewrite E3, E4.
Qed.

#[local] Lemma payment_elem c a :
  (c, a) ∈ payments → accountCredits s !! ID c = Some c ∧ active (pAccountID p) now c = true ∧ 0 < a ≤ CentsRemaining c.
Proof using Hrows Horder Htarget.
  intros Hin. destruct (active_list (pAccountID p) now order _ Hrows Horder) as (_ & _ & He).
  destruct (pay_amounts (pTargetCents p) _ ltac:(lia) (λ c Hc, proj1 (active_range c Hc)) c a Hin) as [Hc%He Ha]. tauto.
Qed.

#[local] Lemma payments_nodup : NoDup (ID <$> payments.*1).
Proof using Hrows Horder. apply pay_nodup. by apply active_list. Qed.

(** What the call does to one row: an active credit is drawn down, any other is untouched. *)
#[local] Lemma balance_after k c :
  accountCredits s !! k = Some c →
  ∃ c', apply_payments payments (accountCredits s) !! k = Some c' ∧
    (c' = c ∨ ∃ a, (c, a) ∈ payments ∧ c' = paid c a).
Proof using Hrows Horder Htarget.
  intros Hk. destruct (apply_payments_lookup payments (accountCredits s) payments_nodup) as [H1 H2].
  destruct (decide (k ∈ ID <$> payments.*1)) as [Hin|Hin].
  - apply list_elem_of_fmap in Hin as (c' & -> & Hin). apply list_elem_of_fmap in Hin as ([c'' a] & -> & Hin). simpl in *.
    destruct (payment_elem c'' a Hin) as (E & _). rewrite E in Hk. injection Hk as ->.
    exists (paid c a). split; [by apply H1|]. right. by exists a.
  - exists c. split; [by rewrite H2|by left].
Qed.

#[local] Lemma fifo_after c c' a :
  accountCredits s !! ID c = Some c → active (pAccountID p) now c = true → CreatedAt c < CreatedAt c' →
  (c', a) ∈ payments → (c, CentsRemaining c) ∈ payments.
Proof using Hrows Horder Htarget.
  intros Hc Ha Hlt Hin. unfold payments in *.
  destruct (active_list (pAccountID p) now order _ Hrows Horder) as (Hnd & Hs & He).
  pose proof active_range as Hr. set (l := ListActiveCreditsForConsumption _ _ _ _) in *.
  assert (c ∈ l) as Hcl by by apply He.
  destruct (pay_amounts (pTargetCents p) _ ltac:(lia) (λ c Hc, proj1 (Hr c Hc)) c' a Hin) as [Hcl' _].
  apply list_elem_of_split in Hcl' as (l1 & l2 & El).
  assert (c ∈ l1) as Hc1.
  { rewrite El in Hcl, Hs. apply elem_of_app in Hcl as [?|Hcl]; [done|].
    apply StronglySorted_app in Hs as (_ & _ & [_ Hf]%StronglySorted_inv). rewrite Forall_forall in Hf.
    apply elem_of_cons in Hcl as [->|Hcl]; [lia|]. specialize (Hf c Hcl). unfold not_after in Hf. breflect. lia. }
  rewrite El in *. apply (pay_fifo _ l1 c' l2 a); try done; [lia|]. intros x Hx. apply (Hr x Hx).
Qed.
End consume.

(** C34: Draining credits for an invoice is exact, fair and idempotent.  The first call for an invoice takes the smaller of the target and what the account's unexpired credits hold, changes no other credit, never leaves a negative balance, takes from a credit only when all older ones are used up, and books exactly the amount it took.  When it took something, a repeated call for the invoice, with whatever target other than 0 and whatever credits were granted, drained for other invoices or have expired in between, changes nothing and reports the same amount; when it took nothing it leaves the store as it was, so that a later call for the invoice is a first call again and does draw on new credits. *)
Theorem credits_consumed_once (p : params) (now : Time) (order : list string) (s : store) :
  rows_ok (accountCredits s) → visits order (accountCredits s) → 0 < pTargetCents p < 2 ^ 63 →
  pProviderInvoiceID p ≠ EmptyString →
  (∀ e, e ∈ creditLedger s → for_invoice (pProviderInvoiceID p) e = false) →
  ∃ r s' rows, ConsumeAccountCredit p now order s = (inr r, s') ∧
    ConsumedCents r = Z.min (pTargetCents p) (available (pAccountID p) now (accountCredits s)) ∧
    map_sum CentsRemaining (accountCredits s') = map_sum CentsRemaining (accountCredits s) - ConsumedCents r ∧
    (creditLedger s' = creditLedger s ++ rows ∧ zsum lDeltaCents rows = - ConsumedCents r) ∧
    (∀ k c, accountCredits s !! k = Some c → ∃ c', accountCredits s' !! k = Some c' ∧
       (c' = c ∨ active (pAccountID p) now c = true ∧ 0 ≤ CentsRemaining c' < CentsRemaining c ∧
          ∀ k0 c0, accountCredits s !! k0 = Some c0 → active (pAccountID p) now c0 = true →
            CreatedAt c0 < CreatedAt c → CentsRemaining <$> accountCredits s' !! k0 = Some 0)) ∧
    (0 < ConsumedCents r → ∀ p' now' order' credits later,
       pProviderInvoiceID p' = pProviderInvoiceID p → pTargetCents p' ≠ 0 →
       (∀ e, e ∈ later → for_invoice (pProviderInvoiceID p) e = false) →
       let s'' := mkStore credits (creditLedger s' ++ later) in
       ∃ r', ConsumeAccountCredit p' now' order' s'' = (inr r', s'') ∧ ConsumedCents r' = ConsumedCents r
         ∧ AlreadyConsumedForInvoice r' = true) ∧
    (ConsumedCents r = 0 → s' = s).
Proof.
  intros Hm Ho Ht Hi Hf. destruct (consume_first p now order s Hm Ho Ht Hi Hf) as (r & Er & Hr & _).
  set (ps := payments p now order s) in *. exists r. eexists _, (ledger_row p now <$> ps). split; [exact Er|]. simpl.
  pose proof (payment_elem p now order s Hm Ho Ht) as Hpe. fold ps in Hpe.
  assert (ConsumedCents r = Z.min (pTargetCents p) (available (pAccountID p) now (accountCredits s))) as Hsum.
  { rewrite Hr, <- (available_list _ _ order) by done. apply pay_sum; [lia|].
    intros c Hc. by apply (active_range p now order s Hm Ho). }
  split_and!; [done| |done| | | |].
  - rewrite apply_payments_sum, Hr; [done|by apply payments_nodup|]. intros c a Hin. by apply (Hpe c a).
  - rewrite zsum_fmap, Hr. clear. induction ps as [|x l IH]; simpl in *; lia.
  - intros k c Hk. destruct (balance_after p now order s Hm Ho Ht k c Hk) as (c' & Hc' & [->|(a & Hin & ->)]); [eauto|].
    exists (paid c a). split; [done|]. right. destruct (Hpe c a Hin) as (_ & Ha & Hrange).
    split; [done|]. split; [simpl; lia|]. intros k0 c0 Hk0 Ha0 Hlt.
    assert (ID c0 = k0) as <- by by apply Hm. fold ps.
    pose proof (fifo_after p now order s Hm Ho Ht c0 c a Hk0 Ha0 Hlt Hin) as Hin0. fold ps in Hin0.
    rewrite (proj1 (apply_payments_lookup ps _ (payments_nodup p now order s Hm Ho)) c0 _ Hin0). simpl. f_equal. lia.
  - intros Hpos p' now' order' credits later Ei Ht' Hl. unfold ConsumeAccountCredit. simpl.
    rewrite Ei, (proj2 (Z.eqb_neq _ 0)), (proj2 (String.eqb_neq _ _)) by done.
    rewrite (prior_later _ _ later), (prior_rows p now _ ps) by (done || (intros c a Hin; by apply (Hpe c a))).
    rewrite <- Hr, i64_id by (unfold in_i64; lia). rewrite (proj2 (Z.ltb_lt 0 _)) by done. by eexists.
  - intros H0. assert (ps = []) as ->; [|destruct s; simpl; by rewrite app_nil_r]. rewrite Hr in H0.
    destruct ps as [|[c a] l]; [done|]. pose proof (Hpe c a ltac:(by left)) as (_ & _ & ?). simpl in H0.
    assert (0 ≤ zsum snd l); [|lia]. apply zsum_nonneg. intros [c' a'] Hin. pose proof (Hpe c' a' ltac:(by right)). simpl. lia.
Qed.

Lemma credits_consumed_once_witness :
  let c i b t := mkCredit i "acct" b t None in
  let m : gmap string AccountCredit := list_to_map [("a", c "a" 300 20); ("b", c "b" 500 10); ("x", mkCredit "x" "acct" 9 5 (Some 30))] in
  let p := mkParams "acct" 600 "in_1" "r" "apid" in
  let '(r, s') := ConsumeAccountCredit p 50 ["a"; "x"; "b"] (mkStore m []) in
  ((ConsumedCents <$> match r with inr r => Some r | inl _ => None end) = Some 600 ∧
   CentsRemaining <$> accountCredits s' !! "b" = Some 0 ∧ CentsRemaining <$> accountCredits s' !! "a" = Some 200) ∧
  let granted := mkStore (<["new" := c "new" 5000 60]> (accountCredits s')) (creditLedger s') in
  ∃ r', ConsumeAccountCredit (mkParams "acct" 900 "in_1" "r" "apid") 70 ["new"; "a"] granted = (inr r', granted)
    ∧ ConsumedCents r' = 600.
Proof.
  intros c m p.
  destruct (credits_consumed_once p 50 ["a"; "x"; "b"] (mkStore m [])) as (r & s' & rows & E & Hr & _ & _ & _ & Hagain & _).
  - assert (bool_decide (map_Forall (λ k c, ID c = k ∧ CentsRemaining c < 2 ^ 63) m) = true) as Hb by (vm_compute; reflexivity).
    apply bool_decide_eq_true in Hb. exact Hb.
  - split; [vm_decide|]. intros k. rewrite <- elem_of_dom. change (accountCredits (mkStore m [])) with m.
    assert (dom m = {["a"; "x"; "b"]}) as -> by (vm_decide). set_solver.
  - vm_compute. split; reflexivity.
  - discriminate.
  - intros e He. by apply elem_of_nil in He.
  - assert (ConsumedCents r = 600) as H600 by (rewrite Hr; vm_compute; reflexivity).
    rewrite E. split; [split|].
    + simpl. by rewrite H600.
    + assert (s' = (ConsumeAccountCredit p 50 ["a"; "x"; "b"] (mkStore m [])).2) as -> by by rewrite E.
      vm_compute. split; reflexivity.
    + destruct (Hagain ltac:(lia) (mkParams "acct" 900 "in_1" "r" "apid") 70 ["new"; "a"]
        (<["new" := c "new" 5000 60]> (accountCredits s')) []) as (r' & E' & Hr' & _);
        [done|done|by intros e ?%elem_of_nil|].
      rewrite app_nil_r in E'. exists r'. split; [exact E'|congruence].
Defined.

End Credits.
