(* ===== verification/Accounts.v ===== *)
(** * The account lifecycle

    An account is written by five independent actors: the billing webhook of apid
    (handleBillingEvent, src/cmd/apid/handlers_ext.go), the dunning timer (src/pkg/meter/dunning.go), the quota
    loop (src/pkg/meter/quota.go, loop.go), the deletion and restore requests (src/cmd/apid/handlers_account.go)
    and the grace timer that hard-deletes (src/pkg/grace/grace.go).  Module [Accounts] holds the row and the
    store's writes, [Webhook] the billing webhook, [Dunning], [QuotaLoop] and [Grace] the timers; module [AccountRun]
    interleaves them, every turn working on a row it read any number of steps ago. *)

From S2P Require Import Prelude Api Float64 Machine InstanceStore Usage Billing.
#[local] Open Scope Z_scope.
#[local] Open Scope go_scope.
Import Calendar.
Import Pusher(AccountStatus, AccountActive, AccountPastDue, AccountSuspended, AccountDeletedPending).

(** ** The row and the store's writes *)

Module Accounts.

(** The columns the lifecycle reads or writes. *)
Record Account := mkAccount {
  ID : string;
  Plan : string;
  Status : AccountStatus;
  PastDueAt : option Time;
  DeletionRequestedAt : option Time;
  LastQuotaWarningAt : option Time;
}.

Abbreviation table := (gmap string Account).

Definition Active (a : Account) : bool :=
  bool_decide (Status a = AccountActive) || bool_decide (Status a = AccountPastDue).

Definition set_status (st : AccountStatus) (a : Account) : Account :=
  mkAccount (ID a) (Plan a) st (PastDueAt a) (DeletionRequestedAt a) (LastQuotaWarningAt a).
Definition set_past_due (t : option Time) (a : Account) : Account :=
  mkAccount (ID a) (Plan a) (Status a) t (DeletionRequestedAt a) (LastQuotaWarningAt a).
Definition set_deletion (t : option Time) (a : Account) : Account :=
  mkAccount (ID a) (Plan a) (Status a) (PastDueAt a) t (LastQuotaWarningAt a).
Definition set_warning (t : option Time) (a : Account) : Account :=
  mkAccount (ID a) (Plan a) (Status a) (PastDueAt a) (DeletionRequestedAt a) t.
Definition set_plan (p : string) (a : Account) : Account :=
  mkAccount (ID a) p (Status a) (PastDueAt a) (DeletionRequestedAt a) (LastQuotaWarningAt a).

Inductive error := ErrNotFound | ErrConflict.

(** A write returns the new table or an error. *)
Definition UpdateAccountStatus (id : string) (st : AccountStatus) (m : table) : error + table :=
  match m !! id with None => inl ErrNotFound | Some a => inr (<[id := set_status st a]> m) end.

Definition UpdateAccountPlan (id plan : string) (m : table) : error + table :=
  match m !! id with None => inl ErrNotFound | Some a => inr (<[id := set_plan plan a]> m) end.

(** Compare-and-flip; entering past_due stamps the row unless it carries a stamp. *)
Definition MarkDunningStep (clock : Time) (id : string) (from to : AccountStatus) (m : table) : error + table :=
  match m !! id with
  | None => inl ErrNotFound
  | Some a =>
      if negb (bool_decide (Status a = from)) then inl ErrNotFound
      else
        let a := set_status to a in
        let a := if bool_decide (to = AccountPastDue) && bool_decide (PastDueAt a = None)
                 then set_past_due (Some clock) a else a in
        inr (<[id := a]> m)
  end.

Definition MarkAccountDeletionPending (clock : Time) (id : string) (m : table) : error + table :=
  match m !! id with
  | None => inl ErrNotFound
  | Some a =>
      if bool_decide (Status a = AccountDeletedPending) && negb (bool_decide (DeletionRequestedAt a = None)) then inr m
      else
        let a := set_status AccountDeletedPending a in
        let a := if bool_decide (DeletionRequestedAt a = None) then set_deletion (Some clock) a else a in
        inr (<[id := a]> m)
  end.

Definition DeletionGraceDuration : Duration := 30 * 24 * Hour.

Definition RestoreAccount (clock : Time) (id : string) (m : table) : error + table :=
  match m !! id with
  | None => inl ErrNotFound
  | Some a =>
      if negb (bool_decide (Status a = AccountDeletedPending)) then inl ErrConflict
      else match DeletionRequestedAt a with
      | None => inl ErrConflict
      | Some t =>
          if DeletionGraceDuration <? time_sub clock t then inl ErrConflict
          else inr (<[id := set_deletion None (set_status AccountActive a)]> m)
      end
  end.

(** The account row of DeleteAccount; the rows of other tables that go with it are not modelled. *)
Definition DeleteAccount (id : string) (m : table) : error + table :=
  match m !! id with
  | None => inl ErrNotFound
  | Some a => if negb (bool_decide (Status a = AccountDeletedPending)) then inl ErrNotFound else inr (delete id m)
  end.

(** Whether the day was already stamped, and the new table. *)
Definition LoadAndStampLastQuotaWarning (id : string) (day : Time) (m : table) : error + bool * table :=
  match m !! id with
  | None => inl ErrNotFound
  | Some a =>
      let dayStart := Truncate day Day in
      if match LastQuotaWarningAt a with Some t => negb (t <? dayStart) | None => false end then inr (true, m)
      else inr (false, <[id := set_warning (Some dayStart) a]> m)
  end.

Definition ClearQuotaWarning (id : string) (m : table) : table :=
  match m !! id with None => m | Some a => <[id := set_warning None a]> m end.

(** What the actors do besides writing the table. *)
Inductive effect :=
| ParkInstance (instance reason : string)
| Notify (channel account : string)
| Mail (template account : string)
| CapExceeded (plan : string).

(** The table and the effects so far. *)
Record world := mkWorld { accounts : table; log : list effect }.

Definition emit (l : list effect) (w : world) : world := mkWorld (accounts w) (log w ++ l).

(** A write that is logged and skipped on an error and followed by [ok] otherwise. *)
Definition try_write (f : table → error + table) (ok : world → world) (w : world) : world :=
  match f (accounts w) with inl _ => w | inr m => ok (mkWorld m (log w)) end.

(** The calls that park an account's live instances. *)
Definition park_live (reason : string) (ins : list Store.Instance) : list effect :=
  (λ i, ParkInstance (Store.ID i) reason) <$> filter (λ i, CountsForRAM (Store.IState i)) ins.

End Accounts.
Import Accounts.

(** ** The billing webhook *)

Module Webhook.

Inductive EventType :=
| EventUnknown | EventSubscriptionCreated | EventSubscriptionUpdated (plan : string) | EventSubscriptionCanceled
| EventSubscriptionPastDue | EventPaymentSucceeded | EventPaymentFailed | EventRefundProcessed.

(** [acct] is the row the handler looked up; the MFA flag and the audit rows are outside the model. *)
Definition handleBillingEvent (clock : Time) (ev : EventType) (acct : Account) (w : world) : world :=
  match ev with
  | EventSubscriptionCanceled => try_write (UpdateAccountStatus (ID acct) AccountSuspended) id w
  | EventPaymentFailed =>
      try_write (MarkDunningStep clock (ID acct) AccountActive AccountPastDue) (emit [Mail "payment_failed" (ID acct)]) w
  | EventSubscriptionPastDue => try_write (MarkDunningStep clock (ID acct) AccountActive AccountPastDue) id w
  | EventPaymentSucceeded =>
      let w := if bool_decide (Status acct = AccountPastDue)
               then try_write (UpdateAccountStatus (ID acct) AccountActive) (emit [Mail "account_restored" (ID acct)]) w
               else w in
      mkWorld (ClearQuotaWarning (ID acct) (accounts w)) (log w)
  | EventSubscriptionUpdated plan =>
      if String.eqb plan EmptyString then w else try_write (UpdateAccountPlan (ID acct) plan) id w
  | EventUnknown | EventSubscriptionCreated | EventRefundProcessed => w
  end.

End Webhook.
Import Webhook.

(** ** The dunning timer *)

Module Dunning.

Definition DunningPastDueToSuspendedDuration : Duration := 7 * 24 * Hour.
Definition DunningSuspendedToDeletedDuration : Duration := 21 * 24 * Hour.

(** One tick: its clock, the store's own clock at a write, and the instances of an account ([None] a
    failed list). *)
Record env := mkEnv {
  now : Time;
  clock : Time;
  instances : string → option (list Store.Instance);
}.

Definition parkAll (e : env) (accountID : string) : list effect :=
  match instances e accountID with None => [] | Some ins => park_live "dunning_past_due_7d" ins end.

(** The body of the loop for one account row. *)
Definition dunning_turn (e : env) (acct : Account) (w : world) : world :=
  match Status acct with
  | AccountPastDue =>
      match PastDueAt acct with
      | None => try_write (MarkDunningStep (clock e) (ID acct) AccountPastDue AccountPastDue) id w
      | Some t =>
          if time_sub (now e) t <? DunningPastDueToSuspendedDuration then w
          else try_write (MarkDunningStep (clock e) (ID acct) AccountPastDue AccountSuspended)
                 (emit (parkAll e (ID acct) ++ [Notify "billing_past_due" (ID acct); Mail "account_suspended" (ID acct)])) w
      end
  | AccountSuspended =>
      match PastDueAt acct with
      | None => w
      | Some t =>
          if time_sub (now e) t <? DunningSuspendedToDeletedDuration then w
          else try_write (MarkDunningStep (clock e) (ID acct) AccountSuspended AccountDeletedPending)
                 (emit [Notify "account_deletion_pending" (ID acct); Mail "account_deletion_pending" (ID acct)]) w
      end
  | AccountActive | AccountDeletedPending => w
  end.

(** RunOnce over the rows that ListAllAccounts returned. *)
Definition RunOnce (e : env) (rows : list Account) (w : world) : world :=
  foldl (λ w a, dunning_turn e a w) w rows.

End Dunning.

(** ** The quota loop *)

Module QuotaLoop.

(** One tick: the clock, the store's clock, the usage tables, the caps ([None] a failed read), which
    overage and usage reads work, and the instances of an account ([None] a failed list). *)
Record env := mkEnv {
  now : Time;
  storeNow : Time;
  tables : Usage.tables;
  caps : option (gmap string Z);
  overageOK : string → bool;
  usageOK : string → bool;
  instances : string → option (list Store.Instance);
}.

Definition EnforceQuota (e : env) (account : Account) (usedGB : Q) (w : world) : world :=
  match Quota.Action (Quota.CheckQuota (Plan account) usedGB) with
  | Quota.Stop =>
      let park w :=
        match instances e (ID account) with
        | None => w
        | Some ins => emit (park_live "quota_exceeded_free" ins ++ [Notify "billing_past_due" (ID account)]) w
        end in
      if negb (bool_decide (Status account = AccountSuspended))
      then try_write (UpdateAccountStatus (ID account) AccountSuspended) park w
      else park w
  | Quota.Warn =>
      match LoadAndStampLastQuotaWarning (ID account) (Truncate (now e) Day) (accounts w) with
      | inl _ => w
      | inr (true, m) => mkWorld m (log w)
      | inr (false, m) => emit [Notify "quota_warning" (ID account); Mail "quota_warning" (ID account)] (mkWorld m (log w))
      end
  | Quota.NoAction => w
  end.

(** Whether the spend cap makes the loop skip the account. *)
Definition capped (e : env) (acct : Account) : bool :=
  match default ∅ (caps e) !! ID acct with
  | Some capCents =>
      (0 <=? capCents) && overageOK e (ID acct) &&
      (capCents <=? Usage.CurrentMonthOverageCents (storeNow e) (ID acct) (tables e))
  | None => false
  end.

(** The body of the loop for one account row. *)
Definition quota_turn (e : env) (acct : Account) (w : world) : world :=
  if capped e acct then emit [CapExceeded (Plan acct)] w
  else if negb (usageOK e (ID acct)) then w
  else
    let usages := Usage.UsageByMonth (ID acct) (Date1 (YearMonth (now e))) (tables e) in
    EnforceQuota e acct (Quota.MonthlyUsageGB usages) w.

(** runQuotaOnce over the rows that ListAllAccounts returned. *)
Definition runQuotaOnce (e : env) (rows : list Account) (w : world) : world :=
  foldl (λ w a, quota_turn e a w) w rows.

End QuotaLoop.

(** ** Deletion requests and the grace timer *)

Module Grace.

(** The gate in front of the account endpoints. *)
Definition admits (acct : Account) : bool := Active acct || bool_decide (Status acct = AccountDeletedPending).

(** The request; the row is read again after the write, and announced if it carries the stamp. *)
Definition scheduleDeletion (clock : Time) (acct : Account) (w : world) : world :=
  if negb (bool_decide (Status acct = AccountDeletedPending))
  then try_write (MarkAccountDeletionPending clock (ID acct))
         (λ w, match accounts w !! ID acct ≫= DeletionRequestedAt with
               | Some _ => emit [Mail "account_deletion_pending" (ID acct); Notify "account_deletion_pending" (ID acct)] w
               | None => w
               end) w
  else w.

Definition cancelDeletion (clock : Time) (acct : Account) (w : world) : world :=
  if negb (bool_decide (Status acct = AccountDeletedPending)) then w
  else try_write (RestoreAccount clock (ID acct)) id w.

(** The body of the loop for one account row. *)
Definition grace_turn (now : Time) (acct : Account) (w : world) : world :=
  let cutoff := now - DeletionGraceDuration in
  if negb (bool_decide (Status acct = AccountDeletedPending)) then w
  else match DeletionRequestedAt acct with
  | None => w
  | Some t =>
      if cutoff <? t then w
      else try_write (DeleteAccount (ID acct))
             (emit [Notify "account_deleted" (ID acct); Mail "account_deletion_complete" (ID acct)]) w
  end.

Definition RunOnce (now : Time) (rows : list Account) (w : world) : world :=
  foldl (λ w a, grace_turn now a w) w rows.

End Grace.

(** ** Interleavings of the actors *)

Module AccountRun.
Import Dunning QuotaLoop Grace.

Inductive event :=
| EWebhook (clock : Time) (ev : EventType) (id : string)
| EDunning (e : Dunning.env) (id : string)
| EQuota (e : QuotaLoop.env) (id : string)
| EDelete (clock : Time) (id : string)
| ERestore (clock : Time) (id : string)
| EGrace (now : Time) (id : string).

Definition event_id (e : event) : string :=
  match e with
  | EWebhook _ _ i | EDunning _ i | EQuota _ i | EDelete _ i | ERestore _ i | EGrace _ i => i
  end.

(** The turn of an actor that has read the row [a]. *)
Definition act (e : event) (a : Account) (w : world) : world :=
  match e with
  | EWebhook clock ev _ => handleBillingEvent clock ev a w
  | EDunning e _ => dunning_turn e a w
  | EQuota e _ => quota_turn e a w
  | EDelete clock _ => if admits a then scheduleDeletion clock a w else w
  | ERestore clock _ => if admits a then cancelDeletion clock a w else w
  | EGrace now _ => grace_turn now a w
  end.

(** The current world and the earlier tables, newest first. *)
Record state := mkState { cur : world; past : list table }.

(** The row of [id] as it was [lag] turns ago. *)
Definition read (s : state) (lag : nat) (id : string) : option Account :=
  (accounts (cur s) :: past s) !! lag ≫= (.!! id).

Definition turn (s : state) (x : event * nat) : state :=
  mkState (match read s x.2 (event_id x.1) with None => cur s | Some a => act x.1 a (cur s) end)
          (accounts (cur s) :: past s).

Definition run (m : table) (tr : list (event * nat)) : state := foldl turn (mkState (mkWorld m []) []) tr.

(** ** What a write does to a row *)

(** The day of the last warning only moves forward. *)
Definition later (o o' : option Time) : Prop := ∀ t, o = Some t → ∃ t', o' = Some t' ∧ t ≤ t'.

(** [r] becomes [r'] and keeps or loses its deletion stamp; unless [clear], its warning stamp stays. *)
Definition keeps (clear : bool) (r r' : Account) : Prop :=
  ID r' = ID r ∧ (DeletionRequestedAt r' = DeletionRequestedAt r ∨ DeletionRequestedAt r' = None) ∧
  (clear = true ∨ later (LastQuotaWarningAt r) (LastQuotaWarningAt r')).

Lemma later_refl o : later o o.
Proof. intros t ->. exists t. split; [done|lia]. Qed.

(** A write that replaces at most the row of [id], in the way [R] allows. *)
Definition updates (R : Account → Account → Prop) (id : string) (m m' : table) : Prop :=
  m' = m ∨ ∃ r r', m !! id = Some r ∧ R r r' ∧ m' = <[id := r']> m.

Lemma updates_insert (R : Account → Account → Prop) id m r r' :
  m !! id = Some r → R r r' → updates R id m (<[id := r']> m).
Proof. intros Hr HR. right. by exists r, r'. Qed.

Lemma updates_trans (R : Account → Account → Prop) id m1 m2 m3 :
  Transitive R → updates R id m1 m2 → updates R id m2 m3 → updates R id m1 m3.
Proof.
  intros Ht [->|(r1 & r2 & H1 & HR & ->)]; [done|]. intros [->|(r2' & r3 & H2 & HR' & ->)]; [right; by exists r1, r2|].
  rewrite lookup_insert_eq in H2. injection H2 as <-. right. exists r1, r3. split; [done|]. split; [by etrans|].
  by rewrite insert_insert_eq.
Qed.

Lemma updates_mono (R R' : Account → Account → Prop) id m m' :
  (∀ r r', R r r' → R' r r') → updates R id m m' → updates R' id m m'.
Proof. intros H [->|(r & r' & Hr & HR & ->)]; [by left|]. right. exists r, r'. auto. Qed.

Lemma updates_lookup R id m m' k r' :
  updates R id m m' → m' !! k = Some r' → ∃ r, m !! k = Some r ∧ (r' = r ∨ k = id ∧ R r r').
Proof.
  intros [->|(r & x & Hr & HR & ->)] Hk; [exists r'; auto|].
  apply lookup_insert_Some in Hk as [[-> ->]|[Hne Hk]]; [exists r|exists r']; auto.
Qed.

Lemma updates_dom R id m m' k : updates R id m m' → is_Some (m !! k) → is_Some (m' !! k).
Proof. intros [->|(r & x & Hr & HR & ->)] Hk; [done|]. rewrite lookup_insert_is_Some. destruct (decide (id = k)); auto. Qed.

#[local] Instance keeps_trans b : Transitive (keeps b).
Proof.
  intros x y z (H1 & H2 & H3) (H4 & H5 & H6). split; [congruence|].
  split; [destruct H5 as [E|E]; rewrite E; auto|]. destruct H3 as [|H3]; [auto|]. destruct H6 as [|H6]; [auto|]. right.
  intros t Ht. destruct (H3 t Ht) as (t1 & Ht1 & Hle). destruct (H6 t1 Ht1) as (t2 & Ht2 & Hle2). exists t2. split; [done|lia].
Qed.

Ltac op_updates :=
  intros; simplify_eq/=; repeat case_match; simplify_eq/=; try (by left);
  (eapply updates_insert; [eassumption|split_and!; [done|first [by left|by right]|right; apply later_refl]]).

Lemma status_updates b id st m m' : UpdateAccountStatus id st m = inr m' → updates (keeps b) id m m'.
Proof. unfold UpdateAccountStatus. op_updates. Qed.

Lemma plan_updates b id p m m' : UpdateAccountPlan id p m = inr m' → updates (keeps b) id m m'.
Proof. unfold UpdateAccountPlan. op_updates. Qed.

Lemma dunning_updates b c id from to m m' : MarkDunningStep c id from to m = inr m' → updates (keeps b) id m m'.
Proof. unfold MarkDunningStep. op_updates. Qed.

Lemma restore_updates b c id m m' : RestoreAccount c id m = inr m' → updates (keeps b) id m m'.
Proof. unfold RestoreAccount. op_updates. Qed.

Lemma stamp_updates b id d m x m' : LoadAndStampLastQuotaWarning id d m = inr (x, m') → updates (keeps b) id m m'.
Proof.
  unfold LoadAndStampLastQuotaWarning. destruct (m !! id) as [a|] eqn:E; [|done].
  destruct (LastQuotaWarningAt a) as [t|] eqn:Ew.
  - destruct (Z.ltb_spec t (Truncate d Day)); simpl; intros [= <- <-]; [|by left].
    eapply updates_insert; [done|]. split_and!; [done|by left|right]. intros t' Ht'. rewrite Ew in Ht'. injection Ht' as <-.
    simpl. exists (Truncate d Day). split; [done|lia].
  - intros [= <- <-]. eapply updates_insert; [done|]. split_and!; [done|by left|right]. intros t' Ht'. congruence.
Qed.

Lemma clear_updates id m : updates (keeps true) id m (ClearQuotaWarning id m).
Proof.
  unfold ClearQuotaWarning. destruct (m !! id) as [a|] eqn:E; [|by left].
  eapply updates_insert; [done|]. split_and!; [done|by left|by left].
Qed.

(** A deletion request either leaves the row or stamps it, if it carries no stamp. *)
Definition stamps (clock : Time) (r r' : Account) : Prop :=
  ID r' = ID r ∧ (DeletionRequestedAt r' = DeletionRequestedAt r ∨ DeletionRequestedAt r' = Some clock) ∧
  later (LastQuotaWarningAt r) (LastQuotaWarningAt r').

Lemma request_updates c id m m' : MarkAccountDeletionPending c id m = inr m' → updates (stamps c) id m m'.
Proof.
  unfold MarkAccountDeletionPending. intros; simplify_eq/=; repeat case_match; simplify_eq/=; try (by left);
  (eapply updates_insert; [eassumption|split_and!; [done|first [by left|by right]|apply later_refl]]).
Qed.

Lemma try_updates R id f ok w :
  (∀ m', f (accounts w) = inr m' → updates R id (accounts w) m') → (∀ w, accounts (ok w) = accounts w) →
  updates R id (accounts w) (accounts (try_write f ok w)).
Proof.
  intros Hf Hok. unfold try_write. destruct (f (accounts w)) as [e|m'] eqn:E; [by left|]. rewrite Hok. by apply Hf.
Qed.

Create HintDb account.
#[local] Hint Resolve status_updates plan_updates dunning_updates restore_updates request_updates clear_updates : account.
#[local] Hint Extern 1 (updates _ _ ?m ?m) => left; reflexivity : account.

(** ** What a turn does to the table *)

(** Turns of other actors than the grace timer update at most the row they read, and only a deletion
    request sets the stamp. *)
Definition clears (e : event) : bool := match e with EWebhook _ EventPaymentSucceeded _ => true | _ => false end.
Definition allowed (e : event) (r r' : Account) : Prop :=
  keeps (clears e) r r' ∨ match e with EDelete c _ => stamps c r r' | _ => False end.

Lemma quota_updates b e a w : updates (keeps b) (ID a) (accounts w) (accounts (quota_turn e a w)).
Proof.
  unfold quota_turn. destruct (capped e a); [by left|]. destruct (negb _); [by left|]. unfold EnforceQuota.
  destruct (Quota.Action _).
  - by left.
  - destruct (LoadAndStampLastQuotaWarning _ _ _) as [|[[] m]] eqn:E; [by left|..]; exact (stamp_updates _ _ _ _ _ _ E).
  - destruct (negb _); [|by destruct (instances _ _); left].
    apply try_updates; [intros m'; apply status_updates|]. intros w'. cbv beta. by case_match.
Qed.

Lemma webhook_updates c ev i a w :
  updates (keeps (clears (EWebhook c ev i))) (ID a) (accounts w) (accounts (handleBillingEvent c ev a w)).
Proof.
  destruct ev; simpl; try (by left); try (by apply try_updates; [eauto with account|]).
  - destruct (String.eqb _ _); [by left|]. apply try_updates; eauto with account.
  - eapply updates_trans; [apply _| |apply clear_updates].
    destruct (bool_decide _); [|by left]. apply try_updates; eauto with account.
Qed.

Lemma dunning_turn_updates b e a w : updates (keeps b) (ID a) (accounts w) (accounts (dunning_turn e a w)).
Proof.
  unfold dunning_turn. destruct (Status a); try (by left); destruct (PastDueAt a); try (by left); try destruct (_ <? _);
    try (by left); by apply try_updates; eauto with account.
Qed.

Lemma act_updates e a w :
  (∀ n i, e ≠ EGrace n i) → updates (allowed e) (ID a) (accounts w) (accounts (act e a w)).
Proof.
  intros Hg. assert (∀ r r', keeps (clears e) r r' → allowed e r r') as Hk by by left. destruct e; simpl.
  - eapply updates_mono, webhook_updates. done.
  - eapply updates_mono, dunning_turn_updates. done.
  - eapply updates_mono, quota_updates. done.
  - destruct (admits a); [|by left]. unfold scheduleDeletion. destruct (negb _); [|by left].
    apply try_updates; [|intros w'; cbv beta; by case_match].
    intros m' H. eapply updates_mono, request_updates; [|exact H]. by right.
  - destruct (admits a); [|by left]. unfold cancelDeletion. destruct (negb _); [by left|].
    apply try_updates; [|done]. intros m' H. eapply updates_mono, restore_updates; [|exact H]. done.
  - by destruct (Hg _ _ eq_refl).
Qed.

(** The grace timer removes the row it read, if that row was long enough pending, or does nothing. *)
Lemma grace_effect n a w :
  accounts (grace_turn n a w) = accounts w ∨
  accounts (grace_turn n a w) = delete (ID a) (accounts w) ∧
  (∃ r, accounts w !! ID a = Some r ∧ Status r = AccountDeletedPending) ∧
  Status a = AccountDeletedPending ∧ ∃ t, DeletionRequestedAt a = Some t ∧ t + DeletionGraceDuration ≤ n.
Proof.
  unfold grace_turn. destruct (bool_decide_reflect (Status a = AccountDeletedPending)) as [Hs|]; simpl; [|by left].
  destruct (DeletionRequestedAt a) as [t|]; [|by left]. destruct (Z.ltb_spec (n - DeletionGraceDuration) t); [by left|].
  unfold try_write, DeleteAccount. destruct (accounts w !! ID a) as [r|] eqn:Er; [|by left].
  destruct (bool_decide_reflect (Status r = AccountDeletedPending)); simpl; [|by left].
  right. split; [done|]. split; [by exists r|]. split; [done|]. exists t. split; [done|lia].
Qed.

(** ** The deletion stamp is always a request of the customer *)

Lemma account_run_snoc m tr x : run m (tr ++ [x]) = turn (run m tr) x.
Proof. unfold run. by rewrite foldl_app. Qed.

Definition keyed (m : table) : Prop := ∀ k r, m !! k = Some r → ID r = k.

(** The turn withdraws the request: a restore takes the account from pending back to active. *)
Definition withdraws (s : state) (x : event * nat) (k : string) : Prop :=
  (∃ c, x.1 = ERestore c k) ∧ ∃ r r', accounts (cur s) !! k = Some r ∧ Status r = AccountDeletedPending
    ∧ accounts (cur (turn s x)) !! k = Some r' ∧ Status r' = AccountActive.

(** The request of time [t] has been made and not been withdrawn since. *)
Definition in_force (m : table) (tr : list (event * nat)) (k : string) (t : Time) : Prop :=
  ∃ tr1 lag tr2, tr = tr1 ++ (EDelete t k, lag) :: tr2
    ∧ ∀ l1 x l2, tr2 = l1 ++ x :: l2 → ¬ withdraws (run m (tr1 ++ (EDelete t k, lag) :: l1)) x k.

Lemma in_force_now m tr t k lag : in_force m (tr ++ [(EDelete t k, lag)]) k t.
Proof. exists tr, lag, []. split; [done|]. by intros [] ? ?. Qed.

Lemma in_force_snoc m tr x k t : in_force m tr k t → ¬ withdraws (run m tr) x k → in_force m (tr ++ [x]) k t.
Proof.
  intros (tr1 & lag & tr2 & -> & Hn) Hx. exists tr1, lag, (tr2 ++ [x]). split; [by rewrite <- app_assoc|].
  intros l1 y l2 E. destruct l2 as [|z l2 _] using rev_ind.
  - apply app_inj_tail in E as [-> ->]. done.
  - rewrite app_comm_cons, app_assoc in E. apply app_inj_tail in E as [E _]. by eapply Hn.
Qed.

(** A restore that writes takes the stamp away. *)
Lemma restore_clears c i a w k r' :
  accounts (act (ERestore c i) a w) !! k = Some r' → accounts w !! k ≠ Some r' → DeletionRequestedAt r' = None.
Proof.
  simpl. destruct (admits a); [|done]. unfold cancelDeletion. destruct (negb _); [done|].
  unfold try_write, RestoreAccount. repeat case_match; simplify_eq/=; try done.
  rewrite lookup_insert_Some. intros [[_ <-]|[_ E]] Hne; [done|]. done.
Qed.

(** Every stamp of the table is a request in force. *)
Definition stamped_by (m : table) (tr : list (event * nat)) : Prop :=
  ∀ k r, accounts (cur (run m tr)) !! k = Some r → ID r = k ∧ ∀ t, DeletionRequestedAt r = Some t → in_force m tr k t.

Lemma act_stamped m tr e lag a :
  stamped_by m tr → read (run m tr) lag (event_id e) = Some a → ID a = event_id e → stamped_by m (tr ++ [(e, lag)]).
Proof.
  intros Hm Er Ha k r'. rewrite account_run_snoc. unfold turn. cbn [fst snd]. rewrite Er. simpl. intros Hk.
  set (s := run m tr) in *.
  assert (∀ r t, accounts (cur s) !! k = Some r → DeletionRequestedAt r = Some t → DeletionRequestedAt r' = Some t →
            in_force m (tr ++ [(e, lag)]) k t) as Hold.
  { intros r t Hr Ht Ht'. apply in_force_snoc; [by apply (Hm k r)|].
    intros ((c & Hc) & r1 & r2 & H1 & S1 & H2 & S2). fold s in H1, H2. simpl in Hc. subst e.
    unfold turn in H2. cbn [fst snd] in H2. rewrite Er in H2. cbn [cur] in H2. assert (r2 = r') as -> by congruence.
    rewrite (restore_clears _ _ _ _ _ _ Hk) in Ht'; [done|]. intros E. assert (r1 = r') by congruence. subst. congruence. }
  assert ((∃ n i, e = EGrace n i) ∨ ∀ n i, e ≠ EGrace n i) as [(n & i & ->)|Hg] by (destruct e; eauto).
  - assert (accounts (cur s) !! k = Some r') as Hr.
    { destruct (grace_effect n a (cur s)) as [E|(E & _)]; simpl in Hk; rewrite E in Hk; [done|].
      by apply lookup_delete_Some in Hk as [_ Hk]. }
    split; [by apply Hm|]. intros t Ht. by eapply Hold.
  - destruct (updates_lookup _ _ _ _ _ _ (act_updates e a (cur s) Hg) Hk) as (r & Hr & [->|[Hid HR]]).
    { split; [by apply Hm|]. intros t Ht. by eapply Hold. }
    destruct (Hm k r Hr) as [H1 _]. destruct HR as [(H3 & H4 & _)|HR].
    + split; [congruence|]. intros t Ht. eapply Hold; [done| |done]. destruct H4; congruence.
    + destruct e as [| | |c i| |]; try done. destruct HR as (H3 & H4 & _). split; [congruence|]. intros t Ht.
      destruct H4 as [E|E]; [eapply Hold; [done| |done]; congruence|].
      rewrite Ht in E. injection E as ->. simpl in Ha. rewrite Hid, Ha. apply in_force_now.
Qed.

(** The table [lag] turns ago is that of the run up to then. *)
Lemma past_run m tr lag t :
  (accounts (cur (run m tr)) :: past (run m tr)) !! lag = Some t →
  (lag ≤ length tr)%nat ∧ t = accounts (cur (run m (take (length tr - lag) tr))).
Proof.
  revert lag. induction tr as [|x tr IH] using rev_ind; intros lag.
  { destruct lag as [|lag]; simpl; [intros [= <-]; split; [lia|done]|]. by rewrite lookup_nil. }
  rewrite account_run_snoc, length_app. simpl. destruct lag as [|lag]; simpl.
  - intros [= <-]. split; [lia|]. rewrite take_ge by (rewrite length_app; simpl; lia). by rewrite account_run_snoc.
  - intros [Hl ->]%IH. split; [lia|]. replace (length tr + 1 - S lag)%nat with (length tr - lag)%nat by lia.
    by rewrite take_app_le by lia.
Qed.

Lemma read_run m tr lag id a :
  read (run m tr) lag id = Some a → accounts (cur (run m (take (length tr - lag) tr))) !! id = Some a.
Proof. unfold read. intros (t & [_ ->]%past_run & Ha)%bind_Some. done. Qed.

Lemma run_stamped m tr :
  (∀ k r, m !! k = Some r → ID r = k ∧ DeletionRequestedAt r = None) → stamped_by m tr.
Proof.
  intros Hm. induction tr as [tr IH] using (induction_ltof1 _ (@length _)). unfold ltof in IH.
  destruct tr as [|[e lag] tr _] using rev_ind.
  { intros k r Hk. destruct (Hm k r Hk) as [H1 H2]. split; [done|]. intros t Ht. congruence. }
  assert (stamped_by m tr) as Htr by (apply IH; rewrite length_app; simpl; lia).
  destruct (read (run m tr) lag (event_id e)) as [a|] eqn:Er.
  - apply (act_stamped m tr e lag a); [done|done|].
    apply read_run in Er. eapply (IH (take (length tr - lag) tr)); [|exact Er].
    rewrite length_app, length_take. simpl. lia.
  - intros k r. rewrite account_run_snoc. unfold turn at 1. cbn [fst snd]. rewrite Er. simpl. intros Hk.
    destruct (Htr k r Hk) as [H1 H2]. split; [done|]. intros t Ht. apply in_force_snoc; [by apply H2|].
    intros (_ & r1 & r2 & E1 & S1 & E2 & S2). unfold turn in E2. cbn [fst snd] in E2. rewrite Er in E2.
    simpl in E2. congruence.
Qed.

(** C33: No account is erased without thirty days' notice.  From any table without deletion stamps, over every interleaving of webhooks, dunning, quota, deletion, restore and grace turns, each acting on a row it may have read any number of turns earlier, an account row disappears only in a turn of the grace timer, the row that disappears is marked for deletion at that moment, and when the timer read it a request of the customer at least thirty days old was in force: it had been made, and no restore had taken the account back to active since. *)
Theorem hard_delete_justified (m : table) (tr : list (event * nat)) (e : event) (lag : nat) (k : string) :
  (∀ k r, m !! k = Some r → ID r = k ∧ DeletionRequestedAt r = None) →
  let s := run m tr in
  is_Some (accounts (cur s) !! k) → accounts (cur (turn s (e, lag))) !! k = None →
  ∃ n t r, e = EGrace n k ∧ accounts (cur s) !! k = Some r ∧ Status r = AccountDeletedPending
    ∧ in_force m (take (length tr - lag) tr) k t ∧ t + DeletionGraceDuration ≤ n.
Proof.
  intros Hm s Hk. unfold turn. cbn [fst snd].
  destruct (read s lag (event_id e)) as [a|] eqn:Er; simpl; [|by intros E; rewrite E in Hk; destruct Hk].
  intros Hgone. assert ((∃ n i, e = EGrace n i) ∨ ∀ n i, e ≠ EGrace n i) as [(n & i & ->)|Hg] by (destruct e; eauto).
  - simpl in *. apply read_run in Er. destruct (run_stamped m _ Hm i a Er) as [Hid Hst].
    destruct (grace_effect n a (cur s)) as [E|(E & (r & Hr & Hs) & _ & t & Ht & Hle)]; rewrite E in Hgone.
    { rewrite Hgone in Hk. by destruct Hk. }
    destruct (decide (ID a = k)) as [<-|Hne].
    + exists n, t, r. rewrite Hid in *. split_and!; try done. by apply Hst.
    + rewrite lookup_delete_ne in Hgone by done. rewrite Hgone in Hk. by destruct Hk.
  - destruct (updates_dom _ _ _ _ k (act_updates e a (cur s) Hg) Hk) as [x Hx]. congruence.
Qed.

Lemma hard_delete_justified_witness :
  let m : table := {["acct" := mkAccount "acct" PlanHobby AccountActive None None None]} in
  let tr := [(EDelete Hour "acct", 0%nat); (ERestore Day "acct", 0%nat); (EDelete (2 * Day) "acct", 0%nat)] in
  ∃ n t r, EGrace (40 * Day) "acct" = EGrace n "acct" ∧ accounts (cur (run m tr)) !! "acct" = Some r
    ∧ Status r = AccountDeletedPending ∧ in_force m tr "acct" t ∧ t + DeletionGraceDuration ≤ n.
Proof.
  intros m tr. apply (hard_delete_justified m tr (EGrace (40 * Day) "acct") 0 "acct").
  - intros k r Hk. apply lookup_singleton_Some in Hk as [<- <-]. done.
  - vm_compute. by eexists.
  - vm_compute. reflexivity.
Defined.

(** ** One warning a day *)

Definition warned_since (day : Time) (id : string) (m : table) : Prop :=
  ∀ r, m !! id = Some r → ∃ t, LastQuotaWarningAt r = Some t ∧ day ≤ t.

Lemma act_warned day id e a w :
  (clears e = true → ID a ≠ id) → warned_since day id (accounts w) → warned_since day id (accounts (act e a w)).
Proof.
  intros Hc Hw r' Hr'. assert ((∃ n i, e = EGrace n i) ∨ ∀ n i, e ≠ EGrace n i) as [(n & i & ->)|Hg] by (destruct e; eauto).
  - destruct (grace_effect n a w) as [E|(E & _)]; simpl in Hr'; rewrite E in Hr'; [by apply Hw|].
    apply lookup_delete_Some in Hr' as [_ Hr']. by apply Hw.
  - destruct (updates_lookup _ _ _ _ _ _ (act_updates e a w Hg) Hr') as (r & Hr & [->|[Hid HR]]); [by apply Hw|].
    destruct (Hw r Hr) as (t & Ht & Hle).
    assert (later (LastQuotaWarningAt r) (LastQuotaWarningAt r')) as HL.
    { destruct HR as [(_ & _ & [Hcl|HL])|HR]; [by destruct (Hc Hcl)|done|].
      destruct e; try done. by destruct HR as (_ & _ & ?). }
    destruct (HL t Ht) as (t' & Ht' & Hle'). exists t'. split; [done|lia].
Qed.

(** The turn sends the warning. *)
Definition emits_warning (s : state) (x : event * nat) : Prop :=
  ∃ l, log (cur (turn s x)) = log (cur s) ++ l ∧ Notify "quota_warning" (event_id x.1) ∈ l.

Lemma quota_turn_warns e a w l :
  log (quota_turn e a w) = log w ++ l → Notify "quota_warning" (ID a) ∈ l →
  ∃ m, LoadAndStampLastQuotaWarning (ID a) (Truncate (QuotaLoop.now e) Day) (accounts w) = inr (false, m) ∧
       accounts (quota_turn e a w) = m.
Proof.
  intros El Hl. assert (∀ l', log (quota_turn e a w) = log w ++ l' → l = l') as Hinj.
  { intros l' E. rewrite El in E. by apply app_inv_head in E. }
  unfold quota_turn in *. destruct (capped e a).
  { rewrite (Hinj [CapExceeded (Plan a)]) in Hl by done. apply list_elem_of_singleton in Hl. done. }
  assert (log w = log w ++ []) as Enil by by rewrite app_nil_r.
  destruct (negb (usageOK e (ID a))); [rewrite (Hinj [] Enil) in Hl; by apply elem_of_nil in Hl|].
  unfold EnforceQuota in *. destruct (Quota.Action _).
  - rewrite (Hinj [] Enil) in Hl. by apply elem_of_nil in Hl.
  - destruct (LoadAndStampLastQuotaWarning _ _ _) as [|[[] m]]; [..|by exists m];
      rewrite (Hinj [] Enil) in Hl; by apply elem_of_nil in Hl.
  - exfalso. assert (∀ ins, Notify "quota_warning" (ID a) ∉ park_live "quota_exceeded_free" ins ++ [Notify "billing_past_due" (ID a)]) as Hno.
    { intros ins [(i & ? & _)%list_elem_of_fmap|Hx]%elem_of_app; [done|]. apply list_elem_of_singleton in Hx. done. }
    unfold try_write, UpdateAccountStatus in *.
    destruct (negb _), (accounts w !! ID a), (instances e (ID a)) as [ins|]; simpl in *;
      first [apply (Hno ins); by rewrite (Hinj _ eq_refl) in Hl | rewrite (Hinj [] Enil) in Hl; by apply elem_of_nil in Hl].
Qed.

Lemma act_keyed e a w : keyed (accounts w) → keyed (accounts (act e a w)).
Proof.
  intros Hk k r' Hr'. assert ((∃ n i, e = EGrace n i) ∨ ∀ n i, e ≠ EGrace n i) as [(n & i & ->)|Hg] by (destruct e; eauto).
  - destruct (grace_effect n a w) as [E|(E & _)]; simpl in Hr'; rewrite E in Hr'; [by apply Hk|].
    apply lookup_delete_Some in Hr' as [_ Hr']. by apply Hk.
  - destruct (updates_lookup _ _ _ _ _ _ (act_updates e a w Hg) Hr') as (r & Hr & [->|[Hid HR]]); [by apply Hk|].
    rewrite <- (Hk k r Hr). destruct HR as [(H & _)|HR]; [done|]. destruct e; try done. by destruct HR as (H & _).
Qed.

Lemma run_keyed m tr : keyed m → keyed (accounts (cur (run m tr))).
Proof.
  intros Hm. induction tr as [|[e lag] tr IH] using rev_ind; [done|].
  rewrite account_run_snoc. simpl. destruct (read _ _ _); [by apply act_keyed|done].
Qed.

Lemma read_id m tr lag id a : keyed m → read (run m tr) lag id = Some a → ID a = id.
Proof. intros Hm Ha%read_run. exact (run_keyed m _ Hm id a Ha). Qed.

(** What a turn that sends the warning finds and leaves. *)
Lemma emits_stamp m tr e lag id :
  keyed m → emits_warning (run m tr) (EQuota e id, lag) →
  let day := Truncate (Truncate (QuotaLoop.now e) Day) Day in
  ¬ (∃ r t, accounts (cur (run m tr)) !! id = Some r ∧ LastQuotaWarningAt r = Some t ∧ day ≤ t) ∧
  warned_since day id (accounts (cur (turn (run m tr) (EQuota e id, lag)))).
Proof.
  intros Hm (l & El & Hl) day. simpl in *. destruct (read _ lag id) as [a|] eqn:Er.
  - pose proof (read_id _ _ _ _ _ Hm Er) as Hid. rewrite <- Hid in Hl.
    destruct (quota_turn_warns e a _ l El Hl) as (m' & Em & ->). rewrite Hid in Em.
    unfold LoadAndStampLastQuotaWarning in Em. destruct (accounts (cur (run m tr)) !! id) as [r|] eqn:Hr; [|done].
    fold day in Em. destruct (match LastQuotaWarningAt r with Some _ => _ | None => _ end) eqn:Ew; [done|].
    injection Em as <-. split.
    + intros (r' & t & Hr' & Ht & Hle). injection Hr' as <-. rewrite Ht in Ew. breflect. lia.
    + intros r' Hr'. rewrite lookup_insert_eq in Hr'. injection Hr' as <-. exists day. split; [done|lia].
  - rewrite <- (app_nil_r (log _)) in El at 1. apply app_inv_head in El as <-. by apply elem_of_nil in Hl.
Qed.

Lemma run_warned day id m tr1 tr2 :
  keyed m → (∀ c lag, (EWebhook c EventPaymentSucceeded id, lag) ∉ tr2) →
  warned_since day id (accounts (cur (run m tr1))) → warned_since day id (accounts (cur (run m (tr1 ++ tr2)))).
Proof.
  intros Hm Hc Hw. induction tr2 as [|[e lag] tr2 IH] using rev_ind; [by rewrite app_nil_r|].
  rewrite app_assoc, account_run_snoc. set (s := run m (tr1 ++ tr2)) in *.
  assert (warned_since day id (accounts (cur s))) as Hs.
  { apply IH. intros c l Hin. apply (Hc c l). apply elem_of_app. by left. }
  simpl. destruct (read s lag (event_id e)) as [a|] eqn:Er; [|done]. apply act_warned; [|done].
  intros Hcl E. rewrite (read_id _ _ _ _ _ Hm Er) in E. destruct e as [c [] i| | | | |]; try done. simpl in E. subst i.
  apply (Hc c lag). apply elem_of_app. right. by left.
Qed.

(** A paid account over its quota is warned at most once per UTC day: over every interleaving of the actors, after a quota turn has sent the warning no later quota turn of the same day sends it again, unless a successful payment cleared the stamp in between. *)
Theorem quota_warning_once_per_day (m : table) (tr1 tr2 : list (event * nat)) (e e' : QuotaLoop.env) (lag lag' : nat) (id : string) :
  keyed m → Truncate (QuotaLoop.now e) Day = Truncate (QuotaLoop.now e') Day →
  (∀ c l, (EWebhook c EventPaymentSucceeded id, l) ∉ tr2) →
  emits_warning (run m tr1) (EQuota e id, lag) →
  ¬ emits_warning (run m (tr1 ++ (EQuota e id, lag) :: tr2)) (EQuota e' id, lag').
Proof.
  intros Hm Hday Hc H1 H2. destruct (emits_stamp m tr1 e lag id Hm H1) as [_ Hw]. rewrite <- account_run_snoc in Hw.
  apply (run_warned _ _ _ _ tr2 Hm Hc) in Hw. rewrite <- app_assoc in Hw. simpl in Hw.
  pose proof H2 as (l & El & Hl). destruct (emits_stamp m _ e' lag' id Hm H2) as [Hno _]. apply Hno.
  simpl in El, Hl. destruct (read _ lag' id) as [a|] eqn:Er.
  - pose proof (read_id _ _ _ _ _ Hm Er) as Hid. rewrite <- Hid in Hl.
    destruct (quota_turn_warns e' a _ l El Hl) as (m' & Em & _). unfold LoadAndStampLastQuotaWarning in Em.
    rewrite Hid in Em. destruct (accounts (cur (run m (tr1 ++ (EQuota e id, lag) :: tr2))) !! id) as [r|] eqn:Hr; [|done].
    destruct (Hw r Hr) as (t & Ht & Hle). exists r, t. rewrite <- Hday. done.
  - rewrite <- (app_nil_r (log _)) in El at 1. apply app_inv_head in El as <-. by apply elem_of_nil in Hl.
Qed.

(** A Hobby account at its 50 GB-hours. *)
Definition over_quota (t : Time) : QuotaLoop.env :=
  QuotaLoop.mkEnv t t (Usage.mkTables [] [Usage.mkUsage "acct" "app" 0 (50 * 3686400) 0 0 0 0 0 0]) (Some ∅)
    (λ _, true) (λ _, true) (λ _, Some []).

Lemma quota_warning_once_per_day_witness :
  let m : table := {["acct" := mkAccount "acct" PlanHobby AccountActive None None None]} in
  ¬ emits_warning (run m ([] ++ [(EQuota (over_quota Hour) "acct", 0%nat)])) (EQuota (over_quota (2 * Hour)) "acct", 0%nat).
Proof.
  intros m. apply (quota_warning_once_per_day m [] [] (over_quota Hour) (over_quota (2 * Hour)) 0 0 "acct").
  - intros k r Hk. apply lookup_singleton_Some in Hk as [<- <-]. reflexivity.
  - vm_compute. reflexivity.
  - intros c l Hin. by apply elem_of_nil in Hin.
  - exists [Notify "quota_warning" "acct"; Mail "quota_warning" "acct"]. split; [vm_compute; reflexivity|by left].
Defined.

(** ** Turns on a fresh read *)

Lemma turn_fresh s e a :
  accounts (cur s) !! event_id e = Some a → cur (turn s (e, 0%nat)) = act e a (cur s).
Proof. intros Ha. unfold turn, read. simpl. by rewrite Ha. Qed.

(** The row of the account after a turn that has just read it, for rows stored under their ID. *)
Section fresh.
Context (s : state) (r : Account) (id : string).
Hypothesis Hr : accounts (cur s) !! id = Some r.
Hypothesis Hid : ID r = id.

#[local] Ltac run_turn :=
  rewrite (turn_fresh s _ r) by done; simpl;
  repeat (unfold handleBillingEvent, dunning_turn, scheduleDeletion, cancelDeletion, try_write, UpdateAccountStatus,
    MarkDunningStep, MarkAccountDeletionPending, RestoreAccount, ClearQuotaWarning, emit, admits, Active; simpl).

Lemma fresh_canceled c :
  accounts (cur (turn s (EWebhook c EventSubscriptionCanceled id, 0%nat))) !! id = Some (set_status AccountSuspended r).
Proof using All. run_turn. rewrite Hid, Hr. simpl. apply lookup_insert_eq. Qed.

Lemma fresh_paid c :
  Status r = AccountPastDue →
  accounts (cur (turn s (EWebhook c EventPaymentSucceeded id, 0%nat))) !! id =
  Some (set_warning None (set_status AccountActive r)).
Proof using All. intros Hs. run_turn. rewrite Hid, bool_decide_true, Hr by done. simpl. rewrite !lookup_insert_eq. done. Qed.

Lemma fresh_failed c :
  Status r = AccountActive →
  accounts (cur (turn s (EWebhook c EventPaymentFailed id, 0%nat))) !! id =
  Some (set_past_due (Some (default c (PastDueAt r))) (set_status AccountPastDue r)).
Proof using All.
  intros Hs. run_turn. rewrite Hid, Hr, bool_decide_true by done. simpl. rewrite lookup_insert_eq. f_equal.
  destruct r as [i p st [t|] d w]; done.
Qed.

Lemma fresh_suspended e t :
  Status r = AccountPastDue → PastDueAt r = Some t → t + DunningPastDueToSuspendedDuration ≤ Dunning.now e →
  accounts (cur (turn s (EDunning e id, 0%nat))) !! id = Some (set_status AccountSuspended r).
Proof using All.
  intros Hs Ht Hle. run_turn. rewrite Hs, Ht, Hid, (proj2 (Z.ltb_ge _ _)), Hr, bool_decide_true by
    (done || (apply Z.nlt_ge; rewrite time_sub_lt by done; lia)). simpl. apply lookup_insert_eq.
Qed.

Lemma fresh_dunned e t :
  Status r = AccountSuspended → PastDueAt r = Some t → t + DunningSuspendedToDeletedDuration ≤ Dunning.now e →
  accounts (cur (turn s (EDunning e id, 0%nat))) !! id = Some (set_status AccountDeletedPending r).
Proof using All.
  intros Hs Ht Hle. run_turn. rewrite Hs, Ht, Hid, (proj2 (Z.ltb_ge _ _)), Hr, bool_decide_true by
    (done || (apply Z.nlt_ge; rewrite time_sub_lt by done; lia)). simpl. apply lookup_insert_eq.
Qed.

Lemma fresh_requested c :
  Active r = true → DeletionRequestedAt r = None →
  accounts (cur (turn s (EDelete c id, 0%nat))) !! id = Some (set_deletion (Some c) (set_status AccountDeletedPending r)).
Proof using All.
  intros Ha Hd. assert (Status r ≠ AccountDeletedPending) as Hne by (intros E; unfold Active in Ha; rewrite E in Ha; done).
  rewrite (turn_fresh s _ r) by done. simpl. unfold admits. rewrite Ha. simpl. unfold scheduleDeletion, try_write, MarkAccountDeletionPending.
  rewrite Hid, Hr, !(bool_decide_false (Status r = _)) by done. simpl. rewrite Hd. simpl.
  rewrite lookup_insert_eq. simpl. apply lookup_insert_eq.
Qed.

Lemma fresh_restored c t :
  Status r = AccountDeletedPending → DeletionRequestedAt r = Some t → c ≤ t + DeletionGraceDuration →
  accounts (cur (turn s (ERestore c id, 0%nat))) !! id = Some (set_deletion None (set_status AccountActive r)).
Proof using All.
  intros Hs Ht Hle. rewrite (turn_fresh s _ r) by done. simpl. unfold admits. rewrite (bool_decide_true (Status r = _)), orb_true_r by done.
  unfold cancelDeletion, try_write, RestoreAccount. rewrite Hid, Hr, !(bool_decide_true (Status r = _)) by done. simpl. rewrite Ht.
  rewrite (proj2 (Z.ltb_ge _ _)) by (apply Z.nlt_ge; rewrite time_sub_gt by done; lia). apply lookup_insert_eq.
Qed.
End fresh.

(** ** Where the actors work against each other *)

(** A turn that has just read its row. *)
#[local] Abbreviation now_ e := (e, 0%nat) (only parsing).
Definition status_of (s : state) (id : string) : option AccountStatus := Status <$> accounts (cur s) !! id.

Lemma grace_ignores (m : table) tr ns id r :
  accounts (cur (run m tr)) !! id = Some r → Status r ≠ AccountDeletedPending →
  accounts (cur (run m (tr ++ ((λ n, now_ (EGrace n id)) <$> ns)))) !! id = Some r.
Proof.
  intros Hr Hs. induction ns as [|n ns IH] using rev_ind; [by rewrite app_nil_r|].
  rewrite fmap_app, app_assoc. simpl. rewrite account_run_snoc, (turn_fresh _ _ r) by done. simpl.
  destruct (grace_effect n r (cur (run m (tr ++ ((λ n, now_ (EGrace n id)) <$> ns))))) as [->|(_ & _ & E & _)]; done.
Qed.

(** Three ways the actors of the account lifecycle work against each other.  For an account in past_due since [t]: (1) paying and failing again later does not restart the dunning clock, so an account whose first failure is three weeks old is suspended and marked for deletion by the next two dunning turns, whenever the new failure was; (2) asking for deletion and withdrawing the request makes the unpaid account active; (3) a cancelled subscription overwrites the deletion request, and no turn of the grace timer ever erases the account. *)
Theorem account_lifecycle_hazards (m : table) (id : string) (r : Account) (t : Time) :
  m !! id = Some r → ID r = id → Status r = AccountPastDue → PastDueAt r = Some t → DeletionRequestedAt r = None →
  (∀ c1 c2 e1 e2, t + DunningSuspendedToDeletedDuration ≤ Dunning.now e1 → t + DunningSuspendedToDeletedDuration ≤ Dunning.now e2 →
     status_of (run m [now_ (EWebhook c1 EventPaymentSucceeded id); now_ (EWebhook c2 EventPaymentFailed id);
                       now_ (EDunning e1 id); now_ (EDunning e2 id)]) id = Some AccountDeletedPending) ∧
  (∀ c1 c2, c2 ≤ c1 + DeletionGraceDuration →
     status_of (run m [now_ (EDelete c1 id); now_ (ERestore c2 id)]) id = Some AccountActive) ∧
  (∀ c1 c2 ns, status_of (run m ([now_ (EDelete c1 id); now_ (EWebhook c2 EventSubscriptionCanceled id)] ++
                                 ((λ n, now_ (EGrace n id)) <$> ns))) id = Some AccountSuspended).
Proof.
  intros Hr Hid Hs Ht Hd. set (s0 := mkState (mkWorld m []) []).
  assert (accounts (cur s0) !! id = Some r) as H0 by done.
  assert (Active r = true) as Ha by (unfold Active; by rewrite (bool_decide_true (Status r = AccountPastDue)), orb_true_r).
  split_and!.
  - intros c1 c2 e1 e2 He1 He2. unfold status_of, run. cbn [foldl]. fold s0.
    pose proof (fresh_paid s0 r id H0 Hid c1 Hs) as H1.
    pose proof (fresh_failed _ _ id H1 Hid c2 eq_refl) as H2. change (PastDueAt (set_warning None (set_status AccountActive r))) with (PastDueAt r) in H2.
    rewrite Ht in H2.
    eassert (_ = Some _) as H3 by (apply (fresh_suspended _ _ id H2 Hid e1 t); [done|done|]; revert He1;
      unfold DunningSuspendedToDeletedDuration, DunningPastDueToSuspendedDuration, Hour, Minute, Second; lia).
    eassert (_ = Some _) as H4 by (apply (fresh_dunned _ _ id H3 Hid e2 t); done). by rewrite H4.
  - intros c1 c2 Hle. unfold status_of, run. cbn [foldl]. fold s0.
    pose proof (fresh_requested s0 r id H0 Hid c1 Ha Hd) as H1.
    eassert (_ = Some _) as H2 by (apply (fresh_restored _ _ id H1 Hid c2 c1); done). by rewrite H2.
  - intros c1 c2 ns. unfold status_of.
    pose proof (fresh_requested s0 r id H0 Hid c1 Ha Hd) as H1.
    pose proof (fresh_canceled _ _ id H1 Hid c2) as H2.
    rewrite (grace_ignores m [now_ (EDelete c1 id); now_ (EWebhook c2 EventSubscriptionCanceled id)] ns id _ H2); done.
Qed.

Lemma account_lifecycle_hazards_witness :
  let m : table := {["acct" := mkAccount "acct" PlanHobby AccountPastDue (Some 0) None None]} in
  let e := Dunning.mkEnv (30 * Day) (30 * Day) (λ _, None) in
  status_of (run m [now_ (EWebhook Day EventPaymentSucceeded "acct"); now_ (EWebhook (30 * Day) EventPaymentFailed "acct");
                    now_ (EDunning e "acct"); now_ (EDunning e "acct")]) "acct" = Some AccountDeletedPending ∧
  status_of (run m [now_ (EDelete Day "acct"); now_ (ERestore (2 * Day) "acct")]) "acct" = Some AccountActive.
Proof.
  intros m e.
  destruct (account_lifecycle_hazards m "acct" (mkAccount "acct" PlanHobby AccountPastDue (Some 0) None None) 0) as (H1 & H2 & _).
  - reflexivity.
  - reflexivity.
  - reflexivity.
  - reflexivity.
  - reflexivity.
  - split; [apply H1; vm_compute; discriminate|apply H2; vm_compute; discriminate].
Defined.

(** ** Accounts the dunning timer has marked *)

Definition stuck (r : Account) : Prop := Status r = AccountDeletedPending ∧ DeletionRequestedAt r = None.

(** Turns that work on a fresh row of [id], other than the two unconditional suspensions. *)
Definition ordinary (id : string) (x : event * nat) : Prop :=
  event_id x.1 = id → x.2 = 0%nat ∧ (∀ c i, x.1 ≠ EWebhook c EventSubscriptionCanceled i) ∧ ∀ q i, x.1 ≠ EQuota q i.

Lemma act_other e a w k : ID a ≠ k → accounts (act e a w) !! k = accounts w !! k.
Proof.
  intros Hk. assert ((∃ n i, e = EGrace n i) ∨ ∀ n i, e ≠ EGrace n i) as [(n & i & ->)|Hg] by (destruct e; eauto).
  - destruct (grace_effect n a w) as [E|(E & _)]; simpl; rewrite E; [done|by rewrite lookup_delete_ne].
  - destruct (act_updates e a w Hg) as [->|(r & r' & _ & _ & ->)]; [done|by rewrite lookup_insert_ne].
Qed.

Lemma act_stuck e r w :
  stuck r → ordinary (ID r) (e, 0%nat) → event_id e = ID r → accounts w !! ID r = Some r →
  ∃ r', accounts (act e r w) !! ID r = Some r' ∧ stuck r'.
Proof.
  intros [Hs Hd] Ho He Hr. destruct (Ho He) as (_ & Hc & Hq). simpl in Hc, Hq.
  assert (∀ w', accounts w' = accounts w → ∃ r', accounts w' !! ID r = Some r' ∧ stuck r') as Hsame
    by (intros w' ->; by exists r).
  destruct e as [c ev i|e i|q i|c i|c i|n i]; simpl.
  - destruct ev; simpl; try (by apply Hsame); try (by destruct (Hc c i)).
    + destruct (String.eqb _ _); [by apply Hsame|]. unfold try_write, UpdateAccountPlan. rewrite Hr. simpl.
      rewrite lookup_insert_eq. by eexists.
    + unfold try_write, MarkDunningStep. rewrite Hr, Hs. by apply Hsame.
    + rewrite Hs. simpl. unfold ClearQuotaWarning. rewrite Hr, lookup_insert_eq. by eexists.
    + unfold try_write, MarkDunningStep. rewrite Hr, Hs. by apply Hsame.
  - unfold dunning_turn. rewrite Hs. by apply Hsame.
  - by destruct (Hq q i).
  - apply Hsame. destruct (admits r); [|done]. unfold scheduleDeletion. by rewrite Hs.
  - apply Hsame. destruct (admits r); [|done]. unfold cancelDeletion, try_write, RestoreAccount. rewrite Hs, Hr, Hs, Hd. done.
  - apply Hsame. unfold grace_turn. by rewrite Hs, Hd.
Qed.

(** An account the dunning timer has marked for deletion is neither erased nor restorable.  The timer sets deleted_pending without the deletion stamp that the grace timer and the restore need; whatever sequence of deletion requests, restore requests, payments, plan changes, dunning and grace turns follows, and whatever happens to other accounts, the row stays in deleted_pending without a stamp. *)
Theorem dunned_account_stuck (m : table) (id : string) (r : Account) (tr : list (event * nat)) :
  keyed m → m !! id = Some r → stuck r → Forall (ordinary id) tr →
  ∃ r', accounts (cur (run m tr)) !! id = Some r' ∧ stuck r'.
Proof.
  intros Hm Hr Hs. induction tr as [|[e lag] tr IH] using rev_ind; [intros _; by exists r|].
  rewrite Forall_app, Forall_singleton. intros [Htr Ho]. destruct (IH Htr) as (r1 & Hr1 & Hs1).
  rewrite account_run_snoc. simpl. destruct (read (run m tr) lag (event_id e)) as [a|] eqn:Er; [|by exists r1].
  pose proof (read_id _ _ _ _ _ Hm Er) as Hid. destruct (decide (event_id e = id)) as [E|Hne].
  - pose proof (Ho E) as (Hlag & _). simpl in Hlag. subst lag. unfold read in Er. simpl in Er. rewrite E, Hr1 in Er.
    injection Er as <-. rewrite <- E, <- Hid. apply act_stuck; [done|by rewrite Hid, E|done|by rewrite Hid, E].
  - rewrite act_other by congruence. by exists r1.
Qed.

Lemma dunned_account_stuck_witness :
  let m : table := {["acct" := mkAccount "acct" PlanHobby AccountDeletedPending (Some 0) None None]} in
  ∃ r', accounts (cur (run m [now_ (EDelete Day "acct"); now_ (ERestore (2 * Day) "acct"); now_ (EGrace (100 * Day) "acct")]))
          !! "acct" = Some r' ∧ stuck r'.
Proof.
  intros m. apply (dunned_account_stuck m "acct" (mkAccount "acct" PlanHobby AccountDeletedPending (Some 0) None None)).
  - intros k r Hk. apply lookup_singleton_Some in Hk as [<- <-]. reflexivity.
  - reflexivity.
  - split; reflexivity.
  - repeat constructor; discriminate.
Defined.

(** ** A whole sweep *)

Section sweep.
Context (body : Account → world → world) (next : Account → option Account) (eff : Account → list effect).
Hypothesis Hbody : ∀ a w, accounts w !! ID a = Some a →
  accounts (body a w) = partial_alter (λ _, next a) (ID a) (accounts w) ∧ log (body a w) = log w ++ eff a.

Lemma sweep_rows rows w :
  NoDup (ID <$> rows) → (∀ a, a ∈ rows → accounts w !! ID a = Some a) →
  let w' := foldl (λ w a, body a w) w rows in
  (∀ k, accounts w' !! k = if decide (k ∈ ID <$> rows) then accounts w !! k ≫= next else accounts w !! k) ∧
  log w' = log w ++ (rows ≫= eff).
Proof using Hbody.
  revert w. induction rows as [|a rows IH]; intros w Hnd Hrows; cbv zeta; cbn [foldl].
  { split; [|by rewrite app_nil_r]. intros k. by rewrite decide_False by (by intros ?%elem_of_nil). }
  rewrite fmap_cons, NoDup_cons in Hnd. destruct Hnd as [Ha Hnd].
  destruct (Hbody a w (Hrows a ltac:(by left))) as [E1 E2].
  destruct (IH (body a w) Hnd) as [I1 I2].
  { intros b Hb. rewrite E1, lookup_partial_alter_ne; [apply Hrows; by right|]. intros E. apply Ha. rewrite E.
    by apply list_elem_of_fmap_2. }
  split; [|by rewrite I2, E2, bind_cons, <- app_assoc]. intros k. rewrite I1, E1, fmap_cons.
  destruct (decide (k = ID a)) as [->|Hne].
  - rewrite decide_False by done. rewrite decide_True by (by left).
    by rewrite lookup_partial_alter_eq, (Hrows a) by by left.
  - rewrite lookup_partial_alter_ne by done. destruct (decide (k ∈ ID <$> rows)) as [Hin|Hin].
    + by rewrite decide_True by (by right).
    + rewrite decide_False; [done|]. rewrite elem_of_cons. naive_solver.
Qed.

Lemma sweep_table m rows :
  keyed m → rows ≡ₚ (map_to_list m).*2 →
  let w' := foldl (λ w a, body a w) (mkWorld m []) rows in
  accounts w' = omap next m ∧ log w' = rows ≫= eff.
Proof using Hbody.
  intros Hm Hp. assert (ID <$> rows ≡ₚ (map_to_list m).*1) as Hids.
  { rewrite Hp. assert (ID <$> (map_to_list m).*2 = (map_to_list m).*1) as ->; [|done].
    rewrite <- list_fmap_compose. apply list_fmap_ext. intros i [k a] Hi. simpl. apply Hm.
    apply elem_of_map_to_list. by eapply list_elem_of_lookup_2. }
  destruct (sweep_rows rows (mkWorld m [])) as [H1 H2].
  - rewrite Hids. apply NoDup_fst_map_to_list.
  - intros a Ha. rewrite Hp in Ha. apply list_elem_of_fmap in Ha as ([k a'] & -> & Hin). simpl.
    apply elem_of_map_to_list in Hin. by rewrite (Hm k a' Hin).
  - split; [|done]. apply map_eq. intros k. rewrite H1, lookup_omap. simpl. case_decide as Hk; [done|].
    destruct (m !! k) as [a|] eqn:E; [|done]. destruct Hk. rewrite Hids. apply list_elem_of_fmap. exists (k, a).
    split; [done|]. by apply elem_of_map_to_list.
Qed.
End sweep.

(** The dunning ladder on a row: the stamp, the week and the three weeks, counted in exact time. *)
Definition dunning_next (e : Dunning.env) (a : Account) : Account :=
  match Status a, PastDueAt a with
  | AccountPastDue, None => set_past_due (Some (Dunning.clock e)) a
  | AccountPastDue, Some t => if Dunning.now e <? t + 7 * Day then a else set_status AccountSuspended a
  | AccountSuspended, Some t => if Dunning.now e <? t + 21 * Day then a else set_status AccountDeletedPending a
  | _, _ => a
  end.

Definition dunning_effects (e : Dunning.env) (a : Account) : list effect :=
  match Status a, PastDueAt a with
  | AccountPastDue, Some t =>
      if Dunning.now e <? t + 7 * Day then []
      else parkAll e (ID a) ++ [Notify "billing_past_due" (ID a); Mail "account_suspended" (ID a)]
  | AccountSuspended, Some t =>
      if Dunning.now e <? t + 21 * Day then []
      else [Notify "account_deletion_pending" (ID a); Mail "account_deletion_pending" (ID a)]
  | _, _ => []
  end.

(** The rows the grace timer erases. *)
Definition due (n : Time) (a : Account) : bool :=
  bool_decide (Status a = AccountDeletedPending) &&
  match DeletionRequestedAt a with Some t => t + 30 * Day <=? n | None => false end.

Lemma dunning_body e a w :
  accounts w !! ID a = Some a →
  accounts (dunning_turn e a w) = partial_alter (λ _, Some (dunning_next e a)) (ID a) (accounts w) ∧
  log (dunning_turn e a w) = log w ++ dunning_effects e a.
Proof.
  intros Ha. assert (accounts w = partial_alter (λ _, Some a) (ID a) (accounts w)) as Eid
    by exact (eq_sym (insert_id _ _ _ Ha)).
  unfold dunning_turn, dunning_next, dunning_effects. destruct (Status a) eqn:Es; rewrite ?app_nil_r; try done.
  - destruct (PastDueAt a) as [t|] eqn:Ep.
    + assert ((time_sub (Dunning.now e) t <? DunningPastDueToSuspendedDuration) = (Dunning.now e <? t + 7 * Day)) as ->.
      { apply eq_bool_prop_intro. rewrite !Is_true_true, !Z.ltb_lt, time_sub_lt by done.
        unfold DunningPastDueToSuspendedDuration, Day. lia. }
      destruct (_ <? _); [by rewrite app_nil_r|]. unfold try_write, MarkDunningStep. rewrite Ha, Es. done.
    + unfold try_write, MarkDunningStep. rewrite Ha, Es. simpl. rewrite Ep, app_nil_r. simpl. split; [|done].
      unfold insert, map_insert. do 2 f_equal. destruct a. simpl in *. by subst.
  - destruct (PastDueAt a) as [t|] eqn:Ep; [|by rewrite app_nil_r].
    assert ((time_sub (Dunning.now e) t <? DunningSuspendedToDeletedDuration) = (Dunning.now e <? t + 21 * Day)) as ->.
    { apply eq_bool_prop_intro. rewrite !Is_true_true, !Z.ltb_lt, time_sub_lt by done.
      unfold DunningSuspendedToDeletedDuration, Day. lia. }
    destruct (_ <? _); [by rewrite app_nil_r|]. unfold try_write, MarkDunningStep. rewrite Ha, Es. done.
Qed.

Lemma grace_body n a w :
  accounts w !! ID a = Some a →
  accounts (grace_turn n a w) = partial_alter (λ _, if due n a then None else Some a) (ID a) (accounts w) ∧
  log (grace_turn n a w) =
    log w ++ (if due n a then [Notify "account_deleted" (ID a); Mail "account_deletion_complete" (ID a)] else []).
Proof.
  intros Ha. assert (accounts w = partial_alter (λ _, Some a) (ID a) (accounts w)) as Eid
    by exact (eq_sym (insert_id _ _ _ Ha)).
  unfold grace_turn, due. destruct (bool_decide_reflect (Status a = AccountDeletedPending)) as [Hs|]; simpl; [|by rewrite app_nil_r].
  destruct (DeletionRequestedAt a) as [t|]; [|by rewrite app_nil_r].
  assert ((n - DeletionGraceDuration <? t) = negb (t + 30 * Day <=? n)) as ->.
  { rewrite Z.leb_antisym, negb_involutive. apply eq_bool_prop_intro. rewrite !Is_true_true, !Z.ltb_lt. unfold DeletionGraceDuration, Day. lia. }
  destruct (t + 30 * Day <=? n); simpl; [|by rewrite app_nil_r].
  unfold try_write, DeleteAccount. rewrite Ha, bool_decide_true by done. done.
Qed.

(** The account timers do what they document.  A dunning sweep over all rows, in whatever order they are listed, stamps a past_due row without a stamp, suspends exactly the rows whose stamp is at least seven days old and marks exactly the suspended rows at least twenty-one days past due, parking instances and sending notices for those and no others; a grace sweep erases exactly the pending rows whose deletion request is at least thirty days old. *)
Theorem account_timers_exact (m : table) (rows : list Account) (e : Dunning.env) (n : Time) :
  keyed m → rows ≡ₚ (map_to_list m).*2 →
  (accounts (Dunning.RunOnce e rows (mkWorld m [])) = dunning_next e <$> m ∧
   log (Dunning.RunOnce e rows (mkWorld m [])) = rows ≫= dunning_effects e) ∧
  accounts (Grace.RunOnce n rows (mkWorld m [])) = filter (λ x, negb (due n x.2)) m.
Proof.
  intros Hm Hp. split.
  - destruct (sweep_table _ _ _ (dunning_body e) m rows Hm Hp) as [H1 H2]. split; [|exact H2].
    unfold Dunning.RunOnce. rewrite H1. apply map_eq. intros k. rewrite lookup_omap, lookup_fmap. by destruct (m !! k).
  - destruct (sweep_table _ _ _ (grace_body n) m rows Hm Hp) as [H1 _]. unfold Grace.RunOnce. rewrite H1.
    apply map_eq. intros k. rewrite lookup_omap, map_lookup_filter. destruct (m !! k) as [a|]; [|done]. simpl.
    by destruct (due n a).
Qed.

Lemma account_timers_exact_witness :
  let a := mkAccount "acct" PlanHobby AccountPastDue (Some 0) None None in
  let e := Dunning.mkEnv (7 * Day) (7 * Day) (λ _, None) in
  let m : table := {["acct" := a]} in
  accounts (Dunning.RunOnce e [a] (mkWorld m [])) = {["acct" := set_status AccountSuspended a]}.
Proof.
  intros a e m. destruct (account_timers_exact m [a] e 0) as [[E _] _].
  - intros k r Hk. apply lookup_singleton_Some in Hk as [<- <-]. reflexivity.
  - unfold m. by rewrite map_to_list_singleton.
  - rewrite E. unfold m. rewrite map_fmap_singleton. reflexivity.
Defined.

(** ** From usage reports to the hard stop *)

(** The spend of the month has reached the cap that is set for the account. *)
Definition at_cap (e : QuotaLoop.env) (a : Account) : Prop :=
  ∃ m cap, caps e = Some m ∧ m !! ID a = Some cap ∧ 0 ≤ cap ∧ overageOK e (ID a) = true
    ∧ cap ≤ Usage.CurrentMonthOverageCents (storeNow e) (ID a) (QuotaLoop.tables e).

Lemma capped_spec e a : capped e a = true ↔ at_cap e a.
Proof.
  unfold capped, at_cap. split.
  - destruct (caps e) as [m|]; simpl; [|by rewrite lookup_empty]. destruct (m !! ID a) as [cap|] eqn:Hm; [|done].
    rewrite !andb_true_iff, !Z.leb_le. intros [[? ?] ?]. by exists m, cap.
  - intros (m & cap & -> & Hm & H0 & H1 & H2). simpl. rewrite Hm, H1, !andb_true_iff, !Z.leb_le. done.
Qed.

(** C35: The Free hard stop works from the first report on.  After any history of usage reports, a quota turn of a Free account that is not suspended and whose reads work suspends it, parks every live instance and announces it exactly when the MB-seconds first reported for its (instance, minute) pairs of the month reach the five included GB-hours, to one MB-second.  An account whose spend of the month has reached its cap is skipped, whatever its plan and its usage: the turn reports the cap and changes nothing. *)
Theorem free_quota_enforced (own : string → string * string) (l : list Usage.append) (e : QuotaLoop.env)
    (a : Account) (ins : list Store.Instance) (w : world) :
  Forall (Usage.owned own) l → Forall Usage.nonzero l → QuotaLoop.tables e = Usage.run l Usage.empty →
  usageOK e (ID a) = true → instances e (ID a) = Some ins →
  Plan a = PlanFree → Status a ≠ AccountSuspended → accounts w !! ID a = Some a →
  let S := Usage.zsum Usage.aMB (filter (Usage.billed_in (ID a) (QuotaLoop.now e)) (Usage.first_writes l)) in
  0 ≤ S ≤ 2 ^ 53 →
  (¬ at_cap e a → quota_turn e a w =
     if S <? 5 * 3686400 - 1 then w
     else emit (park_live "quota_exceeded_free" ins ++ [Notify "billing_past_due" (ID a)])
            (mkWorld (<[ID a := set_status AccountSuspended a]> (accounts w)) (log w)))
  ∧ ∀ a' w', at_cap e a' → quota_turn e a' w' = emit [CapExceeded (Plan a')] w'.
Proof.
  intros Ho Hn Ht Hu Hi Hp Hs Ha S HS. split; cycle 1.
  { intros a' w' Hc%capped_spec. unfold quota_turn. by rewrite Hc. }
  rewrite <- capped_spec, not_true_iff_false. intros Hc. unfold quota_turn. rewrite Hc, Hu, Ht. simpl.
  assert (∀ x, Usage.billed_in (ID a) (Date1 (YearMonth (QuotaLoop.now e))) x = Usage.billed_in (ID a) (QuotaLoop.now e) x) as Eb
    by (intros x; unfold Usage.billed_in; by rewrite YearMonth_start).
  pose proof (Usage.month_view_bill own l (ID a) (Date1 (YearMonth (QuotaLoop.now e))) Ho Hn) as Hv.
  rewrite Usage.zsum_filter, (Usage.zsum_ext _ _ _ (λ x _, f_equal (λ b : bool, if b then Usage.aMB x else 0) (Eb x))),
    <- Usage.zsum_filter in Hv. fold S in Hv. rewrite i64_id in Hv by (unfold in_i64; lia).
  unfold EnforceQuota. rewrite Hp, Quota.quota_verdict by (by left || by rewrite Hv). rewrite Hv.
  change (Api.Plan.PlanIncludedGBHours PlanFree) with 5. destruct (S <? 5 * 3686400 - 1); [done|]. simpl.
  rewrite bool_decide_false by done. simpl. unfold try_write, UpdateAccountStatus. rewrite Ha, Hi. done.
Qed.

Lemma free_quota_enforced_witness :
  let a := mkAccount "acct" PlanFree AccountActive None None None in
  let pro := mkAccount "pro" PlanPro AccountActive None None None in
  let r m := Usage.mkAppend "acct" "app" "i1" m 9216000 1 0 0 0 0 0 0 in
  let l := [r Minute; r (2 * Minute); r (70 * Second)] in
  let e := QuotaLoop.mkEnv Hour Hour (Usage.run l Usage.empty) (Some {["pro" := 0]}) (λ _, true) (λ _, true) (λ _, Some []) in
  let w := quota_turn e a (mkWorld {["acct" := a]} []) in
  log w = [Notify "billing_past_due" "acct"] ∧ Status <$> accounts w !! "acct" = Some AccountSuspended
  ∧ log (quota_turn e pro w) = [Notify "billing_past_due" "acct"; CapExceeded PlanPro].
Proof.
  intros a pro r l e w. unfold w.
  assert (Forall (Usage.owned (λ _, ("acct", "app"))) l) as Ho by (repeat constructor).
  assert (Forall Usage.nonzero l) as Hn by (repeat constructor; discriminate).
  destruct (free_quota_enforced (λ _, ("acct", "app")) l e a [] (mkWorld {["acct" := a]} []) Ho Hn) as [Hfree Hcap].
  - reflexivity.
  - reflexivity.
  - reflexivity.
  - reflexivity.
  - discriminate.
  - reflexivity.
  - vm_compute. split; discriminate.
  - rewrite (Hcap pro), Hfree.
    + vm_compute. split_and!; reflexivity.
    + intros (m & cap & [= <-] & Hm & _). vm_compute in Hm. discriminate Hm.
    + exists {["pro" := 0]}, 0. vm_compute. split_and!; reflexivity || discriminate.
Defined.

End AccountRun.
