(* ===== verification/Gate.v ===== *)
(** * pkg/gateway: the wake gate

    Models src/pkg/gateway/gate.go and the use Handler.coldStart (handler.go) makes of it: the first
    request to an app without an instance becomes the leader and starts a detached goroutine that runs
    [ensure], the others wait on the same call.

    Every critical section of the gate is one step on the shared state.  Calls are pointers: [calls] is
    the heap, [inflight] the map from apps to call ids.  [threads] are the requests inside Wait, [runs]
    the detached goroutines with the ensure goroutine and the poller they start.  [exec] runs one action
    of one of them and has no result when the action is not enabled; a trace is any interleaving. *)

From S2P Require Import Prelude.
#[local] Open Scope go_scope.

Module Gate.

(** A nil error is [None]; [ErrEnsure] is what the ensure function returned. *)
Inductive gate_error := ErrQueueFull | ErrBootstrapAborted | ErrContext | ErrEnsure (e : string).

Record wakeCall := mkCall {
  app : string;                (* the key it was entered under *)
  done : bool;                 (* the channel is closed *)
  err : option gate_error;
  waiters : Z;
  completed : bool;
}.

Record WakeGate := mkGate {
  inflight : gmap string nat;
  calls : gmap nat wakeCall;
  next : nat;                  (* the next fresh pointer *)
  cap : Z;
  ttl : Duration;
}.

Definition NewWakeGate (capacity : Z) (ttl : Duration) : WakeGate :=
  mkGate ∅ ∅ 0 (if capacity <? 1 then 1 else capacity) (if ttl <=? 0 then 30 * Second else ttl).

Definition set_call (c : nat) (x : wakeCall) (s : WakeGate) : WakeGate :=
  mkGate (inflight s) (<[c := x]> (calls s)) (next s) (cap s) (ttl s).

(** The head of Wait: join the call in flight, or start one as its leader. *)
Definition enter (s : WakeGate) (appID : string) : (gate_error + nat * bool) * WakeGate :=
  match inflight s !! appID ≫= λ c, (c,.) <$> calls s !! c with
  | Some (c, x) =>
      if cap s <=? waiters x then (inl ErrQueueFull, s)
      else (inr (c, false), set_call c (mkCall (app x) (done x) (err x) (waiters x +! 1) (completed x)) s)
  | None =>
      (inr (next s, true),
       mkGate (<[appID := next s]> (inflight s)) (<[next s := mkCall appID false None 1 false]> (calls s))
              (S (next s)) (cap s) (ttl s))
  end.

(** [call.err = e; call.completed = true] and [close(call.done)]. *)
Definition complete (s : WakeGate) (c : nat) (e : option gate_error) : WakeGate :=
  match calls s !! c with
  | None => s
  | Some x => set_call c (mkCall (app x) (done x) e (waiters x) true) s
  end.

Definition close (s : WakeGate) (c : nat) : WakeGate :=
  match calls s !! c with
  | None => s
  | Some x => set_call c (mkCall (app x) true (err x) (waiters x) (completed x)) s
  end.

(** [None]: neither the call nor the caller's context is done. *)
Definition await (s : WakeGate) (c : nat) (cancelled : bool) : option (option gate_error) :=
  match calls s !! c with
  | None => None
  | Some x => if cancelled then Some (Some ErrContext) else if done x then Some (err x) else None
  end.

Definition release (s : WakeGate) (appID : string) (c : nat) : WakeGate :=
  match calls s !! c with
  | None => s
  | Some x =>
      let w := waiters x -! 1 in
      let s := set_call c (mkCall (app x) (done x) (err x) w (completed x)) s in
      if completed x && (w =? 0)
      then mkGate (delete appID (inflight s)) (calls s) (next s) (cap s) (ttl s) else s
  end.

Definition InflightWaiters (s : WakeGate) (appID : string) : Z :=
  match inflight s !! appID ≫= (calls s !!.) with Some x => waiters x | None => 0 end.

Definition InflightFollowers (s : WakeGate) (appID : string) : Z :=
  match inflight s !! appID ≫= (calls s !!.) with
  | Some x => if 0 <? waiters x then waiters x -! 1 else 0
  | None => 0
  end.

(** The predicates coldStart passes; [healthy] is the backend's HealthyCount at the call. *)
Definition shouldWake (healthy maxConcurrency : Z) : bool := healthy <? maxConcurrency.

Definition shouldAbort (s : WakeGate) (appID : string) (healthy : Z) : bool :=
  (InflightFollowers s appID =? 0) && (healthy =? 0).

(** ** The goroutines *)

Inductive thread :=
| Deciding (c : nat)                              (* leader, before shouldWake *)
| Skipping (c : nat)                              (* leader without a wake, before close *)
| Awaiting (c : nat) (skip : bool)                (* skip: the result is dropped, Wait returns nil *)
| Releasing (c : nat) (res : option gate_error)
| Returned (c : nat) (res : option gate_error)
| Refused.                                        (* ErrQueueFull *)

Inductive phase := Selecting | Marked | Closed.

(** The detached goroutine of a call: when it started, what ensure returned ([None]: it still runs),
    whether the poller has closed abortCh, and where the goroutine is. *)
Record run := mkRun {
  started : Time;
  ens : option (option gate_error);
  fired : bool;
  at_phase : phase;
}.

Record state := mkState {
  gate : WakeGate;
  threads : gmap nat thread;
  runs : gmap nat run;
}.

Inductive action :=
| AEnter (g : nat) (appID : string)
| ADecide (g : nat) (wake : bool) (now : Time)
| AClose (g : nat)
| AAwait (g : nat) (cancelled : bool)
| ARelease (g : nat)
| GEnsure (c : nat) (e : option gate_error)
| GPoll (c : nat) (now : Time) (healthy : Z)
| GSelect (c : nat) (abort : bool)
| GClose (c : nat).

Definition app_of (s : state) (c : nat) : string :=
  match calls (gate s) !! c with Some x => app x | None => EmptyString end.

(** The steps of a request inside Wait. *)
Definition exec_wait (s : state) (a : action) : option state :=
  match a with
  | AEnter g appID =>
      match threads s !! g with
      | Some _ => None
      | None =>
          match enter (gate s) appID with
          | (inl _, k) => Some (mkState k (<[g := Refused]> (threads s)) (runs s))
          | (inr (c, true), k) => Some (mkState k (<[g := Deciding c]> (threads s)) (runs s))
          | (inr (c, false), k) => Some (mkState k (<[g := Awaiting c false]> (threads s)) (runs s))
          end
      end
  | ADecide g wake now =>
      match threads s !! g with
      | Some (Deciding c) =>
          if wake
          then Some (mkState (gate s) (<[g := Awaiting c false]> (threads s))
                             (<[c := mkRun now None false Selecting]> (runs s)))
          else Some (mkState (complete (gate s) c None) (<[g := Skipping c]> (threads s)) (runs s))
      | _ => None
      end
  | AClose g =>
      match threads s !! g with
      | Some (Skipping c) => Some (mkState (close (gate s) c) (<[g := Awaiting c true]> (threads s)) (runs s))
      | _ => None
      end
  | AAwait g cancelled =>
      match threads s !! g with
      | Some (Awaiting c skip) =>
          r ← await (gate s) c cancelled;
          Some (mkState (gate s) (<[g := Releasing c (if skip then None else r)]> (threads s)) (runs s))
      | _ => None
      end
  | ARelease g =>
      match threads s !! g with
      | Some (Releasing c r) =>
          Some (mkState (release (gate s) (app_of s c) c) (<[g := Returned c r]> (threads s)) (runs s))
      | _ => None
      end
  | _ => None
  end.

(** The steps of the detached goroutine of call [c] and of the two goroutines it starts.  The branch
    taken when the TTL expires waits for ensure as well, so it ends like the first branch of [GSelect];
    a poller whose tick and whose expiry are both ready may still fire. *)
Definition exec_run (s : state) (a : action) : option state :=
  match a with
  | GEnsure c e =>
      r ← runs s !! c;
      match ens r with
      | Some _ => None
      | None => Some (mkState (gate s) (threads s) (<[c := mkRun (started r) (Some e) (fired r) (at_phase r)]> (runs s)))
      end
  | GPoll c now healthy =>
      r ← runs s !! c;
      match at_phase r with
      | Selecting =>
          if (Second <=? now - started r) && shouldAbort (gate s) (app_of s c) healthy
          then Some (mkState (gate s) (threads s) (<[c := mkRun (started r) (ens r) true Selecting]> (runs s)))
          else None
      | _ => None
      end
  | GSelect c abort =>
      r ← runs s !! c;
      match at_phase r with
      | Selecting =>
          e ← (if abort then if fired r then Some (Some ErrBootstrapAborted) else None else ens r);
          Some (mkState (complete (gate s) c e) (threads s) (<[c := mkRun (started r) (ens r) (fired r) Marked]> (runs s)))
      | _ => None
      end
  | GClose c =>
      r ← runs s !! c;
      match at_phase r with
      | Marked => Some (mkState (close (gate s) c) (threads s) (<[c := mkRun (started r) (ens r) (fired r) Closed]> (runs s)))
      | _ => None
      end
  | _ => None
  end.

Definition exec (s : state) (a : action) : option state :=
  match a with
  | GEnsure _ _ | GPoll _ _ _ | GSelect _ _ | GClose _ => exec_run s a
  | _ => exec_wait s a
  end.

Definition init (capacity : Z) (t : Duration) : state := mkState (NewWakeGate capacity t) ∅ ∅.

Fixpoint exec_all (s : state) (tr : list action) : option state :=
  match tr with
  | [] => Some s
  | a :: tr => s' ← exec s a; exec_all s' tr
  end.

Inductive step : state → state → Prop :=
| step_exec a s s' : exec s a = Some s' → step s s'.

Definition reach (s : state) : Prop := ∃ capacity t, capacity < 2 ^ 62 ∧ rtc step (init capacity t) s.

(** ** The invariant

    Every call is described by what concerns it alone: its record, the entry of its app, its detached
    goroutine, and the threads that refer to it. *)

Definition call_of (t : thread) : option nat :=
  match t with
  | Deciding c | Skipping c | Awaiting c _ | Releasing c _ | Returned c _ => Some c
  | Refused => None
  end.

Definition holds (t : thread) : bool :=
  match t with Deciding _ | Skipping _ | Awaiting _ _ | Releasing _ _ => true | _ => false end.

Definition leads (t : thread) : bool :=
  match t with Deciding _ | Skipping _ => true | _ => false end.

Definition result (t : thread) : option (option gate_error) :=
  match t with Releasing _ r | Returned _ r => Some r | _ => None end.

Definition view (c : nat) (T : gmap nat thread) : gmap nat thread :=
  filter (λ gt, call_of gt.2 = Some c) T.

(** What the detached goroutine may have written. *)
Definition produced (r : run) (e : option gate_error) : Prop :=
  (fired r = true ∧ e = Some ErrBootstrapAborted) ∨ ens r = Some e.

Definition no_leader (V : gmap nat thread) : Prop := ∀ g t, V !! g = Some t → leads t = false.

Definition only_leader (V : gmap nat thread) (g : nat) (t : thread) : Prop :=
  V !! g = Some t ∧ ∀ g' t', V !! g' = Some t' → leads t' = true → g' = g.

Inductive stage (c : nat) (x : wakeCall) (V : gmap nat thread) : option run → Prop :=
| stage_deciding g :
    completed x = false → done x = false → err x = None → only_leader V g (Deciding c) →
    stage c x V None
| stage_skipping g :
    completed x = true → done x = false → err x = None → only_leader V g (Skipping c) →
    stage c x V None
| stage_skipped :
    completed x = true → done x = true → err x = None → no_leader V → stage c x V None
| stage_selecting r :
    at_phase r = Selecting → completed x = false → done x = false → err x = None → no_leader V →
    stage c x V (Some r)
| stage_marked r :
    at_phase r = Marked → completed x = true → done x = false → produced r (err x) → no_leader V →
    stage c x V (Some r)
| stage_closed r :
    at_phase r = Closed → completed x = true → done x = true → produced r (err x) → no_leader V →
    stage c x V (Some r).

Record call_ok (c : nat) (k : Z) (entry : option nat) (x : wakeCall) (o : option run)
    (V : gmap nat thread) : Prop := {
  ok_wait : waiters x = map_count holds V;
  ok_cap : waiters x ≤ k;
  ok_entry : 0 < waiters x ∨ completed x = false → entry = Some c;
  ok_stage : stage c x V o;
  ok_got g t res : V !! g = Some t → result t = Some res →
    res = Some ErrContext ∨ (done x = true ∧ res = err x);
  ok_skip g c' : V !! g = Some (Awaiting c' true) → done x = true ∧ err x = None;
}.

Record Inv (s : state) : Prop := {
  i_capacity : 1 ≤ cap (gate s) < 2 ^ 62;
  i_next c x : calls (gate s) !! c = Some x → (c < next (gate s))%nat;
  i_flight a c : inflight (gate s) !! a = Some c → ∃ x, calls (gate s) !! c = Some x ∧ app x = a;
  i_thread g t c : threads s !! g = Some t → call_of t = Some c → is_Some (calls (gate s) !! c);
  i_run c r : runs s !! c = Some r → is_Some (calls (gate s) !! c);
  i_call c x : calls (gate s) !! c = Some x →
    call_ok c (cap (gate s)) (inflight (gate s) !! app x) x (runs s !! c) (view c (threads s));
}.

Lemma gate_init_inv capacity t : capacity < 2 ^ 62 → Inv (init capacity t).
Proof.
  intros Hc. constructor; simpl; intros *; rewrite ?lookup_empty; try done.
  destruct (capacity <? 1) eqn:E; breflect; lia.
Qed.

(** ** Views *)

Lemma view_lookup c T g t : view c T !! g = Some t ↔ T !! g = Some t ∧ call_of t = Some c.
Proof. unfold view. by rewrite map_lookup_filter_Some. Qed.

Lemma view_insert c T g t : call_of t = Some c → view c (<[g := t]> T) = <[g := t]> (view c T).
Proof. intros. unfold view. by rewrite map_filter_insert_True. Qed.

Lemma view_insert_ne c T g t :
  call_of t ≠ Some c → (∀ u, T !! g = Some u → call_of u ≠ Some c) →
  view c (<[g := t]> T) = view c T.
Proof.
  intros Ht Hu. unfold view. rewrite map_filter_insert_False, map_filter_delete by done.
  apply delete_id. rewrite map_lookup_filter_None. right. intros u H. by apply Hu.
Qed.

Lemma gate_count_new g t (V : gmap nat thread) :
  V !! g = None → map_count holds (<[g := t]> V) = (if holds t then 1 else 0) + map_count holds V.
Proof. intros Hg. unfold map_count. by rewrite map_sum_insert. Qed.

Lemma count_move g t t' (V : gmap nat thread) :
  V !! g = Some t →
  map_count holds (<[g := t']> V) = map_count holds V - (if holds t then 1 else 0) + (if holds t' then 1 else 0).
Proof. intros Hg. unfold map_count. by rewrite (map_sum_update _ _ _ t). Qed.

Lemma no_leader_insert V g t : no_leader V → leads t = false → no_leader (<[g := t]> V).
Proof. intros HV Ht g' t' [[_ <-]|[_ H]]%lookup_insert_Some; [done|by eapply HV]. Qed.

Lemma only_leader_insert V g t g' t' :
  only_leader V g t → leads t' = false → g' ≠ g → only_leader (<[g' := t']> V) g t.
Proof.
  intros [Hg Hu] Ht Hne. split; [by rewrite lookup_insert_ne|].
  intros g0 t0 [[<- <-]|[_ H]]%lookup_insert_Some Hl; [congruence|by eapply Hu].
Qed.

Lemma only_leader_done V g t t' : only_leader V g t → leads t' = false → no_leader (<[g := t']> V).
Proof.
  intros [Hg Hu] Ht g0 t0 [[_ <-]|[Hne H]]%lookup_insert_Some; [done|].
  destruct (leads t0) eqn:E; [|done]. by destruct (Hne (eq_sym (Hu _ _ H E))).
Qed.

Lemma only_leader_next V g t t' : only_leader V g t → only_leader (<[g := t']> V) g t'.
Proof.
  intros [Hg Hu]. split; [by rewrite lookup_insert_eq|].
  intros g0 t0 [[<- _]|[_ H]]%lookup_insert_Some Hl; [done|by eapply Hu].
Qed.

(** ** Preservation *)

(** A step that touches one existing call: its record, possibly dropping its entry, the threads and the
    goroutine that belong to it. *)
Lemma update_inv s c x x' fl T' R' :
  Inv s → calls (gate s) !! c = Some x → app x' = app x →
  (∀ a, fl !! a = inflight (gate s) !! a ∨ inflight (gate s) !! a = Some c ∧ fl !! a = None) →
  (∀ c0, c0 ≠ c → view c0 T' = view c0 (threads s) ∧ R' !! c0 = runs s !! c0) →
  call_ok c (cap (gate s)) (fl !! app x) x' (R' !! c) (view c T') →
  Inv (mkState (mkGate fl (<[c := x']> (calls (gate s))) (next (gate s)) (cap (gate s)) (ttl (gate s))) T' R').
Proof.
  intros Hi Hx Happ Hfl Hother Hok. constructor; simpl.
  - apply (i_capacity s Hi).
  - intros c0 y [[<- _]|[_ Hy]]%lookup_insert_Some; by eapply (i_next s Hi).
  - intros a c0 Hc0. assert (inflight (gate s) !! a = Some c0) as Hin by (destruct (Hfl a) as [<-|[_ ?]]; congruence).
    destruct (i_flight s Hi a c0 Hin) as (y & Hy & <-).
    destruct (decide (c = c0)) as [<-|]; [|exists y; by rewrite lookup_insert_ne].
    simplify_eq. exists x'. by rewrite lookup_insert_eq.
  - intros g t c0 Ht Hc. rewrite lookup_insert_is_Some'. destruct (decide (c0 = c)) as [->|Hne]; [by left|right].
    destruct (Hother c0 Hne) as [Hv _]. assert (view c0 T' !! g = Some t) as Hvt by by rewrite view_lookup.
    rewrite Hv, view_lookup in Hvt. destruct Hvt. by eapply (i_thread s Hi).
  - intros c0 r Hr. rewrite lookup_insert_is_Some'. destruct (decide (c0 = c)) as [->|Hne]; [by left|right].
    destruct (Hother c0 Hne) as [_ HR]. rewrite HR in Hr. by eapply (i_run s Hi).
  - intros c0 y [[<- <-]|[Hne Hy]]%lookup_insert_Some; [by rewrite Happ|].
    destruct (Hother c0 (not_eq_sym Hne)) as [-> ->].
    destruct (i_call s Hi c0 y Hy) as [? ? He ? ? ?]. constructor; try done.
    intros Hb. specialize (He Hb). destruct (Hfl (app y)) as [->|[? _]]; [done|congruence].
Qed.

Lemma gate_waiters_range s c x : Inv s → calls (gate s) !! c = Some x → 0 ≤ waiters x < 2 ^ 62.
Proof.
  intros Hi Hx. destruct (i_call s Hi c x Hx). pose proof (map_count_nonneg holds (view c (threads s))).
  pose proof (i_capacity s Hi). lia.
Qed.

(** The step of one thread of the call. *)
Lemma move_inv s c x x' fl g t' R' :
  Inv s → calls (gate s) !! c = Some x → app x' = app x →
  (∀ a, fl !! a = inflight (gate s) !! a ∨ inflight (gate s) !! a = Some c ∧ fl !! a = None) →
  (∀ u, threads s !! g = Some u → call_of u = Some c) → call_of t' = Some c →
  (∀ c0, c0 ≠ c → R' !! c0 = runs s !! c0) →
  call_ok c (cap (gate s)) (fl !! app x) x' (R' !! c) (<[g := t']> (view c (threads s))) →
  Inv (mkState (mkGate fl (<[c := x']> (calls (gate s))) (next (gate s)) (cap (gate s)) (ttl (gate s)))
               (<[g := t']> (threads s)) R').
Proof.
  intros Hi Hx Happ Hfl Hu Ht' HR Hok. eapply update_inv; eauto.
  - intros c0 Hne. split; [|by apply HR]. apply view_insert_ne; [congruence|].
    intros u H%Hu. congruence.
  - by rewrite view_insert.
Qed.

(** The step of its detached goroutine. *)
Lemma goroutine_inv s c x x' r' :
  Inv s → calls (gate s) !! c = Some x → app x' = app x →
  call_ok c (cap (gate s)) (inflight (gate s) !! app x) x' (Some r') (view c (threads s)) →
  Inv (mkState (set_call c x' (gate s)) (threads s) (<[c := r']> (runs s))).
Proof.
  intros Hi Hx Happ Hok. eapply update_inv; eauto.
  - intros c0 Hne. by rewrite lookup_insert_ne.
  - by rewrite lookup_insert_eq.
Qed.

Lemma set_call_id c x k : calls k !! c = Some x → set_call c x k = k.
Proof. intros Hx. unfold set_call. rewrite insert_id by done. by destruct k. Qed.

Lemma fresh_ok a c k g : 1 ≤ k →
  call_ok c k (Some c) (mkCall a false None 1 false) None {[g := Deciding c]}.
Proof.
  intros Hk. constructor; simpl; try done.
  - rewrite <- insert_empty, gate_count_new by apply lookup_empty. by rewrite map_count_zero.
  - apply (stage_deciding _ _ _ g); try done. split; [by rewrite lookup_singleton_eq|].
    by intros g' t' [-> <-]%lookup_singleton_Some.
  - intros g' t res [_ <-]%lookup_singleton_Some. done.
  - intros g' c' [_ ?]%lookup_singleton_Some. done.
Qed.

Lemma unused_view s c : Inv s → calls (gate s) !! c = None → view c (threads s) = ∅.
Proof.
  intros Hi Hc. apply map_empty. intros g. destruct (view c (threads s) !! g) as [t|] eqn:E; [|done].
  apply view_lookup in E as [Ht Hcall]. destruct (i_thread s Hi g t c Ht Hcall). congruence.
Qed.

Lemma gate_fresh_inv s g a :
  Inv s → threads s !! g = None → inflight (gate s) !! a = None →
  let k := gate s in
  Inv (mkState (mkGate (<[a := next k]> (inflight k)) (<[next k := mkCall a false None 1 false]> (calls k))
                       (S (next k)) (cap k) (ttl k))
               (<[g := Deciding (next k)]> (threads s)) (runs s)).
Proof.
  intros Hi Hg Ha k.
  assert (calls k !! next k = None) as Hnew.
  { destruct (calls k !! next k) eqn:E; [|done]. apply (i_next s Hi) in E. unfold k in *. lia. }
  constructor; simpl.
  - apply (i_capacity s Hi).
  - intros c x [[<- _]|[_ Hx]]%lookup_insert_Some; [lia|]. apply (i_next s Hi) in Hx. unfold k in *. lia.
  - intros b c [[<- <-]|[Hb Hc]]%lookup_insert_Some; [eexists; split; [apply lookup_insert_eq|done]|].
    destruct (i_flight s Hi b c Hc) as (x & Hx & <-). exists x. rewrite lookup_insert_ne; [done|].
    intros <-. unfold k in *. congruence.
  - intros g' t c [[_ <-]|[_ Ht]]%lookup_insert_Some Hc; rewrite lookup_insert_is_Some'; simpl in *;
      [left; congruence|right; by eapply (i_thread s Hi)].
  - intros c r Hr. rewrite lookup_insert_is_Some'. right. by eapply (i_run s Hi).
  - intros c x [[<- <-]|[Hne Hx]]%lookup_insert_Some; simpl.
    + rewrite lookup_insert_eq, view_insert, (unused_view s) by done.
      assert (runs s !! next k = None) as ->.
      { destruct (runs s !! next k) eqn:E; [|done]. destruct (i_run s Hi _ _ E). unfold k in *. congruence. }
      apply fresh_ok. apply (i_capacity s Hi).
    + rewrite view_insert_ne by (simpl; congruence). destruct (i_call s Hi c x Hx) as [? ? He ? ? ?].
      constructor; try done. intros Hb. specialize (He Hb). rewrite lookup_insert_ne; [done|].
      intros ->. congruence.
Qed.

(** *** One thread of a call moves *)

Lemma move_ok c k e e' x x' o o' V g t t' :
  call_ok c k e x o V → V !! g = Some t →
  waiters x' = waiters x - (if holds t then 1 else 0) + (if holds t' then 1 else 0) → waiters x' ≤ k →
  (0 < waiters x' ∨ completed x' = false → e' = Some c) →
  (done x = true → done x' = true ∧ err x' = err x) →
  stage c x' (<[g := t']> V) o' →
  (∀ res, result t' = Some res → result t = Some res ∨ res = Some ErrContext ∨ (done x' = true ∧ res = err x')) →
  (∀ c', t' = Awaiting c' true → done x' = true ∧ err x' = None) →
  call_ok c k e' x' o' (<[g := t']> V).
Proof.
  intros Hok Hg Hw Hk He Hd Hst Hres Hskip. constructor; auto.
  - rewrite (count_move _ t) by done. rewrite Hw. by rewrite (ok_wait _ _ _ _ _ _ Hok).
  - assert (∀ g u res, V !! g = Some u → result u = Some res →
              res = Some ErrContext ∨ (done x' = true ∧ res = err x')) as Hold.
    { intros g' u res Hu Hr. destruct (ok_got _ _ _ _ _ _ Hok g' u res Hu Hr) as [?|[Hdx ->]]; [by left|right].
      destruct (Hd Hdx) as [? ->]. done. }
    intros g' u res [[<- <-]|[_ Hu]]%lookup_insert_Some Hr; [|by eapply Hold].
    destruct (Hres res Hr) as [Hr'|?]; [by eapply Hold|done].
  - intros g' c' [[_ Hu]|[_ Hu]]%lookup_insert_Some; [by eapply Hskip|].
    destruct (ok_skip _ _ _ _ _ _ Hok g' c' Hu) as [Hdx He0]. destruct (Hd Hdx) as [? ->]. done.
Qed.

Lemma stage_insert c x x' V o g t :
  stage c x V o → completed x' = completed x → done x' = done x → err x' = err x →
  leads t = false → (∀ u, V !! g = Some u → leads u = false) → stage c x' (<[g := t]> V) o.
Proof.
  intros Hst Hc Hd He Ht Hu.
  assert (∀ g0 u, only_leader V g0 u → leads u = true → g ≠ g0) as Hne.
  { intros g0 u [Hg0 _] Hl ->. specialize (Hu _ Hg0). congruence. }
  destruct Hst; rewrite <- ?Hc, <- ?Hd, <- ?He in *;
    [eapply stage_deciding|eapply stage_skipping|apply stage_skipped|apply stage_selecting|
     apply stage_marked|apply stage_closed];
    eauto using no_leader_insert, only_leader_insert.
Qed.

Lemma stage_deciding_inv c x V o g :
  stage c x V o → V !! g = Some (Deciding c) →
  o = None ∧ completed x = false ∧ done x = false ∧ err x = None ∧ only_leader V g (Deciding c).
Proof.
  intros Hst Hg.
  destruct Hst as [g0 ? ? ? [Hg0 Hu]|g0 ? ? ? [Hg0 Hu]|? ? ? Hn|? ? ? ? ? Hn|? ? ? ? ? Hn|? ? ? ? ? Hn];
    try (specialize (Hn _ _ Hg); done); assert (g = g0) as -> by (by apply (Hu _ _ Hg)); simplify_eq.
  repeat split; done.
Qed.

Lemma stage_skipping_inv c x V o g :
  stage c x V o → V !! g = Some (Skipping c) →
  o = None ∧ completed x = true ∧ done x = false ∧ err x = None ∧ only_leader V g (Skipping c).
Proof.
  intros Hst Hg.
  destruct Hst as [g0 ? ? ? [Hg0 Hu]|g0 ? ? ? [Hg0 Hu]|? ? ? Hn|? ? ? ? ? Hn|? ? ? ? ? Hn|? ? ? ? ? Hn];
    try (specialize (Hn _ _ Hg); done); assert (g = g0) as -> by (by apply (Hu _ _ Hg)); simplify_eq.
  repeat split; done.
Qed.

Lemma stage_run_inv c x V r :
  stage c x V (Some r) →
  no_leader V ∧
  match at_phase r with
  | Selecting => completed x = false ∧ done x = false ∧ err x = None
  | Marked => completed x = true ∧ done x = false ∧ produced r (err x)
  | Closed => completed x = true ∧ done x = true ∧ produced r (err x)
  end.
Proof. by inversion 1; subst; destruct (at_phase r). Qed.

Lemma join_ok c k e x o V g :
  call_ok c k e x o V → V !! g = None → waiters x < k → e = Some c →
  call_ok c k e (mkCall (app x) (done x) (err x) (waiters x + 1) (completed x)) o
          (<[g := Awaiting c false]> V).
Proof.
  intros Hok Hg Hlt ->. destruct Hok as [Hw Hc He Hst Hgot Hskip]. constructor; simpl; auto.
  - rewrite gate_count_new by done. simpl. lia.
  - lia.
  - by eapply stage_insert; eauto; rewrite Hg.
  - intros g' t res [[_ <-]|[_ Ht]]%lookup_insert_Some Hr; [done|by eapply Hgot].
  - intros g' c' [[_ Ht]|[_ Ht]]%lookup_insert_Some; [done|by eapply Hskip].
Qed.

(** The detached goroutine moves, or the record of its call does. *)
Lemma goroutine_ok c k e x r x' r' V :
  call_ok c k e x (Some r) V → waiters x' = waiters x →
  (completed x' = false → completed x = false) →
  (done x = true → done x' = true ∧ err x' = err x) →
  stage c x' V (Some r') → call_ok c k e x' (Some r') V.
Proof.
  intros [Hw Hc He Hst Hgot Hskip] Hw' Hcomp Hd Hst'. constructor; auto.
  - by rewrite Hw'.
  - by rewrite Hw'.
  - rewrite Hw'. intros [?|?]; apply He; auto.
  - intros g t res Ht Hr. destruct (Hgot g t res Ht Hr) as [?|[Hdx ->]]; [by left|right].
    destruct (Hd Hdx) as [? ->]. done.
  - intros g c' Ht. destruct (Hskip g c' Ht) as [Hdx ?]. destruct (Hd Hdx) as [? ->]. done.
Qed.

Lemma entry_kept (m : gmap string nat) (c : nat) :
  ∀ a : string, m !! a = m !! a ∨ m !! a = Some c ∧ m !! a = None.
Proof. by left. Qed.

Lemma refused_inv s g : Inv s → threads s !! g = None →
  Inv (mkState (gate s) (<[g := Refused]> (threads s)) (runs s)).
Proof.
  intros Hi Hg. destruct Hi as [? ? ? Ht ? Hc]. constructor; simpl; auto.
  - intros g' t c [[_ <-]|[_ H]]%lookup_insert_Some ?; [done|by eapply Ht].
  - intros c x Hx. rewrite view_insert_ne by (simpl; congruence). by apply Hc.
Qed.

Lemma gate_enter_inv s g a s' : Inv s → exec s (AEnter g a) = Some s' → Inv s'.
Proof.
  intros Hi. simpl. destruct (threads s !! g) eqn:Hg; [done|]. unfold enter.
  destruct (inflight (gate s) !! a) as [c|] eqn:Hf; simpl; [|intros [= <-]; by apply gate_fresh_inv].
  destruct (i_flight s Hi a c Hf) as (x & Hx & <-). rewrite Hx. simpl.
  destruct (cap (gate s) <=? waiters x) eqn:Ecap; intros [= <-]; breflect; [by apply refused_inv|].
  pose proof (gate_waiters_range s c x Hi Hx). rewrite i64_id by (unfold in_i64; lia).
  eapply move_inv; simpl; eauto using entry_kept; [congruence|].
  apply join_ok; [by apply (i_call s Hi)|apply eq_None_not_Some|lia|done].
  intros [u [Hu _]%view_lookup]. congruence.
Qed.

(** The view of a call through one of its threads. *)
Lemma thread_call s g t c :
  Inv s → threads s !! g = Some t → call_of t = Some c →
  ∃ x, calls (gate s) !! c = Some x ∧ view c (threads s) !! g = Some t ∧
       call_ok c (cap (gate s)) (inflight (gate s) !! app x) x (runs s !! c) (view c (threads s)).
Proof.
  intros Hi Hg Hc. destruct (i_thread s Hi g t c Hg Hc) as [x Hx]. exists x.
  rewrite view_lookup. split; [done|]. split; [done|]. by apply (i_call s Hi).
Qed.

Lemma decide_inv s g wake now s' : Inv s → exec s (ADecide g wake now) = Some s' → Inv s'.
Proof.
  intros Hi. simpl. destruct (threads s !! g) as [[c| | | | |]|] eqn:Hg; try done.
  destruct (thread_call s g _ c Hi Hg eq_refl) as (x & Hx & Hv & Hok).
  destruct (stage_deciding_inv _ _ _ _ g (ok_stage _ _ _ _ _ _ Hok) Hv) as (Ho & Hcomp & Hd & He & Hl).
  pose proof (ok_cap _ _ _ _ _ _ Hok). pose proof (ok_entry _ _ _ _ _ _ Hok) as Hent.
  destruct wake; intros [= <-].
  - rewrite <- (set_call_id c x (gate s) Hx). eapply move_inv; simpl; eauto using entry_kept.
    + intros u Hu. by simplify_eq.
    + intros c0 Hne. by rewrite lookup_insert_ne.
    + rewrite lookup_insert_eq. eapply move_ok; eauto; simpl; try done; try lia.
      apply stage_selecting; eauto using only_leader_done.
  - unfold complete. rewrite Hx. eapply move_inv; simpl; eauto using entry_kept.
    + intros u Hu. by simplify_eq.
    + eapply move_ok; eauto; simpl; try done; try lia; try congruence.
      rewrite Ho. eapply stage_skipping; eauto using only_leader_next.
Qed.

Lemma close_inv s g s' : Inv s → exec s (AClose g) = Some s' → Inv s'.
Proof.
  intros Hi. simpl. destruct (threads s !! g) as [[|c| | | |]|] eqn:Hg; try done. intros [= <-].
  destruct (thread_call s g _ c Hi Hg eq_refl) as (x & Hx & Hv & Hok).
  destruct (stage_skipping_inv _ _ _ _ g (ok_stage _ _ _ _ _ _ Hok) Hv) as (Ho & Hcomp & Hd & He & Hl).
  pose proof (ok_cap _ _ _ _ _ _ Hok). pose proof (ok_entry _ _ _ _ _ _ Hok) as Hent.
  unfold close. rewrite Hx. eapply move_inv; simpl; eauto using entry_kept; [intros u Hu; by simplify_eq|].
  eapply move_ok; eauto; simpl; try done; try lia.
  rewrite Ho. eapply stage_skipped; eauto using only_leader_done.
Qed.

Lemma await_inv s g cancelled s' : Inv s → exec s (AAwait g cancelled) = Some s' → Inv s'.
Proof.
  intros Hi. simpl. destruct (threads s !! g) as [[| |c skip| | |]|] eqn:Hg; try done.
  destruct (thread_call s g _ c Hi Hg eq_refl) as (x & Hx & Hv & Hok).
  pose proof (ok_cap _ _ _ _ _ _ Hok). unfold await. rewrite Hx.
  destruct (if cancelled then _ else _) as [r|] eqn:Hr; [|done]. intros [= <-].
  rewrite <- (set_call_id c x (gate s) Hx) at 1.
  eapply move_inv; simpl; eauto using entry_kept; [intros u Hu; by simplify_eq|].
  eapply move_ok; eauto; simpl; try done; try lia; [by apply (ok_entry _ _ _ _ _ _ Hok)| |].
  - eapply stage_insert; [apply (ok_stage _ _ _ _ _ _ Hok)|done..|]. rewrite Hv. by intros ? [= <-].
  - intros res [= <-]. right. destruct skip.
    + right. destruct (ok_skip _ _ _ _ _ _ Hok g c Hv) as [? ->]. done.
    + destruct cancelled; [left; congruence|]. destruct (done x); [right; split; congruence|done].
Qed.

Lemma gate_release_inv s g s' : Inv s → exec s (ARelease g) = Some s' → Inv s'.
Proof.
  intros Hi. simpl. destruct (threads s !! g) as [[| | |c r| |]|] eqn:Hg; try done. intros [= <-].
  destruct (thread_call s g _ c Hi Hg eq_refl) as (x & Hx & Hv & Hok).
  pose proof (ok_cap _ _ _ _ _ _ Hok). pose proof (gate_waiters_range s c x Hi Hx).
  assert (0 < waiters x) as Hpos.
  { rewrite (ok_wait _ _ _ _ _ _ Hok). pose proof (map_count_elem holds _ g _ Hv eq_refl). lia. }
  pose proof (ok_entry _ _ _ _ _ _ Hok (or_introl Hpos)) as Hent.
  unfold release, app_of. rewrite Hx.
  assert (waiters x -! 1 = waiters x - 1) as -> by (apply i64_id; unfold in_i64; lia).
  assert (∀ e, (0 < waiters x - 1 ∨ completed x = false → e = Some c) →
    call_ok c (cap (gate s)) e (mkCall (app x) (done x) (err x) (waiters x - 1) (completed x)) (runs s !! c)
      (<[g := Returned c r]> (view c (threads s)))) as Hgen.
  { intros e He. eapply move_ok; eauto; simpl; try done; try lia; auto.
    eapply stage_insert; [apply (ok_stage _ _ _ _ _ _ Hok)|done..|]. rewrite Hv. by intros ? [= <-]. }
  destruct (completed x && (waiters x - 1 =? 0)) eqn:E; unfold set_call; simpl.
  - apply (move_inv s c x); simpl; auto; [|intros u Hu; by simplify_eq|].
    + intros a. destruct (decide (a = app x)) as [->|Hne]; [right|left].
      * by rewrite lookup_delete_eq.
      * by rewrite lookup_delete_ne.
    + rewrite lookup_delete_eq. apply Hgen. breflect. intros [?|?]; [lia|congruence].
  - apply (move_inv s c x); simpl; auto. intros u Hu; by simplify_eq.
Qed.

Lemma run_call s c r :
  Inv s → runs s !! c = Some r →
  ∃ x, calls (gate s) !! c = Some x ∧
       call_ok c (cap (gate s)) (inflight (gate s) !! app x) x (Some r) (view c (threads s)).
Proof.
  intros Hi Hr. destruct (i_run s Hi c r Hr) as [x Hx]. exists x. split; [done|].
  rewrite <- Hr. by apply (i_call s Hi).
Qed.

Lemma ensure_inv s c e s' : Inv s → exec s (GEnsure c e) = Some s' → Inv s'.
Proof.
  intros Hi. simpl. destruct (runs s !! c) as [r|] eqn:Hr; simpl; [|done].
  destruct (ens r) eqn:He; [done|]. intros [= <-].
  destruct (run_call s c r Hi Hr) as (x & Hx & Hok). rewrite <- (set_call_id c x (gate s) Hx).
  eapply goroutine_inv; eauto. eapply goroutine_ok; eauto.
  assert (∀ o, produced r o → produced (mkRun (started r) (Some e) (fired r) (at_phase r)) o) as Hp
    by (intros o [?|?]; [by left|congruence]).
  destruct (stage_run_inv _ _ _ _ (ok_stage _ _ _ _ _ _ Hok)) as [Hn Hs].
  destruct (at_phase r) eqn:E; destruct Hs as (? & ? & ?);
    [apply stage_selecting|apply stage_marked|apply stage_closed]; auto.
Qed.

Lemma poll_inv s c now h s' : Inv s → exec s (GPoll c now h) = Some s' → Inv s'.
Proof.
  intros Hi. simpl. destruct (runs s !! c) as [r|] eqn:Hr; simpl; [|done].
  destruct (at_phase r) eqn:Hp; try done. destruct (_ && _); [|done]. intros [= <-].
  destruct (run_call s c r Hi Hr) as (x & Hx & Hok). rewrite <- (set_call_id c x (gate s) Hx).
  eapply goroutine_inv; eauto. eapply goroutine_ok; eauto.
  destruct (stage_run_inv _ _ _ _ (ok_stage _ _ _ _ _ _ Hok)) as [Hn Hs]. rewrite Hp in Hs.
  destruct Hs as (? & ? & ?). by apply stage_selecting.
Qed.

Lemma select_inv s c abort s' : Inv s → exec s (GSelect c abort) = Some s' → Inv s'.
Proof.
  intros Hi. simpl. destruct (runs s !! c) as [r|] eqn:Hr; simpl; [|done].
  destruct (at_phase r) eqn:Hp; try done.
  destruct (if abort then _ else _) as [e|] eqn:He; simpl; [|done]. intros [= <-].
  destruct (run_call s c r Hi Hr) as (x & Hx & Hok).
  destruct (stage_run_inv _ _ _ _ (ok_stage _ _ _ _ _ _ Hok)) as [Hn Hs]. rewrite Hp in Hs.
  destruct Hs as (? & Hd & ?). unfold complete. rewrite Hx.
  eapply goroutine_inv; eauto. eapply goroutine_ok; eauto; simpl; [congruence|].
  apply stage_marked; auto. simpl. destruct abort; [|by right].
  destruct (fired r) eqn:Hf; simplify_eq. by left.
Qed.

Lemma gclose_inv s c s' : Inv s → exec s (GClose c) = Some s' → Inv s'.
Proof.
  intros Hi. simpl. destruct (runs s !! c) as [r|] eqn:Hr; simpl; [|done].
  destruct (at_phase r) eqn:Hp; try done. intros [= <-].
  destruct (run_call s c r Hi Hr) as (x & Hx & Hok).
  destruct (stage_run_inv _ _ _ _ (ok_stage _ _ _ _ _ _ Hok)) as [Hn Hs]. rewrite Hp in Hs.
  destruct Hs as (? & Hd & ?). unfold close. rewrite Hx.
  eapply goroutine_inv; eauto. eapply goroutine_ok; eauto. by apply stage_closed.
Qed.

Lemma gate_exec_inv s a s' : Inv s → exec s a = Some s' → Inv s'.
Proof.
  destruct a; eauto using gate_enter_inv, decide_inv, close_inv, await_inv, gate_release_inv,
    ensure_inv, poll_inv, select_inv, gclose_inv.
Qed.

Lemma gate_reach_inv s : reach s → Inv s.
Proof.
  intros (k & t & Hk & Hr). remember (init k t) as s0 eqn:E.
  assert (Inv s0) as Hi by (subst; by apply gate_init_inv). clear E Hk.
  induction Hr as [|s1 s2 s3 [a ? ? Ha] _ IH]; [done|]. apply IH. by eapply gate_exec_inv.
Qed.

Lemma gate_exec_all_reach k t tr s : k < 2 ^ 62 → exec_all (init k t) tr = Some s → reach s.
Proof.
  intros Hk H. exists k, t. split; [done|]. revert H. generalize (init k t).
  induction tr as [|a tr IH]; simpl; intros s0 H; [simplify_eq; constructor|].
  destruct (exec s0 a) as [s1|] eqn:E; [|done]. simpl in H.
  eapply rtc_l; [by econstructor|by apply IH].
Qed.

(** ** Single flight *)

Lemma holder_entry s g t c :
  Inv s → threads s !! g = Some t → holds t = true → call_of t = Some c →
  inflight (gate s) !! app_of s c = Some c.
Proof.
  intros Hi Hg Hh Hc. destruct (thread_call s g t c Hi Hg Hc) as (x & Hx & Hv & Hok).
  unfold app_of. rewrite Hx. apply (ok_entry _ _ _ _ _ _ Hok). left.
  rewrite (ok_wait _ _ _ _ _ _ Hok). pose proof (map_count_elem holds _ g t Hv Hh). lia.
Qed.

Lemma running_entry s c r :
  Inv s → runs s !! c = Some r → at_phase r = Selecting → inflight (gate s) !! app_of s c = Some c.
Proof.
  intros Hi Hr Hp. destruct (run_call s c r Hi Hr) as (x & Hx & Hok).
  unfold app_of. rewrite Hx. apply (ok_entry _ _ _ _ _ _ Hok). right.
  destruct (stage_run_inv _ _ _ _ (ok_stage _ _ _ _ _ _ Hok)) as [_ Hs]. rewrite Hp in Hs. tauto.
Qed.

(** The requests of an app that are inside Wait. *)
Definition parked (s : state) (a : string) (t : thread) : bool :=
  holds t && match call_of t with Some c => bool_decide (app_of s c = a) | None => false end.

Lemma count_view (P : thread → bool) c (T : gmap nat thread) :
  (∀ g t, T !! g = Some t → P t = holds t && bool_decide (call_of t = Some c)) →
  map_count P T = map_count holds (view c T).
Proof.
  induction T as [|g t T Hg IH] using map_ind; intros HP; [done|].
  assert (map_count P T = map_count holds (view c T)) as IH'.
  { apply IH. intros g' t' Ht'. apply (HP g'). rewrite lookup_insert_ne; [done|]. intros ->. congruence. }
  assert (view c T !! g = None) as Hv by (apply map_lookup_filter_None; by left).
  unfold map_count at 1. rewrite map_sum_insert by done. fold (map_count P T). rewrite IH'.
  rewrite (HP g t) by apply lookup_insert_eq. destruct (decide (call_of t = Some c)) as [Hc|Hc].
  - rewrite view_insert, gate_count_new, bool_decide_true, andb_true_r by done. done.
  - rewrite view_insert_ne, bool_decide_false, andb_false_r by (done || congruence). done.
Qed.

Lemma waiters_parked s a : Inv s → InflightWaiters (gate s) a = map_count (parked s a) (threads s).
Proof.
  intros Hi. unfold InflightWaiters.
  assert (∀ g t c, threads s !! g = Some t → holds t = true → call_of t = Some c → app_of s c = a →
            inflight (gate s) !! a = Some c) as Hh by (intros g t c ? ? ? <-; by eapply holder_entry).
  destruct (inflight (gate s) !! a) as [c|] eqn:Hf; simpl.
  - destruct (i_flight s Hi a c Hf) as (x & Hx & Ha). rewrite Hx.
    rewrite (ok_wait _ _ _ _ _ _ (i_call s Hi c x Hx)). symmetry. apply count_view.
    intros g t Ht. unfold parked. destruct (holds t) eqn:E; [simpl|done].
    destruct (call_of t) as [c'|] eqn:Ec; [|done]. apply bool_decide_ext. split; [|intros [= ->]].
    + intros Happ. by rewrite (Hh g t c').
    + unfold app_of. by rewrite Hx.
  - symmetry. apply map_count_zero. intros g t Ht. unfold parked. destruct (holds t) eqn:E; [simpl|done].
    destruct (call_of t) as [c'|] eqn:Ec; [|done]. apply bool_decide_false. intros Happ.
    by specialize (Hh g t c' Ht E Ec Happ).
Qed.

(** C10: The wake gate is a single flight with an exact, bounded queue: in every interleaving at most one
    detached goroutine of an app is still waiting for its ensure; as long as a request is inside Wait
    its call is the app's entry, so every newcomer joins it instead of starting a second wake; and the
    queue depth the gate reports is the number of requests of the app inside Wait, at most the cap. *)
Theorem gate_single_flight s (a : string) :
  reach s →
  (∀ c1 c2 r1 r2, runs s !! c1 = Some r1 → runs s !! c2 = Some r2 →
     at_phase r1 = Selecting → at_phase r2 = Selecting → app_of s c1 = app_of s c2 → c1 = c2) ∧
  (∀ g t c, threads s !! g = Some t → holds t = true → call_of t = Some c →
     inflight (gate s) !! app_of s c = Some c) ∧
  InflightWaiters (gate s) a = map_count (parked s a) (threads s) ∧
  InflightWaiters (gate s) a ≤ cap (gate s).
Proof.
  intros Hi%gate_reach_inv. repeat split.
  - intros c1 c2 r1 r2 H1 H2 P1 P2 Ha. pose proof (running_entry s c1 r1 Hi H1 P1) as E1.
    pose proof (running_entry s c2 r2 Hi H2 P2) as E2. rewrite Ha in E1. congruence.
  - intros g t c. by apply holder_entry.
  - by apply waiters_parked.
  - unfold InflightWaiters. pose proof (i_capacity s Hi).
    destruct (inflight (gate s) !! a) as [c|]; simpl; [|lia].
    destruct (calls (gate s) !! c) as [x|] eqn:Hx; [|lia].
    apply (ok_cap _ _ _ _ _ _ (i_call s Hi c x Hx)).
Qed.

(** What Wait returns is justified: a request that has returned from a call got its own context's
    error, or the outcome the call has recorded once and for all, which is what its ensure returned, or
    the abort after the poller fired, or nil of a leader that found capacity and started no wake. *)
Theorem gate_outcome s g c res :
  reach s → threads s !! g = Some (Returned c res) →
  res = Some ErrContext ∨
  ∃ x, calls (gate s) !! c = Some x ∧ done x = true ∧ err x = res ∧
       match runs s !! c with Some r => produced r res | None => res = None end.
Proof.
  intros Hi%gate_reach_inv Hg. destruct (thread_call s g _ c Hi Hg eq_refl) as (x & Hx & Hv & Hok).
  destruct (ok_got _ _ _ _ _ _ Hok g _ res Hv eq_refl) as [?|[Hd ->]]; [by left|right].
  exists x. repeat split; try done. destruct (ok_stage _ _ _ _ _ _ Hok); try congruence; done.
Qed.

(** ** Progress *)

(** The steps a drain may use: whatever shouldWake answers and whatever ensure returns, with no
    newcomer, no cancellation and no abort. *)
Definition draining (wake : bool) (now : Time) (e : option gate_error) (a : action) : Prop :=
  match a with
  | ADecide _ w n => w = wake ∧ n = now
  | GEnsure _ e' => e' = e
  | AAwait _ cancelled => cancelled = false
  | GSelect _ abort => abort = false
  | AEnter _ _ | GPoll _ _ _ => False
  | AClose _ | ARelease _ | GClose _ => True
  end.

Definition drains (wake : bool) (now : Time) (e : option gate_error) (s : state) (g c n : nat) : Prop :=
  ∃ tr s' res, exec_all s tr = Some s' ∧ Forall (draining wake now e) tr ∧ (length tr ≤ n)%nat ∧
    threads s' !! g = Some (Returned c res).

Section progress.
Context (wake : bool) (now : Time) (e : option gate_error) (g c : nat).

Lemma drains_step s a s' n :
  exec s a = Some s' → draining wake now e a → drains wake now e s' g c n → drains wake now e s g c (S n).
Proof.
  intros Ha Hd (tr & s'' & res & Htr & Hf & Hl & Hg). exists (a :: tr), s'', res. simpl. rewrite Ha. simpl.
  repeat split; auto; lia.
Qed.

Lemma drains_releasing s res : threads s !! g = Some (Releasing c res) → drains wake now e s g c 1.
Proof.
  intros Hg. eexists [ARelease g], _, res. simpl. rewrite Hg. simpl.
  repeat split; [by repeat constructor|lia|apply lookup_insert_eq].
Qed.

Lemma drains_done s x skip :
  threads s !! g = Some (Awaiting c skip) → calls (gate s) !! c = Some x → done x = true →
  drains wake now e s g c 2.
Proof.
  intros Hg Hx Hd. eapply (drains_step _ (AAwait g false)); [|done|].
  - simpl. rewrite Hg. unfold await. by rewrite Hx, Hd.
  - eapply drains_releasing. apply lookup_insert_eq.
Qed.

Lemma drains_skipping s g0 skip :
  Inv s → threads s !! g0 = Some (Skipping c) →
  (g = g0 ∨ threads s !! g = Some (Awaiting c skip)) → drains wake now e s g c 3.
Proof.
  intros Hi Hg0 Hg. destruct (i_thread s Hi g0 _ c Hg0 eq_refl) as [x Hx].
  eapply (drains_step _ (AClose g0)); [simpl; by rewrite Hg0|done|].
  unfold close. rewrite Hx. destruct (decide (g = g0)) as [<-|Hne];
    (eapply drains_done; simpl; [|apply lookup_insert_eq|done]).
  - apply lookup_insert_eq.
  - destruct Hg as [?|Hg]; [done|]. by rewrite lookup_insert_ne.
Qed.

Lemma drains_marked s r x skip :
  threads s !! g = Some (Awaiting c skip) → calls (gate s) !! c = Some x →
  runs s !! c = Some r → at_phase r = Marked → drains wake now e s g c 3.
Proof.
  intros Hg Hx Hr Hp. eapply (drains_step _ (GClose c)); [simpl; rewrite Hr; simpl; by rewrite Hp|done|].
  unfold close. rewrite Hx. eapply drains_done; simpl; [done|apply lookup_insert_eq|done].
Qed.

Lemma drains_ensured s r x o skip :
  threads s !! g = Some (Awaiting c skip) → calls (gate s) !! c = Some x →
  runs s !! c = Some r → at_phase r = Selecting → ens r = Some o → drains wake now e s g c 4.
Proof.
  intros Hg Hx Hr Hp Ho.
  eapply (drains_step _ (GSelect c false)); [simpl; rewrite Hr; simpl; by rewrite Hp, Ho|done|].
  unfold complete. rewrite Hx.
  eapply drains_marked; simpl; [done|apply lookup_insert_eq|apply lookup_insert_eq|done].
Qed.

Lemma drains_selecting s r x skip :
  threads s !! g = Some (Awaiting c skip) → calls (gate s) !! c = Some x →
  runs s !! c = Some r → at_phase r = Selecting → drains wake now e s g c 5.
Proof.
  intros Hg Hx Hr Hp. destruct (ens r) as [o|] eqn:Ho.
  - destruct (drains_ensured s r x o skip) as (tr & s' & res & ? & ? & ? & ?); try done.
    exists tr, s', res. repeat split; try done. lia.
  - eapply (drains_step _ (GEnsure c e)); [simpl; rewrite Hr; simpl; by rewrite Ho|done|].
    eapply drains_ensured; simpl; [done|done|apply lookup_insert_eq|done..].
Qed.

End progress.

Lemma drains_deciding wake now e g c s g0 skip :
  Inv s → threads s !! g0 = Some (Deciding c) →
  (g = g0 ∨ threads s !! g = Some (Awaiting c skip)) → drains wake now e s g c 6.
Proof.
  intros Hi Hg0 Hg. destruct (i_thread s Hi g0 _ c Hg0 eq_refl) as [x Hx].
  assert (∃ s', exec s (ADecide g0 wake now) = Some s') as [s' Hs'].
  { simpl. rewrite Hg0. destruct wake; eauto. }
  pose proof (decide_inv _ _ _ _ _ Hi Hs') as Hi'. eapply drains_step; [done|done|].
  simpl in Hs'. rewrite Hg0 in Hs'. destruct wake; simplify_eq.
  - destruct (decide (g = g0)) as [<-|Hne];
      (eapply drains_selecting; simpl; [|done|apply lookup_insert_eq|done]).
    + apply lookup_insert_eq.
    + destruct Hg as [?|Hg]; [done|]. rewrite lookup_insert_ne by done. exact Hg.
  - destruct (drains_skipping false now e g c _ g0 skip Hi') as (tr & s' & res & ? & ? & ? & ?); simpl.
    + apply lookup_insert_eq.
    + destruct Hg as [?|Hg]; [by left|]. destruct (decide (g = g0)); [by left|right].
      by rewrite lookup_insert_ne.
    + exists tr, s', res. repeat split; try done. lia.
Qed.
Lemma drains_le wake now e s g c n m : drains wake now e s g c n → (n ≤ m)%nat → drains wake now e s g c m.
Proof. intros (tr & s' & res & ? & ? & ? & ?) ?. exists tr, s', res. repeat split; try done. lia. Qed.

(** No request is stranded: from any reachable state, whatever shouldWake answers and whatever ensure
    returns, at most six further steps of the goroutines of its own call, none of them a cancellation,
    an abort or a new arrival, take a request inside Wait to its return. *)
Theorem gate_progress s g t c wake now e :
  reach s → threads s !! g = Some t → holds t = true → call_of t = Some c →
  drains wake now e s g c 6.
Proof.
  intros Hi%gate_reach_inv Hg Hh Hc. destruct (thread_call s g t c Hi Hg Hc) as (x & Hx & Hv & Hok).
  destruct t as [c'|c'|c' skip|c' res|c' res|]; try done; simpl in Hc; injection Hc as ->.
  - eapply (drains_deciding _ _ _ _ _ s g false); eauto.
  - eapply drains_le; [eapply (drains_skipping _ _ _ _ _ s g false)|]; eauto; lia.
  - pose proof (ok_stage _ _ _ _ _ _ Hok) as Hst. remember (runs s !! c) as o eqn:Hr.
    destruct Hst as [g0 ? ? ? [[Hg0 _]%view_lookup _]|g0 ? ? ? [[Hg0 _]%view_lookup _]|? ? ? Hn|r|r|r].
    + eapply drains_deciding; eauto.
    + eapply drains_le; [eapply drains_skipping|]; eauto; lia.
    + eapply drains_le; [by eapply drains_done|lia].
    + eapply drains_le; [by eapply drains_selecting|lia].
    + eapply drains_le; [by eapply drains_marked|lia].
    + eapply drains_le; [by eapply drains_done|lia].
  - eapply drains_le; [by eapply drains_releasing|lia].
Qed.

(** A request that arrives alone is not the orphan the abort is meant for, but gets it: when the wake
    it leads has neither returned nor produced an instance at the first tick, one second after it
    started, the poller sees no follower and the request, still waiting and not cancelled, returns
    ErrBootstrapAborted while its ensure is running. *)
Theorem lone_request_aborted s g a t0 now :
  threads s !! g = None → inflight (gate s) !! a = None → t0 + Second ≤ now →
  let c := next (gate s) in
  ∃ s', exec_all s [AEnter g a; ADecide g (shouldWake 0 1) t0; GPoll c now 0; GSelect c true; GClose c;
                    AAwait g false; ARelease g] = Some s' ∧
        threads s' !! g = Some (Returned c (Some ErrBootstrapAborted)) ∧
        runs s' !! c = Some (mkRun t0 None true Closed).
Proof.
  intros Hg Ha Hnow c.
  assert ((Second <=? now - t0) = true) as Ht by (apply Z.leb_le; lia).
  simpl. rewrite Hg. unfold enter. rewrite Ha. simpl. do 2 (rewrite lookup_insert_eq; simpl).
  unfold shouldAbort, InflightFollowers, app_of. simpl. rewrite Ht. do 3 (rewrite lookup_insert_eq; simpl).
  unfold c, complete, close, await. do 8 (rewrite ?lookup_insert_eq; simpl).
  eexists. split; [done|]. simpl. by rewrite !lookup_insert_eq.
Qed.

(** A request alone in the gate: shouldWake, then ensure, whose result it returns. *)
Lemma lone_request_served s g a t0 e :
  threads s !! g = None → inflight (gate s) !! a = None →
  let c := next (gate s) in
  (∃ s', exec_all s [AEnter g a; ADecide g true t0; GEnsure c e; GSelect c false; GClose c;
                     AAwait g false; ARelease g] = Some s' ∧ threads s' !! g = Some (Returned c e)) ∧
  (∃ s', exec_all s [AEnter g a; ADecide g false t0; AClose g; AAwait g false; ARelease g] = Some s' ∧
         threads s' !! g = Some (Returned c None)).
Proof.
  intros Hg Ha c. split.
  - simpl. rewrite Hg. unfold enter. rewrite Ha. simpl. do 2 (rewrite lookup_insert_eq; simpl).
    unfold c, complete, close, await. do 8 (rewrite ?lookup_insert_eq; simpl).
    eexists. split; [done|]. simpl. by rewrite lookup_insert_eq.
  - simpl. rewrite Hg. unfold enter. rewrite Ha. simpl. rewrite lookup_insert_eq. simpl.
    unfold c, complete, close, await. do 8 (rewrite ?lookup_insert_eq; simpl).
    eexists. split; [done|]. simpl. by rewrite lookup_insert_eq.
Qed.

(** A request alone in the gate whose context ends while its wake runs. *)
Lemma lone_request_cancelled s g a t0 :
  threads s !! g = None → inflight (gate s) !! a = None →
  let c := next (gate s) in
  ∃ s', exec_all s [AEnter g a; ADecide g true t0; AAwait g true; ARelease g] = Some s' ∧
        threads s' !! g = Some (Returned c (Some ErrContext)) ∧ is_Some (runs s' !! c).
Proof.
  intros Hg Ha c. simpl. rewrite Hg. unfold enter. rewrite Ha. simpl. do 2 (rewrite lookup_insert_eq; simpl).
  unfold c, await. do 8 (rewrite ?lookup_insert_eq; simpl).
  eexists. split; [done|]. simpl. rewrite !lookup_insert_eq. eauto.
Qed.

(** A wake whose requests all gave up before it finished leaves its outcome behind: the entry has no
    waiter left to drop it, so the next request joins the finished call, returns what it recorded and
    starts no wake, however long ago that was; only then is the entry gone. *)
Theorem abandoned_outcome_replayed s g a c x :
  reach s → threads s !! g = None → inflight (gate s) !! a = Some c → calls (gate s) !! c = Some x →
  done x = true → waiters x = 0 →
  ∃ s', exec_all s [AEnter g a; AAwait g false; ARelease g] = Some s' ∧
        threads s' !! g = Some (Returned c (err x)) ∧ runs s' = runs s ∧ inflight (gate s') !! a = None.
Proof.
  intros Hi%gate_reach_inv Hg Ha Hx Hd Hw. simpl. rewrite Hg. unfold enter. rewrite Ha. simpl. rewrite Hx. simpl.
  pose proof (i_capacity s Hi). rewrite Hw. destruct (cap (gate s) <=? 0) eqn:E; breflect; [lia|].
  assert (completed x = true) as Hc.
  { destruct (ok_stage _ _ _ _ _ _ (i_call s Hi c x Hx)); congruence. }
  destruct (i_flight s Hi a c Ha) as (x' & Hx' & <-). simplify_eq.
  simpl. rewrite lookup_insert_eq. unfold await. simpl. rewrite lookup_insert_eq. simpl. rewrite Hd. simpl.
  rewrite lookup_insert_eq. simpl. unfold release, app_of. simpl. rewrite !lookup_insert_eq. simpl.
  rewrite Hc. simpl. eexists. split; [done|]. simpl. by rewrite lookup_insert_eq, lookup_delete_eq.
Qed.

(** ** Witnesses *)

(** Two requests to one app: the leader starts a wake, the second request joins it. *)
Definition ex_joined : list action := [AEnter 1 "app"; ADecide 1 true 0; AEnter 2 "app"]%string.

Lemma gate_single_flight_witness :
  ∃ s, exec_all (init 512 0) ex_joined = Some s ∧ InflightWaiters (gate s) "app" = 2 ∧
    2 = map_count (parked s "app") (threads s).
Proof.
  destruct (exec_all (init 512 0) ex_joined) as [s|] eqn:E; [|vm_compute in E; done].
  exists s. split; [done|].
  assert (InflightWaiters (gate s) "app" = 2) as H2 by (vm_compute in E; injection E as <-; reflexivity).
  split; [done|]. rewrite <- H2.
  refine (proj1 (proj2 (proj2 (gate_single_flight s "app" _)))).
  apply (gate_exec_all_reach 512 0 ex_joined); [lia|done].
Defined.

(** The same wake fails, and both requests get its error. *)
Definition ex_failed : list action :=
  ex_joined ++ [GEnsure 0 (Some (ErrEnsure "boom")); GSelect 0 false; GClose 0; AAwait 2 false;
                ARelease 2]%string.

Lemma gate_outcome_witness :
  ∃ s, exec_all (init 512 0) ex_failed = Some s ∧
    (Some (ErrEnsure "boom") = Some ErrContext ∨
     ∃ x, calls (gate s) !! 0%nat = Some x ∧ done x = true ∧ err x = Some (ErrEnsure "boom") ∧
       match runs s !! 0%nat with Some r => produced r (Some (ErrEnsure "boom")) | None => Some (ErrEnsure "boom") = None end).
Proof.
  destruct (exec_all (init 512 0) ex_failed) as [s|] eqn:E; [|vm_compute in E; done].
  exists s. split; [done|]. apply (gate_outcome s 2).
  - apply (gate_exec_all_reach 512 0 ex_failed); [lia|done].
  - vm_compute in E. injection E as <-. reflexivity.
Defined.

Lemma gate_progress_witness :
  ∃ s, exec_all (init 512 0) ex_joined = Some s ∧ drains true 5 None s 2 0 6.
Proof.
  destruct (exec_all (init 512 0) ex_joined) as [s|] eqn:E; [|vm_compute in E; done].
  exists s. split; [done|]. apply (gate_progress s 2 (Awaiting 0 false) 0).
  - apply (gate_exec_all_reach 512 0 ex_joined); [lia|done].
  - vm_compute in E. injection E as <-. reflexivity.
  - reflexivity.
  - reflexivity.
Defined.

Lemma lone_request_aborted_witness :
  ∃ s', exec_all (init 512 0) [AEnter 1 "app"; ADecide 1 (shouldWake 0 1) 0; GPoll 0 Second 0; GSelect 0 true;
                               GClose 0; AAwait 1 false; ARelease 1] = Some s' ∧
        threads s' !! 1%nat = Some (Returned 0 (Some ErrBootstrapAborted)) ∧
        runs s' !! 0%nat = Some (mkRun 0 None true Closed).
Proof.
  apply (lone_request_aborted (init 512 0) 1 "app" 0 Second).
  - reflexivity.
  - reflexivity.
  - lia.
Defined.

(** The only request gives up while its wake runs; the wake fails; a later request is answered. *)
Definition ex_abandoned : list action :=
  [AEnter 1 "app"; ADecide 1 true 0; AAwait 1 true; ARelease 1; GEnsure 0 (Some (ErrEnsure "boom"));
   GSelect 0 false; GClose 0]%string.

Lemma abandoned_outcome_replayed_witness :
  ∃ s s', exec_all (init 512 0) ex_abandoned = Some s ∧
    exec_all s [AEnter 2 "app"; AAwait 2 false; ARelease 2] = Some s' ∧
    threads s' !! 2%nat = Some (Returned 0 (Some (ErrEnsure "boom"))) ∧ runs s' = runs s ∧
    inflight (gate s') !! "app"%string = None.
Proof.
  destruct (exec_all (init 512 0) ex_abandoned) as [s|] eqn:E; [|vm_compute in E; done].
  exists s.
  destruct (abandoned_outcome_replayed s 2 "app" 0
              (mkCall "app" true (Some (ErrEnsure "boom")) 0 true)) as (s' & ? & ? & ? & ?);
    [apply (gate_exec_all_reach 512 0 ex_abandoned); [lia|done]|
     vm_compute in E; injection E as <-; reflexivity..|eauto 10].
Defined.

End Gate.
