(* ===== verification/Picker.v ===== *)
(** * pkg/gateway: the instance picker

    Models PGBackend of src/pkg/gateway/pgbackend.go, the gateway's in-memory view of where an app's
    instances run: the per-deployment target sets, the weighted choice of a deployment, the admission of
    an instance through schedd, evictions and the refresh of the weights; and the part of handler.go
    that uses it for one request (ensureCapacity, coldStart, the pick with its cold-bucket retry).

    The counters are [atomic.Uint64]: [Add(1)-1] reads the old value and wraps at 2^64.  Sums of slice
    lengths, and such a length plus 2^62, are below 2^63 and are kept as integers.  The scope audit map
    that Admit also writes is a test seam no production code reads and is left out. *)

From S2P Require Import Prelude Gate.
#[local] Open Scope go_scope.

Module TargetSet.

Record Target := mkTarget {
  NodeID : string;
  InstanceID : string;
  WakeID : string;
  AddedAt : Time;
  Port : Z;
  DeploymentID : string;
}.

#[export] Instance Target_eq_dec : EqDecision Target.
Proof. solve_decision. Defined.

Record targetSet := mkSet {
  next : Z;
  entries : list Target;
  nodeOrder : list string;
  subCursors : gmap string Z;
}.

Definition empty_set : targetSet := mkSet 0 [] [] ∅.

(** [for i, e := range s.entries { if e.InstanceID == t.InstanceID { s.entries[i] = t; return } }]. *)
Fixpoint overwrite (t : Target) (l : list Target) : option (list Target) :=
  match l with
  | [] => None
  | e :: l =>
      if String.eqb (InstanceID e) (InstanceID t) then Some (t :: l)
      else cons e <$> overwrite t l
  end.

Definition add (s : targetSet) (t : Target) : targetSet :=
  if String.eqb (NodeID t) EmptyString || String.eqb (InstanceID t) EmptyString then s
  else
    match overwrite t (entries s) with
    | Some l => mkSet (next s) l (nodeOrder s) (subCursors s)
    | None =>
        let l := entries s ++ [t] in
        match subCursors s !! NodeID t with
        | Some _ => mkSet (next s) l (nodeOrder s) (subCursors s)
        | None => mkSet (next s) l (nodeOrder s ++ [NodeID t]) (<[NodeID t := 0]> (subCursors s))
        end
    end.

(** The first entry of the instance, and the slice without it. *)
Fixpoint drop_instance (id : string) (l : list Target) : option (string * list Target) :=
  match l with
  | [] => None
  | e :: l =>
      if String.eqb (InstanceID e) id then Some (NodeID e, l)
      else (λ nl, (nl.1, e :: nl.2)) <$> drop_instance id l
  end.

Fixpoint drop_node (n : string) (l : list string) : list string :=
  match l with
  | [] => []
  | m :: l => if String.eqb m n then l else m :: drop_node n l
  end.

Definition on_node (n : string) (e : Target) : bool := String.eqb (NodeID e) n.

Definition remove (s : targetSet) (id : string) : targetSet * Z :=
  let '(removedNode, l) :=
    match drop_instance id (entries s) with
    | Some nl => nl
    | None => (EmptyString, entries s)
    end in
  if String.eqb removedNode EmptyString
  then (mkSet (next s) l (nodeOrder s) (subCursors s), Z.of_nat (length l))
  else if existsb (on_node removedNode) l
  then (mkSet (next s) l (nodeOrder s) (subCursors s), Z.of_nat (length l))
  else (mkSet (next s) l (drop_node removedNode (nodeOrder s)) (delete removedNode (subCursors s)),
        Z.of_nat (length l)).

Definition count_on (s : targetSet) (n : string) : Z := Z.of_nat (length (filter (on_node n) (entries s))).

Definition score (s : targetSet) (warmHint n : string) : Z :=
  let c := count_on s n in
  if negb (String.eqb warmHint EmptyString) && String.eqb n warmHint then c + 2 ^ 62 else c.

(** The scoring loop over nodeOrder, from its running best. *)
Fixpoint best_node (s : targetSet) (warmHint : string) (nodes : list string) (best : string * Z) : string * Z :=
  match nodes with
  | [] => best
  | n :: nodes =>
      let sc := score s warmHint n in
      best_node s warmHint nodes
        (if best.2 <? sc then (n, sc)
         else if (sc =? best.2) && str_ltb n best.1 then (n, best.2) else best)
  end.

Definition pick (s : targetSet) (warmHint : string) : option Target * targetSet :=
  match entries s with
  | [] => (None, s)
  | _ =>
      if (size (subCursors s) =? 1)%nat then
        let idx := next s in
        (entries s !! Z.to_nat (idx mod Z.of_nat (length (entries s))),
         mkSet (u64 (next s + 1)) (entries s) (nodeOrder s) (subCursors s))
      else
        let bestNode := (best_node s warmHint (nodeOrder s) (EmptyString, -1)).1 in
        if String.eqb bestNode EmptyString then (None, s)
        else
          match subCursors s !! bestNode with
          | None => (None, s)
          | Some idx =>
              (filter (on_node bestNode) (entries s) !! Z.to_nat (idx mod count_on s bestNode),
               mkSet (next s) (entries s) (nodeOrder s) (<[bestNode := u64 (idx + 1)]> (subCursors s)))
          end
  end.

(** ** Well-formed sets *)

(** Instances are unique and named, the node order lists exactly the nodes that have one, each once, and
    those are the nodes with a cursor; the counters are 64-bit. *)
Record wf_set (s : targetSet) : Prop := {
  w_ids : NoDup (map InstanceID (entries s));
  w_named e : e ∈ entries s → NodeID e ≠ EmptyString ∧ InstanceID e ≠ EmptyString;
  w_order : NoDup (nodeOrder s);
  w_nodes n : n ∈ nodeOrder s ↔ ∃ e, e ∈ entries s ∧ NodeID e = n;
  w_cursors n : n ∈ nodeOrder s ↔ is_Some (subCursors s !! n);
  w_next : 0 ≤ next s < 2 ^ 64;
  w_range n i : subCursors s !! n = Some i → 0 ≤ i < 2 ^ 64;
}.

(** A known instance is reported on the node it is cached on. *)
Definition same_node (s : targetSet) (t : Target) : Prop :=
  ∀ e, e ∈ entries s → InstanceID e = InstanceID t → NodeID e = NodeID t.

Lemma u64_range z : 0 ≤ u64 z < 2 ^ 64.
Proof. unfold u64. apply Z.mod_pos_bound. lia. Qed.

Lemma empty_set_wf : wf_set empty_set.
Proof.
  constructor; simpl; try (by constructor); try lia; intros *; rewrite ?lookup_empty; set_solver.
Qed.

Lemma overwrite_None t l : overwrite t l = None → ∀ e, e ∈ l → InstanceID e ≠ InstanceID t.
Proof.
  induction l as [|e l IH]; simpl; [by intros _ e ?%elem_of_nil|].
  destruct (String.eqb_spec (InstanceID e) (InstanceID t)) as [|Hne]; [done|].
  destruct (overwrite t l); [done|]. intros _ e' [->|H]%elem_of_cons; [done|by apply IH].
Qed.

Lemma overwrite_Some t l l' :
  overwrite t l = Some l' → ∃ l1 e l2, l = l1 ++ e :: l2 ∧ InstanceID e = InstanceID t ∧ l' = l1 ++ t :: l2.
Proof.
  revert l'. induction l as [|e l IH]; simpl; intros l'; [done|].
  destruct (String.eqb_spec (InstanceID e) (InstanceID t)) as [Heq|Hne].
  - intros [= <-]. by exists [], e, l.
  - destruct (overwrite t l) as [l0|]; [|done]. intros [= <-].
    destruct (IH l0 eq_refl) as (l1 & e1 & l2 & -> & ? & ->). by exists (e :: l1), e1, l2.
Qed.

Lemma drop_instance_None id l : drop_instance id l = None → ∀ e, e ∈ l → InstanceID e ≠ id.
Proof.
  induction l as [|e l IH]; simpl; [by intros _ e ?%elem_of_nil|].
  destruct (String.eqb_spec (InstanceID e) id) as [|Hne]; [done|].
  destruct (drop_instance id l); [done|]. intros _ e' [->|H]%elem_of_cons; [done|by apply IH].
Qed.

Lemma drop_instance_Some id l n l' :
  drop_instance id l = Some (n, l') →
  ∃ l1 e l2, l = l1 ++ e :: l2 ∧ InstanceID e = id ∧ NodeID e = n ∧ l' = l1 ++ l2.
Proof.
  revert l'. induction l as [|e l IH]; simpl; intros l'; [done|].
  destruct (String.eqb_spec (InstanceID e) id) as [Heq|Hne].
  - intros [= <- <-]. by exists [], e, l.
  - destruct (drop_instance id l) as [[n0 l0]|]; [|done]. intros [= -> <-].
    destruct (IH l0 eq_refl) as (l1 & e1 & l2 & -> & ? & ? & ->). by exists (e :: l1), e1, l2.
Qed.

Lemma drop_node_spec n l : NoDup l → NoDup (drop_node n l) ∧ ∀ m, m ∈ drop_node n l ↔ m ∈ l ∧ m ≠ n.
Proof.
  induction 1 as [|m l Hm Hnd [IH1 IH2]]; simpl.
  - split; [constructor|]. intros m. split; [by intros ?%elem_of_nil|]. by intros [?%elem_of_nil _].
  - destruct (String.eqb_spec m n) as [->|Hne].
    + split; [done|]. intros k. rewrite elem_of_cons. split; [|by intros [[->|?] ?]].
      intros Hk. split; [by right|]. by intros ->.
    + split; [constructor; [|done]; by rewrite IH2; intros [? _]|].
      intros k. rewrite !elem_of_cons, IH2. naive_solver.
Qed.

Lemma add_wf s t : wf_set s → same_node s t → wf_set (add s t).
Proof.
  intros Hs Hsame. unfold add.
  destruct (String.eqb_spec (NodeID t) EmptyString) as [|Hn]; [done|].
  destruct (String.eqb_spec (InstanceID t) EmptyString) as [|Hi]; [done|]. simpl.
  destruct (overwrite t (entries s)) as [l|] eqn:Ho.
  - destruct (overwrite_Some _ _ _ Ho) as (l1 & e & l2 & He & Heq & ->).
    assert (NodeID e = NodeID t) as Hnode by (apply Hsame; [rewrite He; set_solver|done]).
    destruct Hs as [H1 H2 H3 H4 H5 H6 H7]. constructor; simpl; auto.
    + rewrite He in H1. rewrite map_app in *. simpl in *. by rewrite <- Heq.
    + intros e'. rewrite elem_of_app, elem_of_cons. intros Hin.
      destruct (decide (e' = t)) as [->|Hne]; [done|]. apply H2. rewrite He. set_solver.
    + intros n. rewrite H4, He. setoid_rewrite elem_of_app. setoid_rewrite elem_of_cons.
      split; intros (e' & Hin & <-).
      * destruct (decide (e' = e)) as [->|]; [exists t; set_solver|exists e'; set_solver].
      * destruct (decide (e' = t)) as [->|]; [exists e; set_solver|exists e'; set_solver].
  - pose proof (overwrite_None _ _ Ho) as Hfresh. destruct Hs as [H1 H2 H3 H4 H5 H6 H7].
    assert (NoDup (map InstanceID (entries s ++ [t]))) as Hids.
    { rewrite map_app. apply NoDup_app. split_and!; [done| |apply NoDup_singleton].
      intros x Hx%list_elem_of_fmap Hin. destruct Hx as (e & -> & He).
      apply list_elem_of_singleton in Hin. by apply (Hfresh e). }
    assert (∀ e, e ∈ entries s ++ [t] → NodeID e ≠ EmptyString ∧ InstanceID e ≠ EmptyString) as Hnamed.
    { intros e [He| ->%list_elem_of_singleton]%elem_of_app; [by apply H2|done]. }
    assert (∀ n, (∃ e, e ∈ entries s ++ [t] ∧ NodeID e = n) ↔ n ∈ nodeOrder s ∨ n = NodeID t) as Hnodes.
    { intros n. rewrite H4. setoid_rewrite elem_of_app. setoid_rewrite list_elem_of_singleton. naive_solver. }
    destruct (subCursors s !! NodeID t) as [i|] eqn:Hc; constructor; simpl; auto.
    + intros n. rewrite Hnodes. split; [by left|]. intros [?| ->]; [done|]. by rewrite H5, Hc.
    + apply NoDup_app. split_and!; [done| |apply NoDup_singleton].
      intros n Hx ->%list_elem_of_singleton. rewrite H5, Hc in Hx. by destruct Hx.
    + intros n. by rewrite Hnodes, elem_of_app, list_elem_of_singleton.
    + intros n. rewrite elem_of_app, list_elem_of_singleton, H5, lookup_insert_is_Some'. naive_solver.
    + intros n j [[_ <-]|[_ ?]]%lookup_insert_Some; [lia|by eapply H7].
Qed.

Lemma on_node_true n e : on_node n e = true ↔ NodeID e = n.
Proof. apply String.eqb_eq. Qed.

Lemma remove_entries s id :
  wf_set s → entries (remove s id).1 = filter (λ e, negb (String.eqb (InstanceID e) id)) (entries s).
Proof.
  intros Hs. unfold remove. destruct (drop_instance id (entries s)) as [[n l]|] eqn:Hd.
  - destruct (drop_instance_Some _ _ _ _ Hd) as (l1 & e & l2 & He & Hid & _ & ->).
    assert (entries ((if String.eqb n EmptyString then _ else _) : targetSet * Z).1 = l1 ++ l2) as ->
      by (repeat case_match; done).
    pose proof (w_ids _ Hs) as Hnd. rewrite He in *. rewrite map_app in Hnd. simpl in Hnd.
    apply NoDup_app in Hnd as (_ & H12 & [Hin2 _]%NoDup_cons).
    rewrite filter_app, filter_cons_bool, Hid, String.eqb_refl. simpl.
    rewrite !filter_all; [done| |].
    + intros e' He'. apply negb_true_iff, String.eqb_neq. intros Heq. apply Hin2.
      rewrite Hid, <- Heq. by apply list_elem_of_fmap_2.
    + intros e' He'. apply negb_true_iff, String.eqb_neq. intros Heq.
      apply (H12 (InstanceID e')); [by apply list_elem_of_fmap_2|]. rewrite Hid, <- Heq. set_solver.
  - simpl. rewrite filter_all; [done|]. intros e He. apply negb_true_iff, String.eqb_neq.
    by apply (drop_instance_None _ _ Hd).
Qed.

Lemma remove_length s id : (remove s id).2 = Z.of_nat (length (entries (remove s id).1)).
Proof. unfold remove. by repeat case_match. Qed.

Lemma remove_wf s id : wf_set s → wf_set (remove s id).1.
Proof.
  intros Hs. unfold remove. destruct (drop_instance id (entries s)) as [[n l]|] eqn:Hd;
    [|simpl; by destruct s].
  destruct (drop_instance_Some _ _ _ _ Hd) as (l1 & e & l2 & He & Hid & Hn & ->).
  destruct Hs as [H1 H2 H3 H4 H5 H6 H7].
  assert (NoDup (map InstanceID (l1 ++ l2))) as Hids.
  { rewrite He in H1. rewrite map_app in *. simpl in H1.
    apply NoDup_app in H1 as (? & Hd1 & [? ?]%NoDup_cons). apply NoDup_app. split_and!; [done| |done].
    intros x Hx. specialize (Hd1 x Hx). set_solver. }
  assert (∀ x, x ∈ l1 ++ l2 → x ∈ entries s) as Hsub by (rewrite He; set_solver).
  assert (∀ m, (∃ x, x ∈ entries s ∧ NodeID x = m) ↔ m = n ∨ ∃ x, x ∈ l1 ++ l2 ∧ NodeID x = m) as Hm.
  { intros m. rewrite He. setoid_rewrite elem_of_app. setoid_rewrite elem_of_cons. naive_solver. }
  assert (n ≠ EmptyString) as Hne by (rewrite <- Hn; apply H2; rewrite He; set_solver).
  destruct (String.eqb_spec n EmptyString) as [|_]; [done|].
  destruct (existsb (on_node n) (l1 ++ l2)) eqn:Hex; constructor; simpl; auto.
  - apply existsb_exists in Hex as (x & Hx%list_elem_of_In & Hxn%on_node_true).
    intros m. rewrite H4, Hm. naive_solver.
  - by apply drop_node_spec.
  - intros m. rewrite (proj2 (drop_node_spec n _ H3)), H4, Hm. split; [naive_solver|].
    intros (x & Hx & <-). split; [by right; exists x|]. intros Heq.
    assert (existsb (on_node n) (l1 ++ l2) = true) as Htrue; [|congruence].
    apply existsb_exists. exists x. by rewrite <- list_elem_of_In, on_node_true.
  - intros m. rewrite (proj2 (drop_node_spec n _ H3)), H5, lookup_delete_is_Some. naive_solver.
  - intros m i [_ ?]%lookup_delete_Some. by eapply H7.
Qed.

(** ** Picking *)

(** The running best of the scoring loop over the nodes seen so far. *)
Definition good_best (s : targetSet) (h : string) (seen : list string) (best : string * Z) : Prop :=
  (seen = [] ∧ best.2 = -1) ∨
  (best.1 ∈ seen ∧ best.2 = score s h best.1 ∧
   ∀ n, n ∈ seen → score s h n ≤ best.2 ∧ (score s h n = best.2 → str_ltb n best.1 = false)).

Lemma score_nonneg s h n : 0 ≤ score s h n.
Proof. unfold score, count_on. case_match; lia. Qed.

Lemma best_node_good s h nodes seen best :
  good_best s h seen best → good_best s h (seen ++ nodes) (best_node s h nodes best).
Proof.
  revert seen best. induction nodes as [|n nodes IH]; intros seen best Hb; simpl; [by rewrite app_nil_r|].
  rewrite cons_middle, app_assoc. apply IH. right. pose proof (score_nonneg s h n) as Hn.
  destruct Hb as [[-> Hb]|(Hin & Heq & Hall)].
  - assert ((best.2 <? score s h n) = true) as -> by (apply Z.ltb_lt; lia). simpl.
    split; [set_solver|]. split; [done|]. intros m ->%list_elem_of_singleton. split; [lia|].
    intros _. apply (less_irrefl str_ltb).
  - destruct (best.2 <? score s h n) eqn:E1; breflect; simpl.
    { split; [set_solver|]. split; [done|]. intros m [Hm| ->%list_elem_of_singleton]%elem_of_app.
      - destruct (Hall m Hm). split; [lia|]. intros. lia.
      - split; [lia|]. intros _. apply (less_irrefl str_ltb). }
    destruct ((score s h n =? best.2) && str_ltb n best.1) eqn:E2; simpl.
    + breflect. split; [set_solver|]. split; [done|]. intros m [Hm| ->%list_elem_of_singleton]%elem_of_app.
      * destruct (Hall m Hm) as [? Hlt]. split; [done|]. intros Hs. specialize (Hlt Hs).
        eapply less_negtrans; [done|by apply less_asym].
      * split; [lia|]. intros _. apply (less_irrefl str_ltb).
    + split; [set_solver|]. split; [done|]. intros m [Hm| ->%list_elem_of_singleton]%elem_of_app; [by apply Hall|].
      split; [lia|]. intros Hs. apply andb_false_iff in E2 as [E2|E2]; [|done]. breflect. congruence.
Qed.

(** The node the next pick takes, and the cursor it uses. *)
Definition winner (s : targetSet) (h : string) : string :=
  if (size (subCursors s) =? 1)%nat then default EmptyString (head (nodeOrder s))
  else (best_node s h (nodeOrder s) (EmptyString, -1)).1.

Definition cursor_of (s : targetSet) (h : string) : Z :=
  if (size (subCursors s) =? 1)%nat then next s else default 0 (subCursors s !! winner s h).

Definition on_winner (s : targetSet) (h : string) : list Target := filter (on_node (winner s h)) (entries s).

Definition bump (s : targetSet) (h : string) : targetSet :=
  if (size (subCursors s) =? 1)%nat
  then mkSet (u64 (next s + 1)) (entries s) (nodeOrder s) (subCursors s)
  else mkSet (next s) (entries s) (nodeOrder s) (<[winner s h := u64 (cursor_of s h + 1)]> (subCursors s)).

Lemma single_node s n : wf_set s → nodeOrder s = [n] → filter (on_node n) (entries s) = entries s.
Proof.
  intros Hs Hn. apply filter_all. intros e He. apply on_node_true.
  assert (NodeID e ∈ nodeOrder s) as H by (apply (w_nodes _ Hs); eauto). rewrite Hn in H. set_solver.
Qed.

Lemma size_nodes s : wf_set s → size (subCursors s) = length (nodeOrder s).
Proof.
  intros Hs. rewrite <- size_dom. assert (dom (subCursors s) = list_to_set (nodeOrder s)) as ->.
  { apply set_eq. intros n. rewrite elem_of_dom, elem_of_list_to_set. symmetry. apply (w_cursors _ Hs). }
  apply size_list_to_set, (w_order _ Hs).
Qed.

Lemma nodes_nonempty s : wf_set s → entries s ≠ [] → nodeOrder s ≠ [].
Proof.
  intros Hs He Hn. destruct (entries s) as [|e l] eqn:E; [done|].
  assert (NodeID e ∈ nodeOrder s) as H by (apply (w_nodes _ Hs); exists e; rewrite E; set_solver).
  rewrite Hn in H. set_solver.
Qed.

Lemma single_order s : wf_set s → (size (subCursors s) =? 1)%nat = true → ∃ n, nodeOrder s = [n].
Proof.
  intros Hs E%Nat.eqb_eq. rewrite (size_nodes s Hs) in E.
  destruct (nodeOrder s) as [|n [|]]; try done. by exists n.
Qed.

Lemma winner_spec s h :
  wf_set s → entries s ≠ [] →
  winner s h ∈ nodeOrder s ∧
  ∀ n, n ∈ nodeOrder s → score s h n ≤ score s h (winner s h) ∧
       (score s h n = score s h (winner s h) → str_ltb n (winner s h) = false).
Proof.
  intros Hs He. unfold winner. destruct (size (subCursors s) =? 1)%nat eqn:E.
  - destruct (single_order s Hs E) as [n ->]. simpl. split; [set_solver|].
    intros m ->%list_elem_of_singleton. split; [lia|]. intros _. apply (less_irrefl str_ltb).
  - destruct (best_node_good s h (nodeOrder s) [] (EmptyString, -1)) as [[H _]|(Hin & Heq & Hall)];
      [by left|by destruct (nodes_nonempty s Hs He)|].
    split; [done|]. intros n Hn. rewrite <- Heq. by apply Hall.
Qed.

(** The shape of a pick: the entries of the winning node, in turn. *)
Lemma pick_shape s h :
  wf_set s → entries s ≠ [] →
  on_winner s h ≠ [] ∧
  pick s h = (on_winner s h !! Z.to_nat (cursor_of s h mod Z.of_nat (length (on_winner s h))), bump s h).
Proof.
  intros Hs He. destruct (winner_spec s h Hs He) as [Hw _].
  assert (on_winner s h ≠ []) as Hne.
  { apply (w_nodes _ Hs) in Hw as (e & Hin & Hn). intros H0.
    assert (e ∈ on_winner s h) as H by (unfold on_winner; by rewrite elem_of_filter_bool, on_node_true).
    rewrite H0 in H. set_solver. }
  split; [done|]. unfold pick, bump, on_winner, cursor_of. destruct (entries s) as [|e0 l0] eqn:El; [done|].
  rewrite <- El in *. clear El e0 l0.
  destruct (size (subCursors s) =? 1)%nat eqn:E.
  - destruct (single_order s Hs E) as [n Hn]. unfold winner. rewrite E, Hn. simpl.
    by rewrite (single_node s n Hs Hn).
  - assert (winner s h = (best_node s h (nodeOrder s) (EmptyString, -1)).1) as Hwin
      by (unfold winner; by rewrite E).
    rewrite <- Hwin. destruct (String.eqb_spec (winner s h) EmptyString) as [H0|_].
    { apply (w_nodes _ Hs) in Hw as (e & Hin & Hn). destruct (w_named _ Hs e Hin). congruence. }
    apply (w_cursors _ Hs) in Hw as [i Hi]. rewrite Hi. done.
Qed.

Lemma bump_wf s h : wf_set s → entries s ≠ [] → wf_set (bump s h).
Proof.
  intros Hs He. destruct (winner_spec s h Hs He) as [Hw _]. unfold bump.
  pose proof (u64_range (next s + 1)). pose proof (u64_range (cursor_of s h + 1)).
  destruct Hs as [H1 H2 H3 H4 H5 H6 H7].
  destruct (size (subCursors s) =? 1)%nat; constructor; simpl; auto.
  - intros n. rewrite lookup_insert_is_Some', H5. rewrite H5 in Hw. naive_solver.
  - intros n i [[_ <-]|[_ ?]]%lookup_insert_Some; [done|by eapply H7].
Qed.

Lemma pick_some s h :
  wf_set s → entries s ≠ [] →
  ∃ t, pick s h = (Some t, bump s h) ∧ t ∈ entries s ∧ NodeID t = winner s h.
Proof.
  intros Hs He. destruct (pick_shape s h Hs He) as [Hne Hp].
  destruct (lookup_lt_is_Some_2 (on_winner s h)
              (Z.to_nat (cursor_of s h mod Z.of_nat (length (on_winner s h))))) as [t Ht].
  { pose proof (Z.mod_pos_bound (cursor_of s h) (Z.of_nat (length (on_winner s h)))).
    destruct (on_winner s h); [done|]. simpl length in *. lia. }
  rewrite Ht in Hp. exists t. split; [done|]. apply list_elem_of_lookup_2 in Ht.
  unfold on_winner in Ht. rewrite elem_of_filter_bool, on_node_true in Ht. tauto.
Qed.

(** ** Consecutive picks *)

Fixpoint picks (n : nat) (s : targetSet) (h : string) : list (option Target) :=
  match n with
  | O => []
  | S n => let '(t, s') := pick s h in t :: picks n s' h
  end.

Lemma best_node_ext s s' h nodes best :
  entries s' = entries s → best_node s' h nodes best = best_node s h nodes best.
Proof.
  intros He. revert best. induction nodes as [|n nodes IH]; intros best; [done|]. simpl. rewrite IH.
  assert (score s' h n = score s h n) as -> by (unfold score, count_on; by rewrite He). done.
Qed.

Lemma bump_size s h : wf_set s → entries s ≠ [] → size (subCursors (bump s h)) = size (subCursors s).
Proof.
  intros Hs He. destruct (winner_spec s h Hs He) as [Hw _]. apply (w_cursors _ Hs) in Hw.
  unfold bump. case_match; simpl; [done|]. destruct Hw as [i Hi]. by rewrite map_size_insert, Hi.
Qed.

Lemma bump_entries s h : entries (bump s h) = entries s.
Proof. unfold bump. by case_match. Qed.

Lemma bump_winner s h : wf_set s → entries s ≠ [] → winner (bump s h) h = winner s h.
Proof.
  intros Hs He. unfold winner. rewrite bump_size, (best_node_ext s) by (done || apply bump_entries).
  unfold bump. by case_match.
Qed.

Lemma bump_cursor s h : wf_set s → entries s ≠ [] → cursor_of (bump s h) h = u64 (cursor_of s h + 1).
Proof.
  intros Hs He. unfold cursor_of at 1. rewrite bump_size, bump_winner by done.
  unfold bump, cursor_of. destruct (size (subCursors s) =? 1)%nat eqn:E; [done|].
  simpl. by rewrite lookup_insert_eq.
Qed.

Lemma cursor_range s h : wf_set s → 0 ≤ cursor_of s h < 2 ^ 64.
Proof.
  intros Hs. unfold cursor_of. case_match; [apply (w_next _ Hs)|].
  destruct (subCursors s !! winner s h) eqn:E; simpl; [by eapply (w_range _ Hs)|lia].
Qed.

Lemma picks_eq n s h :
  wf_set s → entries s ≠ [] → cursor_of s h + Z.of_nat n ≤ 2 ^ 64 →
  picks n s h = map (λ k : nat, on_winner s h !! Z.to_nat ((cursor_of s h + Z.of_nat k) mod
                                                           Z.of_nat (length (on_winner s h)))) (seq 0 n).
Proof.
  revert s. induction n as [|n IH]; intros s Hs He Hc; [done|]. simpl.
  destruct (pick_shape s h Hs He) as [_ ->]. rewrite Z.add_0_r. f_equal.
  destruct n as [|n]; [done|].
  pose proof (cursor_range s h Hs). assert (u64 (cursor_of s h + 1) = cursor_of s h + 1) as Hu by (apply u64_id; lia).
  rewrite IH; [|by apply bump_wf|by rewrite bump_entries|rewrite bump_cursor by done; lia].
  rewrite <- seq_shift, map_map. unfold on_winner. rewrite bump_cursor, bump_winner, bump_entries, Hu by done.
  apply map_ext. intros k. do 2 f_equal. f_equal. lia.
Qed.

Lemma lookups_seqZ {A} (l : list A) : map (λ j, l !! Z.to_nat j) (seqZ 0 (Z.of_nat (length l))) = Some <$> l.
Proof.
  apply list_eq. intros i. change (map ?f ?m) with (f <$> m). rewrite !list_lookup_fmap.
  destruct (decide (i < length l)%nat) as [Hi|Hi].
  - rewrite lookup_seqZ_lt by lia. simpl. replace (Z.to_nat _) with i by lia.
    by destruct (lookup_lt_is_Some_2 l i Hi) as [x ->].
  - rewrite lookup_seqZ_ge by lia. by rewrite lookup_ge_None_2 by lia.
Qed.

(** Inside a deployment the picker favours and balances: with a warm hint that names a node with an
    instance it takes that node, otherwise a node with the most instances; on that node it takes turns,
    so as many consecutive picks as the node has instances return each of them exactly once. *)
Theorem pick_balances s (h : string) :
  wf_set s → entries s ≠ [] →
  let node := winner s h in
  (Z.of_nat (length (entries s)) < 2 ^ 62 → h ≠ EmptyString → (∃ e, e ∈ entries s ∧ NodeID e = h) →
   node = h) ∧
  ((∀ e, e ∈ entries s → NodeID e ≠ h) → ∀ e, e ∈ entries s → count_on s (NodeID e) ≤ count_on s node) ∧
  (cursor_of s h + count_on s node ≤ 2 ^ 64 →
   picks (Z.to_nat (count_on s node)) s h ≡ₚ Some <$> filter (on_node node) (entries s)).
Proof.
  intros Hs He node. destruct (winner_spec s h Hs He) as [Hw Hbest]. split_and!.
  - intros Hlen Hh Hex. apply (w_nodes _ Hs) in Hex. destruct (Hbest h Hex) as [Hle _].
    destruct (decide (node = h)) as [|Hne]; [done|]. unfold score in Hle. fold node in Hle.
    rewrite String.eqb_refl in Hle. destruct (String.eqb_spec h EmptyString) as [|_]; [done|]. simpl in Hle.
    destruct (String.eqb_spec node h) as [|_]; [done|].
    unfold count_on in Hle. pose proof (length_filter (on_node node) (entries s)). lia.
  - intros Hno e Hin. destruct (Hbest (NodeID e)) as [Hle _]; [apply (w_nodes _ Hs); eauto|].
    assert (∀ n, n ∈ nodeOrder s → score s h n = count_on s n) as Hscore.
    { intros n (e' & He' & <-)%(w_nodes _ Hs). unfold score.
      destruct (String.eqb_spec (NodeID e') h) as [Heq|_]; [by destruct (Hno e')|by rewrite andb_false_r]. }
    rewrite (Hscore (NodeID e)), (Hscore (winner s h)) in Hle; [done|done|].
    apply (w_nodes _ Hs). eauto.
  - intros Hc. unfold count_on in *. rewrite Nat2Z.id. fold (on_winner s h) in *.
    rewrite picks_eq by done.
    rewrite <- lookups_seqZ. etrans; [|apply Permutation_map, (window_mod_perm (cursor_of s h))].
    + by rewrite map_map.
    + apply (cursor_range s h Hs).
Qed.

End TargetSet.

Module Picker.
Import TargetSet.

Record deploymentWeight := mkWeight { wDeploymentID : string; Percent : Z }.

Record appPicker := mkPicker {
  weights : list deploymentWeight;
  cum : list Z;
  cursor : Z;
  sets : gmap string targetSet;
}.

Definition new_picker : appPicker := mkPicker [] [] 0 ∅.

Record DeploymentWeightsRow := mkRow { ID : string; TrafficPercent : Z }.

(** PGBackend: the picker of every app ([appsPicker]). *)
Abbreviation PGBackend := (gmap string appPicker).

Record PickResult := mkPick {
  PTarget : option Target;        (* [OK]: it is there *)
  Picked : string;
  ColdBucket : string;
}.

Definition no_pick : PickResult := mkPick None EmptyString EmptyString.

(** The binary search: the smallest [i] with [cum[i] > slot]; [chosen] is kept from the last probe that
    succeeded.  The interval shrinks, so its length is enough fuel. *)
Fixpoint search (fuel : nat) (p : appPicker) (slot : Z) (lo hi : nat) (chosen : string) : string :=
  match fuel with
  | O => chosen
  | S fuel =>
      if (lo <? hi)%nat then
        let mid := ((lo + hi) / 2)%nat in
        if slot <? default 0 (cum p !! mid)
        then search fuel p slot lo mid (default EmptyString (wDeploymentID <$> weights p !! mid))
        else search fuel p slot (S mid) hi chosen
      else chosen
  end.

Definition is_cold (p : appPicker) (d : string) : bool :=
  match sets p !! d with None => true | Some s => match entries s with [] => true | _ => false end end.

(** The warm deployment of the largest weight, the first one of equal weights. *)
Fixpoint fallback (p : appPicker) (ws : list deploymentWeight) (best : option (string * Z)) : option string :=
  match ws with
  | [] => fst <$> best
  | w :: ws =>
      fallback p ws
        (if is_cold p (wDeploymentID w) then best
         else match best with
              | None => Some (wDeploymentID w, Percent w)
              | Some (_, b) => if b <? Percent w then Some (wDeploymentID w, Percent w) else best
              end)
  end.

Definition stamp (d : string) (t : Target) : Target :=
  mkTarget (NodeID t) (InstanceID t) (WakeID t) (AddedAt t) (Port t) d.

(** [set.pick(warmHint)] on the set of a deployment, with its cursors written back. *)
Definition pick_in (p : appPicker) (d warmHint : string) : option Target * appPicker :=
  match sets p !! d with
  | None => (None, p)
  | Some s =>
      let '(t, s') := pick s warmHint in
      (t, mkPicker (weights p) (cum p) (cursor p) (<[d := s']> (sets p)))
  end.

(** [int(picker.cursor.Add(1)-1) % 100]: the cursor before the increment, as an int. *)
Definition slot_of (p : appPicker) : Z := Z.rem (i64 (cursor p)) 100.

Definition pick_deployment (p : appPicker) : string :=
  search (length (cum p)) p (slot_of p) 0 (length (cum p))
         (default EmptyString (wDeploymentID <$> head (weights p))).

Definition advance (p : appPicker) : appPicker :=
  mkPicker (weights p) (cum p) (u64 (cursor p + 1)) (sets p).

Definition pick_app (p : appPicker) (warmHint : string) : PickResult * appPicker :=
  match weights p with
  | [] => (no_pick, p)
  | [w] =>
      let '(t, p') := pick_in p (wDeploymentID w) warmHint in
      (match t with Some t => mkPick (Some t) (wDeploymentID w) EmptyString | None => no_pick end, p')
  | _ =>
      let chosen := pick_deployment p in
      let p := advance p in
      if is_cold p chosen then
        match fallback p (weights p) None with
        | None => (mkPick None chosen chosen, p)
        | Some d =>
            let '(t, p') := pick_in p d warmHint in
            (mkPick (stamp d <$> t) chosen chosen, p')
        end
      else
        let '(t, p') := pick_in p chosen warmHint in
        (match t with
         | Some t => mkPick (Some (stamp chosen t)) chosen EmptyString
         | None => mkPick None chosen chosen
         end, p')
  end.

Definition Pick (b : PGBackend) (appID warmHint : string) : PickResult * PGBackend :=
  match b !! appID with
  | None => (no_pick, b)
  | Some p => let '(r, p') := pick_app p warmHint in (r, <[appID := p']> b)
  end.

Definition set_size (s : targetSet) : Z := Z.of_nat (length (entries s)).

Definition HealthyCount (b : PGBackend) (appID : string) : Z :=
  match b !! appID with None => 0 | Some p => map_sum set_size (sets p) end.

(** ** Admission *)

Inductive WakeMethod := WakeMethodUnspecified | WakeMethodColdBoot | WakeMethodSnapshotRestore.

Definition WireWakeRestore : Z := 1.

Definition scheddWakeMethodToGateway (m : Z) : WakeMethod :=
  if m =? WireWakeRestore then WakeMethodSnapshotRestore else WakeMethodColdBoot.

(** What AdmitInstance returns without an error. *)
Record AdmitReply := mkReply {
  instanceID : string;
  nodeID : string;
  deploymentIDOut : string;
  wakeID : string;
  rawMethod : Z;
  atCapacity : bool;
  port : Z;
}.

(** schedd's AdmitInstance(appID, deploymentID, scope), an error or a reply. *)
Abbreviation Scheduler := (string → string → string → string + AdmitReply).

(** The app row the resolver returns. *)
Record RApp := mkRApp { aID : string; aNodeID : string }.

(** How a backend finds the schedd of an app: [None] is an unset hook; a hook fails, declines or answers. *)
Record Routing := mkRouting {
  sched : Scheduler;
  appResolver : option (string → string + option RApp);
  clientForApp : option (RApp → string + option Scheduler);
  legacySingleBox : bool;
}.

Definition resolveSched (r : Routing) (appID : string) : string + Scheduler :=
  match appResolver r, clientForApp r with
  | Some resolve, Some client =>
      match resolve appID with
      | inl e => inl e
      | inr None => if legacySingleBox r then inr (sched r) else inl "app not found"%string
      | inr (Some app) =>
          if String.eqb (aNodeID app) EmptyString
          then if legacySingleBox r then inr (sched r) else inl "app has empty NodeID"%string
          else
            match client app with
            | inl e => inl e
            | inr None => if legacySingleBox r then inr (sched r) else inl "client resolver declined"%string
            | inr (Some cli) => inr cli
            end
      end
  | _, _ => inr (sched r)
  end.

Inductive admit_result :=
| AdmitFailed (e : string)
| AtCapacity
| AdmitDone (wake : string) (method : WakeMethod).

(** The first critical section of Admit: refuse at the cap before the round trip. *)
Definition admit_check (b : PGBackend) (appID : string) (maxConcurrency : Z) : bool :=
  match b !! appID with None => false | Some p => maxConcurrency <=? map_sum set_size (sets p) end.

(** The second one: cache the admitted instance in the bucket of its deployment. *)
Definition admit_add (b : PGBackend) (appID deploymentID : string) (r : AdmitReply) (now : Time) : PGBackend :=
  let bucket := if String.eqb deploymentID EmptyString then "_legacy"%string else deploymentID in
  let p := default new_picker (b !! appID) in
  let s := default empty_set (sets p !! bucket) in
  let '(ws, cs) :=
    match weights p with [] => ([mkWeight bucket 100], [100]) | ws => (ws, cum p) end in
  let t := mkTarget (nodeID r) (instanceID r) (wakeID r) now (port r) deploymentID in
  <[appID := mkPicker ws cs (cursor p) (<[bucket := add s t]> (sets p))]> b.

(** What Admit does with the reply of schedd. *)
Definition admit_reply (b : PGBackend) (appID deploymentID : string) (r : AdmitReply) (now : Time)
    : admit_result * PGBackend :=
  let deploymentID :=
    if String.eqb (deploymentIDOut r) EmptyString then deploymentID else deploymentIDOut r in
  if atCapacity r || String.eqb (nodeID r) EmptyString || String.eqb (instanceID r) EmptyString
  then (AtCapacity, b)
  else (AdmitDone (wakeID r) (scheddWakeMethodToGateway (rawMethod r)), admit_add b appID deploymentID r now).

(** Admit without interference between its critical sections. *)
Definition Admit (rt : Routing) (b : PGBackend) (appID deploymentID scope : string) (maxConcurrency : Z)
    (now : Time) : admit_result * PGBackend :=
  if admit_check b appID maxConcurrency then (AtCapacity, b)
  else
    match resolveSched rt appID with
    | inl e => (AdmitFailed e, b)
    | inr sched =>
        match sched appID deploymentID scope with
        | inl e => (AdmitFailed e, b)
        | inr r => admit_reply b appID deploymentID r now
        end
    end.

(** ** Evictions and weights *)

Definition EvictInstance (b : PGBackend) (appID instance : string) : PGBackend :=
  if String.eqb appID EmptyString || String.eqb instance EmptyString then b
  else
    match b !! appID with
    | None => b
    | Some p =>
        let removed := (λ s, remove s instance) <$> sets p in
        if map_sum snd removed =? 0 then delete appID b
        else <[appID := mkPicker (weights p) (cum p) (cursor p) (fst <$> removed)]> b
    end.

Definition EvictTarget (b : PGBackend) (appID : string) : PGBackend := delete appID b.

Definition weight_less (a b : deploymentWeight) : bool :=
  if negb (Percent a =? Percent b) then Percent b <? Percent a
  else str_ltb (wDeploymentID a) (wDeploymentID b).

Definition buildDeploymentWeights (rows : list DeploymentWeightsRow) : list deploymentWeight :=
  go_sort weight_less
    (map (λ r, mkWeight (ID r) (TrafficPercent r)) (filter (λ r, negb (TrafficPercent r <=? 0)) rows)).

(** The loop with its running sum. *)
Fixpoint sums_from (sum : Z) (ws : list deploymentWeight) : list Z :=
  match ws with
  | [] => []
  | w :: ws => (sum +! Percent w) :: sums_from (sum +! Percent w) ws
  end.

Definition buildCumulativeWeights (ws : list deploymentWeight) : list Z := sums_from 0 ws.

Definition pickerHasDeploymentByID (ws : list deploymentWeight) (id : string) : bool :=
  existsb (λ w, String.eqb (wDeploymentID w) id) ws.

(** [rows] is what LiveDeployments returned; [None] when no store is wired. *)
Definition RefreshDeploymentWeights (b : PGBackend) (appID : string)
    (rows : option (string + list DeploymentWeightsRow)) : option string * PGBackend :=
  match rows with
  | None => (None, b)
  | Some (inl e) => (Some e, b)
  | Some (inr rows) =>
      match buildDeploymentWeights rows with
      | [] => (None, delete appID b)
      | ws =>
          let p := default new_picker (b !! appID) in
          let kept := filter (λ ds, negb (match entries ds.2 with [] => true | _ => false end &&
                                          negb (pickerHasDeploymentByID ws ds.1)) = true) (sets p) in
          (None, <[appID := mkPicker ws (buildCumulativeWeights ws) (cursor p) kept]> b)
      end
  end.

(** ** One request *)

(** How the wait of a request that leads its call in the wake gate ends: ensure returned first, the
    abort poller fired first, or the request's own context was done first.  In the last two cases the
    detached goroutine keeps running ensure; [landed] tells whether its admission has reached the
    cache when coldStart returns.  The traces of the gate are [Gate.lone_request_served],
    [Gate.lone_request_aborted] and [Gate.lone_request_cancelled]. *)
Inductive wait_end := EnsureFirst | AbortFirst (landed : bool) | ContextFirst (landed : bool).

(** coldStart of a request that is alone in the wake gate: shouldWake decides whether the leader
    starts ensure; without it Wait returns nil at once, with it the wait ends as [how] says.  The
    result is what coldStart returns: an error, or whether an instance was admitted. *)
Definition coldStart (rt : Routing) (how : wait_end) (b : PGBackend) (appID scope : string)
    (maxConcurrency : Z) (now : Time) : (Gate.gate_error + option (string * WakeMethod)) * PGBackend :=
  if Gate.shouldWake (HealthyCount b appID) maxConcurrency then
    let ensured := Admit rt b appID EmptyString scope maxConcurrency now in
    match how with
    | EnsureFirst =>
        match ensured with
        | (AdmitFailed e, b) => (inl (Gate.ErrEnsure e), b)
        | (AtCapacity, b) => (inr None, b)
        | (AdmitDone w m, b) => (inr (Some (w, m)), b)
        end
    | AbortFirst landed => (inl Gate.ErrBootstrapAborted, if landed then ensured.2 else b)
    | ContextFirst landed => (inl Gate.ErrContext, if landed then ensured.2 else b)
    end
  else (inr None, b).

(** The loop of ensureCapacity; the fuel is its bound, [attempt < maxConcurrency]. [waits] gives the
    end of the wait of each attempt. *)
Fixpoint ensure_loop (fuel attempt : nat) (waits : nat → wait_end) (rt : Routing) (b : PGBackend)
    (appID scope : string) (maxConcurrency : Z) (now : Time)
    : (Gate.gate_error + option (string * WakeMethod)) * PGBackend :=
  match fuel with
  | O => (inr None, b)
  | S fuel =>
      let healthy := HealthyCount b appID in
      if healthy =? 0 then
        match coldStart rt (waits attempt) b appID scope maxConcurrency now with
        | (inr None, b) => ensure_loop fuel (S attempt) waits rt b appID scope maxConcurrency now
        | r => r
        end
      else if maxConcurrency <=? healthy then (inr None, b)
      else
        match Admit rt b appID EmptyString scope maxConcurrency now with
        | (AdmitFailed e, b) => (inl (Gate.ErrEnsure e), b)
        | (AtCapacity, b) => (inr None, b)
        | (AdmitDone w m, b) => (inr (Some (w, m)), b)
        end
  end.

Definition ensureCapacity (waits : nat → wait_end) (rt : Routing) (b : PGBackend) (appID scope : string)
    (maxConcurrency : Z) (now : Time) : (Gate.gate_error + option (string * WakeMethod)) * PGBackend :=
  ensure_loop (Z.to_nat maxConcurrency) 0 waits rt b appID scope maxConcurrency now.

(** The routing part of ServeHTTP: ensureCapacity, Pick, one admission on the cold bucket when nothing
    was picked, and a second Pick.  The result is the instance the request is proxied to. *)
Inductive routed := RouteError (e : Gate.gate_error) | NoTarget | Routed (t : Target).

Definition route (waits : nat → wait_end) (rt : Routing) (b : PGBackend) (appID scope warmHint : string)
    (maxConcurrency : Z) (now : Time) : routed * PGBackend :=
  match ensureCapacity waits rt b appID scope maxConcurrency now with
  | (inl e, b) => (RouteError e, b)
  | (inr _, b) =>
      let '(r, b) := Pick b appID warmHint in
      let '(r, b) :=
        match PTarget r with
        | None =>
            if String.eqb (ColdBucket r) EmptyString then (r, b)
            else Pick (Admit rt b appID (ColdBucket r) scope maxConcurrency now).2 appID warmHint
        | Some _ => (r, b)
        end in
      (match PTarget r with Some t => Routed t | None => NoTarget end, b)
  end.

(** ** Well-formed backends *)

Record wf_picker (p : appPicker) : Prop := {
  p_weights : weights p ≠ [];
  p_positive w : w ∈ weights p → 0 < Percent w;
  p_ids : NoDup (map wDeploymentID (weights p));
  p_cum : cum p = buildCumulativeWeights (weights p);
  p_cursor : 0 ≤ cursor p < 2 ^ 64;
  p_sets d s : sets p !! d = Some s → wf_set s;
}.

Definition wf_backend (b : PGBackend) : Prop := map_Forall (λ _ p, wf_picker p) b.

(** The instances of each deployment: what the cursors do not show. *)
Definition roster (p : appPicker) : gmap string (list Target) := entries <$> sets p.

Lemma is_cold_roster p d :
  is_cold p d = match roster p !! d with Some (_ :: _) => false | _ => true end.
Proof. unfold is_cold, roster. rewrite lookup_fmap. destruct (sets p !! d) as [s|]; [|done]. simpl. by destruct (entries s). Qed.

Lemma pick_in_wf p d h t p' :
  wf_picker p → pick_in p d h = (t, p') →
  wf_picker p' ∧ weights p' = weights p ∧ cum p' = cum p ∧ cursor p' = cursor p ∧ roster p' = roster p.
Proof.
  intros Hp. unfold pick_in. destruct (sets p !! d) as [s|] eqn:Hd; [|by intros [= _ <-]].
  pose proof (p_sets p Hp d s Hd) as Hs. destruct (pick s h) as [t0 s'] eqn:E. intros [= _ <-].
  assert (wf_set s' ∧ entries s' = entries s) as [Hs' He].
  { destruct (entries s) as [|e l] eqn:El.
    - unfold pick in E. rewrite El in E. simplify_eq. done.
    - destruct (pick_some s h Hs) as (x & Hx & _); [by rewrite El|]. rewrite E in Hx. simplify_eq.
      split; [apply bump_wf; [done|by rewrite El]|]. by rewrite bump_entries. }
  destruct Hp as [H1 H2 H3 H4 H5 H6]. split_and!; try done.
  - constructor; simpl; auto. intros d0 s0 [[_ <-]|[_ ?]]%lookup_insert_Some; [done|by eapply H6].
  - unfold roster. simpl. rewrite fmap_insert, He. apply insert_id. by rewrite lookup_fmap, Hd.
Qed.

Lemma pick_in_warm p d h :
  wf_picker p → is_cold p d = false →
  ∃ t l p', pick_in p d h = (Some t, p') ∧ roster p !! d = Some l ∧ t ∈ l.
Proof.
  intros Hp. unfold is_cold, pick_in, roster. rewrite lookup_fmap.
  destruct (sets p !! d) as [s|] eqn:Hd; [|done]. simpl. intros Hc.
  destruct (pick_some s h (p_sets p Hp d s Hd)) as (t & -> & Ht & _); [by destruct (entries s)|]. eauto 6.
Qed.

Lemma pick_in_cold p d h : is_cold p d = true → (pick_in p d h).1 = None.
Proof.
  unfold is_cold, pick_in. destruct (sets p !! d) as [s|]; [|done]. unfold pick. by destruct (entries s).
Qed.

Lemma advance_wf p : wf_picker p → wf_picker (advance p).
Proof. intros [H1 H2 H3 H4 H5 H6]. constructor; simpl; auto. apply u64_range. Qed.

Lemma fallback_spec p ws best :
  (∀ d x, best = Some (d, x) → is_cold p d = false) →
  match fallback p ws best with
  | Some d => is_cold p d = false ∧ (fst <$> best = Some d ∨ ∃ w, w ∈ ws ∧ wDeploymentID w = d)
  | None => best = None ∧ ∀ w, w ∈ ws → is_cold p (wDeploymentID w) = true
  end.
Proof.
  revert best. induction ws as [|w ws IH]; intros best Hb; simpl.
  - destruct best as [[d x]|]; simpl; [split; [by eapply Hb|by left]|]. split; [done|]. by intros w ?%elem_of_nil.
  - destruct (is_cold p (wDeploymentID w)) eqn:Hc.
    + specialize (IH best Hb). destruct (fallback p ws best) as [d|].
      * destruct IH as [? [?|(w' & ? & ?)]]; split; auto. right. exists w'. set_solver.
      * destruct IH as [-> IH]. split; [done|]. intros w' [->|?]%elem_of_cons; [done|by apply IH].
    + set (best' := match best with None => _ | Some _ => _ end).
      assert (best' = best ∧ best ≠ None ∨ best' = Some (wDeploymentID w, Percent w)) as Hb'.
      { unfold best'. destruct best as [[d x]|]; [|by right]. destruct (x <? Percent w); [by right|by left]. }
      specialize (IH best'). destruct (fallback p ws best') as [d|].
      * destruct IH as [Hcold Hor]; [destruct Hb' as [[-> _]| ->]; [done|intros ? ? [= <- <-]; done]|].
        split; [done|]. destruct Hor as [Hor|(w' & ? & ?)]; [|right; exists w'; set_solver].
        destruct Hb' as [[Heq _]|Heq]; rewrite Heq in Hor; [by left|right]. exists w. split; [set_solver|].
        by injection Hor.
      * destruct IH as [IH _]; [destruct Hb' as [[-> _]| ->]; [done|intros ? ? [= <- <-]; done]|].
        destruct Hb' as [[Heq ?]|Heq]; congruence.
Qed.

(** The deployments of the weight table. *)
Definition weighted (p : appPicker) (d : string) : Prop := ∃ w, w ∈ weights p ∧ wDeploymentID w = d.

Lemma search_weighted fuel p slot lo hi chosen :
  (hi ≤ length (weights p))%nat → weighted p chosen → weighted p (search fuel p slot lo hi chosen).
Proof.
  revert lo hi chosen. induction fuel as [|fuel IH]; intros lo hi chosen Hhi Hc; cbn [search]; [done|].
  destruct (lo <? hi)%nat eqn:E; [|done]. apply Nat.ltb_lt in E.
  pose proof (Nat.Div0.div_lt_upper_bound (lo + hi) 2 hi ltac:(lia)) as Hm.
  destruct (slot <? _); apply IH; try done; [lia|].
  destruct (lookup_lt_is_Some_2 (weights p) ((lo + hi) / 2)) as [w Hw]; [lia|]. rewrite Hw. simpl.
  exists w. split; [by eapply list_elem_of_lookup_2|done].
Qed.

Lemma length_sums_from a ws : length (sums_from a ws) = length ws.
Proof. revert a. induction ws as [|w ws IH]; intros a; simpl; [done|by rewrite IH]. Qed.

Lemma pick_deployment_weighted p : wf_picker p → weighted p (pick_deployment p).
Proof.
  intros Hp. unfold pick_deployment. apply search_weighted.
  - rewrite (p_cum p Hp). unfold buildCumulativeWeights. by rewrite length_sums_from.
  - pose proof (p_weights p Hp). destruct (weights p) as [|w ws] eqn:E; [done|]. simpl.
    exists w. rewrite E. set_solver.
Qed.

Lemma pick_app_frame p h r p' :
  wf_picker p → pick_app p h = (r, p') →
  wf_picker p' ∧ weights p' = weights p ∧ cum p' = cum p ∧ roster p' = roster p.
Proof.
  intros Hp. unfold pick_app. pose proof (advance_wf p Hp) as Ha.
  assert (∀ q d t q', wf_picker q → weights q = weights p → cum q = cum p → roster q = roster p →
    pick_in q d h = (t, q') → wf_picker q' ∧ weights q' = weights p ∧ cum q' = cum p ∧ roster q' = roster p) as Hin.
  { intros q d t q' Hq Hw Hc Hr Hi. destruct (pick_in_wf q d h t q' Hq Hi) as (? & -> & -> & _ & ->). done. }
  destruct (weights p) as [|w [|w2 ws]] eqn:Ew; [by destruct (p_weights p Hp)| |].
  - destruct (pick_in p (wDeploymentID w) h) as [t q] eqn:E. intros [= _ <-].
    exact (Hin p _ _ _ Hp Ew eq_refl eq_refl E).
  - destruct (is_cold (advance p) (pick_deployment p)).
    + destruct (fallback (advance p) (weights (advance p)) None) as [d|]; [|intros [= _ <-]; by rewrite <- Ew].
      destruct (pick_in (advance p) d h) as [t q] eqn:E. intros [= _ <-].
      exact (Hin (advance p) _ _ _ Ha Ew eq_refl eq_refl E).
    + destruct (pick_in (advance p) (pick_deployment p) h) as [t q] eqn:E. intros [= _ <-].
      exact (Hin (advance p) _ _ _ Ha Ew eq_refl eq_refl E).
Qed.

(** A pick and where it came from. *)
Definition picked_from (p : appPicker) (d : string) (t : Target) : Prop :=
  weighted p d ∧ ∃ l t0, roster p !! d = Some l ∧ t0 ∈ l ∧ (t = t0 ∨ t = stamp d t0).

Lemma pick_app_spec p h :
  wf_picker p →
  let r := (pick_app p h).1 in
  match PTarget r with
  | Some t => ∃ d, picked_from p d t ∧ weighted p (Picked r) ∧
                   if is_cold p (Picked r) then ColdBucket r = Picked r else ColdBucket r = EmptyString ∧ d = Picked r
  | None => ∀ d, weighted p d → is_cold p d = true
  end.
Proof.
  intros Hp. unfold pick_app. destruct (weights p) as [|w [|w2 ws]] eqn:Ew; [by destruct (p_weights p Hp)| |].
  - assert (∀ d, weighted p d ↔ d = wDeploymentID w) as Hone.
    { intros d. unfold weighted. rewrite Ew. split; [by intros (w' & ->%list_elem_of_singleton & <-)|].
      intros ->. exists w. set_solver. }
    destruct (is_cold p (wDeploymentID w)) eqn:Hc.
    + pose proof (pick_in_cold p _ h Hc) as Hn. destruct (pick_in p (wDeploymentID w) h) as [t q]. simpl in Hn. subst t.
      simpl. by intros d ->%Hone.
    + destruct (pick_in_warm p _ h Hp Hc) as (t & l & q & -> & Hl & Ht). simpl. rewrite Hc.
      exists (wDeploymentID w). split_and!; try done; [|by apply Hone]. split; [by apply Hone|eauto 8].
  - pose proof (advance_wf p Hp) as Ha. pose proof (pick_deployment_weighted p Hp) as Hw.
    assert (∀ d, is_cold (advance p) d = is_cold p d) as Hadv by done. rewrite Hadv.
    destruct (is_cold p (pick_deployment p)) eqn:Hc.
    + pose proof (fallback_spec (advance p) (weights (advance p)) None) as Hf.
      destruct (fallback (advance p) (weights (advance p)) None) as [d|].
      * destruct Hf as [Hd [?|(w' & Hin & <-)]]; [done|done|].
        destruct (pick_in_warm (advance p) _ h Ha Hd) as (t & l & q & -> & Hl & Ht). simpl. rewrite Hc.
        exists (wDeploymentID w'). split_and!; try done. split; [by exists w'|eauto 8].
      * destruct Hf as [_ Hf]; [done|]. simpl. intros d (w' & Hin & <-). by apply Hf.
    + destruct (pick_in_warm (advance p) _ h Ha Hc) as (t & l & q & -> & Hl & Ht). simpl. rewrite Hc.
      exists (pick_deployment p). split_and!; try done. split; [done|eauto 8].
Qed.

(** Pick serves whatever can be served: on a well-formed backend it returns a target exactly when
    some deployment of the app's weight table has a cached instance; the target is a cached instance
    of such a deployment, of the deployment the stride landed on unless that one is cold, and then the
    result says so. *)
Theorem Pick_serves b (appID h : string) p :
  wf_backend b → b !! appID = Some p →
  let r := (Pick b appID h).1 in
  (is_Some (PTarget r) ↔ ∃ d, weighted p d ∧ is_cold p d = false) ∧
  (∀ t, PTarget r = Some t → ∃ d, picked_from p d t ∧
     if is_cold p (Picked r) then ColdBucket r = Picked r else ColdBucket r = EmptyString ∧ d = Picked r).
Proof.
  intros Hb Hp. unfold Pick. rewrite Hp. pose proof (pick_app_spec p h (Hb _ _ Hp)) as Hs.
  destruct (pick_app p h) as [r p'] eqn:E. simpl in *. destruct (PTarget r) as [t|].
  - destruct Hs as (d & Hd & Hw & Hc). split; [split; [intros _|eauto]|intros t' [= <-]; eauto].
    exists d. split; [apply Hd|]. destruct Hd as (_ & l & t0 & Hl & Ht & _).
    rewrite is_cold_roster, Hl. destruct l; [by apply elem_of_nil in Ht|done].
  - split; [|done]. split; [by intros []|]. intros (d & Hd & Hc). specialize (Hs d Hd). congruence.
Qed.

(** ** Every operation keeps the backend well-formed *)

Definition bucket_of (deploymentID : string) : string :=
  if String.eqb deploymentID EmptyString then "_legacy"%string else deploymentID.

(** schedd reports a cached instance on the node it is cached on. *)
Definition reply_consistent (b : PGBackend) (appID : string) (r : AdmitReply) : Prop :=
  ∀ p d s e, b !! appID = Some p → sets p !! d = Some s → e ∈ entries s →
             InstanceID e = instanceID r → NodeID e = nodeID r.

Lemma wf_insert b a p : wf_backend b → wf_picker p → wf_backend (<[a := p]> b).
Proof. intros Hb Hp. by apply map_Forall_insert_2. Qed.

Lemma wf_delete b a : wf_backend b → wf_backend (delete a b).
Proof. intros Hb. by apply map_Forall_delete. Qed.

Lemma admit_add_wf b a d r now :
  wf_backend b → reply_consistent b a r → wf_backend (admit_add b a d r now).
Proof.
  intros Hb Hr. unfold admit_add. fold (bucket_of d). set (q := bucket_of d).
  set (t := mkTarget _ _ _ _ _ _). set (p := default new_picker (b !! a)).
  assert (wf_set (add (default empty_set (sets p !! q)) t)) as Hadd.
  { unfold p. destruct (b !! a) as [p0|] eqn:Ha; simpl.
    - destruct (sets p0 !! q) as [s|] eqn:Hs; simpl.
      + apply add_wf; [by eapply (p_sets p0 (Hb _ _ Ha))|]. intros e He Hid. by eapply Hr.
      + apply add_wf; [apply empty_set_wf|]. intros e He. by apply elem_of_nil in He.
    - rewrite lookup_empty. apply add_wf; [apply empty_set_wf|]. intros e He. by apply elem_of_nil in He. }
  unfold p in *. destruct (b !! a) as [p0|] eqn:Ha; simpl in *.
  - destruct (Hb _ _ Ha) as [H1 H2 H3 H4 H5 H6]. destruct (weights p0) as [|w ws] eqn:Ew; [done|].
    apply wf_insert; [done|]. constructor; simpl; auto.
    intros d0 s0 [[_ <-]|[_ ?]]%lookup_insert_Some; [done|by eapply H6].
  - apply wf_insert; [done|]. constructor; simpl; auto; try lia.
    + intros w ->%list_elem_of_singleton. simpl. lia.
    + apply NoDup_singleton.
    + intros d0 s0 [[_ <-]|[_ ?]]%lookup_insert_Some; [done|set_solver].
Qed.

Lemma EvictInstance_wf b a i : wf_backend b → wf_backend (EvictInstance b a i).
Proof.
  intros Hb. unfold EvictInstance. destruct (_ || _); [done|]. destruct (b !! a) as [p|] eqn:Ha; [|done].
  destruct (_ =? 0); [by apply wf_delete|]. apply wf_insert; [done|].
  destruct (Hb _ _ Ha) as [H1 H2 H3 H4 H5 H6]. constructor; simpl; auto.
  intros d s. rewrite !lookup_fmap. destruct (sets p !! d) as [s0|] eqn:Hd; [|done].
  intros [= <-]. by eapply remove_wf, H6.
Qed.

Lemma build_weights_spec rows :
  NoDup (map ID rows) →
  NoDup (map wDeploymentID (buildDeploymentWeights rows)) ∧
  ∀ w, w ∈ buildDeploymentWeights rows ↔
       0 < Percent w ∧ mkRow (wDeploymentID w) (Percent w) ∈ rows.
Proof.
  intros Hnd. unfold buildDeploymentWeights. split.
  - rewrite (Permutation_map _ (go_sort_perm _ _)), map_map. simpl.
    eapply sublist_NoDup; [exact Hnd|]. apply fmap_sublist, sublist_filter.
  - intros w. rewrite elem_of_go_sort. change (map ?f ?l) with (f <$> l). rewrite list_elem_of_fmap.
    split.
    + intros (r & -> & Hr). rewrite elem_of_filter_bool, negb_true_iff, Z.leb_gt in Hr. simpl. by destruct r.
    + intros [Hp Hin]. exists (mkRow (wDeploymentID w) (Percent w)). split; [by destruct w|].
      rewrite elem_of_filter_bool, negb_true_iff, Z.leb_gt. done.
Qed.

Definition rows_distinct (rows : option (string + list DeploymentWeightsRow)) : Prop :=
  match rows with Some (inr rows) => NoDup (map ID rows) | _ => True end.

Lemma Refresh_wf b a rows :
  wf_backend b → rows_distinct rows → wf_backend (RefreshDeploymentWeights b a rows).2.
Proof.
  intros Hb Hrows. unfold RefreshDeploymentWeights. destruct rows as [[e|rows]|]; try done.
  destruct (build_weights_spec rows Hrows) as [Hnd Hin].
  destruct (buildDeploymentWeights rows) as [|w ws]; [by apply wf_delete|].
  apply wf_insert; [done|]. set (p := default new_picker (b !! a)).
  assert (0 ≤ cursor p < 2 ^ 64 ∧ ∀ d s, sets p !! d = Some s → wf_set s) as [Hc Hs].
  { unfold p. destruct (b !! a) as [p0|] eqn:Ha; simpl; [|split; [lia|set_solver]].
    destruct (Hb _ _ Ha). auto. }
  constructor; simpl; auto.
  - intros w' Hw'. by apply Hin.
  - intros d s [Hd _]%map_lookup_filter_Some. by eapply Hs.
Qed.

Lemma Pick_wf b a h : wf_backend b → wf_backend (Pick b a h).2.
Proof.
  intros Hb. unfold Pick. destruct (b !! a) as [p|] eqn:Ha; [|done].
  destruct (pick_app p h) as [r p'] eqn:E. simpl. apply wf_insert; [done|].
  by destruct (pick_app_frame p h r p' (Hb _ _ Ha) E).
Qed.

(** The critical sections of the backend, in any order. *)
Inductive bstep : PGBackend → PGBackend → Prop :=
| step_admit b appID dep r now : reply_consistent b appID r → bstep b (admit_reply b appID dep r now).2
| step_evict b appID instance : bstep b (EvictInstance b appID instance)
| step_evict_all b appID : bstep b (EvictTarget b appID)
| step_refresh b appID rows : rows_distinct rows → bstep b (RefreshDeploymentWeights b appID rows).2
| step_pick b appID h : bstep b (Pick b appID h).2.

Lemma bstep_wf b b' : bstep b b' → wf_backend b → wf_backend b'.
Proof.
  destruct 1; intros Hb; eauto using EvictInstance_wf, Refresh_wf, Pick_wf, wf_delete.
  unfold admit_reply. case_match; simpl; [done|by apply admit_add_wf].
Qed.

Lemma bsteps_wf b b' : rtc bstep b b' → wf_backend b → wf_backend b'.
Proof. induction 1 as [|b1 b2 b3 Hs _ IH]; [done|]. intros H1. by apply IH, (bstep_wf b1). Qed.

(** C13: The gateway's instance cache is well-formed whatever happens to it: after any sequence of
    admissions, evictions, weight refreshes and picks, in any interleaving of their critical sections,
    every app's weights are positive and distinct with their running sums beside them, every target
    set holds distinct named instances and lists exactly the nodes they run on, each with a cursor,
    and the counters are 64-bit; provided schedd does not move a cached instance to another node under
    its id and the live deployments have distinct ids. *)
Theorem backend_well_formed b : rtc bstep ∅ b → wf_backend b.
Proof. intros H. by apply (bsteps_wf ∅), map_Forall_empty. Qed.

(** ** The traffic split *)

Definition total (ws : list deploymentWeight) : Z := foldr (λ w n, Percent w + n) 0 ws.

Lemma total_cons w ws : total (w :: ws) = Percent w + total ws.
Proof. done. Qed.

Lemma weights_app l1 l2 : total (l1 ++ l2) = total l1 + total l2.
Proof. induction l1 as [|w l1 IH]; simpl; [done|]. rewrite IH. lia. Qed.

Lemma total_nonneg ws : (∀ w, w ∈ ws → 0 < Percent w) → 0 ≤ total ws.
Proof.
  induction ws as [|w ws IH]; intros H; simpl; [lia|].
  pose proof (H w ltac:(set_solver)). specialize (IH ltac:(set_solver)). lia.
Qed.

Lemma total_take_mono ws i j :
  (∀ w, w ∈ ws → 0 < Percent w) → (i ≤ j)%nat → total (take i ws) ≤ total (take j ws).
Proof.
  intros Hpos Hij. rewrite <- (take_drop i (take j ws)), take_take, Nat.min_l, weights_app by done.
  assert (0 ≤ total (drop i (take j ws))); [|lia]. apply total_nonneg. intros w Hw. apply Hpos.
  rewrite <- (take_drop j ws), <- (take_drop i (take j ws)). set_solver.
Qed.

Lemma sums_from_lookup ws a j :
  (∀ w, w ∈ ws → 0 < Percent w) → 0 ≤ a → a + total ws < 2 ^ 63 → (j < length ws)%nat →
  sums_from a ws !! j = Some (a + total (take (S j) ws)).
Proof.
  revert a j. induction ws as [|w ws IH]; intros a j Hpos Ha Hmax Hj; [simpl in Hj; lia|].
  rewrite total_cons in Hmax. rewrite firstn_cons, total_cons. simpl in Hj. cbn [sums_from].
  pose proof (Hpos w ltac:(set_solver)). pose proof (total_nonneg ws ltac:(set_solver)).
  rewrite i64_id by (unfold in_i64; lia). destruct j as [|j].
  - rewrite take_0. unfold total. simpl. f_equal. lia.
  - simpl lookup. rewrite IH by (set_solver || lia). f_equal. lia.
Qed.

(** The binary search finds the threshold. *)
Lemma search_below fuel p slot lo hi chosen :
  (∀ j, (lo ≤ j < hi)%nat → ¬ slot < default 0 (cum p !! j)) → search fuel p slot lo hi chosen = chosen.
Proof.
  revert lo. induction fuel as [|fuel IH]; intros lo H; cbn [search]; [done|].
  destruct (lo <? hi)%nat eqn:E; [|done]. apply Nat.ltb_lt in E.
  pose proof (Nat.Div0.div_lt_upper_bound (lo + hi) 2 hi ltac:(lia)).
  pose proof (Nat.div_le_lower_bound (lo + hi) 2 lo ltac:(lia) ltac:(lia)).
  destruct (slot <? default 0 (cum p !! ((lo + hi) / 2)%nat)) eqn:Ec; breflect.
  - by destruct (H ((lo + hi) / 2)%nat).
  - apply IH. intros j Hj. apply H. lia.
Qed.

Lemma search_threshold fuel p slot lo hi chosen i :
  (∀ j, (lo ≤ j < hi)%nat → slot < default 0 (cum p !! j) ↔ (i ≤ j)%nat) →
  (lo ≤ i < hi)%nat → (hi - lo ≤ fuel)%nat →
  search fuel p slot lo hi chosen = default EmptyString (wDeploymentID <$> weights p !! i).
Proof.
  revert lo hi chosen. induction fuel as [|fuel IH]; intros lo hi chosen Hth Hi Hf; [lia|]. cbn [search].
  destruct (lo <? hi)%nat eqn:E; [|apply Nat.ltb_ge in E; lia].
  pose proof (Nat.Div0.div_lt_upper_bound (lo + hi) 2 hi ltac:(lia)).
  pose proof (Nat.div_le_lower_bound (lo + hi) 2 lo ltac:(lia) ltac:(lia)).
  set (mid := ((lo + hi) / 2)%nat) in *.
  destruct (slot <? default 0 (cum p !! mid)) eqn:Ec; breflect.
  - apply Hth in Ec; [|lia]. destruct (decide (i = mid)) as [->|Hne].
    + apply search_below. intros j Hj Hlt. apply Hth in Hlt; lia.
    + apply IH; [|lia|lia]. intros j Hj. apply Hth. lia.
  - assert (¬ (i ≤ mid)%nat) by (rewrite <- Hth by lia; lia).
    apply IH; [|lia|lia]. intros j Hj. apply Hth. lia.
Qed.

(** The deployment of a slot, and its interval. *)
Definition slot_owner (p : appPicker) (slot : Z) : string :=
  search (length (cum p)) p slot 0 (length (cum p))
         (default EmptyString (wDeploymentID <$> head (weights p))).

Lemma slot_owner_interval p pre w post slot :
  wf_picker p → total (weights p) < 2 ^ 63 → weights p = pre ++ w :: post →
  total pre ≤ slot < total pre + Percent w → slot_owner p slot = wDeploymentID w.
Proof.
  intros Hp Hmax Hw Hslot. unfold slot_owner.
  assert (length (cum p) = length (weights p)) as Hl
    by (rewrite (p_cum p Hp); apply length_sums_from).
  assert (length (weights p) = length pre + S (length post))%nat as Hlen by (rewrite Hw, length_app; done).
  rewrite (search_threshold _ _ _ _ _ _ (length pre)); [|intros j Hj|lia|lia].
  - rewrite Hw, lookup_app_r, Nat.sub_diag by lia. done.
  - rewrite (p_cum p Hp). unfold buildCumulativeWeights.
    rewrite sums_from_lookup by (apply (p_positive p Hp) || lia). simpl default. rewrite Z.add_0_l.
    assert (total (take (length pre) (weights p)) = total pre) as H0 by by rewrite Hw, take_app_length.
    assert (total (take (S (length pre)) (weights p)) = total pre + Percent w) as H1.
    { rewrite Hw, cons_middle, app_assoc, take_app_length', weights_app by (rewrite length_app; simpl; lia).
      simpl. lia. }
    split; intros H.
    + destruct (decide (length pre ≤ j)%nat) as [|Hj']; [done|].
      pose proof (total_take_mono (weights p) (S j) (length pre) (p_positive p Hp) ltac:(lia)). lia.
    + pose proof (total_take_mono (weights p) (S (length pre)) (S j) (p_positive p Hp) ltac:(lia)). lia.
Qed.

Lemma slot_interval ws slot :
  0 ≤ slot < total ws → ∃ pre w post, ws = pre ++ w :: post ∧ total pre ≤ slot < total pre + Percent w.
Proof.
  revert slot. induction ws as [|w ws IH]; intros slot Hs; simpl in *; [lia|].
  destruct (decide (slot < Percent w)) as [Hlt|Hge]; [exists [], w, ws; simpl; split; [done|lia]|].
  destruct (IH (slot - Percent w)) as (pre & w' & post & -> & Hr); [lia|].
  exists (w :: pre), w', post. simpl. split; [done|]. lia.
Qed.

Lemma interval_count a n m :
  0 ≤ a → 0 ≤ n → a + n ≤ m →
  Z.of_nat (length (filter (λ k, (a <=? k) && (k <? a + n)) (seqZ 0 m))) = n.
Proof.
  intros Ha Hn Hm. replace m with (a + (n + (m - a - n))) by lia.
  rewrite !seqZ_app, !filter_app, !length_app by lia.
  rewrite (filter_none _ (seqZ 0 a)), filter_all, filter_none, length_seqZ; simpl; [lia|..];
    intros k [? ?]%elem_of_seqZ; rewrite ?andb_true_iff, ?andb_false_iff, ?Z.leb_le, ?Z.ltb_lt, ?Z.leb_gt, ?Z.ltb_ge;
    lia.
Qed.

Lemma filter_ext_in {A} (P Q : A → bool) (l : list A) : (∀ x, x ∈ l → P x = Q x) → filter P l = filter Q l.
Proof.
  induction l as [|x l IH]; intros H; [done|]. rewrite !filter_cons_bool, (H x), IH by set_solver. done.
Qed.

Lemma split_unique ws pre w post pre' w' post' :
  NoDup (map wDeploymentID ws) → ws = pre ++ w :: post → ws = pre' ++ w' :: post' →
  wDeploymentID w' = wDeploymentID w → pre' = pre ∧ w' = w.
Proof.
  intros Hnd H1 H2 Hid.
  assert (length pre' = length pre) as Hl.
  { eapply NoDup_lookup; [exact Hnd| |].
    - rewrite H2, map_app, map_cons. rewrite list_lookup_middle by (by rewrite length_map). done.
    - rewrite H1, map_app, map_cons. rewrite list_lookup_middle by (by rewrite length_map). by rewrite Hid. }
  rewrite H1 in H2. apply app_inj_1 in H2 as [-> [= -> _]]; [done|lia].
Qed.

(** Of the hundred slots a deployment owns as many as its percentage. *)
Lemma slot_owner_count p w :
  wf_picker p → total (weights p) = 100 → w ∈ weights p →
  Z.of_nat (length (filter (λ k, String.eqb (slot_owner p k) (wDeploymentID w)) (seqZ 0 100))) = Percent w.
Proof.
  intros Hp Ht Hw. apply list_elem_of_split in Hw as (pre & post & Hsplit).
  pose proof (p_positive p Hp) as Hpos. rewrite Hsplit in Ht, Hpos. rewrite weights_app, total_cons in Ht.
  pose proof (total_nonneg pre ltac:(set_solver)). pose proof (total_nonneg post ltac:(set_solver)).
  pose proof (Hpos w ltac:(set_solver)).
  rewrite (filter_ext_in _ (λ k, (total pre <=? k) && (k <? total pre + Percent w)));
    [apply interval_count; lia|].
  assert (total (weights p) = 100) as Ht' by (rewrite Hsplit, weights_app, total_cons; lia).
  intros k Hk%elem_of_seqZ. apply eq_true_iff_eq.
  rewrite String.eqb_eq, andb_true_iff, Z.leb_le, Z.ltb_lt. split;
    [|apply (slot_owner_interval p pre w post); [done|lia|done]].
  destruct (slot_interval (weights p) k) as (pre' & w' & post' & Hsplit' & Hk'); [lia|].
  rewrite (slot_owner_interval p pre' w' post' k) by (done || lia). intros Hid.
  destruct (split_unique (weights p) pre w post pre' w' post') as [-> ->]; try done. apply (p_ids p Hp).
Qed.

(** [n] consecutive picks of an app. *)
Fixpoint pick_run (n : nat) (p : appPicker) (h : string) : list PickResult :=
  match n with
  | O => []
  | S n => let '(r, p') := pick_app p h in r :: pick_run n p' h
  end.

Lemma pick_app_multi p h :
  wf_picker p → (2 ≤ length (weights p))%nat →
  Picked (pick_app p h).1 = slot_owner p (slot_of p) ∧ cursor (pick_app p h).2 = u64 (cursor p + 1).
Proof.
  intros Hp Hl. unfold pick_app. destruct (weights p) as [|w [|w2 ws]] eqn:Ew; try (simpl in Hl; lia).
  assert (∀ d, cursor (pick_in (advance p) d h).2 = u64 (cursor p + 1)) as Hc.
  { intros d. destruct (pick_in (advance p) d h) as [t q] eqn:E. simpl.
    by destruct (pick_in_wf _ _ _ _ _ (advance_wf p Hp) E) as (_ & _ & _ & -> & _). }
  assert (pick_deployment p = slot_owner p (slot_of p)) as Hd by done. rewrite Hd.
  destruct (is_cold _ _); [destruct (fallback _ _ _) as [d|]; [specialize (Hc d)|done]|specialize (Hc (slot_owner p (slot_of p)))];
    destruct (pick_in _ _ _) as [[t|] q]; done.
Qed.

Lemma pick_app_warm p h :
  wf_picker p → (2 ≤ length (weights p))%nat → (∀ d, weighted p d → is_cold p d = false) →
  ∃ t, PTarget (pick_app p h).1 = Some t ∧ DeploymentID t = Picked (pick_app p h).1.
Proof.
  intros Hp Hl Hw. specialize (Hw _ (pick_deployment_weighted p Hp)).
  unfold pick_app. destruct (weights p) as [|w [|w2 ws]]; try (simpl in Hl; lia).
  assert (is_cold (advance p) (pick_deployment p) = false) as -> by done.
  destruct (pick_in_warm (advance p) (pick_deployment p) h (advance_wf p Hp)) as (t & l & q & -> & _); [done|].
  simpl. eauto.
Qed.

Lemma search_ext fuel p q k lo hi c :
  weights q = weights p → cum q = cum p → search fuel q k lo hi c = search fuel p k lo hi c.
Proof.
  intros Hw Hc. revert lo hi c. induction fuel as [|fuel IH]; intros lo hi c; cbn [search]; [done|].
  rewrite Hc, Hw. by repeat case_match.
Qed.

Lemma slot_owner_ext p q k : weights q = weights p → cum q = cum p → slot_owner q k = slot_owner p k.
Proof. intros Hw Hc. unfold slot_owner. rewrite Hw, Hc. by apply search_ext. Qed.

Lemma slot_of_mod p : 0 ≤ cursor p < 2 ^ 63 → slot_of p = cursor p mod 100.
Proof. intros H. unfold slot_of. rewrite i64_id by (unfold in_i64; lia). apply Z.rem_mod_nonneg; lia. Qed.

Lemma pick_run_spec n p h :
  wf_picker p → (2 ≤ length (weights p))%nat → cursor p + Z.of_nat n ≤ 2 ^ 63 →
  map Picked (pick_run n p h)
  = map (λ k : nat, slot_owner p ((cursor p + Z.of_nat k) mod 100)) (seq 0 n) ∧
  ((∀ d, weighted p d → is_cold p d = false) →
   Forall (λ r, ∃ t, PTarget r = Some t ∧ DeploymentID t = Picked r) (pick_run n p h)).
Proof.
  revert p. induction n as [|n IH]; intros p Hp Hl Hc; [by split|]. cbn [pick_run].
  destruct (pick_app_multi p h Hp Hl) as [Hpick Hcur]. pose proof (p_cursor p Hp).
  pose proof (pick_app_warm p h Hp Hl) as Hwarm. pose proof (pick_app_frame p h) as Hframe.
  destruct (pick_app p h) as [r p'] eqn:E. destruct (Hframe r p' Hp eq_refl) as (Hp' & Hw & Hcum & Hr).
  simpl in *. rewrite u64_id in Hcur by lia.
  destruct (IH p') as [IH1 IH2]; [done|by rewrite Hw|lia|]. split.
  - rewrite Hpick, slot_of_mod, Z.add_0_r by lia. f_equal. rewrite IH1, <- seq_shift, map_map.
    apply map_ext. intros k. rewrite Hcur, (slot_owner_ext p) by done. do 2 f_equal. lia.
  - intros Hall. constructor; [by apply Hwarm|]. apply IH2. intros d Hd.
    rewrite is_cold_roster, Hr, <- is_cold_roster. apply Hall. destruct Hd as (w & ? & ?). exists w. by rewrite <- Hw.
Qed.

Lemma length_filter_map {A B} (f : A → B) (P : B → bool) (l : list A) :
  length (filter P (map f l)) = length (filter (λ x, P (f x)) l).
Proof.
  induction l as [|x l IH]; [done|]. rewrite map_cons, !filter_cons_bool. destruct (P (f x)); simpl; by rewrite IH.
Qed.

(** C12: The traffic split is exact: when an app's live deployments have percentages that add up to 100,
    any hundred consecutive picks land on each deployment exactly as many times as its percentage
    says, wherever the cursor stands; and when each of them has an instance, every one of those picks
    is served by an instance of the deployment it landed on. *)
Theorem traffic_split_exact p (h : string) w :
  wf_picker p → (2 ≤ length (weights p))%nat → total (weights p) = 100 → cursor p + 100 ≤ 2 ^ 63 →
  w ∈ weights p →
  Z.of_nat (length (filter (λ r, String.eqb (Picked r) (wDeploymentID w)) (pick_run 100 p h))) = Percent w ∧
  ((∀ d, weighted p d → is_cold p d = false) →
   Forall (λ r, ∃ t, PTarget r = Some t ∧ DeploymentID t = Picked r) (pick_run 100 p h)).
Proof.
  intros Hp Hl Ht Hc Hw. destruct (pick_run_spec 100 p h Hp Hl Hc) as [Hpick Hwarm]. split; [|done].
  rewrite <- (slot_owner_count p w Hp Ht Hw), <- (length_filter_map Picked (λ d, String.eqb d (wDeploymentID w))).
  rewrite Hpick, <- (length_filter_map (slot_owner p) (λ d, String.eqb d (wDeploymentID w))).
  f_equal. apply Permutation_length, filter_Permutation.
  rewrite <- (map_map (λ k : nat, (cursor p + Z.of_nat k) mod 100) (slot_owner p)).
  apply Permutation_map, (window_mod_perm (cursor p) 100), (p_cursor p Hp).
Qed.

(** ** Evictions *)

Lemma roster_total p : map_sum set_size (sets p) = map_sum (λ l, Z.of_nat (length l)) (roster p).
Proof. unfold roster. by rewrite map_sum_fmap. Qed.

Definition without (id : string) (l : list Target) : list Target :=
  filter (λ e, negb (String.eqb (InstanceID e) id)) l.

Lemma removed_roster p i :
  wf_picker p →
  entries <$> (fst <$> ((λ s, remove s i) <$> sets p)) = without i <$> roster p ∧
  map_sum snd ((λ s, remove s i) <$> sets p) = map_sum (λ l, Z.of_nat (length (without i l))) (roster p).
Proof.
  intros Hp. unfold roster. split.
  - rewrite <- !map_fmap_compose. apply map_fmap_ext. intros d s Hs. simpl.
    apply remove_entries. by eapply (p_sets p Hp).
  - rewrite !map_sum_fmap. apply map_sum_ext. intros d s Hs. simpl.
    rewrite remove_length, remove_entries by (by eapply (p_sets p Hp)). done.
Qed.

(** An eviction removes that instance and nothing else: every other instance of the app stays cached
    in its deployment, other apps are untouched, and the app's picker, weights included, disappears
    exactly when no instance remains. *)
Theorem EvictInstance_exact b (a i : string) p :
  wf_backend b → b !! a = Some p → a ≠ EmptyString → i ≠ EmptyString →
  (∀ a', a' ≠ a → EvictInstance b a i !! a' = b !! a') ∧
  match EvictInstance b a i !! a with
  | Some p' => roster p' = without i <$> roster p ∧ weights p' = weights p ∧ 0 < HealthyCount (EvictInstance b a i) a
  | None => ∀ d l, roster p !! d = Some l → without i l = []
  end.
Proof.
  intros Hb Hp Ha Hi. unfold EvictInstance.
  destruct (String.eqb_spec a EmptyString) as [|_]; [done|]. destruct (String.eqb_spec i EmptyString) as [|_]; [done|].
  simpl. rewrite Hp. destruct (removed_roster p i (Hb _ _ Hp)) as [Hr Ht]. rewrite Ht.
  destruct (map_sum _ (roster p) =? 0) eqn:E; breflect.
  - split; [intros a' Hne; by rewrite lookup_delete_ne|]. rewrite lookup_delete_eq. intros d l Hl.
    pose proof (map_sum_elem (λ l, Z.of_nat (length (without i l))) (roster p) d l ltac:(intros; apply Nat2Z.is_nonneg) Hl) as Hle.
    simpl in Hle. apply length_zero_iff_nil. lia.
  - split; [intros a' Hne; by rewrite lookup_insert_ne|]. rewrite lookup_insert_eq. split_and!; [done|done|].
    unfold HealthyCount. rewrite lookup_insert_eq, roster_total. unfold roster at 1. simpl. rewrite Hr.
    rewrite map_sum_fmap. pose proof (map_sum_nonneg (λ l, Z.of_nat (length (without i l))) (roster p) ltac:(intros; apply Nat2Z.is_nonneg)). lia.
Qed.

(** A traffic split does not survive scaling to zero: evicting the last instance of an app drops its
    weight table, and the next admission replaces it by all traffic for the deployment schedd happens
    to choose, whatever the percentages were, until the weights are refreshed. *)
Theorem split_lost_at_zero b (a i : string) p d r now :
  wf_backend b → b !! a = Some p → a ≠ EmptyString → i ≠ EmptyString →
  (∀ d l, roster p !! d = Some l → without i l = []) →
  EvictInstance b a i !! a = None ∧
  ∃ p', admit_add (EvictInstance b a i) a d r now !! a = Some p' ∧ weights p' = [mkWeight (bucket_of d) 100].
Proof.
  intros Hb Hp Ha Hi Hl. unfold EvictInstance.
  destruct (String.eqb_spec a EmptyString) as [|_]; [done|]. destruct (String.eqb_spec i EmptyString) as [|_]; [done|].
  simpl. rewrite Hp. destruct (removed_roster p i (Hb _ _ Hp)) as [_ Ht]. rewrite Ht.
  rewrite (map_sum_ext _ (λ _, 0)), map_sum_zero by (intros ? l Hd; by rewrite (Hl _ l Hd)). simpl.
  split; [apply lookup_delete_eq|]. unfold admit_add. rewrite lookup_delete_eq. simpl. rewrite lookup_insert_eq. eauto.
Qed.

(** ** The cap *)

Lemma add_size s t : set_size (add s t) ≤ set_size s + 1.
Proof.
  unfold set_size, add. destruct (_ || _); [lia|]. destruct (overwrite t (entries s)) as [l|] eqn:E.
  - destruct (overwrite_Some _ _ _ E) as (l1 & e & l2 & -> & _ & ->). simpl. rewrite !length_app. simpl. lia.
  - case_match; simpl; rewrite length_app; simpl; lia.
Qed.

Lemma add_fresh_size s t :
  NodeID t ≠ EmptyString → InstanceID t ≠ EmptyString → (∀ e, e ∈ entries s → InstanceID e ≠ InstanceID t) →
  set_size (add s t) = set_size s + 1.
Proof.
  intros Hn Hi Hf. unfold set_size, add. destruct (String.eqb_spec (NodeID t) EmptyString); [done|].
  destruct (String.eqb_spec (InstanceID t) EmptyString); [done|]. simpl.
  destruct (overwrite t (entries s)) as [l|] eqn:E.
  - destruct (overwrite_Some _ _ _ E) as (l1 & e & l2 & He & Hid & _). by destruct (Hf e); [rewrite He; set_solver|].
  - case_match; simpl; rewrite length_app; simpl; lia.
Qed.

Definition cached_set (b : PGBackend) (a d : string) : targetSet :=
  default empty_set (b !! a ≫= λ p, sets p !! d).

Definition admitted_target (d : string) (r : AdmitReply) (now : Time) : Target :=
  mkTarget (nodeID r) (instanceID r) (wakeID r) now (port r) d.

Lemma admit_add_count b a d r now :
  HealthyCount (admit_add b a d r now) a
  = HealthyCount b a - set_size (cached_set b a (bucket_of d))
    + set_size (add (cached_set b a (bucket_of d)) (admitted_target d r now)).
Proof.
  unfold HealthyCount, admit_add, cached_set. fold (bucket_of d). fold (admitted_target d r now).
  destruct (b !! a) as [p|] eqn:Ha; simpl.
  - destruct (match weights p with [] => _ | _ => _ end) as [ws cs]. rewrite lookup_insert_eq. simpl.
    destruct (sets p !! bucket_of d) as [s|] eqn:Hs; simpl.
    + rewrite (map_sum_update _ _ _ s) by done. lia.
    + rewrite map_sum_insert by done. change (set_size empty_set) with 0. lia.
  - rewrite lookup_insert_eq. simpl. rewrite lookup_empty. simpl. rewrite map_sum_insert by apply lookup_empty.
    rewrite map_sum_empty. change (set_size empty_set) with 0. lia.
Qed.

Lemma check_count b a k : 0 < k → admit_check b a k = (k <=? HealthyCount b a).
Proof. intros Hk. unfold admit_check, HealthyCount. destruct (b !! a); [done|]. symmetry. apply Z.leb_gt. lia. Qed.

Lemma Admit_bound rt b a d sc k now :
  0 < k → HealthyCount (Admit rt b a d sc k now).2 a ≤ Z.max (HealthyCount b a) k.
Proof.
  intros Hk. unfold Admit. rewrite check_count by done. destruct (k <=? HealthyCount b a) eqn:E; breflect; [simpl; lia|].
  destruct (resolveSched rt a) as [?|sched]; [simpl; lia|]. destruct (sched a d sc) as [?|r]; [simpl; lia|].
  unfold admit_reply. set (d' := if String.eqb (deploymentIDOut r) EmptyString then d else deploymentIDOut r).
  destruct (_ || _); simpl; [lia|]. rewrite admit_add_count.
  pose proof (add_size (cached_set b a (bucket_of d')) (admitted_target d' r now)). lia.
Qed.

(** The cap of Admit and its limit: run one after the other, admissions never take an app past its
    max_concurrency; but the check and the insertion are two critical sections, so two admissions that
    both pass the check at one below the cap leave the app one above it. *)
Theorem Admit_cap rt b (a d sc : string) (k : Z) (now : Time) d1 d2 r1 r2 :
  0 < k →
  HealthyCount (Admit rt b a d sc k now).2 a ≤ Z.max (HealthyCount b a) k ∧
  (HealthyCount b a = k - 1 →
   nodeID r1 ≠ EmptyString → nodeID r2 ≠ EmptyString →
   instanceID r1 ≠ EmptyString → instanceID r2 ≠ EmptyString →
   (∀ e, e ∈ entries (cached_set b a (bucket_of d1)) → InstanceID e ≠ instanceID r1) →
   (∀ e, e ∈ entries (cached_set (admit_add b a d1 r1 now) a (bucket_of d2)) → InstanceID e ≠ instanceID r2) →
   admit_check b a k = false ∧
   HealthyCount (admit_add (admit_add b a d1 r1 now) a d2 r2 now) a = k + 1).
Proof.
  intros Hk. split; [by apply Admit_bound|]. intros Hc Hn1 Hn2 Hi1 Hi2 Hf1 Hf2.
  rewrite check_count, Hc by done. split; [apply Z.leb_gt; lia|].
  rewrite admit_add_count, add_fresh_size by done. rewrite admit_add_count, add_fresh_size by done. lia.
Qed.

(** ** One request *)

(** The backend after the first admission of an app. *)
Lemma admit_add_new b a d r now :
  b !! a = None →
  admit_add b a d r now
  = <[a := mkPicker [mkWeight (bucket_of d) 100] [100] 0
                    {[bucket_of d := add empty_set (admitted_target d r now)]}]> b.
Proof. intros Ha. unfold admit_add. rewrite Ha. done. Qed.

Lemma map_sum_singleton (f : targetSet → Z) (d : string) s : map_sum f {[d := s]} = f s.
Proof. rewrite <- (insert_empty (M := gmap string)), map_sum_insert, map_sum_empty by apply lookup_empty. lia. Qed.

Lemma add_first t :
  NodeID t ≠ EmptyString → InstanceID t ≠ EmptyString →
  add empty_set t = mkSet 0 [t] [NodeID t] {[NodeID t := 0]}.
Proof.
  intros Hn Hi. unfold add. destruct (String.eqb_spec (NodeID t) EmptyString); [done|].
  destruct (String.eqb_spec (InstanceID t) EmptyString); [done|]. simpl. by rewrite lookup_empty.
Qed.

(** C11: A request to a sleeping app reaches the instance it woke.  When schedd admits an instance for
    an app the gateway has nothing cached for and the answer comes before the gate's abort poll and
    before the client leaves, the request is routed to that instance, which is all the cache then
    holds, whatever deployment schedd chose.  When the abort poll or the client is first the request
    ends with that error, and the detached wake still adds the instance, if at all, as the only one. *)
Theorem route_wakes waits rt b (a sc h : string) (k : Z) (now : Time) sched r :
  b !! a = None → 0 < k → resolveSched rt a = inr sched → sched a EmptyString sc = inr r →
  atCapacity r = false → nodeID r ≠ EmptyString → instanceID r ≠ EmptyString →
  let t := admitted_target (deploymentIDOut r) r now in
  let out := route waits rt b a sc h k now in
  match waits 0%nat with
  | EnsureFirst => out.1 = Routed t ∧ HealthyCount out.2 a = 1
  | AbortFirst landed =>
      out.1 = RouteError Gate.ErrBootstrapAborted ∧
      HealthyCount out.2 a = (if landed then 1 else 0)
  | ContextFirst landed =>
      out.1 = RouteError Gate.ErrContext ∧ HealthyCount out.2 a = (if landed then 1 else 0)
  end.
Proof.
  intros Hb Hk Hres Hs Hcap Hn Hi t.
  assert (Admit rt b a EmptyString sc k now
          = (AdmitDone (wakeID r) (scheddWakeMethodToGateway (rawMethod r)), admit_add b a (deploymentIDOut r) r now)) as HA.
  { unfold Admit. unfold admit_check. rewrite Hb, Hres, Hs. unfold admit_reply. rewrite Hcap.
    destruct (String.eqb_spec (nodeID r) EmptyString); [done|].
    destruct (String.eqb_spec (instanceID r) EmptyString); [done|]. simpl.
    by destruct (String.eqb_spec (deploymentIDOut r) EmptyString) as [->|]. }
  assert (HealthyCount b a = 0) as H0 by (unfold HealthyCount; by rewrite Hb).
  assert (HealthyCount (admit_add b a (deploymentIDOut r) r now) a = 1) as H1.
  { rewrite admit_add_new by done. rewrite add_first by done. unfold HealthyCount.
    rewrite lookup_insert_eq. simpl. by rewrite map_sum_singleton. }
  unfold route, ensureCapacity. destruct (Z.to_nat k) as [|fuel] eqn:Ek; [lia|]. cbn [ensure_loop].
  unfold coldStart. rewrite H0. change (0 =? 0) with true. cbv iota.
  assert (Gate.shouldWake 0 k = true) as -> by (by apply Z.ltb_lt).
  rewrite HA. destruct (waits 0%nat) as [|[]|[]]; [|done..].
  rewrite admit_add_new by done. rewrite add_first by done.
  unfold Pick. rewrite lookup_insert_eq. unfold pick_app. simpl. unfold pick_in. simpl.
  rewrite lookup_singleton_eq. unfold pick. simpl. rewrite map_size_singleton. simpl. split; [done|].
  unfold HealthyCount. rewrite lookup_insert_eq. simpl. erewrite map_sum_update by apply lookup_singleton_eq.
  by rewrite map_sum_singleton.
Qed.

(** HealthyCount counts instances Pick cannot reach: when the only live deployment has no cached
    instance but those of a superseded one fill the cap, a request neither admits an instance nor
    finds one, and fails until the old instances are evicted. *)
Theorem superseded_blocks waits rt b (a sc h : string) (k : Z) (now : Time) p w :
  b !! a = Some p → weights p = [w] → sets p !! wDeploymentID w = None →
  0 < k ≤ HealthyCount b a →
  (route waits rt b a sc h k now).1 = NoTarget ∧
  HealthyCount (route waits rt b a sc h k now).2 a = HealthyCount b a.
Proof.
  intros Hb Hw Hs Hk. unfold route, ensureCapacity. destruct (Z.to_nat k) as [|fuel] eqn:Ek; [lia|].
  cbn [ensure_loop]. destruct (HealthyCount b a =? 0) eqn:E0; breflect; [lia|].
  destruct (k <=? HealthyCount b a) eqn:E1; breflect; [|lia].
  unfold Pick. rewrite Hb. unfold pick_app. rewrite Hw. unfold pick_in. rewrite Hs. simpl. split; [done|].
  unfold HealthyCount. by rewrite lookup_insert_eq, Hb.
Qed.

(** ** Witnesses *)

Definition consistent_b (b : PGBackend) (a : string) (r : AdmitReply) : bool :=
  match b !! a with
  | None => true
  | Some p =>
      forallb (λ ds : string * targetSet,
        forallb (λ e, negb (String.eqb (InstanceID e) (instanceID r)) || String.eqb (NodeID e) (nodeID r))
                (entries ds.2)) (map_to_list (sets p))
  end.

Lemma consistent_b_sound b a r : consistent_b b a r = true → reply_consistent b a r.
Proof.
  unfold consistent_b. intros H p d s e Hb Hs He Hid. rewrite Hb in H.
  rewrite forallb_forall in H. specialize (H (d, s)).
  rewrite <- list_elem_of_In, elem_of_map_to_list, forallb_forall in H. specialize (H Hs e).
  rewrite <- list_elem_of_In in H. specialize (H He). rewrite Hid, String.eqb_refl in H. by apply String.eqb_eq.
Qed.

(** Two deployments at 90 and 10 percent, with two instances on one node and one on another. *)
Definition ex_reply (i n d : string) : AdmitReply := mkReply i n d "w" 0 false 8080.

Definition ex_rows : list DeploymentWeightsRow := [mkRow "d1" 90; mkRow "d2" 10; mkRow "d0" 0]%string.

Definition ex_admit (b : PGBackend) (i n d : string) : PGBackend :=
  (admit_reply b "app" EmptyString (ex_reply i n d) 0).2.

Definition ex_b1 : PGBackend := ex_admit (ex_admit ∅ "i1" "n1" "d1") "i2" "n1" "d1".

Definition ex_b2 : PGBackend := ex_admit (ex_admit ex_b1 "i3" "n2" "d1") "i4" "n2" "d2".

Definition ex_backend : PGBackend := (RefreshDeploymentWeights ex_b2 "app" (Some (inr ex_rows))).2.

Definition ex_picker : appPicker := default new_picker (ex_backend !! "app"%string).

Lemma ex_admit_step b i n d :
  consistent_b b "app" (ex_reply i n d) = true → bstep b (ex_admit b i n d).
Proof. intros H. apply step_admit. by apply consistent_b_sound. Qed.

Lemma ex_reachable : rtc bstep ∅ ex_backend.
Proof.
  apply rtc_l with (ex_admit ∅ "i1" "n1" "d1"); [apply ex_admit_step; reflexivity|].
  apply rtc_l with ex_b1; [apply ex_admit_step; vm_compute; reflexivity|].
  apply rtc_l with (ex_admit ex_b1 "i3" "n2" "d1"); [apply ex_admit_step; vm_compute; reflexivity|].
  apply rtc_l with ex_b2; [apply ex_admit_step; vm_compute; reflexivity|].
  apply rtc_once, step_refresh. vm_decide.
Qed.

Lemma ex_wf : wf_backend ex_backend.
Proof. apply (bsteps_wf ∅); [apply ex_reachable|apply map_Forall_empty]. Qed.

Lemma ex_lookup : ex_backend !! "app"%string = Some ex_picker.
Proof. vm_compute. reflexivity. Qed.

Lemma ex_picker_wf : wf_picker ex_picker.
Proof. exact (ex_wf _ _ ex_lookup). Qed.

Definition ex_set : targetSet := default empty_set (sets ex_picker !! "d1"%string).

Lemma ex_set_wf : wf_set ex_set.
Proof. apply (p_sets _ ex_picker_wf "d1"). vm_compute. reflexivity. Qed.

Lemma backend_well_formed_witness : wf_backend ex_backend ∧ HealthyCount ex_backend "app" = 4.
Proof. split; [apply backend_well_formed, ex_reachable|vm_compute; reflexivity]. Defined.

Lemma pick_balances_witness :
  winner ex_set "n2" = "n2"%string ∧
  (∀ e, e ∈ entries ex_set → count_on ex_set (NodeID e) ≤ count_on ex_set (winner ex_set "n9")) ∧
  picks 2 ex_set "n9" ≡ₚ Some <$> filter (on_node "n1") (entries ex_set).
Proof.
  destruct (pick_balances ex_set "n2" ex_set_wf ltac:(vm_compute; discriminate)) as (H1 & _ & _).
  destruct (pick_balances ex_set "n9" ex_set_wf ltac:(vm_compute; discriminate)) as (_ & H2 & H3).
  split_and!.
  - apply H1; [vm_decide|discriminate|]. exists (admitted_target "d1" (ex_reply "i3" "n2" "d1") 0).
    split; vm_decide.
  - apply H2. apply Forall_forall. vm_decide.
  - apply H3. vm_decide.
Defined.

Lemma Pick_serves_witness : ∃ t, PTarget (Pick ex_backend "app" EmptyString).1 = Some t.
Proof.
  destruct (Pick_serves ex_backend "app" EmptyString ex_picker ex_wf ex_lookup) as [[_ H] _].
  apply H. exists "d2"%string. split; [|vm_compute; reflexivity].
  exists (mkWeight "d2" 10). split; [|reflexivity]. vm_compute. right. left.
Defined.

Lemma traffic_split_exact_witness :
  Z.of_nat (length (filter (λ r, String.eqb (Picked r) "d2") (pick_run 100 ex_picker EmptyString))) = 10 ∧
  Forall (λ r, ∃ t, PTarget r = Some t ∧ DeploymentID t = Picked r) (pick_run 100 ex_picker EmptyString).
Proof.
  destruct (traffic_split_exact ex_picker EmptyString (mkWeight "d2" 10)) as [H1 H2].
  - apply ex_picker_wf.
  - vm_decide.
  - vm_decide.
  - vm_decide.
  - vm_compute. right. left.
  - split; [exact H1|]. apply H2. intros d (w & Hw & <-). revert w Hw. apply Forall_forall. vm_decide.
Defined.

Lemma EvictInstance_exact_witness :
  match EvictInstance ex_backend "app" "i1" !! "app"%string with
  | Some p' => roster p' = without "i1" <$> roster ex_picker ∧ weights p' = weights ex_picker ∧
               0 < HealthyCount (EvictInstance ex_backend "app" "i1") "app"
  | None => ∀ d l, roster ex_picker !! d = Some l → without "i1" l = []
  end.
Proof.
  apply (EvictInstance_exact ex_backend "app" "i1" ex_picker ex_wf ex_lookup); discriminate.
Defined.

(** The same split with one instance left. *)
Definition ex_last : PGBackend :=
  (RefreshDeploymentWeights (ex_admit ∅ "i1" "n1" "d1") "app" (Some (inr ex_rows))).2.

Lemma ex_last_wf : wf_backend ex_last.
Proof.
  apply Refresh_wf; [|vm_decide]. apply (bstep_wf ∅); [|apply map_Forall_empty]. by apply ex_admit_step.
Qed.

Lemma split_lost_at_zero_witness :
  EvictInstance ex_last "app" "i1" !! "app"%string = None ∧
  ∃ p', admit_add (EvictInstance ex_last "app" "i1") "app" "d2" (ex_reply "i9" "n1" "d2") 5 !! "app"%string = Some p' ∧
        weights p' = [mkWeight "d2" 100].
Proof.
  apply (split_lost_at_zero ex_last "app" "i1" (default new_picker (ex_last !! "app"%string)) "d2").
  - apply ex_last_wf.
  - vm_compute. reflexivity.
  - discriminate.
  - discriminate.
  - intros d l Hl. revert d l Hl. apply (map_Forall_lookup (λ _ l, without "i1" l = [])). vm_decide.
Defined.

Definition ex_routing : Routing :=
  mkRouting (λ _ _ _, inr (ex_reply "i7" "n1" "d2")) None None true.

Lemma Admit_cap_witness :
  HealthyCount (Admit ex_routing ex_last "app" EmptyString EmptyString 2 5).2 "app" ≤ 2 ∧
  HealthyCount (admit_add (admit_add ex_last "app" "d2" (ex_reply "i7" "n1" "d2") 5) "app" "d2"
                          (ex_reply "i8" "n1" "d2") 5) "app" = 3.
Proof.
  destruct (Admit_cap ex_routing ex_last "app" EmptyString EmptyString 2 5 "d2" "d2"
              (ex_reply "i7" "n1" "d2") (ex_reply "i8" "n1" "d2")) as [H1 H2]; [lia|].
  split; [exact H1|]. apply H2; [vm_compute; reflexivity|discriminate..| |]; apply Forall_forall; vm_decide.
Defined.

Lemma route_wakes_witness :
  (let out := route (λ _, EnsureFirst) ex_routing ∅ "app" EmptyString EmptyString 1 5 in
   out.1 = Routed (admitted_target "d2" (ex_reply "i7" "n1" "d2") 5) ∧ HealthyCount out.2 "app" = 1) ∧
  (let out := route (λ _, AbortFirst true) ex_routing ∅ "app" EmptyString EmptyString 1 5 in
   out.1 = RouteError Gate.ErrBootstrapAborted ∧ HealthyCount out.2 "app" = 1).
Proof.
  split.
  - apply (route_wakes (λ _, EnsureFirst) ex_routing ∅ "app" EmptyString EmptyString 1 5
             (λ _ _ _, inr (ex_reply "i7" "n1" "d2")) (ex_reply "i7" "n1" "d2"));
      try reflexivity; discriminate.
  - apply (route_wakes (λ _, AbortFirst true) ex_routing ∅ "app" EmptyString EmptyString 1 5
             (λ _ _ _, inr (ex_reply "i7" "n1" "d2")) (ex_reply "i7" "n1" "d2"));
      try reflexivity; discriminate.
Defined.

(** Deployment d2 replaces d1, whose instance is still running, on a plan with one instance. *)
Definition ex_superseded : PGBackend :=
  (RefreshDeploymentWeights (ex_admit ∅ "i1" "n1" "d1") "app" (Some (inr [mkRow "d2" 100]%string))).2.

Lemma superseded_blocks_witness :
  (route (λ _, EnsureFirst) ex_routing ex_superseded "app" EmptyString EmptyString 1 5).1 = NoTarget ∧
  HealthyCount (route (λ _, EnsureFirst) ex_routing ex_superseded "app" EmptyString EmptyString 1 5).2 "app"
  = HealthyCount ex_superseded "app".
Proof.
  apply (superseded_blocks (λ _, EnsureFirst) ex_routing ex_superseded "app" EmptyString EmptyString 1 5
           (default new_picker (ex_superseded !! "app"%string)) (mkWeight "d2" 100)).
  - vm_compute. reflexivity.
  - vm_compute. reflexivity.
  - vm_compute. reflexivity.
  - vm_decide.
Defined.

End Picker.
