(* ===== verification/EdgeLimiter.v ===== *)
(** * pkg/gateway: the edge rate limiter

    Models src/pkg/gateway/ratelimit.go: the token buckets in front of every app, account and edge rule,
    the recency list that bounds their number, the per-rule consumer sets with their collapse bucket,
    and the consultation of the central counter (ratelimit_central.go).

    Every method runs under the limiter's mutex and is one step; the clock is an argument.  Tokens are
    float64 ([Float64]).  The recency list holds bucket keys, most recently used first; a list element
    and the map entry of its key share one bucket, so the key stands for both. *)

From S2P Require Import Prelude Api Float64.
#[local] Open Scope Z_scope.
#[local] Open Scope go_scope.

Module EdgeLimiter.
Import Float64.

Definition LimiterEvictScan : nat := 32.

Definition ConsumerKeySentinel : string := "__other__".

Record bucket := mkBucket {
  tokens : Q;
  rps : Q;
  burst : Q;
  last : Time;
  pinned : bool;
}.

(** [PeekToken(scope, subjectID, plan)]: an error or the tokens left.  The default backend, which is
    never asked, is [None]. *)
Abbreviation CentralBackend := (option (string → string → string → string + Z)).

Record Limiter := mkLimiter {
  buckets : gmap string bucket;
  noop : bool;
  cap : Z;
  ll : list string;                              (* only with [cap > 0] *)
  ruleConsumers : gmap string (gset string);
  central : CentralBackend;
}.

Definition NewLimiter : Limiter := mkLimiter ∅ false 0 [] ∅ None.

Definition NewLimiterWithCentralLRU (capacity : Z) (c : CentralBackend) : Limiter :=
  mkLimiter ∅ false (if 0 <? capacity then capacity else 0) [] ∅ c.

Definition uses_lru (l : Limiter) : bool := 0 <? cap l.

(** ** Eviction *)

Definition bucketFull (b : bucket) (now : Time) : bool :=
  if fle (burst b) 0 then false
  else
    let dt := Seconds (time_sub now (last b)) in
    let t := if flt 0 dt then fadd (tokens b) (fmul dt (rps b)) else tokens b in
    fle (burst b) t.

Definition removeElementLocked (l : Limiter) (k : string) : Limiter :=
  mkLimiter (delete k (buckets l)) (noop l) (cap l) (filter (λ x, negb (String.eqb x k)) (ll l))
            (ruleConsumers l) (central l).

(** The walk from the back, [scan] elements at most. *)
Fixpoint evict_scan (l : Limiter) (now : Time) (scan : nat) (back : list string) : Limiter :=
  match scan, back with
  | S scan, k :: back =>
      match buckets l !! k with
      | Some b => if negb (pinned b) && bucketFull b now then removeElementLocked l k
                  else evict_scan l now scan back
      | None => evict_scan l now scan back
      end
  | _, _ => l
  end.

Definition evictOneLocked (l : Limiter) (now : Time) : Limiter :=
  if uses_lru l then evict_scan l now LimiterEvictScan (reverse (ll l)) else l.

(** ** Taking a token *)

(** [b.tokens += now.Sub(b.last).Seconds() * b.rps], capped. *)
Definition refill (b : bucket) (r bu : Q) (now : Time) : bucket :=
  let t := fadd (tokens b) (fmul (Seconds (time_sub now (last b))) r) in
  mkBucket (if flt bu t then bu else t) r bu now (pinned b).

Definition set_bucket (l : Limiter) (id : string) (b : bucket) (order : list string) : Limiter :=
  mkLimiter (<[id := b]> (buckets l)) (noop l) (cap l) order (ruleConsumers l) (central l).

Definition to_front (l : Limiter) (id : string) : list string :=
  if uses_lru l then id :: filter (λ x, negb (String.eqb x id)) (ll l) else ll l.

(** The bucket a request finds: refilled, or created full after making room. *)
Definition find_bucket (l : Limiter) (id : string) (r bu : Q) (pinnedKey : string) (now : Time)
    : bucket * Limiter :=
  match buckets l !! id with
  | None =>
      let l := if (0 <? cap l) && (cap l <=? Z.of_nat (size (buckets l))) then evictOneLocked l now else l in
      let b := mkBucket bu r bu now (negb (String.eqb pinnedKey EmptyString) && String.eqb id pinnedKey) in
      (b, set_bucket l id b (to_front l id))
  | Some b =>
      let b := refill b r bu now in
      let order := if bool_decide (id ∈ ll l) then to_front l id else ll l in
      (b, set_bucket l id b order)
  end.

Definition allowTokenKeyedLocked (l : Limiter) (id : string) (r bu : Q) (pinnedKey : string) (now : Time)
    : bool * Limiter :=
  let '(b, l) := find_bucket l id r bu pinnedKey now in
  if fle 1 (tokens b)
  then (true, set_bucket l id (mkBucket (fsub (tokens b) 1) (rps b) (burst b) (last b) (pinned b)) (ll l))
  else (false, l).

(** ** The central counter *)

Definition colon : Ascii.ascii := Ascii.ascii_of_nat 58.

(** The text before the first colon, and after it. *)
Fixpoint cut_colon (s : string) : option (string * string) :=
  match s with
  | EmptyString => None
  | String c s =>
      if Ascii.eqb c colon then Some (EmptyString, s)
      else (λ ab, (String c ab.1, ab.2)) <$> cut_colon s
  end.

Definition splitCentralKey (centralKey : string) : option (string * string * string) :=
  match cut_colon centralKey with
  | None => None
  | Some (scope, rest) =>
      match cut_colon rest with
      | None => None
      | Some (subjectID, plan) =>
          if String.eqb scope EmptyString || String.eqb subjectID EmptyString || String.eqb plan EmptyString
          then None
          else if negb (existsb (String.eqb plan) ["free"; "hobby"; "pro"; "scale"]%string) then None
          else if negb (existsb (String.eqb scope) ["app"; "account"; "rule"]%string) then None
          else Some (scope, subjectID, plan)
      end
  end.

Definition allowTokenWithCentralKey (l : Limiter) (id : string) (r bu : Q) (centralKey : string) (now : Time)
    : bool * Limiter :=
  let '(ok, l) := allowTokenKeyedLocked l id r bu EmptyString now in
  if ok then (true, l)
  else
    match central l with
    | None => (false, l)
    | Some peek =>
        if String.eqb centralKey EmptyString then (false, l)
        else
          match splitCentralKey centralKey with
          | None => (false, l)
          | Some (scope, subjectID, plan) =>
              match peek scope subjectID plan with
              | inl _ => (false, l)
              | inr remaining => (negb (remaining <=? 0), l)
              end
          end
    end.

(** ** The methods *)

Definition AllowWithCentralParams (l : Limiter) (id : string) (r bu : Q) (centralKey : string) (now : Time)
    : bool * Limiter :=
  if noop l then (true, l)
  else if flt r 0 || flt bu 0 then (false, l)
  else allowTokenWithCentralKey l id r bu centralKey now.

Definition AllowWithParams (l : Limiter) (id : string) (r bu : Q) (now : Time) : bool * Limiter :=
  if noop l then (true, l)
  else if flt r 0 || flt bu 0 then (false, l)
  else allowTokenWithCentralKey l id r bu EmptyString now.

Definition Allow (l : Limiter) (appID plan : string) (now : Time) : bool * Limiter :=
  if noop l then (true, l)
  else
    match LimitsFor plan with
    | None => (false, l)
    | Some limits =>
        allowTokenWithCentralKey l appID (of_int (Limits.RateLimitRPS limits)) (of_int (Limits.RateLimitBurst limits))
                                 EmptyString now
    end.

Definition AllowAccount (l : Limiter) (accountID plan : string) (now : Time) : bool * Limiter :=
  if noop l then (true, l)
  else
    let rpm := Plan.RateLimitPerAccountRPM plan in
    if rpm <=? 0 then (false, l)
    else allowTokenWithCentralKey l accountID (fdiv (of_int rpm) (inject_Z 60)) (of_int rpm) EmptyString now.

Definition nul : string := String Ascii.zero EmptyString.

Definition consumer_key (ruleKey consumerID : string) : string := (ruleKey ++ nul ++ consumerID)%string.

(** The bucket of a consumer: its own while the rule's set has room, the collapse bucket after that. *)
Definition allowWithConsumerKey (l : Limiter) (ruleKey consumerID : string) (r bu : Q) (capacity : Z) (now : Time)
    : bool * Limiter :=
  let otherKey := consumer_key ruleKey ConsumerKeySentinel in
  let consumers := default ∅ (ruleConsumers l !! ruleKey) in
  let tracked := bool_decide (consumerID ∈ consumers) in
  let over := negb tracked && (capacity <=? Z.of_nat (size consumers)) in
  let consumers := if over then consumers else {[consumerID]} ∪ consumers in
  let l := mkLimiter (buckets l) (noop l) (cap l) (ll l) (<[ruleKey := consumers]> (ruleConsumers l)) (central l) in
  allowTokenKeyedLocked l (if over then otherKey else consumer_key ruleKey consumerID) r bu otherKey now.

Definition AllowWithConsumerKey (l : Limiter) (ruleKey consumerID : string) (r bu : Q) (capacity : Z) (now : Time)
    : bool * Limiter :=
  if noop l then (true, l)
  else if flt r 0 || flt bu 0 then (false, l)
  else if capacity <=? 0 then (false, l)
  else if String.eqb consumerID ConsumerKeySentinel then (false, l)
  else allowWithConsumerKey l ruleKey consumerID r bu capacity now.

Definition ConsumerIsTracked (l : Limiter) (ruleKey consumerID : string) : bool :=
  if noop l then true
  else if String.eqb consumerID EmptyString || String.eqb consumerID ConsumerKeySentinel then false
  else bool_decide (consumerID ∈ default ∅ (ruleConsumers l !! ruleKey)).

Definition forgetLocked (l : Limiter) (id : string) : Limiter :=
  mkLimiter (delete id (buckets l)) (noop l) (cap l) (filter (λ x, negb (String.eqb x id)) (ll l))
            (delete id (ruleConsumers l)) (central l).

Definition ForgetAll (l : Limiter) : Z * Limiter :=
  (Z.of_nat (size (buckets l)), mkLimiter ∅ (noop l) (cap l) [] ∅ (central l)).

Definition BucketCount (l : Limiter) : Z := Z.of_nat (size (buckets l)).

(** ** Calls and their parameters *)

Inductive call :=
| CRule (id : string) (r bu : Q) (centralKey : string)
| CConsumer (ruleKey consumerID : string) (r bu : Q) (capacity : Z)
| CForget (id : string).

Definition exec (l : Limiter) (now : Time) (c : call) : bool * Limiter :=
  match c with
  | CRule id r bu key => AllowWithCentralParams l id r bu key now
  | CConsumer rule consumer r bu capacity => AllowWithConsumerKey l rule consumer r bu capacity now
  | CForget id => (true, forgetLocked l id)
  end.

Fixpoint run (l : Limiter) (cs : list (Time * call)) : list bool * Limiter :=
  match cs with
  | [] => ([], l)
  | (now, c) :: cs =>
      let '(ok, l) := exec l now c in
      let '(oks, l) := run l cs in (ok :: oks, l)
  end.

(** A rate and an integral burst for every bucket key. *)
Definition params := string → Q * Z.

Definition params_ok (P : params) : Prop := ∀ k, (0 <= (P k).1)%Q ∧ 0 ≤ (P k).2 ≤ 2 ^ 53.

Definition uses (P : params) (k : string) (r bu : Q) : Prop := r = (P k).1 ∧ bu = inject_Z (P k).2.

Definition call_uses (P : params) (c : call) : Prop :=
  match c with
  | CRule id r bu _ => uses P id r bu
  | CConsumer rule consumer r bu _ =>
      uses P (consumer_key rule consumer) r bu ∧ uses P (consumer_key rule ConsumerKeySentinel) r bu
  | CForget _ => True
  end.

(** ** Buckets *)

#[local] Opaque fadd fmul fsub fdiv of_int Seconds round64.

Section buckets.
Context (P : params) (HP : params_ok P).

Record bucket_ok (now : Time) (k : string) (b : bucket) : Prop := {
  b_uses : uses P k (rps b) (burst b);
  b_tokens : (0 <= tokens b <= burst b)%Q;
  b_last : last b ≤ now;
}.

Lemma bucket_ok_mono t t' k b : bucket_ok t k b → t ≤ t' → bucket_ok t' k b.
Proof. intros [? ? ?] ?. constructor; auto. lia. Qed.

Lemma fle_true x y : fle x y = true ↔ (x <= y)%Q.
Proof. apply Qle_bool_iff. Qed.

Lemma flt_true x y : flt x y = true ↔ (x < y)%Q.
Proof. unfold flt. rewrite negb_true_iff, <- not_true_iff_false, Qle_bool_iff. split; [apply Qnot_le_lt|apply Qlt_not_le]. Qed.

Lemma flt_false x y : flt x y = false ↔ (y <= x)%Q.
Proof. unfold flt. by rewrite negb_false_iff, Qle_bool_iff. Qed.

Definition elapsed (b : bucket) (now : Time) : Q := Seconds (time_sub now (last b)).

Lemma elapsed_nonneg b now : last b ≤ now → (0 <= elapsed b now)%Q.
Proof. intros H. apply Seconds_nonneg. unfold time_sub, min_duration, max_duration. lia. Qed.

Lemma elapsed_mono b t t' : last b ≤ t → t ≤ t' → (elapsed b t <= elapsed b t')%Q.
Proof. intros. apply Seconds_mono; unfold time_sub, min_duration, max_duration; lia. Qed.

(** The tokens before the cap. *)
Definition grown (b : bucket) (now : Time) : Q := fadd (tokens b) (fmul (elapsed b now) (rps b)).

Lemma rate_nonneg now k b : bucket_ok now k b → (0 <= rps b)%Q.
Proof using HP. intros [[-> _] _ _]. apply HP. Qed.

Lemma grown_mono k b t t' : bucket_ok t k b → t ≤ t' → (grown b t <= grown b t')%Q.
Proof using HP.
  intros Hb Ht. pose proof (rate_nonneg t k b Hb). destruct Hb as [_ [Ht0 _] Hl].
  pose proof (elapsed_nonneg b t Hl). pose proof (elapsed_mono b t t' Hl Ht).
  apply fadd_mono; [done|by apply fmul_nonneg|apply Qle_refl|]. by apply fmul_mono; try apply Qle_refl.
Qed.

Lemma grown_nonneg now k b : bucket_ok now k b → (0 <= grown b now)%Q.
Proof using HP.
  intros Hb. pose proof (rate_nonneg now k b Hb). destruct Hb as [_ [Ht0 _] Hl].
  pose proof (elapsed_nonneg b now Hl). apply fadd_nonneg; [done|by apply fmul_nonneg].
Qed.

(** A bucket at its ceiling stays there. *)
Lemma grown_ceiling now k b : bucket_ok now k b → (burst b <= tokens b)%Q → (burst b <= grown b now)%Q.
Proof using HP.
  intros Hb Hfull. pose proof (rate_nonneg now k b Hb). destruct Hb as [[_ Hbu] _ Hl].
  pose proof (elapsed_nonneg b now Hl). rewrite Hbu in *. apply fadd_ge_int; [apply HP|].
  pose proof (fmul_nonneg (elapsed b now) (rps b)). lra.
Qed.

Lemma bucketFull_grown now k b : bucket_ok now k b → bucketFull b now = true → (burst b <= grown b now)%Q.
Proof using HP.
  intros Hb. unfold bucketFull. destruct (fle (burst b) 0); [done|]. fold (elapsed b now).
  destruct (flt 0 (elapsed b now)); rewrite fle_true; [done|]. by eapply grown_ceiling.
Qed.

Lemma bucketFull_mono t t' k b : bucket_ok t k b → t ≤ t' → bucketFull b t = true → bucketFull b t' = true.
Proof using HP.
  intros Hb Ht Hf. pose proof (bucketFull_grown t k b Hb Hf) as Hg. pose proof (grown_mono k b t t' Hb Ht).
  pose proof (elapsed_mono b t t' (b_last _ _ _ Hb) Ht) as He. revert Hf. unfold bucketFull.
  destruct (fle (burst b) 0); [done|]. fold (elapsed b t) (elapsed b t') (grown b t) (grown b t').
  destruct (flt 0 (elapsed b t')) eqn:E'; rewrite !fle_true; [intros _; lra|].
  destruct (flt 0 (elapsed b t)) eqn:E; [|done]. rewrite flt_true in E. rewrite flt_false in E'. lra.
Qed.

Lemma refill_tokens b now : tokens (refill b (rps b) (burst b) now) = if flt (burst b) (grown b now) then burst b else grown b now.
Proof. done. Qed.

(** Refilling a full bucket gives what creating it gives. *)
Lemma refill_full now k b :
  bucket_ok now k b → bucketFull b now = true → (tokens (refill b (rps b) (burst b) now) == burst b)%Q.
Proof using HP.
  intros Hb Hf. pose proof (bucketFull_grown now k b Hb Hf) as Hg. rewrite refill_tokens.
  destruct (flt (burst b) (grown b now)) eqn:E; [done|]. rewrite flt_false in E. lra.
Qed.

Lemma refill_ok now k b : bucket_ok now k b → bucket_ok now k (refill b (rps b) (burst b) now).
Proof using HP.
  intros Hb. pose proof (grown_nonneg now k b Hb) as Hg. destruct Hb as [Hu [Ht0 Ht1] Hl].
  constructor; [done| |simpl; lia]. rewrite refill_tokens. simpl.
  destruct (flt (burst b) (grown b now)) eqn:E; [split; [lra|apply Qle_refl]|]. rewrite flt_false in E. done.
Qed.

(** Buckets that differ in the representation of their tokens only. *)
Record same_bucket (b u : bucket) : Prop := {
  s_tokens : (tokens b == tokens u)%Q;
  s_rps : rps b = rps u;
  s_burst : burst b = burst u;
  s_last : last b = last u;
}.

Lemma same_grown now k b u : bucket_ok now k u → same_bucket b u → (grown b now == grown u now)%Q.
Proof using HP.
  intros Hu [Ht Hr Hb Hl]. pose proof (rate_nonneg now k u Hu). pose proof (b_tokens _ _ _ Hu).
  unfold grown, elapsed. rewrite Hr, Hl. fold (elapsed u now).
  pose proof (elapsed_nonneg u now (b_last _ _ _ Hu)). pose proof (fmul_nonneg (elapsed u now) (rps u)).
  apply fadd_comp; [rewrite Ht; lra|done|done].
Qed.

Lemma same_full now k b u : bucket_ok now k u → same_bucket b u → bucketFull b now = bucketFull u now.
Proof using HP.
  intros Hu Hs. pose proof (same_grown now k b u Hu Hs) as Hg. destruct Hs as [Ht Hr Hb Hl].
  unfold bucketFull. rewrite Hb, Hl. destruct (fle (burst u) 0); [done|].
  fold (elapsed u now). unfold grown, elapsed in Hg. rewrite Hl in Hg. fold (elapsed u now) in Hg.
  destruct (flt 0 (elapsed u now)); apply eq_true_iff_eq; rewrite !fle_true; [by rewrite Hg|by rewrite Ht].
Qed.

Lemma same_refill now k b u :
  bucket_ok now k u → same_bucket b u →
  same_bucket (refill b (rps u) (burst u) now) (refill u (rps u) (burst u) now).
Proof using HP.
  intros Hu Hs. pose proof (same_grown now k b u Hu Hs) as Hg. destruct Hs as [Ht Hr Hb Hl].
  constructor; [|reflexivity..].
  assert (tokens (refill b (rps u) (burst u) now) = if flt (burst u) (grown b now) then burst u else grown b now) as ->
    by (unfold grown; by rewrite Hr).
  rewrite refill_tokens.
  destruct (flt (burst u) (grown b now)) eqn:E1, (flt (burst u) (grown u now)) eqn:E2;
    [apply Qeq_refl| | |exact Hg].
  - apply flt_true in E1. apply flt_false in E2. lra.
  - apply flt_false in E1. apply flt_true in E2. lra.
Qed.
End buckets.

(** ** Eviction is unobservable *)

(** The bounded limiter [L] against the unbounded one [U]: a bucket that [L] lacks is full in [U]. *)
Definition sim_key (P : params) (now : Time) (k : string) (ob ou : option bucket) : Prop :=
  match ou, ob with
  | Some u, Some b => bucket_ok P now k u ∧ same_bucket b u
  | Some u, None => bucket_ok P now k u ∧ bucketFull u now = true
  | None, None => True
  | None, Some _ => False
  end.

Record sim (P : params) (now : Time) (L U : Limiter) : Prop := {
  sim_noop : noop L = noop U;
  sim_consumers : ruleConsumers L = ruleConsumers U;
  sim_central : central L = central U;
  sim_cap : cap U = 0;
  sim_buckets k : sim_key P now k (buckets L !! k) (buckets U !! k);
}.

Section simulation.
Context (P : params) (HP : params_ok P).

Lemma sim_time t t' L U : sim P t L U → t ≤ t' → sim P t' L U.
Proof using HP.
  intros [? ? ? ? Hb] Ht. constructor; auto. intros k. specialize (Hb k). unfold sim_key in *.
  destruct (buckets U !! k) as [u|], (buckets L !! k) as [b|]; try done; destruct Hb as [Hu Hs];
    eauto using bucket_ok_mono, bucketFull_mono.
Qed.

Lemma evict_scan_sim now L U scan back : sim P now L U → sim P now (evict_scan L now scan back) U.
Proof using HP.
  intros Hs. revert back. induction scan as [|scan IH]; intros [|k back]; simpl; try done.
  destruct (buckets L !! k) as [b|] eqn:Hb; [|apply IH].
  destruct (negb (pinned b) && bucketFull b now) eqn:E; [|apply IH].
  apply andb_true_iff in E as [_ Hf]. destruct Hs as [? ? ? ? Hk]. constructor; auto. intros k'. simpl.
  destruct (decide (k = k')) as [<-|Hne]; [|by rewrite lookup_delete_ne].
  specialize (Hk k). rewrite Hb in Hk. rewrite lookup_delete_eq. unfold sim_key in *.
  destruct (buckets U !! k) as [u|]; [|done]. destruct Hk as [Hu Hsb]. split; [done|].
  by rewrite <- (same_full P HP now k b u).
Qed.

Lemma evict_scan_keeps now L scan back k : buckets L !! k = None → buckets (evict_scan L now scan back) !! k = None.
Proof.
  intros Hk. revert back. induction scan as [|scan IH]; intros [|k' back]; simpl; try done.
  repeat case_match; try apply IH. simpl. rewrite lookup_delete_None. by right.
Qed.

Lemma sim_set now L U k b u order order' :
  sim P now L U → bucket_ok P now k u → same_bucket b u →
  sim P now (set_bucket L k b order) (set_bucket U k u order').
Proof.
  intros [? ? ? ? Hk] Hu Hs. constructor; auto. intros k'. simpl.
  destruct (decide (k = k')) as [<-|Hne]; [by rewrite !lookup_insert_eq|by rewrite !lookup_insert_ne].
Qed.

Lemma find_sim now L U k r bu pin b u L' U' :
  sim P now L U → uses P k r bu →
  find_bucket L k r bu pin now = (b, L') → find_bucket U k r bu pin now = (u, U') →
  bucket_ok P now k u ∧ same_bucket b u ∧ sim P now L' U'.
Proof using HP.
  intros Hs Huse HL HU. unfold find_bucket in HL, HU.
  set (fresh := mkBucket bu r bu now (negb (String.eqb pin EmptyString) && String.eqb k pin)) in *.
  assert (bucket_ok P now k fresh) as Hfresh.
  { constructor; unfold fresh; simpl; [done| |lia]. destruct Huse as [_ ->]. destruct (HP k) as [_ [H0 _]].
    split; [|apply Qle_refl]. change 0%Q with (inject_Z 0). by rewrite <- Zle_Qle. }
  set (L1 := if _ : bool then evictOneLocked L now else L) in *.
  assert (sim P now L1 U) as Hs1.
  { unfold L1, evictOneLocked. destruct ((0 <? cap L) && _); [|exact Hs].
    destruct (uses_lru L); [by apply evict_scan_sim|exact Hs]. }
  rewrite (sim_cap _ _ _ _ Hs) in HU. simpl in HU.
  pose proof (sim_buckets _ _ _ _ Hs k) as Hk. unfold sim_key in Hk.
  destruct (buckets U !! k) as [u0|], (buckets L !! k) as [b0|]; try done; simplify_eq.
  - destruct Hk as [Hu0 Hsb]. assert (r = rps u0 ∧ bu = burst u0) as [-> ->]
      by (destruct Huse as [-> ->], (b_uses _ _ _ _ Hu0) as [-> ->]; done).
    pose proof (refill_ok P HP now k u0 Hu0). pose proof (same_refill P HP now k b0 u0 Hu0 Hsb).
    split_and!; try done. by apply sim_set.
  - destruct Hk as [Hu0 Hf]. assert (r = rps u0 ∧ bu = burst u0) as [-> ->]
      by (destruct Huse as [-> ->], (b_uses _ _ _ _ Hu0) as [-> ->]; done).
    pose proof (refill_ok P HP now k u0 Hu0). pose proof (refill_full P HP now k u0 Hu0 Hf) as Hfull.
    split_and!; [done| |apply sim_set; [done|done|]]; (constructor; [symmetry; exact Hfull|reflexivity..]).
  - split_and!; [done| |apply sim_set; [done|done|]]; (constructor; [apply Qeq_refl|reflexivity..]).
Qed.

Lemma take_sim now L U k r bu pin okL okU L' U' :
  sim P now L U → uses P k r bu →
  allowTokenKeyedLocked L k r bu pin now = (okL, L') → allowTokenKeyedLocked U k r bu pin now = (okU, U') →
  okL = okU ∧ sim P now L' U'.
Proof using HP.
  intros Hs Huse. unfold allowTokenKeyedLocked.
  destruct (find_bucket L k r bu pin now) as [b L1] eqn:EL, (find_bucket U k r bu pin now) as [u U1] eqn:EU.
  destruct (find_sim now L U k r bu pin b u L1 U1 Hs Huse EL EU) as (Hu & Hsb & Hs1).
  assert (fle 1 (tokens b) = fle 1 (tokens u)) as ->.
  { apply eq_true_iff_eq. rewrite !fle_true. by rewrite (s_tokens _ _ Hsb). }
  destruct (fle 1 (tokens u)) eqn:E; intros [= <- <-] [= <- <-]; split; try done.
  rewrite fle_true in E. destruct Hsb as [Ht Hr Hb Hl]. destruct Hu as [Hus [Ht0 Ht1] Hla].
  assert (0 <= tokens u - 1)%Q as Hpos by lra. apply sim_set; [done| |].
  - constructor; simpl; [done| |done]. split; [by apply fsub_nonneg|].
    destruct Hus as [_ Hbu]. rewrite Hbu in *. apply fsub_le_int; [apply HP|done|]. lra.
  - constructor; simpl; [|done..]. symmetry. apply fsub_comp; [done|by symmetry|apply Qeq_refl].
Qed.

Lemma central_sim now L U k r bu key okL okU L' U' :
  sim P now L U → uses P k r bu →
  allowTokenWithCentralKey L k r bu key now = (okL, L') → allowTokenWithCentralKey U k r bu key now = (okU, U') →
  okL = okU ∧ sim P now L' U'.
Proof using HP.
  intros Hs Huse. unfold allowTokenWithCentralKey.
  destruct (allowTokenKeyedLocked L k r bu EmptyString now) as [ok L1] eqn:EL.
  destruct (allowTokenKeyedLocked U k r bu EmptyString now) as [ok' U1] eqn:EU.
  destruct (take_sim now L U k r bu EmptyString ok ok' L1 U1 Hs Huse EL EU) as [-> Hs1].
  rewrite (sim_central _ _ _ _ Hs1). repeat case_match; intros [= <- <-] [= <- <-]; done.
Qed.

Lemma consumer_sim now L U rule consumer r bu capacity okL okU L' U' :
  sim P now L U → uses P (consumer_key rule consumer) r bu → uses P (consumer_key rule ConsumerKeySentinel) r bu →
  allowWithConsumerKey L rule consumer r bu capacity now = (okL, L') →
  allowWithConsumerKey U rule consumer r bu capacity now = (okU, U') →
  okL = okU ∧ sim P now L' U'.
Proof using HP.
  intros Hs H1 H2. unfold allowWithConsumerKey. rewrite (sim_consumers _ _ _ _ Hs).
  apply take_sim; [|by case_match]. destruct Hs. by constructor.
Qed.

Lemma forget_sim now L U k : sim P now L U → sim P now (forgetLocked L k) (forgetLocked U k).
Proof.
  intros [? Hc ? ? Hk]. constructor; simpl; [done|by rewrite Hc|done|done|]. intros k'.
  destruct (decide (k = k')) as [<-|Hne]; [by rewrite !lookup_delete_eq|by rewrite !lookup_delete_ne].
Qed.

Lemma exec_sim now L U c okL okU L' U' :
  sim P now L U → call_uses P c → exec L now c = (okL, L') → exec U now c = (okU, U') →
  okL = okU ∧ sim P now L' U'.
Proof using HP.
  intros Hs Hu. destruct c as [id r bu key|rule consumer r bu capacity|id]; simpl.
  - unfold AllowWithCentralParams. rewrite (sim_noop _ _ _ _ Hs).
    destruct (noop U); [intros [= <- <-] [= <- <-]; done|].
    destruct (flt r 0 || flt bu 0); [intros [= <- <-] [= <- <-]; done|]. by apply central_sim.
  - unfold AllowWithConsumerKey. rewrite (sim_noop _ _ _ _ Hs).
    destruct (noop U); [intros [= <- <-] [= <- <-]; done|].
    destruct (flt r 0 || flt bu 0); [intros [= <- <-] [= <- <-]; done|].
    destruct (capacity <=? 0); [intros [= <- <-] [= <- <-]; done|].
    destruct (String.eqb consumer ConsumerKeySentinel); [intros [= <- <-] [= <- <-]; done|].
    destruct Hu. by apply consumer_sim.
  - intros [= <- <-] [= <- <-]. split; [done|]. by apply forget_sim.
Qed.

Lemma run_sim cs t L U :
  sim P t L U → Forall (λ tc, call_uses P tc.2) cs → StronglySorted Z.le (t :: map fst cs) →
  (run L cs).1 = (run U cs).1.
Proof using HP.
  revert t L U. induction cs as [|[now c] cs IH]; intros t L U Hs Hu Ht; [done|]. simpl in Ht |- *.
  apply Forall_cons in Hu as [Hc Hu]. apply StronglySorted_inv in Ht as [Ht Hle].
  apply Forall_cons in Hle as [Hle _]. apply (sim_time t now) in Hs; [|done].
  destruct (exec L now c) as [ok L1] eqn:EL, (exec U now c) as [ok' U1] eqn:EU.
  destruct (exec_sim now L U c ok ok' L1 U1 Hs Hc EL EU) as [-> Hs1].
  pose proof (IH now L1 U1 Hs1 Hu Ht) as Hrun.
  destruct (run L1 cs), (run U1 cs). simpl in *. by rewrite Hrun.
Qed.

End simulation.

(** C14: Evicting buckets is unobservable: as long as every bucket keeps its rate and burst, a limiter
    that retains at most [capacity] buckets gives, call by call, the decisions of one that keeps them
    all, for every sequence of rule, consumer and forget calls in time order, in the float64
    arithmetic the code runs. *)
Theorem eviction_unobservable P capacity c cs :
  params_ok P → Forall (λ tc, call_uses P tc.2) cs → StronglySorted Z.le (map fst cs) →
  (run (NewLimiterWithCentralLRU capacity c) cs).1 = (run (NewLimiterWithCentralLRU 0 c) cs).1.
Proof.
  intros HP Hu Ht. destruct cs as [|[t0 c0] cs]; [done|]. apply (run_sim P HP _ t0); [|done|].
  - by constructor.
  - simpl in *. apply SSorted_cons; [done|]. apply StronglySorted_inv in Ht as [_ Hle]. by constructor.
Qed.

(** ** The consumer sets *)

Lemma evict_scan_frame l now scan back :
  ruleConsumers (evict_scan l now scan back) = ruleConsumers l ∧
  noop (evict_scan l now scan back) = noop l ∧ central (evict_scan l now scan back) = central l.
Proof.
  revert back. induction scan as [|scan IH]; intros [|k back]; simpl; try done. repeat case_match; try apply IH. done.
Qed.

Lemma find_frame l k r bu pin now :
  ruleConsumers (find_bucket l k r bu pin now).2 = ruleConsumers l ∧
  noop (find_bucket l k r bu pin now).2 = noop l ∧ central (find_bucket l k r bu pin now).2 = central l.
Proof.
  unfold find_bucket. destruct (buckets l !! k); [split_and!; reflexivity|]. simpl.
  destruct ((0 <? cap l) && _); [|split_and!; reflexivity]. unfold evictOneLocked.
  destruct (uses_lru l); [apply evict_scan_frame|split_and!; reflexivity].
Qed.

Lemma take_frame l k r bu pin now :
  ruleConsumers (allowTokenKeyedLocked l k r bu pin now).2 = ruleConsumers l ∧
  noop (allowTokenKeyedLocked l k r bu pin now).2 = noop l ∧
  central (allowTokenKeyedLocked l k r bu pin now).2 = central l.
Proof.
  pose proof (find_frame l k r bu pin now) as Hf. unfold allowTokenKeyedLocked.
  destruct (find_bucket l k r bu pin now) as [b l1]. simpl in Hf. destruct (fle 1 (tokens b)); exact Hf.
Qed.

Lemma take_consumers l k r bu pin now :
  ruleConsumers (allowTokenKeyedLocked l k r bu pin now).2 = ruleConsumers l.
Proof. apply take_frame. Qed.

Definition set_consumers (l : Limiter) (m : gmap string (gset string)) : Limiter :=
  mkLimiter (buckets l) (noop l) (cap l) (ll l) m (central l).

(** Taking a token does not look at the consumer sets. *)
Lemma take_set_consumers l m k r bu pin now :
  (allowTokenKeyedLocked l k r bu pin now).1 = (allowTokenKeyedLocked (set_consumers l m) k r bu pin now).1.
Proof.
  assert ((find_bucket (set_consumers l m) k r bu pin now).1 = (find_bucket l k r bu pin now).1) as Hf
    by (unfold find_bucket; simpl; by destruct (buckets l !! k)).
  unfold allowTokenKeyedLocked.
  destruct (find_bucket (set_consumers l m) k r bu pin now), (find_bucket l k r bu pin now). simpl in Hf. subst.
  by case_match.
Qed.

Definition consumers (l : Limiter) (rule : string) : gset string := default ∅ (ruleConsumers l !! rule).

(** Every rule keeps its consumer cap. *)
Definition call_caps (C : string → Z) (c : call) : Prop :=
  match c with CConsumer rule _ _ _ capacity => capacity = C rule | _ => True end.

Definition bounded (C : string → Z) (l : Limiter) : Prop :=
  ∀ rule, consumers l rule ≠ ∅ → Z.of_nat (size (consumers l rule)) ≤ C rule.

Lemma consumers_insert l bs n k o cs c rule rule' :
  consumers (mkLimiter bs n k o (<[rule := cs]> (ruleConsumers l)) c) rule'
  = if decide (rule = rule') then cs else consumers l rule'.
Proof. unfold consumers. simpl. case_decide; [subst; by rewrite lookup_insert_eq|by rewrite lookup_insert_ne]. Qed.

Lemma consumer_bounded C l rule consumer r bu now :
  bounded C l → bounded C (allowWithConsumerKey l rule consumer r bu (C rule) now).2.
Proof.
  intros Hb rule'. unfold allowWithConsumerKey, consumers at 1 2. rewrite take_consumers.
  fold (consumers l rule). set (cs := if _ : bool then _ else _).
  match goal with |- context [mkLimiter ?a ?b ?c ?d (<[rule := cs]> _) ?e] =>
    pose proof (consumers_insert l a b c d cs e rule rule') as Hc end.
  unfold consumers in Hc at 1. rewrite Hc. case_decide as Heq; [subst rule'|apply Hb].
  unfold cs. clear cs Hc. destruct (bool_decide (consumer ∈ consumers l rule)) eqn:Et; simpl.
  - apply bool_decide_eq_true in Et. intros _. rewrite subseteq_union_1_L by set_solver. apply Hb. set_solver.
  - apply bool_decide_eq_false in Et. destruct (C rule <=? Z.of_nat (size (consumers l rule))) eqn:Ec; [apply Hb|].
    apply Z.leb_gt in Ec. intros _. rewrite size_union, size_singleton by set_solver. lia.
Qed.

Lemma exec_bounded C l now c : bounded C l → call_caps C c → bounded C (exec l now c).2.
Proof.
  intros Hb Hc. destruct c as [id r bu key|rule consumer r bu capacity|id]; simpl in *.
  - unfold AllowWithCentralParams. destruct (noop l); [done|]. destruct (_ || _); [done|].
    unfold allowTokenWithCentralKey. pose proof (take_consumers l id r bu EmptyString now) as Ht.
    destruct (allowTokenKeyedLocked l id r bu EmptyString now) as [ok l1]. simpl in Ht.
    assert (bounded C l1) by (unfold bounded, consumers in *; by rewrite Ht). by repeat case_match.
  - unfold AllowWithConsumerKey. subst capacity. destruct (noop l); [done|]. destruct (_ || _); [done|].
    destruct (_ <=? 0); [done|]. destruct (String.eqb _ _); [done|]. by apply consumer_bounded.
  - intros rule. unfold consumers. simpl. destruct (decide (id = rule)) as [->|];
      [by rewrite lookup_delete_eq|rewrite lookup_delete_ne by done; apply Hb].
Qed.

Lemma run_bounded C l cs : bounded C l → Forall (λ tc, call_caps C tc.2) cs → bounded C (run l cs).2.
Proof.
  revert l. induction cs as [|[now c] cs IH]; intros l Hb Hc; [done|]. apply Forall_cons in Hc as [Hc Hcs].
  simpl. pose proof (exec_bounded C l now c Hb Hc) as He. destruct (exec l now c) as [ok l1].
  specialize (IH l1 He Hcs). by destruct (run l1 cs).
Qed.

(** The consumers of a rule cannot multiply its allowance without bound: whatever requests arrive, a
    rule tracks at most its cap of consumers, and once it does, a consumer it does not track is
    served from the one collapse bucket of the rule and the tracked set stays as it is. *)
Theorem consumers_collapse C capacity c cs (rule consumer : string) (r bu : Q) (now : Time) :
  Forall (λ tc, call_caps C tc.2) cs →
  let l := (run (NewLimiterWithCentralLRU capacity c) cs).2 in
  (consumers l rule ≠ ∅ → Z.of_nat (size (consumers l rule)) ≤ C rule) ∧
  (consumer ∉ consumers l rule → C rule ≤ Z.of_nat (size (consumers l rule)) →
   consumers (allowWithConsumerKey l rule consumer r bu (C rule) now).2 rule = consumers l rule ∧
   (allowWithConsumerKey l rule consumer r bu (C rule) now).1
   = (allowTokenKeyedLocked l (consumer_key rule ConsumerKeySentinel) r bu
        (consumer_key rule ConsumerKeySentinel) now).1).
Proof.
  intros Hc l. split; [apply (run_bounded C); [|done]; intros rule'; done|].
  intros Hn Hfull. unfold allowWithConsumerKey. fold (consumers l rule).
  rewrite bool_decide_false, (proj2 (Z.leb_le _ _)) by done. simpl. split.
  - unfold consumers at 1. rewrite take_consumers. simpl. by rewrite lookup_insert_eq.
  - symmetry. apply (take_set_consumers l).
Qed.

(** ** The central counter *)

(** The central counter does not limit: nothing on the request path takes a token from it, so while
    it reports one left every call of a rule with a valid central key is admitted, however many there
    are and however empty the local bucket is. *)
Theorem central_unlimited capacity peek n cs (key scope subject plan : string) :
  splitCentralKey key = Some (scope, subject, plan) → peek scope subject plan = inr n → 0 < n →
  Forall (λ tc : Time * call, match tc.2 with CRule _ r bu k => (0 <= r)%Q ∧ (0 <= bu)%Q ∧ k = key | _ => False end) cs →
  Forall (λ ok, ok = true) (run (NewLimiterWithCentralLRU capacity (Some peek)) cs).1.
Proof.
  intros Hk Hp Hn Hcs.
  assert (key ≠ EmptyString) as Hne by (intros ->; done).
  assert (∀ l, noop l = false → central l = Some peek → Forall (λ ok, ok = true) (run l cs).1) as Hall; [|by apply Hall].
  induction Hcs as [|[now c] cs Hc _ IH]; intros l Hno Hce; [constructor|]. cbn [run]. simpl in Hc.
  destruct c as [id r bu k| |]; try done. destruct Hc as (Hr & Hbu & ->).
  assert (∃ l', exec l now (CRule id r bu key) = (true, l') ∧ noop l' = false ∧ central l' = Some peek)
    as (l' & He & Hno' & Hce').
  { simpl. unfold AllowWithCentralParams. rewrite Hno.
    rewrite (proj2 (flt_false r 0)), (proj2 (flt_false bu 0)) by done. simpl. unfold allowTokenWithCentralKey.
    pose proof (take_frame l id r bu EmptyString now) as (_ & Hf1 & Hf2).
    destruct (allowTokenKeyedLocked l id r bu EmptyString now) as [[] l1]; simpl in Hf1, Hf2;
      [exists l1; split_and!; [reflexivity|congruence..]|].
    rewrite Hf2, Hce. destruct (String.eqb_spec key EmptyString); [done|]. rewrite Hk, Hp.
    exists l1. rewrite (proj2 (Z.leb_gt _ _)) by done. split_and!; [reflexivity|congruence..]. }
  rewrite He. specialize (IH l' Hno' Hce'). destruct (run l' cs). simpl in *. by constructor.
Qed.

(** ** Witnesses *)

(** Three rules on a limiter that keeps one bucket: at 2 and 3 seconds the only bucket is full and makes
    room; at 4 seconds the one of rule a is drained and stays, so the map overshoots. *)
Definition ex_params : params := λ _, (1%Q, 2).

Definition ex_rule (t : Z) (id : string) : Time * call := (t * Second, CRule id 1 (inject_Z 2) EmptyString).

Definition ex_calls : list (Time * call) :=
  [ex_rule 0 "a"; ex_rule 2 "b"; ex_rule 3 "a"; ex_rule 3 "a"; ex_rule 3 "a"; ex_rule 4 "c"; ex_rule 4 "b"]%string.

Lemma eviction_unobservable_witness :
  (run (NewLimiterWithCentralLRU 1 None) ex_calls).1 = (run (NewLimiterWithCentralLRU 0 None) ex_calls).1 ∧
  (run (NewLimiterWithCentralLRU 1 None) ex_calls).1 = [true; true; true; true; false; true; true].
Proof.
  split; [|vm_compute; reflexivity]. apply (eviction_unobservable ex_params).
  - intros k. split; [discriminate|]. simpl. lia.
  - repeat constructor.
  - repeat constructor; vm_compute; discriminate.
Defined.

Definition ex_consumers : list (Time * call) :=
  [(0, CConsumer "rule" "alice" 1 (inject_Z 2) 1); (0, CConsumer "rule" "bob" 1 (inject_Z 2) 1)]%string.

Lemma consumers_collapse_witness :
  let l := (run (NewLimiterWithCentralLRU 8 None) ex_consumers).2 in
  (consumers l "rule" ≠ ∅ → Z.of_nat (size (consumers l "rule")) ≤ 1) ∧
  (allowWithConsumerKey l "rule" "carol" 1 (inject_Z 2) 1 5).1
  = (allowTokenKeyedLocked l (consumer_key "rule" ConsumerKeySentinel) 1 (inject_Z 2)
       (consumer_key "rule" ConsumerKeySentinel) 5).1.
Proof.
  destruct (consumers_collapse (λ _, 1) 8 None ex_consumers "rule" "carol" 1 (inject_Z 2) 5) as [H1 H2].
  - repeat constructor.
  - split; [exact H1|]. apply H2; [vm_decide|vm_compute; discriminate].
Defined.

Lemma central_unlimited_witness :
  Forall (λ ok, ok = true)
    (run (NewLimiterWithCentralLRU 8 (Some (λ _ _ _, inr 1)))
         (replicate 5 (0, CRule "a" 1 (inject_Z 1) "rule:r1:pro"))%string).1.
Proof.
  apply (central_unlimited 8 (λ _ _ _, inr 1) 1 _ "rule:r1:pro" "rule" "r1" "pro").
  - reflexivity.
  - reflexivity.
  - lia.
  - repeat constructor; discriminate.
Defined.

End EdgeLimiter.
