(* ===== verification/GoStd.v ===== *)
(** * The Go standard library functions the gateway calls

    The gateway and apid parse host names, header values, path globs, IP addresses and credentials with package
    functions of Go's standard library (Go 1.25).  This file models the ones it uses, on byte strings:
    strings, strconv.Atoi, unicode/utf8, path.Match, the address functions of net and net/netip,
    encoding/base64, encoding/hex and the header map of net/http.

    Case mapping, folding and trimming treat ASCII letters and spaces; bytes from 128 up, which the Go
    functions decode as UTF-8 first, are left alone.  Host names, methods, country codes and header
    names are ASCII.  path.Match decodes UTF-8 as Go does. *)

From S2P Require Import Prelude.
#[local] Open Scope Z_scope.

(** ** Package strings *)

Module Strings.

Definition byte (c : Ascii.ascii) : Z := Z.of_N (Ascii.N_of_ascii c).
Definition chr (n : Z) : Ascii.ascii := Ascii.ascii_of_N (Z.to_N n).

Definition is_byte (n : Z) (c : Ascii.ascii) : bool := byte c =? n.
Definition in_range (lo hi : Z) (c : Ascii.ascii) : bool := (lo <=? byte c) && (byte c <=? hi).

Definition empty (s : string) : bool := match s with EmptyString => true | _ => false end.

(** [s[n:]] and [s[:n]]. *)
Fixpoint skip (n : nat) (s : string) : string :=
  match n, s with S n, String _ s => skip n s | _, _ => s end.

Fixpoint first (n : nat) (s : string) : string :=
  match n, s with S n, String c s => String c (first n s) | _, _ => EmptyString end.

Fixpoint map_bytes (f : Ascii.ascii → Ascii.ascii) (s : string) : string :=
  match s with EmptyString => EmptyString | String c s => String (f c) (map_bytes f s) end.

Definition lower (c : Ascii.ascii) : Ascii.ascii := if in_range 65 90 c then chr (byte c + 32) else c.
Definition upper (c : Ascii.ascii) : Ascii.ascii := if in_range 97 122 c then chr (byte c - 32) else c.

Definition ToLower (s : string) : string := map_bytes lower s.
Definition ToUpper (s : string) : string := map_bytes upper s.
Definition EqualFold (s t : string) : bool := String.eqb (ToLower s) (ToLower t).

(** The rest of [s] after the prefix [p]. *)
Fixpoint cut_prefix (s p : string) {struct p} : option string :=
  match p, s with
  | EmptyString, _ => Some s
  | String c p, String d s => if Ascii.eqb c d then cut_prefix s p else None
  | _, EmptyString => None
  end.

Definition HasPrefix (s p : string) : bool := match cut_prefix s p with Some _ => true | None => false end.

(** What precedes the suffix [p] of [s]. *)
Fixpoint cut_suffix (s p : string) : option string :=
  if String.eqb s p then Some EmptyString
  else match s with EmptyString => None | String c s => String c <$> cut_suffix s p end.

Definition HasSuffix (s p : string) : bool := match cut_suffix s p with Some _ => true | None => false end.
Definition TrimSuffix (s p : string) : string := default s (cut_suffix s p).

(** strings.Cut at the first occurrence of [sep]. *)
Fixpoint Cut (s sep : string) : option (string * string) :=
  match cut_prefix s sep with
  | Some rest => Some (EmptyString, rest)
  | None =>
      match s with
      | EmptyString => None
      | String c s => (λ '(a, b), (String c a, b)) <$> Cut s sep
      end
  end.

Fixpoint contains_byte (n : Z) (s : string) : bool :=
  match s with EmptyString => false | String c s => is_byte n c || contains_byte n s end.

(** The part before the first byte [n], the whole string when there is none. *)
Fixpoint before_byte (n : Z) (s : string) : string :=
  match s with
  | EmptyString => EmptyString
  | String c s => if is_byte n c then EmptyString else String c (before_byte n s)
  end.

(** strings.Split and strings.Count with a separator of one byte. *)
Fixpoint Split (n : Z) (s : string) : list string :=
  match s with
  | EmptyString => [EmptyString]
  | String c s =>
      if is_byte n c then EmptyString :: Split n s
      else match Split n s with [] => [String c EmptyString] | p :: l => String c p :: l end
  end.

Fixpoint count_byte (n : Z) (s : string) : Z :=
  match s with EmptyString => 0 | String c s => (if is_byte n c then 1 else 0) + count_byte n s end.

Definition is_space (c : Ascii.ascii) : bool := in_range 9 13 c || is_byte 32 c.

Fixpoint trim_left (s : string) : string :=
  match s with EmptyString => s | String c s' => if is_space c then trim_left s' else s end.

Fixpoint trim_right (s : string) : string :=
  match s with
  | EmptyString => s
  | String c s =>
      match trim_right s with
      | EmptyString => if is_space c then EmptyString else String c EmptyString
      | t => String c t
      end
  end.

Definition TrimSpace (s : string) : string := trim_right (trim_left s).

Fixpoint Join (l : list string) (sep : string) : string :=
  match l with
  | [] => EmptyString
  | [s] => s
  | s :: l => (s ++ sep ++ Join l sep)%string
  end.

(** ** strconv.Atoi *)

Definition digit (c : Ascii.ascii) : option Z := if in_range 48 57 c then Some (byte c - 48) else None.

Fixpoint digits (acc : Z) (s : string) : option Z :=
  match s with
  | EmptyString => Some acc
  | String c s => match digit c with Some d => digits (10 * acc + d) s | None => None end
  end.

(** Decimal digits with an optional sign, in the range of int; [None] is the error. *)
Definition Atoi (s : string) : option Z :=
  let '(neg, body) :=
    match s with
    | String c s' => if is_byte 45 c then (true, s') else if is_byte 43 c then (false, s') else (false, s)
    | EmptyString => (false, s)
    end in
  if empty body then None
  else
    match digits 0 body with
    | Some n => let n := if neg : bool then - n else n in
                if (- 2 ^ 63 <=? n) && (n <? 2 ^ 63) then Some n else None
    | None => None
    end.

End Strings.

(** ** Package path: Match

    A pattern is split at its stars into chunks of single-character operators.  [None] is
    ErrBadPattern; the fuel of a loop is the length of the string it consumes. *)

Module Glob.

Import Strings.

Definition RuneError : Z := 65533.

Definition at_byte (s : string) (n : nat) : Z := match String.get n s with Some c => byte c | None => -1 end.

Definition cont (b lo hi : Z) : bool := (lo <=? b) && (b <=? hi).

(** utf8.DecodeRuneInString: the rune and its width. *)
Definition DecodeRune (s : string) : Z * nat :=
  let b0 := at_byte s 0 in
  let b1 := at_byte s 1 in
  let b2 := at_byte s 2 in
  let b3 := at_byte s 3 in
  let low b := Z.land b 63 in
  if b0 <? 0 then (RuneError, 0%nat)
  else if b0 <? 128 then (b0, 1%nat)
  else if b0 <? 194 then (RuneError, 1%nat)
  else if b0 <? 224 then
    if cont b1 128 191 then (Z.land b0 31 * 64 + low b1, 2%nat) else (RuneError, 1%nat)
  else if b0 <? 240 then
    if cont b1 (if b0 =? 224 then 160 else 128) (if b0 =? 237 then 159 else 191) && cont b2 128 191
    then (Z.land b0 15 * 4096 + low b1 * 64 + low b2, 3%nat) else (RuneError, 1%nat)
  else if b0 <? 245 then
    if cont b1 (if b0 =? 240 then 144 else 128) (if b0 =? 244 then 143 else 191) && cont b2 128 191
       && cont b3 128 191
    then (Z.land b0 7 * 262144 + low b1 * 4096 + low b2 * 64 + low b3, 4%nat) else (RuneError, 1%nat)
  else (RuneError, 1%nat).

(** ** Splitting off the next chunk *)

Fixpoint skip_stars (p : string) : bool * string :=
  match p with
  | String c p' => if is_byte 42 c then (true, (skip_stars p').2) else (false, p)
  | EmptyString => (false, p)
  end.

(** A star ends the chunk unless it is escaped or inside brackets. *)
Fixpoint scan (inrange : bool) (p : string) : string * string :=
  match p with
  | EmptyString => (EmptyString, EmptyString)
  | String c p' =>
      if is_byte 92 c then
        match p' with
        | EmptyString => (p, EmptyString)
        | String d p'' => let '(k, r) := scan inrange p'' in (String c (String d k), r)
        end
      else if is_byte 42 c && negb inrange then (EmptyString, p)
      else
        let inrange := if is_byte 91 c then true else if is_byte 93 c then false else inrange in
        let '(k, r) := scan inrange p' in (String c k, r)
  end.

Definition scanChunk (pattern : string) : bool * string * string :=
  let '(star, p) := skip_stars pattern in
  let '(chunk, rest) := scan false p in (star, chunk, rest).

(** ** Matching one chunk *)

(** A possibly escaped character of a class; something must follow it. *)
Definition getEsc (chunk : string) : option (Z * string) :=
  match chunk with
  | EmptyString => None
  | String c rest =>
      if is_byte 45 c || is_byte 93 c then None
      else
        let chunk := if is_byte 92 c then rest else chunk in
        if empty chunk then None
        else
          let '(r, n) := DecodeRune chunk in
          if (r =? RuneError) && (n =? 1)%nat then None
          else let nchunk := skip n chunk in if empty nchunk then None else Some (r, nchunk)
  end.

(** The ranges of a class up to the closing bracket; [r] is the character to match. *)
Fixpoint ranges (fuel : nat) (chunk : string) (r : Z) (nrange : nat) (found : bool) : option (bool * string) :=
  match fuel with
  | O => None
  | S fuel =>
      let go :=
        match getEsc chunk with
        | None => None
        | Some (lo, chunk) =>
            match (if HasPrefix chunk "-" then getEsc (skip 1 chunk) else Some (lo, chunk)) with
            | None => None
            | Some (hi, chunk) => ranges fuel chunk r (S nrange) (found || ((lo <=? r) && (r <=? hi)))
            end
        end in
      match chunk with
      | String c rest => if is_byte 93 c && (0 <? nrange)%nat then Some (found, rest) else go
      | EmptyString => go
      end
  end.

(** matchChunk: [None] a bad pattern, [Some None] no match, [Some (Some rest)] the rest of [s].  After a
    mismatch ([failed]) the chunk is still read to its end to find a bad pattern. *)
Fixpoint match_chunk (fuel : nat) (chunk s : string) (failed : bool) : option (option string) :=
  match fuel, chunk with
  | _, EmptyString => Some (if failed then None else Some s)
  | O, _ => None
  | S fuel, String c rest =>
      let failed := failed || empty s in
      let literal d rest :=
        if failed then match_chunk fuel rest s true
        else match s with
             | String e s => match_chunk fuel rest s (negb (Ascii.eqb d e))
             | EmptyString => match_chunk fuel rest s true
             end in
      if is_byte 91 c then
        let '(r, n) := if failed then (0, 0%nat) else DecodeRune s in
        let '(negated, rest) := if HasPrefix rest "^" then (true, skip 1 rest) else (false, rest) in
        match ranges (String.length rest) rest r 0 false with
        | None => None
        | Some (found, rest) => match_chunk fuel rest (skip n s) (failed || eqb found negated)
        end
      else if is_byte 63 c then
        if failed then match_chunk fuel rest s true
        else match_chunk fuel rest (skip (DecodeRune s).2 s) (HasPrefix s "/")
      else if is_byte 92 c then
        match rest with EmptyString => None | String d rest => literal d rest end
      else literal c rest
  end.

Definition matchChunk (chunk s : string) : option (option string) :=
  match_chunk (String.length chunk) chunk s false.

(** ** The whole pattern *)

(** The positions a star may skip to, none past a slash; the last chunk must use up the name. *)
Fixpoint star_search (chunk : string) (last : bool) (name : string) : option (option string) :=
  match name with
  | EmptyString => Some None
  | String c name =>
      if is_byte 47 c then Some None
      else
        match matchChunk chunk name with
        | None => None
        | Some (Some t) => if last && negb (empty t) then star_search chunk last name else Some (Some t)
        | Some None => star_search chunk last name
        end
  end.

(** The syntax check of what is left of the pattern after a mismatch. *)
Fixpoint check_rest (fuel : nat) (pattern : string) : option bool :=
  match fuel with
  | O => None
  | S fuel =>
      if empty pattern then Some false
      else
        let '(_, chunk, rest) := scanChunk pattern in
        match matchChunk chunk EmptyString with None => None | Some _ => check_rest fuel rest end
  end.

Fixpoint match_loop (fuel : nat) (pattern name : string) : option bool :=
  match fuel with
  | O => None
  | S fuel =>
      if empty pattern then Some (empty name)
      else
        let '(star, chunk, rest) := scanChunk pattern in
        if star && empty chunk then Some (negb (contains_byte 47 name))
        else
          let retry :=
            match (if star then star_search chunk (empty rest) name else Some None) with
            | None => None
            | Some (Some t) => match_loop fuel rest t
            | Some None => check_rest fuel rest
            end in
          match matchChunk chunk name with
          | None => None
          | Some (Some t) => if empty t || negb (empty rest) then match_loop fuel rest t else retry
          | Some None => retry
          end
  end.

Definition Match (pattern name : string) : option bool :=
  match_loop (S (String.length pattern)) pattern name.

#[global] Arguments Match : simpl never.

(** ** A bad pattern is bad for every name *)

Lemma ranges_rest fuel chunk r1 r2 n f1 f2 :
  snd <$> ranges fuel chunk r1 n f1 = snd <$> ranges fuel chunk r2 n f2.
Proof.
  revert chunk n f1 f2. induction fuel as [|fuel IH]; intros chunk n f1 f2; [done|]. cbn [ranges].
  assert (∀ k : string, snd <$> match getEsc k with
            | None => None
            | Some (lo, chunk) =>
                match (if HasPrefix chunk "-" then getEsc (skip 1 chunk) else Some (lo, chunk)) with
                | None => None
                | Some (hi, chunk) => ranges fuel chunk r1 (S n) (f1 || ((lo <=? r1) && (r1 <=? hi)))
                end
            end = snd <$> match getEsc k with
            | None => None
            | Some (lo, chunk) =>
                match (if HasPrefix chunk "-" then getEsc (skip 1 chunk) else Some (lo, chunk)) with
                | None => None
                | Some (hi, chunk) => ranges fuel chunk r2 (S n) (f2 || ((lo <=? r2) && (r2 <=? hi)))
                end
            end) as Hgo.
  { intros k. destruct (getEsc k) as [[lo c]|]; [|done].
    destruct (if HasPrefix c "-" then _ else _) as [[hi c']|]; [apply IH|done]. }
  destruct chunk as [|c rest]; [apply Hgo|]. destruct (is_byte 93 c && _); [done|apply Hgo].
Qed.

Lemma match_chunk_bad fuel chunk s1 s2 b1 b2 :
  match_chunk fuel chunk s1 b1 = None ↔ match_chunk fuel chunk s2 b2 = None.
Proof.
  revert chunk s1 s2 b1 b2. induction fuel as [|fuel IH]; intros chunk s1 s2 b1 b2.
  { by destruct chunk. }
  destruct chunk as [|c rest]; [done|]. cbn [match_chunk].
  assert (∀ d rest, (if b1 || empty s1 then match_chunk fuel rest s1 true
                     else match s1 with String e s => match_chunk fuel rest s (negb (Ascii.eqb d e))
                          | EmptyString => match_chunk fuel rest s1 true end) = None ↔
                    (if b2 || empty s2 then match_chunk fuel rest s2 true
                     else match s2 with String e s => match_chunk fuel rest s (negb (Ascii.eqb d e))
                          | EmptyString => match_chunk fuel rest s2 true end) = None) as Hlit.
  { intros d k. destruct (b1 || _), (b2 || _), s1, s2; apply IH. }
  destruct (is_byte 91 c).
  - destruct (if b1 || empty s1 then _ else _) as [r1 n1], (if b2 || empty s2 then _ else _) as [r2 n2].
    destruct (if HasPrefix rest "^" then _ else _) as [neg k].
    pose proof (ranges_rest (String.length k) k r1 r2 0 false false) as Hr.
    destruct (ranges _ k r1 0 false) as [[m1 k1]|], (ranges _ k r2 0 false) as [[m2 k2]|]; try done.
    cbn in Hr. simplify_eq. apply IH.
  - destruct (is_byte 63 c); [destruct (b1 || _), (b2 || _); apply IH|].
    destruct (is_byte 92 c); [destruct rest; [done|apply Hlit]|apply Hlit].
Qed.

Lemma matchChunk_bad chunk s : matchChunk chunk s = None ↔ matchChunk chunk EmptyString = None.
Proof. apply match_chunk_bad. Qed.

Lemma star_search_bad chunk last name :
  matchChunk chunk EmptyString ≠ None → star_search chunk last name ≠ None.
Proof.
  intros Hc. induction name as [|c name IH]; cbn [star_search]; [done|].
  destruct (is_byte 47 c); [done|].
  destruct (matchChunk chunk name) as [[t|]|] eqn:E; [destruct (last && _); [apply IH|done]|apply IH|].
  by apply matchChunk_bad in E.
Qed.

Lemma scan_app inrange p : ((scan inrange p).1 ++ (scan inrange p).2)%string = p.
Proof.
  revert inrange. induction p as [p IH] using (induction_ltof1 _ String.length); unfold ltof in IH; intros inrange.
  destruct p as [|c p]; [done|]. cbn [scan].
  destruct (is_byte 92 c).
  - destruct p as [|d p]; [done|].
    specialize (IH p ltac:(cbn; lia) inrange). destruct (scan inrange p). cbn in IH. by subst p.
  - destruct (is_byte 42 c && negb inrange); [done|].
    match goal with |- context [scan ?i p] => specialize (IH p ltac:(cbn; lia) i); destruct (scan i p) end.
    cbn in IH. by subst p.
Qed.

Lemma string_length_app (s t : string) : String.length (s ++ t)%string = (String.length s + String.length t)%nat.
Proof.
  induction s as [|c s IH]; [done|].
  change (S (String.length (s ++ t)) = S (String.length s + String.length t))%nat. by rewrite IH.
Qed.

Lemma skip_stars_spec p :
  ((skip_stars p).1 = true → (String.length (skip_stars p).2 < String.length p)%nat)
  ∧ ((skip_stars p).1 = false → (skip_stars p).2 = p)
  ∧ match (skip_stars p).2 with String c _ => is_byte 42 c = false | EmptyString => True end.
Proof.
  induction p as [|c p IH]; cbn [skip_stars]; [done|].
  destruct (is_byte 42 c) eqn:Hc; cbn; [|done].
  destruct (skip_stars p) as [[] q]; cbn in *; destruct IH as (H1 & H2 & H3); (split_and!; [intros _|done|done]).
  - specialize (H1 eq_refl). lia.
  - rewrite H2; auto.
Qed.

Lemma scanChunk_rest pattern star chunk rest :
  scanChunk pattern = (star, chunk, rest) →
  (pattern ≠ EmptyString → (String.length rest < String.length pattern)%nat)
  ∧ (chunk = EmptyString → rest = EmptyString).
Proof.
  unfold scanChunk. destruct (skip_stars_spec pattern) as (H1 & H2 & H3).
  destruct (skip_stars pattern) as [st p]. cbn in *.
  pose proof (scan_app false p) as Happ.
  assert ((scan false p).1 = EmptyString → p = EmptyString) as Hne.
  { destruct p as [|c q]; [done|]. cbn [scan].
    destruct (is_byte 92 c); [destruct q; [done|by destruct (scan false q)]|].
    rewrite H3. cbn. by destruct (scan _ q). }
  destruct (scan false p) as [k r] eqn:Hs. cbn in *. intros [= <- <- <-]. split.
  - intros Hp. apply (f_equal String.length) in Happ. rewrite string_length_app in Happ.
    destruct st; [specialize (H1 eq_refl); lia|]. specialize (H2 eq_refl). subst p.
    destruct k; [by destruct (Hp (Hne eq_refl))|]. cbn in Happ. lia.
  - intros ->. rewrite (Hne eq_refl) in Happ. cbn in Happ. done.
Qed.

Lemma match_loop_bad fuel pattern name :
  (String.length pattern < fuel)%nat → match_loop fuel pattern name = None ↔ check_rest fuel pattern = None.
Proof.
  revert pattern name. induction fuel as [|fuel IH]; intros pattern name Hf; [lia|].
  cbn [match_loop check_rest]. destruct (empty pattern) eqn:Hp; [done|].
  destruct (scanChunk pattern) as [[star chunk] rest] eqn:Hs.
  apply scanChunk_rest in Hs as [Hlen Hnil].
  assert (pattern ≠ EmptyString) as Hpe by (by intros ->).
  assert (String.length rest < fuel)%nat by (specialize (Hlen Hpe); lia).
  destruct (star && empty chunk) eqn:Hse.
  { apply andb_true_iff in Hse as [_ Hch]. destruct chunk; [|done]. rewrite (Hnil eq_refl).
    destruct fuel; [lia|]. done. }
  pose proof (matchChunk_bad chunk name) as Hbad.
  destruct (matchChunk chunk EmptyString) eqn:He.
  2: { by rewrite (proj2 Hbad eq_refl). }
  assert (match (if star then star_search chunk (empty rest) name else Some None) with
          | None => None | Some (Some t) => match_loop fuel rest t | Some None => check_rest fuel rest end
          = None ↔ check_rest fuel rest = None) as Hretry.
  { assert (matchChunk chunk EmptyString ≠ None) as Hne by (by rewrite He).
    pose proof (star_search_bad chunk (empty rest) name Hne).
    destruct star; [|done]. destruct (star_search _ _ _) as [[t|]|]; [by apply IH|done|done]. }
  destruct (matchChunk chunk name) as [[t|]|]; [destruct (empty t || _); [by apply IH|exact Hretry]|exact Hretry|].
  by destruct Hbad as [Hb _]; specialize (Hb eq_refl).
Qed.

(** The probe of a pattern with the empty name finds a bad pattern exactly when some name would. *)
Lemma Match_bad pattern name : Match pattern name = None ↔ Match pattern EmptyString = None.
Proof. unfold Match. rewrite !match_loop_bad by lia. done. Qed.

(** ** Patterns without operators *)

Definition plain_byte (c : Ascii.ascii) : bool :=
  negb (is_byte 42 c || is_byte 63 c || is_byte 91 c || is_byte 92 c).

Fixpoint plain (s : string) : bool :=
  match s with EmptyString => true | String c s => plain_byte c && plain s end.

Lemma plain_cons c s :
  plain (String c s) = true →
  is_byte 42 c = false ∧ is_byte 63 c = false ∧ is_byte 91 c = false ∧ is_byte 92 c = false ∧ plain s = true.
Proof.
  cbn [plain]. unfold plain_byte. rewrite andb_true_iff, negb_true_iff, !orb_false_iff. naive_solver.
Qed.

Lemma scan_plain lit p (inrange : bool) :
  plain lit = true → (p = EmptyString ∨ inrange = false ∧ p = "*"%string) →
  scan inrange (lit ++ p)%string = (lit, p).
Proof.
  revert inrange. induction lit as [|c lit IH]; intros inrange Hlit Hp.
  { change (scan inrange p = (EmptyString, p)). destruct Hp as [->|[-> ->]]; reflexivity. }
  apply plain_cons in Hlit as (H1 & H2 & H3 & H4 & Hlit).
  change ((String c lit ++ p)%string) with (String c (lit ++ p)%string). cbn [scan].
  rewrite H1, H3, H4. cbn.
  rewrite IH; [done|done|]. destruct Hp as [->|[-> ->]]; [by left|right]. by destruct (is_byte 93 c).
Qed.

Lemma match_chunk_failed lit s : plain lit = true → match_chunk (String.length lit) lit s true = Some None.
Proof.
  induction lit as [|c lit IH]; intros Hlit; [done|].
  apply plain_cons in Hlit as (H1 & H2 & H3 & H4 & Hlit).
  cbn [match_chunk String.length]. rewrite H2, H3, H4. cbn. auto.
Qed.

Lemma matchChunk_plain lit s : plain lit = true → matchChunk lit s = Some (cut_prefix s lit).
Proof.
  unfold matchChunk. revert s. induction lit as [|c lit IH]; intros s Hlit; [done|].
  pose proof Hlit as (H1 & H2 & H3 & H4 & Hl)%plain_cons.
  cbn [match_chunk String.length]. rewrite H2, H3, H4.
  destruct s as [|d s]; cbn; [by apply match_chunk_failed|].
  destruct (Ascii.eqb c d); cbn; [by apply IH|by apply match_chunk_failed].
Qed.

Lemma plain_nonstar c lit p : plain (String c lit) = true →
  scanChunk (String c lit ++ p)%string
  = let '(chunk, rest) := scan false (String c lit ++ p)%string in (false, chunk, rest).
Proof.
  intros (H1 & _)%plain_cons. unfold scanChunk.
  change ((String c lit ++ p)%string) with (String c (lit ++ p)%string). cbn [skip_stars].
  by rewrite H1.
Qed.

(** A plain pattern followed by a star matches the names that continue it without a slash. *)
Lemma Match_prefix lit name :
  plain lit = true →
  Match (lit ++ "*") name
  = Some (match cut_prefix name lit with Some t => negb (contains_byte 47 t) | None => false end).
Proof.
  intros Hlit. destruct lit as [|c lit]; [done|].
  unfold Match. rewrite string_length_app. cbn [String.length Nat.add].
  replace (String.length lit + 1)%nat with (S (String.length lit)) by lia.
  cbn [match_loop]. rewrite plain_nonstar, scan_plain by auto. cbn [empty andb].
  rewrite matchChunk_plain by done. cbn [empty negb].
  destruct (cut_prefix name _); [by rewrite orb_true_r|done].
Qed.

(** A plain pattern matches itself only. *)
Lemma Match_plain lit name : plain lit = true → Match lit name = Some (String.eqb name lit).
Proof.
  intros Hlit. destruct lit as [|c lit]; [by destruct name|].
  assert (∀ s p, cut_prefix s p = Some EmptyString ↔ s = p) as Hcut.
  { intros s. induction s as [|d s IH]; intros [|e p]; cbn; [by split|by split|split; congruence|].
    destruct (Ascii.eqb e d) eqn:E.
    - apply Ascii.eqb_eq in E as ->. rewrite IH. naive_solver.
    - split; [done|]. intros [= -> ->]. by rewrite Ascii.eqb_refl in E. }
  assert (scanChunk (String c lit) = (false, String c lit, EmptyString)) as Hs.
  { pose proof (plain_nonstar c lit EmptyString Hlit) as H.
    rewrite scan_plain in H by auto.
    by replace ((String c lit ++ EmptyString)%string) with (String c lit) in H
      by (clear; induction (String c lit) as [|d s IH]; [done|]; cbn; change ((String d s ++ EmptyString)%string)
          with (String d (s ++ EmptyString)%string); by rewrite <- IH). }
  unfold Match. cbn [String.length match_loop]. rewrite Hs. cbn [andb empty].
  rewrite matchChunk_plain by done. specialize (Hcut name (String c lit)).
  destruct (cut_prefix name _) as [[|d t]|]; cbn.
  - by rewrite (proj1 Hcut eq_refl), String.eqb_refl.
  - destruct (String.eqb_spec name (String c lit)) as [->|]; [by destruct Hcut as [_ H]; specialize (H eq_refl)|done].
  - destruct (String.eqb_spec name (String c lit)) as [->|]; [by destruct Hcut as [_ H]; specialize (H eq_refl)|done].
Qed.

End Glob.

(** ** Packages net and net/netip *)

Module Net.

Import Strings.

(** A net.IP from ParseIP has 16 bytes: it is that 128-bit number.  An IPv4 address is the number with the
    prefix ::ffff:0:0/96. *)
Definition IP := Z.

Definition of_v4 (v : Z) : IP := 65535 * 2 ^ 32 + v.
Definition To4 (ip : IP) : option Z := if Z.shiftr ip 32 =? 65535 then Some (ip mod 2 ^ 32) else None.

(** A decimal field: no leading zero, at most 255. *)
Definition octet (s : string) : option Z :=
  if empty s || (HasPrefix s "0" && (1 <? String.length s)%nat) then None
  else match digits 0 s with Some n => if n <=? 255 then Some n else None | None => None end.

Definition parseIPv4 (s : string) : option Z :=
  match octet <$> Split 46 s with
  | [Some a; Some b; Some c; Some d] => Some (a * 2 ^ 24 + b * 2 ^ 16 + c * 2 ^ 8 + d)
  | _ => None
  end.

Definition hex (c : Ascii.ascii) : option Z :=
  if in_range 48 57 c then Some (byte c - 48)
  else if in_range 97 102 c then Some (byte c - 87)
  else if in_range 65 70 c then Some (byte c - 55)
  else None.

(** The hexadecimal digits at the front: their number, value and what follows; a fifth digit fails. *)
Fixpoint take_hex (off : nat) (acc : Z) (s : string) : option (nat * Z * string) :=
  match s with
  | String c s' =>
      match hex c with
      | Some d => if (3 <? off)%nat then None else take_hex (S off) (acc * 16 + d) s'
      | None => Some (off, acc, s)
      end
  | EmptyString => Some (off, acc, s)
  end.

(** The loop of parseIPv6: 16-bit groups read so far, where the ellipsis was, what is left.  Every turn
    adds a group and eight end the loop, which is the fuel. *)
Fixpoint v6_loop (fuel : nat) (groups : list Z) (ellipsis : option nat) (s : string)
    : option (list Z * option nat * string) :=
  match fuel with
  | O => Some (groups, ellipsis, s)
  | S fuel =>
      match take_hex 0 0 s with
      | None | Some (O, _, _) => None
      | Some (_, acc, rest) =>
          if HasPrefix rest "." then
            if match ellipsis with None => negb (length groups =? 6)%nat | Some _ => false end then None
            else if (8 <? length groups + 2)%nat then None
            else
              match parseIPv4 s with
              | None => None
              | Some v => Some (groups ++ [v / 2 ^ 16; v mod 2 ^ 16], ellipsis, EmptyString)
              end
          else
            let groups := groups ++ [acc] in
            match rest with
            | EmptyString => Some (groups, ellipsis, EmptyString)
            | String c rest =>
                if negb (is_byte 58 c) || empty rest then None
                else if HasPrefix rest ":" then
                  match ellipsis with
                  | Some _ => None
                  | None =>
                      let rest := skip 1 rest in
                      if empty rest then Some (groups, Some (length groups), EmptyString)
                      else v6_loop fuel groups (Some (length groups)) rest
                  end
                else v6_loop fuel groups ellipsis rest
            end
      end
  end.

Definition join_groups (l : list Z) : Z := foldl (λ acc g, acc * 2 ^ 16 + g) 0 l.

Definition parseIPv6 (s : string) : option Z :=
  let '(ellipsis, s) := if HasPrefix s "::" then (Some 0%nat, skip 2 s) else (None, s) in
  if empty s then match ellipsis with Some _ => Some 0 | None => None end
  else
    match v6_loop 8 [] ellipsis s with
    | None => None
    | Some (groups, ellipsis, s) =>
        if negb (empty s) then None
        else if (length groups <? 8)%nat then
          match ellipsis with
          | None => None
          | Some e => Some (join_groups (take e groups ++ replicate (8 - length groups) 0 ++ drop e groups))
          end
        else match ellipsis with Some _ => None | None => Some (join_groups groups) end
    end.

(** netip.ParseAddr without a zone, which both net functions below refuse: whether the address is IPv4,
    and its number. *)
Fixpoint first_separator (s : string) : option Ascii.ascii :=
  match s with
  | EmptyString => None
  | String c s => if is_byte 46 c || is_byte 58 c || is_byte 37 c then Some c else first_separator s
  end.

Definition ParseAddr (s : string) : option (bool * Z) :=
  match first_separator s with
  | None => None
  | Some c =>
      if is_byte 46 c then pair true <$> parseIPv4 s
      else if is_byte 58 c && negb (contains_byte 37 s) then pair false <$> parseIPv6 s
      else None
  end.

Definition ParseIP (s : string) : option IP :=
  match ParseAddr s with
  | None => None
  | Some (is4, v) => Some (if is4 : bool then of_v4 v else v)
  end.

(** A network: the width of its number in bits, the number, and the length of the mask. *)
Record IPNet := mkNet { width : Z; base : Z; ones : Z }.

(** The mask CIDRMask(ones, width) as a number. *)
Definition mask (w n : Z) : Z := Z.shiftl (Z.ones n) (w - n).

Definition ParseCIDR (s : string) : option IPNet :=
  match Cut s "/" with
  | None => None
  | Some (addr, m) =>
      match ParseAddr addr, (if empty m then None else digits 0 m) with
      | Some (is4, v), Some n =>
          let w := if is4 : bool then 32 else 128 in
          if w <? n then None else Some (mkNet w (Z.land v (mask w n)) n)
      | _, _ => None
      end
  end.

(** IPNet.Contains: a 16-byte number of an IPv4 address counts as four bytes on both sides. *)
Definition narrow (n : IPNet) : IPNet :=
  if width n =? 32 then n
  else match To4 (base n) with Some v => mkNet 32 v (Z.max 0 (ones n - 96)) | None => n end.

Definition Contains (n : IPNet) (ip : IP) : bool :=
  let n := narrow n in
  let '(w, v) := match To4 ip with Some v => (32, v) | None => (128, ip) end in
  (w =? width n) && (Z.land (base n) (mask w (ones n)) =? Z.land v (mask w (ones n))).

(** ** A masked number is the start of its block *)

Lemma land_mask x w n :
  0 ≤ n ≤ w → 0 ≤ x < 2 ^ w → Z.land x (mask w n) = 2 ^ (w - n) * (x / 2 ^ (w - n)).
Proof.
  intros Hn Hx. unfold mask. rewrite Z.mul_comm, <- Z.shiftl_mul_pow2, <- Z.shiftr_div_pow2 by lia.
  apply Z.bits_inj'. intros i Hi. rewrite Z.land_spec, !Z.shiftl_spec by done.
  destruct (decide (i < w - n)); [by rewrite !(Z.testbit_neg_r _ (i - (w - n))), andb_false_r by lia|].
  rewrite Z.shiftr_spec by lia. replace (i - (w - n) + (w - n)) with i by lia.
  destruct (decide (i < w)); [rewrite Z.ones_spec_low, andb_true_r by lia; done|].
  rewrite Z.ones_spec_high, andb_false_r by lia. symmetry.
  destruct (decide (x = 0)) as [->|]; [apply Z.bits_0|].
  apply Z.bits_above_log2; [lia|]. apply Z.log2_lt_pow2; [lia|].
  apply Z.lt_le_trans with (2 ^ w); [lia|]. apply Z.pow_le_mono_r; lia.
Qed.

(** Containment in an IPv4 network is membership in an interval of addresses. *)
Lemma Contains_interval v n x :
  0 ≤ n ≤ 32 → 0 ≤ v < 2 ^ 32 → 0 ≤ x < 2 ^ 32 →
  let b := Z.land v (mask 32 n) in
  Contains (mkNet 32 b n) (of_v4 x) = true ↔ b ≤ x < b + 2 ^ (32 - n).
Proof.
  intros Hn Hv Hx b. unfold Contains, narrow. cbn [width].
  change (32 =? 32) with true. cbv iota. cbn [base ones].
  assert (To4 (of_v4 x) = Some x) as ->.
  { unfold To4, of_v4. rewrite Z.shiftr_div_pow2 by lia.
    replace ((65535 * 2 ^ 32 + x) / 2 ^ 32) with 65535 by (apply Z.div_unique with x; lia).
    change (65535 =? 65535) with true. cbv iota. f_equal. symmetry. apply Z.mod_unique with 65535; lia. }
  assert (0 < 2 ^ (32 - n)) as Hp by (apply Z.pow_pos_nonneg; lia).
  assert (2 ^ (32 - n) * (v / 2 ^ (32 - n)) ≤ v) by (apply Z.mul_div_le; lia).
  assert (0 ≤ v / 2 ^ (32 - n)) by (apply Z.div_pos; lia).
  subst b. rewrite (land_mask v) by lia.
  change (32 =? 32) with true. rewrite andb_true_l, !land_mask by nia.
  rewrite Z.eqb_eq, (Z.mul_comm (2 ^ (32 - n)) (v / _)), Z.div_mul by lia.
  pose proof (Z.div_mod x (2 ^ (32 - n))). pose proof (Z.mod_pos_bound x (2 ^ (32 - n)) Hp).
  split; intros; [nia|]. f_equal. apply Z.div_unique with (x - 2 ^ (32 - n) * (v / 2 ^ (32 - n))); nia.
Qed.

End Net.

(** ** encoding/base64: StdEncoding.DecodeString *)

Module Base64.

Import Strings.

Definition sextet (c : Ascii.ascii) : option Z :=
  if in_range 65 90 c then Some (byte c - 65)
  else if in_range 97 122 c then Some (byte c - 71)
  else if in_range 48 57 c then Some (byte c + 4)
  else if is_byte 43 c then Some 62
  else if is_byte 47 c then Some 63
  else None.

Fixpoint drop_newlines (s : string) : string :=
  match s with
  | EmptyString => s
  | String c s => if is_byte 10 c || is_byte 13 c then drop_newlines s else String c (drop_newlines s)
  end.

(** Groups of four characters; padding only at the end; the unused low bits are not checked. *)
Fixpoint quads (s : string) : option string :=
  match s with
  | EmptyString => Some EmptyString
  | String a (String b (String c (String d rest))) =>
      match sextet a, sextet b with
      | Some x, Some y =>
          let b1 := chr (x * 4 + y / 16) in
          if is_byte 61 c then if is_byte 61 d && empty rest then Some (String b1 EmptyString) else None
          else
            match sextet c with
            | None => None
            | Some z =>
                let b2 := chr ((y mod 16) * 16 + z / 4) in
                if is_byte 61 d then if empty rest then Some (String b1 (String b2 EmptyString)) else None
                else
                  match sextet d, quads rest with
                  | Some w, Some t => Some (String b1 (String b2 (String (chr ((z mod 4) * 64 + w)) t)))
                  | _, _ => None
                  end
            end
      | _, _ => None
      end
  | _ => None
  end.

Definition DecodeString (s : string) : option string := quads (drop_newlines s).

End Base64.

(** ** encoding/base64: RawURLEncoding, the alphabet of URLs without padding *)

Module RawURL.

Import Strings.

Definition alphabet (n : Z) : Ascii.ascii :=
  if n <? 26 then chr (n + 65)
  else if n <? 52 then chr (n + 71)
  else if n <? 62 then chr (n - 4)
  else if n =? 62 then chr 45 else chr 95.

Definition value (c : Ascii.ascii) : option Z :=
  if in_range 65 90 c then Some (byte c - 65)
  else if in_range 97 122 c then Some (byte c - 71)
  else if in_range 48 57 c then Some (byte c + 4)
  else if is_byte 45 c then Some 62
  else if is_byte 95 c then Some 63
  else None.

Fixpoint EncodeToString (s : string) : string :=
  match s with
  | EmptyString => EmptyString
  | String a EmptyString =>
      String (alphabet (byte a / 4)) (String (alphabet ((byte a mod 4) * 16)) EmptyString)
  | String a (String b EmptyString) =>
      String (alphabet (byte a / 4)) (String (alphabet ((byte a mod 4) * 16 + byte b / 16))
        (String (alphabet ((byte b mod 16) * 4)) EmptyString))
  | String a (String b (String c rest)) =>
      String (alphabet (byte a / 4)) (String (alphabet ((byte a mod 4) * 16 + byte b / 16))
        (String (alphabet ((byte b mod 16) * 4 + byte c / 64)) (String (alphabet (byte c mod 64)) (EncodeToString rest))))
  end.

(** Groups of four characters, the last one of two or three; the unused low bits are not checked. *)
Fixpoint quads (s : string) : option string :=
  match s with
  | EmptyString => Some EmptyString
  | String a (String b rest) =>
      match value a, value b with
      | Some x, Some y =>
          let b1 := chr (x * 4 + y / 16) in
          match rest with
          | EmptyString => Some (String b1 EmptyString)
          | String c rest =>
              match value c with
              | None => None
              | Some z =>
                  let b2 := chr ((y mod 16) * 16 + z / 4) in
                  match rest with
                  | EmptyString => Some (String b1 (String b2 EmptyString))
                  | String d rest =>
                      match value d, quads rest with
                      | Some w, Some t => Some (String b1 (String b2 (String (chr ((z mod 4) * 64 + w)) t)))
                      | _, _ => None
                      end
                  end
              end
          end
      | _, _ => None
      end
  | _ => None
  end.

Definition DecodeString (s : string) : option string := quads (Base64.drop_newlines s).

Lemma byte_bound c : 0 ≤ byte c < 256.
Proof. unfold byte. pose proof (Ascii.N_ascii_bounded c). lia. Qed.

Lemma chr_byte c : chr (byte c) = c.
Proof. unfold chr, byte. by rewrite N2Z.id, Ascii.ascii_N_embedding. Qed.

(** Every six-bit value is written as a character that reads back as it and is no line break. *)
Lemma alphabet_value n :
  0 ≤ n < 64 → value (alphabet n) = Some n ∧ is_byte 10 (alphabet n) || is_byte 13 (alphabet n) = false.
Proof.
  intros Hn.
  assert (forallb (λ k, let n := Z.of_nat k in
                        bool_decide (value (alphabet n) = Some n)
                        && negb (is_byte 10 (alphabet n) || is_byte 13 (alphabet n))) (seq 0 64) = true) as H
    by (vm_compute; reflexivity).
  rewrite forallb_forall in H. specialize (H (Z.to_nat n)). rewrite Z2Nat.id in H by lia.
  rewrite in_seq in H. specialize (H ltac:(lia)). apply andb_true_iff in H as [H1 H2].
  apply bool_decide_eq_true in H1. by apply negb_true_iff in H2.
Qed.

Ltac sextets :=
  repeat match goal with
    | |- context [value (alphabet ?n)] =>
        rewrite (proj1 (alphabet_value n ltac:(Z.to_euclidean_division_equations; lia)))
    | |- context [is_byte 10 (alphabet ?n)] =>
        rewrite (proj2 (alphabet_value n ltac:(Z.to_euclidean_division_equations; lia)))
    end.

Ltac bytes :=
  repeat match goal with
    | |- context [byte ?c] =>
        lazymatch goal with H : 0 ≤ byte c < 256 |- _ => fail | _ => pose proof (byte_bound c) end
    end.

Lemma byte_eq n c : n = byte c → chr n = c.
Proof. intros ->. apply chr_byte. Qed.

(** Decoding what was encoded. *)
Lemma decode_encode s : DecodeString (EncodeToString s) = Some s.
Proof.
  unfold DecodeString. revert s. fix IH 1. intros [|a [|b [|c s]]]; [done|..]; simpl.
  - bytes. sextets. simpl. sextets. do 2 f_equal. apply byte_eq. Z.to_euclidean_division_equations; lia.
  - bytes. sextets. simpl. sextets.
    do 2 f_equal; [|f_equal]; apply byte_eq; Z.to_euclidean_division_equations; lia.
  - bytes. sextets. simpl. sextets. rewrite IH.
    do 2 f_equal; [|f_equal; [|f_equal]]; try apply byte_eq; Z.to_euclidean_division_equations; lia.
Qed.

End RawURL.

(** ** encoding/hex *)

Module Hex.

Import Strings.

Definition digit_of (n : Z) : Ascii.ascii := if n <? 10 then chr (n + 48) else chr (n + 87).

Fixpoint EncodeToString (s : string) : string :=
  match s with
  | EmptyString => EmptyString
  | String c s => String (digit_of (byte c / 16)) (String (digit_of (byte c mod 16)) (EncodeToString s))
  end.

End Hex.

(** ** net/http: the header map *)

Module Header.

Import Strings.

Definition alpha (c : Ascii.ascii) : bool := in_range 65 90 c || in_range 97 122 c.

(** The bytes of a token. *)
Definition token_byte (c : Ascii.ascii) : bool :=
  alpha c || in_range 48 57 c || existsb (λ n, is_byte n c) [33; 35; 36; 37; 38; 39; 42; 43; 45; 46; 94; 95; 96; 124; 126].

Fixpoint all_bytes (f : Ascii.ascii → bool) (s : string) : bool :=
  match s with EmptyString => true | String c s => f c && all_bytes f s end.

Fixpoint capitalize (start : bool) (s : string) : string :=
  match s with
  | EmptyString => s
  | String c s => String (if start then upper c else lower c) (capitalize (is_byte 45 c) s)
  end.

(** textproto.CanonicalMIMEHeaderKey: capitalized words, unless a byte is not of a token. *)
Definition CanonicalKey (s : string) : string := if all_bytes token_byte s then capitalize true s else s.

Definition t := gmap string (list string).

Definition Values (h : t) (k : string) : list string := default [] (h !! CanonicalKey k).
Definition Get (h : t) (k : string) : string := default EmptyString (head (Values h k)).
Definition Set_ (h : t) (k v : string) : t := <[CanonicalKey k := [v]]> h.
Definition Add (h : t) (k v : string) : t := <[CanonicalKey k := Values h k ++ [v]]> h.
Definition Del (h : t) (k : string) : t := delete (CanonicalKey k) h.

End Header.
