(* ===== verification/GoWire.v ===== *)
(** * Wire formats of the Go standard library

    base64.URLEncoding, the RFC 3339 form of time.Time, and encoding/json for a struct of a time and a
    string, as pkg/cursor uses them.  Times are instants (Prelude.v); the zone a time is printed in is
    an argument, its offset in seconds east of UTC.  A decoder returns [None] where Go returns an error.
    The fuel of a JSON decoder is twice the length of its input: every two calls consume a byte. *)

From S2P Require Import Prelude GoStd.
#[local] Open Scope Z_scope.

Import Strings.

(** ** encoding/base64: URLEncoding, with padding *)

Module URL64.

Definition pad : Ascii.ascii := chr 61.

Fixpoint EncodeToString (s : string) : string :=
  match s with
  | EmptyString => EmptyString
  | String a EmptyString =>
      String (RawURL.alphabet (byte a / 4)) (String (RawURL.alphabet ((byte a mod 4) * 16))
        (String pad (String pad EmptyString)))
  | String a (String b EmptyString) =>
      String (RawURL.alphabet (byte a / 4)) (String (RawURL.alphabet ((byte a mod 4) * 16 + byte b / 16))
        (String (RawURL.alphabet ((byte b mod 16) * 4)) (String pad EmptyString)))
  | String a (String b (String c rest)) =>
      String (RawURL.alphabet (byte a / 4)) (String (RawURL.alphabet ((byte a mod 4) * 16 + byte b / 16))
        (String (RawURL.alphabet ((byte b mod 16) * 4 + byte c / 64))
           (String (RawURL.alphabet (byte c mod 64)) (EncodeToString rest))))
  end.

(** Groups of four characters; padding only at the end; the unused low bits are not checked. *)
Fixpoint quads (s : string) : option string :=
  match s with
  | EmptyString => Some EmptyString
  | String a (String b (String c (String d rest))) =>
      match RawURL.value a, RawURL.value b with
      | Some x, Some y =>
          let b1 := chr (x * 4 + y / 16) in
          if is_byte 61 c then if is_byte 61 d && empty rest then Some (String b1 EmptyString) else None
          else
            match RawURL.value c with
            | None => None
            | Some z =>
                let b2 := chr ((y mod 16) * 16 + z / 4) in
                if is_byte 61 d then if empty rest then Some (String b1 (String b2 EmptyString)) else None
                else
                  match RawURL.value d, quads rest with
                  | Some w, Some t => Some (String b1 (String b2 (String (chr ((z mod 4) * 64 + w)) t)))
                  | _, _ => None
                  end
            end
      | _, _ => None
      end
  | _ => None
  end.

Definition DecodeString (s : string) : option string := quads (Base64.drop_newlines s).

Lemma alphabet_pad n : 0 ≤ n < 64 → is_byte 61 (RawURL.alphabet n) = false.
Proof.
  intros Hn. destruct (RawURL.alphabet_value n Hn) as [H _]. unfold is_byte.
  destruct (Z.eqb_spec (byte (RawURL.alphabet n)) 61) as [E|]; [|done].
  unfold RawURL.value, in_range, is_byte in H. by rewrite E in H.
Qed.

Ltac padded :=
  repeat match goal with
    | |- context [is_byte 61 (RawURL.alphabet ?n)] =>
        rewrite (alphabet_pad n ltac:(Z.to_euclidean_division_equations; lia))
    end.

(** Decoding what was encoded. *)
Lemma padded_roundtrip s : DecodeString (EncodeToString s) = Some s.
Proof.
  unfold DecodeString. revert s. fix IH 1. intros [|a [|b [|c s]]]; [done|..]; simpl.
  - RawURL.bytes. RawURL.sextets. simpl. RawURL.sextets. do 2 f_equal. apply RawURL.byte_eq.
    Z.to_euclidean_division_equations; lia.
  - RawURL.bytes. RawURL.sextets. simpl. RawURL.sextets. padded.
    do 2 f_equal; [|f_equal]; apply RawURL.byte_eq; Z.to_euclidean_division_equations; lia.
  - RawURL.bytes. RawURL.sextets. simpl. RawURL.sextets. padded. rewrite IH.
    do 2 f_equal; [|f_equal; [|f_equal]]; try apply RawURL.byte_eq; Z.to_euclidean_division_equations; lia.
Qed.

Lemma encode_nonempty s : s ≠ EmptyString → empty (EncodeToString s) = false.
Proof. by destruct s as [|a [|b [|c s]]]. Qed.

End URL64.

(** ** time: RFC 3339

    Calendar dates are those of the proleptic Gregorian calendar, counted in days since the Unix epoch. *)

Module Rfc3339.

Definition leap (y : Z) : bool := (y mod 4 =? 0) && (negb (y mod 100 =? 0) || (y mod 400 =? 0)).

Definition days_in (y m : Z) : Z :=
  if m =? 2 then (if leap y then 29 else 28)
  else if (m =? 4) || (m =? 6) || (m =? 9) || (m =? 11) then 30 else 31.

(** A year here starts in March; 400 of them are an era of 146097 days. *)
Definition days_of (y m d : Z) : Z :=
  let y := if m <=? 2 then y - 1 else y in
  let yoe := y mod 400 in
  let doy := (153 * ((m + 9) mod 12) + 2) / 5 + d - 1 in
  y / 400 * 146097 + (yoe * 365 + yoe / 4 - yoe / 100 + doy) - 719468.

(** Month and day of a day of such a year. *)
Definition month_day (doy : Z) : Z * Z :=
  let mp := (5 * doy + 2) / 153 in
  (if mp <? 10 then mp + 3 else mp - 9, doy - (153 * mp + 2) / 5 + 1).

(** Centuries, four-year cycles and years of an era, and the day of the year. *)
Definition year_day (doe : Z) : Z * Z :=
  let c := Z.min 3 (doe / 36524) in
  let r := doe - 36524 * c in
  let q := r / 1461 in
  let r := r - 1461 * q in
  let y := Z.min 3 (r / 365) in
  (100 * c + 4 * q + y, r - 365 * y).

Definition date_of_era (doe : Z) : Z * Z * Z :=
  let '(yoe, doy) := year_day doe in
  let '(m, d) := month_day doy in
  (if m <=? 2 then yoe + 1 else yoe, m, d).

Definition date_of (days : Z) : Z * Z * Z :=
  let z := days + 719468 in
  let '(y, m, d) := date_of_era (z mod 146097) in
  (y + 400 * (z / 146097), m, d).

(** *** Formatting *)

Definition dig (n : Z) : Ascii.ascii := chr (48 + n).

(** The last [w] decimal digits of [n], before [k]. *)
Fixpoint dec (w : nat) (n : Z) (k : string) : string :=
  match w with O => k | S w => dec w (n / 10) (String (dig (n mod 10)) k) end.

Fixpoint trim_zeros (s : string) : string :=
  match s with
  | EmptyString => EmptyString
  | String c s => let r := trim_zeros s in if empty r && is_byte 48 c then EmptyString else String c r
  end.

Definition appendNano (ns : Z) (k : string) : string :=
  if ns =? 0 then k else String (chr 46) (trim_zeros (dec 9 ns EmptyString) ++ k).

Definition append_zone (off : Z) : string :=
  if off =? 0 then String (chr 90) EmptyString
  else
    let zone := Z.quot off 60 in
    String (chr (if zone <? 0 then 45 else 43))
      (dec 2 (Z.abs zone / 60) (String (chr 58) (dec 2 (Z.abs zone mod 60) EmptyString))).

(** appendStrictRFC3339 of an instant in a zone [off] seconds east of UTC. *)
Definition format (off : Z) (t : Time) : option string :=
  let local := t + off * Second in
  let secs := local / Second in
  let rem := secs mod 86400 in
  let '(y, m, d) := date_of (secs / 86400) in
  if (y <? 0) || (9999 <? y) then None
  else if negb (off =? 0) && (24 <=? Z.abs (Z.quot off 60) / 60) then None
  else
    Some (dec 4 y (String (chr 45) (dec 2 m (String (chr 45) (dec 2 d (String (chr 84)
           (dec 2 (rem / 3600) (String (chr 58) (dec 2 (rem / 60 mod 60) (String (chr 58) (dec 2 (rem mod 60)
              (appendNano (local mod Second) (append_zone off))))))))))))).

(** *** Parsing: time.Parse with the layout of RFC 3339 *)

Definition expect (n : Z) (s : string) : option string :=
  match s with String c s => if is_byte n c then Some s else None | EmptyString => None end.

(** A number of two digits, or of one when [fixed] is false. *)
Definition getnum (fixed : bool) (s : string) : option (Z * string) :=
  match s with
  | EmptyString => None
  | String a s =>
      x ← digit a;
      match s with
      | EmptyString => if fixed then None else Some (x, s)
      | String b s' =>
          match digit b with
          | Some y => Some (10 * x + y, s')
          | None => if fixed then None else Some (x, s)
          end
      end
  end.

Definition get_year (s : string) : option (Z * string) :=
  match s with
  | String a (String b (String c (String d s))) =>
      y ← digits 0 (String a (String b (String c (String d EmptyString)))); Some (y, s)
  | _ => None
  end.

Fixpoint span_digits (s : string) : string * string :=
  match s with
  | EmptyString => (EmptyString, EmptyString)
  | String c s' =>
      match digit c with
      | Some _ => let '(ds, rest) := span_digits s' in (String c ds, rest)
      | None => (EmptyString, s)
      end
  end.

(** Any number of digits of a fraction may follow the seconds; the first nine count. *)
Definition get_nanos (s : string) : Z * string :=
  match s with
  | String p s' =>
      let '(ds, rest) := span_digits s' in
      if (is_byte 46 p || is_byte 44 p) && negb (empty ds) then
        let ds := first 9 ds in (default 0 (digits 0 ds) * 10 ^ (9 - Z.of_nat (String.length ds)), rest)
      else (0, s)
  | EmptyString => (0, s)
  end.

Definition get_zone (s : string) : option (Z * string) :=
  match s with
  | EmptyString => None
  | String g s =>
      if is_byte 90 g then Some (0, s)
      else
        '(hr, s) ← getnum true s;
        s ← expect 58 s;
        '(mm, s) ← getnum true s;
        if (24 <? hr) || (60 <? mm) then None
        else if is_byte 43 g then Some ((hr * 60 + mm) * 60, s)
        else if is_byte 45 g then Some (- ((hr * 60 + mm) * 60), s)
        else None
  end.

Definition parse (s : string) : option Time :=
  '(y, s) ← get_year s;
  s ← expect 45 s;
  '(m, s) ← getnum true s;
  if (m <? 1) || (12 <? m) then None else
  s ← expect 45 s;
  '(d, s) ← getnum true s;
  s ← expect 84 s;
  '(hh, s) ← getnum false s;
  if 24 <=? hh then None else
  s ← expect 58 s;
  '(mi, s) ← getnum true s;
  if 60 <=? mi then None else
  s ← expect 58 s;
  '(ss, s) ← getnum true s;
  if 60 <=? ss then None else
  let '(ns, s) := get_nanos s in
  '(off, s) ← get_zone s;
  if negb (empty s) || (d <? 1) || (days_in y m <? d) then None
  else Some ((days_of y m d * 86400 + hh * 3600 + mi * 60 + ss - off) * Second + ns).

(** *** Round trip *)

Definition doy_ok (doy : Z) : bool :=
  let '(m, d) := month_day doy in
  (1 <=? m) && (m <=? 12) && (1 <=? d) && ((153 * ((m + 9) mod 12) + 2) / 5 + d - 1 =? doy)
  && (if m =? 2 then (d <=? 28) || (d =? 29) && (doy =? 365) else d <=? days_in 0 m).

Lemma month_day_spec doy m d :
  0 ≤ doy ≤ 365 → month_day doy = (m, d) →
  1 ≤ m ≤ 12 ∧ 1 ≤ d ∧ (153 * ((m + 9) mod 12) + 2) / 5 + d - 1 = doy
  ∧ if m =? 2 then d ≤ 28 ∨ d = 29 ∧ doy = 365 else d ≤ days_in 0 m.
Proof.
  intros Hd E. assert (forallb doy_ok (seqZ 0 366) = true) as H by (vm_compute; reflexivity).
  rewrite forallb_forall in H. specialize (H doy). rewrite <- list_elem_of_In, elem_of_seqZ in H.
  specialize (H ltac:(lia)). unfold doy_ok in H. rewrite E in H. apply andb_true_iff in H as [H Hm].
  rewrite !andb_true_iff in H. breflect. split_and!; try lia. destruct (m =? 2); [|breflect; lia].
  apply orb_true_iff in Hm as [?|[? ?]%andb_true_iff]; breflect; [left|right]; lia.
Qed.

Lemma year_day_spec doe yoe doy :
  0 ≤ doe < 146097 → year_day doe = (yoe, doy) →
  0 ≤ yoe ≤ 399 ∧ 0 ≤ doy ≤ 365 ∧ yoe * 365 + yoe / 4 - yoe / 100 + doy = doe
  ∧ (doy = 365 → leap (yoe + 1) = true).
Proof.
  intros Hd. unfold year_day. set (c := Z.min 3 (doe / 36524)). set (r := doe - 36524 * c).
  set (q := r / 1461). set (r' := r - 1461 * q). set (y := Z.min 3 (r' / 365)). intros [= <- <-].
  assert (0 ≤ c ≤ 3 ∧ 0 ≤ r ≤ 36524 ∧ (c < 3 → r < 36524)) by (subst c r; Z.to_euclidean_division_equations; lia).
  assert (0 ≤ q ≤ 24 ∧ 0 ≤ r' ≤ 1460 ∧ r = 1461 * q + r') by (subst q r'; Z.to_euclidean_division_equations; lia).
  assert (0 ≤ y ≤ 3 ∧ 0 ≤ r' - 365 * y ≤ 365 ∧ (r' - 365 * y = 365 → y = 3))
    by (subst y; Z.to_euclidean_division_equations; lia).
  assert (doe = 36524 * c + r) by (subst r; lia). clearbody c r q r' y.
  assert ((100 * c + 4 * q + y) / 4 = 25 * c + q) by (Z.to_euclidean_division_equations; lia).
  assert ((100 * c + 4 * q + y) / 100 = c) by (Z.to_euclidean_division_equations; lia).
  split_and!; try lia. intros H5. assert (y = 3) as -> by lia. unfold leap.
  assert ((100 * c + 4 * q + 3 + 1) mod 4 = 0) as -> by (Z.to_euclidean_division_equations; lia).
  destruct (Z.eqb_spec ((100 * c + 4 * q + 3 + 1) mod 100) 0) as [E|]; [|done].
  assert (q = 24) as -> by (Z.to_euclidean_division_equations; lia). assert (c = 3) as -> by lia. done.
Qed.

Lemma days_of_era y m d e : days_of (y + 400 * e) m d = days_of y m d + 146097 * e.
Proof.
  unfold days_of. set (b := if m <=? 2 then 1 else 0).
  assert (∀ x, (if m <=? 2 then x - 1 else x) = x - b) as E by (intros; subst b; destruct (m <=? 2); lia).
  rewrite !E. replace (y + 400 * e - b) with (y - b + e * 400) by lia.
  rewrite Z.mod_add, Z.div_add by done. lia.
Qed.

Lemma leap_era y e : leap (y + 400 * e) = leap y.
Proof.
  unfold leap.
  assert ((y + 400 * e) mod 4 = y mod 4) as -> by (replace (y + 400 * e) with (y + 100 * e * 4) by lia; by rewrite Z.mod_add).
  assert ((y + 400 * e) mod 100 = y mod 100) as -> by (replace (y + 400 * e) with (y + 4 * e * 100) by lia; by rewrite Z.mod_add).
  assert ((y + 400 * e) mod 400 = y mod 400) as -> by (replace (y + 400 * e) with (y + e * 400) by lia; by rewrite Z.mod_add).
  done.
Qed.

Lemma date_spec days y m d :
  date_of days = (y, m, d) → 1 ≤ m ≤ 12 ∧ 1 ≤ d ≤ days_in y m ∧ days_of y m d = days.
Proof.
  unfold date_of, date_of_era. set (z := days + 719468). pose proof (Z.mod_pos_bound z 146097 ltac:(lia)) as Hb.
  destruct (year_day (z mod 146097)) as [yoe doy] eqn:Ey. destruct (month_day doy) as [m0 d0] eqn:Em.
  apply year_day_spec in Ey as (Hy & Hd & Hdoe & Hleap); [|done].
  apply month_day_spec in Em as (Hm & Hd1 & Hdoy & Hmd); [|done]. intros [= <- <- <-].
  rewrite days_of_era. split_and!; [lia|lia|done| |].
  - unfold days_in in *. rewrite leap_era. destruct (Z.eqb_spec m0 2) as [->|]; [|done]. cbn.
    destruct Hmd as [?|[-> ->]]; [|by rewrite Hleap]. destruct (leap _); lia.
  - unfold days_of. assert ((if m0 <=? 2 then (if m0 <=? 2 then yoe + 1 else yoe) - 1 else if m0 <=? 2 then yoe + 1 else yoe) = yoe)
      as -> by (destruct (m0 <=? 2); lia).
    rewrite Z.div_small, Z.mod_small, Hdoy by lia. pose proof (Z.div_mod z 146097). lia.
Qed.

Lemma digit_dig n : 0 ≤ n < 10 → digit (dig n) = Some n.
Proof.
  intros Hn. assert (forallb (λ k, bool_decide (digit (dig k) = Some k)) (seqZ 0 10) = true) as H
    by (vm_compute; reflexivity).
  rewrite forallb_forall in H. specialize (H n). rewrite bool_decide_eq_true in H.
  apply H, list_elem_of_In, elem_of_seqZ. lia.
Qed.

Lemma digit_mod n : digit (dig (n mod 10)) = Some (n mod 10).
Proof. apply digit_dig. by apply Z.mod_pos_bound. Qed.

Lemma getnum_dec fixed n k : 0 ≤ n < 100 → getnum fixed (dec 2 n k) = Some (n, k).
Proof.
  intros Hn. cbn. rewrite !digit_mod. cbn. do 2 f_equal. Z.to_euclidean_division_equations; lia.
Qed.

Lemma get_year_dec n k : 0 ≤ n ≤ 9999 → get_year (dec 4 n k) = Some (n, k).
Proof.
  intros Hn. unfold get_year, dec, digits. rewrite !digit_mod. cbn [mbind option_bind]. do 2 f_equal.
  Z.to_euclidean_division_equations; lia.
Qed.

Lemma byte_chr n : 0 ≤ n < 256 → byte (chr n) = n.
Proof. intros Hn. unfold byte, chr. rewrite Ascii.N_ascii_embedding by lia. lia. Qed.

Lemma digits_dec w n k acc :
  0 ≤ n → digits acc (dec w n k) = digits (acc * 10 ^ Z.of_nat w + n mod 10 ^ Z.of_nat w) k.
Proof.
  revert n k. induction w as [|w IH]; intros n k Hn.
  { cbn [dec]. f_equal. rewrite Z.mod_1_r. lia. }
  cbn [dec]. rewrite IH by (Z.to_euclidean_division_equations; lia). cbn [digits]. rewrite digit_mod. f_equal.
  rewrite Nat2Z.inj_succ, Z.pow_succ_r by lia. assert (0 < 10 ^ Z.of_nat w) by lia.
  rewrite Z.rem_mul_r by lia. lia.
Qed.

Lemma dec_length w n k : String.length (dec w n k) = (w + String.length k)%nat.
Proof. revert n k. induction w as [|w IH]; intros n k; cbn [dec]; [done|]. rewrite IH. cbn. lia. Qed.

(** Only digits. *)
Fixpoint all_digits (s : string) : bool :=
  match s with EmptyString => true | String c s => bool_decide (is_Some (digit c)) && all_digits s end.

Lemma all_digits_dec w n k : all_digits (dec w n k) = all_digits k.
Proof.
  revert n k. induction w as [|w IH]; intros n k; cbn [dec]; [done|]. rewrite IH. cbn [all_digits].
  by rewrite digit_mod.
Qed.

Lemma trim_digits s : all_digits s = true → all_digits (trim_zeros s) = true.
Proof.
  induction s as [|c s IH]; [done|]. cbn [all_digits trim_zeros]. intros [Hc Hs]%andb_true_iff.
  destruct (_ && _); [done|]. cbn [all_digits]. by rewrite Hc, IH.
Qed.

Lemma trim_length s : (String.length (trim_zeros s) ≤ String.length s)%nat.
Proof. induction s as [|c s IH]; [done|]. cbn [trim_zeros]. destruct (_ && _); cbn; lia. Qed.

(** Trailing zeros count as nothing after the point. *)
Lemma digits_trim s acc v :
  digits acc s = Some v →
  ∃ u, digits acc (trim_zeros s) = Some u
       ∧ u * 10 ^ (Z.of_nat (String.length s) - Z.of_nat (String.length (trim_zeros s))) = v.
Proof.
  revert acc. induction s as [|c s IH]; intros acc; cbn [digits trim_zeros].
  { intros [= ->]. exists v. split; [done|]. cbn. lia. }
  destruct (digit c) as [d|] eqn:Hd; [|done]. intros (u & Hu & Hv)%IH. pose proof (trim_length s).
  destruct (empty (trim_zeros s) && is_byte 48 c) eqn:E.
  - apply andb_true_iff in E as [E1 E2]. destruct (trim_zeros s); [|done]. cbn in Hu. injection Hu as <-.
    assert (d = 0) as ->. { unfold digit in Hd. unfold is_byte in E2. destruct (in_range _ _ _); [|done]. breflect. injection Hd. lia. }
    exists acc. split; [done|]. rewrite <- Hv. cbn [String.length]. rewrite Nat2Z.inj_succ.
    rewrite <- Z.add_1_l, <- Z.add_sub_assoc, Z.pow_add_r by (cbn in *; lia). cbn. lia.
  - exists u. split; [cbn [digits]; by rewrite Hd|]. cbn [String.length].
    rewrite !Nat2Z.inj_succ. by replace (Z.succ _ - Z.succ _)
      with (Z.of_nat (String.length s) - Z.of_nat (String.length (trim_zeros s))) by lia.
Qed.

(** The run of digits ends where it should. *)
Definition stops (k : string) : Prop := match k with EmptyString => True | String c _ => digit c = None end.

Lemma span_digits_app ds k : all_digits ds = true → stops k → span_digits (ds ++ k) = (ds, k).
Proof.
  intros Hd Hk. induction ds as [|c ds IH].
  - change (EmptyString ++ k)%string with k. destruct k as [|c k]; [done|]. cbn [span_digits].
    cbn [stops] in Hk. by rewrite Hk.
  - change (String c ds ++ k)%string with (String c (ds ++ k)). cbn [span_digits all_digits] in *.
    apply andb_true_iff in Hd as [Hc Hd]. apply bool_decide_eq_true in Hc as [d ->]. by rewrite IH.
Qed.

Lemma first_all n s : (String.length s ≤ n)%nat → first n s = s.
Proof.
  revert n. induction s as [|c s IH]; intros [|n] Hn; cbn in *; try done; [lia|]. by rewrite IH by lia.
Qed.

Lemma get_nanos_append ns k :
  0 ≤ ns < 10 ^ 9 → stops k → (∀ c k', k = String c k' → is_byte 46 c || is_byte 44 c = false) →
  get_nanos (appendNano ns k) = (ns, k).
Proof.
  intros Hn Hs Hp. unfold appendNano. destruct (Z.eqb_spec ns 0) as [->|H0].
  - destruct k as [|c k']; [done|]. cbn [get_nanos]. destruct (span_digits k'). by rewrite (Hp c k').
  - cbn [get_nanos]. set (s := dec 9 ns EmptyString).
    assert (all_digits s = true) as Hd by (unfold s; by rewrite all_digits_dec).
    assert (String.length s = 9%nat) as Hl by (unfold s; by rewrite dec_length).
    rewrite span_digits_app by auto using trim_digits.
    assert (digits 0 s = Some ns) as Hv.
    { unfold s. rewrite digits_dec by lia. cbn [digits]. f_equal. rewrite Z.mod_small; cbn; lia. }
    apply digits_trim in Hv as (u & Hu & Hv). pose proof (trim_length s).
    assert (negb (empty (trim_zeros s)) = true) as ->.
    { destruct (trim_zeros s); [|done]. cbn in Hu. injection Hu as <-. lia. }
    cbn [andb]. rewrite first_all by lia. change (is_byte 46 (chr 46)) with true. cbn [orb andb].
    rewrite Hu. cbn [default from_option id]. rewrite Hl in Hv. by rewrite <- Hv.
Qed.

Lemma get_zone_append off :
  off mod 60 = 0 → -86400 < off < 86400 → get_zone (append_zone off) = Some (off, EmptyString).
Proof.
  intros H6 Hb. unfold append_zone. destruct (Z.eqb_spec off 0) as [->|H0]; [done|].
  assert (off = 60 * Z.quot off 60) as Hq by (Z.to_euclidean_division_equations; lia).
  set (zone := Z.quot off 60) in *. clearbody zone. cbn [get_zone].
  assert (is_byte 90 (chr (if zone <? 0 then 45 else 43)) = false) as -> by (by destruct (zone <? 0)).
  rewrite getnum_dec by (Z.to_euclidean_division_equations; lia). cbn [mbind option_bind].
  change (expect 58 (String (chr 58) ?k)) with (Some k). cbn [mbind option_bind].
  rewrite getnum_dec by (Z.to_euclidean_division_equations; lia). cbn [mbind option_bind].
  destruct (24 <? _) eqn:E1; [breflect; Z.to_euclidean_division_equations; lia|].
  destruct (60 <? _) eqn:E2; [breflect; Z.to_euclidean_division_equations; lia|]. cbn [orb].
  destruct (zone <? 0) eqn:Ez; breflect; cbn -[Z.mul Z.add Z.div Z.modulo]; do 2 f_equal;
    Z.to_euclidean_division_equations; lia.
Qed.

Lemma expect_chr n k : 0 ≤ n < 256 → expect n (String (chr n) k) = Some k.
Proof. intros Hn. unfold expect, is_byte. by rewrite byte_chr, Z.eqb_refl. Qed.

Lemma zone_stops off :
  stops (append_zone off) ∧ ∀ c k, append_zone off = String c k → is_byte 46 c || is_byte 44 c = false.
Proof.
  unfold append_zone. destruct (off =? 0); [split; [done|]; by intros ? ? [= <- _]|].
  destruct (Z.quot off 60 <? 0); (split; [done|]; by intros ? ? [= <- _]).
Qed.

(** Parsing what was formatted, in any zone of whole minutes. *)
Theorem parse_format off t s : off mod 60 = 0 → format off t = Some s → parse s = Some t.
Proof.
  intros H6. unfold format. set (local := t + off * Second). set (secs := local / Second).
  destruct (date_of (secs / 86400)) as [[y m] d] eqn:Ed. apply date_spec in Ed as (Hm & Hd & Hdays).
  destruct (_ || _) eqn:Hy; [done|]. apply orb_false_iff in Hy as [Hy1 Hy2].
  destruct (_ && _) eqn:Hz; [done|]. intros <-%(inj Some). cbv zeta.
  assert (-86400 < off < 86400) as Hoff.
  { apply andb_false_iff in Hz as [Hz%negb_false_iff|Hz]; breflect; [lia|]. Z.to_euclidean_division_equations; lia. }
  clear Hz. breflect.
  assert (0 ≤ secs mod 86400 < 86400) as Hr by (by apply Z.mod_pos_bound).
  assert (0 ≤ local mod Second < Second) as Hns by (by apply Z.mod_pos_bound). set (rem := secs mod 86400) in *.
  assert (days_in y m ≤ 31) by (unfold days_in; repeat case_match; lia).
  destruct (zone_stops off) as [Hs1 Hs2]. unfold parse.
  repeat first
    [rewrite get_year_dec by lia|rewrite getnum_dec by (Z.to_euclidean_division_equations; lia)
    |rewrite expect_chr by lia|progress cbn [mbind option_bind]
    |rewrite (get_nanos_append _ _ Hns Hs1 Hs2)|rewrite (get_zone_append off H6 Hoff)
    |rewrite (proj2 (Z.ltb_ge _ _)) by lia|progress cbn [orb]
    |rewrite (proj2 (Z.leb_gt _ _)) by (Z.to_euclidean_division_equations; lia)].
  cbn [empty negb orb]. rewrite ?(proj2 (Z.ltb_ge _ _)) by lia. cbn [orb]. f_equal. rewrite Hdays.
  assert (secs = secs / 86400 * 86400 + rem) by (subst rem; Z.to_euclidean_division_equations; lia).
  assert (rem = rem / 3600 * 3600 + rem / 60 mod 60 * 60 + rem mod 60) by (Z.to_euclidean_division_equations; lia).
  assert (local = secs * Second + local mod Second)
    by (subst secs; unfold Second; Z.to_euclidean_division_equations; lia).
  assert (secs / 86400 * 86400 + rem / 3600 * 3600 + rem / 60 mod 60 * 60 + rem mod 60 - off = secs - off) as -> by lia.
  unfold local in *. lia.
Qed.

End Rfc3339.

(** ** encoding/json *)

Module Json.

Definition quote : Ascii.ascii := chr 34.
Definition backslash : Ascii.ascii := chr 92.

(** *** Runes *)

Definition surrogate (r : Z) : bool := (55296 <=? r) && (r <? 57344).

(** utf8.EncodeRune. *)
Definition EncodeRune (r : Z) : string :=
  let tail n := chr (128 + r / n mod 64) in
  let three r := String (chr (224 + r / 4096)) (String (chr (128 + r / 64 mod 64)) (String (chr (128 + r mod 64)) EmptyString)) in
  if r <? 128 then String (chr r) EmptyString
  else if r <? 2048 then String (chr (192 + r / 64)) (String (tail 1) EmptyString)
  else if surrogate r || (1114111 <? r) then three Glob.RuneError
  else if r <? 65536 then three r
  else String (chr (240 + r / 262144)) (String (tail 4096) (String (tail 64) (String (tail 1) EmptyString))).

(** *** Marshalling a string, with HTML escaped *)

Definition safe (c : Ascii.ascii) : bool :=
  (32 <=? byte c) && (byte c <? 128) && negb (existsb (λ n, is_byte n c) [34; 92; 60; 62; 38]).

Definition hex4 (r : Z) : string :=
  String backslash (String (chr 117)
    (String (Hex.digit_of (r / 4096)) (String (Hex.digit_of (r / 256 mod 16))
       (String (Hex.digit_of (r / 16 mod 16)) (String (Hex.digit_of (r mod 16)) EmptyString))))).

Definition escape (c : Ascii.ascii) : string :=
  let short n := String backslash (String (chr n) EmptyString) in
  if safe c then String c EmptyString
  else if is_byte 34 c || is_byte 92 c then String backslash (String c EmptyString)
  else if is_byte 8 c then short 98
  else if is_byte 12 c then short 102
  else if is_byte 10 c then short 110
  else if is_byte 13 c then short 114
  else if is_byte 9 c then short 116
  else hex4 (byte c).

Fixpoint escaped (fuel : nat) (s : string) : string :=
  match fuel, s with
  | S fuel, String c rest =>
      if byte c <? 128 then String.append (escape c) (escaped fuel rest)
      else
        let '(r, size) := Glob.DecodeRune s in
        String.append
          (if (r =? Glob.RuneError) && (size =? 1)%nat || (r =? 8232) || (r =? 8233) then hex4 r else first size s)
          (escaped fuel (skip size s))
  | _, _ => EmptyString
  end.

Definition appendString (s k : string) : string :=
  String quote (String.append (escaped (String.length s) s) (String quote k)).

(** *** Scanning *)

Definition is_hex (c : Ascii.ascii) : bool := bool_decide (is_Some (Net.hex c)).

(** The raw body of a string literal, after its opening quote, and what follows it. *)
Fixpoint scan_string (s : string) : option (string * string) :=
  match s with
  | EmptyString => None
  | String c s =>
      if is_byte 34 c then Some (EmptyString, s)
      else if is_byte 92 c then
        match s with
        | EmptyString => None
        | String e s =>
            if existsb (λ n, is_byte n e) [98; 102; 110; 114; 116; 92; 47; 34] then
              '(raw, rest) ← scan_string s; Some (String c (String e raw), rest)
            else if is_byte 117 e then
              match s with
              | String h1 (String h2 (String h3 (String h4 s))) =>
                  if is_hex h1 && is_hex h2 && is_hex h3 && is_hex h4 then
                    '(raw, rest) ← scan_string s;
                    Some (String c (String e (String h1 (String h2 (String h3 (String h4 raw))))), rest)
                  else None
              | _ => None
              end
            else None
        end
      else if byte c <? 32 then None
      else '(raw, rest) ← scan_string s; Some (String c raw, rest)
  end.

(** The rune of an escape \uXXXX. *)
Definition getu4 (s : string) : option Z :=
  match s with
  | String b (String u (String h1 (String h2 (String h3 (String h4 _))))) =>
      if is_byte 92 b && is_byte 117 u then
        d1 ← Net.hex h1; d2 ← Net.hex h2; d3 ← Net.hex h3; d4 ← Net.hex h4;
        Some (((d1 * 16 + d2) * 16 + d3) * 16 + d4)
      else None
  | _ => None
  end.

Definition unescape (e : Ascii.ascii) : Ascii.ascii :=
  if is_byte 98 e then chr 8
  else if is_byte 102 e then chr 12
  else if is_byte 110 e then chr 10
  else if is_byte 114 e then chr 13
  else if is_byte 116 e then chr 9
  else e.

(** The string a scanned literal stands for. *)
Fixpoint unquote (fuel : nat) (s : string) : string :=
  match fuel, s with
  | S fuel, String c rest =>
      if is_byte 92 c then
        match getu4 s with
        | Some r =>
            let rest := skip 6 s in
            if surrogate r then
              match getu4 rest with
              | Some r2 =>
                  if (r <? 56320) && (56320 <=? r2) && (r2 <? 57344)
                  then String.append (EncodeRune ((r - 55296) * 1024 + (r2 - 56320) + 65536)) (unquote fuel (skip 6 rest))
                  else String.append (EncodeRune Glob.RuneError) (unquote fuel rest)
              | None => String.append (EncodeRune Glob.RuneError) (unquote fuel rest)
              end
            else String.append (EncodeRune r) (unquote fuel rest)
        | None =>
            match rest with
            | String e rest => String (unescape e) (unquote fuel rest)
            | EmptyString => EmptyString
            end
        end
      else if byte c <? 128 then String c (unquote fuel rest)
      else
        let '(r, size) := Glob.DecodeRune s in String.append (EncodeRune r) (unquote fuel (skip size s))
  | _, _ => EmptyString
  end.

Definition literal (raw : string) : string := unquote (String.length raw) raw.

Fixpoint skip_ws (s : string) : string :=
  match s with
  | String c s' => if existsb (λ n, is_byte n c) [32; 9; 13; 10] then skip_ws s' else s
  | EmptyString => s
  end.

Definition scan_digits (s : string) : option string :=
  let '(ds, rest) := Rfc3339.span_digits s in if empty ds then None else Some rest.

(** A number, and what follows it. *)
Definition scan_number (s : string) : option string :=
  let s := match Rfc3339.expect 45 s with Some s => s | None => s end in
  s ← match Rfc3339.expect 48 s with Some s => Some s | None => scan_digits s end;
  s ← match Rfc3339.expect 46 s with Some s => scan_digits s | None => Some s end;
  match s with
  | String e s' =>
      if is_byte 101 e || is_byte 69 e then
        scan_digits (match s' with
                     | String g s'' => if is_byte 43 g || is_byte 45 g then s'' else s'
                     | EmptyString => s'
                     end)
      else Some s
  | EmptyString => Some s
  end.

(** Values, as far as a struct without composite fields looks into them: the raw body of a string, the
    members of an object; [Other] is a number, a boolean or an array. *)
Inductive value := Null | Str (raw : string) | Obj (members : list (string * value)) | Other.

Definition maxNestingDepth : Z := 10000.

Fixpoint p_value (fuel : nat) (depth : Z) (s : string) : option (value * string) :=
  match fuel with
  | O => None
  | S fuel =>
      match skip_ws s with
      | EmptyString => None
      | String c r as s =>
          if is_byte 34 c then '(raw, r) ← scan_string r; Some (Str raw, r)
          else if is_byte 123 c then
            if maxNestingDepth <=? depth then None
            else
              match Rfc3339.expect 125 (skip_ws r) with
              | Some r => Some (Obj [], r)
              | None => '(ms, r) ← p_members fuel (depth + 1) r; Some (Obj ms, r)
              end
          else if is_byte 91 c then
            if maxNestingDepth <=? depth then None
            else
              match Rfc3339.expect 93 (skip_ws r) with
              | Some r => Some (Other, r)
              | None => r ← p_elements fuel (depth + 1) r; Some (Other, r)
              end
          else
            match cut_prefix s "null", cut_prefix s "true", cut_prefix s "false" with
            | Some r, _, _ => Some (Null, r)
            | _, Some r, _ | _, _, Some r => Some (Other, r)
            | None, None, None => r ← scan_number s; Some (Other, r)
            end
      end
  end
with p_members (fuel : nat) (depth : Z) (s : string) : option (list (string * value) * string) :=
  match fuel with
  | O => None
  | S fuel =>
      r ← Rfc3339.expect 34 (skip_ws s);
      '(raw, r) ← scan_string r;
      r ← Rfc3339.expect 58 (skip_ws r);
      '(v, r) ← p_value fuel depth r;
      match Rfc3339.expect 44 (skip_ws r) with
      | Some r => '(ms, r) ← p_members fuel depth r; Some ((literal raw, v) :: ms, r)
      | None => r ← Rfc3339.expect 125 (skip_ws r); Some ([(literal raw, v)], r)
      end
  end
with p_elements (fuel : nat) (depth : Z) (s : string) : option string :=
  match fuel with
  | O => None
  | S fuel =>
      '(_, r) ← p_value fuel depth s;
      match Rfc3339.expect 44 (skip_ws r) with
      | Some r => p_elements fuel depth r
      | None => Rfc3339.expect 93 (skip_ws r)
      end
  end.

Definition parse_json (s : string) : option value :=
  '(v, rest) ← p_value (2 * String.length s + 2) 0 s;
  if empty (skip_ws rest) then Some v else None.

(** *** Strings without escapes *)

Fixpoint all_safe (s : string) : bool :=
  match s with EmptyString => true | String c s => safe c && all_safe s end.

Lemma safe_spec c :
  safe c = true → is_byte 34 c = false ∧ is_byte 92 c = false ∧ (byte c <? 32) = false ∧ (byte c <? 128) = true.
Proof.
  unfold safe. rewrite !andb_true_iff, negb_true_iff. cbn [existsb]. rewrite !orb_false_iff.
  intros ((H1 & H2) & H3 & H4 & _). split_and!; try done. by rewrite Z.ltb_antisym, H1.
Qed.

Lemma append_cons c s t : (String c s ++ t)%string = String c (s ++ t).
Proof. done. Qed.
Lemma append_nil_r s : (s ++ EmptyString)%string = s.
Proof. induction s as [|c s IH]; [done|]. by rewrite append_cons, IH. Qed.

Lemma escaped_safe s : all_safe s = true → escaped (String.length s) s = s.
Proof.
  induction s as [|c s IH]; [done|]. cbn [all_safe String.length escaped]. intros [Hc Hs]%andb_true_iff.
  destruct (safe_spec c Hc) as (_ & _ & _ & ->). unfold escape. rewrite Hc, append_cons, IH by done. done.
Qed.

Lemma scan_safe s k : all_safe s = true → scan_string (s ++ String quote k) = Some (s, k).
Proof.
  induction s as [|c s IH]; [done|]. cbn [all_safe]. intros [Hc Hs]%andb_true_iff.
  rewrite append_cons. cbn [scan_string]. destruct (safe_spec c Hc) as (-> & -> & -> & _). by rewrite IH.
Qed.

Lemma literal_safe s : all_safe s = true → literal s = s.
Proof.
  unfold literal. induction s as [|c s IH]; [done|]. cbn [all_safe String.length unquote]. intros [Hc Hs]%andb_true_iff.
  destruct (safe_spec c Hc) as (_ & -> & _ & ->). by rewrite IH.
Qed.

Lemma all_safe_app s t : all_safe (s ++ t) = all_safe s && all_safe t.
Proof. induction s as [|c s IH]; [done|]. rewrite append_cons. cbn [all_safe]. by rewrite IH, andb_assoc. Qed.

Lemma safe_dig n : 0 ≤ n < 10 → safe (Rfc3339.dig n) = true.
Proof.
  intros Hn. assert (forallb (λ k, safe (Rfc3339.dig k)) (seqZ 0 10) = true) as H by (vm_compute; reflexivity).
  rewrite forallb_forall in H. apply H, list_elem_of_In, elem_of_seqZ. lia.
Qed.

Lemma all_safe_dec w n k : all_safe (Rfc3339.dec w n k) = all_safe k.
Proof.
  revert n k. induction w as [|w IH]; intros n k; cbn [Rfc3339.dec]; [done|]. rewrite IH. cbn [all_safe].
  by rewrite safe_dig by (by apply Z.mod_pos_bound).
Qed.

Lemma all_safe_trim s : all_safe s = true → all_safe (Rfc3339.trim_zeros s) = true.
Proof.
  induction s as [|c s IH]; [done|]. cbn [all_safe Rfc3339.trim_zeros]. intros [Hc Hs]%andb_true_iff.
  destruct (_ && _); [done|]. cbn [all_safe]. by rewrite Hc, IH.
Qed.

Lemma all_safe_format off t s : Rfc3339.format off t = Some s → all_safe s = true.
Proof.
  unfold Rfc3339.format. destruct (Rfc3339.date_of _) as [[y m] d]. destruct (_ || _); [done|].
  destruct (_ && _); [done|]. intros <-%(inj Some).
  repeat (rewrite all_safe_dec; try change (all_safe (String (chr ?n) ?k)) with (all_safe k)).
  assert (all_safe (Rfc3339.append_zone off) = true) as Hz.
  { unfold Rfc3339.append_zone. destruct (off =? 0); [done|]. destruct (_ <? 0); cbn [all_safe];
      rewrite all_safe_dec; cbn [all_safe]; by rewrite all_safe_dec. }
  unfold Rfc3339.appendNano. destruct (_ =? 0); [done|]. cbn [all_safe]. rewrite all_safe_app, Hz, andb_true_r.
  by rewrite all_safe_trim by (by rewrite all_safe_dec).
Qed.

(** A string literal before [k]. *)
Definition quoted (s k : string) : string := String quote (String.append s (String quote k)).

Lemma p_string fuel depth s k :
  all_safe s = true → p_value (S fuel) depth (quoted s k) = Some (Str s, k).
Proof.
  intros Hs. unfold quoted. cbn [p_value]. change (skip_ws (String quote ?r)) with (String quote r).
  cbv beta iota. change (is_byte 34 quote) with true. cbv iota. by rewrite scan_safe.
Qed.

(** A member with a string value, before [k]. *)
Definition member (n s k : string) : string := quoted n (String (chr 58) (quoted s k)).

Lemma p_member fuel depth n s k :
  all_safe n = true → all_safe s = true →
  p_members (S (S fuel)) depth (member n s k)
  = match Rfc3339.expect 44 (skip_ws k) with
    | Some r => '(ms, r) ← p_members (S fuel) depth r; Some ((n, Str s) :: ms, r)
    | None => r ← Rfc3339.expect 125 (skip_ws k); Some ([(n, Str s)], r)
    end.
Proof.
  intros Hn Hs. unfold member. remember (S fuel) as f eqn:Ef. cbn [p_members].
  change (Rfc3339.expect 34 (skip_ws (quoted n ?r))) with (Some (n ++ String quote r)%string).
  cbn [mbind option_bind]. rewrite scan_safe by done. cbn [mbind option_bind].
  assert (Rfc3339.expect 58 (skip_ws (String (chr 58) (quoted s k))) = Some (quoted s k)) as -> by reflexivity.
  cbn [mbind option_bind]. by rewrite Ef, p_string, literal_safe by done.
Qed.

(** An object of two string members. *)
Definition object2 (n1 s1 n2 s2 : string) : string :=
  String (chr 123) (member n1 s1 (String (chr 44) (member n2 s2 (String (chr 125) EmptyString)))).

Lemma parse_object2 n1 s1 n2 s2 :
  all_safe n1 = true → all_safe s1 = true → all_safe n2 = true → all_safe s2 = true →
  parse_json (object2 n1 s1 n2 s2) = Some (Obj [(n1, Str s1); (n2, Str s2)]).
Proof.
  intros H1 H2 H3 H4. unfold parse_json.
  assert (∃ f, (2 * String.length (object2 n1 s1 n2 s2) + 2 = S (S (S (S f))))%nat) as [f ->].
  { exists (2 * String.length (object2 n1 s1 n2 s2) - 2)%nat. unfold object2. cbn [String.length]. lia. }
  assert (p_value (S (S (S (S f)))) 0 (object2 n1 s1 n2 s2)
          = ('(ms, r) ← p_members (S (S (S f))) 1 (member n1 s1 (String (chr 44) (member n2 s2 (String (chr 125) EmptyString))));
             Some (Obj ms, r))) as -> by reflexivity.
  rewrite p_member by done. set (rest := member n2 s2 _).
  assert (Rfc3339.expect 44 (skip_ws (String (chr 44) rest)) = Some rest) as -> by reflexivity. subst rest.
  rewrite p_member by done. reflexivity.
Qed.

End Json.
