(* ===== verification/EdgeRules.v ===== *)
(** * Edge rules: the table, the compiled host entries, the cache and the matchers

    An edge rule is a row of the edge_rules table (src/pkg/state/types.go, the table operations of
    src/pkg/state/memstore.go).  The gateway (src/cmd/gatewayd-internal/edge_rules.go) reads the rows
    whose host pattern fits a host, compiles them into one slice per kind sorted by priority, keeps the
    compiled entry in an LRU cache (src/pkg/gateway/edge_rules.go) and answers every request with the
    first rule of a kind whose path glob and methods match.

    The thirteen resolved structs of the gateway differ in their payload only: they are one record with a
    payload, and the thirteen compile functions one loop with the kind, the action and the payload
    function as arguments.  A Go slice that may be nil is an [option] of a list.  The schema compiler of
    kind=validate is an interface and a parameter.  sort.Slice is not stable; the model is a stable sort,
    and what the theorems say of equal priorities is only that one of them is chosen. *)

From Stdlib Require Import QArith.
From S2P Require Import Prelude Api GoStd.
#[local] Open Scope Z_scope.

Module EdgeRules.

Import Strings.

(** ** Constants *)

Definition MaxRequestBodyBytes : Z := 25 * 1024 * 1024.
Definition RawStreamMaxRequestBytes : Z := 100 * 1024 * 1024.
(** The comment in limits.go names an environment variable that overrides this default; no code reads it. *)
Definition EdgeRuleMaintenanceRetryAfterSeconds : Z := 60.
Definition MaxEdgeRuleMaintenanceRetryAfterSeconds : Z := 24 * 60 * 60.
Definition ThrottleMaxKeysPerRuleDefault : Z := 1000.
Definition EdgeRuleCacheCap : Z := 10000.

(** ** Rows *)

Record EdgeRuleRouteAction := mkRoute { TargetAppSlug : string }.
Record EdgeRuleRewriteAction := mkRewrite { From : string; RewriteTo : string }.
Record EdgeRuleRedirectAction := mkRedirect { StatusCode : Z; RedirectTo : string; Headers : gmap string string }.
Record EdgeRuleHeaderOp := mkOp { opName : string; opValue : string; opAction : string }.
Record EdgeRuleHeadersAction := mkHeaders {
  RequestHeaders : list EdgeRuleHeaderOp;
  ResponseHeaders : list EdgeRuleHeaderOp;
}.
Record EdgeRuleCORSAction := mkCORS {
  AllowOrigins : list string;
  AllowMethods : list string;
  AllowHeaders : list string;
  ExposeHeaders : list string;
  AllowCredentials : bool;
  MaxAgeSeconds : Z;
}.
Record EdgeRuleJWTAction := mkJWT {
  Issuer : string;
  Audience : list string;
  JWKSURL : string;
  Algorithms : list string;
  RequiredClaims : gmap string string;
}.
Record EdgeRuleIPAction := mkIP { ipAllow : list string; ipDeny : list string }.
Record EdgeRuleValidateAction := mkValidate {
  Schema : string;
  ContentTypes : list string;
  ApplyWhileStreaming : bool;
  RejectOnUnknown : bool;
  validateMaxBodyBytes : Z;
  ValidateMode : string;
}.
Record EdgeRuleLimitAction := mkLimit { MaxBodyBytes : Z; MaxBodyBytesStreaming : Z }.
Record EdgeRuleMaintenanceAction := mkMaintenance { RetryAfterSeconds : Z; Message : string }.
Record EdgeRuleGeoAction := mkGeo { geoAllow : list string; geoDeny : list string }.
Record EdgeRuleThrottleAction := mkThrottle {
  RequestsPerSecond : Q;
  Burst : Z;
  KeyBy : string;
  JWTClaimName : string;
  MaxKeysPerRule : Z;
}.
Record EdgeRuleBudgetAction := mkBudget { BudgetMs : Z; AllowOverrideHeader : string }.

(** The union the store keeps as JSON: the code reads the member of the row's kind. *)
Record EdgeRuleAction := mkAction {
  Route : option EdgeRuleRouteAction;
  Rewrite : option EdgeRuleRewriteAction;
  Redirect : option EdgeRuleRedirectAction;
  HeadersA : option EdgeRuleHeadersAction;
  CORS : option EdgeRuleCORSAction;
  JWT : option EdgeRuleJWTAction;
  IPA : option EdgeRuleIPAction;
  Validate : option EdgeRuleValidateAction;
  Limit : option EdgeRuleLimitAction;
  Maintenance : option EdgeRuleMaintenanceAction;
  Geo : option EdgeRuleGeoAction;
  Throttle : option EdgeRuleThrottleAction;
  Budget : option EdgeRuleBudgetAction;
}.

Definition no_action : EdgeRuleAction :=
  mkAction None None None None None None None None None None None None None.

Record EdgeRule := mkRule {
  ID : string;
  AccountID : string;
  AppID : string;
  MatchHost : string;
  MatchPath : string;
  MatchMethods : list string;
  Priority : Z;
  Enabled : bool;
  Kind : string;
  Action : EdgeRuleAction;
  CreatedAt : Time;
}.

(** ** The table (memstore) *)

Abbreviation table := (gmap string EdgeRule).

(** matchHostPattern *)
Definition matchHostPattern (pattern host : string) : bool :=
  if String.eqb pattern "*" || String.eqb pattern host then true
  else if (2 <? String.length pattern)%nat && HasPrefix pattern "*." then
    let suffix := skip 1 pattern in
    (String.length suffix <? String.length host)%nat && HasSuffix host suffix
  else false.

Definition created_less (a b : EdgeRule) : bool := CreatedAt a <? CreatedAt b.

(** Lower priority numbers first, older rows first among equals. *)
Definition rule_less : EdgeRule → EdgeRule → bool := lex_less Priority Z.eqb Z.ltb created_less.

(** The rows of a map in the order the range loop visits them: any permutation. *)
Definition MatchEdgeRulesForHost (rows : list EdgeRule) (host : string) : list EdgeRule :=
  go_sort rule_less (filter (λ r, Enabled r && matchHostPattern (MatchHost r) host) rows).

Definition CountEdgeRulesForApp (t : table) (appID : string) : Z :=
  map_count (λ r, String.eqb (AppID r) appID) t.

Definition CountEdgeRulesByKindForApp (t : table) (appID kind : string) : Z :=
  map_count (λ r, String.eqb (AppID r) appID && String.eqb (Kind r) kind) t.

Inductive create_result :=
| CreateNotFound
| QuotaReached (limit observed : Z) (kind : string)
| Created (r : EdgeRule).

(** CreateEdgeRuleIfUnderQuota; [row] is the new row with its generated id, [app_live] the lookup of the
    app and its status. *)
Definition CreateEdgeRuleIfUnderQuota (t : table) (app_live : bool) (row : EdgeRule) (limits : Limits.t)
    : create_result * table :=
  let over kind limit := String.eqb (Kind row) kind && (0 <? limit)
                         && (limit <=? CountEdgeRulesByKindForApp t (AppID row) kind) in
  if negb app_live then (CreateNotFound, t)
  else if Limits.EdgeRulesPerApp limits <=? CountEdgeRulesForApp t (AppID row)
  then (QuotaReached (Limits.EdgeRulesPerApp limits) (CountEdgeRulesForApp t (AppID row)) EmptyString, t)
  else if over "geo"%string (Limits.EdgeRulesGeoPerApp limits)
  then (QuotaReached (Limits.EdgeRulesGeoPerApp limits) (CountEdgeRulesByKindForApp t (AppID row) "geo") "geo", t)
  else if over "throttle"%string (Limits.EdgeRulesThrottlePerApp limits)
  then (QuotaReached (Limits.EdgeRulesThrottlePerApp limits)
          (CountEdgeRulesByKindForApp t (AppID row) "throttle") "throttle", t)
  else (Created row, <[ID row := row]> t).

Record UpdateEdgeRuleParams := mkUpdate {
  uMatchHost : option string;
  uMatchPath : option string;
  uMatchMethods : option (list string);
  uPriority : option Z;
  uEnabled : option bool;
  uAction : option EdgeRuleAction;
}.

Definition UpdateEdgeRule (t : table) (id : string) (p : UpdateEdgeRuleParams) : option EdgeRule * table :=
  match t !! id with
  | None => (None, t)
  | Some r =>
      let r := mkRule (ID r) (AccountID r) (AppID r) (default (MatchHost r) (uMatchHost p))
                 (default (MatchPath r) (uMatchPath p)) (default (MatchMethods r) (uMatchMethods p))
                 (default (Priority r) (uPriority p)) (default (Enabled r) (uEnabled p)) (Kind r)
                 (default (Action r) (uAction p)) (CreatedAt r) in
      (Some r, <[id := r]> t)
  end.

Definition DeleteEdgeRule (t : table) (id : string) : bool * table :=
  match t !! id with None => (false, t) | Some _ => (true, delete id t) end.

(** ** Compiled rules *)

(** What every resolved struct of the gateway carries, and the payload of its kind. *)
Record Resolved (A : Type) := mkResolved {
  rID : string;
  rAccountID : string;
  rAppID : string;
  rPriority : Z;
  PathGlob : string;
  Methods : option (gset string);
  payload : A;
}.
#[global] Arguments mkResolved {_}.
#[global] Arguments rID {_}.
#[global] Arguments rAccountID {_}.
#[global] Arguments rAppID {_}.
#[global] Arguments rPriority {_}.
#[global] Arguments PathGlob {_}.
#[global] Arguments Methods {_}.
#[global] Arguments payload {_}.

Record PathGlobError := mkGlobError { errRuleID : string; errGlob : string; errText : string }.

Definition ErrBadPattern : string := "syntax error in pattern".

(** validatePathGlob: the empty name is enough to find a malformed pattern. *)
Definition validatePathGlob (ruleID glob : string) : option (list PathGlobError) :=
  if empty glob || String.eqb glob "*" then None
  else match Glob.Match glob EmptyString with
       | None => Some [mkGlobError ruleID glob ErrBadPattern]
       | Some _ => None
       end.

Definition buildMethodsMap (methods : list string) : option (gset string) :=
  match methods with [] => None | _ => Some (list_to_set (ToUpper <$> methods)) end.

(** What the loop does with an enabled row of its kind: drop it silently, drop it with errors, keep it. *)
Inductive verdict (B : Type) := Skip | Bad (errs : list PathGlobError) | Fine (b : B).
#[global] Arguments Skip {_}.
#[global] Arguments Bad {_}.
#[global] Arguments Fine {_}.

Section compile.
Context {A B : Type} (kind : string) (action : EdgeRuleAction → option A) (resolve : EdgeRule → A → verdict B).

Definition compile_row (r : EdgeRule) : verdict (Resolved B) :=
  if negb (Enabled r) then Skip
  else if negb (String.eqb (Kind r) kind) then Skip
  else
    match action (Action r) with
    | None => Skip
    | Some a =>
        match validatePathGlob (ID r) (MatchPath r) with
        | Some errs => Bad errs
        | None =>
            match resolve r a with
            | Skip => Skip
            | Bad errs => Bad errs
            | Fine b => Fine (mkResolved (ID r) (AccountID r) (AppID r) (Priority r) (MatchPath r)
                                (buildMethodsMap (MatchMethods r)) b)
            end
        end
    end.

Fixpoint compile_rows (rows : list EdgeRule) : list (Resolved B) * list PathGlobError :=
  match rows with
  | [] => ([], [])
  | r :: rows =>
      let '(out, errs) := compile_rows rows in
      match compile_row r with
      | Skip => (out, errs)
      | Bad e => (out, e ++ errs)
      | Fine b => (b :: out, errs)
      end
  end.

Definition priority_less (a b : Resolved B) : bool := rPriority a <? rPriority b.

(** The nil slice for no rows, otherwise the kept rules by priority. *)
Definition compile (rows : list EdgeRule) : option (list (Resolved B)) * list PathGlobError :=
  match rows with
  | [] => (None, [])
  | _ => let '(out, errs) := compile_rows rows in (Some (go_sort priority_less out), errs)
  end.

End compile.

(** The payload of each kind, then its compile function. *)

Definition verbatim {A} (_ : EdgeRule) (a : A) : verdict A := Fine a.

Definition compileRouteRules := compile "route" Route verbatim.
Definition compileRewriteRules := compile "rewrite" Rewrite verbatim.

Definition resolve_redirect (_ : EdgeRule) (a : EdgeRuleRedirectAction) : verdict EdgeRuleRedirectAction :=
  Fine (mkRedirect (if StatusCode a =? 0 then 302 else StatusCode a) (RedirectTo a) (Headers a)).

Definition compileRedirectRules := compile "redirect" Redirect resolve_redirect.

(** convertHeaderOps copies the operations. *)
Definition compileHeadersRules := compile "headers" HeadersA verbatim.
Definition compileCORSRules := compile "cors" CORS verbatim.

Definition resolve_jwt (r : EdgeRule) (a : EdgeRuleJWTAction) : verdict EdgeRuleJWTAction :=
  if negb (HasPrefix (JWKSURL a) "https://")
  then Bad [mkGlobError (ID r) (JWKSURL a) "jwks_url must start with https://"] else Fine a.

Definition compileJWTRules := compile "jwt" JWT resolve_jwt.

Record IPSets := mkIPSets { Allow : list Net.IPNet; Deny : list Net.IPNet }.

(** parseCIDRs: the networks, or every entry that does not parse. *)
Fixpoint parse_entries (cidrs : list string) (ruleID : string) : list Net.IPNet * list PathGlobError :=
  match cidrs with
  | [] => ([], [])
  | c :: cidrs =>
      let '(out, errs) := parse_entries cidrs ruleID in
      match Net.ParseCIDR c with
      | Some n => (n :: out, errs)
      | None => (out, mkGlobError ruleID c "invalid CIDR address" :: errs)
      end
  end.

Definition parseCIDRs (cidrs : list string) (ruleID : string) : list Net.IPNet * list PathGlobError :=
  let '(out, errs) := parse_entries cidrs ruleID in match errs with [] => (out, []) | _ => ([], errs) end.

Definition resolve_ip (r : EdgeRule) (a : EdgeRuleIPAction) : verdict IPSets :=
  let '(allow, allowErrs) := parseCIDRs (ipAllow a) (ID r) in
  let '(deny, denyErrs) := parseCIDRs (ipDeny a) (ID r) in
  match allowErrs ++ denyErrs with [] => Fine (mkIPSets allow deny) | errs => Bad errs end.

Definition compileIPRules := compile "ip" IPA resolve_ip.

Record GeoSets := mkGeoSets { CountryAllow : gset string; CountryDeny : gset string }.

(** compileGeoSet: a nil map and an empty one answer the same lookups. *)
Definition compileGeoSet (codes : list string) : gset string :=
  list_to_set (filter (λ c, negb (empty c)) (ToUpper <$> codes)).

Definition resolve_geo (_ : EdgeRule) (a : EdgeRuleGeoAction) : verdict GeoSets :=
  Fine (mkGeoSets (compileGeoSet (geoAllow a)) (compileGeoSet (geoDeny a))).

Definition compileGeoRules := compile "geo" Geo resolve_geo.

Definition resolve_limit (_ : EdgeRule) (a : EdgeRuleLimitAction) : verdict EdgeRuleLimitAction :=
  let maxBody := if (MaxBodyBytes a <=? 0) || (MaxRequestBodyBytes <? MaxBodyBytes a)
                 then MaxRequestBodyBytes else MaxBodyBytes a in
  let stream := if MaxBodyBytesStreaming a <? 0 then 0 else MaxBodyBytesStreaming a in
  let stream := if RawStreamMaxRequestBytes <? stream then RawStreamMaxRequestBytes else stream in
  Fine (mkLimit maxBody stream).

Definition compileLimitRules := compile "limit" Limit resolve_limit.

Definition resolve_maintenance (_ : EdgeRule) (a : EdgeRuleMaintenanceAction) : verdict EdgeRuleMaintenanceAction :=
  let retry := if RetryAfterSeconds a <=? 0 then EdgeRuleMaintenanceRetryAfterSeconds else RetryAfterSeconds a in
  let retry := if MaxEdgeRuleMaintenanceRetryAfterSeconds <? retry
               then MaxEdgeRuleMaintenanceRetryAfterSeconds else retry in
  Fine (mkMaintenance retry (Message a)).

Definition compileMaintenanceRules := compile "maintenance" Maintenance resolve_maintenance.

Definition resolve_throttle (_ : EdgeRule) (a : EdgeRuleThrottleAction) : verdict EdgeRuleThrottleAction :=
  let rps := if negb (Qle_bool 1 (RequestsPerSecond a)) then 1%Q else RequestsPerSecond a in
  let burst := if Burst a <? 1 then 1 else Burst a in
  let maxKeys := if MaxKeysPerRule a <=? 0 then ThrottleMaxKeysPerRuleDefault else MaxKeysPerRule a in
  let maxKeys := if ThrottleMaxKeysPerRuleDefault * 10 <? maxKeys
                 then ThrottleMaxKeysPerRuleDefault * 10 else maxKeys in
  Fine (mkThrottle rps burst (KeyBy a) (JWTClaimName a) maxKeys).

Definition compileThrottleRules := compile "throttle" Throttle resolve_throttle.

Definition resolve_budget (_ : EdgeRule) (a : EdgeRuleBudgetAction) : verdict EdgeRuleBudgetAction :=
  let maxBudgetMs := Z.quot RequestBudgetMax Millisecond in
  let budgetMs := if (BudgetMs a <=? 0) || (maxBudgetMs <? BudgetMs a) then maxBudgetMs else BudgetMs a in
  Fine (mkBudget budgetMs (AllowOverrideHeader a)).

Definition compileBudgetRules := compile "budget" Budget resolve_budget.

(** A validate rule carries the digest of its compiled schema. *)
Record ValidateRule := mkValidateRule { SchemaDigest : string; validateAction : EdgeRuleValidateAction }.

(** The schema compiler: an error or the digest; [None] is the adapter that is not wired. *)
Abbreviation validateCompiler := (option (string → bool → string + string)).

Definition resolve_validate (v : validateCompiler) (r : EdgeRule) (a : EdgeRuleValidateAction) : verdict ValidateRule :=
  match v with
  | None => Skip
  | Some CompileSchema =>
      match CompileSchema (Schema a) (RejectOnUnknown a) with
      | inl err => Bad [mkGlobError (ID r) "validate" err]
      | inr digest => Fine (mkValidateRule digest a)
      end
  end.

Definition compileValidateRules (v : validateCompiler) := compile "validate" Validate (resolve_validate v).

(** ** Host entries *)

Abbreviation slice A := (option (list (Resolved A))).

Record HostEntry := mkEntry {
  Host : string;
  eRoute : slice EdgeRuleRouteAction;
  eRewrite : slice EdgeRuleRewriteAction;
  eRedirect : slice EdgeRuleRedirectAction;
  eHeaders : slice EdgeRuleHeadersAction;
  eCORS : slice EdgeRuleCORSAction;
  eJWT : slice EdgeRuleJWTAction;
  eIP : slice IPSets;
  eValidate : slice ValidateRule;
  eLimit : slice EdgeRuleLimitAction;
  eMaintenance : slice EdgeRuleMaintenanceAction;
  eGeo : slice GeoSets;
  eThrottle : slice EdgeRuleThrottleAction;
  eBudget : slice EdgeRuleBudgetAction;
  PathGlobErrs : list PathGlobError;
}.

Definition set_host (host : string) (e : HostEntry) : HostEntry :=
  mkEntry host (eRoute e) (eRewrite e) (eRedirect e) (eHeaders e) (eCORS e) (eJWT e) (eIP e) (eValidate e)
    (eLimit e) (eMaintenance e) (eGeo e) (eThrottle e) (eBudget e) (PathGlobErrs e).

(** The compilation of [loadHost]; the host is stamped by Put. *)
Definition compile_entry (v : validateCompiler) (rows : list EdgeRule) : HostEntry :=
  let route := compileRouteRules rows in
  let rewrite := compileRewriteRules rows in
  let redirect := compileRedirectRules rows in
  let headers := compileHeadersRules rows in
  let cors := compileCORSRules rows in
  let jwt := compileJWTRules rows in
  let ip := compileIPRules rows in
  let validate := compileValidateRules v rows in
  let limit := compileLimitRules rows in
  let maintenance := compileMaintenanceRules rows in
  let geo := compileGeoRules rows in
  let throttle := compileThrottleRules rows in
  let budget := compileBudgetRules rows in
  mkEntry EmptyString route.1 rewrite.1 redirect.1 headers.1 cors.1 jwt.1 ip.1 validate.1 limit.1
    maintenance.1 geo.1 throttle.1 budget.1
    (route.2 ++ rewrite.2 ++ redirect.2 ++ headers.2 ++ cors.2 ++ jwt.2 ++ ip.2 ++ validate.2 ++ limit.2
     ++ maintenance.2 ++ geo.2 ++ throttle.2 ++ budget.2).

(** The store's answer for a host: an error or its rows. *)
Abbreviation edgeRuleStore := (string → string + list EdgeRule).

Definition loadHost (v : validateCompiler) (store : edgeRuleStore) (host : string) : string + HostEntry :=
  match store host with inl e => inl e | inr rows => inr (compile_entry v rows) end.

(** ** The cache

    [ll] is the recency list, most recent first.  byID maps a host to its list element, and the host of an
    element is stamped when it is put in, so the lookup by id is the search of the list. *)

Record EdgeRuleCache := mkCache { cap : Z; ll : list HostEntry }.

Definition NewEdgeRuleCache (capacity : Z) : EdgeRuleCache := mkCache (if capacity <? 1 then 1 else capacity) [].

Definition is_host (host : string) (e : HostEntry) : bool := String.eqb (Host e) host.
Definition other_hosts (host : string) (l : list HostEntry) : list HostEntry := filter (λ e, negb (is_host host e)) l.

Definition find_entry (host : string) (l : list HostEntry) : option HostEntry :=
  head (filter (is_host host) l).

(** getEntry moves the element to the front. *)
Definition getEntry (c : EdgeRuleCache) (host : string) : option HostEntry * EdgeRuleCache :=
  match find_entry host (ll c) with
  | None => (None, c)
  | Some e => (Some e, mkCache (cap c) (e :: other_hosts host (ll c)))
  end.

Definition len {A} (s : slice A) : Z := match s with Some l => Z.of_nat (length l) | None => 0 end.

(** The eleven kinds whose emptiness keeps an entry out of the cache: throttle and budget are not tested. *)
Definition uncached (e : HostEntry) : bool :=
  (len (eRoute e) =? 0) && (len (eRewrite e) =? 0) && (len (eRedirect e) =? 0) && (len (eHeaders e) =? 0)
  && (len (eCORS e) =? 0) && (len (eJWT e) =? 0) && (len (eIP e) =? 0) && (len (eValidate e) =? 0)
  && (len (eLimit e) =? 0) && (len (eMaintenance e) =? 0) && (len (eGeo e) =? 0).

Definition evictLRU (l : list HostEntry) : list HostEntry := take (length l - 1) l.

Definition Put (c : EdgeRuleCache) (host : string) (e : HostEntry) : EdgeRuleCache :=
  if uncached e then c
  else
    let e := set_host host e in
    match find_entry host (ll c) with
    | Some _ => mkCache (cap c) (e :: other_hosts host (ll c))
    | None =>
        let l := e :: ll c in
        mkCache (cap c) (if cap c <? Z.of_nat (length l) then evictLRU l else l)
    end.

Definition Reset (c : EdgeRuleCache) : EdgeRuleCache := mkCache (cap c) [].
Definition Len (c : EdgeRuleCache) : Z := Z.of_nat (length (ll c)).

(** ** Matching *)

(** pathGlobMatch; [None] is an error of the pattern. *)
Definition pathGlobMatch (glob p : string) : option bool :=
  if empty glob || String.eqb glob "*" then Some true else Glob.Match glob p.

Definition method_ok {A} (r : Resolved A) (method : string) : bool :=
  match Methods r with None => true | Some m => bool_decide (method ∈ m) end.

(** The error of the matcher is dropped: it counts as no match. *)
Definition path_ok {A} (r : Resolved A) (path : string) : bool :=
  if empty (PathGlob r) then true else default false (pathGlobMatch (PathGlob r) path).

(** pickFirstMatch and its per-kind copies. *)
Fixpoint pickFirstMatch {A} (rules : list (Resolved A)) (path method : string) : option (Resolved A) :=
  match rules with
  | [] => None
  | r :: rules =>
      if negb (method_ok r method) then pickFirstMatch rules path method
      else if negb (path_ok r path) then pickFirstMatch rules path method
      else Some r
  end.

(** The Match methods: the cached slice, or the slice of a fresh entry, which is then cached; a store
    error is no match.  [nil_misses] is set for kind=route, whose Get treats a nil slice as a miss. *)
Definition match_kind {A} (nil_misses : bool) (get : HostEntry → slice A) (v : validateCompiler)
    (store : edgeRuleStore) (c : EdgeRuleCache) (host path method : string)
    : option (Resolved A) * EdgeRuleCache :=
  let '(hit, c) := getEntry c host in
  let load :=
    match loadHost v store host with
    | inl _ => (None, c)
    | inr e => (pickFirstMatch (default [] (get e)) path method, Put c host e)
    end in
  match hit with
  | Some e =>
      match get e with
      | None => if nil_misses then load else (None, c)
      | Some rules => (pickFirstMatch rules path method, c)
      end
  | None => load
  end.

Definition MatchRoute := match_kind true eRoute.
Definition MatchRewrite := match_kind false eRewrite.
Definition MatchRedirect := match_kind false eRedirect.
Definition MatchHeaders := match_kind false eHeaders.
Definition MatchCORS := match_kind false eCORS.
Definition MatchJWT := match_kind false eJWT.
Definition MatchIP := match_kind false eIP.
Definition MatchValidate := match_kind false eValidate.
Definition MatchLimit := match_kind false eLimit.
Definition MatchMaintenance := match_kind false eMaintenance.
Definition MatchGeo := match_kind false eGeo.
Definition MatchThrottle := match_kind false eThrottle.
Definition MatchBudget := match_kind false eBudget.

(** ** What a match should be, from the rows *)

(** A slice of the host entry is the compilation of one kind. *)
Class Compiled {A B} (v : validateCompiler) (get : HostEntry → slice B) (kind : string)
    (action : EdgeRuleAction → option A) (resolve : EdgeRule → A → verdict B) : Prop := {
  get_compiled rows : get (compile_entry v rows) = (compile kind action resolve rows).1;
  get_host host e : get (set_host host e) = get e;
}.

Ltac compiled := split; reflexivity.

#[export] Instance route_compiled v : Compiled v eRoute "route" Route verbatim.
Proof. compiled. Qed.
#[export] Instance rewrite_compiled v : Compiled v eRewrite "rewrite" Rewrite verbatim.
Proof. compiled. Qed.
#[export] Instance redirect_compiled v : Compiled v eRedirect "redirect" Redirect resolve_redirect.
Proof. compiled. Qed.
#[export] Instance headers_compiled v : Compiled v eHeaders "headers" HeadersA verbatim.
Proof. compiled. Qed.
#[export] Instance cors_compiled v : Compiled v eCORS "cors" CORS verbatim.
Proof. compiled. Qed.
#[export] Instance jwt_compiled v : Compiled v eJWT "jwt" JWT resolve_jwt.
Proof. compiled. Qed.
#[export] Instance ip_compiled v : Compiled v eIP "ip" IPA resolve_ip.
Proof. compiled. Qed.
#[export] Instance validate_compiled v : Compiled v eValidate "validate" Validate (resolve_validate v).
Proof. compiled. Qed.
#[export] Instance limit_compiled v : Compiled v eLimit "limit" Limit resolve_limit.
Proof. compiled. Qed.
#[export] Instance maintenance_compiled v : Compiled v eMaintenance "maintenance" Maintenance resolve_maintenance.
Proof. compiled. Qed.
#[export] Instance geo_compiled v : Compiled v eGeo "geo" Geo resolve_geo.
Proof. compiled. Qed.
#[export] Instance throttle_compiled v : Compiled v eThrottle "throttle" Throttle resolve_throttle.
Proof. compiled. Qed.
#[export] Instance budget_compiled v : Compiled v eBudget "budget" Budget resolve_budget.
Proof. compiled. Qed.

Section exact.
Context {A B : Type} (kind : string) (action : EdgeRuleAction → option A) (resolve : EdgeRule → A → verdict B).

(** The row is a rule of the kind with payload [b] that covers the request. *)
Record covers (row : EdgeRule) (b : B) (path method : string) : Prop := {
  covers_enabled : Enabled row = true;
  covers_kind : Kind row = kind;
  covers_action : ∃ a, action (Action row) = Some a ∧ resolve row a = Fine b;
  covers_method : MatchMethods row = [] ∨ method ∈ ToUpper <$> MatchMethods row;
  covers_path : MatchPath row = EmptyString ∨ MatchPath row = "*"%string
                ∨ Glob.Match (MatchPath row) path = Some true;
}.

(** The compiled form of a row. *)
Definition resolved (row : EdgeRule) (b : B) : Resolved B :=
  mkResolved (ID row) (AccountID row) (AppID row) (Priority row) (MatchPath row)
    (buildMethodsMap (MatchMethods row)) b.

Lemma valid_glob_never_errs id glob path :
  validatePathGlob id glob = None ↔ pathGlobMatch glob path ≠ None.
Proof.
  unfold validatePathGlob, pathGlobMatch. destruct (empty glob || String.eqb glob "*"); [done|].
  pose proof (Glob.Match_bad glob path) as Hb.
  destruct (Glob.Match glob path), (Glob.Match glob EmptyString); naive_solver.
Qed.

Lemma covers_glob row b path method id : covers row b path method → validatePathGlob id (MatchPath row) = None.
Proof.
  intros [_ _ _ _ Hp]. apply (valid_glob_never_errs id _ path). unfold pathGlobMatch.
  destruct Hp as [->|[->|Hp]]; [done|done|]. by destruct (empty _ || _); [|rewrite Hp].
Qed.

Lemma matched_covers row r path method :
  compile_row kind action resolve row = Fine r →
  method_ok r method && path_ok r path = true →
  ∃ b, covers row b path method ∧ r = resolved row b.
Proof.
  unfold compile_row. destruct (Enabled row) eqn:He; [|done]. cbn.
  destruct (String.eqb_spec (Kind row) kind) as [Hk|]; [|done]. cbn.
  destruct (action _) as [a|] eqn:Ha; [|done].
  destruct (validatePathGlob _ _) eqn:Hv; [done|].
  destruct (resolve row a) as [| |b'] eqn:Hr; [done|done|]. intros [= <-]. cbn.
  unfold method_ok, path_ok. cbn. intros [Hm Hp]%andb_true_iff.
  exists b'. split; [|done]. split; [done|done|by exists a| |].
  - unfold buildMethodsMap in Hm. destruct (MatchMethods row); [by left|right].
    rewrite bool_decide_eq_true in Hm. by apply elem_of_list_to_set in Hm.
  - destruct (empty (MatchPath row)) eqn:Hemp; [left; by destruct (MatchPath row)|].
    unfold pathGlobMatch in Hp. rewrite Hemp in Hp. cbn in Hp.
    destruct (String.eqb (MatchPath row) "*") eqn:Hstar; [right; left; by apply String.eqb_eq|].
    right; right. destruct (Glob.Match _ _) as [[]|]; done.
Qed.

Lemma covers_matched row b path method :
  covers row b path method →
  compile_row kind action resolve row = Fine (resolved row b)
  ∧ method_ok (resolved row b) method && path_ok (resolved row b) path = true.
Proof.
  intros Hc. pose proof (covers_glob row b path method (ID row) Hc) as Hv.
  destruct Hc as [He Hk (a & Ha & Hr) Hm Hp]. split.
  - unfold compile_row. rewrite He, Hk, String.eqb_refl. cbn. by rewrite Ha, Hv, Hr.
  - apply andb_true_iff. split.
    + unfold method_ok. cbn. unfold buildMethodsMap. destruct (MatchMethods row); [done|].
      destruct Hm as [|Hm]; [done|]. by apply bool_decide_eq_true, elem_of_list_to_set.
    + unfold path_ok, pathGlobMatch. cbn.
      destruct Hp as [->|[->|Hp]]; [done|done|].
      destruct (empty _) eqn:Hemp; [done|]. cbn. by destruct (String.eqb _ _); [|rewrite Hp].
Qed.

Lemma elem_of_compile_rows rows r :
  r ∈ (compile_rows kind action resolve rows).1 ↔ ∃ row, row ∈ rows ∧ compile_row kind action resolve row = Fine r.
Proof.
  induction rows as [|row rows IH]; cbn.
  { split; [by intros ?%elem_of_nil|by intros (? & ?%elem_of_nil & _)]. }
  destruct (compile_rows _ _ _ rows) as [out errs]. cbn in IH.
  assert (∀ P : EdgeRule → Prop, (∃ x, x ∈ row :: rows ∧ P x) ↔ P row ∨ ∃ x, x ∈ rows ∧ P x) as Hcons.
  { intros P. setoid_rewrite elem_of_cons. naive_solver. }
  rewrite Hcons, <- IH. clear Hcons IH.
  destruct (compile_row _ _ _ row) as [|e|b]; cbn; [by intuition congruence..|].
  rewrite elem_of_cons. naive_solver.
Qed.

Lemma elem_of_compile rows r :
  r ∈ default [] (compile kind action resolve rows).1
  ↔ ∃ row, row ∈ rows ∧ compile_row kind action resolve row = Fine r.
Proof.
  destruct rows as [|row rows].
  { cbn. split; [by intros ?%elem_of_nil|by intros (? & ?%elem_of_nil & _)]. }
  rewrite <- elem_of_compile_rows. unfold compile.
  destruct (compile_rows _ _ _ (row :: rows)) as [out errs]. cbn. apply elem_of_go_sort.
Qed.

Lemma compile_sorted rows :
  StronglySorted (not_after priority_less) (default [] (compile kind action resolve rows).1).
Proof.
  destruct rows as [|row rows]; [constructor|]. unfold compile.
  destruct (compile_rows _ _ _ (row :: rows)) as [out errs].
  apply go_sort_sorted. apply (key_weak rPriority Z.ltb). apply _.
Qed.

Lemma pickFirstMatch_spec (rules : list (Resolved B)) path method :
  StronglySorted (not_after priority_less) rules →
  match pickFirstMatch rules path method with
  | Some r => r ∈ rules ∧ method_ok r method && path_ok r path = true
              ∧ ∀ r', r' ∈ rules → method_ok r' method && path_ok r' path = true → rPriority r ≤ rPriority r'
  | None => ∀ r', r' ∈ rules → method_ok r' method && path_ok r' path = false
  end.
Proof.
  induction 1 as [|r rules Hs IH Hf]; cbn [pickFirstMatch]; [by intros ? ?%elem_of_nil|].
  destruct (method_ok r method) eqn:Hm; [destruct (path_ok r path) eqn:Hp|]; cbn [negb].
  - split_and!; [by left|by rewrite Hm, Hp|]. intros r' [->|Hr']%elem_of_cons _; [done|].
    rewrite Forall_forall in Hf. specialize (Hf r' Hr'). unfold not_after, priority_less in Hf. breflect. lia.
  - destruct (pickFirstMatch rules path method).
    + destruct IH as (Hin & Hok & Hmin). split_and!; [by right|done|].
      intros r' [->|Hr']%elem_of_cons Hk; [by rewrite Hm, Hp in Hk|auto].
    + intros r' [->|Hr']%elem_of_cons; [by rewrite Hm, Hp|auto].
  - destruct (pickFirstMatch rules path method).
    + destruct IH as (Hin & Hok & Hmin). split_and!; [by right|done|].
      intros r' [->|Hr']%elem_of_cons Hk; [by rewrite Hm in Hk|auto].
    + intros r' [->|Hr']%elem_of_cons; [by rewrite Hm|auto].
Qed.

End exact.

(** ** The cache agrees with the store *)

Section cache.
Context (v : validateCompiler).

(** The table as the store answers per host, and a store that may fail a read. *)
Definition store_of (db : string → list EdgeRule) (fail : bool) : edgeRuleStore :=
  λ host, if fail then inl "store unavailable"%string else inr (db host).

(** A gateway's life, in the steps that can interleave.  A request looks its host up ([g_lookup]); on a
    miss it reads the rows ([g_read]) and puts what it compiled from them into the cache later
    ([g_put]), if it gets that far.  A change of the table and the notification that empties the
    cache are two steps ([g_change], [g_reset]), with anything in between.

    [past] are the earlier versions of the table, [owed] counts the changes whose notification is still
    to be handled; a fill in flight is [late] when the cache was emptied after its rows were read, and
    [lates] are the hosts whose entry came from such a fill. *)
Record fill := mkFill { fHost : string; fRows : list EdgeRule; late : bool }.

Record gateway := mkGw {
  tab : list EdgeRule;
  past : list (list EdgeRule);
  owed : nat;
  gcache : EdgeRuleCache;
  fills : list fill;
  lates : gset string;
}.

Definition mark_late (f : fill) : fill := mkFill (fHost f) (fRows f) true.

Definition after_reset (g : gateway) : gateway :=
  mkGw (tab g) (past g) (pred (owed g)) (Reset (gcache g)) (mark_late <$> fills g) ∅.

(** The hosts with a late entry after [f] was put: an entry without rules is not stored. *)
Definition put_lates (f : fill) (s : gset string) : gset string :=
  if uncached (compile_entry v (fRows f)) then s
  else if late f then {[fHost f]} ∪ s else s ∖ {[fHost f]}.

(** The steps of requests. *)
Inductive request_step (g : gateway) : gateway → Prop :=
| g_lookup host :
    request_step g (mkGw (tab g) (past g) (owed g) (getEntry (gcache g) host).2 (fills g) (lates g))
| g_read host :
    request_step g (mkGw (tab g) (past g) (owed g) (gcache g)
               (mkFill host (MatchEdgeRulesForHost (tab g) host) false :: fills g) (lates g))
| g_put l1 f l2 :
    fills g = l1 ++ f :: l2 →
    request_step g (mkGw (tab g) (past g) (owed g) (Put (gcache g) (fHost f) (compile_entry v (fRows f)))
               (l1 ++ l2) (put_lates f (lates g))).

Inductive gstep (g : gateway) : gateway → Prop :=
| g_request g' : request_step g g' → gstep g g'
| g_change rows :
    gstep g (mkGw rows (tab g :: past g) (S (owed g)) (gcache g) (fills g) (lates g))
| g_reset : gstep g (after_reset g).

Definition start (rows : list EdgeRule) (k : Z) : gateway := mkGw rows [] 0 (NewEdgeRuleCache k) [] ∅.

Definition reach (g : gateway) : Prop := ∃ rows k, rtc gstep (start rows k) g.

(** Every change has been notified, and the entry of the host is not from a late fill. *)
Definition settled (g : gateway) (host : string) : Prop := owed g = 0%nat ∧ host ∉ lates g.

(** All entries satisfy [P], there is one per host, and they are within the capacity. *)
Record tidy (P : HostEntry → Prop) (c : EdgeRuleCache) : Prop := {
  tidy_all e : e ∈ ll c → P e;
  tidy_hosts : NoDup (Host <$> ll c);
  tidy_cap : 1 ≤ cap c;
  tidy_size : Len c ≤ cap c;
}.

(** The entries are compiled from the rows of [db]. *)
Definition coherent (db : string → list EdgeRule) : EdgeRuleCache → Prop :=
  tidy (λ e, e = set_host (Host e) (compile_entry v (db (Host e)))).

Lemma find_entry_Some host l e : find_entry host l = Some e → e ∈ l ∧ Host e = host.
Proof.
  unfold find_entry. intros H.
  assert (e ∈ filter (is_host host) l) as [Hh Hin]%elem_of_filter_bool.
  { destruct (filter _ _); cbn in H; [done|]. simplify_eq. by left. }
  split; [done|]. by apply String.eqb_eq in Hh.
Qed.

Lemma find_entry_None host l e : find_entry host l = None → e ∈ l → Host e ≠ host.
Proof.
  unfold find_entry. intros H Hin <-.
  assert (e ∈ filter (is_host (Host e)) l) as Hf.
  { apply elem_of_filter_bool. split; [|done]. apply String.eqb_refl. }
  destruct (filter _ _); [by apply elem_of_nil in Hf|done].
Qed.

Lemma elem_of_other_hosts host l e : e ∈ other_hosts host l ↔ e ∈ l ∧ Host e ≠ host.
Proof.
  unfold other_hosts. rewrite elem_of_filter_bool, negb_true_iff. unfold is_host.
  rewrite String.eqb_neq. naive_solver.
Qed.

Lemma other_hosts_length host l e : e ∈ l → Host e = host → (length (other_hosts host l) < length l)%nat.
Proof.
  intros Hin Hh. unfold other_hosts. induction l as [|x l IH]; [by apply elem_of_nil in Hin|].
  rewrite filter_cons_bool. apply elem_of_cons in Hin as [<-|Hin].
  - unfold is_host at 1. rewrite Hh, String.eqb_refl. cbn.
    pose proof (length_filter (λ e, Is_true (negb (is_host host e))) l). lia.
  - specialize (IH Hin). destruct (negb _); cbn; lia.
Qed.

Lemma other_hosts_nodup host l :
  NoDup (Host <$> l) → NoDup (Host <$> other_hosts host l) ∧ host ∉ (Host <$> other_hosts host l).
Proof.
  intros Hnd. split.
  - unfold other_hosts. induction l as [|x l IH]; [constructor|].
    rewrite fmap_cons in Hnd. apply NoDup_cons in Hnd as [Hx Hnd]. rewrite filter_cons_bool.
    destruct (negb _); [|auto]. cbn. constructor; [|auto].
    intros (y & Hy & Hin)%list_elem_of_fmap. apply Hx. apply list_elem_of_fmap. exists y. split; [done|].
    by apply elem_of_filter_bool in Hin as [_ ?].
  - intros (e & He & Hin)%list_elem_of_fmap. apply elem_of_other_hosts in Hin as [_ ?]. congruence.
Qed.

Lemma tidy_mono (P Q : HostEntry → Prop) c : (∀ e, e ∈ ll c → P e → Q e) → tidy P c → tidy Q c.
Proof. intros HPQ []. split; auto. Qed.

Lemma tidy_front P c e :
  tidy P c → P e → (∃ x, x ∈ ll c ∧ Host x = Host e) →
  tidy P (mkCache (cap c) (e :: other_hosts (Host e) (ll c))).
Proof.
  intros [Hf Hnd Hc Hs] He (x & Hx & Hxh).
  destruct (other_hosts_nodup (Host e) _ Hnd) as [Hnd' Hn].
  pose proof (other_hosts_length (Host e) (ll c) x Hx Hxh).
  split; cbn; [|by constructor|done|unfold Len in *; cbn; lia].
  intros y [->|[? _]%elem_of_other_hosts]%elem_of_cons; auto.
Qed.

Lemma tidy_getEntry P c host :
  tidy P c → tidy P (getEntry c host).2 ∧ ∀ e, (getEntry c host).1 = Some e → P e ∧ Host e = host.
Proof.
  intros Hc. unfold getEntry. destruct (find_entry host (ll c)) as [e|] eqn:Hfe; [|done]. cbn.
  apply find_entry_Some in Hfe as [Hin <-]. pose proof (tidy_all P c Hc e Hin) as He.
  split; [apply tidy_front; [done|done|by exists e]|]. by intros ? [= <-].
Qed.

Lemma tidy_New P k : tidy P (NewEdgeRuleCache k).
Proof.
  unfold NewEdgeRuleCache. split; cbn.
  - by intros ? ?%elem_of_nil.
  - constructor.
  - destruct (k <? 1) eqn:E; breflect; lia.
  - unfold Len. cbn. destruct (k <? 1) eqn:E; breflect; lia.
Qed.

Lemma tidy_Reset P Q c : tidy P c → tidy Q (Reset c).
Proof.
  intros [_ _ Hc _]. split; cbn; [by intros ? ?%elem_of_nil|constructor|done|].
  unfold Len. cbn. lia.
Qed.

(** Putting an entry that is stored replaces the host's own and keeps the others. *)
Lemma tidy_Put P Q c host e :
  tidy P c → uncached e = false → Q (set_host host e) →
  (∀ x, x ∈ ll c → Host x ≠ host → P x → Q x) → tidy Q (Put c host e).
Proof.
  intros [Ha Hnd Hc Hs] Hu Hq Hold. unfold Put. rewrite Hu. set (e' := set_host host e).
  destruct (find_entry host (ll c)) as [x|] eqn:Hfe.
  - apply find_entry_Some in Hfe as [Hin Hx].
    destruct (other_hosts_nodup host _ Hnd) as [Hnd' Hn].
    pose proof (other_hosts_length host (ll c) x Hin Hx).
    split; cbn; [|by constructor|done|unfold Len in *; cbn; lia].
    intros y [->|[Hy Hne]%elem_of_other_hosts]%elem_of_cons; auto.
  - assert (NoDup (Host <$> e' :: ll c)) as Hnd'.
    { rewrite fmap_cons. constructor; [|done].
      intros (y & Hy & Hin)%list_elem_of_fmap. by apply (find_entry_None _ _ _ Hfe Hin). }
    assert (∀ y, y ∈ e' :: ll c → Q y) as Hall.
    { intros y [->|Hy]%elem_of_cons; [done|]. apply Hold; [done|by eapply find_entry_None|auto]. }
    unfold Len in Hs.
    destruct (cap c <? Z.of_nat (length (e' :: ll c))) eqn:Hcap; breflect; (split; cbn [ll cap]; [| |done|]).
    + intros y Hy. apply Hall. unfold evictLRU in Hy. by apply elem_of_take in Hy as (i & Hi%list_elem_of_lookup_2 & _).
    + unfold evictLRU. rewrite fmap_take.
      rewrite <- (take_drop (length (e' :: ll c) - 1) (Host <$> e' :: ll c)) in Hnd'.
      by apply NoDup_app in Hnd' as [? _].
    + unfold Len, evictLRU. cbn [ll]. rewrite length_take. cbn [length] in *. lia.
    + done.
    + done.
    + unfold Len. cbn [ll]. lia.
Qed.

Lemma getEntry_coherent db c host :
  coherent db c →
  coherent db (getEntry c host).2
  ∧ ∀ e, (getEntry c host).1 = Some e → e = set_host host (compile_entry v (db host)).
Proof.
  intros Hc. destruct (tidy_getEntry _ c host Hc) as [Hc' He]. split; [done|].
  intros e [He' <-]%He. exact He'.
Qed.

Lemma Put_coherent db c host :
  coherent db c → coherent db (Put c host (compile_entry v (db host))).
Proof.
  intros Hc. destruct (uncached (compile_entry v (db host))) eqn:Hu.
  - unfold Put. by rewrite Hu.
  - eapply tidy_Put; [exact Hc|done|done|auto].
Qed.

Lemma match_kind_coherent {A} nil_misses (get : HostEntry → slice A) db c fail host path method :
  coherent db c → coherent db (match_kind nil_misses get v (store_of db fail) c host path method).2.
Proof.
  intros Hcoh. unfold match_kind. destruct (getEntry_coherent db c host Hcoh) as [Hc _].
  destruct (getEntry c host) as [[e|] c']; cbn in Hc |- *.
  - destruct (get e); [done|]. destruct nil_misses; [|done]. unfold loadHost, store_of.
    destruct fail; [done|]. by apply Put_coherent.
  - unfold loadHost, store_of. destruct fail; [done|]. by apply Put_coherent.
Qed.

(** Rows read from a version of the table, the current one when [cond] holds. *)
Definition of_version (g : gateway) (host : string) (rows : list EdgeRule) (cond : Prop) : Prop :=
  ∃ ver, ver ∈ tab g :: past g ∧ rows = MatchEdgeRulesForHost ver host ∧ (cond → ver = tab g).

Definition sound_entry (g : gateway) (e : HostEntry) : Prop :=
  ∃ rows, e = set_host (Host e) (compile_entry v rows) ∧
          of_version g (Host e) rows (settled g (Host e)).

Record ginv (g : gateway) : Prop := {
  gi_cache : tidy (sound_entry g) (gcache g);
  gi_fill f : f ∈ fills g → of_version g (fHost f) (fRows f) (owed g = 0%nat ∧ late f = false);
}.

Lemma ginv_put g l1 f l2 :
  ginv g → fills g = l1 ++ f :: l2 →
  ginv (mkGw (tab g) (past g) (owed g) (Put (gcache g) (fHost f) (compile_entry v (fRows f)))
          (l1 ++ l2) (put_lates f (lates g))).
Proof.
  intros [Hc Hf] Ef. split; cbn.
  - assert (f ∈ fills g) as Hin by (rewrite Ef; set_solver). unfold put_lates.
    destruct (uncached (compile_entry v (fRows f))) eqn:Hu.
    { unfold Put. rewrite Hu. exact Hc. }
    eapply tidy_Put; [exact Hc|done| |].
    + exists (fRows f). split; [done|]. destruct (Hf f Hin) as (ver & Hver & Hr & Hcur).
      exists ver. split_and!; [done|done|]. intros [Ho Hl]. apply Hcur. split; [done|].
      cbn in Hl. destruct (late f); [|done]. set_solver.
    + intros x Hx Hne (rows & He & ver & Hver & Hr & Hcur). exists rows. split; [done|].
      exists ver. split_and!; [done|done|]. intros [Ho Hl]. apply Hcur. split; [done|].
      cbn in Hl. destruct (late f); set_solver.
  - intros f' Hf'. apply Hf. rewrite Ef. set_solver.
Qed.

Lemma ginv_step g g' : ginv g → gstep g g' → ginv g'.
Proof.
  intros Hg Hs. destruct (Hg) as [Hc Hf]. destruct Hs as [g' [host|host|l1 f l2 Ef]|rows|].
  - split; cbn; [|exact Hf]. by apply (tidy_getEntry _ _ host Hc).
  - split; cbn; [exact Hc|]. intros f [->|Hin]%elem_of_cons; [|by apply Hf]. cbn.
    exists (tab g). split_and!; [by left|done|done].
  - by apply ginv_put.
  - split; cbn.
    + eapply tidy_mono; [|exact Hc]. intros e _ (rws & He & ver & Hver & Hr & _). exists rws. split; [done|].
      exists ver. split_and!; [by right|done|by intros [? _]].
    + intros f (ver & Hver & Hr & _)%Hf. exists ver. split_and!; [by right|done|by intros [? _]].
  - split; cbn; [by eapply tidy_Reset|].
    intros f (f0 & -> & (ver & Hver & Hr & _)%Hf)%list_elem_of_fmap. exists ver. cbn.
    split_and!; [done|done|by intros [_ ?]].
Qed.

Lemma reach_ginv g : reach g → ginv g.
Proof.
  intros (rows & k & H). remember (start rows k) as g0 eqn:E. assert (ginv g0) as H0.
  { subst g0. split; cbn; [apply tidy_New|by intros f ?%elem_of_nil]. }
  clear E. induction H; eauto using ginv_step.
Qed.

(** What a gateway without a cache answers. *)
Definition fresh {A} (get : HostEntry → slice A) (db : string → list EdgeRule) (host path method : string)
    : option (Resolved A) :=
  pickFirstMatch (default [] (get (compile_entry v (db host)))) path method.

Lemma match_kind_fresh {A B} (get : HostEntry → slice B) kind (action : EdgeRuleAction → option A) resolve
    `{!Compiled v get kind action resolve} nil_misses db c fail host path method :
  coherent db c →
  (match_kind nil_misses get v (store_of db fail) c host path method).1
  = match fail, find_entry host (ll c) with
    | true, None => None
    | _, _ => fresh get db host path method
    end.
Proof.
  intros Hc. destruct (getEntry_coherent db c host Hc) as [_ He]. revert He.
  unfold match_kind, getEntry, fresh. destruct (find_entry host (ll c)) as [e|]; cbn; intros He.
  - rewrite (He e eq_refl), get_host. destruct (get (compile_entry v (db host))) as [rules|] eqn:Hg; cbn.
    + by destruct fail.
    + destruct nil_misses; [|by destruct fail]. unfold loadHost, store_of. destruct fail; cbn; [done|].
      by rewrite Hg.
  - unfold loadHost, store_of. by destruct fail.
Qed.

Lemma pickFirstMatch_elem {B} (rules : list (Resolved B)) path method r :
  pickFirstMatch rules path method = Some r → r ∈ rules.
Proof.
  induction rules as [|x rules IH]; cbn [pickFirstMatch]; [done|].
  destruct (negb (method_ok x method)); [intros; right; auto|].
  destruct (path_ok x path); [intros [= ->]; by left|intros; right; auto].
Qed.

(** The payload of a match is one its kind's compiler resolved. *)
Lemma fresh_payload {A B} (get : HostEntry → slice B) kind (action : EdgeRuleAction → option A) resolve
    `{!Compiled v get kind action resolve} db host path method r :
  fresh get db host path method = Some r → ∃ row a, resolve row a = Fine (payload r).
Proof.
  intros Hr%pickFirstMatch_elem. rewrite get_compiled in Hr.
  apply elem_of_compile in Hr as (row & _ & Hr). unfold compile_row in Hr.
  repeat case_match; simplify_eq; eauto.
Qed.

(** In a reachable state a matcher answers from a version of the table. *)
Lemma match_kind_version {A B} (get : HostEntry → slice B) kind (action : EdgeRuleAction → option A) resolve
    `{!Compiled v get kind action resolve} nil_misses g fail host path method :
  ginv g →
  ∃ ver, ver ∈ tab g :: past g ∧ (settled g host → ver = tab g) ∧
    (match_kind nil_misses get v (store_of (MatchEdgeRulesForHost (tab g)) fail) (gcache g) host path method).1
    = match fail, find_entry host (ll (gcache g)) with
      | true, None => None
      | _, _ => fresh get (MatchEdgeRulesForHost ver) host path method
      end.
Proof.
  intros [Hc _]. destruct (tidy_getEntry _ _ host Hc) as [_ He]. revert He.
  unfold match_kind, getEntry, fresh. destruct (find_entry host (ll (gcache g))) as [e|]; cbn; intros He.
  - destruct (He e eq_refl) as [(rows & Heq & ver & Hver & -> & Hcur) Hh]. rewrite Hh in *.
    rewrite Heq, get_host. destruct (get (compile_entry v (MatchEdgeRulesForHost ver host))) as [rules|] eqn:Hg.
    + exists ver. split_and!; [done|done|]. rewrite Hg. by destruct fail.
    + destruct (nil_misses && negb fail) eqn:Hn.
      * destruct nil_misses, fail; try done. exists (tab g). by split_and!; [left| |].
      * exists ver. split_and!; [done|done|]. rewrite Hg. destruct nil_misses, fail; by try done.
  - exists (tab g). split_and!; [by left|done|]. unfold loadHost, store_of. by destruct fail.
Qed.

(** A request that runs undisturbed is a sequence of steps. *)
Lemma match_kind_steps {A} (get : HostEntry → slice A) nil_misses g host path method :
  ∃ l, rtc request_step g
    (mkGw (tab g) (past g) (owed g)
       (match_kind nil_misses get v (store_of (MatchEdgeRulesForHost (tab g)) false) (gcache g) host path method).2
       (fills g) l).
Proof.
  pose proof (g_lookup g host) as H1. revert H1. unfold match_kind.
  destruct (getEntry (gcache g) host) as [hit c] eqn:E. cbn. intros H1.
  assert (∃ l, rtc request_step g (mkGw (tab g) (past g) (owed g)
    (Put c host (compile_entry v (MatchEdgeRulesForHost (tab g) host))) (fills g) l)) as Hload.
  { set (f := mkFill host (MatchEdgeRulesForHost (tab g) host) false).
    exists (put_lates f (lates g)). eapply rtc_l; [exact H1|]. eapply rtc_l; [apply (g_read _ host)|]. cbn.
    apply rtc_once. apply (g_put (mkGw (tab g) (past g) (owed g) c (f :: fills g) (lates g)) [] f (fills g)).
    done. }
  assert (∃ l, rtc request_step g (mkGw (tab g) (past g) (owed g) c (fills g) l)) as Hplain
    by (eexists; by apply rtc_once).
  unfold loadHost, store_of. destruct hit as [e|]; [|done].
  destruct (get e); [done|]. by destruct nil_misses.
Qed.

Lemma match_hit {A} (get : HostEntry → slice A) nil_misses store e c host path method rules :
  find_entry host (ll c) = Some e → get e = Some rules →
  (match_kind nil_misses get v store c host path method).1 = pickFirstMatch rules path method.
Proof. intros Hf Hg. unfold match_kind, getEntry. by rewrite Hf, Hg. Qed.

(** A fill into an empty cache is found. *)
Lemma Put_reset c host rows :
  1 ≤ cap c → uncached (compile_entry v rows) = false →
  find_entry host (ll (Put (Reset c) host (compile_entry v rows))) = Some (set_host host (compile_entry v rows)).
Proof.
  intros Hc Hu. unfold Put. rewrite Hu. change (find_entry host (ll (Reset c))) with (@None HostEntry).
  cbn [ll cap Reset length]. destruct (cap c <? Z.of_nat 1) eqn:E; breflect; [lia|].
  unfold find_entry. rewrite filter_cons_bool. unfold is_host at 1. cbn [Host set_host]. by rewrite String.eqb_refl.
Qed.

End cache.

Lemma elem_of_rows_for_host table host row :
  row ∈ MatchEdgeRulesForHost table host
  ↔ row ∈ table ∧ Enabled row = true ∧ matchHostPattern (MatchHost row) host = true.
Proof.
  unfold MatchEdgeRulesForHost. rewrite elem_of_go_sort, elem_of_filter_bool, andb_true_iff. naive_solver.
Qed.

(** ** Quotas *)

(** Rules made and changed through the API: creations are under the plan the app has at that moment. *)
Inductive table_step (limits : string → Limits.t) (t : table) : table → Prop :=
| step_create app_live row :
    t !! ID row = None → table_step limits t (CreateEdgeRuleIfUnderQuota t app_live row (limits (AppID row))).2
| step_update id p : table_step limits t (UpdateEdgeRule t id p).2
| step_delete id : table_step limits t (DeleteEdgeRule t id).2.

(** A history of the table, with the limits in force at each step, the latest first. *)
Inductive table_run : list (string → Limits.t) → table → Prop :=
| run_start : table_run [] ∅
| run_step limits past t t' : table_run past t → table_step limits t t' → table_run (limits :: past) t'.

(** The count is within the cap of a kind; a cap of zero is no cap. *)
Definition under_cap (n cap : Z) : Prop := 0 < cap → n ≤ cap.

Lemma count_insert_fresh (P : EdgeRule → bool) (t : table) row :
  t !! ID row = None → map_count P (<[ID row := row]> t) = (if P row then 1 else 0) + map_count P t.
Proof. intros H. unfold map_count. by rewrite map_sum_insert. Qed.

Lemma count_update (P : EdgeRule → bool) (t : table) id r r' :
  t !! id = Some r → P r' = P r → map_count P (<[id := r']> t) = map_count P t.
Proof. intros H HP. unfold map_count. rewrite (map_sum_update _ t id r) by done. rewrite HP. lia. Qed.

Lemma count_delete (P : EdgeRule → bool) (t : table) id : map_count P (delete id t) ≤ map_count P t.
Proof.
  unfold map_count. destruct (t !! id) as [r|] eqn:H.
  - rewrite (map_sum_delete _ t id r H). destruct (P r); lia.
  - by rewrite delete_id.
Qed.

(** A step lets a count grow only within the limits in force. *)
Lemma step_counts limits t t' app :
  table_step limits t t' →
  (CountEdgeRulesForApp t' app ≤ CountEdgeRulesForApp t app
   ∨ CountEdgeRulesForApp t' app ≤ Limits.EdgeRulesPerApp (limits app))
  ∧ (CountEdgeRulesByKindForApp t' app "geo" ≤ CountEdgeRulesByKindForApp t app "geo"
     ∨ under_cap (CountEdgeRulesByKindForApp t' app "geo") (Limits.EdgeRulesGeoPerApp (limits app)))
  ∧ (CountEdgeRulesByKindForApp t' app "throttle" ≤ CountEdgeRulesByKindForApp t app "throttle"
     ∨ under_cap (CountEdgeRulesByKindForApp t' app "throttle") (Limits.EdgeRulesThrottlePerApp (limits app))).
Proof.
  unfold under_cap. intros [live row Hfresh|id p|id].
  - unfold CreateEdgeRuleIfUnderQuota. destruct live; cbn; [|lia].
    destruct (_ <=? _) eqn:Hq; [cbn; lia|].
    destruct (String.eqb (Kind row) "geo" && _ && _) eqn:Hg; [cbn; lia|].
    destruct (String.eqb (Kind row) "throttle" && _ && _) eqn:Ht; [cbn; lia|]. cbn. apply Z.leb_gt in Hq.
    unfold CountEdgeRulesForApp, CountEdgeRulesByKindForApp in *. rewrite !count_insert_fresh by done.
    destruct (String.eqb_spec (AppID row) app) as [<-|]; cbn; [|lia].
    destruct (String.eqb (Kind row) "geo") eqn:Hkg, (String.eqb (Kind row) "throttle") eqn:Hkt; cbn in *;
      breflect; lia.
  - unfold UpdateEdgeRule. destruct (t !! id) as [r|] eqn:Hr; cbn; [|lia].
    unfold CountEdgeRulesForApp, CountEdgeRulesByKindForApp. rewrite !(count_update _ t id r) by done. lia.
  - unfold DeleteEdgeRule. destruct (t !! id) as [r|] eqn:Hr; cbn; [|lia].
    unfold CountEdgeRulesForApp, CountEdgeRulesByKindForApp. split_and!; left; apply count_delete.
Qed.

(** What the compiled rows of a host answer, in terms of the table. *)
Section exact_table.
Context {A B : Type} (v : validateCompiler) (get : HostEntry → slice B) (kind : string).
Context (action : EdgeRuleAction → option A) (resolve : EdgeRule → A → verdict B) `{!Compiled v get kind action resolve}.

(** The row is a rule of the kind for the request, with payload [b]. *)
Definition candidate (rows : list EdgeRule) (host path method : string) (row : EdgeRule) (b : B) : Prop :=
  row ∈ rows ∧ matchHostPattern (MatchHost row) host = true ∧ covers kind action resolve row b path method.

Lemma fresh_exact rows host path method :
  match fresh v get (MatchEdgeRulesForHost rows) host path method with
  | Some r => ∃ row b, candidate rows host path method row b ∧ r = resolved row b
                       ∧ ∀ row' b', candidate rows host path method row' b' → Priority row ≤ Priority row'
  | None => ∀ row b, ¬ candidate rows host path method row b
  end.
Proof.
  unfold fresh. rewrite get_compiled. set (db := MatchEdgeRulesForHost rows).
  pose proof (pickFirstMatch_spec _ path method (compile_sorted kind action resolve (db host))) as Hp.
  assert (∀ row b, candidate rows host path method row b →
            resolved row b ∈ default [] (compile kind action resolve (db host)).1
            ∧ method_ok (resolved row b) method && path_ok (resolved row b) path = true) as Hcand.
  { intros row b (Hin & Hh & Hc). apply covers_matched in Hc as Hm. destruct Hm as [Hrow Hm]. split; [|done].
    apply elem_of_compile. exists row. split; [|done]. apply elem_of_rows_for_host. by destruct Hc. }
  destruct (pickFirstMatch _ path method) as [r|].
  - destruct Hp as (Hin & Hok & Hmin). apply elem_of_compile in Hin as (row & Hin & Hrow).
    apply elem_of_rows_for_host in Hin as (Hin & _ & Hh).
    destruct (matched_covers kind action resolve row r path method Hrow Hok) as (b & Hc & ->).
    exists row, b. split_and!; [done|done|]. intros row' b' H'.
    destruct (Hcand row' b' H') as [Hin' Hm']. apply (Hmin _ Hin' Hm').
  - intros row b H. destruct (Hcand row b H) as [Hin Hm]. specialize (Hp _ Hin). congruence.
Qed.

(** A rule whose priority number is below that of every other candidate is the answer. *)
Lemma fresh_first rows host path method row b :
  candidate rows host path method row b →
  (∀ row' b', candidate rows host path method row' b' → row' = row ∨ Priority row < Priority row') →
  fresh v get (MatchEdgeRulesForHost rows) host path method = Some (resolved row b).
Proof.
  intros Hc Hfirst. pose proof (fresh_exact rows host path method) as He.
  destruct (fresh _ _ _ _ _ _) as [r|]; [|by destruct (He row b)].
  destruct He as (row' & b' & Hc' & -> & Hmin). specialize (Hmin row b Hc).
  destruct (Hfirst row' b' Hc') as [->|?]; [|lia].
  destruct Hc as (_ & _ & [_ _ (a & Ha & Hr) _ _]), Hc' as (_ & _ & [_ _ (a' & Ha' & Hr') _ _]).
  rewrite Ha in Ha'. simplify_eq. rewrite Hr in Hr'. by simplify_eq.
Qed.

End exact_table.

(** ** The theorems *)

(** C22: A match is the best rule: in every state a gateway reaches, with lookups, reads and fills of
    concurrent requests, rule changes and their notifications interleaved in any way, the rule a matcher
    returns is compiled from an enabled row of its kind whose host pattern, methods and path cover the
    request, no row that also covers it has a lower priority number, and no rule is returned exactly
    when no row covers the request. The rows are those of one version of the table, and of the current
    one whenever every change has been notified and the host's entry does not come from a fill that
    was still in flight at the last notification. *)
Theorem edge_match_exact {A B} v (get : HostEntry → slice B) kind (action : EdgeRuleAction → option A) resolve
    `{!Compiled v get kind action resolve} nil_misses g (host path method : string) :
  reach v g →
  ∃ rows, rows ∈ tab g :: past g ∧ (settled g host → rows = tab g) ∧
  let candidate row b := row ∈ rows ∧ matchHostPattern (MatchHost row) host = true
                         ∧ covers kind action resolve row b path method in
  match (match_kind nil_misses get v (store_of (MatchEdgeRulesForHost (tab g)) false) (gcache g)
           host path method).1 with
  | Some r => ∃ row b, candidate row b ∧ r = resolved row b
                       ∧ ∀ row' b', candidate row' b' → Priority row ≤ Priority row'
  | None => ∀ row b, ¬ candidate row b
  end.
Proof.
  intros Hg%reach_ginv.
  destruct (match_kind_version v get kind action resolve nil_misses g false host path method Hg)
    as (ver & Hver & Hcur & ->).
  exists ver. split_and!; [done|done|]. apply (fresh_exact v get kind action resolve).
Qed.

(** C23: Caching is invisible up to fills in flight: in every state a gateway reaches, with requests,
    changes and notifications interleaved in any way, each host has at most one entry, the cache is
    within its capacity, and a matcher answers what compiling the rows of one version of the table would
    answer: the current version whenever every change has been notified and the host's entry does not
    come from a fill that was in flight at the last notification. Only when the store fails the read of
    a host that is not cached does it answer no rule instead. *)
Theorem edge_cache_transparent {A B} v (get : HostEntry → slice B) kind (action : EdgeRuleAction → option A) resolve
    `{!Compiled v get kind action resolve} nil_misses g fail (host path method : string) :
  reach v g →
  NoDup (Host <$> ll (gcache g)) ∧ Len (gcache g) ≤ cap (gcache g)
  ∧ ∃ ver, ver ∈ tab g :: past g ∧ (settled g host → ver = tab g) ∧
    (match_kind nil_misses get v (store_of (MatchEdgeRulesForHost (tab g)) fail) (gcache g) host path method).1
    = match fail, find_entry host (ll (gcache g)) with
      | true, None => None
      | _, _ => pickFirstMatch (default [] (get (compile_entry v (MatchEdgeRulesForHost ver host)))) path method
      end.
Proof.
  intros Hg%reach_ginv. split_and!; [apply (gi_cache _ _ Hg)..|].
  exact (match_kind_version v get kind action resolve nil_misses g fail host path method Hg).
Qed.

(** A notification that finds no fill in flight settles every host, until the next change: from then on
    every answer is that of the current table. *)
Theorem quiet_reset_settles v g g' host :
  fills g = [] → (owed g ≤ 1)%nat → rtc (request_step v) (after_reset g) g' → settled g' host.
Proof.
  intros Hf Ho H. set (g0 := after_reset g) in H.
  assert (owed g0 = 0%nat ∧ lates g0 = ∅ ∧ (∀ f, f ∈ fills g0 → late f = false)) as H0.
  { split_and!; [simpl; lia|done|simpl; rewrite Hf; by intros f ?%elem_of_nil]. }
  clearbody g0. induction H as [g1|g1 g2 g3 Hs _ IH].
  { destruct H0 as (? & El & _). split; [done|]. rewrite El. set_solver. }
  apply IH. destruct H0 as (H1 & H2 & H3). destruct Hs as [h|h|l1 f l2 Ef]; cbn in *.
  - done.
  - split_and!; [done|done|]. intros f [->|?]%elem_of_cons; auto.
  - split_and!; [done| |].
    + unfold put_lates. rewrite (H3 f) by (rewrite Ef; set_solver). rewrite H2.
      destruct (uncached _); set_solver.
    + intros f' ?. apply H3. rewrite Ef. set_solver.
Qed.

(** Compiled rules are in range whatever the row holds: body caps within the platform caps, a
    retry-after of one second to a day, a throttle of at least one request per second and one token with
    at most ten thousand consumers, a budget of one millisecond to the platform maximum, and a key-set
    URL that is https. *)
Theorem compiled_in_range v rows :
  let all {A} (s : slice A) (P : A → Prop) := ∀ r, r ∈ default [] s → P (payload r) in
  let e := compile_entry v rows in
  all (eLimit e) (λ a, 0 < MaxBodyBytes a ≤ MaxRequestBodyBytes
                       ∧ 0 ≤ MaxBodyBytesStreaming a ≤ RawStreamMaxRequestBytes)
  ∧ all (eMaintenance e) (λ a, 0 < RetryAfterSeconds a ≤ MaxEdgeRuleMaintenanceRetryAfterSeconds)
  ∧ all (eThrottle e) (λ a, (1 <= RequestsPerSecond a)%Q ∧ 1 ≤ Burst a
                            ∧ 0 < MaxKeysPerRule a ≤ 10 * ThrottleMaxKeysPerRuleDefault)
  ∧ all (eBudget e) (λ a, 0 < BudgetMs a * Millisecond ≤ RequestBudgetMax)
  ∧ all (eJWT e) (λ a, HasPrefix (JWKSURL a) "https://" = true)
  ∧ all (eRedirect e) (λ a, StatusCode a ≠ 0).
Proof.
  intros all e.
  assert (∀ A B (get : HostEntry → slice B) kind (action : EdgeRuleAction → option A) resolve (P : B → Prop),
            Compiled v get kind action resolve → (∀ row a b, resolve row a = Fine b → P b) → all B (get e) P) as Hall.
  { intros A B get kind action resolve P HC HP r Hr. subst e. rewrite get_compiled in Hr.
    apply elem_of_compile in Hr as (row & _ & Hr). unfold compile_row in Hr.
    repeat case_match; simplify_eq; cbn; eauto. }
  split_and!; eapply Hall; try apply _; intros row a b.
  - unfold resolve_limit. intros [= <-]. cbn [MaxBodyBytes MaxBodyBytesStreaming].
    unfold MaxRequestBodyBytes, RawStreamMaxRequestBytes in *. repeat case_match; breflect; lia.
  - unfold resolve_maintenance. intros [= <-]. cbn [RetryAfterSeconds].
    unfold EdgeRuleMaintenanceRetryAfterSeconds, MaxEdgeRuleMaintenanceRetryAfterSeconds in *. repeat case_match; breflect; lia.
  - unfold resolve_throttle. intros [= <-]. cbn [RequestsPerSecond Burst MaxKeysPerRule].
    unfold ThrottleMaxKeysPerRuleDefault in *. split_and!; repeat case_match; breflect; try lia.
    + done.
    + by apply Qle_bool_iff.
  - unfold resolve_budget. intros [= <-]. cbn [BudgetMs].
    change (RequestBudgetMax `quot` Millisecond) with 30000. unfold RequestBudgetMax, Millisecond, Second in *. repeat case_match; breflect; lia.
  - unfold resolve_jwt. case_match eqn:Hj; intros [= <-]. by apply negb_false_iff in Hj.
  - unfold resolve_redirect. intros [= <-]. cbn. case_match; breflect; lia.
Qed.

(** C24: The plan's rule quotas hold, with plans that change: however rules are created, changed and
    deleted, a step increases an app's number of rules, of geo rules or of throttle rules only to a number
    that the limits in force at that step allow, so none of the three ever exceeds the largest quota in
    force during the history, and all of them stay within the plan when the plan is never changed. After
    a downgrade the rules in excess stay, and none can be added. *)
Theorem edge_rule_quota past t : table_run past t →
  (∀ limits t' app, table_step limits t t' →
     (CountEdgeRulesForApp t app < CountEdgeRulesForApp t' app →
      CountEdgeRulesForApp t' app ≤ Limits.EdgeRulesPerApp (limits app))
     ∧ (CountEdgeRulesByKindForApp t app "geo" < CountEdgeRulesByKindForApp t' app "geo" →
        under_cap (CountEdgeRulesByKindForApp t' app "geo") (Limits.EdgeRulesGeoPerApp (limits app)))
     ∧ (CountEdgeRulesByKindForApp t app "throttle" < CountEdgeRulesByKindForApp t' app "throttle" →
        under_cap (CountEdgeRulesByKindForApp t' app "throttle") (Limits.EdgeRulesThrottlePerApp (limits app))))
  ∧ ∀ app n, 0 ≤ n →
     ((∀ l, l ∈ past → Limits.EdgeRulesPerApp (l app) ≤ n) → CountEdgeRulesForApp t app ≤ n)
     ∧ ((∀ l, l ∈ past → 0 < Limits.EdgeRulesGeoPerApp (l app) ≤ n) →
        CountEdgeRulesByKindForApp t app "geo" ≤ n)
     ∧ ((∀ l, l ∈ past → 0 < Limits.EdgeRulesThrottlePerApp (l app) ≤ n) →
        CountEdgeRulesByKindForApp t app "throttle" ≤ n).
Proof.
  intros H. split.
  { intros limits t' app Hs. destruct (step_counts _ _ _ app Hs) as (S1 & S2 & S3).
    split_and!; intros ?; [lia|destruct S2; [lia|done]|destruct S3; [lia|done]]. }
  intros app n Hn. induction H as [|limits past t t' _ (H1 & H2 & H3) Hs].
  { unfold CountEdgeRulesForApp, CountEdgeRulesByKindForApp, map_count. rewrite !map_sum_empty. lia. }
  destruct (step_counts _ _ _ app Hs) as (S1 & S2 & S3). unfold under_cap in *. split_and!; intros Hl.
  - assert (CountEdgeRulesForApp t app ≤ n) by (apply H1; intros; apply Hl; by right).
    specialize (Hl limits ltac:(by left)). lia.
  - assert (CountEdgeRulesByKindForApp t app "geo" ≤ n) by (apply H2; intros; apply Hl; by right).
    specialize (Hl limits ltac:(by left)). lia.
  - assert (CountEdgeRulesByKindForApp t app "throttle" ≤ n) by (apply H3; intros; apply Hl; by right).
    specialize (Hl limits ltac:(by left)). lia.
Qed.

(** A fill that started before a change outlives it: when the rows of a host were read before a rule
    change and are put into the cache after its notification has emptied it, the gateway keeps answering
    from the old rows, whatever the table holds by then, until the next change. *)
Theorem stale_fill_survives_reset {A B} v (get : HostEntry → slice B) kind (action : EdgeRuleAction → option A) resolve
    `{!Compiled v get kind action resolve} nil_misses c old rules store (host path method : string) :
  1 ≤ cap c → uncached (compile_entry v old) = false → get (compile_entry v old) = Some rules →
  (match_kind nil_misses get v store (Put (Reset c) host (compile_entry v old)) host path method).1
  = pickFirstMatch rules path method.
Proof.
  intros Hcap Hu Hg. apply (match_hit v get nil_misses store (set_host host (compile_entry v old))).
  - by apply Put_reset.
  - by rewrite get_host.
Qed.

(** Hosts with only throttle or budget rules are never cached, so each of their requests reads the
    table again for every kind. *)
Theorem throttle_only_host_uncached v c (host : string) rows :
  Forall (λ r, Kind r = "throttle"%string ∨ Kind r = "budget"%string) rows →
  Put c host (compile_entry v rows) = c.
Proof.
  intros Hk. unfold Put.
  assert (∀ A B kind (action : EdgeRuleAction → option A) (resolve : EdgeRule → A → verdict B),
            kind ≠ "throttle"%string → kind ≠ "budget"%string → len (compile kind action resolve rows).1 = 0) as Hlen.
  { intros A B kind action resolve H1 H2.
    destruct (default [] (compile kind action resolve rows).1) as [|r l] eqn:Hd.
    - destruct (compile kind action resolve rows).1; cbn in *; by subst.
    - assert (r ∈ default [] (compile kind action resolve rows).1) as Hr by (rewrite Hd; left).
      apply elem_of_compile in Hr as (row & Hin & Hr).
      rewrite Forall_forall in Hk. specialize (Hk row Hin). revert Hr. unfold compile_row.
      destruct (Enabled row); [|done]. cbn.
      destruct (String.eqb_spec (Kind row) kind); [|done]. destruct Hk; congruence. }
  unfold uncached, compile_entry. cbn [eRoute eRewrite eRedirect eHeaders eCORS eJWT eIP eValidate eLimit eMaintenance eGeo].
  unfold compileRouteRules, compileRewriteRules, compileRedirectRules, compileHeadersRules, compileCORSRules,
    compileJWTRules, compileIPRules, compileValidateRules, compileLimitRules, compileMaintenanceRules, compileGeoRules.
  by rewrite !Hlen by done.
Qed.

(** ** Witnesses *)

Definition ex_ip (deny : list string) : EdgeRuleAction :=
  mkAction None None None None None None (Some (mkIP [] deny)) None None None None None None.

Definition ex_throttle : EdgeRuleAction :=
  mkAction None None None None None None None None None None None (Some (mkThrottle 5 10 EmptyString EmptyString 0)) None.

Definition ex_rule (id host path : string) (priority : Z) (kind : string) (a : EdgeRuleAction) : EdgeRule :=
  mkRule id "a1" "p1" host path ["get"%string] priority true kind a 0.

Definition ex_rows : list EdgeRule :=
  [ex_rule "r1" "*.apps.dev" "/api/*" 20 "ip" (ex_ip ["10.0.0.0/8"%string]);
   ex_rule "r2" "x.apps.dev" "/api/*" 10 "ip" (ex_ip ["192.168.0.0/16"%string])].

Definition ex_cache : EdgeRuleCache := NewEdgeRuleCache 10.

(** A gateway that has read the rows of a host, is told of a change to no rules and fills the cache
    only then. *)
Definition ex_late : gateway :=
  let e := compile_entry None (MatchEdgeRulesForHost ex_rows "x.apps.dev") in
  mkGw [] [ex_rows] 0 (Put (Reset ex_cache) "x.apps.dev" e) [] {["x.apps.dev"%string]}.

Lemma reach_late : reach None ex_late.
Proof.
  exists ex_rows, 10.
  eapply rtc_l; [apply g_request, (g_read _ _ "x.apps.dev")|]. eapply rtc_l; [apply (g_change _ _ [])|].
  eapply rtc_l; [apply g_reset|]. eapply rtc_l; [|apply rtc_refl].
  apply g_request. cbn.
  eapply eq_ind; [eapply (g_put _ _ [] _ []); reflexivity|]. vm_compute. reflexivity.
Qed.

Lemma edge_match_exact_witness :
  let answer g := (MatchIP None (store_of (MatchEdgeRulesForHost (tab g)) false) (gcache g)
                     "x.apps.dev" "/api/u" "GET").1 in
  let exact rows (out : option (Resolved IPSets)) :=
    let candidate row b := row ∈ rows ∧ matchHostPattern (MatchHost row) "x.apps.dev" = true
                           ∧ covers "ip" IPA resolve_ip row b "/api/u" "GET" in
    match out with
    | Some r => ∃ row b, candidate row b ∧ r = resolved row b
                         ∧ ∀ row' b', candidate row' b' → Priority row ≤ Priority row'
    | None => ∀ row b, ¬ candidate row b
    end in
  ((rID <$> answer (start ex_rows 10)) = Some "r2"%string ∧ exact ex_rows (answer (start ex_rows 10)))
  ∧ (rID <$> answer ex_late) = Some "r2"%string
    ∧ ∃ rows, rows ∈ [[]; ex_rows] ∧ exact rows (answer ex_late).
Proof.
  split_and!; [vm_compute; reflexivity| |vm_compute; reflexivity|].
  - destruct (edge_match_exact None eIP "ip" IPA resolve_ip false (start ex_rows 10) "x.apps.dev" "/api/u" "GET")
      as (rows & _ & Hs & H); [exists ex_rows, 10; apply rtc_refl|].
    rewrite Hs in H; [exact H|]. split; [reflexivity|apply not_elem_of_empty].
  - destruct (edge_match_exact None eIP "ip" IPA resolve_ip false ex_late "x.apps.dev" "/api/u" "GET")
      as (rows & Hr & _ & H); [apply reach_late|].
    exists rows. split; [exact Hr|exact H].
Defined.

Lemma edge_cache_transparent_witness :
  Len (gcache ex_late) ≤ cap (gcache ex_late)
  ∧ ∃ ver, ver ∈ [[]; ex_rows] ∧
    (MatchIP None (store_of (λ _, []) true) (gcache ex_late) "x.apps.dev" "/api/u" "GET").1
    = pickFirstMatch (default [] (eIP (compile_entry None (MatchEdgeRulesForHost ver "x.apps.dev"))))
        "/api/u" "GET".
Proof.
  destruct (edge_cache_transparent None eIP "ip" IPA resolve_ip false ex_late true "x.apps.dev" "/api/u" "GET")
    as (_ & Hl & ver & Hv & _ & H); [apply reach_late|].
  split; [exact Hl|]. exists ver. split; [exact Hv|]. exact H.
Defined.

Lemma quiet_reset_settles_witness : settled (after_reset ex_late) "x.apps.dev".
Proof.
  apply (quiet_reset_settles None ex_late); [reflexivity|apply Nat.le_0_l|apply rtc_refl].
Defined.

(** A rule created under Hobby, before a downgrade to Free. *)
Lemma edge_rule_quota_witness :
  let t := (CreateEdgeRuleIfUnderQuota ∅ true (ex_rule "r1" "*" "/" 1 "geo" no_action) limitsHobby).2 in
  let t' := (CreateEdgeRuleIfUnderQuota t true (ex_rule "r2" "*" "/" 1 "geo" no_action) limitsFree).2 in
  CountEdgeRulesForApp t "p1" = 1 ∧ CountEdgeRulesForApp t "p1" ≤ Limits.EdgeRulesPerApp limitsHobby
  ∧ (CountEdgeRulesForApp t "p1" < CountEdgeRulesForApp t' "p1" →
     CountEdgeRulesForApp t' "p1" ≤ Limits.EdgeRulesPerApp limitsFree).
Proof.
  intros t t'. split; [vm_compute; reflexivity|].
  destruct (edge_rule_quota [λ _, limitsHobby] t) as [Hs Hn].
  { apply (run_step _ [] ∅); [apply run_start|]. apply (step_create (λ _, limitsHobby)). reflexivity. }
  split.
  - destruct (Hn "p1"%string (Limits.EdgeRulesPerApp limitsHobby)) as [H _]; [vm_compute; discriminate|].
    apply H. intros l ->%list_elem_of_singleton. reflexivity.
  - destruct (Hs (λ _, limitsFree) t' "p1"%string) as [H _]; [|exact H].
    apply (step_create (λ _, limitsFree)). vm_compute. reflexivity.
Defined.

Lemma stale_fill_survives_reset_witness :
  let c := Put (Reset ex_cache) "x.apps.dev" (compile_entry None ex_rows) in
  (rID <$> (MatchIP None (store_of (λ _, []) false) c "x.apps.dev" "/api/u" "GET").1) = Some "r2"%string.
Proof.
  intros c. unfold MatchIP, c.
  rewrite (stale_fill_survives_reset None eIP "ip" IPA resolve_ip false ex_cache ex_rows
             (default [] (eIP (compile_entry None ex_rows))) (store_of (λ _, []) false) "x.apps.dev" "/api/u" "GET").
  - vm_compute. reflexivity.
  - vm_compute. discriminate.
  - vm_compute. reflexivity.
  - vm_compute. reflexivity.
Defined.

Lemma throttle_only_host_uncached_witness :
  Put ex_cache "x.apps.dev" (compile_entry None [ex_rule "r3" "*" "/" 1 "throttle" ex_throttle]) = ex_cache.
Proof. apply throttle_only_host_uncached. constructor; [left; reflexivity|constructor]. Defined.

End EdgeRules.
