(* ===== verification/EdgeGates.v ===== *)
(** * The gates of a request: ServeHTTP up to the wake path

    Handler.ServeHTTP (src/pkg/gateway/handler.go) resolves the app of a request and passes it through a
    fixed sequence of gates: maintenance, redirect, rewrite, headers, CORS, JWT, IP, geo, body limit,
    throttle, body validation, request budget, the API-key and public-auth checks, the sidecar selector
    and the account and app rate limits.  A gate answers the request or hands it on, possibly changed.
    What passes them all goes to the wake path ([Picker.route]).

    The sequence is a state monad with early answers: the request record carries what the code keeps in
    the request, its context and the status recorder, the state what outlives a request (the edge-rule
    cache, the four limiters, the credential cache).  The edge rules are those of EdgeRules.v and the
    limiters those of EdgeLimiter.v.  Interfaces behind the handler (the app router, the JWT verifier, the
    country database, the schema validator, the key store, the unsealer, SHA-256) are fields of [Handler];
    a [None] is a hook that is not wired.  All gates of one request read the clock at one instant, and the
    edge-rule store answers a host the same way during one request.  Metrics, audit events, logs and the
    rate-limit headers are left out; the text of a problem is its title. *)

From Stdlib Require Import QArith.
From stdpp Require Import pretty.
From S2P Require Import Prelude Api Float64 EdgeLimiter GoStd EdgeRules.
#[local] Open Scope Z_scope.

Module EdgeGates.

Import Strings.
Import EdgeRules.
Import Float64.

(** ** Data *)

Record PublicAuthConfig := mkPublicAuth { Mode : string; BasicSealed : string }.
Record AppSidecar := mkSidecar { scName : string; scPort : Z }.

(** The fields of the App the gates read. *)
Record App := mkApp {
  appID : string;
  appAccountID : string;
  Slug : string;
  appPlan : string;
  StreamingEnabled : bool;
  MaintenanceMode : bool;
  Sidecars : list AppSidecar;
  RequireAuthn : bool;
  PublicAuth : PublicAuthConfig;
  CORSDefaultEnabled : option bool;
  CORSDefaultOrigins : list string;
}.

Record Authenticated := mkAuthed {
  APIKeyID : string;
  JWTSubject : string;
  JWTClaims_ : gmap string string;
}.

Definition anonymous : Authenticated := mkAuthed EmptyString EmptyString ∅.

(** A request: what net/http parsed, the body with the byte caps wrapped around it, what the handler
    stamps on the context, and the response header operations armed on the status recorder. *)
Record Request := mkRequest {
  rHost : string;
  Path : string;
  Method : string;
  Header_ : Header.t;
  ContentLength : Z;
  Body : string;
  bodyBroken : bool;
  bodyCaps : list Z;
  authenticated : Authenticated;
  untilDeadline : option Z;
  budget : option Z;
  canceled : bool;
  headerOps : list EdgeRuleHeaderOp;
  sidecarPort : option Z;
}.

Inductive response :=
| Problem (status : Z) (title : string) (headers : list (string * string))
| Redirected (status : Z) (location : string) (headers : gmap string string)
| NoContent (ops : list EdgeRuleHeaderOp).

Record JWTClaims := mkClaims { Subject : string; Custom : gmap string string }.

Inductive validate_error := SchemaExternalRef | SchemaBroken | ValidatorFailed (e : string).

Record publicAuthCacheEntry := mkCred { username : string; password : string; expiresAt : Time }.

(** What the handler is built with. *)
Record Handler := mkHandler {
  appsSuffix : string;
  edgeRules : bool;
  store : edgeRuleStore;
  validate_compiler : validateCompiler;
  resolveTargetApp : option (string → option App);
  Lookup : string → option App;
  streamingEnabled : bool;
  jwtVerifier : option (string → Resolved EdgeRuleJWTAction → string + JWTClaims);
  geoReader : option (Net.IP → string + option string);
  validator : option (string → string → Resolved ValidateRule → validate_error + bool);
  (** Account id and key id of a hashed key; the flag says that the context is cancelled. *)
  AuthenticateKey : option (bool → string → string + string * string);
  UnsealBasicAuth : option (string → option (string * string));
  sha256 : string → string;
  authTTL : Z;
}.

(** What outlives a request. *)
Record State := mkState {
  cache : EdgeRuleCache;
  routeLimiter : EdgeLimiter.Limiter;
  routeConsumerLimiter : EdgeLimiter.Limiter;
  accountLimiter : EdgeLimiter.Limiter;
  limiter : EdgeLimiter.Limiter;
  publicAuthCache : gmap (string * string) publicAuthCacheEntry;
}.

(** ** The monad *)

Definition gate (A : Type) : Type := Request → State → (response + A) * (Request * State).

#[global] Instance gate_ret : MRet gate := λ A a q s, (inr a, (q, s)).
#[global] Instance gate_bind : MBind gate := λ A B f m q s,
  match m q s with
  | (inl r, w) => (inl r, w)
  | (inr a, (q, s)) => f a q s
  end.

Definition reply {A} (r : response) : gate A := λ q s, (inl r, (q, s)).
Definition request : gate Request := λ q s, (inr q, (q, s)).
Definition update (f : Request → Request) : gate () := λ q s, (inr tt, (f q, s)).
Definition on_state {A} (f : State → A * State) : gate A := λ q s, let '(a, s) := f s in (inr a, (q, s)).

Definition set_path (p : string) (q : Request) : Request :=
  mkRequest (rHost q) p (Method q) (Header_ q) (ContentLength q) (Body q) (bodyBroken q) (bodyCaps q)
    (authenticated q) (untilDeadline q) (budget q) (canceled q) (headerOps q) (sidecarPort q).
Definition set_header (hd : Header.t) (q : Request) : Request :=
  mkRequest (rHost q) (Path q) (Method q) hd (ContentLength q) (Body q) (bodyBroken q) (bodyCaps q)
    (authenticated q) (untilDeadline q) (budget q) (canceled q) (headerOps q) (sidecarPort q).
Definition set_body (b : string) (broken : bool) (caps : list Z) (q : Request) : Request :=
  mkRequest (rHost q) (Path q) (Method q) (Header_ q) (ContentLength q) b broken caps
    (authenticated q) (untilDeadline q) (budget q) (canceled q) (headerOps q) (sidecarPort q).
Definition set_authenticated (a : Authenticated) (q : Request) : Request :=
  mkRequest (rHost q) (Path q) (Method q) (Header_ q) (ContentLength q) (Body q) (bodyBroken q) (bodyCaps q)
    a (untilDeadline q) (budget q) (canceled q) (headerOps q) (sidecarPort q).
Definition set_budget (d : option Z) (b : option Z) (c : bool) (q : Request) : Request :=
  mkRequest (rHost q) (Path q) (Method q) (Header_ q) (ContentLength q) (Body q) (bodyBroken q) (bodyCaps q)
    (authenticated q) d b c (headerOps q) (sidecarPort q).
Definition set_sidecarPort (p : Z) (q : Request) : Request :=
  mkRequest (rHost q) (Path q) (Method q) (Header_ q) (ContentLength q) (Body q) (bodyBroken q) (bodyCaps q)
    (authenticated q) (untilDeadline q) (budget q) (canceled q) (headerOps q) (Some p).
(** statusRecorder.installHeaderOps: the last non-empty list wins. *)
Definition installHeaderOps (ops : list EdgeRuleHeaderOp) (q : Request) : Request :=
  match ops with
  | [] => q
  | _ =>
      mkRequest (rHost q) (Path q) (Method q) (Header_ q) (ContentLength q) (Body q) (bodyBroken q) (bodyCaps q)
        (authenticated q) (untilDeadline q) (budget q) (canceled q) ops (sidecarPort q)
  end.

Definition set_cache (c : EdgeRuleCache) (s : State) : State :=
  mkState c (routeLimiter s) (routeConsumerLimiter s) (accountLimiter s) (limiter s) (publicAuthCache s).

(** ** Hosts *)

(** The host without its port, in lower case. *)
Definition hostname (host : string) : string := ToLower (before_byte 58 host).

Definition SidecarHostSeparator : string := "--".

Definition cut_or_all (s sep : string) : string * string := default (s, EmptyString) (Cut s sep).

Definition SplitHostSelectorWithSuffix (host suffix : string) : string * string :=
  if empty host then (EmptyString, EmptyString)
  else if negb (empty suffix) && HasSuffix host suffix then
    let '(a, name) := cut_or_all (TrimSuffix host suffix) SidecarHostSeparator in
    ((a ++ suffix)%string, name)
  else cut_or_all host SidecarHostSeparator.

Definition SidecarSelectorForApp (app : App) (name : string) : option Z :=
  if empty name then Some 0
  else scPort <$> head (filter (λ sc, String.eqb (scName sc) name) (Sidecars app)).

(** ** Header helpers *)

Definition applyHeaderOp (hd : Header.t) (op : EdgeRuleHeaderOp) : Header.t :=
  if String.eqb (opAction op) "remove" then Header.Del hd (opName op)
  else if String.eqb (opAction op) "set" then
    if empty (opValue op) then Header.Del hd (opName op) else Header.Set_ hd (opName op) (opValue op)
  else if empty (opValue op) then hd else Header.Add hd (opName op) (opValue op).

Definition bearerTokenFromHeader (h : string) : string :=
  if (String.length h <? 7)%nat then EmptyString
  else if EqualFold (first 7 h) "bearer " then TrimSpace (skip 7 h) else EmptyString.

Definition basicCredsFromHeader (h : string) : option (string * string) :=
  if (String.length h <? 6)%nat then None
  else if negb (EqualFold (first 6 h) "basic ") then None
  else
    let raw := TrimSpace (skip 6 h) in
    if empty raw then None
    else
      match Base64.DecodeString raw ≫= λ decoded, Cut decoded ":" with
      | None => None
      | Some (user, pass) => if empty user || empty pass then None else Some (user, pass)
      end.

Definition APIKeyPrefix : string := "fp_live_".

Definition ValidAPIKeyFormat (s : string) : bool :=
  match cut_prefix s APIKeyPrefix with
  | None => false
  | Some body => (String.length body =? 48)%nat && Header.all_bytes (λ c, bool_decide (is_Some (Net.hex c))) body
  end.

Definition clientIPFromTrustedXFF (hd : Header.t) : option Net.IP :=
  match Header.Values hd "X-Forwarded-For" with
  | [v] => let ipStr := TrimSpace v in if empty ipStr then None else Net.ParseIP ipStr
  | _ => None
  end.

Definition isUpgradeRequest (hd : Header.t) : bool :=
  existsb (λ conn, existsb (λ tok, EqualFold (TrimSpace tok) "Upgrade") (Split 44 conn)) (Header.Values hd "Connection")
  && negb (empty (Header.Get hd "Upgrade")).

Definition isAcceptJSON (accept : string) : bool :=
  negb (empty accept)
  && existsb (λ raw, String.eqb (TrimSpace (before_byte 59 (TrimSpace (ToLower raw)))) "application/json") (Split 44 accept).

Definition contentTypeAllowed (ct : string) (allowed : list string) : bool :=
  negb (empty ct)
  && existsb (λ a, String.eqb a ct || (contains_byte 59 ct && String.eqb (TrimSpace (before_byte 59 ct)) a)) allowed.

Definition singleSlash (p : string) : string :=
  if empty p then "/"%string
  else
    let p := if HasPrefix p "/" then p else ("/" ++ p)%string in
    if (1 <? String.length p)%nat && HasSuffix p "/" then first (String.length p - 1) p else p.

(** ** The rule of a kind *)

(** The matcher's answer for the request, whatever account the rule belongs to. *)
Definition rule_for {A} (h : Handler)
    (m : validateCompiler → edgeRuleStore → EdgeRuleCache → string → string → string → option (Resolved A) * EdgeRuleCache)
    : gate (option (Resolved A)) :=
  q ← request;
  on_state (λ s,
    let '(r, c) := m (validate_compiler h) (store h) (cache s) (hostname (rHost q)) (Path q) (Method q) in
    (r, set_cache c s)).

Definition same_account {A} (app : App) (r : Resolved A) : bool := String.eqb (rAccountID r) (appAccountID app).

(** The matcher's answer with the account check: a rule of another account is no rule. *)
Definition own_rule {A} (h : Handler)
    (m : validateCompiler → edgeRuleStore → EdgeRuleCache → string → string → string → option (Resolved A) * EdgeRuleCache)
    (app : App) : gate (option (Resolved A)) :=
  if negb (edgeRules h) then mret None
  else
    r ← rule_for h m;
    mret (r ≫= λ r, if same_account app r then Some r else None).

(** ** The gates *)

Definition matchAndSubstituteRoute (h : Handler) : gate (option App) :=
  match edgeRules h, resolveTargetApp h with
  | true, Some resolve =>
      rule ← rule_for h MatchRoute;
      mret (rule ≫= λ r,
        resolve (TargetAppSlug (payload r)) ≫= λ target,
        if String.eqb (appAccountID target) (rAccountID r) then Some target else None)
  | _, _ => mret None
  end.

Definition retry_after (n : Z) : list (string * string) :=
  [("Retry-After"%string, pretty (if n <=? 0 then EdgeRuleMaintenanceRetryAfterSeconds else n))].

Definition applyAppsMaintenanceMode (app : App) : gate () :=
  if MaintenanceMode app
  then reply (Problem 503 "App in maintenance" (retry_after EdgeRuleMaintenanceRetryAfterSeconds))
  else mret tt.

Definition applyEdgeRuleMaintenance (h : Handler) (app : App) : gate () :=
  rule ← own_rule h MatchMaintenance app;
  match rule with
  | None => mret tt
  | Some r => reply (Problem 503 "Endpoint in maintenance" (retry_after (RetryAfterSeconds (payload r))))
  end.

Definition redirect_status (code : Z) : Z :=
  if existsb (Z.eqb code) [301; 302; 307; 308] then code else 302.

Definition matchAndApplyRedirect (h : Handler) (app : App) : gate () :=
  rule ← own_rule h MatchRedirect app;
  match rule with
  | None => mret tt
  | Some r =>
      reply (Redirected (redirect_status (StatusCode (payload r))) (RedirectTo (payload r)) (Headers (payload r)))
  end.

(** The path a rewrite rule leaves: unchanged when its prefix does not fit. *)
Definition rewrite_path (r : EdgeRuleRewriteAction) (path : string) : string :=
  let from := if String.eqb (From r) "*" then EmptyString else From r in
  if empty from then
    let to := singleSlash (RewriteTo r) in
    if String.eqb to "/" then path else (to ++ path)%string
  else
    match cut_prefix path from with
    | Some rest => (singleSlash (RewriteTo r) ++ rest)%string
    | None => path
    end.

Definition matchAndApplyRewrite (h : Handler) (app : App) : gate () :=
  rule ← own_rule h MatchRewrite app;
  match rule with
  | None => mret tt
  | Some r => update (λ q, set_path (rewrite_path (payload r) (Path q)) q)
  end.

Definition applyEdgeRuleHeaders (h : Handler) (app : App) : gate () :=
  rule ← own_rule h MatchHeaders app;
  match rule with
  | None => mret tt
  | Some r =>
      update (λ q, installHeaderOps (ResponseHeaders (payload r))
                     (set_header (foldl applyHeaderOp (Header_ q) (RequestHeaders (payload r))) q))
  end.

(** *** CORS *)

Definition splitScheme (origin : string) : option (string * string) := Cut origin "://".

(** What an allowlist entry [a] accepts of an origin, both in lower case. *)
Definition origin_fits (a origin : string) : bool :=
  String.eqb a "*" || String.eqb a origin
  || match splitScheme a, splitScheme origin with
     | Some (sch, hostSuffix), Some (rSch, rHost) =>
         String.eqb sch rSch
         && (match cut_prefix hostSuffix "*." with
             | Some suffix => HasSuffix rHost ("." ++ suffix) && (count_byte 46 rHost =? count_byte 46 suffix + 1)
             | None => false
             end
             || match cut_suffix hostSuffix ":*" with
                | Some prefix => HasPrefix rHost (prefix ++ ":")
                | None => false
                end)
     | _, _ => false
     end.

(** The first entry that fits, in lower case; the empty string for none. *)
Definition matchOrigin (allowList : list string) (origin : string) : string :=
  if empty origin then EmptyString
  else default EmptyString (head (filter (λ a, origin_fits a (ToLower origin)) (map ToLower allowList))).

Definition set_op (name value : string) : EdgeRuleHeaderOp := mkOp name value "set".

Definition corsDefaultOps (allowedOrigin : string) : list EdgeRuleHeaderOp :=
  [set_op "Access-Control-Allow-Origin" allowedOrigin;
   set_op "Access-Control-Allow-Methods" "GET, POST, OPTIONS";
   set_op "Access-Control-Allow-Headers" "*";
   set_op "Access-Control-Expose-Headers" "Streaming-Status, Streaming-Status-Accept-Hint"].

Definition joined_op (name : string) (l : list string) : list EdgeRuleHeaderOp :=
  match l with [] => [] | _ => [set_op name (Join l ", ")] end.

Definition corsResponseOps (r : EdgeRuleCORSAction) (allowedOrigin : string) : list EdgeRuleHeaderOp :=
  if empty allowedOrigin then []
  else
    [set_op "Access-Control-Allow-Origin" allowedOrigin]
    ++ (if AllowCredentials r then [set_op "Access-Control-Allow-Credentials" "true"] else [])
    ++ joined_op "Access-Control-Allow-Methods" (AllowMethods r)
    ++ joined_op "Access-Control-Allow-Headers" (AllowHeaders r)
    ++ joined_op "Access-Control-Expose-Headers" (ExposeHeaders r)
    ++ (if 0 <? MaxAgeSeconds r then [set_op "Access-Control-Max-Age" (pretty (MaxAgeSeconds r))] else []).

Definition cors_default (app : App) (q : Request) : Request :=
  match CORSDefaultEnabled app, CORSDefaultOrigins app with
  | Some true, _ :: _ =>
      let allowed := matchOrigin (CORSDefaultOrigins app) (Header.Get (Header_ q) "Origin") in
      if empty allowed then q else installHeaderOps (corsDefaultOps allowed) q
  | _, _ => q
  end.

Definition applyEdgeRuleCORS (h : Handler) (app : App) : gate () :=
  if negb (edgeRules h) then mret tt
  else
    rule ← rule_for h MatchCORS;
    match rule with
    | None => update (cors_default app)
    | Some r =>
        if negb (same_account app r) then mret tt
        else
          q ← request;
          let origin := Header.Get (Header_ q) "Origin" in
          let allowed := matchOrigin (AllowOrigins (payload r)) origin in
          if negb (empty origin) && empty allowed then mret tt
          else
            let ops := corsResponseOps (payload r) allowed in
            _ ← update (installHeaderOps ops);
            if String.eqb (Method q) "OPTIONS" then reply (NoContent ops) else mret tt
    end.

(** *** Tokens, addresses and countries *)

Definition applyEdgeRuleJWT (h : Handler) (app : App) : gate () :=
  match jwtVerifier h with
  | None => mret tt
  | Some verify =>
      rule ← own_rule h MatchJWT app;
      match rule with
      | None => mret tt
      | Some r =>
          q ← request;
          let raw := bearerTokenFromHeader (Header.Get (Header_ q) "Authorization") in
          if empty raw then reply (Problem 401 "Missing bearer token" [])
          else
            match verify raw r with
            | inl _ => reply (Problem 401 "JWT verification failed" [])
            | inr claims => update (set_authenticated (mkAuthed EmptyString (Subject claims) (Custom claims)))
            end
      end
  end.

Definition applyEdgeRuleIP (h : Handler) (app : App) : gate () :=
  rule ← own_rule h MatchIP app;
  match rule with
  | None => mret tt
  | Some r =>
      q ← request;
      match clientIPFromTrustedXFF (Header_ q) with
      | None => reply (Problem 403 "Caller IP not in trusted set" [])
      | Some ip =>
          if existsb (λ n, Net.Contains n ip) (Deny (payload r)) then reply (Problem 403 "IP denied" [])
          else
            match Allow (payload r) with
            | [] => mret tt
            | l => if existsb (λ n, Net.Contains n ip) l then mret tt else reply (Problem 403 "IP not allowed" [])
            end
      end
  end.

Definition applyEdgeRuleGeo (h : Handler) (app : App) : gate () :=
  match geoReader h with
  | None => mret tt
  | Some lookup =>
      rule ← own_rule h MatchGeo app;
      match rule with
      | None => mret tt
      | Some r =>
          q ← request;
          match clientIPFromTrustedXFF (Header_ q) with
          | None => reply (Problem 403 "Caller IP not in trusted set" [])
          | Some ip =>
              match lookup ip with
              | inr (Some country) =>
                  if bool_decide (country ∈ CountryDeny (payload r)) then reply (Problem 403 "Country denied" [])
                  else if negb (bool_decide (CountryAllow (payload r) = ∅))
                          && negb (bool_decide (country ∈ CountryAllow (payload r)))
                  then reply (Problem 403 "Country not allowed" [])
                  else mret tt
              | _ => mret tt
              end
          end
      end
  end.

(** *** Streaming and the body limit *)

Record streamingDecision := mkDecision { Status : string; Cap : Z; CapKind : string }.

Definition decideStreaming (h : Handler) (app : App) : gate (streamingDecision * bool) :=
  let planCap := Plan.MaxResponseBodyBytes (appPlan app) in
  let buffered status := mret (mkDecision status planCap "plan", false) in
  if negb (streamingEnabled h) then buffered "operator-disabled"%string
  else if negb (StreamingEnabled app) then buffered "flag-disabled"%string
  else if negb (Plan.accessor false Limits.StreamingEnabled (appPlan app)) then buffered "plan-disallows"%string
  else
    q ← request;
    if isUpgradeRequest (Header_ q) then buffered "upgrade-bypass"%string
    else
      rule ← own_rule h MatchLimit app;
      let '(cap, capKind) :=
        match rule with
        | Some r =>
            if 0 <? MaxBodyBytesStreaming (payload r)
            then (MaxBodyBytesStreaming (payload r), "endpoint-rule"%string) else (planCap, "plan"%string)
        | None => (planCap, "plan"%string)
        end in
      mret (mkDecision (if isAcceptJSON (Header.Get (Header_ q) "Accept")
                        then "accept-json-downgrade" else "streaming") cap capKind, true).

Definition streamingFor (h : Handler) (app : App) : gate bool := d ← decideStreaming h app; mret d.2.

(** http.MaxBytesReader around the body. *)
Definition MaxBytesReader (cap : Z) (q : Request) : Request :=
  set_body (Body q) (bodyBroken q) (cap :: bodyCaps q) q.

Definition limit_cap (r : EdgeRuleLimitAction) (streaming : bool) : Z :=
  if streaming && (0 <? MaxBodyBytesStreaming r) then
    if RawStreamMaxRequestBytes <? MaxBodyBytesStreaming r then RawStreamMaxRequestBytes else MaxBodyBytesStreaming r
  else if (MaxBodyBytes r <=? 0) || (MaxRequestBodyBytes <? MaxBodyBytes r) then MaxRequestBodyBytes
  else MaxBodyBytes r.

Definition applyEdgeRuleLimit (h : Handler) (streaming : bool) (app : App) : gate () :=
  rule ← own_rule h MatchLimit app;
  match rule with
  | None => mret tt
  | Some r =>
      q ← request;
      let cap := limit_cap (payload r) streaming in
      if (0 <? ContentLength q) && (cap <? ContentLength q) then reply (Problem 413 "Request body too large" [])
      else update (MaxBytesReader cap)
  end.

(** *** Throttle *)

Definition ThrottleKeyByIsPerConsumer (keyBy : string) : bool :=
  existsb (String.eqb keyBy) ["api_key"%string; "jwt_subject"%string; "jwt_claim"%string].

Definition non_empty (s : string) : option string := if empty s then None else Some s.

Definition resolveConsumerKey (keyBy claimName : string) (authed : Authenticated) : option string :=
  if String.eqb keyBy "api_key" || String.eqb keyBy "apiKey" then non_empty (APIKeyID authed)
  else if String.eqb keyBy "jwt_subject" || String.eqb keyBy "jwtSubject" then non_empty (JWTSubject authed)
  else if String.eqb keyBy "jwt_claim" || String.eqb keyBy "jwtClaim" then
    if empty claimName then None else (JWTClaims_ authed !! claimName) ≫= non_empty
  else None.

Definition rate_limited (scope : string) : response :=
  Problem 429 "Rate limit exceeded" [("Retry-After"%string, "1"%string); ("x-faas-rate-limit-scope"%string, scope)].

Definition set_route (l : EdgeLimiter.Limiter) (s : State) : State :=
  mkState (cache s) l (routeConsumerLimiter s) (accountLimiter s) (limiter s) (publicAuthCache s).
Definition set_consumer (l : EdgeLimiter.Limiter) (s : State) : State :=
  mkState (cache s) (routeLimiter s) l (accountLimiter s) (limiter s) (publicAuthCache s).
Definition set_account (l : EdgeLimiter.Limiter) (s : State) : State :=
  mkState (cache s) (routeLimiter s) (routeConsumerLimiter s) l (limiter s) (publicAuthCache s).
Definition set_limiter (l : EdgeLimiter.Limiter) (s : State) : State :=
  mkState (cache s) (routeLimiter s) (routeConsumerLimiter s) (accountLimiter s) l (publicAuthCache s).

Definition bucketKey (app : App) (ruleID : string) : string := (appID app ++ EdgeLimiter.nul ++ ruleID)%string.

(** The shared bucket of the rule, and then the bucket of the consumer when the rule asks for one. *)
Definition throttle_allows (app : App) (r : Resolved EdgeRuleThrottleAction) (authed : Authenticated) (now : Time)
    (s : State) : bool * State :=
  let a := payload r in
  let key := bucketKey app (rID r) in
  let centralKey := ("rule:" ++ rID r ++ ":" ++ appPlan app)%string in
  let '(ok, l) :=
    EdgeLimiter.AllowWithCentralParams (routeLimiter s) key (RequestsPerSecond a) (of_int (Burst a)) centralKey now in
  let s := set_route l s in
  if ok && ThrottleKeyByIsPerConsumer (KeyBy a) then
    match resolveConsumerKey (KeyBy a) (JWTClaimName a) authed with
    | None => (true, s)
    | Some consumer =>
        let capacity := if MaxKeysPerRule a <=? 0 then ThrottleMaxKeysPerRuleDefault else MaxKeysPerRule a in
        let '(ok, l) :=
          EdgeLimiter.AllowWithConsumerKey (routeConsumerLimiter s) key consumer (RequestsPerSecond a)
                                           (of_int (Burst a)) capacity now in
        (ok, set_consumer l s)
    end
  else (ok, s).

Definition applyEdgeRuleThrottle (h : Handler) (app : App) (now : Time) : gate () :=
  rule ← own_rule h MatchThrottle app;
  match rule with
  | None => mret tt
  | Some r =>
      q ← request;
      ok ← on_state (throttle_allows app r (authenticated q) now);
      if ok : bool then mret tt else reply (rate_limited "route")
  end.

(** *** Body validation *)

Inductive body_error := BodyTooLarge | BodyBroken.

(** io.ReadAll of the body through its caps. *)
Definition ReadAll (q : Request) : body_error + string :=
  if existsb (λ cap, cap <? Z.of_nat (String.length (Body q))) (bodyCaps q) then inl BodyTooLarge
  else if bodyBroken q then inl BodyBroken else inr (Body q).

Definition applyEdgeRuleValidate (h : Handler) (app : App) : gate () :=
  match validator h with
  | None => mret tt
  | Some validate =>
      rule ← own_rule h MatchValidate app;
      match rule with
      | None => mret tt
      | Some r =>
          q ← request;
          let a := validateAction (payload r) in
          let ct := Header.Get (Header_ q) "Content-Type" in
          if negb (ApplyWhileStreaming a) && isUpgradeRequest (Header_ q) then mret tt
          else if match ContentTypes a with [] => false | l => negb (contentTypeAllowed ct l) end
          then reply (Problem 415 "Unsupported media type" [])
          else
            let cap := if (validateMaxBodyBytes a <=? 0) || (MaxRequestBodyBytes <? validateMaxBodyBytes a)
                       then MaxRequestBodyBytes else validateMaxBodyBytes a in
            _ ← update (MaxBytesReader cap);
            q ← request;
            match ReadAll q with
            | inl BodyTooLarge => reply (Problem 413 "Request body too large" [])
            | inl BodyBroken => reply (Problem 400 "Could not read request body" [])
            | inr body =>
                _ ← update (set_body body false []);
                match validate body ct r with
                | inl SchemaExternalRef => reply (Problem 502 "Edge rule compile error" [])
                | inl SchemaBroken => reply (Problem 500 "Edge rule schema error" [])
                | inl (ValidatorFailed _) => reply (Problem 500 "Edge rule validator error" [])
                | inr true => mret tt
                | inr false =>
                    if String.eqb (ValidateMode a) "observe" then mret tt
                    else if String.eqb (ValidateMode a) "warn"
                    then update (installHeaderOps [set_op "X-Validation-Warning" (rID r)])
                    else reply (Problem 422 "Invalid request" [])
                end
            end
      end
  end.

(** *** Request budget *)

(** The budget and its ceiling; the zero row of an unknown plan has the platform values. *)
Definition plan_budget (plan : string) : Z :=
  match LimitsFor plan with Some l => RequestBudget l | None => RequestBudgetDefault end.
Definition plan_ceiling (plan : string) : Z :=
  match LimitsFor plan with Some l => RequestBudgetMaxDuration l | None => RequestBudgetMax end.

Definition parseBudgetHeaderMs (s : string) : option Z :=
  let s := TrimSpace s in
  if empty s then None
  else match Atoi s with Some n => if n <? 1 then None else Some n | None => None end.

(** reqbudget.WithRemaining: the tighter of the budget and the parent's deadline; no budget for a
    total that is not positive. *)
Definition WithRemaining (untilParent : option Z) (total : Z) : option Z :=
  if total <=? 0 then None
  else Some (match untilParent with
             | Some d => if (0 <? d) && (d <? total) then d else total
             | None => total
             end).

(** stampRequestBudget: the deferred cancel has run when it returns. *)
Definition stampRequestBudget (total : Z) (q : Request) : Request :=
  match WithRemaining (untilDeadline q) total with
  | None => q
  | Some b => set_budget (Some b) (Some b) true q
  end.

Definition rule_budget (a : EdgeRuleBudgetAction) (plan : string) (hd : Header.t) : Z :=
  let name := if empty (AllowOverrideHeader a) then "x-faas-budget-ms"%string else AllowOverrideHeader a in
  let ms := default (BudgetMs a) (parseBudgetHeaderMs (Header.Get hd name)) in
  let total := ms *! Millisecond in
  let ceiling := plan_ceiling plan in
  if (total <=? 0) || (ceiling <? total) then ceiling else total.

Definition applyEdgeRuleBudget (h : Handler) (app : App) : gate () :=
  if negb (edgeRules h) then mret tt
  else
    rule ← own_rule h MatchBudget app;
    update (λ q,
      stampRequestBudget (match rule with
                          | None => plan_budget (appPlan app)
                          | Some r => rule_budget (payload r) (appPlan app) (Header_ q)
                          end) q).

(** *** API keys and public auth *)

(** The check both key gates share: a well-formed bearer key of the app's account.  The result is the
    key id. *)
Definition authenticate (h : Handler) (auth : bool → string → string + string * string) (app : App)
    (headers : list (string * string)) : gate string :=
  q ← request;
  let tok := bearerTokenFromHeader (Header.Get (Header_ q) "Authorization") in
  if empty tok || negb (ValidAPIKeyFormat tok) then reply (Problem 401 "Unauthorized" headers)
  else
    match auth (canceled q) (sha256 h tok) with
    | inl _ => reply (Problem 401 "Unauthorized" headers)
    | inr (acct, key) =>
        if String.eqb acct (appAccountID app) then mret key else reply (Problem 403 "Insufficient scope" [])
    end.

Definition enforceRequireAuthn (h : Handler) (app : App) : gate () :=
  match RequireAuthn app, AuthenticateKey h with
  | true, Some auth =>
      key ← authenticate h auth app [];
      update (set_authenticated (mkAuthed key EmptyString ∅))
  | _, _ => mret tt
  end.

Definition quoted (s : string) : string := (String (chr 34) s ++ String (chr 34) EmptyString)%string.

Definition www (challenge : string) : list (string * string) := [("WWW-Authenticate"%string, challenge)].

Definition enforcePublicAuthBearer (h : Handler) (app : App) : gate () :=
  match AuthenticateKey h with
  | None => reply (Problem 500 "Auth chain not wired" [])
  | Some auth => _ ← authenticate h auth app (www ("Bearer realm=" ++ quoted "apps")); mret tt
  end.

Definition set_auth (c : gmap (string * string) publicAuthCacheEntry) (s : State) : State :=
  mkState (cache s) (routeLimiter s) (routeConsumerLimiter s) (accountLimiter s) (limiter s) c.

(** PublicAuthCache.Get, with the loader's answer. *)
Definition auth_get (ttl : Z) (key : string * string) (loaded : option (string * string)) (now : Time)
    (c : gmap (string * string) publicAuthCacheEntry) : option (string * string) * gmap (string * string) publicAuthCacheEntry :=
  let load :=
    match loaded with
    | None => (None, delete key c)
    | Some (u, p) => (Some (u, p), <[key := mkCred u p (now + ttl)]> c)
    end in
  match c !! key with
  | Some e => if now <? expiresAt e then (Some (username e, password e), c) else load
  | None => load
  end.

Definition InvalidateByApp (app : string) (c : gmap (string * string) publicAuthCacheEntry) :=
  filter (λ kv, negb (String.eqb kv.1.1 app) = true) c.

Definition enforcePublicAuthBasic (h : Handler) (app : App) (now : Time) : gate () :=
  match UnsealBasicAuth h with
  | None => reply (Problem 500 "Auth chain not wired" [])
  | Some unseal =>
      let denied := reply (Problem 401 "Unauthorized" (www ("Basic realm=" ++ quoted "apps"))) in
      q ← request;
      match basicCredsFromHeader (Header.Get (Header_ q) "Authorization") with
      | None => denied
      | Some (user, pass) =>
          let sealed := BasicSealed (PublicAuth app) in
          creds ← on_state (λ s,
            let '(r, c) := auth_get (authTTL h) (appID app, sha256 h sealed) (unseal sealed) now (publicAuthCache s) in
            (r, set_auth c s));
          match creds with
          | None => denied
          | Some (u, p) => if String.eqb user u && String.eqb pass p then mret tt else denied
          end
      end
  end.

Definition enforcePublicAuth (h : Handler) (app : App) (now : Time) : gate () :=
  let mode := Mode (PublicAuth app) in
  if String.eqb mode "bearer" then enforcePublicAuthBearer h app
  else if String.eqb mode "basic" then enforcePublicAuthBasic h app now
  else mret tt.

(** *** The sequence *)

Definition account_limit (app : App) (now : Time) : gate () :=
  if empty (appAccountID app) then mret tt
  else
    ok ← on_state (λ s, let '(ok, l) := EdgeLimiter.AllowAccount (accountLimiter s) (appAccountID app) (appPlan app) now in
                        (ok, set_account l s));
    if ok : bool then mret tt else reply (rate_limited "account").

Definition app_limit (app : App) (now : Time) : gate () :=
  ok ← on_state (λ s, let '(ok, l) := EdgeLimiter.Allow (limiter s) (appID app) (appPlan app) now in
                      (ok, set_limiter l s));
  if ok : bool then mret tt else reply (rate_limited "app").

Definition select_sidecar (app : App) (name : string) : gate () :=
  if empty name then mret tt
  else
    match SidecarSelectorForApp app name with
    | None => reply (Problem 404 "No such sidecar" [])
    | Some port => update (set_sidecarPort port)
    end.

(** The app of the request and the sidecar its host names. *)
Definition resolve_app (h : Handler) : gate (App * string) :=
  q ← request;
  let '(appHost, sidecarName) := SplitHostSelectorWithSuffix (hostname (rHost q)) (appsSuffix h) in
  if negb (empty (appsSuffix h)) && negb (HasSuffix appHost (appsSuffix h)) then reply (Problem 404 "No such app" [])
  else
    routed ← matchAndSubstituteRoute h;
    match routed with
    | Some app => mret (app, sidecarName)
    | None =>
        match Lookup h appHost with
        | Some app => mret (app, sidecarName)
        | None => reply (Problem 404 "No such app" [])
        end
    end.

(** The gates before the throttle, which spend no token. *)
Definition free_gates (h : Handler) (app : App) : gate () :=
  _ ← applyAppsMaintenanceMode app;
  _ ← applyEdgeRuleMaintenance h app;
  _ ← matchAndApplyRedirect h app;
  _ ← matchAndApplyRewrite h app;
  _ ← applyEdgeRuleHeaders h app;
  _ ← applyEdgeRuleCORS h app;
  _ ← applyEdgeRuleJWT h app;
  _ ← applyEdgeRuleIP h app;
  _ ← applyEdgeRuleGeo h app;
  streaming ← streamingFor h app;
  applyEdgeRuleLimit h streaming app.

(** The gates from the throttle on. *)
Definition metered_gates (h : Handler) (app : App) (sidecarName : string) (now : Time) : gate () :=
  _ ← applyEdgeRuleThrottle h app now;
  _ ← update (MaxBytesReader MaxRequestBodyBytes);
  _ ← applyEdgeRuleValidate h app;
  _ ← applyEdgeRuleBudget h app;
  _ ← enforceRequireAuthn h app;
  _ ← enforcePublicAuth h app now;
  _ ← select_sidecar app sidecarName;
  _ ← account_limit app now;
  app_limit app now.

(** ServeHTTP up to ensureCapacity: an answer, or the app whose wake path takes the request. *)
Definition ServeHTTP (h : Handler) (now : Time) : gate App :=
  resolved ← resolve_app h;
  _ ← free_gates h resolved.1;
  _ ← metered_gates h resolved.1 resolved.2 now;
  mret resolved.1.

(** ** What the gates promise *)

Section spec.
Context (h : Handler) (db : string → list EdgeRule).

(** The rule of a kind that the table has for the request, when it belongs to the app's account. *)
Definition rule_of {B} (get : HostEntry → slice B) (app : App) (q : Request) : option (Resolved B) :=
  if negb (edgeRules h) then None
  else
    fresh (validate_compiler h) get db (hostname (rHost q)) (Path q) (Method q) ≫= λ r,
    if same_account app r then Some r else None.

Definition bearer (q : Request) : string := bearerTokenFromHeader (Header.Get (Header_ q) "Authorization").

(** The request is streamed: the operator, the app and its plan allow it, and it is no upgrade. *)
Definition streams (app : App) (q : Request) : bool :=
  streamingEnabled h && StreamingEnabled app && Plan.accessor false Limits.StreamingEnabled (appPlan app)
  && negb (isUpgradeRequest (Header_ q)).

(** The body cap a limit rule sets for a request. *)
Definition rule_cap (app : App) (q : Request) (a : EdgeRuleLimitAction) : Z :=
  if streams app q && (0 <? MaxBodyBytesStreaming a) then MaxBodyBytesStreaming a else MaxBodyBytes a.

Definition jwt_ok (app : App) (q : Request) : Prop :=
  ∀ verify r, jwtVerifier h = Some verify → rule_of eJWT app q = Some r → ∃ claims, verify (bearer q) r = inr claims.

Definition ip_ok (app : App) (q : Request) : Prop :=
  ∀ r, rule_of eIP app q = Some r →
  ∃ ip, clientIPFromTrustedXFF (Header_ q) = Some ip
        ∧ (∀ n, n ∈ Deny (payload r) → Net.Contains n ip = false)
        ∧ (Allow (payload r) = [] ∨ ∃ n, n ∈ Allow (payload r) ∧ Net.Contains n ip = true).

Definition geo_ok (app : App) (q : Request) : Prop :=
  ∀ lookup r, geoReader h = Some lookup → rule_of eGeo app q = Some r →
  ∃ ip, clientIPFromTrustedXFF (Header_ q) = Some ip
        ∧ ∀ country, lookup ip = inr (Some country) →
          (country ∉ CountryDeny (payload r)) ∧ (CountryAllow (payload r) = ∅ ∨ country ∈ CountryAllow (payload r)).

Definition blocks (mode : string) : Prop := mode ≠ "observe"%string ∧ mode ≠ "warn"%string.

Definition validate_ok (app : App) (q : Request) : Prop :=
  ∀ validate r, validator h = Some validate → rule_of eValidate app q = Some r →
  let a := validateAction (payload r) in
  let ct := Header.Get (Header_ q) "Content-Type" in
  (ApplyWhileStreaming a = false ∧ isUpgradeRequest (Header_ q) = true)
  ∨ ((ContentTypes a = [] ∨ contentTypeAllowed ct (ContentTypes a) = true)
     ∧ ∃ valid, validate (Body q) ct r = inr valid ∧ (blocks (ValidateMode a) → valid = true)).

(** The bearer token of the request is a key of the account that owns the app. *)
Definition key_ok (app : App) (q : Request) : Prop :=
  ∃ auth key, AuthenticateKey h = Some auth ∧ ValidAPIKeyFormat (bearer q) = true
              ∧ auth (canceled q) (sha256 h (bearer q)) = inr (appAccountID app, key).

(** The credentials of the request are those sealed for the app, up to a collision of the hash. *)
Definition basic_ok (app : App) (q : Request) : Prop :=
  ∃ unseal sealed creds, UnsealBasicAuth h = Some unseal ∧ sha256 h sealed = sha256 h (BasicSealed (PublicAuth app))
    ∧ basicCredsFromHeader (Header.Get (Header_ q) "Authorization") = Some creds ∧ unseal sealed = Some creds.


(** The credential cache holds what the unsealer returned for some ciphertext of that hash. *)
Definition creds_ok (c : gmap (string * string) publicAuthCacheEntry) : Prop :=
  ∀ app hash e, c !! (app, hash) = Some e →
  ∃ unseal sealed, UnsealBasicAuth h = Some unseal ∧ sha256 h sealed = hash
                   ∧ unseal sealed = Some (username e, password e).

Record ok (s : State) : Prop := {
  ok_cache : coherent (validate_compiler h) db (cache s);
  ok_creds : creds_ok (publicAuthCache s);
}.

End spec.

(** ** Running the monad *)

Lemma bind_inr {A B} (m : gate A) (f : A → gate B) q s b w :
  (m ≫= f) q s = (inr b, w) → ∃ a q1 s1, m q s = (inr a, (q1, s1)) ∧ f a q1 s1 = (inr b, w).
Proof.
  unfold mbind, gate_bind. destruct (m q s) as [[r|a] [q1 s1]]; [done|]. eauto.
Qed.

(** Take a hypothesis apart that says that a gate handed the request on. *)
Ltac passes H :=
  lazymatch type of H with
  | (_ ≫= _) _ _ = (inr _, _) =>
      let Hm := fresh "Hm" in
      apply bind_inr in H as (? & ? & ? & Hm & H); passes Hm; cbn beta in H; passes H
  | mret _ _ _ = (inr _, _) => unfold mret, gate_ret in H; simplify_eq
  | request _ _ = (inr _, _) => unfold request in H; simplify_eq
  | update _ _ _ = (inr _, _) => unfold update in H; simplify_eq
  | reply _ _ _ = (inr _, _) => discriminate H
  | _ => idtac
  end.

Section run.
Context (h : Handler) (db : string → list EdgeRule).
Hypothesis Hstore : store h = store_of db false.

Abbreviation ok := (ok h db).
Abbreviation rule_of := (rule_of h db).

Lemma ok_set_cache s c : ok s → coherent (validate_compiler h) db c → ok (set_cache c s).
Proof. intros [_ ?] ?. by split. Qed.

(** The matcher answers from the table. *)
Lemma rule_for_run {A B} (get : HostEntry → slice B) kind (action : EdgeRuleAction → option A) resolve
    `{!Compiled (validate_compiler h) get kind action resolve} nil_misses q s :
  ok s →
  ∃ s', ok s' ∧ rule_for h (match_kind nil_misses get) q s
                = (inr (EdgeRules.fresh (validate_compiler h) get db (hostname (rHost q)) (Path q) (Method q)), (q, s')).
Proof.
  intros Hs. unfold rule_for, request, on_state, mbind, gate_bind. rewrite Hstore.
  pose proof (match_kind_fresh (validate_compiler h) get kind action resolve nil_misses db (cache s) false
                (hostname (rHost q)) (Path q) (Method q) (ok_cache _ _ _ Hs)) as Hf.
  pose proof (match_kind_coherent (validate_compiler h) nil_misses get db (cache s) false
                (hostname (rHost q)) (Path q) (Method q) (ok_cache _ _ _ Hs)) as Hc.
  destruct (match_kind _ _ _ _ _ _ _ _) as [r c]. cbn in Hf, Hc. subst r.
  exists (set_cache c s). split; [by apply ok_set_cache|done].
Qed.

Lemma own_rule_run {A B} (get : HostEntry → slice B) kind (action : EdgeRuleAction → option A) resolve
    `{!Compiled (validate_compiler h) get kind action resolve} nil_misses app q s :
  ok s → ∃ s', ok s' ∧ own_rule h (match_kind nil_misses get) app q s = (inr (rule_of get app q), (q, s')).
Proof.
  intros Hs. unfold own_rule, EdgeGates.rule_of. destruct (negb (edgeRules h)).
  - by exists s.
  - destruct (rule_for_run get kind action resolve nil_misses q s Hs) as (s' & Hs' & E).
    exists s'. split; [done|]. unfold mbind, gate_bind. by rewrite E.
Qed.

(** [own H]: the gate in [H] starts by asking for the rule of a kind. *)
Ltac own H Hs :=
  let s1 := fresh "s1" in let Hs1 := fresh "Hs1" in let E := fresh "E" in
  lazymatch type of H with
  | own_rule _ ?m ?app ?q ?s = _ =>
      lazymatch m with
      | context [match_kind ?nm ?get] => idtac
      | _ => unfold MatchRewrite, MatchRedirect, MatchHeaders, MatchJWT, MatchIP, MatchValidate, MatchLimit,
               MatchMaintenance, MatchGeo, MatchThrottle, MatchBudget in H
      end;
      lazymatch type of H with
      | own_rule _ (match_kind ?nm ?get) ?app ?q ?s = _ =>
          destruct (own_rule_run get _ _ _ nm app q s Hs) as (s1 & Hs1 & E); rewrite E in H; simplify_eq
      end
  end.

Lemma maintenance_passed app q s q' s' :
  ok s → applyEdgeRuleMaintenance h app q s = (inr tt, (q', s')) →
  ok s' ∧ q' = q ∧ rule_of eMaintenance app q = None.
Proof.
  intros Hs H. unfold applyEdgeRuleMaintenance in H. passes H. own Hm Hs.
  destruct (rule_of eMaintenance app _) eqn:Hr; passes H. done.
Qed.

Lemma redirect_passed app q s q' s' :
  ok s → matchAndApplyRedirect h app q s = (inr tt, (q', s')) →
  ok s' ∧ q' = q ∧ rule_of eRedirect app q = None.
Proof.
  intros Hs H. unfold matchAndApplyRedirect in H. passes H. own Hm Hs.
  destruct (rule_of eRedirect app _) eqn:Hr; passes H. done.
Qed.

Lemma rewrite_passed app q s q' s' :
  ok s → matchAndApplyRewrite h app q s = (inr tt, (q', s')) →
  ok s' ∧ q' = match rule_of eRewrite app q with
               | Some r => set_path (rewrite_path (payload r) (Path q)) q
               | None => q
               end.
Proof.
  intros Hs H. unfold matchAndApplyRewrite in H. passes H. own Hm Hs.
  destruct (rule_of eRewrite app _) eqn:Hr; passes H; done.
Qed.

Lemma headers_passed app q s q' s' :
  ok s → applyEdgeRuleHeaders h app q s = (inr tt, (q', s')) →
  ok s' ∧ q' = match rule_of eHeaders app q with
               | Some r => installHeaderOps (ResponseHeaders (payload r))
                             (set_header (foldl applyHeaderOp (Header_ q) (RequestHeaders (payload r))) q)
               | None => q
               end.
Proof.
  intros Hs H. unfold applyEdgeRuleHeaders in H. passes H. own Hm Hs.
  destruct (rule_of eHeaders app _) eqn:Hr; passes H; done.
Qed.

Lemma ip_passed app q s q' s' :
  ok s → applyEdgeRuleIP h app q s = (inr tt, (q', s')) → ok s' ∧ q' = q ∧ ip_ok h db app q.
Proof.
  intros Hs H. unfold applyEdgeRuleIP in H. passes H. own Hm Hs. unfold ip_ok.
  destruct (rule_of eIP app _) as [r|] eqn:Hr; passes H; [|done].
  destruct (clientIPFromTrustedXFF _) as [ip|] eqn:Hip; passes H.
  destruct (existsb _ (Deny _)) eqn:Hd; passes H.
  assert (∀ n, n ∈ Deny (payload r) → Net.Contains n ip = false) as Hdeny.
  { intros n Hn. apply not_true_iff_false. intros Hc. apply not_true_iff_false in Hd. apply Hd.
    apply existsb_exists. exists n. by rewrite <- list_elem_of_In. }
  clear Hd. destruct (Allow (payload r)) as [|n l] eqn:Ha; passes H.
  - split_and!; [done|done|]. intros ? [= <-]. exists ip. split_and!; [done|done|by left].
  - destruct (existsb _ _) eqn:He; passes H. split_and!; [done|done|]. intros ? [= <-].
    apply existsb_exists in He as (m & Hin & Hc). rewrite <- list_elem_of_In in Hin. exists ip. rewrite Ha.
    split_and!; [done|done|right; by exists m].
Qed.

Lemma geo_passed app q s q' s' :
  ok s → applyEdgeRuleGeo h app q s = (inr tt, (q', s')) → ok s' ∧ q' = q ∧ geo_ok h db app q.
Proof.
  intros Hs H. unfold applyEdgeRuleGeo in H. unfold geo_ok.
  destruct (geoReader h) as [lookup|]; passes H; [|done]. own Hm Hs.
  destruct (rule_of eGeo app _) as [r|] eqn:Hr; passes H; [|done].
  destruct (clientIPFromTrustedXFF _) as [ip|] eqn:Hip; passes H.
  assert (∀ country, lookup ip = inr (Some country) → country ∉ CountryDeny (payload r)
            ∧ (CountryAllow (payload r) = ∅ ∨ country ∈ CountryAllow (payload r))) as Hc.
  { intros country Hl. rewrite Hl in H.
    case_bool_decide; passes H. split; [done|]. case_bool_decide; [by left|].
    cbn in H. case_bool_decide; passes H; by right. }
  assert ((x2, x3) = (q', s')) as [= <- <-].
  { destruct (lookup ip) as [|[country|]]; passes H; try done.
    destruct (bool_decide _); passes H. destruct (negb _ && negb _); by passes H. }
  split_and!; [done|done|]. intros ? ? [= <-] [= <-]. by exists ip.
Qed.

(** The fields of a request the rules are matched on. *)
Record same_wire (q q' : Request) : Prop := {
  wire_host : rHost q' = rHost q;
  wire_path : Path q' = Path q;
  wire_method : Method q' = Method q;
  wire_header : Header_ q' = Header_ q;
}.

Lemma jwt_passed app q s q' s' :
  ok s → applyEdgeRuleJWT h app q s = (inr tt, (q', s')) →
  ok s' ∧ (q' = q ∨ ∃ a, q' = set_authenticated a q ∧ APIKeyID a = EmptyString) ∧ jwt_ok h db app q.
Proof.
  intros Hs H. unfold applyEdgeRuleJWT in H. unfold jwt_ok.
  destruct (jwtVerifier h) as [verify|]; passes H; [|split_and!; [done|by left|done]]. own Hm Hs.
  destruct (rule_of eJWT app _) as [r|] eqn:Hr; passes H; [|split_and!; [done|by left|done]].
  destruct (empty _); passes H. destruct (verify _ r) as [e|claims] eqn:Hv; passes H.
  split_and!; [done|right; by eexists|]. intros ? ? [= <-] [= <-]. eauto.
Qed.

Lemma cors_passed app q s q' s' :
  ok s → applyEdgeRuleCORS h app q s = (inr tt, (q', s')) → ok s' ∧ ∃ ops, q' = installHeaderOps ops q.
Proof.
  intros Hs H. unfold applyEdgeRuleCORS in H.
  destruct (negb (edgeRules h)); [passes H; split; [done|by exists []]|]. passes H.
  destruct (rule_for_run eCORS "cors" CORS verbatim false q s Hs) as (s1 & Hs1 & E).
  unfold MatchCORS in Hm. rewrite E in Hm. simplify_eq.
  destruct (EdgeRules.fresh _ _ _ _ _ _) as [r|]; passes H.
  - destruct (negb (same_account app r)); passes H; [split; [done|by exists []]|].
    destruct (negb _ && empty _); passes H; [split; [done|by exists []]|].
    destruct (String.eqb _ "OPTIONS"); passes H. eauto.
  - split; [done|]. unfold cors_default.
    destruct (CORSDefaultEnabled app) as [[]|]; [|by exists []|by exists []].
    destruct (CORSDefaultOrigins app); [by exists []|]. destruct (empty _); [by exists []|]. eauto.
Qed.

Lemma streaming_passed app q s b q' s' :
  ok s → streamingFor h app q s = (inr b, (q', s')) → ok s' ∧ q' = q ∧ b = streams h app q.
Proof.
  intros Hs H. unfold streamingFor, decideStreaming in H. passes H. unfold streams.
  destruct (streamingEnabled h); cbn [negb andb] in Hm |- *; [|by passes Hm].
  destruct (StreamingEnabled app); cbn [negb andb] in Hm |- *; [|by passes Hm].
  destruct (Plan.accessor _ _ _); cbn [negb andb] in Hm |- *; [|by passes Hm]. passes Hm.
  destruct (isUpgradeRequest _); [by passes Hm|]. passes Hm.
  match goal with H : own_rule _ _ _ _ _ = _ |- _ => own H Hs end.
  destruct (match rule_of eLimit app _ with Some _ => _ | None => _ end) as [cap kind]. by passes Hm.
Qed.

(** Compiled rules are in range, so clamping the cap again changes nothing. *)
Lemma limit_cap_rule app q r streaming :
  rule_of eLimit app q = Some r →
  limit_cap (payload r) streaming
  = if streaming && (0 <? MaxBodyBytesStreaming (payload r)) then MaxBodyBytesStreaming (payload r)
    else MaxBodyBytes (payload r).
Proof.
  unfold EdgeGates.rule_of. destruct (negb _); [done|]. intros (r' & Hr & Hsame)%bind_Some.
  case_match; simplify_eq.
  apply (fresh_payload _ eLimit "limit" Limit resolve_limit) in Hr as (row & a & Ha).
  unfold resolve_limit in Ha. simplify_eq. rewrite <- Ha. unfold limit_cap. cbn [MaxBodyBytes MaxBodyBytesStreaming].
  unfold MaxRequestBodyBytes, RawStreamMaxRequestBytes. repeat case_match; breflect; try lia;
    rewrite ?andb_true_iff, ?orb_true_iff, ?orb_false_iff in *; breflect; lia.
Qed.

Lemma limit_passed app streaming q s q' s' :
  ok s → applyEdgeRuleLimit h streaming app q s = (inr tt, (q', s')) →
  ok s' ∧ q' = match rule_of eLimit app q with
               | Some r => MaxBytesReader (limit_cap (payload r) streaming) q
               | None => q
               end
  ∧ ∀ r, rule_of eLimit app q = Some r → ContentLength q ≤ limit_cap (payload r) streaming ∨ ContentLength q ≤ 0.
Proof.
  intros Hs H. unfold applyEdgeRuleLimit in H. passes H. own Hm Hs.
  destruct (rule_of eLimit app _) as [r|] eqn:Hr; passes H; [|done].
  destruct (_ && _) eqn:Hc; passes H. split_and!; [done|done|]. intros ? [= <-].
  apply andb_false_iff in Hc as [Hc|Hc]; breflect; [by right|by left].
Qed.

Lemma on_state_inr {A} (f : State → A * State) q s a q' s' :
  on_state f q s = (inr a, (q', s')) → q' = q ∧ f s = (a, s').
Proof. unfold on_state. destruct (f s). intros. by simplify_eq. Qed.

(** Only the cache and the credentials matter to [ok]. *)
Lemma ok_frame s s' : ok s → cache s' = cache s → publicAuthCache s' = publicAuthCache s → ok s'.
Proof. intros [? ?] Hc Ha. split; [by rewrite Hc|by rewrite Ha]. Qed.

Lemma throttle_frame app r authed now s :
  cache (throttle_allows app r authed now s).2 = cache s
  ∧ publicAuthCache (throttle_allows app r authed now s).2 = publicAuthCache s.
Proof. unfold throttle_allows. repeat case_match; done. Qed.

Lemma throttle_passed app now q s q' s' :
  ok s → applyEdgeRuleThrottle h app now q s = (inr tt, (q', s')) → ok s' ∧ q' = q.
Proof.
  intros Hs H. unfold applyEdgeRuleThrottle in H. passes H. own Hm Hs.
  destruct (rule_of eThrottle app _) as [r|]; passes H; [|done].
  match goal with H : on_state _ _ _ = _ |- _ => apply on_state_inr in H as [-> Ht] end.
  destruct x as [|]; passes H. split; [|done].
  match type of Ht with throttle_allows _ _ ?a _ ?s0 = _ => pose proof (throttle_frame app r a now s0) as [Hc Ha] end.
  rewrite Ht in Hc, Ha. by eapply ok_frame.
Qed.

Lemma sidecar_passed app name q s q' s' :
  select_sidecar app name q s = (inr tt, (q', s')) → s' = s ∧ (q' = q ∨ ∃ p, q' = set_sidecarPort p q).
Proof.
  intros H. unfold select_sidecar in H. destruct (empty name); passes H; [by auto|].
  destruct (SidecarSelectorForApp app name); passes H. eauto.
Qed.

Lemma account_limit_passed app now q s q' s' :
  ok s → account_limit app now q s = (inr tt, (q', s')) → ok s' ∧ q' = q.
Proof.
  intros Hs H. unfold account_limit in H. destruct (empty _); passes H; [done|].
  apply on_state_inr in Hm as [-> Ht]. destruct (EdgeLimiter.AllowAccount _ _ _ _). simplify_eq.
  destruct x as [|]; passes H. split; [|done]. by eapply ok_frame.
Qed.

Lemma app_limit_passed app now q s q' s' :
  ok s → app_limit app now q s = (inr tt, (q', s')) → ok s' ∧ q' = q.
Proof.
  intros Hs H. unfold app_limit in H. passes H.
  apply on_state_inr in Hm as [-> Ht]. destruct (EdgeLimiter.Allow _ _ _ _). simplify_eq.
  destruct x as [|]; passes H. split; [|done]. by eapply ok_frame.
Qed.

Lemma budget_passed app q s q' s' :
  ok s → applyEdgeRuleBudget h app q s = (inr tt, (q', s')) →
  ok s' ∧ q' = if edgeRules h then
                 stampRequestBudget (match rule_of eBudget app q with
                                     | None => plan_budget (appPlan app)
                                     | Some r => rule_budget (payload r) (appPlan app) (Header_ q)
                                     end) q
               else q.
Proof.
  intros Hs H. unfold applyEdgeRuleBudget in H. destruct (edgeRules h) eqn:He; cbn in H; passes H; [|done].
  own Hm Hs. done.
Qed.

Lemma authenticate_passed auth app headers q s key q' s' :
  AuthenticateKey h = Some auth → authenticate h auth app headers q s = (inr key, (q', s')) →
  s' = s ∧ q' = q ∧ key_ok h app q.
Proof.
  intros Ha H. unfold authenticate in H. passes H.
  destruct (empty _ || negb _) eqn:Hb; passes H. apply orb_false_iff in Hb as [_ Hv].
  destruct (auth _ _) as [e|[acct k]] eqn:Hauth; passes H.
  destruct (String.eqb acct (appAccountID app)) eqn:Hacct; passes H. apply String.eqb_eq in Hacct as ->.
  split_and!; [done|done|]. exists auth, key. apply negb_false_iff in Hv. done.
Qed.

Lemma authn_passed app q s q' s' :
  enforceRequireAuthn h app q s = (inr tt, (q', s')) →
  s' = s ∧ (q' = q ∨ ∃ a, q' = set_authenticated a q)
  ∧ (RequireAuthn app = true → AuthenticateKey h ≠ None → key_ok h app q).
Proof.
  intros H. unfold enforceRequireAuthn in H.
  destruct (RequireAuthn app), (AuthenticateKey h) as [auth|] eqn:Ha; passes H;
    [|by split_and!; [|left|]..].
  eapply authenticate_passed in Hm as (-> & -> & Hk); [|done]. split_and!; [done|right; by eexists|done].
Qed.

Lemma auth_get_sound ttl unseal app sealed now c r c' :
  UnsealBasicAuth h = Some unseal → creds_ok h c →
  auth_get ttl (app, sha256 h sealed) (unseal sealed) now c = (r, c') →
  creds_ok h c' ∧ ∀ creds, r = Some creds → ∃ sealed', sha256 h sealed' = sha256 h sealed ∧ unseal sealed' = Some creds.
Proof.
  intros Hu Hc H. unfold auth_get in H.
  assert (match unseal sealed with
          | Some (u, p) => (Some (u, p), <[(app, sha256 h sealed) := mkCred u p (now + ttl)]> c)
          | None => (None, delete (app, sha256 h sealed) c)
          end = (r, c') →
          creds_ok h c' ∧ ∀ creds, r = Some creds → ∃ sealed', sha256 h sealed' = sha256 h sealed ∧ unseal sealed' = Some creds) as Hload.
  { clear H. destruct (unseal sealed) as [[u p]|] eqn:E; intros [= <- <-]; (split; [|naive_solver]).
    - intros a hash e [[[= <- <-] <-]|[_ He]]%lookup_insert_Some; [|by apply (Hc a)].
      by exists unseal, sealed.
    - intros a hash e [_ He]%lookup_delete_Some. by apply (Hc a). }
  destruct (c !! (app, sha256 h sealed)) as [e|] eqn:He; [|by apply Hload].
  destruct (now <? expiresAt e); [|by apply Hload]. simplify_eq. split; [done|]. intros ? [= <-].
  destruct (Hc app _ e He) as (unseal' & sealed' & Hu' & ? & ?). rewrite Hu in Hu'. simplify_eq. eauto.
Qed.

Lemma basic_passed app now q s q' s' :
  ok s → enforcePublicAuthBasic h app now q s = (inr tt, (q', s')) → ok s' ∧ q' = q ∧ basic_ok h app q.
Proof.
  intros Hs H. unfold enforcePublicAuthBasic in H.
  destruct (UnsealBasicAuth h) as [unseal|] eqn:Hu; passes H.
  destruct (basicCredsFromHeader _) as [[user pass]|] eqn:Hb; passes H.
  match goal with H : on_state _ _ _ = _ |- _ => apply on_state_inr in H as [-> Hg] end.
  destruct (auth_get _ _ _ _ _) as [r c] eqn:Ha. simplify_eq.
  eapply auth_get_sound in Ha as [Hc Hr]; [|done|apply Hs].
  destruct x as [[u p]|]; passes H. destruct (_ && _) eqn:He; passes H.
  apply andb_true_iff in He as [->%String.eqb_eq ->%String.eqb_eq].
  split_and!; [split; [apply Hs|done]|done|]. destruct (Hr _ eq_refl) as (sealed & ? & ?).
  by exists unseal, sealed, (u, p).
Qed.

Lemma public_passed app now q s q' s' :
  ok s → enforcePublicAuth h app now q s = (inr tt, (q', s')) →
  ok s' ∧ q' = q ∧ (Mode (PublicAuth app) = "bearer"%string → key_ok h app q)
  ∧ (Mode (PublicAuth app) = "basic"%string → basic_ok h app q).
Proof.
  intros Hs H. unfold enforcePublicAuth in H.
  destruct (String.eqb_spec (Mode (PublicAuth app)) "bearer") as [->|Hb].
  - unfold enforcePublicAuthBearer in H. destruct (AuthenticateKey h) as [auth|] eqn:Ha; passes H.
    eapply authenticate_passed in Hm as (-> & -> & Hk); [|done]. done.
  - destruct (String.eqb_spec (Mode (PublicAuth app)) "basic") as [->|Hb'].
    + apply basic_passed in H as (? & -> & ?); done.
    + by passes H.
Qed.

Lemma ReadAll_body q body : ReadAll q = inr body → body = Body q ∧ ∀ cap, cap ∈ bodyCaps q → Z.of_nat (String.length body) ≤ cap.
Proof.
  unfold ReadAll. destruct (existsb _ _) eqn:E; [done|]. destruct (bodyBroken q); [done|]. intros [= <-].
  split; [done|]. intros cap Hcap. apply not_true_iff_false in E.
  destruct (cap <? Z.of_nat (String.length (Body q))) eqn:Hlt; breflect; [|lia].
  destruct E. apply existsb_exists. exists cap. split; [by rewrite <- list_elem_of_In|]. by apply Z.ltb_lt.
Qed.

(** The request after kind=validate: untouched, or its body read within its caps and put back. *)
Definition body_read (q q' : Request) : Prop :=
  q' = q
  ∨ ∃ ops, q' = installHeaderOps ops (set_body (Body q) false [] q)
           ∧ ∀ cap, cap ∈ bodyCaps q → Z.of_nat (String.length (Body q)) ≤ cap.

Lemma validate_passed app q s q' s' :
  ok s → applyEdgeRuleValidate h app q s = (inr tt, (q', s')) →
  ok s' ∧ body_read q q' ∧ validate_ok h db app q.
Proof.
  intros Hs H. unfold applyEdgeRuleValidate in H. unfold validate_ok.
  destruct (validator h) as [validate|]; passes H; [|split_and!; [done|by left|done]]. own Hm Hs.
  destruct (rule_of eValidate app _) as [r|] eqn:Hr; passes H; [|split_and!; [done|by left|done]].
  destruct (negb _ && _) eqn:Hup; passes H.
  { apply andb_true_iff in Hup as [?%negb_true_iff ?]. split_and!; [done|by left|].
    intros ? ? [= <-] [= <-]. by left. }
  destruct (match ContentTypes _ with [] => _ | _ => _ end) eqn:Hct; passes H.
  match goal with H : context [ReadAll ?x] |- _ => destruct (ReadAll x) as [[]|body] eqn:Hread end; passes H.
  apply ReadAll_body in Hread as [-> Hcap]. cbn in Hcap, H.
  destruct (validate _ _ r) as [[]|valid] eqn:Hv; passes H.
  assert (∀ ops, q' = installHeaderOps ops (set_body (Body x2) false [] x2) → body_read x2 q') as Hbr.
  { intros ops ->. right. exists ops. split; [done|]. intros cap ?. apply Hcap. by right. }
  assert (ContentTypes (validateAction (payload r)) = []
          ∨ contentTypeAllowed (Header.Get (Header_ x2) "Content-Type") (ContentTypes (validateAction (payload r))) = true) as Hc.
  { destruct (ContentTypes _); [by left|right]. by apply negb_false_iff. }
  assert (ok s' ∧ body_read x2 q' ∧ (blocks (ValidateMode (validateAction (payload r))) → valid = true)) as (? & ? & ?).
  { destruct valid; passes H; [by split_and!; [|apply (Hbr [])|]|].
    destruct (String.eqb_spec (ValidateMode (validateAction (payload r))) "observe") as [->|]; passes H.
    { split_and!; [done|by apply (Hbr [])|by intros []]. }
    destruct (String.eqb_spec (ValidateMode (validateAction (payload r))) "warn") as [->|]; passes H.
    split_and!; [done|by eapply Hbr|by intros []]. }
  split_and!; [done|done|]. intros ? ? [= <-] [= <-]. right. eauto.
Qed.

(** *** The sequence *)

#[local] Instance same_wire_refl : Reflexive same_wire.
Proof. by split. Qed.
#[local] Instance same_wire_trans : Transitive same_wire.
Proof. intros q1 q2 q3 [] []. split; congruence. Qed.

Lemma wire_install ops q : same_wire q (installHeaderOps ops q).
Proof. by destruct ops. Qed.

Lemma rule_of_wire {B} (get : HostEntry → slice B) app q q' : same_wire q q' → rule_of get app q' = rule_of get app q.
Proof. intros [Hh Hp Hm _]. unfold EdgeGates.rule_of. by rewrite Hh, Hp, Hm. Qed.

(** The checks of a request that only read the fields the rules are matched on. *)
Record checked (app : App) (q : Request) : Prop := {
  checked_jwt : jwt_ok h db app q;
  checked_ip : ip_ok h db app q;
  checked_geo : geo_ok h db app q;
}.

Lemma checked_wire app q q' : same_wire q q' → checked app q → checked app q'.
Proof.
  intros Hw [Hj Hi Hg]. pose proof (wire_header _ _ Hw) as Hh.
  split; [unfold jwt_ok, bearer|unfold ip_ok|unfold geo_ok]; rewrite (rule_of_wire _ _ _ _ Hw), Hh; done.
Qed.

(** What the gates before the throttle leave of a request. *)
Record freed (app : App) (q q' : Request) : Prop := {
  freed_maintenance : rule_of eMaintenance app q = None;
  freed_redirect : rule_of eRedirect app q = None;
  freed_host : rHost q' = rHost q;
  freed_method : Method q' = Method q;
  freed_path : Path q' = match rule_of eRewrite app q with
                         | Some r => rewrite_path (payload r) (Path q)
                         | None => Path q
                         end;
  freed_header : Header_ q' = match rule_of eHeaders app (set_path (Path q') q) with
                              | Some r => foldl applyHeaderOp (Header_ q) (RequestHeaders (payload r))
                              | None => Header_ q
                              end;
  freed_body : Body q' = Body q;
  freed_length : ContentLength q' = ContentLength q;
  freed_key : APIKeyID (authenticated q) = EmptyString → APIKeyID (authenticated q') = EmptyString;
  freed_canceled : canceled q' = canceled q;
  freed_caps : ∀ r, rule_of eLimit app q' = Some r →
    rule_cap h app q' (payload r) ∈ bodyCaps q'
    ∧ (0 < ContentLength q' → ContentLength q' ≤ rule_cap h app q' (payload r));
}.

(** Rewrite and headers, the two gates that change what the later ones see. *)
Lemma rewritten_passed app q s q1 s1 q2 s2 :
  ok s → matchAndApplyRewrite h app q s = (inr tt, (q1, s1)) → applyEdgeRuleHeaders h app q1 s1 = (inr tt, (q2, s2)) →
  ok s2 ∧ rHost q2 = rHost q ∧ Method q2 = Method q ∧ Body q2 = Body q ∧ ContentLength q2 = ContentLength q
  ∧ authenticated q2 = authenticated q ∧ canceled q2 = canceled q
  ∧ Path q2 = match rule_of eRewrite app q with Some r => rewrite_path (payload r) (Path q) | None => Path q end
  ∧ Header_ q2 = match rule_of eHeaders app (set_path (Path q2) q) with
                 | Some r => foldl applyHeaderOp (Header_ q) (RequestHeaders (payload r))
                 | None => Header_ q
                 end.
Proof.
  intros Hs H1 H2. apply rewrite_passed in H1 as [Hs1 Hq1]; [|done]. apply headers_passed in H2 as [Hs2 Hq2]; [|done].
  assert (rule_of eHeaders app q1 = rule_of eHeaders app (set_path (Path q1) q)) as Hr.
  { subst q1. by destruct (rule_of eRewrite app q). }
  rewrite Hr in Hq2. clear Hr.
  assert (Path q2 = Path q1) as ->.
  { subst q2. destruct (rule_of eHeaders app _) as [r|]; [|done]. by destruct (ResponseHeaders (payload r)). }
  subst q2. destruct (rule_of eHeaders app _) as [r|].
  - destruct (ResponseHeaders (payload r)); subst q1; destruct (rule_of eRewrite app q); by split_and!.
  - subst q1; destruct (rule_of eRewrite app q); by split_and!.
Qed.

Lemma free_gates_passed app q s q' s' :
  ok s → free_gates h app q s = (inr tt, (q', s')) →
  ok s' ∧ MaintenanceMode app = false ∧ freed app q q' ∧ checked app q'.
Proof.
  intros Hs H. unfold free_gates in H.
  apply bind_inr in H as ([] & q0 & s0 & H0 & H). unfold applyAppsMaintenanceMode in H0.
  destruct (MaintenanceMode app) eqn:Hmm; passes H0.
  apply bind_inr in H as ([] & ? & ? & Hm & H). apply maintenance_passed in Hm as (Hs1 & -> & Hmt); [|done].
  apply bind_inr in H as ([] & ? & ? & Hm & H). apply redirect_passed in Hm as (Hs2 & -> & Hrd); [|done].
  apply bind_inr in H as ([] & q1 & s1 & H1 & H). apply bind_inr in H as ([] & q2 & s2 & H2 & H).
  destruct (rewritten_passed _ _ _ _ _ _ _ Hs2 H1 H2) as (Hs3 & Hh & Hme & Hb & Hl & Hau & Hca & Hp & Hhd).
  apply bind_inr in H as ([] & ? & ? & Hm & H). apply cors_passed in Hm as (Hs4 & ops & ->); [|done].
  pose proof (wire_install ops q2) as Hw. set (q3 := installHeaderOps ops q2) in *.
  apply bind_inr in H as ([] & q4 & s4 & Hm & H). apply jwt_passed in Hm as (Hs5 & Hq4 & Hj); [|done].
  apply bind_inr in H as ([] & ? & ? & Hm & H). apply ip_passed in Hm as (Hs6 & -> & Hi); [|done].
  apply bind_inr in H as ([] & ? & ? & Hm & H). apply geo_passed in Hm as (Hs7 & -> & Hg); [|done].
  apply bind_inr in H as (streaming & ? & ? & Hm & H). apply streaming_passed in Hm as (Hs8 & -> & ->); [|done].
  apply limit_passed in H as (Hs9 & Hq' & Hcl); [|done].
  assert (same_wire q3 q4) as Hw4. { destruct Hq4 as [->|(a & -> & _)]; by split. }
  assert (same_wire q4 q') as Hw'. { subst q'. by destruct (rule_of eLimit app q4). }
  assert (same_wire q2 q') as [Wh Wp Wm Whd] by (etrans; [done|by etrans]).
  assert (Body q4 = Body q2 ∧ ContentLength q4 = ContentLength q2 ∧ canceled q4 = canceled q2
          ∧ (APIKeyID (authenticated q2) = EmptyString → APIKeyID (authenticated q4) = EmptyString)) as (B4 & L4 & C4 & A4).
  { destruct Hq4 as [->|(a & -> & Ha)]; subst q3; destruct ops; by split_and!. }
  split_and!; [done|done| |].
  - split; [done|done|congruence|congruence|congruence| | | | | |].
    + by rewrite Whd, Wp, Hhd.
    + subst q'; destruct (rule_of eLimit app q4); cbn; congruence.
    + subst q'; destruct (rule_of eLimit app q4); cbn; congruence.
    + rewrite <- Hau. intros HA%A4. by subst q'; destruct (rule_of eLimit app q4).
    + subst q'; destruct (rule_of eLimit app q4); cbn; congruence.
    + intros r Hr. rewrite (rule_of_wire _ _ _ _ Hw') in Hr.
      assert (rule_cap h app q' (payload r) = limit_cap (payload r) (streams h app q4)) as ->.
      { rewrite (limit_cap_rule app q4 r _ Hr). unfold rule_cap, streams. by rewrite (wire_header _ _ Hw'). }
      subst q'. rewrite Hr. cbn. split; [by left|]. intros. by destruct (Hcl r Hr); [|lia].
  - apply (checked_wire app q4); [done|]. split; [|done|done].
    unfold jwt_ok, bearer in *. by rewrite (rule_of_wire _ _ _ _ Hw4), (wire_header _ _ Hw4).
Qed.

Lemma plan_budget_range plan : 0 < plan_budget plan ≤ plan_ceiling plan.
Proof.
  unfold plan_budget, plan_ceiling. destruct (LimitsFor plan) as [l|].
  - unfold RequestBudgetMaxDuration, RequestBudget. set (b := _ *! _). set (c := _ *! _).
    assert (0 < RequestBudgetDefault ≤ RequestBudgetMax) by vm_decide. revert H.
    generalize RequestBudgetDefault, RequestBudgetMax. intros d m ?. repeat case_match; breflect; lia.
  - vm_decide.
Qed.

Lemma rule_budget_range a plan hd : 0 < rule_budget a plan hd ≤ plan_ceiling plan.
Proof.
  pose proof (plan_budget_range plan). unfold rule_budget.
  destruct (_ || _) eqn:E; [lia|]. apply orb_false_iff in E as [? ?]. breflect. lia.
Qed.

Lemma stamp_cancels total ceiling q :
  0 < total ≤ ceiling →
  ∃ b, stampRequestBudget total q = set_budget (Some b) (Some b) true q ∧ 0 < b ≤ ceiling.
Proof.
  intros Ht. unfold stampRequestBudget, WithRemaining. destruct (total <=? 0) eqn:E; breflect; [lia|].
  destruct (untilDeadline q) as [d|]; [|by exists total].
  destruct (0 <? d) eqn:Hd, (d <? total) eqn:Hlt; cbn; breflect; try (by exists total).
  exists d. split; [done|lia].
Qed.

(** What the gates from the throttle on leave of a request. *)
Record metered (app : App) (q q' : Request) : Prop := {
  metered_wire : same_wire q q';
  metered_body : Body q' = Body q;
  metered_caps : ∀ body, ReadAll q' = inr body →
    ∀ cap, cap = MaxRequestBodyBytes ∨ cap ∈ bodyCaps q → Z.of_nat (String.length body) ≤ cap;
  metered_budget : edgeRules h = true → canceled q' = true ∧ ∃ b, budget q' = Some b ∧ 0 < b ≤ plan_ceiling (appPlan app);
  metered_validate : validate_ok h db app q';
  metered_authn : RequireAuthn app = true → AuthenticateKey h ≠ None → key_ok h app q';
  metered_bearer : Mode (PublicAuth app) = "bearer"%string → key_ok h app q';
  metered_basic : Mode (PublicAuth app) = "basic"%string → basic_ok h app q';
}.

Lemma body_read_facts q q' :
  body_read q q' →
  same_wire q q' ∧ Body q' = Body q
  ∧ ∀ body, ReadAll q' = inr body → ∀ cap, cap ∈ bodyCaps q → Z.of_nat (String.length body) ≤ cap.
Proof.
  intros [->|(ops & -> & Hcap)].
  - split_and!; [done|done|]. intros body [-> H]%ReadAll_body. auto.
  - split_and!; [by destruct ops|by destruct ops|]. intros body [-> _]%ReadAll_body cap Hin.
    destruct ops; cbn; auto.
Qed.

(** From the validation on only the context, the stamp of the caller and the sidecar port change. *)
Record stamped (q q' : Request) : Prop := {
  stamped_wire : same_wire q q';
  stamped_body : Body q' = Body q ∧ bodyBroken q' = bodyBroken q ∧ bodyCaps q' = bodyCaps q;
  stamped_context : canceled q' = canceled q ∧ budget q' = budget q;
}.

#[local] Instance stamped_refl : Reflexive stamped.
Proof. by split. Qed.
#[local] Instance stamped_trans : Transitive stamped.
Proof. intros ? ? ? [? (? & ? & ?) [? ?]] [? (? & ? & ?) [? ?]]. split; [by etrans|split_and!; congruence..]. Qed.

Lemma key_ok_stamped app q q' : stamped q q' → key_ok h app q → key_ok h app q'.
Proof. intros [[_ _ _ Hh] _ [Hc _]]. unfold key_ok, bearer. by rewrite Hh, Hc. Qed.

Lemma basic_ok_stamped app q q' : stamped q q' → basic_ok h app q → basic_ok h app q'.
Proof. intros [[_ _ _ Hh] _ _]. unfold basic_ok. by rewrite Hh. Qed.

Lemma validate_ok_wire app q q' : same_wire q q' → Body q' = Body q → validate_ok h db app q → validate_ok h db app q'.
Proof.
  intros Hw Hb. unfold validate_ok. by rewrite (rule_of_wire _ _ _ _ Hw), (wire_header _ _ Hw), Hb.
Qed.

Lemma metered_gates_passed app name now q s q' s' :
  ok s → metered_gates h app name now q s = (inr tt, (q', s')) → ok s' ∧ metered app q q'.
Proof.
  intros Hs H. unfold metered_gates in H.
  apply bind_inr in H as ([] & ? & ? & Hm & H). apply throttle_passed in Hm as (Hs1 & ->); [|done].
  apply bind_inr in H as ([] & q1 & s1 & Hm & H). passes Hm.
  set (q1 := MaxBytesReader MaxRequestBodyBytes q) in *.
  apply bind_inr in H as ([] & q2 & s2 & Hm & H). apply validate_passed in Hm as (Hs2 & Hbr & Hv); [|done].
  apply body_read_facts in Hbr as (Hw2 & Hb2 & Hcap2).
  apply bind_inr in H as ([] & q3 & s3 & Hm & H). apply budget_passed in Hm as (Hs3 & Hq3); [|done].
  apply bind_inr in H as ([] & q4 & s4 & Hm & H). apply authn_passed in Hm as (-> & Hq4 & Hauthn).
  apply bind_inr in H as ([] & ? & s5 & Hm & H). apply public_passed in Hm as (Hs5 & -> & Hbearer & Hbasic); [|done].
  apply bind_inr in H as ([] & q6 & ? & Hm & H). apply sidecar_passed in Hm as (-> & Hq6).
  apply bind_inr in H as ([] & ? & s7 & Hm & H). apply account_limit_passed in Hm as (Hs7 & ->); [|done].
  apply app_limit_passed in H as (Hs8 & ->); [|done].
  assert (stamped q3 q4) as H34 by (destruct Hq4 as [->|[? ->]]; by split).
  assert (stamped q4 q6) as H46 by (destruct Hq6 as [->|[? ->]]; by split).
  assert (stamped q3 q6) as H36 by (by etrans).
  assert (same_wire q2 q3 ∧ Body q3 = Body q2 ∧ bodyBroken q3 = bodyBroken q2 ∧ bodyCaps q3 = bodyCaps q2
          ∧ (edgeRules h = true → canceled q3 = true ∧ ∃ b, budget q3 = Some b ∧ 0 < b ≤ plan_ceiling (appPlan app)))
    as (W3 & B3 & K3 & C3 & Hbud).
  { destruct (edgeRules h); [|by subst q3]. subst q3.
    destruct (stamp_cancels (match rule_of eBudget app q2 with
                             | None => plan_budget (appPlan app)
                             | Some r => rule_budget (payload r) (appPlan app) (Header_ q2)
                             end) (plan_ceiling (appPlan app)) q2) as (b & -> & Hb).
    { destruct (rule_of eBudget app q2); [apply rule_budget_range|apply plan_budget_range]. }
    split_and!; [done..|]. intros _. split; [done|by exists b]. }
  destruct H36 as [W6 (B6 & K6 & C6) [Ca6 Bu6]].
  assert (same_wire q1 q6) as W16 by (etrans; [done|by etrans]).
  split; [done|]. split.
  - by etrans; [|apply W16].
  - by rewrite B6, B3, Hb2.
  - intros body Hr cap Hc. apply (Hcap2 body); [|by destruct Hc as [->|?]; [left|right]].
    unfold ReadAll in *. by rewrite B6, B3, K6, K3, C6, C3 in Hr.
  - intros He. rewrite Ca6, Bu6. by apply Hbud.
  - apply (validate_ok_wire app q1); [done| |done]. by rewrite B6, B3, Hb2.
  - intros. eapply (key_ok_stamped app q3); [by etrans|auto].
  - intros. eapply (key_ok_stamped app q4); [done|auto].
  - intros. eapply (basic_ok_stamped app q4); [done|auto].
Qed.

(** The app a route rule of the table sends the request to. *)
Definition routed_app (q : Request) : option App :=
  match edgeRules h, resolveTargetApp h with
  | true, Some resolve =>
      EdgeRules.fresh (validate_compiler h) eRoute db (hostname (rHost q)) (Path q) (Method q) ≫= λ r,
      resolve (TargetAppSlug (payload r)) ≫= λ target,
      if String.eqb (appAccountID target) (rAccountID r) then Some target else None
  | _, _ => None
  end.

Lemma route_run q s :
  ok s → ∃ s', ok s' ∧ matchAndSubstituteRoute h q s = (inr (routed_app q), (q, s')).
Proof.
  intros Hs. unfold matchAndSubstituteRoute, routed_app.
  destruct (edgeRules h), (resolveTargetApp h); try (by exists s).
  destruct (rule_for_run eRoute "route" Route verbatim true q s Hs) as (s1 & Hs1 & E).
  exists s1. split; [done|]. unfold mbind at 1, gate_bind, MatchRoute. by rewrite E.
Qed.

(** How ServeHTTP finds the app: a route rule first, the router otherwise. *)
Lemma resolve_app_run q s :
  let '(appHost, name) := SplitHostSelectorWithSuffix (hostname (rHost q)) (appsSuffix h) in
  ok s → empty (appsSuffix h) || HasSuffix appHost (appsSuffix h) = true →
  ∃ s', ok s' ∧ resolve_app h q s
    = match routed_app q, Lookup h appHost with
      | Some app, _ | None, Some app => (inr (app, name), (q, s'))
      | None, None => (inl (Problem 404 "No such app" []), (q, s'))
      end.
Proof.
  destruct (SplitHostSelectorWithSuffix _ _) as [appHost name] eqn:Hsp. intros Hs Hsuf.
  destruct (route_run q s Hs) as (s' & Hs' & E). exists s'. split; [done|].
  unfold resolve_app, request, mbind, gate_bind. rewrite Hsp, <- negb_orb, Hsuf. cbn. rewrite E.
  destruct (routed_app q); [done|]. by destruct (Lookup h appHost).
Qed.

Lemma resolve_app_passed q s r q' s' :
  ok s → resolve_app h q s = (inr r, (q', s')) → ok s' ∧ q' = q.
Proof.
  intros Hs H. pose proof (resolve_app_run q s) as Hrun.
  destruct (empty (appsSuffix h) || HasSuffix (SplitHostSelectorWithSuffix (hostname (rHost q)) (appsSuffix h)).1 (appsSuffix h))
    eqn:Hsuf.
  - destruct (SplitHostSelectorWithSuffix _ _) as [appHost name]. destruct (Hrun Hs Hsuf) as (s1 & ? & E).
    rewrite E in H. destruct (routed_app q), (Lookup h appHost); by simplify_eq.
  - exfalso. revert H. unfold resolve_app, request, mbind, gate_bind.
    destruct (SplitHostSelectorWithSuffix _ _) as [appHost name]. cbn in Hsuf. by rewrite <- negb_orb, Hsuf.
Qed.

End run.

(** *** What the gates before the throttle leave of the state *)

(** The computation changes nothing but the edge-rule cache. *)
Definition cache_only {A} (m : gate A) : Prop :=
  ∀ q s, ∃ c, (m q s).2.2 = set_cache c s.

Lemma set_cache_id s : s = set_cache (cache s) s.
Proof. by destruct s. Qed.

Lemma cache_only_bind {A B} (m : gate A) (f : A → gate B) :
  cache_only m → (∀ a, cache_only (f a)) → cache_only (m ≫= f).
Proof.
  intros Hm Hf q s. destruct (Hm q s) as [c Hc]. unfold mbind, gate_bind.
  destruct (m q s) as [[r|a] [q1 s1]]; cbn in Hc; subst s1; [by exists c|].
  destruct (Hf a q1 (set_cache c s)) as [c' ->]. by exists c'.
Qed.

Lemma cache_only_ret {A} (a : A) : cache_only (mret a).
Proof. intros q s. exists (cache s). by rewrite <- set_cache_id. Qed.
Lemma cache_only_reply {A} r : cache_only (@reply A r).
Proof. intros q s. exists (cache s). by rewrite <- set_cache_id. Qed.
Lemma cache_only_request : cache_only request.
Proof. intros q s. exists (cache s). by rewrite <- set_cache_id. Qed.
Lemma cache_only_update f : cache_only (update f).
Proof. intros q s. exists (cache s). by rewrite <- set_cache_id. Qed.

Lemma cache_only_rule_for {A} h
    (m : validateCompiler → edgeRuleStore → EdgeRuleCache → string → string → string → option (Resolved A) * EdgeRuleCache) :
  cache_only (rule_for h m).
Proof.
  apply cache_only_bind; [apply cache_only_request|]. intros q' q s. unfold on_state.
  destruct (m _ _ _ _ _ _) as [r c]. by exists c.
Qed.

Create HintDb gates.
#[local] Hint Resolve cache_only_ret cache_only_reply cache_only_request cache_only_update
  cache_only_rule_for : gates.

(** Take a gate apart down to the steps of the monad. *)
Ltac frame := repeat (first [solve [auto with gates] | apply cache_only_bind; [|intros] | case_match]).

Lemma cache_only_own_rule {A} h
    (m : validateCompiler → edgeRuleStore → EdgeRuleCache → string → string → string → option (Resolved A) * EdgeRuleCache) app :
  cache_only (own_rule h m app).
Proof. unfold own_rule. frame. Qed.
#[local] Hint Resolve cache_only_own_rule : gates.

Lemma cache_only_resolve h : cache_only (resolve_app h).
Proof. unfold resolve_app, matchAndSubstituteRoute. frame. Qed.

Lemma cache_only_free h app : cache_only (free_gates h app).
Proof.
  unfold free_gates, applyAppsMaintenanceMode, applyEdgeRuleMaintenance, matchAndApplyRedirect, matchAndApplyRewrite,
    applyEdgeRuleHeaders, applyEdgeRuleCORS, applyEdgeRuleJWT, applyEdgeRuleIP, applyEdgeRuleGeo, streamingFor,
    decideStreaming, applyEdgeRuleLimit.
  frame.
Qed.

(** ** The life of a gateway *)

Definition with_answers (db : string → list EdgeRule) (fail : bool) (h : Handler) : Handler :=
  mkHandler (appsSuffix h) (edgeRules h) (store_of db fail) (validate_compiler h) (resolveTargetApp h) (Lookup h)
    (streamingEnabled h) (jwtVerifier h) (geoReader h) (validator h) (AuthenticateKey h) (UnsealBasicAuth h)
    (sha256 h) (authTTL h).

Definition with_store (db : string → list EdgeRule) (h : Handler) : Handler := with_answers db false h.

(** Requests of any kind, for which the store answers or fails, changes of the rule table, and
    invalidations of credentials; the limiters start in any state.  The history is sequential: a change is
    notified before the next request, and no request is under way when it is.  What overlapping
    requests and changes do to the cache is the subject of [reach] in EdgeRules.v. *)
Inductive reachable (h : Handler) : (string → list EdgeRule) → State → Prop :=
| reachable_start db k l1 l2 l3 l4 : reachable h db (mkState (NewEdgeRuleCache k) l1 l2 l3 l4 ∅)
| reachable_request db s now q fail :
    reachable h db s → reachable h db (ServeHTTP (with_answers db fail h) now q s).2.2
| reachable_change db db' s : reachable h db s → reachable h db' (set_cache (Reset (cache s)) s)
| reachable_invalidate db s app : reachable h db s → reachable h db (set_auth (InvalidateByApp app (publicAuthCache s)) s).

Section keeps.
Context (h : Handler) (db : string → list EdgeRule) (fail : bool).
Hypothesis Hstore : store h = store_of db fail.

Definition keeps {A} (m : gate A) : Prop := ∀ q s, ok h db s → ok h db (m q s).2.2.

Lemma keeps_bind {A B} (m : gate A) (f : A → gate B) : keeps m → (∀ a, keeps (f a)) → keeps (m ≫= f).
Proof.
  intros Hm Hf q s Hs. specialize (Hm q s Hs). unfold mbind, gate_bind.
  destruct (m q s) as [[r|a] [q1 s1]]; [done|]. by apply Hf.
Qed.

Lemma keeps_ret {A} (a : A) : keeps (mret a).
Proof. by intros q s. Qed.
Lemma keeps_reply {A} r : keeps (@reply A r).
Proof. by intros q s. Qed.
Lemma keeps_request : keeps request.
Proof. by intros q s. Qed.
Lemma keeps_update f : keeps (update f).
Proof. by intros q s. Qed.
Lemma keeps_on_state {A} (f : State → A * State) : (∀ s, ok h db s → ok h db (f s).2) → keeps (on_state f).
Proof. intros Hf q s Hs. unfold on_state. specialize (Hf s Hs). by destruct (f s). Qed.

Lemma keeps_rule_for {A} nil_misses (get : HostEntry → slice A) : keeps (rule_for h (match_kind nil_misses get)).
Proof.
  apply keeps_bind; [apply keeps_request|]. intros q. apply keeps_on_state. intros s Hs. rewrite Hstore.
  pose proof (match_kind_coherent (validate_compiler h) nil_misses get db (cache s) fail
                (hostname (rHost q)) (Path q) (Method q) (ok_cache _ _ _ Hs)) as Hc.
  destruct (match_kind _ _ _ _ _ _ _ _). by apply ok_set_cache.
Qed.

#[local] Hint Resolve keeps_ret keeps_reply keeps_request keeps_update keeps_rule_for : gates.

Ltac keep := repeat (first [solve [auto with gates] | apply keeps_bind; [|intros] | case_match]).

Lemma keeps_own_rule {A} nil_misses (get : HostEntry → slice A) app : keeps (own_rule h (match_kind nil_misses get) app).
Proof. unfold own_rule. keep. Qed.
#[local] Hint Resolve keeps_own_rule : gates.

Lemma keeps_throttle app now : keeps (applyEdgeRuleThrottle h app now).
Proof.
  unfold applyEdgeRuleThrottle, MatchThrottle. keep. apply keeps_on_state. intros s Hs.
  match goal with |- context [throttle_allows ?a ?r ?b ?t s] => destruct (throttle_frame a r b t s) end.
  by eapply ok_frame.
Qed.

Lemma keeps_basic app now : keeps (enforcePublicAuthBasic h app now).
Proof.
  unfold enforcePublicAuthBasic. destruct (UnsealBasicAuth h) as [unseal|] eqn:Hu; [|apply keeps_reply]. keep.
  apply keeps_on_state. intros w Hw. destruct (auth_get _ _ _ _ _) as [r c] eqn:Ha.
  eapply auth_get_sound in Ha as [Hc _]; [|done|apply Hw]. split; [apply Hw|done].
Qed.

Lemma keeps_account app now : keeps (account_limit app now).
Proof.
  unfold account_limit. keep. apply keeps_on_state. intros s Hs. destruct (EdgeLimiter.AllowAccount _ _ _ _).
  by eapply ok_frame.
Qed.

Lemma keeps_app app now : keeps (app_limit app now).
Proof.
  unfold app_limit. keep. apply keeps_on_state. intros s Hs. destruct (EdgeLimiter.Allow _ _ _ _).
  by eapply ok_frame.
Qed.

#[local] Hint Resolve keeps_throttle keeps_basic keeps_account keeps_app : gates.

Lemma keeps_ServeHTTP now : keeps (ServeHTTP h now).
Proof.
  unfold ServeHTTP, resolve_app, matchAndSubstituteRoute, free_gates, metered_gates, applyAppsMaintenanceMode,
    applyEdgeRuleMaintenance, matchAndApplyRedirect, matchAndApplyRewrite, applyEdgeRuleHeaders, applyEdgeRuleCORS,
    applyEdgeRuleJWT, applyEdgeRuleIP, applyEdgeRuleGeo, streamingFor, decideStreaming, applyEdgeRuleLimit,
    applyEdgeRuleValidate, applyEdgeRuleBudget, enforceRequireAuthn, enforcePublicAuth, enforcePublicAuthBearer,
    authenticate, select_sidecar, MatchRoute, MatchMaintenance, MatchRedirect, MatchRewrite, MatchHeaders, MatchCORS,
    MatchJWT, MatchIP, MatchGeo, MatchLimit, MatchValidate, MatchBudget.
  keep.
Qed.

End keeps.

Lemma ok_with_answers h db db' fail s : ok (with_answers db' fail h) db s ↔ ok h db s.
Proof. split; intros [? ?]; by split. Qed.
Lemma ok_with_store h db db' s : ok (with_store db' h) db s ↔ ok h db s.
Proof. apply ok_with_answers. Qed.

Lemma reachable_ok h db s : reachable h db s → ok h db s.
Proof.
  induction 1 as [db k|db s now q fail _ IH|db db' s _ IH|db s app _ IH].
  - split; [apply tidy_New|]. intros ? ? ? He. cbn in He. by rewrite lookup_empty in He.
  - apply ok_with_answers with db fail. eapply keeps_ServeHTTP; [done|]. by apply ok_with_answers.
  - split; [|apply IH]. eapply tidy_Reset, IH.
  - split; [apply IH|]. intros a hash e [He _]%map_lookup_filter_Some. by apply (ok_creds _ _ _ IH a).
Qed.

Lemma ServeHTTP_passed h db now q s app q' s' :
  store h = store_of db false → ok h db s → ServeHTTP h now q s = (inr app, (q', s')) →
  MaintenanceMode app = false ∧ ∃ q1, freed h db app q q1 ∧ checked h db app q1 ∧ metered h db app q1 q'.
Proof.
  intros Hst Hs H. unfold ServeHTTP in H.
  apply bind_inr in H as ([app' name] & ? & s1 & Hr & H). eapply resolve_app_passed in Hr as [Hs1 ->]; [|done..].
  apply bind_inr in H as ([] & q1 & s2 & Hf & H). eapply free_gates_passed in Hf as (Hs2 & Hmm & Hfreed & Hch); [|done..].
  apply bind_inr in H as ([] & q2 & s3 & Hm & H). eapply metered_gates_passed in Hm as (Hs3 & Hmet); [|done..].
  passes H. eauto.
Qed.

(** *** Hosts with a selector *)

Lemma cut_suffix_app a p : cut_suffix (a ++ p)%string p = Some a.
Proof.
  induction a as [|c a IH].
  - change (EmptyString ++ p)%string with p. destruct p; cbn [cut_suffix]; by rewrite String.eqb_refl.
  - change (String c a ++ p)%string with (String c (a ++ p)). cbn [cut_suffix].
    destruct (String.eqb_spec (String c (a ++ p)) p) as [E|_]; [|by rewrite IH].
    apply (f_equal String.length) in E. cbn in E. rewrite Glob.string_length_app in E. lia.
Qed.

Lemma HasSuffix_app a p : HasSuffix (a ++ p)%string p = true.
Proof. unfold HasSuffix. by rewrite cut_suffix_app. Qed.

Lemma Split_selector slug name suffix :
  empty suffix = false → Cut (slug ++ SidecarHostSeparator ++ name) SidecarHostSeparator = Some (slug, name) →
  SplitHostSelectorWithSuffix ((slug ++ SidecarHostSeparator ++ name) ++ suffix) suffix = ((slug ++ suffix)%string, name).
Proof.
  intros Hs Hc. unfold SplitHostSelectorWithSuffix.
  assert (empty ((slug ++ SidecarHostSeparator ++ name) ++ suffix) = false) as -> by (by destruct slug).
  rewrite Hs, HasSuffix_app. cbn [negb andb]. unfold TrimSuffix. rewrite cut_suffix_app. cbn [from_option id].
  unfold cut_or_all, id. by rewrite Hc.
Qed.

Lemma append_cancel_r (a b c : string) : (a ++ c)%string = (b ++ c)%string → a = b.
Proof. intros H. assert (Some a = Some b) as [= ->]; [|done]. by rewrite <- !(cut_suffix_app _ c), H. Qed.

(** The app's host as an exact pattern does not fit the host with the empty selector. *)
Lemma selector_host_differs slug suffix :
  HasPrefix slug "*" = false → empty slug = false →
  matchHostPattern (slug ++ suffix) ((slug ++ SidecarHostSeparator) ++ suffix) = false.
Proof.
  intros Hp He. destruct slug as [|c slug]; [done|]. unfold matchHostPattern.
  assert (Ascii.eqb (chr 42) c = false) as Hc. { destruct (Ascii.eqb_spec (chr 42) c) as [<-|]; [|done]. done. }
  assert (String.eqb (String c slug ++ suffix) "*" = false) as ->.
  { destruct (String.eqb_spec (String c slug ++ suffix) "*") as [[= -> _]|]; [|done]. done. }
  assert (HasPrefix (String c slug ++ suffix) "*." = false) as ->.
  { unfold HasPrefix. change (String c slug ++ suffix)%string with (String c (slug ++ suffix)). cbn [cut_prefix].
    change (Ascii.Ascii false true false true false true false false) with (chr 42). by rewrite Hc. }
  rewrite andb_false_r. cbn [orb].
  destruct (String.eqb_spec (String c slug ++ suffix) ((String c slug ++ SidecarHostSeparator) ++ suffix)) as [E|_]; [|done].
  apply append_cancel_r, (f_equal String.length) in E. rewrite Glob.string_length_app in E. cbn in E. lia.
Qed.

(** *** Requests that no rule covers *)

Section quiet.
Context (h : Handler) (host : string) (P : State → Prop).

(** No kind has a rule for the host, and asking keeps [P]. *)
Definition no_rules : Prop :=
  ∀ A B nil_misses (get : HostEntry → slice B) kind (action : EdgeRuleAction → option A) resolve q s,
    Compiled (validate_compiler h) get kind action resolve → hostname (rHost q) = host → P s →
    ∃ c, P (set_cache c s) ∧ rule_for h (match_kind nil_misses get) q s = (inr None, (q, set_cache c s)).

Hypothesis Hno : no_rules.

(** The computation hands the request on and changes the cache only. *)
Definition opens {A} (m : gate A) : Prop :=
  ∀ q s, hostname (rHost q) = host → P s →
  ∃ a q' c, m q s = (inr a, (q', set_cache c s)) ∧ P (set_cache c s) ∧ rHost q' = rHost q.

Lemma opens_bind {A B} (m : gate A) (f : A → gate B) : opens m → (∀ a, opens (f a)) → opens (m ≫= f).
Proof.
  intros Hm Hf q s Hh Hs. destruct (Hm q s Hh Hs) as (a & q1 & c1 & E1 & P1 & H1).
  destruct (Hf a q1 (set_cache c1 s)) as (b & q2 & c2 & E2 & P2 & H2); [by rewrite H1|done|].
  exists b, q2, c2. unfold mbind, gate_bind. rewrite E1, E2. split_and!; [done|done|congruence].
Qed.

Lemma opens_ret {A} (a : A) : opens (mret a).
Proof. intros q s ? ?. exists a, q, (cache s). rewrite <- set_cache_id. done. Qed.
Lemma opens_request : opens request.
Proof. intros q s ? ?. exists q, q, (cache s). rewrite <- set_cache_id. done. Qed.
Lemma opens_update f : (∀ q, rHost (f q) = rHost q) → opens (update f).
Proof. intros Hf q s ? ?. exists tt, (f q), (cache s). rewrite <- set_cache_id. done. Qed.

Lemma opens_rule_for {A B C} nil_misses (get : HostEntry → slice B) kind (action : EdgeRuleAction → option A) resolve
    `{!Compiled (validate_compiler h) get kind action resolve} (f : option (Resolved B) → gate C) :
  opens (f None) → opens (rule_for h (match_kind nil_misses get) ≫= f).
Proof.
  intros Hf q s Hh Hs. destruct (Hno A B nil_misses get kind action resolve q s) as (c & Hc & E); [done..|].
  destruct (Hf q (set_cache c s)) as (a & q' & c' & E' & P' & H'); [done..|].
  exists a, q', c'. unfold mbind, gate_bind. by rewrite E, E'.
Qed.

Lemma opens_own_rule {A B C} nil_misses (get : HostEntry → slice B) kind (action : EdgeRuleAction → option A) resolve
    `{!Compiled (validate_compiler h) get kind action resolve} app (f : option (Resolved B) → gate C) :
  opens (f None) → opens (own_rule h (match_kind nil_misses get) app ≫= f).
Proof.
  intros Hf q s Hh Hs. unfold own_rule. destruct (negb (edgeRules h)); [by apply Hf|].
  destruct (Hno A B nil_misses get kind action resolve q s) as (c & Hc & E); [done..|].
  destruct (Hf q (set_cache c s)) as (a & q' & c' & E' & P' & H'); [done..|].
  exists a, q', c'. unfold mbind at 1 2, gate_bind. rewrite E. cbn. by rewrite E'.
Qed.

Lemma cors_default_host app q : rHost (cors_default app q) = rHost q.
Proof. unfold cors_default, installHeaderOps. repeat case_match; done. Qed.

#[local] Hint Resolve opens_ret opens_request : gates.

Ltac unlocked :=
  repeat (first [solve [auto with gates] | eapply opens_own_rule; [apply _|] | eapply opens_rule_for; [apply _|]
                | apply opens_bind; [|intros] | case_match]).

Lemma opens_free app : MaintenanceMode app = false → opens (free_gates h app).
Proof.
  intros Hm.
  unfold free_gates, applyAppsMaintenanceMode, applyEdgeRuleMaintenance, matchAndApplyRedirect, matchAndApplyRewrite,
    applyEdgeRuleHeaders, applyEdgeRuleCORS, applyEdgeRuleJWT, applyEdgeRuleIP, applyEdgeRuleGeo, streamingFor,
    decideStreaming, applyEdgeRuleLimit, MatchMaintenance, MatchRedirect, MatchRewrite, MatchHeaders, MatchCORS,
    MatchJWT, MatchIP, MatchGeo, MatchLimit.
  rewrite Hm. unlocked. apply opens_update, cors_default_host.
Qed.

Lemma opens_throttle app now : opens (applyEdgeRuleThrottle h app now).
Proof. unfold applyEdgeRuleThrottle, MatchThrottle. unlocked. Qed.

Lemma opens_validate app : opens (applyEdgeRuleValidate h app).
Proof. unfold applyEdgeRuleValidate, MatchValidate. unlocked. Qed.

Lemma opens_budget app : opens (applyEdgeRuleBudget h app).
Proof.
  unfold applyEdgeRuleBudget, MatchBudget. unlocked. apply opens_update. intros q.
  unfold stampRequestBudget. by destruct (WithRemaining _ _).
Qed.

End quiet.

(** A host the table has no row for. *)
Lemma no_rows_no_rules h db host : store h = store_of db false → db host = [] → no_rules h host (ok h db).
Proof.
  intros Hst Hdb A B nm get kind action resolve q s HC Hh Hs.
  pose proof (cache_only_rule_for h (match_kind nm get) q s) as [c Hc].
  destruct (rule_for_run h db Hst get kind action resolve nm q s Hs) as (s' & Hs' & E).
  rewrite E in Hc. cbn in Hc. subst s'. exists c. split; [done|]. rewrite E, Hh. unfold EdgeRules.fresh.
  by rewrite Hdb, get_compiled.
Qed.

(** A host that is not cached while the store fails. *)
Lemma failing_store_no_rules h db host :
  store h = store_of db true → no_rules h host (λ s, find_entry host (ll (cache s)) = None).
Proof.
  intros Hst A B nm get kind action resolve q s HC Hh Hs. exists (cache s). rewrite <- set_cache_id. split; [done|].
  unfold rule_for, request, on_state, mbind, gate_bind. rewrite Hst, Hh.
  unfold match_kind, getEntry. rewrite Hs. cbn. by rewrite <- set_cache_id.
Qed.

(** *** Computations that leave the consumer buckets alone *)

Definition same_consumers {A} (m : gate A) : Prop :=
  ∀ q s, routeConsumerLimiter (m q s).2.2 = routeConsumerLimiter s.

Lemma consumers_at {A B} (m : gate A) (f : A → gate B) q s :
  routeConsumerLimiter (m q s).2.2 = routeConsumerLimiter s →
  (∀ a q1 s1, m q s = (inr a, (q1, s1)) → routeConsumerLimiter (f a q1 s1).2.2 = routeConsumerLimiter s1) →
  routeConsumerLimiter ((m ≫= f) q s).2.2 = routeConsumerLimiter s.
Proof.
  intros Hm Hf. unfold mbind, gate_bind.
  destruct (m q s) as [[r|a] [q1 s1]]; [done|]. cbn in Hm. by rewrite (Hf a q1 s1).
Qed.

Lemma consumers_bind {A B} (m : gate A) (f : A → gate B) :
  same_consumers m → (∀ a, same_consumers (f a)) → same_consumers (m ≫= f).
Proof. intros Hm Hf q s. apply consumers_at; [done|]. intros. apply Hf. Qed.

Lemma consumers_cache_only {A} (m : gate A) : cache_only m → same_consumers m.
Proof. intros Hm q s. by destruct (Hm q s) as [c ->]. Qed.

Lemma consumers_on_state {A} (f : State → A * State) :
  (∀ s, routeConsumerLimiter (f s).2 = routeConsumerLimiter s) → same_consumers (on_state f).
Proof. intros Hf q s. unfold on_state. specialize (Hf s). by destruct (f s). Qed.

#[local] Hint Resolve consumers_cache_only : gates.

Lemma consumers_validate h app : same_consumers (applyEdgeRuleValidate h app).
Proof. apply consumers_cache_only. unfold applyEdgeRuleValidate. frame. Qed.
Lemma consumers_budget h app : same_consumers (applyEdgeRuleBudget h app).
Proof. apply consumers_cache_only. unfold applyEdgeRuleBudget. frame. Qed.
Lemma consumers_authn h app : same_consumers (enforceRequireAuthn h app).
Proof. apply consumers_cache_only. unfold enforceRequireAuthn, authenticate. frame. Qed.
Lemma consumers_sidecar app name : same_consumers (select_sidecar app name).
Proof. apply consumers_cache_only. unfold select_sidecar. frame. Qed.

Ltac same :=
  repeat (first [solve [auto with gates] | apply consumers_bind; [|intros] | apply consumers_on_state; intros; by case_match
                | case_match]).

Lemma consumers_public h app now : same_consumers (enforcePublicAuth h app now).
Proof. unfold enforcePublicAuth, enforcePublicAuthBearer, enforcePublicAuthBasic, authenticate. same. Qed.
Lemma consumers_limits app now : same_consumers (_ ← account_limit app now; app_limit app now).
Proof. unfold account_limit, app_limit. same. Qed.

#[local] Hint Resolve consumers_validate consumers_budget consumers_authn consumers_sidecar consumers_public consumers_limits : gates.

(** A rule keyed by API key finds no consumer before a key has been checked. *)
Lemma unkeyed_throttle app r authed now s :
  KeyBy (payload r) = "api_key"%string → APIKeyID authed = EmptyString →
  routeConsumerLimiter (throttle_allows app r authed now s).2 = routeConsumerLimiter s.
Proof.
  intros Hk Ha. unfold throttle_allows, resolveConsumerKey. rewrite Hk, Ha.
  destruct (EdgeLimiter.AllowWithCentralParams _ _ _ _ _ _) as [[] l]; done.
Qed.

Lemma throttle_consumers h db app now q s :
  store h = store_of db false → ok h db s → APIKeyID (authenticated q) = EmptyString →
  (∀ r, rule_of h db eThrottle app q = Some r → KeyBy (payload r) = "api_key"%string) →
  routeConsumerLimiter (applyEdgeRuleThrottle h app now q s).2.2 = routeConsumerLimiter s.
Proof.
  intros Hst Hs Ha Hk. unfold applyEdgeRuleThrottle, MatchThrottle. apply consumers_at.
  { apply consumers_cache_only, cache_only_own_rule. }
  intros rule q1 s1 E.
  destruct (own_rule_run h db Hst eThrottle "throttle" Throttle resolve_throttle false app q s Hs) as (s2 & _ & E').
  rewrite E' in E. simplify_eq. destruct (rule_of h db eThrottle app q1) as [r|] eqn:Hr; [|done].
  apply consumers_at; [done|]. intros ? ? ? [= <- <- <-]. apply consumers_at.
  - unfold on_state. match goal with |- context [throttle_allows _ _ _ _ ?w] =>
      pose proof (unkeyed_throttle app r (authenticated q1) now w (Hk r eq_refl) Ha) end.
    by destruct (throttle_allows _ _ _ _ _).
  - intros [|] ? ? _; done.
Qed.

Lemma consumers_rest h app name now :
  same_consumers (_ ← update (MaxBytesReader MaxRequestBodyBytes);
                  _ ← applyEdgeRuleValidate h app;
                  _ ← applyEdgeRuleBudget h app;
                  _ ← enforceRequireAuthn h app;
                  _ ← enforcePublicAuth h app now;
                  _ ← select_sidecar app name;
                  _ ← account_limit app now;
                  app_limit app now).
Proof. same. Qed.

(** ** The theorems *)



(** C21: Stamping the budget cancels the request: with edge rules wired, every request the gateway hands to
    the wake path carries a budget within the ceiling of its plan and a context that is already
    cancelled, because the cancel function of the new context is deferred to the end of the stamping
    helper. *)
Theorem budget_stamp_cancels_request h db now q s app q' s' :
  reachable h db s → edgeRules h = true →
  ServeHTTP (with_store db h) now q s = (inr app, (q', s')) →
  canceled q' = true ∧ ∃ b, budget q' = Some b ∧ 0 < b ≤ plan_ceiling (appPlan app).
Proof.
  intros Hs%reachable_ok He H. eapply ServeHTTP_passed in H as (_ & q1 & _ & _ & Hm); [|done|by apply ok_with_store].
  by apply (metered_budget _ _ _ _ _ Hm).
Qed.

(** C16: A request that is refused before the throttle costs nothing: when resolving the app or a gate from
    maintenance to the body limit answers, ServeHTTP gives that answer and no limiter and no credential
    has changed, only the edge-rule cache. *)
Theorem early_answer_spends_nothing h now q s r q1 s1 :
  (resolved ← resolve_app h; free_gates h resolved.1) q s = (inl r, (q1, s1)) →
  ServeHTTP h now q s = (inl r, (q1, s1)) ∧ ∃ c, s1 = set_cache c s.
Proof.
  intros H. split.
  - revert H. unfold ServeHTTP, mbind, gate_bind. destruct (resolve_app h q s) as [[?|?] [? ?]];
      [by intros; simplify_eq|].
    by destruct (free_gates h _ _ _) as [[?|?] [? ?]]; intros; simplify_eq.
  - assert (cache_only (resolved ← resolve_app h; free_gates h resolved.1)) as Hc.
    { apply cache_only_bind; [apply cache_only_resolve|]. intros. apply cache_only_free. }
    destruct (Hc q s) as [c Hc']. rewrite H in Hc'. by exists c.
Qed.

(** C20: A route rule captures hosts it does not own: when a route rule with host pattern * of any account comes
    first for a request, ServeHTTP serves the request from that account's app, whatever app the router
    has for the host; the only account compared with the rule's is that of the rule's own target. *)
Theorem route_rule_captures_host h rows resolve q s row b target :
  let db := MatchEdgeRulesForHost rows in
  let host := hostname (rHost q) in
  let '(appHost, name) := SplitHostSelectorWithSuffix host (appsSuffix h) in
  reachable h db s → edgeRules h = true → resolveTargetApp h = Some resolve →
  empty (appsSuffix h) || HasSuffix appHost (appsSuffix h) = true →
  row ∈ rows → MatchHost row = "*"%string → covers "route" Route verbatim row b (Path q) (Method q) →
  (∀ row' b', candidate "route" Route verbatim rows host (Path q) (Method q) row' b' →
              row' = row ∨ Priority row < Priority row') →
  resolve (TargetAppSlug b) = Some target → appAccountID target = AccountID row →
  ∃ s', resolve_app (with_store db h) q s = (inr (target, name), (q, s')).
Proof.
  intros db host. destruct (SplitHostSelectorWithSuffix host (appsSuffix h)) as [appHost name] eqn:Hsp.
  intros Hs%reachable_ok He Hres Hsuf Hin Hstar Hcov Hfirst Hslug Hacct.
  pose proof (resolve_app_run (with_store db h) db eq_refl q s) as Hrun.
  change (SplitHostSelectorWithSuffix (hostname (rHost q)) (appsSuffix (with_store db h)))
    with (SplitHostSelectorWithSuffix host (appsSuffix h)) in Hrun.
  rewrite Hsp in Hrun. destruct Hrun as (s' & _ & ->); [by apply ok_with_store|done|].
  assert (routed_app (with_store db h) db q = Some target) as ->; [|by eexists].
  unfold routed_app. cbn [with_store with_answers edgeRules resolveTargetApp validate_compiler]. rewrite He, Hres.
  unfold db. rewrite (fresh_first _ eRoute "route" Route verbatim rows _ _ _ row b); [| |done].
  - cbn. by rewrite Hslug; cbn; rewrite Hacct, String.eqb_refl.
  - split_and!; [done|by rewrite Hstar|done].
Qed.

(** A rule of another account disarms a gate: when the first address rule for a request is a rule with host
    pattern * of an account that does not own the app, the address gate lets the request through, also
    when the app's own account has a rule that denies it. *)
Theorem foreign_rule_disarms_gate h rows q s app row b :
  let db := MatchEdgeRulesForHost rows in
  let host := hostname (rHost q) in
  reachable h db s →
  row ∈ rows → MatchHost row = "*"%string → covers "ip" IPA resolve_ip row b (Path q) (Method q) →
  (∀ row' b', candidate "ip" IPA resolve_ip rows host (Path q) (Method q) row' b' →
              row' = row ∨ Priority row < Priority row') →
  AccountID row ≠ appAccountID app →
  ∃ s', applyEdgeRuleIP (with_store db h) app q s = (inr tt, (q, s')).
Proof.
  intros db host Hs%reachable_ok Hin Hstar Hcov Hfirst Hacct.
  destruct (own_rule_run (with_store db h) db eq_refl eIP "ip" IPA resolve_ip false app q s) as (s' & _ & E);
    [by apply ok_with_store|].
  exists s'. unfold applyEdgeRuleIP, mbind, gate_bind, MatchIP. rewrite E.
  unfold rule_of. destruct (negb _); [done|]. unfold db.
  rewrite (fresh_first _ eIP "ip" IPA resolve_ip rows _ _ _ row b); [| |done].
  - cbn. unfold same_account. cbn. by destruct (String.eqb_spec (AccountID row) (appAccountID app)).
  - split_and!; [done|by rewrite Hstar|done].
Qed.

(** C19: A host with an empty selector escapes the rules of the app: when every rule names the app's host
    exactly, a request for that host with -- before the suffix reaches the same app, and every gate
    before the throttle lets it pass. *)
Theorem empty_selector_escapes_rules h rows q s slug app :
  let db := MatchEdgeRulesForHost rows in
  let h' := with_store db h in
  reachable h db s →
  empty (appsSuffix h) = false →
  Cut (slug ++ SidecarHostSeparator) SidecarHostSeparator = Some (slug, EmptyString) →
  HasPrefix slug "*" = false → empty slug = false →
  hostname (rHost q) = ((slug ++ SidecarHostSeparator) ++ appsSuffix h)%string →
  Forall (λ r, MatchHost r = (slug ++ appsSuffix h)%string) rows →
  Lookup h (slug ++ appsSuffix h)%string = Some app → MaintenanceMode app = false →
  ∃ q' s', (r ← resolve_app h'; _ ← free_gates h' r.1; mret r.1) q s = (inr app, (q', s')).
Proof.
  intros db h' Hs%reachable_ok Hsuf Hcut Hpre Hne Hhost Hrows Hl Hmm.
  assert (db (hostname (rHost q)) = []) as Hdb.
  { destruct (db _) as [|row l] eqn:E; [done|]. assert (row ∈ db (hostname (rHost q))) as Hin by (rewrite E; left).
    apply elem_of_rows_for_host in Hin as (Hin & _ & Hm). rewrite Forall_forall in Hrows.
    rewrite (Hrows row Hin), Hhost, selector_host_differs in Hm; done. }
  pose proof (resolve_app_run h' db eq_refl q s) as Hrun. change (appsSuffix h') with (appsSuffix h) in Hrun.
  pose proof (Split_selector slug EmptyString (appsSuffix h) Hsuf Hcut) as Hsp.
  change (SidecarHostSeparator ++ EmptyString)%string with SidecarHostSeparator in Hsp. rewrite Hhost, Hsp in Hrun.
  destruct Hrun as (s1 & Hs1 & E1); [by apply ok_with_store|by rewrite HasSuffix_app, orb_true_r|].
  assert (routed_app h' db q = None) as Hr.
  { unfold routed_app. destruct (edgeRules h'), (resolveTargetApp h'); try done. unfold EdgeRules.fresh. by rewrite Hdb. }
  change (Lookup h') with (Lookup h) in E1. rewrite Hr, Hl in E1.
  destruct (opens_free h' _ (ok h' db) (no_rows_no_rules h' db _ eq_refl Hdb) app Hmm q s1) as ([] & q' & c & E2 & _ & _);
    [done|done|].
  exists q', (set_cache c s1). unfold mbind, gate_bind. rewrite E1. cbn [fst]. by rewrite E2.
Qed.

(** When the rule store fails, the gates are open: a request for a host that is not cached passes every gate
    before the throttle, whatever address, token and country rules the table holds for it. *)
Theorem failing_store_opens_gates h db q s app :
  store h = store_of db true → find_entry (hostname (rHost q)) (ll (cache s)) = None → MaintenanceMode app = false →
  ∃ q' c, free_gates h app q s = (inr tt, (q', set_cache c s)).
Proof.
  intros Hst Hf Hmm.
  destruct (opens_free h _ _ (failing_store_no_rules h db (hostname (rHost q)) Hst) app Hmm q s) as ([] & q' & c & E & _ & _);
    [done|done|]. by exists q', c.
Qed.

(** C17: An open app is served: a request for an app out of maintenance that asks for no key and no
    credentials, on a host without rules and without a selector, is handed to the wake path whenever the
    account limiter and the app limiter have a token for it, and costs one token of each. *)
Theorem open_app_served h db now q s app appHost :
  let h' := with_store db h in
  reachable h db s →
  SplitHostSelectorWithSuffix (hostname (rHost q)) (appsSuffix h) = (appHost, EmptyString) →
  empty (appsSuffix h) || HasSuffix appHost (appsSuffix h) = true →
  db (hostname (rHost q)) = [] → Lookup h appHost = Some app →
  MaintenanceMode app = false → RequireAuthn app = false → Mode (PublicAuth app) = "open"%string →
  empty (appAccountID app) = false →
  (EdgeLimiter.AllowAccount (accountLimiter s) (appAccountID app) (appPlan app) now).1 = true →
  (EdgeLimiter.Allow (limiter s) (appID app) (appPlan app) now).1 = true →
  ∃ q' s', ServeHTTP h' now q s = (inr app, (q', s'))
    ∧ accountLimiter s' = (EdgeLimiter.AllowAccount (accountLimiter s) (appAccountID app) (appPlan app) now).2
    ∧ limiter s' = (EdgeLimiter.Allow (limiter s) (appID app) (appPlan app) now).2.
Proof.
  intros h' Hs%reachable_ok Hsp Hsuf Hdb Hl Hmm Hra Hmode Hacct Ha1 Ha2.
  pose proof (resolve_app_run h' db eq_refl q s) as Hrun. change (appsSuffix h') with (appsSuffix h) in Hrun.
  rewrite Hsp in Hrun. destruct Hrun as (s1 & Hs1 & E1); [by apply ok_with_store|done|].
  assert (routed_app h' db q = None) as Hr.
  { unfold routed_app. destruct (edgeRules h'), (resolveTargetApp h'); try done. unfold EdgeRules.fresh. by rewrite Hdb. }
  change (Lookup h') with (Lookup h) in E1. rewrite Hr, Hl in E1.
  destruct (cache_only_resolve h' q s) as [c1 Hc1]. rewrite E1 in Hc1. cbn in Hc1. subst s1.
  pose proof (no_rows_no_rules h' db _ eq_refl Hdb) as Hno.
  destruct (opens_free _ _ _ Hno app Hmm q (set_cache c1 s)) as ([] & q2 & c2 & E2 & P2 & H2); [done..|].
  change (set_cache c2 (set_cache c1 s)) with (set_cache c2 s) in E2, P2.
  destruct (opens_throttle _ _ _ Hno app now q2 (set_cache c2 s)) as ([] & q3 & c3 & E3 & P3 & H3); [by rewrite H2|done|].
  change (set_cache c3 (set_cache c2 s)) with (set_cache c3 s) in E3, P3.
  set (q4 := MaxBytesReader MaxRequestBodyBytes q3).
  destruct (opens_validate _ _ _ Hno app q4 (set_cache c3 s)) as ([] & q5 & c5 & E5 & P5 & H5); [cbn; by rewrite H3, H2|done|].
  change (set_cache c5 (set_cache c3 s)) with (set_cache c5 s) in E5, P5.
  destruct (opens_budget _ _ _ Hno app q5 (set_cache c5 s)) as ([] & q6 & c6 & E6 & P6 & H6);
    [rewrite H5; cbn; by rewrite H3, H2|done|].
  change (set_cache c6 (set_cache c5 s)) with (set_cache c6 s) in E6, P6.
  unfold ServeHTTP, mbind, gate_bind. rewrite E1. cbn [fst snd]. rewrite E2.
  unfold metered_gates, mbind, gate_bind. rewrite E3. cbn [update]. fold q4. rewrite E5, E6.
  unfold enforceRequireAuthn, enforcePublicAuth, account_limit, app_limit, mbind, gate_bind, on_state.
  rewrite Hra, Hmode, Hacct. cbn.
  destruct (EdgeLimiter.AllowAccount _ _ _ _) as [ok1 l1]. cbn in Ha1. subst ok1. cbn.
  destruct (EdgeLimiter.Allow _ _ _ _) as [ok2 l2]. cbn in Ha2. subst ok2. cbn. eauto.
Qed.

(** A throttle keyed by API key never sees a key: when every throttle rule of the table is keyed by
    api_key, no request touches a consumer bucket, so the rule throttles all callers together; the gate
    runs before the key of the request is checked. *)
Theorem api_key_throttle_is_shared h rows now q s :
  let db := MatchEdgeRulesForHost rows in
  reachable h db s → APIKeyID (authenticated q) = EmptyString →
  (∀ row a, row ∈ rows → Throttle (Action row) = Some a → KeyBy a = "api_key"%string) →
  routeConsumerLimiter (ServeHTTP (with_store db h) now q s).2.2 = routeConsumerLimiter s.
Proof.
  intros db Hs%reachable_ok Ha Hrows. set (h' := with_store db h). unfold ServeHTTP. apply consumers_at.
  { apply consumers_cache_only, cache_only_resolve. }
  intros [app name] q0 s0 E0. eapply resolve_app_passed in E0 as [Hs0 ->]; [|done|by apply ok_with_store].
  apply consumers_at. { apply consumers_cache_only, cache_only_free. }
  intros [] q1 s1 E1. eapply free_gates_passed in E1 as (Hs1 & _ & Hf & _); [|done..].
  apply consumers_at; [|done]. unfold metered_gates. apply consumers_at.
  - eapply throttle_consumers; [done|done|by apply (freed_key _ _ _ _ _ Hf)|].
    intros r Hr. unfold rule_of in Hr. destruct (negb _); [done|]. unfold db in Hr.
    pose proof (fresh_exact (validate_compiler h') eThrottle "throttle" Throttle resolve_throttle rows
                  (hostname (rHost q1)) (Path q1) (Method q1)) as He.
    destruct (EdgeRules.fresh _ _ _ _ _ _) as [r'|]; [|done]. cbn in Hr. case_match; simplify_eq.
    destruct He as (row & b & (Hin & _ & [_ _ (a & Hact & Hres) _ _]) & -> & _). cbn.
    unfold resolve_throttle in Hres. simplify_eq. cbn. eauto.
  - intros [] q2 s2 _. apply (consumers_rest h' app name now).
Qed.

(** ** Concrete gateways *)

Definition gx_app (id account : string) : App :=
  mkApp id account id PlanHobby false false [] false (mkPublicAuth "open" EmptyString) None [].

Definition gx_blog : App := gx_app "blog" "acct-1".
Definition gx_other : App := gx_app "other" "acct-2".

Definition gx_h : Handler :=
  mkHandler ".apps.dev" true (store_of (λ _, []) false) None
    (Some (λ slug, if String.eqb slug "other" then Some gx_other else None))
    (λ host, if String.eqb host "blog.apps.dev" then Some gx_blog else None)
    false None None None None None id (60 * Second).

Definition gx_request (host ip : string) : Request :=
  mkRequest host "/v1/users" "GET" (Header.Set_ ∅ "X-Forwarded-For" ip) 0 EmptyString false [] anonymous None None false [] None.

Definition gx_state : State :=
  mkState (NewEdgeRuleCache 10) EdgeLimiter.NewLimiter EdgeLimiter.NewLimiter EdgeLimiter.NewLimiter EdgeLimiter.NewLimiter ∅.

Definition gx_row (id account host kind : string) (priority : Z) (a : EdgeRuleAction) : EdgeRule :=
  mkRule id account "p" host "*" [] priority true kind a 0.

Definition gx_deny : EdgeRule := gx_row "r1" "acct-1" "blog.apps.dev" "ip" 10 (ex_ip ["10.0.0.0/8"%string]).
Definition gx_foreign : EdgeRule := gx_row "r2" "acct-2" "*" "ip" 0 (ex_ip ["203.0.113.0/24"%string]).
Definition gx_route : EdgeRule :=
  gx_row "r3" "acct-2" "*" "route" 0 (mkAction (Some (mkRoute "other")) None None None None None None None None None None None None).
Definition gx_keyed : EdgeRule :=
  gx_row "r4" "acct-1" "blog.apps.dev" "throttle" 1
    (mkAction None None None None None None None None None None None (Some (mkThrottle 5 10 "api_key" EmptyString 0)) None).

Definition gx_db : string → list EdgeRule := MatchEdgeRulesForHost [gx_deny].

Definition gx_good : Request := gx_request "Blog.apps.dev:443" "192.0.2.7".
Definition gx_bad : Request := gx_request "blog.apps.dev" "10.1.2.3".
Definition gx_out := ServeHTTP (with_store gx_db gx_h) 0 gx_good gx_state.




Lemma budget_stamp_cancels_request_witness : canceled gx_out.2.1 = true.
Proof.
  apply (budget_stamp_cancels_request gx_h gx_db 0 gx_good gx_state gx_blog gx_out.2.1 gx_out.2.2).
  - apply reachable_start.
  - reflexivity.
  - vm_compute. reflexivity.
Defined.

Definition gx_denied :=
  (resolved ← resolve_app (with_store gx_db gx_h); free_gates (with_store gx_db gx_h) resolved.1) gx_bad gx_state.

Lemma early_answer_spends_nothing_witness :
  ServeHTTP (with_store gx_db gx_h) 0 gx_bad gx_state = (inl (Problem 403 "IP denied" []), (gx_denied.2.1, gx_denied.2.2))
  ∧ ∃ c, gx_denied.2.2 = set_cache c gx_state.
Proof.
  apply (early_answer_spends_nothing (with_store gx_db gx_h) 0 gx_bad gx_state (Problem 403 "IP denied" [])).
  vm_compute. reflexivity.
Defined.

Lemma route_rule_captures_host_witness :
  ∃ s', resolve_app (with_store (MatchEdgeRulesForHost [gx_route]) gx_h) gx_good gx_state
        = (inr (gx_other, EmptyString), (gx_good, s')).
Proof.
  apply (route_rule_captures_host gx_h [gx_route]
           (λ slug, if String.eqb slug "other" then Some gx_other else None) gx_good gx_state gx_route (mkRoute "other") gx_other).
  - apply reachable_start.
  - reflexivity.
  - reflexivity.
  - vm_compute. reflexivity.
  - left.
  - reflexivity.
  - split; [reflexivity|reflexivity|by exists (mkRoute "other")|by left|by right; left].
  - intros row' b' (Hin & _). left. by apply list_elem_of_singleton in Hin.
  - reflexivity.
  - reflexivity.
Defined.

Lemma foreign_rule_disarms_gate_witness :
  (applyEdgeRuleIP (with_store gx_db gx_h) gx_blog gx_bad gx_state).1 = inl (Problem 403 "IP denied" [])
  ∧ ∃ s', applyEdgeRuleIP (with_store (MatchEdgeRulesForHost [gx_deny; gx_foreign]) gx_h) gx_blog gx_bad gx_state
          = (inr tt, (gx_bad, s')).
Proof.
  split; [vm_compute; reflexivity|].
  apply (foreign_rule_disarms_gate gx_h [gx_deny; gx_foreign] gx_bad gx_state gx_blog gx_foreign
           (mkIPSets [] (parseCIDRs ["203.0.113.0/24"%string] "r2").1)).
  - apply reachable_start.
  - right. left.
  - reflexivity.
  - split; [reflexivity|reflexivity|by eexists|by left|by right; left].
  - intros row' b' (Hin & _). apply elem_of_cons in Hin as [->|Hin]; [by right|].
    left. by apply list_elem_of_singleton in Hin.
  - discriminate.
Defined.

Lemma empty_selector_escapes_rules_witness :
  ∃ q' s', (r ← resolve_app (with_store gx_db gx_h); _ ← free_gates (with_store gx_db gx_h) r.1; mret r.1)
             (gx_request "blog--.apps.dev" "10.1.2.3") gx_state = (inr gx_blog, (q', s')).
Proof.
  apply (empty_selector_escapes_rules gx_h [gx_deny] (gx_request "blog--.apps.dev" "10.1.2.3") gx_state "blog" gx_blog).
  - apply reachable_start.
  - reflexivity.
  - vm_compute. reflexivity.
  - reflexivity.
  - reflexivity.
  - vm_compute. reflexivity.
  - constructor; [vm_compute; reflexivity|constructor].
  - vm_compute. reflexivity.
  - reflexivity.
Defined.

Definition gx_failing : Handler :=
  mkHandler ".apps.dev" true (store_of gx_db true) None None (Lookup gx_h) false None None None None None id 0.

Lemma failing_store_opens_gates_witness :
  ∃ q' c, free_gates gx_failing gx_blog gx_bad gx_state = (inr tt, (q', set_cache c gx_state)).
Proof. apply (failing_store_opens_gates gx_failing gx_db gx_bad gx_state gx_blog); reflexivity. Defined.

Lemma open_app_served_witness :
  ∃ q' s', ServeHTTP (with_store (λ _, []) gx_h) 0 gx_good gx_state = (inr gx_blog, (q', s')).
Proof.
  destruct (open_app_served gx_h (λ _, []) 0 gx_good gx_state gx_blog "blog.apps.dev") as (q' & s' & H & _).
  - apply reachable_start.
  - vm_compute. reflexivity.
  - vm_compute. reflexivity.
  - reflexivity.
  - reflexivity.
  - reflexivity.
  - reflexivity.
  - reflexivity.
  - reflexivity.
  - vm_compute. reflexivity.
  - vm_compute. reflexivity.
  - by exists q', s'.
Defined.

Lemma api_key_throttle_is_shared_witness :
  routeConsumerLimiter (ServeHTTP (with_store (MatchEdgeRulesForHost [gx_keyed]) gx_h) 0 gx_good gx_state).2.2
  = EdgeLimiter.NewLimiter.
Proof.
  apply (api_key_throttle_is_shared gx_h [gx_keyed] 0 gx_good gx_state).
  - apply reachable_start.
  - reflexivity.
  - intros row a Hin Ha. apply list_elem_of_singleton in Hin as ->. by injection Ha as <-.
Defined.

End EdgeGates.
