(* ===== verification/Orgs.v ===== *)
(** * Organizations

    Organizations own the resources of the platform; accounts act in them through memberships.  Module
    [OrgStore] holds the rows and the store's operations (the organization part of src/pkg/state/memstore.go),
    module [OrgApi] the authorization table and the LoadOrg middleware (src/pkg/authz) and the handlers of
    apid (src/cmd/apid/handlers_org.go, handlers_org_members.go, handlers_org_invitations.go,
    org_handler_helpers.go, org_dto.go).

    Every store operation runs under the store's lock, so it is one function of the store.  time.Now and
    newID are arguments.  A handler is a computation on the store and the audit log that ends with a
    response; its request body is what decodeJSON returned ([None]: a body that does not decode).  The
    detail texts of problems and the times in response bodies are left out; a page cursor is its actual
    text, printed and parsed with GoWire.v. *)

From S2P Require Import Prelude Api GoStd GoWire.
#[local] Open Scope Z_scope.
#[local] Open Scope go_scope.

(** ** The store *)

Module OrgStore.

Import Strings.

Inductive error :=
| ErrNotFound | ErrConflict | ErrOrgLastOwner | ErrOrgInvitationInvalid | ErrOrgInvitationExpired
| ErrOrgAlreadyMember | ErrOrgMemberCapExceeded | ErrInvalidCursor.

Definition OrgRoleOwner : string := "owner".
Definition OrgRoleAdmin : string := "admin".
Definition OrgRoleDeveloper : string := "developer".
Definition OrgRoleViewer : string := "viewer".
Definition OrgRoleBilling : string := "billing".

Definition OrgStatusActive : string := "active".
Definition OrgStatusDeletedPending : string := "deleted_pending".

Definition AccountActive : string := "active".

(** The columns of an account the organization code reads or writes. *)
Record Account := mkAccount {
  ID : string;
  Email : string;
  Plan : string;
  Status : string;
  CreatedAt : Time;
}.

(** An organization; the columns of the billing provider are left out. *)
Record Org := mkOrg {
  oID : string;
  oSlug : string;
  oName : string;
  oPersonal : bool;
  oPersonalOwnerAccountID : option string;
  oPlan : string;
  oStatus : string;
  oDeletedPending : bool;
  oCreatedAt : Time;
  oUpdatedAt : Time;
}.

Record OrgMembership := mkMember {
  mOrgID : string;
  mAccountID : string;
  mRole : string;
  mInvitedByAccountID : option string;
  mJoinedAt : Time;
  mRemovedAt : option Time;
}.

Record OrgInvitation := mkInvitation {
  iID : string;
  iOrgID : string;
  iEmail : string;
  iRole : string;
  iTokenHash : string;
  iInvitedByAccountID : option string;
  iExpiresAt : Time;
  iConsumedAt : option Time;
  iRevokedAt : option Time;
  iAcceptingAccountID : option string;
  iCreatedAt : Time;
}.

#[global] Instance Org_eq_dec : EqDecision Org.
Proof. solve_decision. Defined.
#[global] Instance OrgMembership_eq_dec : EqDecision OrgMembership.
Proof. solve_decision. Defined.
#[global] Instance OrgInvitation_eq_dec : EqDecision OrgInvitation.
Proof. solve_decision. Defined.

Abbreviation member_table := (gmap (string * string) OrgMembership).
Abbreviation invitation_table := (gmap string OrgInvitation).

Record Store := mkStore {
  accounts : gmap string Account;
  orgs : gmap string Org;
  orgsBySlug : gmap string string;
  memberships : member_table;
  invitations : invitation_table;
}.

Definition empty_store : Store := mkStore ∅ ∅ ∅ ∅ ∅.

Definition set_orgs (m : gmap string Org) (s : Store) : Store :=
  mkStore (accounts s) m (orgsBySlug s) (memberships s) (invitations s).
Definition set_memberships (m : member_table) (s : Store) : Store :=
  mkStore (accounts s) (orgs s) (orgsBySlug s) m (invitations s).
Definition set_invitations (m : invitation_table) (s : Store) : Store :=
  mkStore (accounts s) (orgs s) (orgsBySlug s) (memberships s) m.

(** A scan of a map that stops at the first row that passes the test. *)
Definition any_value {K V} `{Countable K} (P : V → bool) (m : gmap K V) : bool :=
  existsb P (map_to_list m).*2.

Definition values {K V} `{Countable K} (m : gmap K V) : list V := (map_to_list m).*2.

(** *** Organizations *)

Definition owned_by (acct : string) (o : Org) : bool :=
  oPersonal o && bool_decide (oPersonalOwnerAccountID o = Some acct).

(** The row as CreateOrg completes it. *)
Definition org_defaults (newID : string) (now : Time) (o : Org) : Org :=
  let created := if oCreatedAt o =? zero_time then now else oCreatedAt o in
  mkOrg (if empty (oID o) then newID else oID o) (oSlug o) (oName o) (oPersonal o) (oPersonalOwnerAccountID o)
    (if empty (oPlan o) then PlanFree else oPlan o)
    (if empty (oStatus o) then OrgStatusActive else oStatus o)
    (oDeletedPending o) created
    (if oUpdatedAt o =? zero_time then created else oUpdatedAt o).

Definition CreateOrg (newID : string) (now : Time) (o : Org) (s : Store) : error + (Org * Store) :=
  if bool_decide (is_Some (orgsBySlug s !! ToLower (oSlug o))) then inl ErrConflict
  else if oPersonal o && bool_decide (oPersonalOwnerAccountID o = None) then inl ErrConflict
  else if oPersonal o
          && match oPersonalOwnerAccountID o with
             | Some a => any_value (owned_by a) (orgs s)
             | None => false
             end then inl ErrConflict
  else
    let o := org_defaults newID now o in
    inr (o, mkStore (accounts s) (<[oID o := o]> (orgs s)) (<[ToLower (oSlug o) := oID o]> (orgsBySlug s))
              (memberships s) (invitations s)).

Definition OrgByID (id : string) (s : Store) : error + Org :=
  match orgs s !! id with Some o => inr o | None => inl ErrNotFound end.

(** The zero row of Go, which an index into a map returns for a missing key. *)
Definition zero_org : Org :=
  mkOrg EmptyString EmptyString EmptyString false None EmptyString EmptyString false zero_time zero_time.

Definition OrgBySlug (slug : string) (s : Store) : error + Org :=
  match orgsBySlug s !! ToLower slug with
  | Some id => inr (default zero_org (orgs s !! id))
  | None => inl ErrNotFound
  end.

Definition ListOrgsForAccount (acct : string) (s : Store) : list Org :=
  go_sort (λ a b, str_ltb (oSlug a) (oSlug b))
    (omap (λ '((org, a), m),
             if negb (String.eqb a acct) || bool_decide (is_Some (mRemovedAt m)) then None else orgs s !! org)
       (map_to_list (memberships s))).

Definition update_org (id : string) (f : Org → Org) (s : Store) : error + Store :=
  match orgs s !! id with
  | None => inl ErrNotFound
  | Some o => inr (set_orgs (<[id := f o]> (orgs s)) s)
  end.

Definition UpdateOrgPlan (now : Time) (id plan : string) : Store → error + Store :=
  update_org id (λ o, mkOrg (oID o) (oSlug o) (oName o) (oPersonal o) (oPersonalOwnerAccountID o) plan (oStatus o)
                        (oDeletedPending o) (oCreatedAt o) now).

Definition UpdateOrgName (now : Time) (id name : string) : Store → error + Store :=
  update_org id (λ o, mkOrg (oID o) (oSlug o) name (oPersonal o) (oPersonalOwnerAccountID o) (oPlan o) (oStatus o)
                        (oDeletedPending o) (oCreatedAt o) now).

Definition UpdateOrgStatus (now : Time) (id status : string) : Store → error + Store :=
  update_org id (λ o, mkOrg (oID o) (oSlug o) (oName o) (oPersonal o) (oPersonalOwnerAccountID o) (oPlan o) status
                        (oDeletedPending o) (oCreatedAt o) now).

Definition SoftDeleteOrg (now : Time) (id : string) : Store → error + Store :=
  update_org id (λ o, mkOrg (oID o) (oSlug o) (oName o) (oPersonal o) (oPersonalOwnerAccountID o) (oPlan o)
                        OrgStatusDeletedPending true (oCreatedAt o) now).

(** *** Memberships *)

Definition active (m : OrgMembership) : bool := bool_decide (mRemovedAt m = None).

Definition active_owner (org : string) (m : OrgMembership) : bool :=
  String.eqb (mOrgID m) org && String.eqb (mRole m) OrgRoleOwner && active m.

Definition active_in (org : string) (m : OrgMembership) : bool := String.eqb (mOrgID m) org && active m.

Definition set_role (role : string) (m : OrgMembership) : OrgMembership :=
  mkMember (mOrgID m) (mAccountID m) role (mInvitedByAccountID m) (mJoinedAt m) (mRemovedAt m).

Definition AddOrgMember (now : Time) (org acct role : string) (invitedBy : option string) (s : Store) : error + Store :=
  if bool_decide (orgs s !! org = None) then inl ErrNotFound
  else if bool_decide (is_Some (memberships s !! (org, acct))) then inl ErrConflict
  else if String.eqb role OrgRoleOwner && any_value (active_owner org) (memberships s) then inl ErrOrgLastOwner
  else inr (set_memberships (<[(org, acct) := mkMember org acct role invitedBy now None]> (memberships s)) s).

Definition RemoveOrgMember (now : Time) (org acct : string) (s : Store) : error + Store :=
  match memberships s !! (org, acct) with
  | None => inl ErrNotFound
  | Some m =>
      if String.eqb (mRole m) OrgRoleOwner && active m then inl ErrOrgLastOwner
      else inr (set_memberships
                  (<[(org, acct) := mkMember (mOrgID m) (mAccountID m) (mRole m) (mInvitedByAccountID m) (mJoinedAt m)
                                      (Some now)]> (memberships s)) s)
  end.

Definition UpdateOrgMemberRole (org acct role : string) (s : Store) : error + Store :=
  match memberships s !! (org, acct) with
  | None => inl ErrNotFound
  | Some m =>
      if String.eqb (mRole m) OrgRoleOwner && negb (String.eqb role OrgRoleOwner) && active m then inl ErrOrgLastOwner
      else inr (set_memberships (<[(org, acct) := set_role role m]> (memberships s)) s)
  end.

Definition TransferOrgOwnership (org from to : string) (s : Store) : error + Store :=
  if String.eqb from to then inl ErrOrgLastOwner
  else
    match memberships s !! (org, from) with
    | None => inl ErrNotFound
    | Some fromMem =>
        if negb (String.eqb (mRole fromMem) OrgRoleOwner) || negb (active fromMem) then inl ErrOrgLastOwner
        else
          match memberships s !! (org, to) with
          | None => inl ErrNotFound
          | Some toMem =>
              if negb (active toMem) then inl ErrNotFound
              else if String.eqb (mRole toMem) OrgRoleOwner then inl ErrOrgLastOwner
              else inr (set_memberships
                          (<[(org, to) := set_role OrgRoleOwner toMem]>
                             (<[(org, from) := set_role OrgRoleAdmin fromMem]> (memberships s))) s)
          end
    end.

Definition ListOrgMembers (org : string) (s : Store) : list OrgMembership :=
  go_sort (λ a b, mJoinedAt a <? mJoinedAt b)
    (filter (λ m, String.eqb (mOrgID m) org) (values (memberships s))).

Definition CountActiveOrgMembers (org : string) (s : Store) : Z := map_count (active_in org) (memberships s).

Definition OrgMemberByAccount (org acct : string) (s : Store) : error + OrgMembership :=
  match memberships s !! (org, acct) with Some m => inr m | None => inl ErrNotFound end.

(** *** Invitations *)

Definition hash_key (hash : string) : string := Hex.EncodeToString hash.

Definition CreateOrgInvitation (newID : string) (now : Time) (inv : OrgInvitation) (s : Store)
  : error + (OrgInvitation * Store) :=
  let inv := mkInvitation (if empty (iID inv) then newID else iID inv) (iOrgID inv) (iEmail inv) (iRole inv)
               (iTokenHash inv) (iInvitedByAccountID inv) (iExpiresAt inv) (iConsumedAt inv) (iRevokedAt inv)
               (iAcceptingAccountID inv) (if iCreatedAt inv =? zero_time then now else iCreatedAt inv) in
  if bool_decide (is_Some (invitations s !! hash_key (iTokenHash inv))) then inl ErrConflict
  else inr (inv, set_invitations (<[hash_key (iTokenHash inv) := inv]> (invitations s)) s).

Definition OrgInvitationByTokenHash (hash : string) (s : Store) : error + OrgInvitation :=
  match invitations s !! hash_key hash with Some inv => inr inv | None => inl ErrNotFound end.

Definition settled (inv : OrgInvitation) : bool :=
  bool_decide (is_Some (iConsumedAt inv)) || bool_decide (is_Some (iRevokedAt inv)).

(** Expired, as ConsumeOrgInvitation and CountPendingOrgInvitations test it: a zero expiry never expires. *)
Definition expired (now : Time) (inv : OrgInvitation) : bool :=
  negb (iExpiresAt inv =? zero_time) && (iExpiresAt inv <? now).

Definition mark_consumed (now : Time) (acct : string) (inv : OrgInvitation) : OrgInvitation :=
  mkInvitation (iID inv) (iOrgID inv) (iEmail inv) (iRole inv) (iTokenHash inv) (iInvitedByAccountID inv)
    (iExpiresAt inv) (Some now) (iRevokedAt inv) (Some acct) (iCreatedAt inv).

Definition revoke (now : Time) (inv : OrgInvitation) : OrgInvitation :=
  mkInvitation (iID inv) (iOrgID inv) (iEmail inv) (iRole inv) (iTokenHash inv) (iInvitedByAccountID inv)
    (iExpiresAt inv) (iConsumedAt inv) (Some now) (iAcceptingAccountID inv) (iCreatedAt inv).

Definition ConsumeOrgInvitation (now : Time) (hash : string) (acct : Account) (s : Store)
  : error + (OrgMembership * OrgInvitation * Store) :=
  match invitations s !! hash_key hash with
  | None => inl ErrOrgInvitationInvalid
  | Some inv =>
      if settled inv then inl ErrOrgInvitationInvalid
      else if expired now inv then inl ErrOrgInvitationExpired
      else if negb (EqualFold (iEmail inv) (Email acct)) then inl ErrOrgInvitationInvalid
      else
        match orgs s !! iOrgID inv with
        | None => inl ErrNotFound
        | Some org =>
            let limit := Plan.OrgMembersMax (oPlan org) in
            if (0 <? limit) && (limit <=? CountActiveOrgMembers (iOrgID inv) s) then inl ErrOrgMemberCapExceeded
            else if bool_decide (is_Some (memberships s !! (iOrgID inv, ID acct))) then inl ErrOrgAlreadyMember
            else
              let m := mkMember (iOrgID inv) (ID acct) (iRole inv) (iInvitedByAccountID inv) now None in
              let inv := mark_consumed now (ID acct) inv in
              inr (m, inv, set_invitations (<[hash_key hash := inv]> (invitations s))
                             (set_memberships (<[(iOrgID inv, ID acct) := m]> (memberships s)) s))
        end
  end.

Definition RevokeOrgInvitation (now : Time) (hash : string) (s : Store) : error + Store :=
  match invitations s !! hash_key hash with
  | None => inl ErrNotFound
  | Some inv =>
      if settled inv then inl ErrOrgInvitationInvalid
      else inr (set_invitations (<[hash_key hash := revoke now inv]> (invitations s)) s)
  end.

Definition newer (a b : OrgInvitation) : bool := iCreatedAt b <? iCreatedAt a.

Definition ListOrgInvitationsForOrg (org : string) (s : Store) : list OrgInvitation :=
  go_sort newer (filter (λ inv, String.eqb (iOrgID inv) org) (values (invitations s))).

(** The order of a page: newest first, then by descending id. *)
Definition page_before (a b : OrgInvitation) : bool :=
  if iCreatedAt a =? iCreatedAt b then str_ltb (iID b) (iID a) else newer a b.

(** pkg/cursor: the compound key of a page and its wire form, the base64 form of a JSON object.
    [Local] is the offset, in seconds east of UTC, of the zone the process prints an instant in. *)
Record Key := mkKey { kCreatedAt : Time; kID : string }.

Definition zero_key : Key := mkKey zero_time EmptyString.

Definition key_IsZero (k : Key) : bool := (kCreatedAt k =? zero_time) || empty (kID k).

(** json.Marshal of a key; [None] is an error of Time.MarshalJSON. *)
Definition key_Marshal (Local : Time → Z) (k : Key) : option string :=
  t ← Rfc3339.format (Local (kCreatedAt k)) (kCreatedAt k);
  Some (String (chr 123) (Json.quoted "created_at" (String (chr 58) (Json.quoted t (String (chr 44)
         (Json.quoted "id" (String (chr 58) (Json.appendString (kID k) (String (chr 125) EmptyString))))))))).

(** A member of the object; names are matched up to case, a null changes nothing. *)
Definition key_member (k : Key) (m : string * Json.value) : option Key :=
  let '(name, v) := m in
  if EqualFold name "created_at" then
    match v with
    | Json.Null => Some k
    | Json.Str raw => t ← Rfc3339.parse raw; Some (mkKey t (kID k))
    | _ => None
    end
  else if EqualFold name "id" then
    match v with
    | Json.Null => Some k
    | Json.Str raw => Some (mkKey (kCreatedAt k) (Json.literal raw))
    | _ => None
    end
  else Some k.

(** json.Unmarshal into a key. *)
Definition key_Unmarshal (raw : string) : option Key :=
  v ← Json.parse_json raw;
  match v with
  | Json.Null => Some zero_key
  | Json.Obj members => foldl (λ k m, k ≫= λ k, key_member k m) (Some zero_key) members
  | _ => None
  end.

Definition cursor_Encode (Local : Time → Z) (k : Key) : string :=
  if key_IsZero k then EmptyString
  else match key_Marshal Local k with None => EmptyString | Some raw => URL64.EncodeToString raw end.

Definition cursor_Decode (s : string) : option Key :=
  if empty s then Some zero_key
  else
    raw ← URL64.DecodeString s;
    k ← key_Unmarshal raw;
    if key_IsZero k then None else Some k.

Definition at_key (k : Key) (inv : OrgInvitation) : bool :=
  (iCreatedAt inv =? kCreatedAt k) && String.eqb (iID inv) (kID k).

(** What follows the row of the key; all rows when no row has it. *)
Fixpoint find_key (k : Key) (l : list OrgInvitation) : option (list OrgInvitation) :=
  match l with
  | [] => None
  | inv :: l => if at_key k inv then Some l else find_key k l
  end.

Definition ListOrgInvitationsForOrgPage (org : string) (limit : Z) (before : string) (s : Store)
  : error + list OrgInvitation :=
  let limit := if (limit <=? 0) || (100 <? limit) then 25 else limit in
  let all := go_sort page_before (filter (λ inv, String.eqb (iOrgID inv) org) (values (invitations s))) in
  if empty before then inr (take (Z.to_nat limit) all)
  else
    match cursor_Decode before with
    | None => inl ErrInvalidCursor
    | Some k => inr (take (Z.to_nat limit) (default all (find_key k all)))
    end.

Definition pending (now : Time) (org : string) (inv : OrgInvitation) : bool :=
  String.eqb (iOrgID inv) org && negb (settled inv) && negb (expired now inv).

Definition CountPendingOrgInvitations (now : Time) (org : string) (s : Store) : Z :=
  map_count (pending now org) (invitations s).

(** The sweep tests the expiry alone: a zero expiry is swept. *)
Definition sweepable (now : Time) (inv : OrgInvitation) : bool := negb (settled inv) && (iExpiresAt inv <? now).

Definition ExpireOrgInvitations (now : Time) (s : Store) : Z * Store :=
  (map_count (sweepable now) (invitations s),
   set_invitations ((λ inv, if sweepable now inv then revoke now inv else inv) <$> invitations s) s).

(** *** Accounts *)

Definition AccountByID (id : string) (s : Store) : error + Account :=
  match accounts s !! id with Some a => inr a | None => inl ErrNotFound end.

Section signup.
(** [uuid.NewSHA1(PersonalOrgNamespace, id).String()] of the google/uuid package. *)
Context (NewSHA1 : string → string).

Fixpoint drop_dashes (s : string) : string :=
  match s with
  | EmptyString => s
  | String c s => if is_byte 45 c then drop_dashes s else String c (drop_dashes s)
  end.

Definition PersonalOrgSlug (accountID : string) : string := String.append "u-" (first 12 (drop_dashes (NewSHA1 accountID))).

Definition personal_org (orgID : string) (now : Time) (a : Account) : Org :=
  mkOrg orgID (PersonalOrgSlug (ID a)) "Personal" true (Some (ID a)) (Plan a) OrgStatusActive false now now.

Definition CreateAccountWithPersonalOrg (acctID orgID : string) (now : Time) (email plan : string) (s : Store)
  : error + (Account * Org * Store) :=
  if any_value (λ a, String.eqb (Email a) email) (accounts s) then inl ErrConflict
  else
    let a := mkAccount acctID email plan AccountActive now in
    (* the inserted account is taken out again *)
    if any_value (owned_by acctID) (orgs s) then inl ErrConflict
    else
      let o := personal_org orgID now a in
      inr (a, o, mkStore (<[acctID := a]> (accounts s)) (<[orgID := o]> (orgs s))
                   (<[ToLower (oSlug o) := orgID]> (orgsBySlug s))
                   (<[(orgID, acctID) := mkMember orgID acctID OrgRoleOwner None now None]> (memberships s))
                   (invitations s)).
End signup.

End OrgStore.

(** ** Authorization and the handlers *)

Module OrgApi.

Import Strings.
Import OrgStore.

(** *** Responses, the audit log and the monad *)

Definition CodeCapacity : string := "capacity_unavailable".
Definition CodeValidation : string := "validation_failed".
Definition CodeNotFound : string := "not_found".

Record OrgRow := mkOrgRow {
  rID : string; rSlug : string; rName : string; rPersonal : bool; rPlan : string; rStatus : string;
  rCreatedAt : Time; rUpdatedAt : Time;
}.
Record OrgMemberRow := mkMemberRow { wAccountID : string; wEmail : string; wRole : string; wJoinedAt : Time }.
Record OrgInvitationRow := mkInvitationRow {
  vID : string; vOrgID : string; vOrgSlug : string; vEmail : string; vRole : string; vStatus : string;
  vExpiresAt : Time; vCreatedAt : Time;
}.

Inductive body :=
| OrgBody (o : OrgRow)
| OrgsBody (l : list OrgRow)
| MemberBody (m : OrgMemberRow)
| MembersBody (l : list OrgMemberRow)
| InvitationBody (i : OrgInvitationRow)
| InvitationWithToken (i : OrgInvitationRow) (token : string)
| InvitationsBody (l : list OrgInvitationRow) (next : string)
| SeatUsage (used limit : Z) (plan : string).

Inductive response :=
| Problem (status : Z) (code title : string)
| JSON (status : Z) (b : body)
| NoContent.

Inductive field := FString (s : string) | FBool (b : bool) | FInt (n : Z) | FTime (t : Time).

Record AuditRow := mkAudit { kind : string; actor : option string; fields : list (string * field) }.

Record World := mkWorld { store : Store; audit : list AuditRow }.

Definition handler (A : Type) : Type := World → (response + A) * World.

#[global] Instance handler_ret : MRet handler := λ A a w, (inr a, w).
#[global] Instance handler_bind : MBind handler := λ A B f m w,
  match m w with
  | (inl r, w) => (inl r, w)
  | (inr a, w) => f a w
  end.

Definition answer {A} (r : response) : handler A := λ w, (inl r, w).
Definition Emit (kind : string) (actor : option string) (fields : list (string * field)) : handler () :=
  λ w, (inr tt, mkWorld (store w) (audit w ++ [mkAudit kind actor fields])).
Definition read {A} (f : Store → A) : handler A := λ w, (inr (f (store w)), w).

(** A store call that writes: its error, or its value with the store replaced. *)
Definition write {A} (f : Store → error + (A * Store)) : handler (error + A) := λ w,
  match f (store w) with
  | inl e => (inr (inl e), w)
  | inr (a, s) => (inr (inr a), mkWorld s (audit w))
  end.

Definition write_ (f : Store → error + Store) : handler (error + ()) :=
  write (λ s, match f s with inl e => inl e | inr s => inr (tt, s) end).

(** A guard that answers when the test fails. *)
Definition ensure (b : bool) (r : response) : handler () := if b then mret tt else answer r.

Definition or_answer {A} (x : error + A) (f : error → response) : handler A :=
  match x with inr a => mret a | inl e => answer (f e) end.

Definition internal (title : string) : response := Problem 500 CodeCapacity title.

Definition ErrOrgNotFound : response := Problem 404 "org_not_found" "Organization not found".
Definition ErrOrgSlugInvalid : response := Problem 422 "org_slug_invalid" "Invalid organization slug".
Definition ErrOrgSlugTaken : response := Problem 409 "org_slug_taken" "Organization slug in use".
Definition ErrOrgRoleForbidden : response := Problem 403 "org_role_forbidden" "Insufficient role for this action".
Definition MemberCapExceeded : response := Problem 403 "org_member_cap_exceeded" "Organization member limit reached".
Definition ErrOrgInvitationCapExceeded : response :=
  Problem 403 "org_invitation_cap_exceeded" "Organization invitation limit reached".
Definition AlreadyMember : response := Problem 409 "org_already_member" "Already a member of this organization".
Definition InvitationInvalid : response := Problem 410 "org_invitation_invalid" "Invitation invalid".
Definition LastOwner : response := Problem 409 "org_last_owner" "Cannot remove the last owner".
Definition ErrOrgPersonalImmutable : response :=
  Problem 409 "org_personal_immutable" "Personal organizations are immutable".

(** *** pkg/authz *)

Definition OrgActionView : string := "org.view".
Definition OrgActionManageMembers : string := "org.manage_members".
Definition OrgActionInviteMembers : string := "org.invite_members".
Definition OrgActionRemoveMembers : string := "org.remove_members".
Definition OrgActionChangeRole : string := "org.change_role".
Definition OrgActionTransferOwnership : string := "org.transfer_ownership".
Definition OrgActionManageBilling : string := "org.manage_billing".
Definition OrgActionChangePlan : string := "org.change_plan".
Definition OrgActionDelete : string := "org.delete".
Definition OrgActionCreateApiKey : string := "org.create_api_key".
Definition OrgActionRevokeApiKey : string := "org.revoke_api_key".

(** The roles each action is open to. *)
Definition allowRoleMatrix : list (string * list string) :=
  [(OrgActionView, [OrgRoleOwner; OrgRoleAdmin; OrgRoleDeveloper; OrgRoleViewer; OrgRoleBilling]);
   (OrgActionManageMembers, [OrgRoleOwner; OrgRoleAdmin]);
   (OrgActionInviteMembers, [OrgRoleOwner; OrgRoleAdmin]);
   (OrgActionRemoveMembers, [OrgRoleOwner]);
   (OrgActionChangeRole, [OrgRoleOwner]);
   (OrgActionTransferOwnership, [OrgRoleOwner]);
   (OrgActionManageBilling, [OrgRoleOwner; OrgRoleBilling]);
   (OrgActionChangePlan, [OrgRoleOwner]);
   (OrgActionDelete, [OrgRoleOwner]);
   (OrgActionCreateApiKey, [OrgRoleOwner; OrgRoleAdmin]);
   (OrgActionRevokeApiKey, [OrgRoleOwner; OrgRoleAdmin])].

Definition roles_for (action : string) : option (list string) :=
  snd <$> head (filter (λ p : string * list string, String.eqb (fst p) action) allowRoleMatrix).

Definition member_of (role : string) (l : list string) : bool := existsb (String.eqb role) l.

(** The request as a handler sees it.  The session middleware authenticated [caller]; [stamp] is the
    membership LoadOrg left, [None] when it resolved none: it stamps the request on the context only
    together with a membership. *)
Record Request := mkRequest {
  caller : Account;
  stamp : option OrgMembership;
}.

Definition emitAudit (acct action : string) (r : response) : handler () :=
  match r with
  | Problem status code _ =>
      Emit "authz.denied" None
        [("action", FString action); ("account_id", FString acct); ("status", FString code); ("http_status", FInt status)]
  | _ => mret tt
  end.

Definition deny {A} (acct action : string) (r : response) : handler A := _ ← emitAudit acct action r; answer r.

Definition AuthorizeOrgAction (q : Request) (action : string) : handler () :=
  match stamp q with
  | None => deny EmptyString action (internal "AuthorizeOrgAction wired before RequireSession")
  | Some mem =>
      match roles_for action with
      | None => deny (ID (caller q)) action (internal "Authorization table missing entry")
      | Some allowed =>
          if member_of (mRole mem) allowed then mret tt else deny (ID (caller q)) action ErrOrgRoleForbidden
      end
  end.

Definition maxSlugLen : Z := 64.

(** The request's header and query values of the organization hint. *)
Definition active_slug (header query : string) : string :=
  let slug := TrimSpace header in
  if empty slug then TrimSpace query else slug.

Definition handleLoadOrg (header query : string) (caller : Account) : handler Request :=
  let slug := active_slug header query in
  if empty slug || (maxSlugLen <? Z.of_nat (String.length slug)) then mret (mkRequest caller None)
  else
    org ← read (OrgBySlug slug);
    match org with
    | inl _ => deny (ID caller) "org.load.not_found" ErrOrgNotFound
    | inr org =>
        mem ← read (OrgMemberByAccount (oID org) (ID caller));
        match mem with
        | inl _ => deny (ID caller) "org.load.not_member" ErrOrgRoleForbidden
        | inr mem => mret (mkRequest caller (Some mem))
        end
    end.

(** *** org_dto.go *)

Definition orgToRow (o : Org) : OrgRow :=
  mkOrgRow (oID o) (oSlug o) (oName o) (oPersonal o) (oPlan o) (oStatus o) (oCreatedAt o) (oUpdatedAt o).

Definition memberToRow (s : Store) (m : OrgMembership) : OrgMemberRow :=
  mkMemberRow (mAccountID m)
    match AccountByID (mAccountID m) s with inr a => Email a | inl _ => EmptyString end
    (mRole m) (mJoinedAt m).

Definition DeriveOrgInvitationStatus (consumedAt revokedAt : option Time) (expiresAt now : Time) : string :=
  if bool_decide (is_Some consumedAt) then "consumed"
  else if bool_decide (is_Some revokedAt) then "revoked"
  else if negb (expiresAt =? zero_time) && (expiresAt <? now) then "expired"
  else "pending".

Definition invitationToRow (i : OrgInvitation) (orgSlug : string) (now : Time) : OrgInvitationRow :=
  mkInvitationRow (iID i) (iOrgID i) orgSlug (iEmail i) (iRole i)
    (DeriveOrgInvitationStatus (iConsumedAt i) (iRevokedAt i) (iExpiresAt i) now) (iExpiresAt i) (iCreatedAt i).

(** *** org_handler_helpers.go *)

Definition requireMembership (q : Request) : handler OrgMembership :=
  match stamp q with
  | Some mem => mret mem
  | None => answer (internal "LoadOrg wired before AuthorizeOrgAction")
  end.

Definition rehydrateMembership (mem : OrgMembership) (acct : string) : handler OrgMembership :=
  m ← read (OrgMemberByAccount (mOrgID mem) acct);
  or_answer m (λ _, internal "OrgMemberByAccount (post-update) failed").

Definition rehydrateOrg (mem : OrgMembership) : handler Org :=
  o ← read (OrgByID (mOrgID mem));
  or_answer o (λ _, internal "OrgByID (post-update) failed").

Definition loadMutableOrgByMembership (mem : OrgMembership) : handler Org :=
  o ← read (OrgByID (mOrgID mem));
  org ← or_answer o (λ _, internal "OrgByID failed");
  _ ← ensure (negb (oPersonal org)) ErrOrgPersonalImmutable;
  mret org.

Definition enforcePendingInvitationCap (now : Time) (org : Org) : handler () :=
  let limit := Plan.OrgPendingInvitationsMax (oPlan org) in
  if limit <=? 0 then mret tt
  else
    pending ← read (CountPendingOrgInvitations now (oID org));
    ensure (pending <? limit) ErrOrgInvitationCapExceeded.

Definition bad_request : response := Problem 400 CodeValidation "Bad request".
Definition decodeJSON {A} (req : option A) : handler A :=
  match req with Some a => mret a | None => answer bad_request end.

(** *** handlers_org.go *)

Definition listOrgsForCaller (acct : Account) : handler response :=
  orgs ← read (ListOrgsForAccount (ID acct));
  mret (JSON 200 (OrgsBody (orgToRow <$> orgs))).

Definition MinOrgSlugLen : Z := 3.
Definition MaxOrgSlugLen : Z := 32.

Definition slug_edge (c : Ascii.ascii) : bool := in_range 97 122 c || in_range 48 57 c.
Definition slug_inner (c : Ascii.ascii) : bool := slug_edge c || is_byte 45 c.

(** What follows the first character of OrgSlugPattern: up to the last one, which is an edge. *)
Fixpoint slug_tail (s : string) : bool :=
  match s with
  | EmptyString => false
  | String c EmptyString => slug_edge c
  | String c s => slug_inner c && slug_tail s
  end.

(** OrgSlugPattern, ^[a-z0-9][a-z0-9-]{1,30}[a-z0-9]$. *)
Definition OrgSlugPattern (s : string) : bool :=
  match s with
  | EmptyString => false
  | String c rest =>
      let n := Z.of_nat (String.length rest) in
      slug_edge c && (2 <=? n) && (n <=? 31) && slug_tail rest
  end.

(** [true] when the slug is valid. *)
Definition ValidateOrgSlug (slug : string) : bool :=
  let l := Z.of_nat (String.length slug) in
  if (l <? MinOrgSlugLen) || (MaxOrgSlugLen <? l) then false
  else if contains_byte 95 slug then false
  else OrgSlugPattern slug.

Record CreateOrgRequest := mkCreate { cSlug : string; cName : string }.

(** The two store calls of createSharedOrg are two critical sections: the first half ends with the new
    row in the store and no member. *)
Definition createSharedOrg_org (newID : string) (now : Time) (req : option CreateOrgRequest) : handler Org :=
  req ← decodeJSON req;
  let slug := TrimSpace (cSlug req) in
  let name := TrimSpace (cName req) in
  _ ← ensure (ValidateOrgSlug slug) ErrOrgSlugInvalid;
  _ ← ensure (negb (empty name)) (Problem 422 CodeValidation "Name required");
  r ← write (CreateOrg newID now
               (mkOrg EmptyString slug name false None EmptyString EmptyString false zero_time zero_time));
  or_answer r (λ e, match e with ErrConflict => ErrOrgSlugTaken | _ => internal "CreateOrg failed" end).

Definition createSharedOrg_owner (now : Time) (acct : Account) (newOrg : Org) : handler response :=
  r ← write_ (AddOrgMember now (oID newOrg) (ID acct) OrgRoleOwner (Some (ID acct)));
  _ ← or_answer r (λ e, match e with
                        | ErrOrgMemberCapExceeded => MemberCapExceeded
                        | _ => internal "AddOrgMember (initial owner) failed"
                        end);
  _ ← Emit "org.created" (Some (ID acct))
        [("org_id", FString (oID newOrg)); ("slug", FString (oSlug newOrg)); ("name", FString (oName newOrg))];
  mret (JSON 201 (OrgBody (orgToRow newOrg))).

Definition createSharedOrg (newID : string) (now : Time) (req : option CreateOrgRequest) (acct : Account)
  : handler response :=
  newOrg ← createSharedOrg_org newID now req;
  createSharedOrg_owner now acct newOrg.

Definition getOrg (q : Request) : handler response :=
  _ ← AuthorizeOrgAction q OrgActionView;
  mem ← requireMembership q;
  o ← read (OrgByID (mOrgID mem));
  org ← or_answer o (λ _, internal "OrgByID failed");
  mret (JSON 200 (OrgBody (orgToRow org))).

Record PatchOrgRequest := mkPatch { pName : option string; pPlan : option string }.

Definition authorizeOrgPatchFields (q : Request) (req : PatchOrgRequest) : handler () :=
  _ ← (if bool_decide (is_Some (pPlan req)) then AuthorizeOrgAction q OrgActionChangePlan else mret tt);
  if bool_decide (is_Some (pName req)) then AuthorizeOrgAction q OrgActionManageBilling else mret tt.

Definition isKnownPlan (p : string) : bool := member_of p Plans.

Definition resolveOrgPatchFields (req : PatchOrgRequest) : handler (string * string) :=
  let newName := default EmptyString (TrimSpace <$> pName req) in
  let newPlan := default EmptyString (TrimSpace <$> pPlan req) in
  _ ← ensure (bool_decide (pName req = None) || negb (empty newName)) (Problem 422 CodeValidation "Name required");
  _ ← ensure (bool_decide (pPlan req = None) || isKnownPlan newPlan) ErrOrgSlugInvalid;
  mret (newName, newPlan).

Definition applyOrgFieldUpdates (now : Time) (org : string) (req : PatchOrgRequest) (newName newPlan : string)
  : handler () :=
  _ ← (if bool_decide (is_Some (pName req)) then
         r ← write_ (UpdateOrgName now org newName); or_answer r (λ _, internal "UpdateOrgName failed")
       else mret tt);
  if bool_decide (is_Some (pPlan req)) then
    r ← write_ (UpdateOrgPlan now org newPlan); or_answer r (λ _, internal "UpdateOrgPlan failed")
  else mret tt.

Definition patchOrg (now : Time) (q : Request) (req : option PatchOrgRequest) : handler response :=
  req ← decodeJSON req;
  _ ← ensure (bool_decide (is_Some (pName req)) || bool_decide (is_Some (pPlan req)))
        (Problem 422 CodeValidation "No fields to update");
  mem ← requireMembership q;
  _ ← authorizeOrgPatchFields q req;
  fields ← resolveOrgPatchFields req;
  org ← loadMutableOrgByMembership mem;
  _ ← applyOrgFieldUpdates now (oID org) req fields.1 fields.2;
  _ ← Emit "org.updated" None
        [("org_id", FString (oID org)); ("name", FBool (bool_decide (is_Some (pName req))));
         ("plan", FBool (bool_decide (is_Some (pPlan req))))];
  updated ← rehydrateOrg mem;
  mret (JSON 200 (OrgBody (orgToRow updated))).

Definition softDeleteOrg (now : Time) (q : Request) : handler response :=
  _ ← AuthorizeOrgAction q OrgActionDelete;
  mem ← requireMembership q;
  org ← loadMutableOrgByMembership mem;
  r ← write_ (SoftDeleteOrg now (oID org));
  _ ← or_answer r (λ _, internal "SoftDeleteOrg failed");
  _ ← Emit "org.deleted" (Some (ID (caller q)))
        [("org_id", FString (oID org)); ("slug", FString (oSlug org)); ("soft", FBool true)];
  mret NoContent.

Definition getOrgSeatUsage (q : Request) : handler response :=
  _ ← AuthorizeOrgAction q OrgActionView;
  mem ← requireMembership q;
  o ← read (OrgByID (mOrgID mem));
  org ← or_answer o (λ _, internal "OrgByID failed");
  used ← read (CountActiveOrgMembers (oID org));
  mret (JSON 200 (SeatUsage used (Plan.OrgMembersMax (oPlan org)) (oPlan org))).

(** *** handlers_org_members.go *)

Definition AllowedOrgMemberRolesForInvite : list string :=
  [OrgRoleAdmin; OrgRoleDeveloper; OrgRoleViewer; OrgRoleBilling].

Definition defaultOrgInvitationTtl : Duration := 14 * 24 * Hour.

Definition containsOrgMemberRoleForInvite (role : string) : bool := member_of role AllowedOrgMemberRolesForInvite.
Definition containsOrgDirectPatchRole (role : string) : bool := member_of role AllowedOrgMemberRolesForInvite.

Definition listOrgMembers (q : Request) : handler response :=
  _ ← AuthorizeOrgAction q OrgActionView;
  mem ← requireMembership q;
  rows ← read (ListOrgMembers (mOrgID mem));
  out ← read (λ s, memberToRow s <$> filter active rows);
  mret (JSON 200 (MembersBody out)).

Record InviteMemberRequest := mkInvite { nEmail : string; nRole : string }.

Section invitations.
(** crypto/sha256. *)
Context (sha256 : string → string).

(** [rand] is what crypto/rand delivers. *)
Definition mintOrgInvitationToken (rand : option string) : handler (string * string) :=
  match rand with
  | None => answer (internal "crypto/rand failed")
  | Some plaintext => mret (RawURL.EncodeToString plaintext, sha256 plaintext)
  end.

Definition persistOrgInvitation (newID : string) (now : Time) (org : Org) (base : OrgInvitation)
  : handler OrgInvitation :=
  r ← write (CreateOrgInvitation newID now
               (mkInvitation (iID base) (oID org) (iEmail base) (iRole base) (iTokenHash base)
                  (iInvitedByAccountID base) (time_add now defaultOrgInvitationTtl) (iConsumedAt base)
                  (iRevokedAt base) (iAcceptingAccountID base) now));
  or_answer r (λ e, match e with
                    | ErrConflict => internal "CreateOrgInvitation collided"
                    | _ => internal "CreateOrgInvitation failed"
                    end).

Definition inviteOrgMember (newID : string) (rand : option string) (now : Time) (q : Request)
    (req : option InviteMemberRequest) : handler response :=
  _ ← AuthorizeOrgAction q OrgActionInviteMembers;
  mem ← requireMembership q;
  req ← decodeJSON req;
  let email := TrimSpace (ToLower (nEmail req)) in
  let role := TrimSpace (nRole req) in
  _ ← ensure (negb (empty email)) (Problem 422 CodeValidation "Email required");
  _ ← ensure (containsOrgMemberRoleForInvite role) ErrOrgRoleForbidden;
  org ← loadMutableOrgByMembership mem;
  _ ← enforcePendingInvitationCap now org;
  token ← mintOrgInvitationToken rand;
  inv ← persistOrgInvitation newID now org
          (mkInvitation EmptyString EmptyString email role token.2 (Some (ID (caller q))) zero_time None None None
             zero_time);
  _ ← Emit "org.invitation.created" (Some (ID (caller q)))
        [("org_id", FString (oID org)); ("slug", FString (oSlug org)); ("email", FString email);
         ("role", FString role); ("expires_at", FTime (iExpiresAt inv))];
  mret (JSON 201 (InvitationWithToken (invitationToRow inv (oSlug org) now) token.1)).

Definition changeOrgMemberRole (q : Request) (targetID : string) (req : option string) : handler response :=
  _ ← AuthorizeOrgAction q OrgActionChangeRole;
  mem ← requireMembership q;
  _ ← ensure (negb (empty targetID)) (Problem 400 CodeValidation "Missing user_id");
  req ← decodeJSON req;
  let role := TrimSpace req in
  _ ← ensure (containsOrgDirectPatchRole role) ErrOrgRoleForbidden;
  r ← write_ (UpdateOrgMemberRole (mOrgID mem) targetID role);
  _ ← or_answer r (λ e, match e with
                        | ErrNotFound => Problem 404 CodeNotFound "Member not found"
                        | ErrOrgLastOwner => LastOwner
                        | _ => internal "UpdateOrgMemberRole failed"
                        end);
  _ ← Emit "org.member.role_changed" (Some (ID (caller q)))
        [("org_id", FString (mOrgID mem)); ("target_account", FString targetID); ("new_role", FString role)];
  updated ← rehydrateMembership mem targetID;
  row ← read (λ s, memberToRow s updated);
  mret (JSON 200 (MemberBody row)).

Definition removeOrgMember (now : Time) (q : Request) (targetID : string) : handler response :=
  _ ← AuthorizeOrgAction q OrgActionRemoveMembers;
  mem ← requireMembership q;
  _ ← ensure (negb (empty targetID)) (Problem 400 CodeValidation "Missing user_id");
  _ ← ensure (negb (String.eqb targetID (mAccountID mem))) (Problem 409 CodeValidation "Cannot remove self");
  r ← write_ (RemoveOrgMember now (mOrgID mem) targetID);
  _ ← or_answer r (λ e, match e with
                        | ErrNotFound => Problem 404 CodeNotFound "Member not found"
                        | ErrOrgLastOwner => LastOwner
                        | _ => internal "RemoveOrgMember failed"
                        end);
  _ ← Emit "org.member.removed" (Some (ID (caller q)))
        [("org_id", FString (mOrgID mem)); ("target_account", FString targetID)];
  mret NoContent.

(** *** handlers_org_invitations.go

    The role that ErrOrgAlreadyMember names in its detail is read after the refusal and left out. *)

(** The hash of a token of a request path. *)
Definition token_hash (token : string) : handler string :=
  if empty token then answer InvitationInvalid
  else
    match RawURL.DecodeString token with
    | None => answer InvitationInvalid
    | Some plaintext => mret (sha256 plaintext)
    end.

Definition peekInvitation (now : Time) (token : string) : handler response :=
  hash ← token_hash token;
  i ← read (OrgInvitationByTokenHash hash);
  inv ← or_answer i (λ _, InvitationInvalid);
  o ← read (OrgByID (iOrgID inv));
  org ← or_answer o (λ _, internal "OrgByID failed");
  let status := DeriveOrgInvitationStatus (iConsumedAt inv) (iRevokedAt inv) (iExpiresAt inv) now in
  _ ← ensure (negb (member_of status ["consumed"; "revoked"; "expired"]%string)) InvitationInvalid;
  mret (JSON 200 (InvitationBody (invitationToRow inv (oSlug org) now))).

Definition transferOrgOwnership (q : Request) (req : option string) : handler response :=
  _ ← AuthorizeOrgAction q OrgActionTransferOwnership;
  mem ← requireMembership q;
  req ← decodeJSON req;
  let newOwnerID := TrimSpace req in
  _ ← ensure (negb (empty newOwnerID)) (Problem 400 CodeValidation "Missing new_owner_account_id");
  _ ← ensure (negb (String.eqb newOwnerID (mAccountID mem))) (Problem 409 CodeValidation "Already owner");
  r ← write_ (TransferOrgOwnership (mOrgID mem) (mAccountID mem) newOwnerID);
  _ ← or_answer r (λ e, match e with
                        | ErrNotFound => Problem 404 CodeNotFound "Member not found"
                        | ErrOrgLastOwner => LastOwner
                        | _ => internal "TransferOrgOwnership failed"
                        end);
  _ ← Emit "org.ownership_transferred" (Some (ID (caller q)))
        [("org_id", FString (mOrgID mem)); ("from_account", FString (ID (caller q))); ("to_account", FString newOwnerID)];
  updated ← rehydrateOrg mem;
  mret (JSON 200 (OrgBody (orgToRow updated))).

Definition acceptInvitation (now : Time) (token : string) (acct : Account) : handler response :=
  hash ← token_hash token;
  r ← write (λ s, match ConsumeOrgInvitation now hash acct s with
                  | inl e => inl e
                  | inr (m, inv, s) => inr ((m, inv), s)
                  end);
  accepted ← or_answer r (λ e, match e with
                               | ErrOrgInvitationInvalid | ErrOrgInvitationExpired => InvitationInvalid
                               | ErrOrgAlreadyMember => AlreadyMember
                               | ErrOrgMemberCapExceeded => MemberCapExceeded
                               | _ => internal "ConsumeOrgInvitation failed"
                               end);
  let m := accepted.1 in
  let inv := accepted.2 in
  let fields role := [("org_id", FString (iOrgID inv)); ("email", FString (iEmail inv)); ("role", FString role);
                      ("invitation", FString (iID inv))]%string in
  _ ← Emit "org.invitation.accepted" (Some (ID acct)) (fields (iRole inv));
  _ ← Emit "org.member.added" (Some (ID acct)) (fields (mRole m));
  row ← read (λ s, memberToRow s m);
  mret (JSON 200 (MemberBody row)).

Definition revokeInvitation (now : Time) (q : Request) (token : string) : handler response :=
  _ ← AuthorizeOrgAction q OrgActionInviteMembers;
  mem ← requireMembership q;
  hash ← token_hash token;
  r ← write_ (RevokeOrgInvitation now hash);
  _ ← or_answer r (λ e, match e with
                        | ErrOrgInvitationInvalid | ErrNotFound => InvitationInvalid
                        | _ => internal "RevokeOrgInvitation failed"
                        end);
  _ ← Emit "org.invitation.revoked" (Some (ID (caller q)))
        [("org_id", FString (mOrgID mem)); ("token_hash_prefix", FString (first 8 (RawURL.EncodeToString hash)))];
  mret NoContent.

End invitations.

(** api.ParseLimit: the default for an empty value, [None] for a bad one. *)
Definition ParseLimit (raw : string) (defaultN maxN : Z) : option Z :=
  if empty raw then Some defaultN
  else
    match Atoi raw with
    | Some n => if (n <? 1) || (maxN <? n) then None else Some n
    | None => None
    end.

Definition next_before (Local : Time → Z) (limit : Z) (rows : list OrgInvitation) : string :=
  match last rows with
  | Some inv =>
      if Z.of_nat (length rows) =? limit then cursor_Encode Local (mkKey (iCreatedAt inv) (iID inv)) else EmptyString
  | None => EmptyString
  end.

Definition listOrgInvitations (now : Time) (Local : Time → Z) (q : Request) (rawLimit before : string)
  : handler response :=
  _ ← AuthorizeOrgAction q OrgActionView;
  mem ← requireMembership q;
  limit ← match ParseLimit rawLimit 25 100 with
          | Some n => mret n
          | None => answer (Problem 400 CodeValidation "Bad limit")
          end;
  r ← read (ListOrgInvitationsForOrgPage (mOrgID mem) limit before);
  rows ← or_answer r (λ e, match e with
                           | ErrInvalidCursor => Problem 400 "invalid_cursor" "Invalid cursor"
                           | _ => internal "ListOrgInvitationsForOrgPage failed"
                           end);
  o ← read (OrgByID (mOrgID mem));
  org ← or_answer o (λ _, internal "OrgByID failed");
  let next := next_before Local limit rows in
  _ ← Emit "org.invitation.viewed" (Some (ID (caller q)))
        [("org_id", FString (mOrgID mem)); ("row_count", FInt (Z.of_nat (length rows)));
         ("had_next_page", FBool (negb (empty next)))];
  mret (JSON 200 (InvitationsBody ((λ i, invitationToRow i (oSlug org) now) <$> rows) next)).

End OrgApi.
