(* ===== verification/OrgRun.v ===== *)
(** * Organizations under concurrent requests

    Module [OrgRun] interleaves the requests of src/cmd/apid that act on organizations.  LoadOrg and the
    handler behind it are separate steps: a handler works with the membership LoadOrg read any number of
    steps ago.  The two store calls of createSharedOrg are separate steps as well, and the second may never
    happen.  The rest of a handler is one step.  The theorems are about every state such a run reaches. *)

From S2P Require Import Prelude Api GoStd GoWire Orgs.
#[local] Open Scope Z_scope.
#[local] Open Scope go_scope.

Module OrgRun.

Import Strings.
Import OrgStore.
Import OrgApi.

(** ** Runs *)

(** The requests of a route with an active organization. *)
Inductive call :=
| Get
| Seats
| Members
| Invitations (now : Time) (Local : Time → Z) (limit before : string)
| Patch (now : Time) (req : option PatchOrgRequest)
| SoftDelete (now : Time)
| Invite (newID : string) (rand : option string) (now : Time) (req : option InviteMemberRequest)
| ChangeRole (target : string) (req : option string)
| Remove (now : Time) (target : string)
| Transfer (req : option string)
| Revoke (now : Time) (token : string).

Definition serve (sha256 : string → string) (q : Request) (c : call) : handler response :=
  match c with
  | Get => getOrg q
  | Seats => getOrgSeatUsage q
  | Members => listOrgMembers q
  | Invitations now Local limit before => listOrgInvitations now Local q limit before
  | Patch now req => patchOrg now q req
  | SoftDelete now => softDeleteOrg now q
  | Invite newID rand now req => inviteOrgMember sha256 newID rand now q req
  | ChangeRole target req => changeOrgMemberRole q target req
  | Remove now target => removeOrgMember now q target
  | Transfer req => transferOrgOwnership q req
  | Revoke now token => revokeInvitation sha256 now q token
  end.

(** The system: the store and the audit log, the requests LoadOrg let through, the organizations whose
    owner is still to be seeded, and who founded which organization (a ghost). *)
Record System := mkSystem {
  world : World;
  loaded : list Request;
  unseeded : list (Org * Account);
  founder : gmap string string;
}.

Definition start : System := mkSystem (mkWorld empty_store []) [] [] ∅.

Section run.
Context (sha256 NewSHA1 : string → string).

Inductive step : System → System → Prop :=
| step_signup S acctID orgID now email plan a o s' :
    accounts (store (world S)) !! acctID = None → orgs (store (world S)) !! orgID = None →
    CreateAccountWithPersonalOrg NewSHA1 acctID orgID now email plan (store (world S)) = inr (a, o, s') →
    step S (mkSystem (mkWorld s' (audit (world S))) (loaded S) (unseeded S) (<[orgID := acctID]> (founder S)))
| step_load S header query a r w' :
    accounts (store (world S)) !! ID a = Some a →
    handleLoadOrg header query a (world S) = (r, w') →
    step S (mkSystem w' (match r with inr q => q :: loaded S | inl _ => loaded S end) (unseeded S) (founder S))
| step_serve S q c r w' :
    q ∈ loaded S → serve sha256 q c (world S) = (r, w') →
    step S (mkSystem w' (loaded S) (unseeded S) (founder S))
| step_create S a newID now req r w' :
    accounts (store (world S)) !! ID a = Some a →
    newID ≠ EmptyString → orgs (store (world S)) !! newID = None →
    createSharedOrg_org newID now req (world S) = (r, w') →
    step S (match r with
            | inr o => mkSystem w' (loaded S) ((o, a) :: unseeded S) (<[oID o := ID a]> (founder S))
            | inl _ => mkSystem w' (loaded S) (unseeded S) (founder S)
            end)
| step_seed S l1 o a l2 now r w' :
    unseeded S = l1 ++ (o, a) :: l2 → createSharedOrg_owner now a o (world S) = (r, w') →
    step S (mkSystem w' (loaded S) (l1 ++ l2) (founder S))
| step_accept S a now token r w' :
    accounts (store (world S)) !! ID a = Some a →
    acceptInvitation sha256 now token a (world S) = (r, w') →
    step S (mkSystem w' (loaded S) (unseeded S) (founder S))
| step_expire S now :
    step S (mkSystem (mkWorld (ExpireOrgInvitations now (store (world S))).2 (audit (world S)))
              (loaded S) (unseeded S) (founder S)).

Definition reachable : System → Prop := rtc step start.
End run.

(** ** What a request may do to the store *)

Definition permitted (action role : string) : bool :=
  match roles_for action with Some l => member_of role l | None => false end.

(** A row of an organization with its identity kept. *)
Definition same_identity (o o' : Org) : Prop :=
  oID o' = oID o ∧ oSlug o' = oSlug o ∧ oPersonal o' = oPersonal o
  ∧ oPersonalOwnerAccountID o' = oPersonalOwnerAccountID o ∧ oCreatedAt o' = oCreatedAt o.

(** A store after an update of one shared organization's row. *)
Definition org_updated (id : string) (s s' : Store) : Prop :=
  ∃ o o', orgs s !! id = Some o ∧ oPersonal o = false ∧ same_identity o o' ∧ s' = set_orgs (<[id := o']> (orgs s)) s.

Definition is_owner (m : OrgMembership) : Prop := mRole m = OrgRoleOwner ∧ mRemovedAt m = None.

(** The rows the requests write. *)
Definition patched (now : Time) (req : PatchOrgRequest) (o : Org) : Org :=
  mkOrg (oID o) (oSlug o) (default (oName o) (TrimSpace <$> pName req)) (oPersonal o) (oPersonalOwnerAccountID o)
    (default (oPlan o) (TrimSpace <$> pPlan req)) (oStatus o) (oDeletedPending o) (oCreatedAt o) now.

Definition soft_deleted (now : Time) (o : Org) : Org :=
  mkOrg (oID o) (oSlug o) (oName o) (oPersonal o) (oPersonalOwnerAccountID o) (oPlan o) OrgStatusDeletedPending true
    (oCreatedAt o) now.

Definition issued (sha256 : string → string) (newID plaintext : string) (now : Time) (caller org : string)
    (req : InviteMemberRequest) : OrgInvitation :=
  mkInvitation newID org (TrimSpace (ToLower (nEmail req))) (TrimSpace (nRole req)) (sha256 plaintext) (Some caller)
    (time_add now defaultOrgInvitationTtl) None None None now.

Definition removed (now : Time) (m : OrgMembership) : OrgMembership :=
  mkMember (mOrgID m) (mAccountID m) (mRole m) (mInvitedByAccountID m) (mJoinedAt m) (Some now).

(** The write each request may make with a loaded membership: the specification of the handlers.  The
    calls without a constructor write nothing. *)
Inductive effect (sha256 : string → string) (q : Request) (mem : OrgMembership) (s : Store) : call → Store → Prop :=
| eff_patch now req o :
    (is_Some (pPlan req) → mRole mem ∈ [OrgRoleOwner]) →
    (is_Some (pName req) → mRole mem ∈ [OrgRoleOwner; OrgRoleBilling]) →
    (∀ n, pName req = Some n → TrimSpace n ≠ EmptyString) →
    (∀ p, pPlan req = Some p → TrimSpace p ∈ Plans) →
    orgs s !! mOrgID mem = Some o → oPersonal o = false →
    effect sha256 q mem s (Patch now (Some req)) (set_orgs (<[mOrgID mem := patched now req o]> (orgs s)) s)
| eff_delete now o :
    mRole mem ∈ [OrgRoleOwner] →
    orgs s !! mOrgID mem = Some o → oPersonal o = false →
    effect sha256 q mem s (SoftDelete now) (set_orgs (<[mOrgID mem := soft_deleted now o]> (orgs s)) s)
| eff_invite newID p now req o :
    mRole mem ∈ [OrgRoleOwner; OrgRoleAdmin] →
    orgs s !! mOrgID mem = Some o → oPersonal o = false →
    TrimSpace (ToLower (nEmail req)) ≠ EmptyString →
    TrimSpace (nRole req) ∈ [OrgRoleAdmin; OrgRoleDeveloper; OrgRoleViewer; OrgRoleBilling] →
    (0 < Plan.OrgPendingInvitationsMax (oPlan o) →
     CountPendingOrgInvitations now (mOrgID mem) s < Plan.OrgPendingInvitationsMax (oPlan o)) →
    invitations s !! hash_key (sha256 p) = None →
    effect sha256 q mem s (Invite newID (Some p) now (Some req))
      (set_invitations (<[hash_key (sha256 p) := issued sha256 newID p now (ID (caller q)) (mOrgID mem) req]>
                          (invitations s)) s)
| eff_role target role m :
    mRole mem ∈ [OrgRoleOwner] →
    TrimSpace role ∈ [OrgRoleAdmin; OrgRoleDeveloper; OrgRoleViewer; OrgRoleBilling] →
    memberships s !! (mOrgID mem, target) = Some m → ¬ is_owner m →
    effect sha256 q mem s (ChangeRole target (Some role))
      (set_memberships (<[(mOrgID mem, target) := set_role (TrimSpace role) m]> (memberships s)) s)
| eff_remove now target m :
    mRole mem ∈ [OrgRoleOwner] → target ≠ mAccountID mem →
    memberships s !! (mOrgID mem, target) = Some m → ¬ is_owner m →
    effect sha256 q mem s (Remove now target)
      (set_memberships (<[(mOrgID mem, target) := removed now m]> (memberships s)) s)
| eff_transfer to m n :
    mRole mem ∈ [OrgRoleOwner] → mAccountID mem ≠ TrimSpace to →
    memberships s !! (mOrgID mem, mAccountID mem) = Some m → is_owner m →
    memberships s !! (mOrgID mem, TrimSpace to) = Some n → mRemovedAt n = None →
    effect sha256 q mem s (Transfer (Some to))
      (set_memberships (<[(mOrgID mem, TrimSpace to) := set_role OrgRoleOwner n]>
                          (<[(mOrgID mem, mAccountID mem) := set_role OrgRoleAdmin m]> (memberships s))) s)
| eff_revoke now token p i :
    mRole mem ∈ [OrgRoleOwner; OrgRoleAdmin] → RawURL.DecodeString token = Some p →
    invitations s !! hash_key (sha256 p) = Some i → settled i = false →
    effect sha256 q mem s (Revoke now token)
      (set_invitations (<[hash_key (sha256 p) := revoke now i]> (invitations s)) s).

(** ** Handlers and the store *)

(** A computation that leaves the store alone. *)
Definition still {A} (m : handler A) : Prop := ∀ w, store (m w).2 = store w.

Create HintDb orgs.

Lemma still_ret {A} (a : A) : still (mret a).
Proof. done. Qed.
Lemma still_answer {A} r : still (@answer A r).
Proof. done. Qed.
Lemma still_emit k a f : still (Emit k a f).
Proof. done. Qed.
Lemma still_read {A} (f : Store → A) : still (read f).
Proof. done. Qed.
Lemma still_ensure b r : still (ensure b r).
Proof. by destruct b. Qed.
Lemma still_or_answer {A} (x : error + A) f : still (or_answer x f).
Proof. by destruct x. Qed.
Lemma still_decode {A} (x : option A) : still (decodeJSON x).
Proof. by destruct x. Qed.
#[local] Hint Resolve still_ret still_answer still_emit still_read still_ensure still_or_answer still_decode : orgs.

Lemma still_bind {A B} (m : handler A) (f : A → handler B) : still m → (∀ a, still (f a)) → still (m ≫= f).
Proof.
  intros Hm Hf w. unfold mbind, handler_bind. specialize (Hm w). destruct (m w) as [[r|a] w1]; simpl in *; [done|].
  by rewrite Hf.
Qed.
#[local] Hint Resolve still_bind : orgs.

(** A property of the store passes a computation that leaves it alone, and the computation's result can be
    used for the rest. *)
Lemma pass_bind {A B} (m : handler A) (f : A → handler B) w (P : Store → Prop) :
  still m → P (store w) →
  (∀ a w1, m w = (inr a, w1) → store w1 = store w → P (store (f a w1).2)) → P (store ((m ≫= f) w).2).
Proof.
  intros Hm HP Hf. unfold mbind, handler_bind. specialize (Hm w). specialize (Hf).
  destruct (m w) as [[r|a] w1]; simpl in *; [by rewrite Hm|by apply Hf].
Qed.

(** What comes after a write leaves the store alone. *)
Lemma write_bind {A B} (g : Store → error + (A * Store)) (f : error + A → handler B) w (P : Store → Prop) :
  P (store w) → (∀ x, still (f x)) → (∀ a s', g (store w) = inr (a, s') → P s') → P (store ((write g ≫= f) w).2).
Proof.
  intros HP Hf Hg. unfold mbind, handler_bind, write.
  destruct (g (store w)) as [e|[a s']]; rewrite Hf; [done|]. by apply (Hg a).
Qed.

Lemma write_unit_bind {B} (g : Store → error + Store) (f : error + () → handler B) w (P : Store → Prop) :
  P (store w) → (∀ x, still (f x)) → (∀ s', g (store w) = inr s' → P s') → P (store ((write_ g ≫= f) w).2).
Proof.
  intros HP Hf Hg. unfold write_. apply (write_bind _ f w P); [done|done|]. intros [] s'.
  destruct (g (store w)) as [|s] eqn:E; [done|]. intros [= <-]. by apply Hg.
Qed.

Lemma ensure_inr b r a w w' : ensure b r w = (inr a, w') → b = true.
Proof. by destruct b. Qed.

Lemma or_answer_inr {A} (x : error + A) f a w w' : or_answer x f w = (inr a, w') → x = inr a.
Proof. destruct x; [done|]. by intros [= -> _]. Qed.

Lemma still_deny {A} acct action r : still (@deny A acct action r).
Proof. by destruct r. Qed.
#[local] Hint Resolve still_deny : orgs.

Lemma still_authorize q action : still (AuthorizeOrgAction q action).
Proof.
  unfold AuthorizeOrgAction. destruct (stamp q); [|auto with orgs].
  destruct (roles_for action); [|auto with orgs]. destruct (member_of _ _); auto with orgs.
Qed.

Lemma authorize_inr q action a w w' :
  AuthorizeOrgAction q action w = (inr a, w') → ∃ mem, stamp q = Some mem ∧ permitted action (mRole mem) = true.
Proof.
  unfold AuthorizeOrgAction, permitted. destruct (stamp q) as [mem|]; [|done].
  destruct (roles_for action) as [l|]; [|done]. destruct (member_of _ _) eqn:E; [|done]. by exists mem.
Qed.

Lemma still_membership q : still (requireMembership q).
Proof. unfold requireMembership. destruct (stamp q); auto with orgs. Qed.

Lemma membership_inr q mem w w' : requireMembership q w = (inr mem, w') → stamp q = Some mem.
Proof. unfold requireMembership. destruct (stamp q); [|done]. by intros [= -> _]. Qed.
#[local] Hint Resolve still_authorize still_membership : orgs.

Lemma still_mutable mem : still (loadMutableOrgByMembership mem).
Proof. unfold loadMutableOrgByMembership. auto 10 with orgs. Qed.

Lemma mutable_inr mem o w w' :
  loadMutableOrgByMembership mem w = (inr o, w') → orgs (store w) !! mOrgID mem = Some o ∧ oPersonal o = false.
Proof.
  unfold loadMutableOrgByMembership, mbind, handler_bind, read, OrgByID.
  destruct (orgs (store w) !! mOrgID mem) as [o'|]; simpl; [|done].
  destruct (oPersonal o') eqn:E; simpl; [done|]. by intros [= -> _].
Qed.

Lemma still_pending_cap now o : still (enforcePendingInvitationCap now o).
Proof. unfold enforcePendingInvitationCap. destruct (_ <=? _); auto with orgs. Qed.

Lemma still_token sha256 token : still (token_hash sha256 token).
Proof. unfold token_hash. destruct (empty token); [|destruct (RawURL.DecodeString _)]; auto with orgs. Qed.

Lemma still_rehydrate mem acct : still (rehydrateMembership mem acct).
Proof. unfold rehydrateMembership. auto with orgs. Qed.

Lemma still_rehydrate_org mem : still (rehydrateOrg mem).
Proof. unfold rehydrateOrg. auto with orgs. Qed.

Lemma still_patch_fields q req : still (authorizeOrgPatchFields q req).
Proof. unfold authorizeOrgPatchFields. repeat case_bool_decide; auto 10 with orgs. Qed.

Lemma still_resolve req : still (resolveOrgPatchFields req).
Proof. unfold resolveOrgPatchFields. auto 10 with orgs. Qed.

Lemma still_mint sha256 rand : still (mintOrgInvitationToken sha256 rand).
Proof. unfold mintOrgInvitationToken. destruct rand; auto with orgs. Qed.
#[local] Hint Resolve still_mutable still_pending_cap still_token still_rehydrate still_rehydrate_org still_patch_fields
  still_resolve still_mint : orgs.

Lemma still_getOrg q : still (getOrg q).
Proof. unfold getOrg. auto 20 with orgs. Qed.
Lemma still_seats q : still (getOrgSeatUsage q).
Proof. unfold getOrgSeatUsage. auto 20 with orgs. Qed.
Lemma still_members q : still (listOrgMembers q).
Proof. unfold listOrgMembers. auto 20 with orgs. Qed.
Lemma still_invitations now Local q limit before : still (listOrgInvitations now Local q limit before).
Proof.
  unfold listOrgInvitations. repeat (apply still_bind; [auto with orgs|intros ?]).
  destruct (ParseLimit _ _ _); auto with orgs. all: auto 20 with orgs.
Qed.

(** ** Every handler refines the specification *)

(** The store before and after a request. *)
Definition refines (sha256 : string → string) (q : Request) (c : call) (s s' : Store) : Prop :=
  s' = s ∨ ∃ mem, stamp q = Some mem ∧ effect sha256 q mem s c s'.

Lemma refines_still {A} sha256 q c (m : handler A) w : still m → refines sha256 q c (store w) (store (m w).2).
Proof. intros H. left. apply H. Qed.

(** Peels the next computation that leaves the store alone off the goal. *)
Ltac pass a w' H :=
  lazymatch goal with
  | Hw : store ?w = ?s |- refines ?h ?q ?c ?s (store (@mbind handler handler_bind _ _ ?f ?m ?w).2) =>
      let Hs := fresh "Hw" in
      apply (pass_bind m f w (refines h q c s));
        [auto 10 with orgs|left; exact Hw|intros a w' H Hs; apply (λ E, eq_trans E Hw) in Hs]
  end.

Lemma field_updates now id req n p w o :
  orgs (store w) !! id = Some o → is_Some (pName req) ∨ is_Some (pPlan req) →
  n = default EmptyString (TrimSpace <$> pName req) → p = default EmptyString (TrimSpace <$> pPlan req) →
  store (applyOrgFieldUpdates now id req n p w).2 = set_orgs (<[id := patched now req o]> (orgs (store w))) (store w).
Proof.
  intros Ho Hf -> ->. unfold applyOrgFieldUpdates, UpdateOrgName, UpdateOrgPlan, update_org, patched.
  destruct (pName req), (pPlan req); [..|by destruct Hf as [[]|[]]];
    unfold mbind, handler_bind, write_, write, set_orgs; rewrite ?Ho; cbn -[lookup insert];
    do 2 (rewrite ?Ho, ?lookup_insert_eq; cbn -[lookup insert]); by rewrite ?insert_insert_eq.
Qed.

Lemma still_tail {A B} (m : handler A) (f : A → handler B) w :
  (∀ a, still (f a)) → store ((m ≫= f) w).2 = store (m w).2.
Proof.
  intros Hf. unfold mbind, handler_bind. destruct (m w) as [[r|a] w1]; simpl; [done|apply Hf].
Qed.


(** Rows are filed under their id. *)
Definition keyed (s : Store) : Prop := ∀ id o, orgs s !! id = Some o → oID o = id.

Lemma read_inr {A} (f : Store → A) a w w' : read f w = (inr a, w') → a = f (store w).
Proof. by intros [= <- _]. Qed.

Lemma bind_split {A B} (m : handler A) (f : A → handler B) w b w' :
  (m ≫= f) w = (inr b, w') → ∃ a w1, m w = (inr a, w1) ∧ f a w1 = (inr b, w').
Proof. unfold mbind, handler_bind. destruct (m w) as [[r|a] w1]; [done|]. intros H. by exists a, w1. Qed.

(** A removal that is answered 204 has stamped the row. *)
Lemma decode_inr {A} (req : option A) r w w' : decodeJSON req w = (inr r, w') → req = Some r.
Proof. destruct req; [|done]. by intros [= -> _]. Qed.

Lemma pending_inr now o a w w' :
  enforcePendingInvitationCap now o w = (inr a, w') →
  0 < Plan.OrgPendingInvitationsMax (oPlan o) →
  CountPendingOrgInvitations now (oID o) (store w) < Plan.OrgPendingInvitationsMax (oPlan o).
Proof.
  unfold enforcePendingInvitationCap. intros H Hl. destruct (_ <=? 0) eqn:E; [breflect; lia|].
  apply bind_split in H as (n & w1 & [= <- <-] & H%ensure_inr). breflect. lia.
Qed.

Lemma token_inr sha256 token h w w' :
  token_hash sha256 token w = (inr h, w') → ∃ p, RawURL.DecodeString token = Some p ∧ h = sha256 p.
Proof.
  unfold token_hash. destruct (empty token); [done|]. destruct (RawURL.DecodeString token) as [p|]; [|done].
  intros [= <- _]. by exists p.
Qed.

Lemma member_of_spec role l : member_of role l = true ↔ role ∈ l.
Proof. unfold member_of. rewrite existsb_exists. setoid_rewrite list_elem_of_In. setoid_rewrite String.eqb_eq. naive_solver. Qed.

Lemma permitted_spec action role l : roles_for action = Some l → permitted action role = true ↔ role ∈ l.
Proof. intros E. unfold permitted. rewrite E. apply member_of_spec. Qed.

(** The membership AuthorizeOrgAction let through has one of the action's roles. *)
Lemma authorize_role q action a w w' mem l :
  AuthorizeOrgAction q action w = (inr a, w') → stamp q = Some mem → roles_for action = Some l → mRole mem ∈ l.
Proof.
  intros (m & Hm & Hp)%authorize_inr Hq Hl. assert (m = mem) as -> by congruence. by apply (permitted_spec action).
Qed.

Lemma patch_authorized q req w w' a mem :
  authorizeOrgPatchFields q req w = (inr a, w') → stamp q = Some mem →
  (is_Some (pPlan req) → mRole mem ∈ [OrgRoleOwner])
  ∧ (is_Some (pName req) → mRole mem ∈ [OrgRoleOwner; OrgRoleBilling]).
Proof.
  unfold authorizeOrgPatchFields. intros H Hq. apply bind_split in H as (u & w1 & H1 & H2). split; intros Hf.
  - rewrite bool_decide_eq_true_2 in H1 by done. by eapply authorize_role.
  - rewrite bool_decide_eq_true_2 in H2 by done. by eapply authorize_role.
Qed.

Lemma resolve_inr req f w w' :
  resolveOrgPatchFields req w = (inr f, w') →
  f.1 = default EmptyString (TrimSpace <$> pName req) ∧ f.2 = default EmptyString (TrimSpace <$> pPlan req)
  ∧ (∀ n, pName req = Some n → TrimSpace n ≠ EmptyString) ∧ (∀ p, pPlan req = Some p → TrimSpace p ∈ Plans).
Proof.
  unfold resolveOrgPatchFields. intros (u1 & w1 & H1%ensure_inr & H)%bind_split.
  apply bind_split in H as (u2 & w2 & H2%ensure_inr & [= <- _]). split_and!; [done|done|..].
  - intros n Hn. rewrite Hn in H1. cbn in H1. by destruct (TrimSpace n).
  - intros p Hp. rewrite Hp in H2. cbn in H2. by apply member_of_spec.
Qed.

Lemma owner_test m : String.eqb (mRole m) OrgRoleOwner && active m = true ↔ is_owner m.
Proof. unfold is_owner, active. by rewrite andb_true_iff, String.eqb_eq, bool_decide_eq_true. Qed.

Lemma remove_spec now o t s s' :
  RemoveOrgMember now o t s = inr s' →
  ∃ m, memberships s !! (o, t) = Some m ∧ ¬ is_owner m
       ∧ s' = set_memberships (<[(o, t) := removed now m]> (memberships s)) s.
Proof.
  unfold RemoveOrgMember. destruct (memberships s !! (o, t)) as [m|]; [|done].
  destruct (_ && _) eqn:E; [done|]. intros [= <-]. exists m. split_and!; try done. rewrite <- owner_test. congruence.
Qed.

Lemma role_spec o t role s s' :
  role ≠ OrgRoleOwner → UpdateOrgMemberRole o t role s = inr s' →
  ∃ m, memberships s !! (o, t) = Some m ∧ ¬ is_owner m
       ∧ s' = set_memberships (<[(o, t) := set_role role m]> (memberships s)) s.
Proof.
  intros Hr. unfold UpdateOrgMemberRole. destruct (memberships s !! (o, t)) as [m|]; [|done].
  rewrite (proj2 (String.eqb_neq _ _) Hr), andb_true_r.
  destruct (_ && _) eqn:E; [done|]. intros [= <-]. exists m. split_and!; try done. rewrite <- owner_test. congruence.
Qed.

(** Transfer moves the ownership and nothing else. *)
Lemma transfer_spec o from to s s' :
  TransferOrgOwnership o from to s = inr s' →
  from ≠ to ∧ ∃ m n, memberships s !! (o, from) = Some m ∧ is_owner m ∧ memberships s !! (o, to) = Some n
    ∧ mRemovedAt n = None
    ∧ s' = set_memberships (<[(o, to) := set_role OrgRoleOwner n]> (<[(o, from) := set_role OrgRoleAdmin m]> (memberships s))) s.
Proof.
  unfold TransferOrgOwnership. destruct (String.eqb_spec from to) as [|Hne]; [done|].
  destruct (memberships s !! (o, from)) as [m|]; [|done].
  rewrite <- negb_andb. destruct (String.eqb (mRole m) OrgRoleOwner && active m) eqn:E; [|done].
  apply owner_test in E. destruct (memberships s !! (o, to)) as [n|]; [|done].
  destruct (active n) eqn:Ea; [|done]. destruct (String.eqb (mRole n) OrgRoleOwner); [done|]. intros [= <-].
  simpl. split; [done|]. exists m, n. split_and!; try done. unfold active in Ea. by apply bool_decide_eq_true in Ea.
Qed.

Lemma revoke_spec now hash s s' :
  RevokeOrgInvitation now hash s = inr s' →
  ∃ i, invitations s !! hash_key hash = Some i ∧ settled i = false
       ∧ s' = set_invitations (<[hash_key hash := revoke now i]> (invitations s)) s.
Proof.
  unfold RevokeOrgInvitation. destruct (invitations s !! hash_key hash) as [i|]; [|done].
  destruct (settled i) eqn:E; [done|]. intros [= <-]. by exists i.
Qed.

Section refinement.
Context (sha256 : string → string) (q : Request) (w : World) (Hk : keyed (store w)).

Abbreviation refines := (refines sha256 q).

Lemma patch_refines now req : refines (Patch now req) (store w) (store (patchOrg now q req w).2).
Proof using Hk.
  unfold patchOrg. assert (store w = store w) as Hw by done.
  pass r w1 H1. pass u2 w2 H2. pass mem w3 H3. pass u4 w4 H4. pass f w5 H5. pass o w6 H6.
  assert (req = Some r) as -> by (by eapply decode_inr).
  apply ensure_inr, orb_true_iff in H2. rewrite !bool_decide_eq_true in H2. apply membership_inr in H3.
  destruct (patch_authorized _ _ _ _ _ _ H4 H3) as [Hp Hn]. apply resolve_inr in H5 as (Hf1 & Hf2 & Hn' & Hp').
  apply mutable_inr in H6 as [Ho Hm]. replace (store w5) with (store w) in Ho by congruence.
  rewrite still_tail by auto 10 with orgs. rewrite (Hk _ _ Ho).
  rewrite (field_updates now (mOrgID mem) r f.1 f.2 w6 o); [|congruence|done..].
  replace (store w6) with (store w) by congruence. right. exists mem. split; [done|]. by apply eff_patch.
Qed.

Lemma delete_refines now : refines (SoftDelete now) (store w) (store (softDeleteOrg now q w).2).
Proof using Hk.
  unfold softDeleteOrg. assert (store w = store w) as Hw by done.
  pass u w1 H1. pass mem w2 H2. pass o w3 H3. apply membership_inr in H2. eapply authorize_role in H1; [|done..].
  apply mutable_inr in H3 as [Ho Hn]. replace (store w2) with (store w) in Ho by congruence.
  rewrite (Hk _ _ Ho). apply (write_unit_bind _ _ w3 (refines _ (store w))); [left; congruence|auto 10 with orgs|].
  intros s' Hs'. unfold SoftDeleteOrg, update_org in Hs'. replace (store w3) with (store w) in Hs' by congruence.
  rewrite Ho in Hs'. injection Hs' as <-. right. exists mem. split; [done|]. by apply (eff_delete _ _ _ _ now o).
Qed.

Lemma invite_refines newID rand now req :
  refines (Invite newID rand now req) (store w) (store (inviteOrgMember sha256 newID rand now q req w).2).
Proof using Hk.
  unfold inviteOrgMember. assert (store w = store w) as Hw by done.
  pass u w1 H1. pass mem w2 H2. pass r w3 H3. pass u4 w4 H4. pass u5 w5 H5. pass o w6 H6. pass u7 w7 H7. pass tok w8 H8.
  assert (req = Some r) as -> by (by eapply decode_inr).
  destruct rand as [p|]; [|done]. injection H8 as <- _.
  apply membership_inr in H2. eapply authorize_role in H1; [|done..].
  apply ensure_inr in H4. apply ensure_inr, member_of_spec in H5. apply mutable_inr in H6 as [Ho Hn].
  replace (store w5) with (store w) in Ho by congruence. pose proof (pending_inr _ _ _ _ _ H7) as Hcap.
  replace (store w6) with (store w) in Hcap by congruence. rewrite (Hk _ _ Ho) in Hcap.
  rewrite still_tail by auto 10 with orgs.
  unfold persistOrgInvitation. apply (write_bind _ _ w8 (refines _ (store w))); [left; congruence|auto 10 with orgs|].
  intros inv s' Hs'. replace (store w8) with (store w) in Hs' by congruence.
  unfold CreateOrgInvitation in Hs'. simpl in Hs'. case_bool_decide as Hc; [done|]. injection Hs' as Hi <-.
  rewrite <- eq_None_not_Some in Hc. right. exists mem. split; [done|]. rewrite (Hk _ _ Ho).
  assert ((if now =? zero_time then now else now) = now) as -> by (by destruct (now =? zero_time)).
  apply (eff_invite _ _ _ _ newID p now r o); try done. intros E. by rewrite E in H4.
Qed.

Lemma role_refines target req : refines (ChangeRole target req) (store w) (store (changeOrgMemberRole q target req w).2).
Proof using Hk.
  unfold changeOrgMemberRole. assert (store w = store w) as Hw by done.
  pass u w1 H1. pass mem w2 H2. pass u3 w3 H3. pass r w4 H4. pass u5 w5 H5.
  assert (req = Some r) as -> by (by eapply decode_inr).
  apply membership_inr in H2. eapply authorize_role in H1; [|done..]. apply ensure_inr, member_of_spec in H5.
  apply (write_unit_bind _ _ w5 (refines _ (store w))); [left; congruence|auto 20 with orgs|].
  intros s' Hs'. replace (store w5) with (store w) in Hs' by congruence.
  apply role_spec in Hs' as (m & Hm & Hown & ->); [|intros E; rewrite E in H5; set_solver].
  right. exists mem. split; [done|]. by apply eff_role.
Qed.

Lemma remove_refines now target : refines (Remove now target) (store w) (store (removeOrgMember now q target w).2).
Proof using Hk.
  unfold removeOrgMember. assert (store w = store w) as Hw by done.
  pass u w1 H1. pass mem w2 H2. pass u3 w3 H3. pass u4 w4 H4.
  apply membership_inr in H2. eapply authorize_role in H1; [|done..].
  apply ensure_inr, negb_true_iff, String.eqb_neq in H4.
  apply (write_unit_bind _ _ w4 (refines _ (store w))); [left; congruence|auto 20 with orgs|].
  intros s' Hs'. replace (store w4) with (store w) in Hs' by congruence. apply remove_spec in Hs' as (m & Hm & Hown & ->).
  right. exists mem. split; [done|]. by apply eff_remove.
Qed.

Lemma transfer_refines req : refines (Transfer req) (store w) (store (transferOrgOwnership q req w).2).
Proof using Hk.
  unfold transferOrgOwnership. assert (store w = store w) as Hw by done.
  pass u w1 H1. pass mem w2 H2. pass r w3 H3. pass u4 w4 H4. pass u5 w5 H5.
  assert (req = Some r) as -> by (by eapply decode_inr).
  apply membership_inr in H2. eapply authorize_role in H1; [|done..].
  apply (write_unit_bind _ _ w5 (refines _ (store w))); [left; congruence|auto 20 with orgs|].
  intros s' Hs'. replace (store w5) with (store w) in Hs' by congruence.
  apply transfer_spec in Hs' as (Hne & m & n & Hm & Hown & Hn & Ha & ->).
  right. exists mem. split; [done|]. by apply eff_transfer.
Qed.

Lemma revoke_refines now token : refines (Revoke now token) (store w) (store (revokeInvitation sha256 now q token w).2).
Proof using Hk.
  unfold revokeInvitation. assert (store w = store w) as Hw by done.
  pass u w1 H1. pass mem w2 H2. pass h w3 H3. apply token_inr in H3 as (p & Hp & ->).
  apply membership_inr in H2. eapply authorize_role in H1; [|done..].
  apply (write_unit_bind _ _ w3 (refines _ (store w))); [left; congruence|auto 20 with orgs|].
  intros s' Hs'. replace (store w3) with (store w) in Hs' by congruence. apply revoke_spec in Hs' as (i & Hi & Hs & ->).
  right. exists mem. split; [done|]. by apply eff_revoke.
Qed.

#[local] Hint Resolve still_getOrg still_seats still_members still_invitations : orgs.

Lemma serve_refines c : refines c (store w) (store (serve sha256 q c w).2).
Proof using Hk.
  destruct c; simpl; eauto using refines_still, patch_refines, delete_refines, invite_refines, role_refines,
    remove_refines, transfer_refines, revoke_refines with orgs.
Qed.
End refinement.

(** ** The invariant *)

Definition owns (s : Store) (o a : string) : Prop := ∃ m, memberships s !! (o, a) = Some m ∧ is_owner m.

(** A row of the membership table: active or removed. *)
Definition enrolled (s : Store) (o a : string) : Prop := is_Some (memberships s !! (o, a)).

Definition accepted_by (i : OrgInvitation) (a : string) : Prop :=
  is_Some (iConsumedAt i) ∧ iAcceptingAccountID i = Some a.

(** The invitation was accepted by an account with the invited address, which is on the rolls since. *)
Definition acceptance (s : Store) (i : OrgInvitation) : Prop :=
  is_Some (iConsumedAt i) →
  ∃ a acct, iAcceptingAccountID i = Some a ∧ accounts s !! a = Some acct
            ∧ EqualFold (iEmail i) (Email acct) = true ∧ enrolled s (iOrgID i) a.

Record good_invitation (s : Store) (k : string) (i : OrgInvitation) : Prop := {
  good_key : k = hash_key (iTokenHash i);
  good_role : containsOrgMemberRoleForInvite (iRole i) = true;
  good_org : ∃ o, orgs s !! iOrgID i = Some o ∧ oPersonal o = false;
  good_inviter : ∃ b, iInvitedByAccountID i = Some b ∧ enrolled s (iOrgID i) b;
  good_settled : iConsumedAt i = None ∨ iRevokedAt i = None;
  good_acceptance : acceptance s i;
}.

Record Wf (f : gmap string string) (s : Store) : Prop := {
  wf_keyed : keyed s;
  wf_rows o a m :
    memberships s !! (o, a) = Some m →
    mOrgID m = o ∧ mAccountID m = a ∧ is_Some (orgs s !! o) ∧ is_Some (accounts s !! a);
  wf_one_owner o a b : owns s o a → owns s o b → a = b;
  wf_personal o x :
    orgs s !! o = Some x → oPersonal x = true →
    ∃ p, oPersonalOwnerAccountID x = Some p ∧ owns s o p ∧ ∀ a, enrolled s o a → a = p;
  wf_invitations k i : invitations s !! k = Some i → good_invitation s k i;
  wf_origin o a :
    enrolled s o a → f !! o = Some a ∨ ∃ k i, invitations s !! k = Some i ∧ iOrgID i = o ∧ accepted_by i a;
}.

(** A request LoadOrg let through. *)
Definition good_request (s : Store) (q : Request) : Prop :=
  accounts s !! ID (caller q) = Some (caller q)
  ∧ ∀ mem, stamp q = Some mem → mAccountID mem = ID (caller q) ∧ enrolled s (mOrgID mem) (mAccountID mem).

Definition seed_id (p : Org * Account) : string := oID p.1.

(** An organization has an owner, or it waits for its first one and nobody is on its rolls. *)
Definition owned (seeds : list (Org * Account)) (s : Store) (o : string) : Prop :=
  (∃ a, owns s o a) ∧ o ∉ (seed_id <$> seeds) ∨ (∀ a, ¬ enrolled s o a) ∧ o ∈ (seed_id <$> seeds).

Record Inv (S : System) : Prop := {
  inv_wf : Wf (founder S) (store (world S));
  inv_loaded q : q ∈ loaded S → good_request (store (world S)) q;
  inv_owned o : is_Some (orgs (store (world S)) !! o) → owned (unseeded S) (store (world S)) o;
  inv_seeds : NoDup (seed_id <$> unseeded S);
  inv_seed o a :
    (o, a) ∈ unseeded S →
    (∃ x, orgs (store (world S)) !! oID o = Some x ∧ oPersonal x = false)
    ∧ is_Some (accounts (store (world S)) !! ID a) ∧ founder S !! oID o = Some (ID a);
}.

(** Rows are never taken out of the store, and an organization keeps its identity. *)
Record grows (s s' : Store) : Prop := {
  grows_accounts : accounts s ⊆ accounts s';
  grows_rolls o a : enrolled s o a → enrolled s' o a;
  grows_orgs o x : orgs s !! o = Some x → ∃ x', orgs s' !! o = Some x' ∧ same_identity x x';
}.

Lemma same_identity_refl o : same_identity o o.
Proof. by split_and!. Qed.
#[local] Hint Resolve same_identity_refl : orgs.

Lemma grows_refl s : grows s s.
Proof. split; eauto with orgs. Qed.

Lemma good_request_grows s s' q : grows s s' → good_request s q → good_request s' q.
Proof.
  intros [Ha Hr _] [Hc Hm]. split; [by eapply lookup_weaken|]. intros mem Hq. destruct (Hm mem Hq). auto.
Qed.

Lemma acceptance_grows s s' i : grows s s' → acceptance s i → acceptance s' i.
Proof.
  intros [Ha Hr _] H Hc. destruct (H Hc) as (a & acct & ? & ? & ? & ?). exists a, acct.
  split_and!; [done|by eapply lookup_weaken|done|auto].
Qed.

Lemma good_invitation_grows s s' k i : grows s s' → good_invitation s k i → good_invitation s' k i.
Proof.
  intros G [? ? (o & Ho & Hp) (b & Hb & He) ? Hacc]. split; try done.
  - destruct (grows_orgs _ _ G _ _ Ho) as (o' & Ho' & (_ & _ & Hp' & _)). exists o'. by rewrite Hp'.
  - exists b. split; [done|]. by apply (grows_rolls _ _ G).
  - by eapply acceptance_grows.
Qed.

(** Rewriting rows of the membership table. *)
Record rerolled (ms ms' : member_table) : Prop := {
  rerolled_back k m' : ms' !! k = Some m' → ∃ m, ms !! k = Some m ∧ mOrgID m' = mOrgID m ∧ mAccountID m' = mAccountID m;
  rerolled_forth k : is_Some (ms !! k) → is_Some (ms' !! k);
}.

Lemma rerolled_grows s ms' : rerolled (memberships s) ms' → grows s (set_memberships ms' s).
Proof. intros [_ H]. split; [done|intros o a; apply H|]. simpl. eauto with orgs. Qed.

Lemma rerolled_enrolled s ms' o a : rerolled (memberships s) ms' → enrolled (set_memberships ms' s) o a ↔ enrolled s o a.
Proof. intros [Hb Hf]. split; [|apply Hf]. intros [m' Hm']. destruct (Hb _ _ Hm') as (m & ? & _). by exists m. Qed.

Lemma Wf_members f s ms' :
  Wf f s → rerolled (memberships s) ms' →
  (∀ o a b, owns (set_memberships ms' s) o a → owns (set_memberships ms' s) o b → a = b) →
  (∀ o a, owns s o a → ∃ b, owns (set_memberships ms' s) o b) → Wf f (set_memberships ms' s).
Proof.
  intros W R Hu Ho. pose proof (rerolled_grows s ms' R) as G. split.
  - apply (wf_keyed _ _ W).
  - intros o a m' Hm'. destruct (rerolled_back _ _ R _ _ Hm') as (m & Hm & -> & ->). apply (wf_rows _ _ W _ _ _ Hm).
  - done.
  - intros o x Hx Hp. destruct (wf_personal _ _ W o x Hx Hp) as (p & Hown & Hp1 & Hp2). exists p. split; [done|].
    assert (∀ a, enrolled (set_memberships ms' s) o a → a = p) as Hall
      by (intros a Ha; apply Hp2; by rewrite rerolled_enrolled in Ha).
    split; [|done]. destruct (Ho o p Hp1) as (b & m & Hm & Hi). rewrite <- (Hall b) by (by exists m). by exists m.
  - intros k i Hi. eapply good_invitation_grows; [exact G|]. by apply (wf_invitations _ _ W).
  - intros o a Ha. rewrite rerolled_enrolled in Ha by done. apply (wf_origin _ _ W o a Ha).
Qed.

(** Rewriting one row that neither is nor becomes the owner's. *)
Lemma reroll_one s o t m m' :
  memberships s !! (o, t) = Some m → mOrgID m' = mOrgID m → mAccountID m' = mAccountID m →
  rerolled (memberships s) (<[(o, t) := m']> (memberships s)).
Proof.
  intros Hm H1 H2. split.
  - intros k x. destruct (decide (k = (o, t))) as [->|Hne].
    + rewrite lookup_insert_eq. intros [= <-]. by exists m.
    + rewrite lookup_insert_ne by done. intros Hx. by exists x.
  - intros k Hk. destruct (decide (k = (o, t))) as [->|Hne]; [by rewrite lookup_insert_eq|by rewrite lookup_insert_ne].
Qed.

Lemma owns_other s o t m m' o' a :
  memberships s !! (o, t) = Some m → ¬ is_owner m → ¬ is_owner m' →
  owns (set_memberships (<[(o, t) := m']> (memberships s)) s) o' a ↔ owns s o' a.
Proof.
  intros Hm Hn Hn'. unfold owns. simpl. destruct (decide ((o', a) = (o, t))) as [E|Hne].
  - rewrite E, lookup_insert_eq, Hm. naive_solver.
  - by rewrite lookup_insert_ne.
Qed.

Lemma Wf_reroll f s o t m m' :
  Wf f s → memberships s !! (o, t) = Some m → ¬ is_owner m → ¬ is_owner m' →
  mOrgID m' = mOrgID m → mAccountID m' = mAccountID m →
  Wf f (set_memberships (<[(o, t) := m']> (memberships s)) s).
Proof.
  intros W Hm Hn Hn' H1 H2. apply Wf_members; [done|by eapply reroll_one|..].
  - intros o' a b. rewrite !(owns_other _ _ _ m) by done. apply (wf_one_owner _ _ W).
  - intros o' a Ha. exists a. by rewrite (owns_other _ _ _ m).
Qed.

(** Rewriting the invitation table. *)
Lemma Wf_invitations f s is' :
  Wf f s → (∀ k i, is' !! k = Some i → good_invitation s k i) →
  (∀ k i a, invitations s !! k = Some i → accepted_by i a →
     ∃ i', is' !! k = Some i' ∧ iOrgID i' = iOrgID i ∧ accepted_by i' a) →
  Wf f (set_invitations is' s).
Proof.
  intros W Hg Ha. assert (grows s (set_invitations is' s)) as G by (split; simpl; eauto with orgs).
  destruct W as [W1 W2 W3 W4 W5 W6]. split; try done.
  - intros k i Hi. eapply good_invitation_grows; [done|]. by apply Hg.
  - intros o a He. destruct (W6 o a He) as [Hf|(k & i & Hi & Ho & Hacc)]; [by left|right].
    destruct (Ha k i a Hi Hacc) as (i' & Hi' & Ho' & Hacc'). exists k, i'. by rewrite Ho'.
Qed.

(** Rewriting the row of one organization. *)
Lemma org_updated_back id s s' o x' :
  org_updated id s s' → orgs s' !! o = Some x' → ∃ x, orgs s !! o = Some x ∧ same_identity x x'.
Proof.
  intros (x & y & Hx & _ & Hi & ->). simpl. destruct (decide (o = id)) as [->|Hne].
  - rewrite lookup_insert_eq. intros [= <-]. by exists x.
  - rewrite lookup_insert_ne by done. intros ?. exists x'. eauto with orgs.
Qed.

Lemma org_updated_grows id s s' : org_updated id s s' → grows s s'.
Proof.
  intros (x & y & Hx & _ & Hi & ->). split; [done|done|]. simpl. intros o z Hz. destruct (decide (o = id)) as [->|Hne].
  - rewrite lookup_insert_eq. exists y. split; [done|]. by assert (z = x) as -> by congruence.
  - rewrite lookup_insert_ne by done. eauto with orgs.
Qed.

Lemma Wf_org_updated f id s s' : Wf f s → org_updated id s s' → Wf f s'.
Proof.
  intros W U. pose proof (org_updated_grows _ _ _ U) as G. assert (∀ o x', orgs s' !! o = Some x' → _) as B
    by (intros o x'; apply (org_updated_back _ _ _ _ _ U)).
  assert (memberships s' = memberships s ∧ invitations s' = invitations s ∧ accounts s' = accounts s) as (Em & Ei & Ea)
    by (by destruct U as (? & ? & _ & _ & _ & ->)).
  destruct W as [W1 W2 W3 W4 W5 W6].
  assert (∀ o a, owns s' o a ↔ owns s o a) as Eo by (intros; unfold owns; by rewrite Em).
  assert (∀ o a, enrolled s' o a ↔ enrolled s o a) as Ee by (intros; unfold enrolled; by rewrite Em).
  split.
  - intros o x' Hx'. destruct (B o x' Hx') as (x & Hx & -> & _). by apply W1.
  - intros o a m. rewrite Em, Ea. intros Hm. destruct (W2 o a m Hm) as (? & ? & [x Hx] & ?). split_and!; try done.
    destruct (grows_orgs _ _ G _ _ Hx) as (? & ? & _). by eexists.
  - intros o a b. rewrite !Eo. apply W3.
  - intros o x' Hx' Hp. destruct (B o x' Hx') as (x & Hx & (_ & _ & Hp' & Hq & _)).
    destruct (W4 o x Hx) as (p & Hp1 & Hp2 & Hp3); [congruence|]. exists p. rewrite Hq, Eo. split_and!; try done.
    intros a. rewrite Ee. apply Hp3.
  - intros k i. rewrite Ei. intros Hi. eapply good_invitation_grows; [done|by apply W5].
  - intros o a. rewrite Ee, Ei. apply W6.
Qed.

(** ** The requests keep the invariant *)

(** A change that enrolls nobody, founds nothing and leaves no organization without an owner. *)
Record conserves (s s' : Store) : Prop := {
  conserves_grows : grows s s';
  conserves_rolls o a : enrolled s' o a ↔ enrolled s o a;
  conserves_owner o : (∃ a, owns s o a) → ∃ a, owns s' o a;
  conserves_orgs o : is_Some (orgs s' !! o) ↔ is_Some (orgs s !! o);
}.

Lemma conserves_refl s : conserves s s.
Proof. split; auto using grows_refl. Qed.

Lemma conserves_members s ms' :
  rerolled (memberships s) ms' → (∀ o a, owns s o a → ∃ b, owns (set_memberships ms' s) o b) →
  conserves s (set_memberships ms' s).
Proof.
  intros R Ho. split; [by apply rerolled_grows|intros; by apply rerolled_enrolled| |done].
  intros o [a Ha]. by apply (Ho o a).
Qed.

Lemma conserves_invitations s is' : conserves s (set_invitations is' s).
Proof. split; try done. split; simpl; eauto with orgs. Qed.

Lemma reroll_keeps f s o t m m' :
  Wf f s → memberships s !! (o, t) = Some m → ¬ is_owner m → ¬ is_owner m' →
  mOrgID m' = mOrgID m → mAccountID m' = mAccountID m →
  Wf f (set_memberships (<[(o, t) := m']> (memberships s)) s)
  ∧ conserves s (set_memberships (<[(o, t) := m']> (memberships s)) s).
Proof.
  intros W Hm Hn Hn' H1 H2. split; [by apply (Wf_reroll _ _ _ _ m)|].
  apply conserves_members; [by eapply reroll_one|]. intros o' a Ha. exists a. by rewrite (owns_other _ _ _ m).
Qed.

Lemma transfer_owns f o from to m n s o' a :
  Wf f s → from ≠ to → memberships s !! (o, from) = Some m → is_owner m →
  memberships s !! (o, to) = Some n → mRemovedAt n = None →
  owns (set_memberships (<[(o, to) := set_role OrgRoleOwner n]> (<[(o, from) := set_role OrgRoleAdmin m]> (memberships s))) s) o' a
  ↔ if decide (o' = o) then a = to else owns s o' a.
Proof.
  intros W Hne Hm Hown Hn Hact. assert (owns s o from) as Hof by (by exists m). unfold owns at 1. simpl.
  destruct (decide (o' = o)) as [->|Ho].
  - destruct (decide (a = to)) as [->|Ha].
    { rewrite lookup_insert_eq. split; [done|]. intros _. eexists. by split. }
    rewrite lookup_insert_ne by congruence. split; [|done]. destruct (decide (a = from)) as [->|Hf].
    + rewrite lookup_insert_eq. intros (? & [= <-] & [? _]). done.
    + rewrite lookup_insert_ne by congruence. intros Hx. destruct Hf. apply (wf_one_owner _ _ W o); [by apply Hx|done].
  - by rewrite !lookup_insert_ne by congruence.
Qed.

(** Transfer moves the ownership and nothing else. *)
Lemma transfer_keeps f o from to m n s :
  Wf f s → from ≠ to → memberships s !! (o, from) = Some m → is_owner m →
  memberships s !! (o, to) = Some n → mRemovedAt n = None →
  let s' := set_memberships (<[(o, to) := set_role OrgRoleOwner n]> (<[(o, from) := set_role OrgRoleAdmin m]> (memberships s))) s in
  Wf f s' ∧ conserves s s'.
Proof.
  intros W Hne Hm Hown Hn Ha s'.
  assert (∀ o' a, owns s' o' a ↔ if decide (o' = o) then a = to else owns s o' a) as Ho.
  { intros. by apply (transfer_owns f o from to m n). }
  assert (rerolled (memberships s) (memberships s')) as R.
  { pose proof (reroll_one s o from m (set_role OrgRoleAdmin m) Hm eq_refl eq_refl) as [B1 F1].
    pose proof (reroll_one (set_memberships (<[(o, from) := set_role OrgRoleAdmin m]> (memberships s)) s) o to n
                  (set_role OrgRoleOwner n)) as [B2 F2]; [simpl; rewrite lookup_insert_ne; congruence|done|done|].
    split; [|intros k Hk; by apply F2, F1]. intros k x Hx. destruct (B2 k x Hx) as (y & Hy & -> & ->). by apply B1. }
  assert (∀ o' a, owns s o' a → ∃ b, owns s' o' b) as Hk.
  { intros o' a Hoa. destruct (decide (o' = o)) as [->|Hno].
    - exists to. rewrite Ho. by destruct (decide (o = o)).
    - exists a. rewrite Ho. by destruct (decide (o' = o)). }
  split; [|by apply conserves_members]. apply Wf_members; try done.
  intros o' a b. change (owns s' o' a → owns s' o' b → a = b). rewrite !Ho.
  destruct (decide (o' = o)); [congruence|apply (wf_one_owner _ _ W)].
Qed.

Lemma settled_false i : settled i = false ↔ iConsumedAt i = None ∧ iRevokedAt i = None.
Proof. unfold settled. destruct (iConsumedAt i), (iRevokedAt i); simpl; naive_solver. Qed.

(** Revoking a pending invitation keeps it good. *)
Lemma good_revoke s k i now : good_invitation s k i → settled i = false → good_invitation s k (revoke now i).
Proof. intros [? ? ? ? ? ?] [Hc Hr]%settled_false. split; try done. simpl. by left. Qed.

Lemma revoke_keeps f now key i s :
  Wf f s → invitations s !! key = Some i → settled i = false →
  Wf f (set_invitations (<[key := revoke now i]> (invitations s)) s)
  ∧ conserves s (set_invitations (<[key := revoke now i]> (invitations s)) s).
Proof.
  intros W Hi Es. split; [|apply conserves_invitations].
  apply Wf_invitations; [done|..].
  - intros k j. destruct (decide (k = key)) as [->|Hne].
    + rewrite lookup_insert_eq. intros [= <-]. apply good_revoke; [by apply (wf_invitations _ _ W)|done].
    + rewrite lookup_insert_ne by done. apply (wf_invitations _ _ W).
  - intros k j a Hj [Hc Hacc]. exists j. split; [|done]. rewrite lookup_insert_ne; [done|]. intros <-.
    apply settled_false in Es as [Es _]. assert (i = j) as -> by congruence. rewrite Es in Hc. by destruct Hc.
Qed.

Lemma expire_keeps f now s : Wf f s → Wf f (ExpireOrgInvitations now s).2 ∧ conserves s (ExpireOrgInvitations now s).2.
Proof.
  intros W. split; [|apply conserves_invitations]. simpl. apply Wf_invitations; [done|..].
  - intros k j. rewrite lookup_fmap. destruct (invitations s !! k) as [i|] eqn:Hi; [|done]. simpl. intros [= <-].
    apply (wf_invitations _ _ W) in Hi. destruct (sweepable now i) eqn:E; [|done].
    apply good_revoke; [done|]. unfold sweepable in E. by destruct (settled i).
  - intros k i a Hi [Hc Hacc]. exists i. split; [|done]. rewrite lookup_fmap, Hi. simpl.
    unfold sweepable. destruct (settled i) eqn:E; [done|]. apply settled_false in E as [E _].
    rewrite E in Hc. by destruct Hc.
Qed.

Lemma org_row_keeps f s id o o' :
  Wf f s → orgs s !! id = Some o → oPersonal o = false → same_identity o o' →
  Wf f (set_orgs (<[id := o']> (orgs s)) s) ∧ conserves s (set_orgs (<[id := o']> (orgs s)) s).
Proof.
  intros W Ho Hp Hi. assert (org_updated id s (set_orgs (<[id := o']> (orgs s)) s)) as U by (by exists o, o').
  split; [by eapply Wf_org_updated|]. pose proof (org_updated_grows _ _ _ U) as G. split; [done|done|done|].
  intros x. split; [|intros [y Hy]; destruct (grows_orgs _ _ G _ _ Hy) as (? & ? & _); by eexists].
  intros [y Hy]. destruct (org_updated_back _ _ _ _ _ U Hy) as (z & ? & _). by exists z.
Qed.

Lemma invite_keeps f s q mem i :
  Wf f s → good_request s q → stamp q = Some mem → (∃ o, orgs s !! mOrgID mem = Some o ∧ oPersonal o = false) →
  iOrgID i = mOrgID mem → iInvitedByAccountID i = Some (ID (caller q)) →
  containsOrgMemberRoleForInvite (iRole i) = true → settled i = false → iAcceptingAccountID i = None →
  invitations s !! hash_key (iTokenHash i) = None →
  Wf f (set_invitations (<[hash_key (iTokenHash i) := i]> (invitations s)) s).
Proof.
  intros W [Hc Hm] Hq Ho Hio Hib Hr Hs Hacc Hnew. destruct (Hm mem Hq) as [Ha He].
  pose proof (proj1 (settled_false i) Hs) as [Hcn Hrn]. apply Wf_invitations; [done|..].
  - intros k j. destruct (decide (k = hash_key (iTokenHash i))) as [->|Hne].
    + rewrite lookup_insert_eq. intros [= <-]. split; [done|done|by rewrite Hio| |by left|].
      * exists (ID (caller q)). rewrite Hio, <- Ha. split; [congruence|done].
      * intros Hx. rewrite Hcn in Hx. by destruct Hx.
    + rewrite lookup_insert_ne by done. apply (wf_invitations _ _ W).
  - intros k j a Hj Hacc'. exists j. split; [|done]. rewrite lookup_insert_ne; [done|]. intros <-. congruence.
Qed.

Lemma effect_keeps f sha256 q mem c s s' :
  Wf f s → good_request s q → stamp q = Some mem → effect sha256 q mem s c s' → Wf f s' ∧ conserves s s'.
Proof.
  intros W Hg Hq E. destruct E as
    [now req o _ _ _ _ Ho Hp|now o _ Ho Hp|newID p now req o _ Ho Hp _ Hr _ Hnew|t role m _ Hr Hm Hn|now t m _ _ Hm Hn
    |to m n _ Hne Hm Hown Hn Hact|now token p i _ _ Hi Hs].
  - by apply (org_row_keeps _ _ _ o).
  - by apply (org_row_keeps _ _ _ o).
  - split; [|apply conserves_invitations].
    apply (invite_keeps f s q mem (issued sha256 newID p now (ID (caller q)) (mOrgID mem) req)); try done.
    + by exists o.
    + by apply member_of_spec.
  - apply (reroll_keeps _ _ _ _ m); try done. intros [E _]. simpl in E. rewrite E in Hr. set_solver.
  - apply (reroll_keeps _ _ _ _ m); try done. by intros [_ ?].
  - by apply (transfer_keeps f (mOrgID mem) (mAccountID mem) (TrimSpace to) m n).
  - by apply revoke_keeps.
Qed.

(** ** Enrolling and founding *)

Definition enroll (o a : string) (m : OrgMembership) (is' : invitation_table) (s : Store) : Store :=
  mkStore (accounts s) (orgs s) (orgsBySlug s) (<[(o, a) := m]> (memberships s)) is'.

Lemma enroll_grows o a m is' s : grows s (enroll o a m is' s).
Proof.
  split; simpl; [done| |eauto with orgs]. intros o' a' H. unfold enrolled. simpl.
  destruct (decide ((o', a') = (o, a))) as [->|Hne]; [by rewrite lookup_insert_eq|by rewrite lookup_insert_ne].
Qed.

Lemma enroll_enrolled o a m is' s o' a' : enrolled (enroll o a m is' s) o' a' ↔ (o', a') = (o, a) ∨ enrolled s o' a'.
Proof.
  unfold enrolled. simpl. destruct (decide ((o', a') = (o, a))) as [->|Hne].
  - rewrite lookup_insert_eq. split; [by left|done].
  - rewrite lookup_insert_ne by done. split; [by right|by intros [?|?]].
Qed.

Lemma enroll_owns o a m is' s o' a' :
  memberships s !! (o, a) = None →
  owns (enroll o a m is' s) o' a' ↔ (o', a') = (o, a) ∧ is_owner m ∨ owns s o' a'.
Proof.
  intros Hn. unfold owns. simpl. destruct (decide ((o', a') = (o, a))) as [E|Hne].
  - rewrite E, lookup_insert_eq. split; [intros (? & [= <-] & ?); by left|].
    intros [[_ ?]|(? & ? & _)]; [by exists m|congruence].
  - rewrite lookup_insert_ne by done. split; [by right|]. by intros [[? _]|?].
Qed.

Section enroll.
Context (f : gmap string string) (s : Store) (o a : string) (m : OrgMembership) (is' : invitation_table) (x : Org).
Hypothesis W : Wf f s.
Hypothesis Hnew : memberships s !! (o, a) = None.
Hypothesis Hx : orgs s !! o = Some x.
Hypothesis Hshared : oPersonal x = false.
Hypothesis Hacct : is_Some (accounts s !! a).
Hypothesis Hm : mOrgID m = o ∧ mAccountID m = a.
Hypothesis Howner : is_owner m → ∀ b, ¬ owns s o b.
Hypothesis Hgood : ∀ k i, is' !! k = Some i → good_invitation (enroll o a m is' s) k i.
Hypothesis Hkept :
  ∀ k i b, invitations s !! k = Some i → accepted_by i b → ∃ i', is' !! k = Some i' ∧ iOrgID i' = iOrgID i ∧ accepted_by i' b.
Hypothesis Horigin : f !! o = Some a ∨ ∃ k i, is' !! k = Some i ∧ iOrgID i = o ∧ accepted_by i a.

Lemma Wf_enroll : Wf f (enroll o a m is' s).
Proof using All.
  split.
  - apply (wf_keyed _ _ W).
  - intros o' a' n. simpl. destruct (decide ((o', a') = (o, a))) as [[= -> ->]|Hne].
    + rewrite lookup_insert_eq. intros [= <-]. destruct Hm. split_and!; [done|done|by exists x|done].
    + rewrite lookup_insert_ne by done. apply (wf_rows _ _ W).
  - intros o' b c. rewrite !enroll_owns by done. intros [[Eb Hi]|Hb] [[Ec Hj]|Hc].
    + congruence.
    + injection Eb as -> _. by destruct (Howner Hi c).
    + injection Ec as -> _. by destruct (Howner Hj b).
    + by apply (wf_one_owner _ _ W o').
  - intros o' y Hy Hp. simpl in Hy. destruct (wf_personal _ _ W o' y Hy Hp) as (p & H1 & H2 & H3). exists p.
    split_and!; [done|rewrite enroll_owns by done; by right|].
    intros b. rewrite enroll_enrolled. intros [[= -> ->]|Hb]; [|by apply H3]. congruence.
  - done.
  - intros o' b. rewrite enroll_enrolled. intros [[= -> ->]|Hb]; [done|].
    destruct (wf_origin _ _ W o' b Hb) as [?|(k & i & Hi & Ho & Hacc)]; [by left|right].
    destruct (Hkept k i b Hi Hacc) as (i' & Hi' & Ho' & Hacc'). exists k, i'. by rewrite Ho'.
Qed.
End enroll.

(** An accepted invitation enrolls the account that presents it. *)
Lemma consume_inr now hash a s m i' s' :
  ConsumeOrgInvitation now hash a s = inr (m, i', s') →
  ∃ i x, invitations s !! hash_key hash = Some i ∧ settled i = false ∧ expired now i = false
         ∧ EqualFold (iEmail i) (Email a) = true ∧ orgs s !! iOrgID i = Some x
         ∧ (0 < Plan.OrgMembersMax (oPlan x) → CountActiveOrgMembers (iOrgID i) s < Plan.OrgMembersMax (oPlan x))
         ∧ memberships s !! (iOrgID i, ID a) = None
         ∧ m = mkMember (iOrgID i) (ID a) (iRole i) (iInvitedByAccountID i) now None
         ∧ i' = mark_consumed now (ID a) i
         ∧ s' = enroll (iOrgID i) (ID a) m (<[hash_key hash := i']> (invitations s)) s.
Proof.
  unfold ConsumeOrgInvitation. destruct (invitations s !! hash_key hash) as [i|] eqn:Hi; [|done].
  destruct (settled i) eqn:Es; [done|]. destruct (expired now i) eqn:Ee; [done|].
  destruct (EqualFold (iEmail i) (Email a)) eqn:Ef; [|done]. cbn -[lookup insert Plan.accessor].
  destruct (orgs s !! iOrgID i) as [x|] eqn:Hx; [|done].
  destruct ((0 <? _) && _) eqn:Ecap; [done|]. case_bool_decide as Hn; [done|]. intros [= <- <- <-].
  exists i, x. rewrite <- eq_None_not_Some in Hn. split_and!; try done. intros Hpos.
  apply andb_false_iff in Ecap as [E|E]; [apply Z.ltb_ge in E|apply Z.leb_gt in E]; lia.
Qed.

Lemma good_consume s k i now a acct :
  good_invitation s k i → settled i = false → accounts s !! a = Some acct → EqualFold (iEmail i) (Email acct) = true →
  enrolled s (iOrgID i) a → good_invitation s k (mark_consumed now a i).
Proof.
  intros [? ? ? ? ? ?] [Hc Hr]%settled_false Ha Hf He. split; try done; [by right|]. intros _. by exists a, acct.
Qed.

Lemma consume_keeps f now hash a s m i' s' :
  Wf f s → accounts s !! ID a = Some a → ConsumeOrgInvitation now hash a s = inr (m, i', s') → Wf f s'.
Proof.
  intros W Ha H. apply consume_inr in H as (i & x & Hi & Hs & _ & Hf & Hx & _ & Hn & Em & Ei & ->).
  pose proof (wf_invitations _ _ W _ _ Hi) as Hg. destruct (good_org _ _ _ Hg) as (x' & Hx' & Hp).
  assert (x' = x) as -> by congruence.
  assert (grows s (enroll (iOrgID i) (ID a) m (<[hash_key hash := i']> (invitations s)) s)) as G by apply enroll_grows.
  apply (Wf_enroll f s (iOrgID i) (ID a) m _ x); try done; [by rewrite Em|..].
  - intros [Ho _]. rewrite Em in Ho. simpl in Ho. pose proof (good_role _ _ _ Hg) as Hr. by rewrite Ho in Hr.
  - intros k j. destruct (decide (k = hash_key hash)) as [->|Hne].
    + rewrite lookup_insert_eq. intros [= <-]. rewrite Ei. eapply good_consume; try done.
      * rewrite <- Ei. by eapply good_invitation_grows.
      * rewrite <- Ei. apply enroll_enrolled. by left.
    + rewrite lookup_insert_ne by done. intros Hj. eapply good_invitation_grows; [done|]. by apply (wf_invitations _ _ W).
  - intros k j b Hj Hacc. exists j. split; [|done]. rewrite lookup_insert_ne; [done|]. intros <-.
    apply settled_false in Hs as [Hs _]. assert (j = i) as -> by congruence. destruct Hacc as [[] _]; congruence.
  - right. exists (hash_key hash), i'. rewrite lookup_insert_eq, Ei. by split_and!.
Qed.

(** A row for a new organization. *)
Definition found (o : Org) (s : Store) : Store :=
  mkStore (accounts s) (<[oID o := o]> (orgs s)) (<[ToLower (oSlug o) := oID o]> (orgsBySlug s)) (memberships s)
    (invitations s).

Lemma found_grows o s : orgs s !! oID o = None → grows s (found o s).
Proof.
  intros Hn. split; simpl; [done|done|]. intros o' x Hx. exists x. rewrite lookup_insert_ne by congruence.
  auto with orgs.
Qed.

Lemma fresh_unenrolled f s o a : Wf f s → orgs s !! o = None → ¬ enrolled s o a.
Proof. intros W Hn [m Hm]. destruct (wf_rows _ _ W _ _ _ Hm) as (_ & _ & [x Hx] & _). congruence. Qed.

Lemma Wf_found f s o a : Wf f s → orgs s !! oID o = None → oPersonal o = false → Wf (<[oID o := a]> f) (found o s).
Proof.
  intros W Hn Hp. pose proof (found_grows o s Hn) as G. split.
  - intros id x. simpl. destruct (decide (id = oID o)) as [->|Hne].
    + rewrite lookup_insert_eq. by intros [= <-].
    + rewrite lookup_insert_ne by done. apply (wf_keyed _ _ W).
  - intros o' b m Hm. destruct (wf_rows _ _ W _ _ _ Hm) as (? & ? & [x Hx] & ?). split_and!; try done.
    destruct (grows_orgs _ _ G _ _ Hx) as (? & ? & _). by eexists.
  - apply (wf_one_owner _ _ W).
  - intros id x. simpl. destruct (decide (id = oID o)) as [->|Hne].
    + rewrite lookup_insert_eq. intros [= <-]. congruence.
    + rewrite lookup_insert_ne by done. apply (wf_personal _ _ W).
  - intros k i Hi. eapply good_invitation_grows; [done|]. by apply (wf_invitations _ _ W).
  - intros o' b Hb. rewrite lookup_insert_ne; [by apply (wf_origin _ _ W)|]. intros <-.
    by apply (fresh_unenrolled f s (oID o) b).
Qed.

Lemma create_org_spec newID now req w r w' :
  createSharedOrg_org newID now req w = (r, w') → newID ≠ EmptyString →
  match r with
  | inl _ => store w' = store w
  | inr o => oID o = newID ∧ oPersonal o = false ∧ oPlan o = PlanFree ∧ oStatus o = OrgStatusActive
             ∧ store w' = found o (store w)
  end.
Proof.
  intros H Hne. unfold createSharedOrg_org, mbind, handler_bind in H. destruct req as [req|]; [|by injection H as <- <-].
  cbn -[CreateOrg] in H. destruct (ValidateOrgSlug _); [|by injection H as <- <-].
  cbn -[CreateOrg] in H. destruct (empty _); [by injection H as <- <-|].
  cbn -[CreateOrg] in H. unfold write in H.
  destruct (CreateOrg _ _ _ _) as [e|[o s']] eqn:E; [by injection H as <- <-|]. injection H as <- <-.
  unfold CreateOrg in E. simpl in E. case_bool_decide; [done|]. injection E as <- <-. done.
Qed.

Lemma signup_spec NewSHA1 acctID orgID now email plan s a o s' :
  CreateAccountWithPersonalOrg NewSHA1 acctID orgID now email plan s = inr (a, o, s') →
  a = mkAccount acctID email plan AccountActive now ∧ o = personal_org NewSHA1 orgID now a
  ∧ any_value (λ a, String.eqb (Email a) email) (accounts s) = false
  ∧ s' = mkStore (<[acctID := a]> (accounts s)) (<[orgID := o]> (orgs s)) (<[ToLower (oSlug o) := orgID]> (orgsBySlug s))
           (<[(orgID, acctID) := mkMember orgID acctID OrgRoleOwner None now None]> (memberships s)) (invitations s).
Proof.
  unfold CreateAccountWithPersonalOrg. destruct (any_value _ (accounts s)) eqn:E1; [done|].
  destruct (any_value _ (orgs s)); [done|]. by intros [= <- <- <-].
Qed.

Lemma signup_grows NewSHA1 acctID orgID now email plan s a o s' :
  accounts s !! acctID = None → orgs s !! orgID = None →
  CreateAccountWithPersonalOrg NewSHA1 acctID orgID now email plan s = inr (a, o, s') → grows s s'.
Proof.
  intros Ha Ho (_ & _ & _ & ->)%signup_spec. split; simpl.
  - by apply insert_subseteq.
  - intros o' b [m Hm]. unfold enrolled. simpl. destruct (decide ((o', b) = (orgID, acctID))) as [->|Hne];
      [by rewrite lookup_insert_eq|by rewrite lookup_insert_ne, Hm by done].
  - intros o' x Hx. exists x. rewrite lookup_insert_ne by congruence. auto with orgs.
Qed.

Section signup.
Context (NewSHA1 : string → string) (f : gmap string string) (acctID orgID : string) (now : Time) (email plan : string).
Context (s s' : Store) (a : Account) (o : Org).
Hypothesis W : Wf f s.
Hypothesis Ha : accounts s !! acctID = None.
Hypothesis Ho : orgs s !! orgID = None.
Hypothesis H : CreateAccountWithPersonalOrg NewSHA1 acctID orgID now email plan s = inr (a, o, s').

Lemma signup_rows o' b :
  memberships s' !! (o', b)
  = if decide ((o', b) = (orgID, acctID)) then Some (mkMember orgID acctID OrgRoleOwner None now None)
    else memberships s !! (o', b).
Proof using H.
  apply signup_spec in H as (_ & _ & _ & ->). simpl.
  case_decide as E; [by rewrite E, lookup_insert_eq|by rewrite lookup_insert_ne].
Qed.

Lemma signup_enrolled o' b : enrolled s' o' b ↔ (o', b) = (orgID, acctID) ∨ enrolled s o' b.
Proof using H. unfold enrolled. rewrite signup_rows. case_decide; naive_solver. Qed.

Lemma signup_owns o' b : owns s' o' b ↔ (o', b) = (orgID, acctID) ∨ owns s o' b.
Proof using Ha Ho H W.
  unfold owns. rewrite signup_rows. case_decide as E; [|naive_solver]. split; [by left|]. intros _. by eexists.
Qed.

Lemma Wf_signup : Wf (<[orgID := acctID]> f) s'.
Proof using Ha Ho H W.
  pose proof (signup_grows _ _ _ _ _ _ _ _ _ _ Ha Ho H) as G. pose proof (signup_spec _ _ _ _ _ _ _ _ _ _ H) as (Ea & Eo & _ & Es).
  assert (∀ b, memberships s !! (orgID, b) = None) as Hn
    by (intros b; apply eq_None_not_Some; by eapply fresh_unenrolled).
  assert (orgs s' = <[orgID := o]> (orgs s)) as Eorgs by (by rewrite Es).
  assert (accounts s' = <[acctID := a]> (accounts s)) as Eaccts by (by rewrite Es).
  assert (invitations s' = invitations s) as Einv by (by rewrite Es). clear Es. split.
  - intros id x. rewrite Eorgs. destruct (decide (id = orgID)) as [->|Hne].
    + rewrite lookup_insert_eq. intros [= <-]. by rewrite Eo.
    + rewrite lookup_insert_ne by done. apply (wf_keyed _ _ W).
  - intros o' b n. rewrite signup_rows. case_decide as E.
    + intros [= <-]. injection E as -> ->. rewrite Eorgs, Eaccts. by rewrite !lookup_insert_eq.
    + intros Hm. destruct (wf_rows _ _ W _ _ _ Hm) as (? & ? & [x Hx] & [y Hy]). split_and!; try done.
      * destruct (grows_orgs _ _ G _ _ Hx) as (? & ? & _). by eexists.
      * exists y. eapply lookup_weaken; [done|apply (grows_accounts _ _ G)].
  - intros o' b c. rewrite !signup_owns. intros [Eb|Hb] [Ec|Hc]; [congruence|..|by apply (wf_one_owner _ _ W o')].
    + injection Eb as -> _. destruct Hc as (? & Hc & _). by rewrite Hn in Hc.
    + injection Ec as -> _. destruct Hb as (? & Hb & _). by rewrite Hn in Hb.
  - intros id x. rewrite Eorgs. destruct (decide (id = orgID)) as [->|Hne].
    + rewrite lookup_insert_eq. intros [= <-] _. exists acctID. rewrite signup_owns, Eo, Ea. split_and!; [done|by left|].
      intros b. rewrite signup_enrolled. intros [[= ->]|Hb]; [done|]. by apply fresh_unenrolled with (f := f) in Hb.
    + rewrite lookup_insert_ne by done. intros Hx Hp. destruct (wf_personal _ _ W id x Hx Hp) as (p & H1 & H2 & H3).
      exists p. rewrite signup_owns. split_and!; [done|by right|].
      intros b. rewrite signup_enrolled. intros [[= ? _]|?]; [done|auto].
  - intros k i. rewrite Einv. intros Hi. eapply good_invitation_grows; [done|]. by apply (wf_invitations _ _ W).
  - intros o' b. rewrite Einv, signup_enrolled. intros [[= -> ->]|Hb]; [left; by rewrite lookup_insert_eq|].
    rewrite lookup_insert_ne; [by apply (wf_origin _ _ W)|]. intros <-. by eapply fresh_unenrolled.
Qed.
End signup.

(** ** Every reachable state satisfies the invariant *)

Lemma Wf_start : Wf ∅ empty_store.
Proof.
  split.
  - intros id o H. by destruct (lookup_empty_Some _ _ H).
  - intros o a m H. by destruct (lookup_empty_Some _ _ H).
  - intros o a b (m & H & _). by destruct (lookup_empty_Some _ _ H).
  - intros o x H. by destruct (lookup_empty_Some _ _ H).
  - intros k i H. by destruct (lookup_empty_Some _ _ H).
  - intros o a [m H]. by destruct (lookup_empty_Some _ _ H).
Qed.

Lemma Inv_start : Inv start.
Proof.
  split; simpl; [apply Wf_start| | |apply NoDup_nil_2|].
  - intros q Hq. by apply elem_of_nil in Hq.
  - intros o [x H]. by destruct (lookup_empty_Some _ _ H).
  - intros o a H. by apply elem_of_nil in H.
Qed.

Lemma owned_conserves seeds s s' o : conserves s s' → owned seeds s o → owned seeds s' o.
Proof.
  intros [_ Hr Hw _] [[Ha Hn]|[Ha Hn]]; [left; eauto|right]. split; [|done]. intros a. rewrite Hr. apply Ha.
Qed.

Lemma Inv_conserves S s' aud :
  Inv S → Wf (founder S) s' → conserves (store (world S)) s' →
  Inv (mkSystem (mkWorld s' aud) (loaded S) (unseeded S) (founder S)).
Proof.
  intros [W L O N D] W' C. split; simpl; [done| | |done|].
  - intros q Hq. eapply good_request_grows; [apply (conserves_grows _ _ C)|by apply L].
  - intros o Ho. eapply owned_conserves; [done|]. apply O. by apply (conserves_orgs _ _ C).
  - intros o a Hin. destruct (D o a Hin) as ((x & Hx & Hp) & [y Hy] & Hf).
    destruct (grows_orgs _ _ (conserves_grows _ _ C) _ _ Hx) as (x' & Hx' & (_ & _ & Hp' & _)).
    split_and!; [exists x'; by rewrite Hp'| |done].
    exists y. eapply lookup_weaken; [done|apply (grows_accounts _ _ (conserves_grows _ _ C))].
Qed.

Lemma Inv_audit S aud : Inv S → Inv (mkSystem (mkWorld (store (world S)) aud) (loaded S) (unseeded S) (founder S)).
Proof. intros I. apply Inv_conserves; [done|apply (inv_wf _ I)|apply conserves_refl]. Qed.

(** A world with the store of another one. *)
Lemma world_eta w s : store w = s → w = mkWorld s (audit w).
Proof. by destruct w; simpl; intros ->. Qed.

Lemma still_load header query a : still (handleLoadOrg header query a).
Proof.
  unfold handleLoadOrg. destruct (_ || _); [auto with orgs|]. apply still_bind; [auto with orgs|].
  intros [e|org]; [auto with orgs|]. apply still_bind; [auto with orgs|]. intros [e|mem]; auto with orgs.
Qed.

Lemma load_spec f header query a w q w' :
  Wf f (store w) → accounts (store w) !! ID a = Some a →
  handleLoadOrg header query a w = (inr q, w') → good_request (store w) q.
Proof.
  intros W Ha H. unfold handleLoadOrg, mbind, handler_bind, read in H. destruct (_ || _).
  { injection H as <- _. by split. }
  destruct (OrgBySlug _ _) as [e|org]; [done|]. unfold OrgMemberByAccount in H.
  destruct (memberships (store w) !! (oID org, ID a)) as [m|] eqn:Hm; [|done]. injection H as <- _.
  destruct (wf_rows _ _ W _ _ _ Hm) as (H1 & H2 & _). split; [done|]. simpl. intros mem [= <-].
  rewrite H1, H2. split; [done|by exists m].
Qed.

Lemma Inv_load S header query a r w' :
  Inv S → accounts (store (world S)) !! ID a = Some a → handleLoadOrg header query a (world S) = (r, w') →
  Inv (mkSystem w' (match r with inr q => q :: loaded S | inl _ => loaded S end) (unseeded S) (founder S)).
Proof.
  intros I Ha H. pose proof (still_load header query a (world S)) as Hs. rewrite H in Hs. simpl in Hs.
  apply world_eta in Hs as ->. pose proof (Inv_audit S (audit w') I) as [W L O N D].
  split; simpl; try done. intros q Hq. destruct r as [r|q']; [by apply L|].
  apply elem_of_cons in Hq as [->|Hq]; [|by apply L]. by eapply load_spec; [apply (inv_wf _ I)|..].
Qed.

Lemma Inv_serve S sha256 q c r w' :
  Inv S → q ∈ loaded S → serve sha256 q c (world S) = (r, w') →
  Inv (mkSystem w' (loaded S) (unseeded S) (founder S)).
Proof.
  intros I Hq H. pose proof (serve_refines sha256 q (world S) (wf_keyed _ _ (inv_wf _ I)) c) as R.
  rewrite H in R. simpl in R. rewrite (world_eta w' _ eq_refl). destruct R as [->|(mem & Hm & E)]; [by apply Inv_audit|].
  destruct (effect_keeps (founder S) sha256 q mem c (store (world S)) (store w')) as [W' C]; try done;
    [apply (inv_wf _ I)|by apply (inv_loaded _ I)|]. by apply Inv_conserves.
Qed.

Lemma Inv_create S a newID now req r w' :
  Inv S → accounts (store (world S)) !! ID a = Some a → newID ≠ EmptyString → orgs (store (world S)) !! newID = None →
  createSharedOrg_org newID now req (world S) = (r, w') →
  Inv (match r with
       | inr o => mkSystem w' (loaded S) ((o, a) :: unseeded S) (<[oID o := ID a]> (founder S))
       | inl _ => mkSystem w' (loaded S) (unseeded S) (founder S)
       end).
Proof.
  intros I Ha Hne Hn H. apply create_org_spec in H; [|done]. destruct r as [r|o].
  { apply world_eta in H as ->. by apply Inv_audit. }
  destruct H as (Hid & Hp & _ & _ & Hs). apply world_eta in Hs as ->. subst newID.
  pose proof (inv_wf _ I) as W. pose proof (found_grows o _ Hn) as G. split; simpl.
  - by apply Wf_found.
  - intros q Hq. eapply good_request_grows; [done|by apply (inv_loaded _ I)].
  - intros id Hid. unfold owned. rewrite fmap_cons, elem_of_cons. destruct (decide (id = oID o)) as [->|Hio].
    { right. split; [|by left]. intros b. by apply (fresh_unenrolled _ _ _ _ W). }
    rewrite lookup_insert_ne in Hid by done. destruct (inv_owned _ I id Hid) as [[? ?]|[? ?]]; [left|right]; [|naive_solver].
    split; [done|]. intros [E|?]; [|done]. by apply Hio.
  - apply NoDup_cons_2; [|apply (inv_seeds _ I)]. intros Hin.
    apply list_elem_of_fmap in Hin as ([o' b] & E & Hin). unfold seed_id in E. simpl in E.
    destruct (inv_seed _ I o' b Hin) as ((x & Hx & _) & _). rewrite <- E in Hx. congruence.
  - intros o' b Hin. apply elem_of_cons in Hin as [[= -> ->]|Hin].
    { rewrite !lookup_insert_eq. split_and!; [by exists o|by rewrite Ha|done]. }
    destruct (inv_seed _ I o' b Hin) as ((x & Hx & Hpx) & Hb & Hf).
    assert (oID o ≠ oID o') as Hne' by congruence. rewrite !lookup_insert_ne by done. by split; [exists x|].
Qed.

Lemma any_value_spec {K V} `{Countable K} (P : V → bool) (m : gmap K V) :
  any_value P m = true ↔ ∃ k v, m !! k = Some v ∧ P v = true.
Proof.
  unfold any_value. rewrite existsb_exists. split.
  - intros (v & Hin & HP). apply list_elem_of_In, list_elem_of_fmap in Hin as ([k v'] & -> & Hin).
    apply elem_of_map_to_list in Hin. by exists k, v'.
  - intros (k & v & Hk & HP). exists v. split; [|done]. apply list_elem_of_In, list_elem_of_fmap. exists (k, v).
    split; [done|]. by apply elem_of_map_to_list.
Qed.

(** The second half of createSharedOrg never fails. *)
Lemma seed_spec S o a now :
  Inv S → (o, a) ∈ unseeded S →
  ∃ aud, createSharedOrg_owner now a o (world S)
         = (inr (JSON 201 (OrgBody (orgToRow o))),
            mkWorld (enroll (oID o) (ID a) (mkMember (oID o) (ID a) OrgRoleOwner (Some (ID a)) now None)
                       (invitations (store (world S))) (store (world S))) aud).
Proof.
  intros I Hin. destruct (inv_seed _ I o a Hin) as ((x & Hx & _) & _ & _).
  destruct (inv_owned _ I (oID o)) as [[_ Hn]|[Hn _]]; [by exists x| |].
  { destruct Hn. apply list_elem_of_fmap. by exists (o, a). }
  unfold createSharedOrg_owner, mbind, handler_bind, write_, write, AddOrgMember.
  rewrite bool_decide_eq_false_2 by congruence. rewrite bool_decide_eq_false_2 by apply Hn.
  assert (any_value (active_owner (oID o)) (memberships (store (world S))) = false) as ->; [|by eexists].
  apply not_true_iff_false. rewrite any_value_spec. intros ([o' b] & m & Hm & HP). unfold active_owner in HP.
  apply andb_true_iff in HP as [[HP _]%andb_true_iff _]. apply String.eqb_eq in HP.
  destruct (wf_rows _ _ (inv_wf _ I) _ _ _ Hm) as (E & _). apply (Hn b). rewrite <- HP, E. by exists m.
Qed.

Lemma Inv_seed S l1 o a l2 now r w' :
  Inv S → unseeded S = l1 ++ (o, a) :: l2 → createSharedOrg_owner now a o (world S) = (r, w') →
  Inv (mkSystem w' (loaded S) (l1 ++ l2) (founder S)).
Proof.
  intros I Hu H. assert ((o, a) ∈ unseeded S) as Hin by (rewrite Hu; set_solver).
  destruct (seed_spec S o a now I Hin) as [aud E]. rewrite E in H. injection H as _ <-. clear E.
  destruct (inv_seed _ I o a Hin) as ((x & Hx & Hp) & Ha & Hf). pose proof (inv_wf _ I) as W.
  pose proof (inv_seeds _ I) as N. rewrite Hu, fmap_app, fmap_cons in N.
  assert (oID o ∉ (seed_id <$> (l1 ++ l2)) ∧ NoDup (seed_id <$> (l1 ++ l2))) as [Hni N'].
  { rewrite fmap_app. rewrite <- Permutation_middle in N. by apply NoDup_cons in N. }
  assert (∀ b, ¬ enrolled (store (world S)) (oID o) b) as Hno.
  { destruct (inv_owned _ I (oID o)) as [[_ Hn]|[Hn _]]; [by exists x| |done].
    destruct Hn. apply list_elem_of_fmap. by exists (o, a). }
  assert (memberships (store (world S)) !! (oID o, ID a) = None) as Hnew by (apply eq_None_not_Some, Hno).
  set (m := mkMember (oID o) (ID a) OrgRoleOwner (Some (ID a)) now None).
  assert (grows (store (world S)) (enroll (oID o) (ID a) m (invitations (store (world S))) (store (world S)))) as G
    by apply enroll_grows.
  split; simpl.
  - apply (Wf_enroll _ _ _ _ _ _ x); try done; [intros _ b (y & Hy & _); apply (Hno b); by exists y| |eauto|by left].
    intros k i Hi. eapply good_invitation_grows; [done|]. by apply (wf_invitations _ _ W).
  - intros q Hq. eapply good_request_grows; [done|by apply (inv_loaded _ I)].
  - intros id Hid. destruct (decide (id = oID o)) as [->|Hio].
    { left. split; [|done]. exists (ID a). rewrite enroll_owns by done. by left. }
    assert (id ∈ (seed_id <$> unseeded S) ↔ id ∈ (seed_id <$> (l1 ++ l2))) as Heq.
    { rewrite Hu, !fmap_app, fmap_cons. rewrite <- Permutation_middle, elem_of_cons. unfold seed_id at 1. simpl. naive_solver. }
    destruct (inv_owned _ I id Hid) as [[[b Hb] Hn]|[Hn Hs]]; [left|right]; rewrite <- Heq; split; try done.
    + exists b. rewrite enroll_owns by done. by right.
    + intros b. rewrite enroll_enrolled. intros [[= ? _]|?]; [done|by apply (Hn b)].
  - done.
  - intros o' b Hin'. apply (inv_seed _ I). rewrite Hu. set_solver.
Qed.

Lemma accept_spec sha256 now token a w r w' :
  acceptInvitation sha256 now token a w = (r, w') →
  store w' = store w ∨ ∃ hash m i s', ConsumeOrgInvitation now hash a (store w) = inr (m, i, s') ∧ store w' = s'.
Proof.
  intros H. unfold acceptInvitation, mbind, handler_bind in H. pose proof (still_token sha256 token w) as Ht.
  destruct (token_hash sha256 token w) as [[e|hash] w1]; [injection H as <- <-; by left|]. simpl in Ht. unfold write in H.
  rewrite Ht in H. destruct (ConsumeOrgInvitation now hash a (store w)) as [e|[[m i] s']] eqn:E.
  - destruct e; injection H as <- <-; by left.
  - injection H as <- <-. right. by exists hash, m, i, s'.
Qed.

Lemma Inv_accept S sha256 now token a r w' :
  Inv S → accounts (store (world S)) !! ID a = Some a → acceptInvitation sha256 now token a (world S) = (r, w') →
  Inv (mkSystem w' (loaded S) (unseeded S) (founder S)).
Proof.
  intros I Ha H. rewrite (world_eta w' _ eq_refl).
  apply accept_spec in H as [->|(hash & m & i' & s' & H & ->)]; [by apply Inv_audit|].
  pose proof (inv_wf _ I) as W. pose proof (consume_keeps _ _ _ _ _ _ _ _ W Ha H) as W'.
  apply consume_inr in H as (i & x & Hi & _ & _ & _ & Hx & _ & Hn & _ & _ & ->).
  set (s := store (world S)) in *. set (is' := <[hash_key hash := i']> (invitations s)) in *.
  pose proof (enroll_grows (iOrgID i) (ID a) m is' s) as G. split; simpl; [done| | |apply (inv_seeds _ I)|apply (inv_seed _ I)].
  - intros q Hq. eapply good_request_grows; [done|by apply (inv_loaded _ I)].
  - intros o Ho. destruct (inv_owned _ I o Ho) as [[[b Hb] Hs]|[Hs Hin]]; [left|right]; split; try done.
    + exists b. rewrite enroll_owns by done. by right.
    + intros b. rewrite enroll_enrolled. intros [[= -> _]|Hb]; [|by apply (Hs b)].
      destruct (good_inviter _ _ _ (wf_invitations _ _ W _ _ Hi)) as (c & _ & Hc). by apply (Hs c).
Qed.

Lemma Inv_signup S NewSHA1 acctID orgID now email plan a o s' :
  Inv S → accounts (store (world S)) !! acctID = None → orgs (store (world S)) !! orgID = None →
  CreateAccountWithPersonalOrg NewSHA1 acctID orgID now email plan (store (world S)) = inr (a, o, s') →
  Inv (mkSystem (mkWorld s' (audit (world S))) (loaded S) (unseeded S) (<[orgID := acctID]> (founder S))).
Proof.
  intros I Ha Ho H. pose proof (inv_wf _ I) as W. pose proof (signup_grows _ _ _ _ _ _ _ _ _ _ Ha Ho H) as G.
  pose proof (signup_spec _ _ _ _ _ _ _ _ _ _ H) as (_ & _ & _ & Es).
  assert (∀ o' b, (o', b) ∈ unseeded S → oID o' ≠ orgID) as Hne.
  { intros o' b Hin E. destruct (inv_seed _ I o' b Hin) as ((x & Hx & _) & _). congruence. }
  split; simpl; [by eapply Wf_signup| | |apply (inv_seeds _ I)|].
  - intros q Hq. eapply good_request_grows; [done|by apply (inv_loaded _ I)].
  - intros id [x Hx]. destruct (decide (id = orgID)) as [->|Hid].
    { left. split; [exists acctID; rewrite signup_owns by done; by left|].
      intros Hin. apply list_elem_of_fmap in Hin as ([o' b] & E & Hin). by apply (Hne o' b Hin). }
    assert (is_Some (orgs (store (world S)) !! id)) as Hs by (rewrite Es in Hx; simpl in Hx; rewrite lookup_insert_ne in Hx; by eauto).
    destruct (inv_owned _ I id Hs) as [[[b Hb] Hn]|[Hn Hin]]; [left|right]; split; try done.
    + exists b. rewrite signup_owns by done. by right.
    + intros b. rewrite signup_enrolled by done. intros [[= ? _]|?]; [done|by apply (Hn b)].
  - intros o' b Hin. destruct (inv_seed _ I o' b Hin) as ((x & Hx & Hp) & [y Hy] & Hf). split_and!.
    + destruct (grows_orgs _ _ G _ _ Hx) as (x' & Hx' & (_ & _ & Hp' & _)). exists x'. by rewrite Hp'.
    + exists y. eapply lookup_weaken; [done|apply (grows_accounts _ _ G)].
    + rewrite lookup_insert_ne; [done|]. intros E. by apply (Hne o' b Hin).
Qed.

Lemma Inv_step sha256 NewSHA1 S S' : Inv S → step sha256 NewSHA1 S S' → Inv S'.
Proof.
  intros I H. destruct H.
  - by eapply Inv_signup.
  - by eapply Inv_load.
  - by eapply Inv_serve.
  - by eapply Inv_create.
  - by eapply Inv_seed.
  - by eapply Inv_accept.
  - destruct (expire_keeps (founder S) now (store (world S)) (inv_wf _ I)) as [W C]. by apply Inv_conserves.
Qed.

Lemma reachable_Inv sha256 NewSHA1 S : reachable sha256 NewSHA1 S → Inv S.
Proof.
  intros H. pose proof Inv_start as I. unfold reachable in H. induction H; eauto using Inv_step.
Qed.

(** ** Settled invitations *)

Lemma effect_settled sha256 q mem c s s' k i :
  effect sha256 q mem s c s' → invitations s !! k = Some i → settled i = true → invitations s' !! k = Some i.
Proof.
  intros E Hi Hs. destruct E as
    [| |newID p now req o _ _ _ _ _ _ Hnew| | | |now token p j _ _ Hj Hsj]; simpl; try done.
  - rewrite lookup_insert_ne; [done|congruence].
  - rewrite lookup_insert_ne; [done|congruence].
Qed.

Lemma step_settled sha256 NewSHA1 S S' k i :
  Inv S → step sha256 NewSHA1 S S' → invitations (store (world S)) !! k = Some i → settled i = true →
  invitations (store (world S')) !! k = Some i.
Proof.
  intros I H Hi Hs. destruct H as [S acctID orgID now email plan a o s' _ _ H|S header query a r w' _ H|S q c r w' _ H
    |S a newID now req r w' _ Hne _ H|S l1 o a l2 now r w' Hu H|S a now token r w' _ H|S now]; simpl.
  - apply signup_spec in H as (_ & _ & _ & ->). done.
  - pose proof (still_load header query a (world S)) as E. rewrite H in E. simpl in E. by rewrite E.
  - pose proof (serve_refines sha256 q (world S) (wf_keyed _ _ (inv_wf _ I)) c) as R. rewrite H in R. simpl in R.
    destruct R as [->|(mem & _ & E)]; [done|]. by eapply effect_settled.
  - apply create_org_spec in H; [|done]. destruct r; simpl; [by rewrite H|]. by destruct H as (_ & _ & _ & _ & ->).
  - destruct (seed_spec S o a now I) as [aud E]; [rewrite Hu; set_solver|]. rewrite E in H. by injection H as _ <-.
  - apply accept_spec in H as [->|(hash & m & j' & s' & H & ->)]; [done|].
    apply consume_inr in H as (j & x & Hj & Ej & _ & _ & _ & _ & _ & _ & _ & ->). simpl.
    rewrite lookup_insert_ne; [done|congruence].
  - rewrite lookup_fmap, Hi. simpl. unfold sweepable. by rewrite Hs.
Qed.

(** ** Handlers that succeed *)

Lemma empty_encode p : p ≠ EmptyString → empty (RawURL.EncodeToString p) = false.
Proof. destruct p as [|a [|b [|c p]]]; done. Qed.

Lemma token_hash_minted sha256 p w :
  p ≠ EmptyString → token_hash sha256 (RawURL.EncodeToString p) w = (inr (sha256 p), w).
Proof. intros Hp. unfold token_hash. by rewrite empty_encode, RawURL.decode_encode. Qed.

Lemma authorize_permitted q mem action w :
  stamp q = Some mem → permitted action (mRole mem) = true → AuthorizeOrgAction q action w = (inr tt, w).
Proof.
  intros Hq Hp. unfold AuthorizeOrgAction. rewrite Hq. unfold permitted in Hp. destruct (roles_for action); [|done].
  by rewrite Hp.
Qed.

Lemma bind_runs {A B} (m : handler A) (f : A → handler B) w a w1 : m w = (inr a, w1) → (m ≫= f) w = f a w1.
Proof. intros H. unfold mbind, handler_bind. by rewrite H. Qed.

Lemma ensure_true b r w : b = true → ensure b r w = (inr tt, w).
Proof. by intros ->. Qed.

Lemma mutable_shared mem x w :
  orgs (store w) !! mOrgID mem = Some x → oPersonal x = false → loadMutableOrgByMembership mem w = (inr x, w).
Proof.
  intros Hx Hp. unfold loadMutableOrgByMembership, OrgByID, mbind, handler_bind, read. rewrite Hx. simpl. by rewrite Hp.
Qed.

Lemma pending_below now x w :
  (0 < Plan.OrgPendingInvitationsMax (oPlan x) →
   CountPendingOrgInvitations now (oID x) (store w) < Plan.OrgPendingInvitationsMax (oPlan x)) →
  enforcePendingInvitationCap now x w = (inr tt, w).
Proof.
  intros H. unfold enforcePendingInvitationCap. destruct (Z.leb_spec (Plan.OrgPendingInvitationsMax (oPlan x)) 0); [done|].
  unfold mbind, handler_bind, read. apply ensure_true. by apply Z.ltb_lt, H.
Qed.

Lemma invite_succeeds sha256 newID p now q mem req x w :
  stamp q = Some mem → permitted OrgActionInviteMembers (mRole mem) = true →
  orgs (store w) !! mOrgID mem = Some x → oID x = mOrgID mem → oPersonal x = false →
  TrimSpace (ToLower (nEmail req)) ≠ EmptyString → containsOrgMemberRoleForInvite (TrimSpace (nRole req)) = true →
  (0 < Plan.OrgPendingInvitationsMax (oPlan x) →
   CountPendingOrgInvitations now (oID x) (store w) < Plan.OrgPendingInvitationsMax (oPlan x)) →
  invitations (store w) !! hash_key (sha256 p) = None →
  let i := issued sha256 newID p now (ID (caller q)) (mOrgID mem) req in
  ∃ aud, inviteOrgMember sha256 newID (Some p) now q (Some req) w
         = (inr (JSON 201 (InvitationWithToken (invitationToRow i (oSlug x) now) (RawURL.EncodeToString p))),
            mkWorld (set_invitations (<[hash_key (sha256 p) := i]> (invitations (store w))) (store w)) aud).
Proof.
  intros Hq Hp Hx Hid Hs He Hr Hcap Hnew i. unfold inviteOrgMember.
  erewrite bind_runs by (by apply (authorize_permitted q mem)).
  erewrite bind_runs by (unfold requireMembership; by rewrite Hq). erewrite bind_runs by done.
  erewrite bind_runs by (apply ensure_true; by destruct (TrimSpace (ToLower (nEmail req)))).
  erewrite bind_runs by (by apply ensure_true). erewrite bind_runs by (by apply mutable_shared).
  erewrite bind_runs by (by apply pending_below). erewrite bind_runs by done.
  assert (persistOrgInvitation newID now x
            (mkInvitation EmptyString EmptyString (TrimSpace (ToLower (nEmail req))) (TrimSpace (nRole req)) (sha256 p)
               (Some (ID (caller q))) zero_time None None None zero_time) w
          = (inr i, mkWorld (set_invitations (<[hash_key (sha256 p) := i]> (invitations (store w))) (store w)) (audit w))) as E.
  { unfold persistOrgInvitation, mbind, handler_bind, write, CreateOrgInvitation. simpl.
    rewrite bool_decide_eq_false_2 by (by rewrite Hnew; intros []).
    assert ((if now =? zero_time then now else now) = now) as -> by (by destruct (now =? zero_time)).
    by rewrite Hid. }
  erewrite bind_runs by exact E. by eexists.
Qed.

(** The store after an acceptance. *)
Definition joined (now : Time) (hash : string) (i : OrgInvitation) (a : Account) (s : Store) : Store :=
  enroll (iOrgID i) (ID a) (mkMember (iOrgID i) (ID a) (iRole i) (iInvitedByAccountID i) now None)
    (<[hash_key hash := mark_consumed now (ID a) i]> (invitations s)) s.

Lemma consume_succeeds now hash a i x s :
  invitations s !! hash_key hash = Some i → settled i = false → expired now i = false →
  EqualFold (iEmail i) (Email a) = true → orgs s !! iOrgID i = Some x →
  (0 < Plan.OrgMembersMax (oPlan x) → CountActiveOrgMembers (iOrgID i) s < Plan.OrgMembersMax (oPlan x)) →
  memberships s !! (iOrgID i, ID a) = None →
  ConsumeOrgInvitation now hash a s
  = inr (mkMember (iOrgID i) (ID a) (iRole i) (iInvitedByAccountID i) now None, mark_consumed now (ID a) i, joined now hash i a s).
Proof.
  intros Hi Hs He Hf Hx Hcap Hn. unfold ConsumeOrgInvitation. rewrite Hi, Hs, He, Hf, Hx. cbn -[lookup insert Plan.accessor].
  destruct ((0 <? _) && _) eqn:E.
  { apply andb_true_iff in E as [E1 E2]. apply Z.ltb_lt in E1. apply Z.leb_le in E2. specialize (Hcap E1). lia. }
  by rewrite bool_decide_eq_false_2 by (by rewrite Hn; intros []).
Qed.

Lemma accept_succeeds sha256 now p a i x w :
  p ≠ EmptyString → invitations (store w) !! hash_key (sha256 p) = Some i → settled i = false → expired now i = false →
  EqualFold (iEmail i) (Email a) = true → orgs (store w) !! iOrgID i = Some x →
  (0 < Plan.OrgMembersMax (oPlan x) → CountActiveOrgMembers (iOrgID i) (store w) < Plan.OrgMembersMax (oPlan x)) →
  memberships (store w) !! (iOrgID i, ID a) = None →
  ∃ row aud, acceptInvitation sha256 now (RawURL.EncodeToString p) a w
             = (inr (JSON 200 (MemberBody row)), mkWorld (joined now (sha256 p) i a (store w)) aud)
             ∧ wAccountID row = ID a ∧ wRole row = iRole i.
Proof.
  intros Hp Hi Hs He Hf Hx Hcap Hn. unfold acceptInvitation. erewrite bind_runs by (by apply token_hash_minted).
  erewrite bind_runs by (unfold write; by rewrite (consume_succeeds now (sha256 p) a i x)).
  erewrite bind_runs by done. do 3 (erewrite bind_runs by done). do 2 eexists. by split_and!.
Qed.

(** An invitation whose row is settled is refused. *)
Lemma accept_settled sha256 now token p a i w :
  token ≠ EmptyString → RawURL.DecodeString token = Some p →
  invitations (store w) !! hash_key (sha256 p) = Some i → settled i = true →
  acceptInvitation sha256 now token a w = (inl InvitationInvalid, w).
Proof.
  intros Hne Hd Hi Hs. unfold acceptInvitation.
  assert (token_hash sha256 token w = (inr (sha256 p), w)) as Et.
  { unfold token_hash. rewrite Hd. by destruct token. }
  erewrite bind_runs by exact Et.
  erewrite bind_runs by (unfold write, ConsumeOrgInvitation; by rewrite Hi, Hs). done.
Qed.

Lemma remove_inr now q t w r w' mem :
  stamp q = Some mem → removeOrgMember now q t w = (inr r, w') →
  RemoveOrgMember now (mOrgID mem) t (store w) = inr (store w').
Proof.
  intros Hq H. pose proof (still_authorize q OrgActionRemoveMembers w) as E1. unfold removeOrgMember in H.
  apply bind_split in H as (u & w1 & H1 & H). rewrite H1 in E1. simpl in E1.
  rewrite (bind_runs _ _ w1 mem w1) in H by (unfold requireMembership; by rewrite Hq).
  apply bind_split in H as (u2 & w2 & H2 & H). apply bind_split in H as (u3 & w3 & H3 & H).
  unfold ensure in H2, H3. destruct (negb (empty t)); [|done]. destruct (negb (String.eqb t _)); [|done].
  injection H2 as _ <-. injection H3 as _ <-. apply bind_split in H as (e & w4 & H4 & H).
  unfold write_, write in H4. rewrite E1 in H4. destruct (RemoveOrgMember now (mOrgID mem) t (store w)) as [err|s'] eqn:E.
  - injection H4 as <- <-. apply bind_split in H as (? & ? & H & _). by apply or_answer_inr in H.
  - injection H4 as <- <-. apply bind_split in H as (? & w5 & H5 & H). injection H5 as _ <-.
    apply bind_split in H as (? & w6 & H6 & H). injection H6 as _ <-. by injection H as _ <-.
Qed.

Lemma load_member slug a x m w :
  TrimSpace slug = slug → slug ≠ EmptyString → Z.of_nat (String.length slug) ≤ maxSlugLen →
  orgsBySlug (store w) !! ToLower slug = Some (oID x) → orgs (store w) !! oID x = Some x →
  memberships (store w) !! (oID x, ID a) = Some m →
  handleLoadOrg slug EmptyString a w = (inr (mkRequest a (Some m)), w).
Proof.
  intros Ht Hne Hl Hs Hx Hm. unfold handleLoadOrg, active_slug. rewrite Ht.
  assert (empty slug = false) as E by (by destruct slug). rewrite E, E. simpl.
  destruct (Z.ltb_spec maxSlugLen (Z.of_nat (String.length slug))); [lia|].
  erewrite bind_runs by done. unfold OrgBySlug. rewrite Hs, Hx. simpl.
  erewrite bind_runs by done. unfold OrgMemberByAccount. by rewrite Hm.
Qed.

(** ** Pages of invitations *)

#[local] Instance page_before_weak : WeakOrder page_before.
Proof.
  assert (WeakOrder (lex_less iCreatedAt Z.eqb (λ x y, y <? x) (λ a b, str_ltb (iID b) (iID a)))) as [Ha Hn].
  { apply lex_less_weak; [apply flip_weak, _| |intros x y; rewrite Zeqb_lt_spec; by rewrite andb_comm].
    apply (flip_weak (λ a b, str_ltb (iID a) (iID b))), key_weak, _. }
  assert (∀ a b, page_before a b = lex_less iCreatedAt Z.eqb (λ x y, y <? x) (λ a b, str_ltb (iID b) (iID a)) a b) as E
    by (intros a b; unfold page_before, lex_less, newer; by destruct (iCreatedAt a =? iCreatedAt b)).
  split; intros *; rewrite !E; eauto.
Qed.


Section pages.
(** The zone of the process, see [key_Marshal]. *)
Context (Local : Time → Z).

















End pages.

(** ** Theorems *)

(** C25: Whatever the interleaving of sign-ups, organization creations, requests served with memberships
    read earlier, acceptances and sweeps, an organization whose first owner is seeded has exactly one
    active owner; before that nobody is on its rolls.  A personal organization has the account it was
    created for on its rolls and nobody else. *)
Theorem org_owner_unique sha256 NewSHA1 S o x :
  reachable sha256 NewSHA1 S → orgs (store (world S)) !! o = Some x →
  ((∃ a, owns (store (world S)) o a ∧ ∀ b, owns (store (world S)) o b → b = a)
   ∨ o ∈ (seed_id <$> unseeded S) ∧ ∀ a, ¬ enrolled (store (world S)) o a)
  ∧ (oPersonal x = true → ∃ a, oPersonalOwnerAccountID x = Some a ∧ ∀ b, enrolled (store (world S)) o b ↔ b = a).
Proof.
  intros I%reachable_Inv Hx. pose proof (inv_wf _ I) as W. split.
  - destruct (inv_owned _ I o) as [[[a Ha] _]|[Hn Hin]]; [by exists x| |by right].
    left. exists a. split; [done|]. intros b Hb. by apply (wf_one_owner _ _ W o).
  - intros Hp. destruct (wf_personal _ _ W o x Hx Hp) as (p & H1 & (m & Hm & _) & H3). exists p. split; [done|].
    intros b. split; [apply H3|]. intros ->. by exists m.
Qed.

(** C26: Nobody joins an organization uninvited: an account on its rolls founded it, or accepted an
    invitation to it that carries the account's own address and a role below owner and that a member
    issued. *)
Theorem membership_origin sha256 NewSHA1 S o a :
  reachable sha256 NewSHA1 S → enrolled (store (world S)) o a →
  founder S !! o = Some a
  ∨ ∃ k i acct b, invitations (store (world S)) !! k = Some i ∧ iOrgID i = o ∧ accepted_by i a
      ∧ accounts (store (world S)) !! a = Some acct ∧ EqualFold (iEmail i) (Email acct) = true
      ∧ iRole i ≠ OrgRoleOwner ∧ iInvitedByAccountID i = Some b ∧ enrolled (store (world S)) o b.
Proof.
  intros I%reachable_Inv He. pose proof (inv_wf _ I) as W.
  destruct (wf_origin _ _ W o a He) as [?|(k & i & Hi & <- & [Hc Ha])]; [by left|right].
  pose proof (wf_invitations _ _ W _ _ Hi) as [_ Hr _ (b & Hb & Heb) _ Hacc].
  destruct (Hacc Hc) as (a' & acct & Ha' & Hacct & Hf & _). assert (a' = a) as -> by congruence.
  exists k, i, acct, b. split_and!; try done. intros E. by rewrite E in Hr.
Qed.


(** C28: An invitation is used at most once: when it is accepted or revoked, no later step changes its row,
    and every later attempt to accept it is answered 410 and leaves the store alone. *)
Theorem invitation_single_use sha256 NewSHA1 S S' k i now token p a :
  reachable sha256 NewSHA1 S → invitations (store (world S)) !! k = Some i → settled i = true →
  rtc (step sha256 NewSHA1) S S' →
  invitations (store (world S')) !! k = Some i
  ∧ (token ≠ EmptyString → RawURL.DecodeString token = Some p → hash_key (sha256 p) = k →
     acceptInvitation sha256 now token a (world S') = (inl InvitationInvalid, world S')).
Proof.
  intros I%reachable_Inv Hi Hs H.
  assert (invitations (store (world S')) !! k = Some i) as Hi'.
  { induction H as [|S S1 S' H _ IH]; [done|]. apply IH; [by eapply Inv_step|by eapply step_settled]. }
  split; [done|]. intros Hne Hd <-. by eapply accept_settled.
Qed.

(** C29: The token inviteOrgMember answers with is the invitation: presented within its fourteen days by an
    account with the invited address that is not on the rolls, while a plan with a member cap leaves room,
    it enrolls that account with the invited role, and the invitation is consumed. *)
Theorem invitation_roundtrip sha256 newID plaintext now now' q mem req x w a :
  stamp q = Some mem → permitted OrgActionInviteMembers (mRole mem) = true →
  orgs (store w) !! mOrgID mem = Some x → oID x = mOrgID mem → oPersonal x = false →
  TrimSpace (ToLower (nEmail req)) ≠ EmptyString → containsOrgMemberRoleForInvite (TrimSpace (nRole req)) = true →
  (0 < Plan.OrgPendingInvitationsMax (oPlan x) →
   CountPendingOrgInvitations now (oID x) (store w) < Plan.OrgPendingInvitationsMax (oPlan x)) →
  plaintext ≠ EmptyString → invitations (store w) !! hash_key (sha256 plaintext) = None →
  now' ≤ now + 14 * 24 * Hour → EqualFold (TrimSpace (ToLower (nEmail req))) (Email a) = true →
  memberships (store w) !! (mOrgID mem, ID a) = None →
  (0 < Plan.OrgMembersMax (oPlan x) → CountActiveOrgMembers (mOrgID mem) (store w) < Plan.OrgMembersMax (oPlan x)) →
  ∃ row token w1 row' w2,
    inviteOrgMember sha256 newID (Some plaintext) now q (Some req) w = (inr (JSON 201 (InvitationWithToken row token)), w1)
    ∧ acceptInvitation sha256 now' token a w1 = (inr (JSON 200 (MemberBody row')), w2)
    ∧ wRole row' = TrimSpace (nRole req)
    ∧ memberships (store w2) !! (mOrgID mem, ID a)
      = Some (mkMember (mOrgID mem) (ID a) (TrimSpace (nRole req)) (Some (ID (caller q))) now' None)
    ∧ ∃ i, invitations (store w2) !! hash_key (sha256 plaintext) = Some i ∧ accepted_by i (ID a).
Proof.
  intros Hq Hp Hx Hid Hs He Hr Hcap Hpl Hnew Hnow Hf Hn Hmax.
  destruct (invite_succeeds sha256 newID plaintext now q mem req x w) as [aud E]; try done.
  set (i := issued _ _ _ _ _ _ _) in E. set (w1 := mkWorld _ aud) in E.
  assert (invitations (store w1) !! hash_key (sha256 plaintext) = Some i) as Hi by apply lookup_insert_eq.
  destruct (accept_succeeds sha256 now' plaintext a i x w1) as (row' & aud' & E' & _ & Hrow); try done.
  { unfold expired. apply andb_false_iff. right. apply Z.ltb_ge. exact Hnow. }
  eexists _, _, w1, row', _. split_and!; [exact E|exact E'|done|apply lookup_insert_eq|].
  exists (mark_consumed now' (ID a) i). split; [apply lookup_insert_eq|]. split; [by eexists|done].
Qed.

(** C30: Removing an admin does not take their access: when removeOrgMember has answered 204, LoadOrg still
    stamps the removed membership on their requests, and inviteOrgMember still answers them 201 and writes
    their invitation. *)
Theorem removed_admin_invites sha256 newID plaintext now now' q mem m acct slug x req w w1 :
  stamp q = Some mem → memberships (store w) !! (mOrgID mem, ID acct) = Some m → mRole m = OrgRoleAdmin →
  mOrgID m = mOrgID mem →
  orgs (store w) !! mOrgID mem = Some x → oID x = mOrgID mem → oPersonal x = false →
  TrimSpace slug = slug → slug ≠ EmptyString → Z.of_nat (String.length slug) ≤ maxSlugLen →
  orgsBySlug (store w) !! ToLower slug = Some (oID x) →
  TrimSpace (ToLower (nEmail req)) ≠ EmptyString → containsOrgMemberRoleForInvite (TrimSpace (nRole req)) = true →
  (0 < Plan.OrgPendingInvitationsMax (oPlan x) →
   CountPendingOrgInvitations now' (oID x) (store w) < Plan.OrgPendingInvitationsMax (oPlan x)) →
  invitations (store w) !! hash_key (sha256 plaintext) = None →
  removeOrgMember now q (ID acct) w = (inr NoContent, w1) →
  ∃ q' m' row token w2,
    handleLoadOrg slug EmptyString acct w1 = (inr q', w1) ∧ stamp q' = Some m' ∧ mRemovedAt m' = Some now
    ∧ inviteOrgMember sha256 newID (Some plaintext) now' q' (Some req) w1
      = (inr (JSON 201 (InvitationWithToken row token)), w2)
    ∧ ∃ i, invitations (store w2) !! hash_key (sha256 plaintext) = Some i ∧ iOrgID i = oID x
           ∧ iInvitedByAccountID i = Some (ID acct).
Proof.
  intros Hq Hm Hrole Horg Hx Hid Hp Ht Hne Hl Hslug He Hr Hcap Hnew H.
  apply (remove_inr _ _ _ _ _ _ mem Hq) in H. unfold RemoveOrgMember in H. rewrite Hm, Hrole in H.
  simpl in H. injection H as Hs. symmetry in Hs.
  set (m' := mkMember _ _ _ _ _ (Some now)) in Hs. set (q' := mkRequest acct (Some m')).
  assert (orgs (store w1) = orgs (store w) ∧ orgsBySlug (store w1) = orgsBySlug (store w)
          ∧ invitations (store w1) = invitations (store w)) as (E1 & E2 & E3) by (by rewrite Hs).
  assert (mOrgID m' = oID x) as Ho by (simpl; congruence). assert (mRole m' = OrgRoleAdmin) as Hr' by done.
  destruct (invite_succeeds sha256 newID plaintext now' q' m' req x w1) as [aud E]; try done.
  - by rewrite Ho, E1, Hid.
  - by unfold CountPendingOrgInvitations; rewrite E3.
  - by rewrite E3.
  - eexists q', m', _, _, _. split_and!; [|done|done|exact E|].
    + apply (load_member _ _ x); try done; [by rewrite E2|by rewrite E1, Hid|]. rewrite Hs, Hid. apply lookup_insert_eq.
    + eexists. split; [apply lookup_insert_eq|]. by split.
Qed.

(** The caps of the plan table do not bind an organization as createSharedOrg makes it: its plan is
    free, whose caps of zero read as no cap, so that while the plan stands no acceptance is refused for the
    number of members and no invitation for the number of pending ones. *)
Theorem created_org_uncapped newID now req w o w1 w2 x :
  newID ≠ EmptyString → createSharedOrg_org newID now req w = (inr o, w1) →
  orgs (store w2) !! oID o = Some x → oPlan x = oPlan o →
  (∀ now' hash a i, invitations (store w2) !! hash_key hash = Some i → iOrgID i = oID o →
     ConsumeOrgInvitation now' hash a (store w2) ≠ inl ErrOrgMemberCapExceeded)
  ∧ ∀ now', enforcePendingInvitationCap now' x w2 = (inr tt, w2).
Proof.
  intros Hne H Hx Hpl. apply create_org_spec in H as (_ & _ & Hfree & _ & _); [|done]. rewrite Hfree in Hpl. split.
  - intros now' hash a i Hi Ho. unfold ConsumeOrgInvitation. rewrite Hi, Ho, Hx, Hpl.
    destruct (settled i); [done|]. destruct (expired now' i); [done|]. destruct (EqualFold _ _); [|done]. simpl.
    by case_bool_decide.
  - intros now'. apply pending_below. by rewrite Hpl.
Qed.


(** ** A run *)

Definition rx_sha (s : string) : string := s.
Definition rx_uuid (s : string) : string := String.append s "-0123456789abcdef".

Definition rx_alice : Account := mkAccount "alice" "alice@acme.dev" PlanFree AccountActive 10.
Definition rx_bob : Account := mkAccount "bob" "Bob@acme.dev" PlanFree AccountActive 11.

Definition signup_store (r : error + (Account * Org * Store)) : Store :=
  match r with inr (_, _, s) => s | inl _ => empty_store end.

Definition rx_signed_up (S : System) (a : Account) (org : string) : System :=
  mkSystem (mkWorld (signup_store (CreateAccountWithPersonalOrg rx_uuid (ID a) org (CreatedAt a) (Email a) (Plan a)
                                     (store (world S)))) (audit (world S)))
    (loaded S) (unseeded S) (<[org := ID a]> (founder S)).

Definition rx_accounts : System := rx_signed_up (rx_signed_up start rx_alice "o-alice") rx_bob "o-bob".

Definition rx_created := createSharedOrg_org "o-acme" 12 (Some (mkCreate "acme" "Acme")) (world rx_accounts).
Definition rx_acme : Org := match rx_created.1 with inr o => o | inl _ => zero_org end.
Definition rx_unseeded : System :=
  mkSystem rx_created.2 [] [(rx_acme, rx_alice)] (<[oID rx_acme := "alice"]> (founder rx_accounts)).
Definition rx_seeded : System :=
  mkSystem (createSharedOrg_owner 13 rx_alice rx_acme (world rx_unseeded)).2 [] [] (founder rx_unseeded).

Definition rx_load := handleLoadOrg " Acme" EmptyString rx_alice (world rx_seeded).
Definition rx_owner : Request := match rx_load.1 with inr q => q | inl _ => mkRequest rx_alice None end.
Definition rx_loaded : System := mkSystem rx_load.2 [rx_owner] [] (founder rx_seeded).

Definition rx_invite : InviteMemberRequest := mkInvite " bob@Acme.dev" "admin".
Definition rx_call : call := Invite "i-1" (Some "plaintext"%string) 14 (Some rx_invite).
Definition rx_invited : System :=
  mkSystem (serve rx_sha rx_owner rx_call (world rx_loaded)).2 [rx_owner] [] (founder rx_loaded).

Definition rx_token : string := RawURL.EncodeToString "plaintext".
Definition rx_joined : System :=
  mkSystem (acceptInvitation rx_sha 15 rx_token rx_bob (world rx_invited)).2 [rx_owner] [] (founder rx_invited).

Definition rx_removal := removeOrgMember 16 rx_owner "bob" (world rx_joined).

Lemma rx_reach_accounts : reachable rx_sha rx_uuid rx_accounts.
Proof.
  eapply rtc_l; [|eapply rtc_l; [|apply rtc_refl]].
  - apply (step_signup _ _ start "alice" "o-alice" 10 "alice@acme.dev" PlanFree rx_alice (personal_org rx_uuid "o-alice" 10 rx_alice));
      vm_compute; reflexivity.
  - apply (step_signup _ _ (rx_signed_up start rx_alice "o-alice") "bob" "o-bob" 11 "Bob@acme.dev" PlanFree rx_bob
             (personal_org rx_uuid "o-bob" 11 rx_bob)); vm_compute; reflexivity.
Qed.

Lemma rx_reach_loaded : reachable rx_sha rx_uuid rx_loaded.
Proof.
  unfold reachable. etrans; [apply rx_reach_accounts|]. eapply rtc_l; [|eapply rtc_l; [|eapply rtc_l; [|apply rtc_refl]]].
  - apply (step_create _ _ rx_accounts rx_alice "o-acme" 12 (Some (mkCreate "acme" "Acme")) (inr rx_acme) rx_created.2);
      [vm_compute; reflexivity|done|vm_compute; reflexivity..].
  - apply (step_seed _ _ rx_unseeded [] rx_acme rx_alice [] 13 (inr (JSON 201 (OrgBody (orgToRow rx_acme)))));
      [reflexivity|vm_compute; reflexivity].
  - apply (step_load _ _ rx_seeded " Acme" EmptyString rx_alice (inr rx_owner) rx_load.2); vm_compute; reflexivity.
Qed.

Lemma rx_reach_joined : reachable rx_sha rx_uuid rx_joined.
Proof.
  unfold reachable. etrans; [apply rx_reach_loaded|]. eapply rtc_l; [|eapply rtc_l; [|apply rtc_refl]].
  - eapply (step_serve _ _ rx_loaded rx_owner rx_call); [left|apply surjective_pairing].
  - eapply (step_accept _ _ rx_invited rx_bob 15 rx_token); [vm_compute; reflexivity|apply surjective_pairing].
Qed.

Lemma org_owner_unique_witness :
  memberships (store (world rx_joined)) !! ("o-acme", "bob")%string
  = Some (mkMember "o-acme" "bob" OrgRoleAdmin (Some "alice"%string) 15 None)
  ∧ ((∃ a, owns (store (world rx_joined)) "o-acme" a ∧ ∀ b, owns (store (world rx_joined)) "o-acme" b → b = a)
     ∨ "o-acme"%string ∈ (seed_id <$> unseeded rx_joined) ∧ ∀ a, ¬ enrolled (store (world rx_joined)) "o-acme" a).
Proof.
  split; [vm_compute; reflexivity|]. apply (org_owner_unique rx_sha rx_uuid rx_joined "o-acme" rx_acme).
  - apply rx_reach_joined.
  - vm_compute. reflexivity.
Defined.

Lemma membership_origin_witness :
  founder rx_joined !! "o-acme"%string = Some "bob"%string
  ∨ ∃ k i acct b, invitations (store (world rx_joined)) !! k = Some i ∧ iOrgID i = "o-acme"%string ∧ accepted_by i "bob"
      ∧ accounts (store (world rx_joined)) !! "bob"%string = Some acct ∧ EqualFold (iEmail i) (Email acct) = true
      ∧ iRole i ≠ OrgRoleOwner ∧ iInvitedByAccountID i = Some b ∧ enrolled (store (world rx_joined)) "o-acme" b.
Proof.
  apply (membership_origin rx_sha rx_uuid rx_joined "o-acme" "bob").
  - apply rx_reach_joined.
  - vm_compute. eexists. reflexivity.
Defined.


Definition rx_row : OrgInvitation :=
  mark_consumed 15 "bob" (issued rx_sha "i-1" "plaintext" 14 "alice" "o-acme" rx_invite).

Lemma invitation_single_use_witness :
  acceptInvitation rx_sha 17 rx_token rx_bob (world rx_joined) = (inl InvitationInvalid, world rx_joined).
Proof.
  apply (invitation_single_use rx_sha rx_uuid rx_joined rx_joined (hash_key "plaintext") rx_row 17 rx_token "plaintext" rx_bob).
  - apply rx_reach_joined.
  - vm_compute. reflexivity.
  - vm_compute. reflexivity.
  - apply rtc_refl.
  - discriminate.
  - vm_compute. reflexivity.
  - reflexivity.
Defined.

Ltac evaluate := vm_compute; first [reflexivity|discriminate|intros; discriminate].

Lemma invitation_roundtrip_witness :
  ∃ row token w1 row' w2,
    inviteOrgMember rx_sha "i-1" (Some "plaintext"%string) 14 rx_owner (Some rx_invite) (world rx_loaded)
    = (inr (JSON 201 (InvitationWithToken row token)), w1)
    ∧ acceptInvitation rx_sha 15 token rx_bob w1 = (inr (JSON 200 (MemberBody row')), w2)
    ∧ wRole row' = OrgRoleAdmin.
Proof.
  destruct (invitation_roundtrip rx_sha "i-1" "plaintext" 14 15 rx_owner
              (mkMember "o-acme" "alice" OrgRoleOwner (Some "alice"%string) 13 None) rx_invite rx_acme (world rx_loaded) rx_bob)
    as (row & token & w1 & row' & w2 & H1 & H2 & H3 & _);
    [evaluate..|exists row, token, w1, row', w2; auto].
Defined.

Lemma removed_admin_invites_witness :
  ∃ q' m' row token w2,
    handleLoadOrg "acme" EmptyString rx_bob rx_removal.2 = (inr q', rx_removal.2) ∧ stamp q' = Some m'
    ∧ mRemovedAt m' = Some 16
    ∧ inviteOrgMember rx_sha "i-2" (Some "second"%string) 17 q' (Some (mkInvite "eve@acme.dev" "admin")) rx_removal.2
      = (inr (JSON 201 (InvitationWithToken row token)), w2).
Proof.
  destruct (removed_admin_invites rx_sha "i-2" "second" 16 17 rx_owner
              (mkMember "o-acme" "alice" OrgRoleOwner (Some "alice"%string) 13 None)
              (mkMember "o-acme" "bob" OrgRoleAdmin (Some "alice"%string) 15 None) rx_bob "acme" rx_acme
              (mkInvite "eve@acme.dev" "admin") (world rx_joined) rx_removal.2)
    as (q' & m' & row & token & w2 & H1 & H2 & H3 & H4 & _);
    [evaluate..|exists q', m', row, token, w2; auto].
Defined.

Lemma created_org_uncapped_witness :
  Plan.OrgMembersMax (oPlan rx_acme) = 0
  ∧ ConsumeOrgInvitation 15 "plaintext" rx_bob (store (world rx_invited)) ≠ inl ErrOrgMemberCapExceeded.
Proof.
  split; [reflexivity|].
  refine (proj1 (created_org_uncapped "o-acme" 12 (Some (mkCreate "acme" "Acme")) (world rx_accounts) rx_acme rx_created.2
                   (world rx_invited) rx_acme _ _ _ _) 15 _ rx_bob (issued rx_sha "i-1" "plaintext" 14 "alice" "o-acme" rx_invite) _ _); evaluate.
Defined.



End OrgRun.
